(* ===== verification/_CoqProject ===== *)
-Q . S2P
Prelude.v
Float.v
FloatBounds.v
Core.v
Winding.v
External.v
Crypto.v
Schema.v
Codec.v
Csr.v
Rtl.v
BitPlane.v
Rob.v
Bitweave.v
Sim.v
Obg.v
Fabric.v
FlrClient.v
FlrModels.v
FlrStore.v
FlrEngine.v
FlrLease.v
FlrMerkle.v
FlrDirectory.v
FlrLedger.v
FlrConflict.v
FlrTime.v
FlrAuditLog.v
FlrXlat.v
FlrFederation.v
FlrRest.v
FlrApi.v
FlrCompliance.v
Cli.v
FlrInterop.v
D3Rpc.v
D3Handshake.v
D3Session.v
D3Protocol.v
D3Transport.v
ReplayCache.v
Modq.v
Bar.v
RingThread.v
ModqBin.v
Endpoint.v
