(* ===== verification/Prelude.v ===== *)
(** * A verification of the OTAP reference implementation

    OTAP sends application messages over optical channels.  A message (an order, a
    market tick, a heartbeat) is encoded by its schema into a payload of fixed size,
    the payload becomes a Transient with a wavelength, an OAM mode, a sequence
    number and a polarization trajectory derived from a shared secret, and the
    receiver decodes and authenticates it.  Endpoints are configured through a
    register file, programmed from a registry; a work-request interface of two
    queues drives them; a hardware path copies payloads into a ring shared with a
    device; and a second protocol, D3, runs a signed handshake and sealed frames
    over TCP.  That code is the Rust workspace under [src/crates].  The registry is a
    Go service under [src/flr]: it keeps signed schemas and wavelength leases in a
    key-value database, commits to them by Merkle trees, serves schemas over REST and
    leases over gRPC, exchanges commitments with the registries of other operators, and
    can be audited.  The device side of the registers and the reorder buffer of the receiver
    are hardware descriptions under [src/rtl].  This library models these parts and
    proves what each of them promises, and what they promise each other.

    ** Files, parts and code

    - [Prelude.v] (this file): Rust's [Result] and panics, a state-and-error monad
      for code that threads a mutable object through fallible calls, machine
      integers, big-endian bytes, bit fields, list surgery, hint databases.
    - [Float.v]: [f32] and [f64] as the executable IEEE floats of the standard
      library; [as] casts and rounding as Rust defines them; libm as a class.
      [FloatBounds.v]: how far the operations round, bit patterns.
    - [External.v]: the hash, MAC and signature crates (Ed25519, P-256) as classes of operations with
      their documented facts, and concrete instances that satisfy them.
    - [Core.v]: [otap-core]: wavelength, Stokes vectors and the winding number, OAM
      mode, microstructure, [Transient], [ProtocolError].  [Winding.v]: its wrap
      loops and the range of the winding number, for an [atan2] within [-pi, pi].
    - [Crypto.v]: [otap-crypto]: [derive_trajectory], [verify_trajectory].
    - [Schema.v]: [otap-schema]: the trait [Schema] as a class with laws
      ([SchemaLaws]), its three instances, dispatch by OAM mode.
    - [Codec.v]: [otap-codec]: [Encoder], [Decoder], proved against the laws of
      [Schema.v], not against its instances.
    - [Csr.v]: [otap-csr]: the packed register file, its writers and views, and the
      abstract configuration they implement.
    - [Sim.v]: [otap-sim]: rotations, the xorshift generator, the channel.
    - [Obg.v]: [otap-obg]: work requests, send and completion queue, [SoftDriver],
      [arm_register_file].
    - [Fabric.v]: [otap-fabric]: two drivers joined by two channels.
    - [FlrClient.v]: [otap-flr-client]: URLs, registry requests, programming of the
      register file, the refresh loop; HTTP and JSON are the class [Registry].
    - [Cli.v]: [otap-cli]: the programs [main.rs], [otap-local.rs] and
      [otap-fullstack.rs], as computations on the lines they print.
    - [D3Rpc.v], [D3Handshake.v], [D3Session.v], [D3Transport.v], [ReplayCache.v]:
      [luxstream-otap-d3]: [rpc.rs], [key_domain.rs] and [handshake.rs],
      [session.rs], [transport.rs], [replay_cache.rs].  An async function of
      [transport.rs] is a tree of its reads and writes, and two of them opposite each
      other, with a network between that delivers in pieces, are a step relation.
      [D3Protocol.v]: any number of runs of the handshake and session code on a hostile
      network, as a step relation whose log holds the signatures the code made.
    - [Modq.v]: [otap-modq]: the mapped region, [TxRing], [CompletionRing],
      [ModqQueue], and host and device on one ring as a step relation in which the
      host's stores are separate steps, those of the list [submit] runs and in its
      order ([host_stores_in_order]).  [Bar.v]: opening, mapping and unmapping the
      region over the system calls, the class [Posix].  [RingThread.v]: the device
      threads of the programs beside the host, under a schedule.  [ModqBin.v]: the
      threads from their own mapping on, through the opening of the queue, and the
      programs [modq_loopback.rs], [modq_bench.rs] and [otap-modq-loopback.rs].
      [Endpoint.v]: [otap-obg]'s [modq_backend.rs].
    - [Rtl.v]: [otap_csr_block.sv] with [otap_csr_map.svh], one clock edge as a
      function, against the register file of [Csr.v].  [Rob.v]:
      [otap_rob_bitweave.v].  [BitPlane.v]: the bit-plane scan it shares with
      [Bitweave.v], the lease index of [bitweave.go] and [bitweave_buffered.go].
    - The registry, [src/flr/internal]: [FlrModels.v]: [models/schema.go].
      [FlrStore.v]: [registry/schema_store.go] over the classes [Badger] and [GoJson].
      [FlrEngine.v]: [registry/schema_engine.go] and [crypto/schema.go] over the class
      [GoCrypto].  [FlrLease.v]: leases and tokens ([models/models.go],
      [crypto/engine.go], [registry/badger_store.go], [registry/engine.go]).
      [FlrMerkle.v]: Merkle trees, proofs, commitments and proofs of invalidity.
      [FlrDirectory.v]: endpoints and operators.  [FlrLedger.v]: the registry after any
      sequence of its operations ([registry_reachable]).  [FlrConflict.v]:
      [bitweave/adapter.go].  [FlrTime.v]: the calendar and the time format of Go's
      standard library, and how its strings compare; [FlrAuditLog.v]: the audit log's
      range query over them.  [FlrXlat.v]: [xlat/manager.go].  [FlrFederation.v]:
      [federation/client.go], [conflict.go], [manager.go] and a round of [gossip.go].
      [FlrRest.v]: [api/schema_rest.go].  [FlrApi.v]: the handlers of [api/server.go],
      and the service as [cmd/flrd/main.go] builds it ([service_reachable]).
      [FlrCompliance.v]: [audit/compliance.go] and [audit/auditor.go].
    - [FlrInterop.v]: the REST interface of the registry and the Rust client on one
      wire: URLs, JSON, and the derived deserializers of the client.

    State is passed explicitly: a Rust method on [&mut self] is a function from the
    record to the record and its result; so is an operation of the Go engine, whose
    mutex is held from start to end, and a clock edge of the hardware.  Integers are [Z] with [wrap] written where
    the code wraps or casts; bytes are lists of [Z]; a definition that can panic
    returns [outcome] or [mmio].  Definitions execute: the witnesses evaluate them.

    ** What the theorems show

    Round trips: every schema value through its payload ([any_schema_round_trip],
    [any_decode_canonical]), through encoder and decoder ([codec_round_trip]), through
    queues and drivers ([loopback_delivers]) and across the fabric in both directions
    at once ([pump_both_delivers]); D3 frames ([seal_open_round_trip]).

    Refinement: the register file implements its abstract configuration
    ([csr_writers_refine], [csr_views_read]); the completion queue and the replay
    cache are windows of the newest entries ([completion_queue_keeps_newest],
    [replay_cache_window]); the send queue is a bounded FIFO; [submit] is a run of the
    ring's step relation ([submit_refines]); the hardware register block and the Rust
    register file are two implementations of one contract
    ([rtl_refines_register_file]).  The bit-plane scans answer what a scan slot by slot
    would ([bitweave_exact], [rob_scan_exact], [conflict_engine_exact]), the loops that
    compare our leases with a peer's find what the definition of a conflict says
    ([find_conflicts_exact]), and the
    conflict engine reports every conflict of the registry's own check
    ([conflict_engine_covers_check]).  The optimised checksum equals the sum
    its documentation gives ([rpc_is_documented_sum]).

    Invariants over all interleavings: order, integrity and bounded occupancy on the
    device ring ([ring_fifo]); agreement and frame authenticity of D3 against an
    attacker who controls the network ([handshake_agreement],
    [opened_frames_authentic]).  The registry, after any operations: at most one active
    schema for an operator and OAM mode, found by its index and signed
    ([schema_registry_invariant]); an allocation never takes a wavelength someone holds
    ([no_double_allocation]).  The service, however it is called: its callers see at most
    one running lease of a wavelength, and it never has a peer ([service_invariant]).
    Federation, whatever the peers answer: a round of gossip changes no lease and no
    schema and sends to peers only, or to where they redirect ([gossip_confined]).
    Progress: the two ends of a D3 connection never wait for each other and come to their
    sessions under every delivery ([transport_establishes]); beside a device thread that
    gets its turns, every submission ends and the device takes every message in order
    ([loopback_live]).

    Types and bounds: endpoints stay well-formed while the fabric pumps
    ([pump_preserves_types]); the wrap loops end and the winding number of any
    samples is between -8 and 8 ([wrap_loops_terminate], [winding_number_bounded]).
    Channel numbers survive the way through a wavelength and back in double arithmetic
    ([itu_channel_round_trip], by evaluation of all channels of the C band on two grids).

    Whole programs: what each prints and that it ends ([otap_local_output],
    [otap_demo_output], [otap_fullstack_output], [modq_loopback_output],
    [otap_modq_loopback_output], [modq_bench_output]); descriptors and mappings are
    given back on every path ([mapping_balanced], [modq_open_system]).

    The registry's operations: what validation accepts ([schema_validate_exact]), what
    registration and allocation store and answer on every branch
    ([register_schema_spec], [allocate_lease_spec]), that signed bytes do not depend on
    the order of the fields ([canonical_order_independent]), which hashes a lease tree
    has a proof for, up to a collision ([merkle_membership]), what a commitment holds
    and when its signature verifies ([commit_merkle_tree_spec]), what each route
    answers ([schema_routes]), which entries of the audit log a query returns
    ([audit_log_window]), what an audit reports ([audit_report_exact]), when a translation
    is created ([create_translation_spec]).

    Every branch of the configuration paths: [arm_then_open], [from_csr_spec],
    [program_register_file_spec], [program_tables], [refresh_loop_robust].

    What authentication binds and what it does not: [trajectory_binding],
    [frame_preimage_binds], [rpc_detects_single_symbol], [rpc_isolation]; and where
    the code falls short of its documentation, the exact behaviour is a theorem too
    ([nan_trajectory_authenticates], [receive_accepts_replay], [restart_forgets],
    [identity_misbinding], [pci_bar_unchecked], [mismatched_payload_lost],
    [next_unit_reaches_one], [winding_not_rotation_invariant]).  So it is for the
    registry and the hardware: the client refuses what the registry sends
    ([client_refuses_registry], [fullstack_refuses_registry],
    [status_encoding_mismatch]); the reorder buffer sends packets twice and loses others
    ([rob_gap_duplicates_and_loses]); renewal of a lease that has run out makes two
    holders ([renew_double_allocates]); a commitment with leases does not verify
    ([commitment_with_lease_refused]); a revoked schema can be deprecated
    ([deprecate_unrevokes]); a field whose end wraps is accepted
    ([wrapped_field_accepted]); the conflict engine reports more than the registry's
    check ([conflict_engine_differs]); a synchronisation believes any commitment a peer
    answers with, and gossip passes it on ([sync_trusts_peer], [gossip_forwards_forged]);
    a peer can redirect what is sent to it ([redirects_followed]); the conflict check is not
    the one of the design document ([double_allocation_not_design]); a device thread starts
    ahead on a left-over object ([stale_slot_skews]); a report counts the commitments of
    another period ([commitment_count_window]);
    the service finds every token invalid and accepts no proof of invalidity
    ([verify_lease_rejects], [submit_rejected]); an operator that was removed cannot return
    ([removed_operator_cannot_return]); the chain check of an audit passes always, and a
    wavelength off the grid complies ([chain_check_vacuous], [off_grid_complies]); every
    routing table is empty ([awg_table_empty]).

    ** Bounds and fuel

    Loops over fixed ranges or lists are structural.  [refresh_loop], [wait_free] and
    [spin_free] may wait for the environment: they take a fuel and answer [None] when
    it runs out, and the theorems say which fuel is enough ([refresh_loop]: one more
    than the round in which the stop flag is set; [submit]: one more than the busy
    reads, and for the timeout one more than the code's own limit of 10^9).  [load] is
    given more rounds than the file has bytes.  [hex_digits] has six digits, the most
    a [char] has.  The two wrap loops of the winding number have [WRAP_FUEL] = 4;
    [wrap_loops_terminate] shows that each body runs at most once.  Draining a queue
    takes its length, trimming a string the string's length.  A host that waits for a
    device thread needs more status reads than the longest gap between two rounds
    of the thread's schedule; the theorems of [RingThread.v] and [ModqBin.v] have
    that gap as a parameter, and any number of rounds before the queue is open.  [peel] takes the set bits of a 64-bit word and has 64
    rounds; folding a Merkle tree has as many as there are leaves, more than it has
    levels, and padding stops at a power of two ([target_count]) that is proved reached;
    folding the hashes of a routing table has as many rounds as there are entries, which
    is enough ([merkle_root_ends]).  The HTTP client of the federation makes ten requests
    for one call, as the library does.

    ** What is not modelled

    Cryptographic primitives, libm, HTTP (for Go's client: all but the following of
    redirects), JSON and the system calls that map memory
    are parameters with stated facts.  [D3Protocol.v] idealises signatures (a
    signature that verifies under an honest key was made with it) and hashing (no
    collision among the strings hashed in the run); both are premises of its steps.
    Memory is sequentially consistent: the release fence before a slot is published
    is not modelled beyond program order.  Of the programs, the schedule of the
    threads and the times the clock reports are inputs, and a printed line is the
    values formatted into it: how a number is rendered is left out, and a sign
    outside ASCII in a fixed text is spelled out.  The Criterion benchmarks and the
    Python tooling of [src/stage-chronos] are outside.

    Of the registry, BadgerDB, [encoding/json], SHA3, ECDSA and key formats, and on the
    client's side serde_json are classes with stated facts and concrete instances;
    failures of the database and of the random source are not modelled.  Key generation
    and PEM parsing are in those classes.  The answers of peers are arbitrary
    ([Net.answer]) and their decoding is the class [GoPeerJson]; the order in which Go
    walks a map, and the readings of the clock, are arguments.  The peers of a round of
    gossip are taken one after the other; the ticker that repeats the round and the
    streams of updates are left out.  The message types of the gRPC service are generated
    from a file that is not in the repository, so a request is what its getters return;
    interceptors, gateway, configuration and the commands around the service call
    libraries and are outside.  So are the AVX-512 path of the index (its assembly is
    generated) and the buffer pool beside it.  Timing within a clock cycle of the hardware
    is not modelled.

    ** What could follow

    Weak-memory orderings of the ring; the token bucket of the service's rate limit, whose
    float arithmetic needs the error bounds of [FloatBounds.v] for doubles; concurrent
    synchronisation with peers as interleaved steps. *)

From stdpp Require Export base tactics option list numbers strings pretty.
From Stdlib Require Export ZArith Lia.
Local Open Scope Z_scope.

Create HintDb otap.

(** ** Rust's [Result], panics and the [?] operator *)

Inductive result (A E : Type) : Type :=
| Ok (a : A)
| Err (e : E).
Arguments Ok {A E} a.
Arguments Err {A E} e.

(** A computation that may panic (a failed [assert!], an index out of range,
    a division by zero). *)
Inductive outcome (A : Type) : Type :=
| Done (a : A)
| Panic.
Arguments Done {A} a.
Arguments Panic {A}.

Definition rbind {A B E} (m : result A E) (k : A → result B E) : result B E :=
  match m with Ok a => k a | Err e => Err e end.

Definition map_err {A E F} (f : E → F) (m : result A E) : result A F :=
  match m with Ok a => Ok a | Err e => Err (f e) end.

Definition ok_or {A E} (o : option A) (e : E) : result A E :=
  match o with Some a => Ok a | None => Err e end.

Definition is_ok {A E} (m : result A E) : bool :=
  match m with Ok _ => true | Err _ => false end.

Definition obind {A B} (m : outcome A) (k : A → outcome B) : outcome B :=
  match m with Done a => k a | Panic => Panic end.

Declare Scope rust_scope.
Delimit Scope rust_scope with rust.
Notation "'let?' x ':=' m 'in' k" := (rbind m (λ x, k))
  (at level 10, x name, m at level 100, k at level 200) : rust_scope.
Notation "'let!' x ':=' m 'in' k" := (obind m (λ x, k))
  (at level 10, x name, m at level 100, k at level 200) : rust_scope.
Open Scope rust_scope.

#[export] Instance result_eq_dec {A E} :
  EqDecision A → EqDecision E → EqDecision (result A E).
Proof.
  intros dA dE [a|e] [b|f]; [destruct (decide (a = b))| | |destruct (decide (e = f))];
    (left; congruence) || (right; congruence).
Defined.

Lemma rbind_ok {A B E} (m : result A E) (k : A → result B E) b :
  rbind m k = Ok b ↔ ∃ a, m = Ok a ∧ k a = Ok b.
Proof.
  destruct m as [x|e]; simpl; split; [by eauto| |done|].
  - by intros (? & [= ->] & ?).
  - by intros (? & [=] & _).
Qed.

(** ** Code that mutates a value behind [&mut] and may fail

    The state is returned on the error path too: a write done before the error
    stays done. *)

Definition state_result (S A E : Type) : Type := S → S * result A E.

Definition sr_ret {S A E} (a : A) : state_result S A E := λ s, (s, Ok a).
Definition sr_throw {S A E} (e : E) : state_result S A E := λ s, (s, Err e).
Definition sr_bind {S A B E} (m : state_result S A E) (k : A → state_result S B E)
    : state_result S B E :=
  λ s, match m s with (s, Ok a) => k a s | (s, Err e) => (s, Err e) end.
(** A read-only computation on the state. *)
Definition sr_read {S A E} (f : S → result A E) : state_result S A E := λ s, (s, f s).
Definition sr_map_err {S A E F} (f : E → F) (m : state_result S A E) : state_result S A F :=
  λ s, let '(s, r) := m s in (s, map_err f r).

Notation "'do!' x '<-' m ';' k" := (sr_bind m (λ x, k))
  (at level 10, x name, m at level 100, k at level 200) : rust_scope.
Notation "'exec!' m ';' k" := (sr_bind m (λ _, k))
  (at level 10, m at level 100, k at level 200) : rust_scope.

(** [for i in l { f(i)?; }] *)
Fixpoint sr_for {S I E} (l : list I) (f : I → state_result S unit E) : state_result S unit E :=
  match l with
  | [] => sr_ret ()
  | i :: l => exec! f i; sr_for l f
  end.

Lemma sr_bind_ok {S A B E} (m : state_result S A E) (k : A → state_result S B E) s s' a :
  m s = (s', Ok a) → sr_bind m k s = k a s'.
Proof. unfold sr_bind. by intros ->. Qed.

Lemma sr_bind_err {S A B E} (m : state_result S A E) (k : A → state_result S B E) s s' e :
  m s = (s', Err e) → sr_bind m k s = (s', Err e).
Proof. unfold sr_bind. by intros ->. Qed.

(** ** Machine integers

    A [w]-bit unsigned integer is a [Z] between 0 and [2^w - 1], a signed one
    a [Z] between [-2^(w-1)] and [2^(w-1) - 1]; the wrapping operations and the
    [as] casts are written out with [mod]. *)

Definition in_uint (w z : Z) : Prop := 0 ≤ z < 2 ^ w.
Definition in_sint (w z : Z) : Prop := - 2 ^ (w - 1) ≤ z < 2 ^ (w - 1).

Definition wrap (w z : Z) : Z := z mod 2 ^ w.

(** [x as i<w>]: two's complement reinterpretation. *)
Definition as_signed (w z : Z) : Z :=
  let u := z mod 2 ^ w in if u <? 2 ^ (w - 1) then u else u - 2 ^ w.

Abbreviation u8 := (in_uint 8).
Abbreviation u16 := (in_uint 16).
Abbreviation u32 := (in_uint 32).
Abbreviation u64 := (in_uint 64).

Definition wrapping_add (w a b : Z) : Z := wrap w (a + b).
Definition wrapping_mul (w a b : Z) : Z := wrap w (a * b).

#[export] Instance in_uint_dec w z : Decision (in_uint w z).
Proof. unfold in_uint. apply _. Defined.
#[export] Instance in_sint_dec w z : Decision (in_sint w z).
Proof. unfold in_sint. apply _. Defined.

Lemma wrap_range w z : 0 ≤ w → in_uint w (wrap w z).
Proof. intros. apply Z.mod_pos_bound, Z.pow_pos_nonneg; lia. Qed.

Lemma wrap_small w z : in_uint w z → wrap w z = z.
Proof. apply Z.mod_small. Qed.

Lemma as_signed_wrap w z :
  0 < w → in_sint w z → as_signed w (wrap w z) = z.
Proof.
  unfold in_sint, as_signed, wrap. intros Hw Hz.
  assert (2 ^ w = 2 * 2 ^ (w - 1)) as Hp by (rewrite <- Z.pow_succ_r by lia; f_equal; lia).
  rewrite Z.mod_mod by lia.
  destruct (decide (0 ≤ z)).
  - rewrite Z.mod_small by lia. case_match; lia.
  - replace (z mod 2 ^ w) with (z + 2 ^ w).
    + destruct (Z.ltb_spec (z + 2 ^ w) (2 ^ (w - 1))); lia.
    + apply (Z.mod_unique_pos _ _ (-1)); lia.
Qed.

(** ** Bytes, big-endian words *)

Abbreviation bytes := (list Z).

(** Every element of a [Vec<u8>] is a [u8]. *)
Definition bytes_ok (l : bytes) : Prop := Forall u8 l.

(** An array [[u8; n]]. *)
Definition array_ok (n : nat) (l : bytes) : Prop := length l = n ∧ bytes_ok l.

(** [to_be_bytes] of an [8n]-bit integer, signed or unsigned. *)
Fixpoint to_be_bytes (n : nat) (z : Z) : bytes :=
  match n with
  | O => []
  | S n => (z / 256 ^ Z.of_nat n) mod 256 :: to_be_bytes n z
  end.

Definition from_be_bytes (l : bytes) : Z := fold_left (λ acc b, acc * 256 + b) l 0.

Arguments to_be_bytes : simpl never.
Arguments from_be_bytes : simpl never.

Lemma to_be_bytes_cons n z :
  to_be_bytes (S n) z = (z / 256 ^ Z.of_nat n) mod 256 :: to_be_bytes n z.
Proof. reflexivity. Qed.

Lemma to_be_bytes_length n z : length (to_be_bytes n z) = n.
Proof. induction n; [done|]. rewrite to_be_bytes_cons. simpl. auto. Qed.

Lemma to_be_bytes_ok n z : bytes_ok (to_be_bytes n z).
Proof.
  induction n; [constructor|]. rewrite to_be_bytes_cons. constructor; auto.
  apply Z.mod_pos_bound. lia.
Qed.

Lemma from_be_bytes_acc l a :
  fold_left (λ acc b, acc * 256 + b) l a =
  a * 256 ^ Z.of_nat (length l) + from_be_bytes l.
Proof.
  unfold from_be_bytes. revert a. induction l as [|b l IH]; intros a; [simpl; lia|].
  cbn [fold_left length]. rewrite IH, (IH (0 * 256 + b)).
  rewrite Nat2Z.inj_succ, Z.pow_succ_r by lia. lia.
Qed.

Lemma from_be_bytes_cons b l :
  from_be_bytes (b :: l) = b * 256 ^ Z.of_nat (length l) + from_be_bytes l.
Proof. exact (from_be_bytes_acc l b). Qed.

Lemma from_be_bytes_bound l :
  bytes_ok l → 0 ≤ from_be_bytes l < 256 ^ Z.of_nat (length l).
Proof.
  induction 1 as [|b l Hb Hl IH]; [unfold from_be_bytes; simpl; lia|].
  rewrite from_be_bytes_cons. simpl length. rewrite Nat2Z.inj_succ, Z.pow_succ_r by lia.
  unfold in_uint in Hb. nia.
Qed.

Lemma from_to_be_bytes n z : from_be_bytes (to_be_bytes n z) = z mod 256 ^ Z.of_nat n.
Proof.
  induction n as [|n IH]; rewrite ?to_be_bytes_cons.
  - rewrite Z.mod_1_r. reflexivity.
  - rewrite from_be_bytes_cons, to_be_bytes_length, IH.
    rewrite Nat2Z.inj_succ, Z.pow_succ_r by lia.
    pose proof (Z.pow_pos_nonneg 256 (Z.of_nat n)) as Hp.
    rewrite (Z.mul_comm 256), Z.rem_mul_r by lia. lia.
Qed.

Lemma from_to_be_bytes_uint n z :
  in_uint (8 * Z.of_nat n) z → from_be_bytes (to_be_bytes n z) = z.
Proof.
  intros Hz. rewrite from_to_be_bytes. apply Z.mod_small.
  unfold in_uint in Hz. rewrite Z.pow_mul_r in Hz by lia. exact Hz.
Qed.

Lemma to_be_bytes_from_acc n a z :
  to_be_bytes n (a * 256 ^ Z.of_nat n + z) = to_be_bytes n z.
Proof.
  revert a. induction n as [|n IH]; intros a; [reflexivity|]. rewrite !to_be_bytes_cons.
  rewrite Nat2Z.inj_succ, Z.pow_succ_r by lia.
  pose proof (Z.pow_pos_nonneg 256 (Z.of_nat n)) as Hp.
  replace (a * (256 * 256 ^ Z.of_nat n) + z)
    with (a * 256 * 256 ^ Z.of_nat n + z) by lia.
  rewrite IH. f_equal.
  rewrite Z.div_add_l by lia. rewrite Z.add_comm, Z.mod_add by lia. reflexivity.
Qed.

Lemma to_from_be_bytes l :
  bytes_ok l → to_be_bytes (length l) (from_be_bytes l) = l.
Proof.
  induction 1 as [|b l Hb Hl IH]; [reflexivity|].
  rewrite from_be_bytes_cons. cbn [length]. rewrite to_be_bytes_cons, to_be_bytes_from_acc, IH. f_equal.
  pose proof (from_be_bytes_bound l Hl). unfold in_uint in Hb.
  rewrite Z.div_add_l, Z.div_small by lia. rewrite Z.add_0_r. apply Z.mod_small. lia.
Qed.

Lemma to_be_bytes_mod n z : to_be_bytes n (z mod 256 ^ Z.of_nat n) = to_be_bytes n z.
Proof.
  rewrite <- (to_be_bytes_from_acc n (z / 256 ^ Z.of_nat n)).
  f_equal. pose proof (Z.div_mod z (256 ^ Z.of_nat n)). lia.
Qed.

Lemma to_be_bytes_inj n a b :
  in_uint (8 * Z.of_nat n) a → in_uint (8 * Z.of_nat n) b →
  to_be_bytes n a = to_be_bytes n b → a = b.
Proof.
  intros Ha Hb Heq. rewrite <- (from_to_be_bytes_uint n a Ha), Heq.
  by apply from_to_be_bytes_uint.
Qed.

(** ** Buffers: [&l[a..b]] and [buf[off..off + n].copy_from_slice(src)] *)

Definition slice {A} (l : list A) (a b : nat) : list A := take (b - a) (drop a l).

Definition splice {A} (buf : list A) (off : nat) (src : list A) : list A :=
  take off buf ++ src ++ drop (off + length src) buf.

Section buffers.
Context {A : Type}.
Implicit Types (l p s q buf src : list A).

Lemma slice_length l a b : (a ≤ b ≤ length l)%nat → length (slice l a b) = (b - a)%nat.
Proof. unfold slice. intros. rewrite length_take, length_drop. lia. Qed.

Lemma slice_all l n : n = length l → slice l 0 n = l.
Proof. intros ->. unfold slice. rewrite drop_0, Nat.sub_0_r. apply firstn_all. Qed.

Lemma slice_app_eq l p s q a b :
  l = p ++ s ++ q → a = length p → b = (a + length s)%nat → slice l a b = s.
Proof.
  intros -> -> ->. unfold slice. rewrite drop_app_length.
  replace (length p + length s - length p)%nat with (length s) by lia.
  apply take_app_length.
Qed.

Lemma slice_join l a b c :
  (a ≤ b)%nat → (b ≤ c)%nat → slice l a b ++ slice l b c = slice l a c.
Proof.
  intros. unfold slice.
  replace (c - a)%nat with ((b - a) + (c - b))%nat by lia.
  rewrite <- take_take_drop, drop_drop. do 3 f_equal. lia.
Qed.

Lemma slice_lookup l a b i : (i < b - a)%nat → slice l a b !! i = l !! (a + i)%nat.
Proof. intros. unfold slice. rewrite lookup_take_lt, lookup_drop by lia. done. Qed.

Lemma slice_Forall (P : A → Prop) l a b : Forall P l → Forall P (slice l a b).
Proof. intros. by apply Forall_take, Forall_drop. Qed.

Lemma splice_length buf off src :
  (off + length src ≤ length buf)%nat → length (splice buf off src) = length buf.
Proof. intros. unfold splice. rewrite !length_app, length_take, length_drop. lia. Qed.

Lemma splice_lookup buf off src i :
  (off + length src ≤ length buf)%nat →
  splice buf off src !! i =
  if decide (off ≤ i < off + length src)%nat then src !! (i - off)%nat else buf !! i.
Proof.
  intros. unfold splice. case_decide.
  - rewrite lookup_app_r, length_take by (rewrite length_take; lia).
    rewrite lookup_app_l by lia. f_equal; lia.
  - destruct (decide (i < off)%nat).
    + rewrite lookup_app_l by (rewrite length_take; lia). rewrite lookup_take_lt by lia. done.
    + rewrite lookup_app_r, length_take by (rewrite length_take; lia).
      rewrite lookup_app_r, lookup_drop by lia. f_equal; lia.
Qed.

Lemma splice_Forall (P : A → Prop) buf off src :
  Forall P buf → Forall P src → Forall P (splice buf off src).
Proof.
  intros. unfold splice. rewrite !Forall_app.
  split_and!; [by apply Forall_take | done | by apply Forall_drop].
Qed.

Lemma slice_splice_same buf off src a b :
  (off + length src ≤ length buf)%nat → a = off → b = (off + length src)%nat →
  slice (splice buf off src) a b = src.
Proof.
  intros ? -> ->. eapply slice_app_eq; [done| |done]. rewrite length_take. lia.
Qed.

Lemma slice_splice_other buf off src a b :
  (off + length src ≤ length buf)%nat → (b ≤ off ∨ off + length src ≤ a)%nat →
  slice (splice buf off src) a b = slice buf a b.
Proof.
  intros Hlen Hdis. apply list_eq. intros i.
  destruct (decide (i < b - a)%nat).
  - rewrite !slice_lookup, splice_lookup by lia. case_decide; [lia|done].
  - unfold slice. rewrite !lookup_take_ge by lia. done.
Qed.

(** Reading a field of a concatenation: skip the pieces before it. *)
Lemma slice_app_r p q a b :
  (length p ≤ a)%nat → slice (p ++ q) a b = slice q (a - length p) (b - length p).
Proof.
  intros. unfold slice. rewrite drop_app_ge by done. f_equal. lia.
Qed.

Lemma slice_app_head p q b : b = length p → slice (p ++ q) 0 b = p.
Proof. intros ->. unfold slice. rewrite drop_0, Nat.sub_0_r. apply take_app_length. Qed.

Lemma nth_app_r p q i (d : A) :
  (length p ≤ i)%nat → nth i (p ++ q) d = nth (i - length p) q d.
Proof. intros. by apply app_nth2. Qed.

(** Writing past the filled prefix of a buffer that is still blank after it. *)
Lemma splice_blank p (z : A) n g off src :
  off = (length p + g)%nat → (g + length src ≤ n)%nat →
  splice (p ++ replicate n z) off src =
  (p ++ replicate g z ++ src) ++ replicate (n - g - length src) z.
Proof.
  intros -> Hn. unfold splice.
  rewrite take_app_add, <- !app_assoc. f_equal.
  rewrite take_replicate, Nat.min_l by lia. do 2 f_equal.
  rewrite <- Nat.add_assoc, drop_app_add, drop_replicate.
  rewrite Nat.sub_add_distr. done.
Qed.
End buffers.

(** A table computed index by index, changed at one index. *)
Lemma fmap_seq_insert {A} (f g : nat → A) n k :
  (k < n)%nat → (∀ j, (j < n)%nat → j ≠ k → g j = f j) →
  g <$> seq 0 n = <[k := g k]> (f <$> seq 0 n).
Proof.
  intros Hk Hne. apply list_eq. intros j. rewrite list_lookup_insert, !list_lookup_fmap.
  destruct (decide (j < n)%nat).
  - rewrite !lookup_seq_lt by lia. cbn. rewrite length_fmap, length_seq.
    case_decide as D; [by destruct D as [<- _]|]. rewrite Hne; [done|lia|]. intros ->. tauto.
  - rewrite !lookup_seq_ge by lia. cbn. rewrite length_fmap, length_seq.
    case_decide; [lia|done].
Qed.

Lemma splice_cons {A} (l : list A) k x s :
  (k < length l)%nat → splice (<[k:=x]> l) (S k) s = splice l k (x :: s).
Proof.
  intros Hk. unfold splice. cbn [length].
  rewrite insert_take_drop by done.
  rewrite take_app_ge, length_take_le by (rewrite ?length_take; lia).
  replace (S k - k)%nat with 1%nat by lia. rewrite <- app_assoc. cbn [take app].
  do 2 f_equal. rewrite drop_app_ge, length_take_le by (rewrite ?length_take; lia).
  replace (S k + length s - k)%nat with (S (length s)) by lia. cbn [drop].
  rewrite drop_drop. replace (S k + length s)%nat with (k + S (length s))%nat by lia. done.
Qed.

Lemma splice_nil {A} (l : list A) k : splice l k [] = l.
Proof. unfold splice. cbn. rewrite Nat.add_0_r. apply take_drop. Qed.

Lemma bytes_ok_app p q : bytes_ok (p ++ q) ↔ bytes_ok p ∧ bytes_ok q.
Proof. apply Forall_app. Qed.

Lemma bytes_ok_zeros n : bytes_ok (replicate n 0).
Proof. apply Forall_replicate. unfold in_uint. lia. Qed.

Lemma bytes_ok_slice l a b : bytes_ok l → bytes_ok (slice l a b).
Proof. apply slice_Forall. Qed.

Lemma array_ok_slice l a b n :
  bytes_ok l → (a ≤ b ≤ length l)%nat → (b - a)%nat = n → array_ok n (slice l a b).
Proof. intros ? ? <-. split; [by apply slice_length | by apply bytes_ok_slice]. Qed.

Lemma array_ok_to_be_bytes n z : array_ok n (to_be_bytes n z).
Proof. split; [apply to_be_bytes_length | apply to_be_bytes_ok]. Qed.

Lemma from_be_bytes_uint n l :
  array_ok n l → in_uint (8 * Z.of_nat n) (from_be_bytes l).
Proof.
  intros [<- Hl]. unfold in_uint. rewrite Z.pow_mul_r by lia.
  exact (from_be_bytes_bound l Hl).
Qed.

Lemma slice_single (p : bytes) i : (i < length p)%nat → slice p i (S i) = [nth i p 0].
Proof.
  intros Hi. unfold slice. replace (S i - i)%nat with 1%nat by lia.
  rewrite (drop_S p (nth i p 0) i); [done|].
  rewrite nth_lookup. destruct (lookup_lt_is_Some_2 p i Hi) as [x Hx]. by rewrite Hx.
Qed.

Lemma slice_four (p : bytes) i :
  (i + 4 ≤ length p)%nat →
  [nth i p 0; nth (i + 1) p 0; nth (i + 2) p 0; nth (i + 3) p 0] = slice p i (i + 4).
Proof.
  intros Hi.
  rewrite <- (slice_join p i (i + 1)), <- (slice_join p (i + 1) (i + 2)),
    <- (slice_join p (i + 2) (i + 3)) by lia.
  replace (i + 4)%nat with (S (i + 3)) by lia. rewrite (slice_single p (i + 3)) by lia.
  replace (slice p (i + 2) (i + 3)) with [nth (i + 2) p 0]
    by (rewrite <- slice_single by lia; f_equal; lia).
  replace (slice p (i + 1) (i + 2)) with [nth (i + 1) p 0]
    by (rewrite <- slice_single by lia; f_equal; lia).
  replace (slice p i (i + 1)) with [nth i p 0]
    by (rewrite <- slice_single by lia; f_equal; lia).
  done.
Qed.

Lemma from_be_slice_uint w l a b :
  bytes_ok l → (a ≤ b ≤ length l)%nat → w = 8 * Z.of_nat (b - a) →
  in_uint w (from_be_bytes (slice l a b)).
Proof. intros ? ? ->. by apply from_be_bytes_uint, array_ok_slice. Qed.

Lemma to_from_be_bytes_array n l :
  array_ok n l → to_be_bytes n (from_be_bytes l) = l.
Proof. intros [<- Hl]. by apply to_from_be_bytes. Qed.

(** ** Bit fields of a word

    [get_field w off len] is [(w >> off) & (2^len - 1)]; [set_field] replaces
    those bits.  The packed register tables are read and written this way. *)

Definition get_field (w off len : Z) : Z := Z.land (Z.shiftr w off) (Z.ones len).

Definition set_field (w off len v : Z) : Z :=
  Z.lor (Z.ldiff w (Z.shiftl (Z.ones len) off)) (Z.shiftl v off).

Lemma uint_testbit_high w z i : in_uint w z → 0 ≤ w ≤ i → Z.testbit z i = false.
Proof.
  intros Hz ?. rewrite <- (Z.mod_small z (2 ^ w)) by exact Hz.
  apply Z.mod_pow2_bits_high. lia.
Qed.

Lemma uint_of_testbit w z :
  0 ≤ w → 0 ≤ z → (∀ i, w ≤ i → Z.testbit z i = false) → in_uint w z.
Proof.
  intros Hw Hz Hbits. unfold in_uint.
  assert (z = z mod 2 ^ w) as ->.
  { apply Z.bits_inj'. intros i Hi. destruct (Z.ltb_spec i w).
    - by rewrite Z.mod_pow2_bits_low.
    - rewrite Z.mod_pow2_bits_high by lia. apply Hbits. lia. }
  apply Z.mod_pos_bound, Z.pow_pos_nonneg; lia.
Qed.

Lemma get_field_testbit w off len i :
  0 ≤ i → 0 ≤ off → 0 ≤ len →
  Z.testbit (get_field w off len) i = (i <? len) && Z.testbit w (i + off).
Proof.
  intros. unfold get_field. rewrite Z.land_spec, Z.shiftr_spec by lia.
  rewrite Z.testbit_ones_nonneg by lia. apply andb_comm.
Qed.

Lemma set_field_testbit w off len v i :
  0 ≤ i → 0 ≤ off → 0 ≤ len → in_uint len v →
  Z.testbit (set_field w off len v) i =
  if (off <=? i) && (i <? off + len) then Z.testbit v (i - off) else Z.testbit w i.
Proof.
  intros Hi Hoff Hlen Hv. unfold set_field.
  rewrite Z.lor_spec, Z.ldiff_spec, !Z.shiftl_spec by lia.
  destruct (Z.leb_spec off i); simpl.
  - rewrite Z.testbit_ones_nonneg by lia.
    destruct (Z.ltb_spec (i - off) len), (Z.ltb_spec i (off + len)); try lia; simpl.
    + by rewrite andb_false_r.
    + rewrite andb_true_r, (uint_testbit_high len v) by (auto; lia). apply orb_false_r.
  - rewrite !(Z.testbit_neg_r _ (i - off)) by lia. simpl.
    rewrite andb_true_r. apply orb_false_r.
Qed.

Lemma get_set_field_same w off len v :
  0 ≤ off → 0 ≤ len → in_uint len v →
  get_field (set_field w off len v) off len = v.
Proof.
  intros. apply Z.bits_inj'. intros i Hi.
  rewrite get_field_testbit, set_field_testbit by (auto; lia).
  destruct (Z.ltb_spec i len); simpl.
  - rewrite (proj2 (Z.leb_le off (i + off))), (proj2 (Z.ltb_lt (i + off) (off + len))) by lia.
    simpl. f_equal. lia.
  - symmetry. apply (uint_testbit_high len); auto; lia.
Qed.

Lemma get_set_field_other w off len v off' len' :
  0 ≤ off → 0 ≤ len → 0 ≤ off' → 0 ≤ len' → in_uint len v →
  (off' + len' ≤ off ∨ off + len ≤ off') →
  get_field (set_field w off len v) off' len' = get_field w off' len'.
Proof.
  intros. apply Z.bits_inj'. intros i Hi.
  rewrite !get_field_testbit, set_field_testbit by (auto; lia).
  destruct (Z.ltb_spec i len'); simpl; [|done].
  destruct (Z.leb_spec off (i + off')), (Z.ltb_spec (i + off') (off + len)); simpl; auto; lia.
Qed.

Lemma set_field_uint n w off len v :
  in_uint n w → 0 ≤ off → 0 ≤ len → off + len ≤ n → in_uint len v →
  in_uint n (set_field w off len v).
Proof.
  intros Hw ? ? ? Hv. apply uint_of_testbit; [lia| |].
  - unfold set_field. unfold in_uint in *.
    rewrite Z.lor_nonneg, Z.ldiff_nonneg, Z.shiftl_nonneg. lia.
  - intros i Hi. rewrite set_field_testbit by (auto; lia).
    destruct (Z.ltb_spec i (off + len)); [lia|]. rewrite andb_false_r.
    apply (uint_testbit_high n); auto; lia.
Qed.

(** The bits of a word above another. *)
Lemma testbit_above n a w i :
  0 ≤ n → 0 ≤ i → in_uint n w →
  Z.testbit (a * 2 ^ n + w) i = if i <? n then Z.testbit w i else Z.testbit a (i - n).
Proof.
  intros Hn Hi Hw. unfold in_uint in Hw. destruct (Z.ltb_spec i n).
  - rewrite <- (Z.mod_pow2_bits_low _ n) by done.
    by rewrite Z.add_comm, Z_mod_plus_full, Z.mod_small.
  - replace i with (i - n + n) at 1 by lia. rewrite <- Z.div_pow2_bits by lia.
    rewrite Z.div_add_l, Z.div_small, Z.add_0_r by lia. done.
Qed.

(** [!x] on [u32]. *)
Definition u32_not (x : Z) : Z := 2 ^ 32 - 1 - x.

(** Masking with a complement clears the field. *)
Lemma land_u32_not w m : u32 w → u32 m → Z.land w (u32_not m) = Z.ldiff w m.
Proof.
  intros Hw Hm. unfold u32_not.
  replace (2 ^ 32 - 1) with (Z.ones 32) by reflexivity.
  rewrite Z.sub_nocarry_ldiff.
  - apply Z.bits_inj'. intros i Hi. rewrite Z.land_spec, !Z.ldiff_spec.
    rewrite Z.testbit_ones_nonneg by lia. destruct (Z.ltb_spec i 32); [done|].
    by rewrite (uint_testbit_high 32 w) by (done || lia).
  - apply Z.bits_inj'. intros i Hi. rewrite Z.ldiff_spec, Z.bits_0.
    rewrite Z.testbit_ones_nonneg by lia. destruct (Z.ltb_spec i 32); [apply andb_false_r|].
    by rewrite (uint_testbit_high 32 m) by (done || lia).
Qed.

Lemma get_field_uint w off len : 0 ≤ len → in_uint len (get_field w off len).
Proof. intros. unfold get_field. rewrite Z.land_ones by done. by apply wrap_range. Qed.

(** ** Byte strings *)

(** [b"..."]: the bytes of an ASCII literal. *)
Definition str_bytes (s : string) : bytes :=
  (λ a, Z.of_N (Ascii.N_of_ascii a)) <$> String.list_ascii_of_string s.

Lemma str_bytes_ok s : bytes_ok (str_bytes s).
Proof.
  unfold str_bytes, bytes_ok. rewrite Forall_fmap.
  induction (String.list_ascii_of_string s) as [|a l IH]; constructor; auto.
  pose proof (Ascii.N_ascii_bounded a). unfold compose, in_uint. lia.
Qed.

(** A string as the list of its code points. *)
Abbreviation text := (list Z).

(** The code points of a literal (ASCII). *)
Definition lit (s : string) : text := str_bytes s.

(** [{}] and [%d] of an integer. *)
Definition show (z : Z) : text := lit (pretty z).

Lemma filter_ext_in {A} (P Q : A → Prop) `{∀ x, Decision (P x), ∀ x, Decision (Q x)} (l : list A) :
  (∀ x, x ∈ l → P x ↔ Q x) → base.filter P l = base.filter Q l.
Proof.
  induction l as [|x l IH]; intros Hl; [done|]. rewrite !filter_cons, IH by (intros; apply Hl; by right).
  pose proof (Hl x ltac:(by left)). repeat case_decide; tauto.
Qed.

(** Two concatenations are equal piece by piece when the first pieces have the
    same length. *)
Lemma app_inj_length {A} (p p' q q' : list A) :
  length p = length p' → p ++ q = p' ++ q' → p = p' ∧ q = q'.
Proof. intros. by apply app_inj_1. Qed.

(** The newest [n] elements. *)
Definition newest {A} (n : nat) (l : list A) : list A := drop (length l - n) l.

Lemma newest_all {A} n (l : list A) : (length l ≤ n)%nat → newest n l = l.
Proof. intros. unfold newest. by replace (length l - n)%nat with 0%nat by lia. Qed.

Lemma newest_snoc {A} n (l : list A) x :
  (1 ≤ n)%nat → newest n (newest n l ++ [x]) = newest n (l ++ [x]).
Proof.
  intros Hn. unfold newest. rewrite !length_app, length_drop. cbn [length].
  destruct (decide (length l ≤ n)%nat).
  - by replace (length l - n)%nat with 0%nat by lia; rewrite drop_0, Nat.sub_0_r.
  - rewrite !drop_app_le by (rewrite ?length_drop; lia). rewrite drop_drop. do 2 f_equal. lia.
Qed.

#[export] Hint Resolve to_be_bytes_ok bytes_ok_zeros bytes_ok_slice str_bytes_ok : otap.

(** ** Automation for field layouts *)

Create Rewrite HintDb len.
#[export] Hint Rewrite @length_app @length_replicate @length_cons @length_nil
  to_be_bytes_length : len.

(** Lengths of buffers built from pieces of known length. *)
Ltac len_norm :=
  repeat match goal with H : array_ok _ _ |- _ => destruct H end;
  autorewrite with len;
  repeat match goal with H : length ?x = _ |- context [length ?x] => rewrite H end;
  cbn [Nat.add Nat.sub].
Ltac len := len_norm; try reflexivity; lia.

(** Write the next field, [g] blank bytes after the filled prefix. *)
Ltac fill g := rewrite (splice_blank _ _ _ g) by len.

(** Read a field of a concatenation. *)
Ltac read :=
  repeat (rewrite slice_app_r by len); len_norm;
  first [rewrite slice_app_head by len | rewrite slice_all by len].

(** The least number with a decidable property. *)
Lemma least_nat (P : nat → Prop) `{∀ n, Decision (P n)} n :
  P n → ∃ j, (j ≤ n)%nat ∧ P j ∧ ∀ i, (i < j)%nat → ¬ P i.
Proof.
  assert ((∃ j, (j ≤ n)%nat ∧ P j ∧ ∀ i, (i < j)%nat → ¬ P i) ∨ ∀ i, (i ≤ n)%nat → ¬ P i) as [|Hno].
  { induction n as [|n [(j & ? & ?)|IH]].
    - destruct (decide (P 0%nat)); [left; exists 0%nat; split_and!; auto with lia|right].
      intros i Hi. by replace i with 0%nat by lia.
    - left. exists j. auto with lia.
    - destruct (decide (P (S n))) as [HS|HS]; [left; exists (S n)|right]; [split_and!; auto with lia|].
      intros i Hi. destruct (decide (i = S n)) as [->|]; auto with lia. }
  - done.
  - intros Hn. by destruct (Hno n).
Qed.
