(* ===== verification/Float.v ===== *)
(** * IEEE-754 arithmetic for the Rust [f32] and [f64] code

    The Rust operators [+], [-], [*], [/] and [sqrt] on [f32] and [f64] are the
    correctly rounded IEEE-754 operations, which [SpecFloat] defines executably
    for any precision: [f32] is precision 24 with exponent bound 128, [f64] is
    53 with 1024.  The conversions ([as] casts, [round], [max], [clamp]) follow
    the Rust reference.  NaN has one representation here, as no code of the
    repository looks at a NaN payload.

    [cos], [sin], [acos] and [atan2] have no specified precision in Rust: they
    come from the platform's libm and are a parameter, the class [Libm]. *)

From S2P Require Import Prelude.
From Stdlib Require Export SpecFloat.
Local Open Scope Z_scope.

Abbreviation float := spec_float.

(** ** Operations generic in the format *)

Section format.
Context (prec emax : Z).

(** The float nearest to an integer ([n as f32]). *)
Definition of_int (z : Z) : float := binary_normalize prec emax z 0 false.

(** The float nearest to a positive decimal literal [num / den]. *)
Definition of_ratio (num den : Z) : float :=
  let '(q, e, l) := SFdiv_core_binary prec emax num 0 den 0 in
  binary_round_aux prec emax false q e l.

(** Conversion from another format ([x as f64], [x as f32]). *)
Definition convert (x : float) : float :=
  match x with
  | S754_finite s m e => binary_normalize prec emax (cond_Zopp s (Zpos m)) e s
  | _ => x
  end.
End format.

Definition is_nan (x : float) : bool := match x with S754_nan => true | _ => false end.

(** The magnitude of a finite float rounded down, and to the nearest integer
    with halves away from zero. *)
Definition trunc_mag (m : positive) (e : Z) : Z :=
  if 0 <=? e then Zpos m * 2 ^ e else Zpos m / 2 ^ (- e).

Definition round_mag (m : positive) (e : Z) : Z :=
  if 0 <=? e then Zpos m * 2 ^ e else (2 * Zpos m + 2 ^ (- e)) / 2 ^ (- e + 1).

(** [x as u32], [x as i32], ...: truncation that saturates at the bounds of the
    integer type, NaN going to 0. *)
Definition to_int_sat (lo hi : Z) (x : float) : Z :=
  match x with
  | S754_nan => 0
  | S754_zero _ => 0
  | S754_infinity s => if s then lo else hi
  | S754_finite s m e => Z.max lo (Z.min hi (cond_Zopp s (trunc_mag m e)))
  end.

(** [a.max(b)]: the other operand when one is NaN. *)
Definition fmax (a b : float) : float :=
  if is_nan a then b else if is_nan b then a else if SFltb a b then b else a.

(** [x.clamp(lo, hi)]: NaN stays NaN. *)
Definition fclamp (lo hi x : float) : float :=
  let x := if SFltb x lo then lo else x in
  if SFltb hi x then hi else x.

(** ** [f32] *)

Module f32.
Definition add : float → float → float := SFadd 24 128.
Definition sub : float → float → float := SFsub 24 128.
Definition mul : float → float → float := SFmul 24 128.
Definition div : float → float → float := SFdiv 24 128.
Definition sqrt : float → float := SFsqrt 24 128.
Definition opp : float → float := SFopp.
Definition of_Z : Z → float := of_int 24 128.
Definition lit : Z → Z → float := of_ratio 24 128.
Definition valid (x : float) : Prop := valid_binary 24 128 x = true.

(** [x.round()]. *)
Definition round (x : float) : float :=
  match x with
  | S754_finite s m e =>
      match round_mag m e with
      | Z0 => S754_zero s
      | r => of_Z (cond_Zopp s r)
      end
  | _ => x
  end.

Definition to_u32 : float → Z := to_int_sat 0 (2 ^ 32 - 1).
Definition to_i32 : float → Z := to_int_sat (- 2 ^ 31) (2 ^ 31 - 1).

Definition zero : float := S754_zero false.
Definition one : float := of_Z 1.
(** [core::f32::consts::PI], bits [0x40490FDB]. *)
Definition PI : float := S754_finite false 13176795 (-22).
Definition TWO_PI : float := mul (of_Z 2) PI.
End f32.

(** ** [f64] *)

Module f64.
Definition add : float → float → float := SFadd 53 1024.
Definition sub : float → float → float := SFsub 53 1024.
Definition mul : float → float → float := SFmul 53 1024.
Definition div : float → float → float := SFdiv 53 1024.
Definition of_Z : Z → float := of_int 53 1024.
Definition lit : Z → Z → float := of_ratio 53 1024.
Definition of_f32 : float → float := convert 53 1024.
Definition abs : float → float := SFabs.
Definition valid (x : float) : Prop := valid_binary 53 1024 x = true.

(** Go's [math.Round]: halves away from zero. *)
Definition round (x : float) : float :=
  match x with
  | S754_finite s m e =>
      match round_mag m e with
      | Z0 => S754_zero s
      | r => of_Z (cond_Zopp s r)
      end
  | _ => x
  end.

(** [to_bits] and [from_bits]: sign, eleven bits of exponent, 52 of fraction. *)
Definition to_bits (x : float) : Z :=
  let sign (s : bool) := if s then 2 ^ 63 else 0 in
  match x with
  | S754_zero s => sign s
  | S754_infinity s => sign s + 2047 * 2 ^ 52
  | S754_nan => 2047 * 2 ^ 52 + 2 ^ 51
  | S754_finite s m e =>
      if 2 ^ 52 <=? Zpos m then sign s + (e + 1075) * 2 ^ 52 + (Zpos m - 2 ^ 52)
      else sign s + Zpos m
  end.

Definition from_bits (b : Z) : float :=
  let s := 2 ^ 63 <=? b in
  let ex := b / 2 ^ 52 mod 2 ^ 11 in
  let fr := b mod 2 ^ 52 in
  if ex =? 2047 then (if fr =? 0 then S754_infinity s else S754_nan)
  else
    match (if ex =? 0 then fr else 2 ^ 52 + fr) with
    | Zpos m => S754_finite s m (Z.max ex 1 - 1075)
    | _ => S754_zero s
    end.
End f64.

(** ** The platform's libm *)

Class Libm := {
  f32_cos : float → float;
  f32_sin : float → float;
  f32_acos : float → float;
  (** [y.atan2(x)] *)
  f32_atan2 : float → float → float;
}.

(** IEEE-754 functions propagate NaN. *)
Class LibmNan `{Libm} : Prop := {
  acos_nan : f32_acos S754_nan = S754_nan;
  atan2_nan_l x : f32_atan2 S754_nan x = S754_nan;
  atan2_nan_r y : f32_atan2 y S754_nan = S754_nan;
}.

(** An angle is NaN or a float between the floats nearest to -pi and pi. *)
Class LibmRange `{Libm} : Prop := {
  atan2_valid y x : f32.valid (f32_atan2 y x);
  atan2_range y x :
    f32_atan2 y x = S754_nan ∨
    SFleb (f32.opp f32.PI) (f32_atan2 y x) = true ∧ SFleb (f32_atan2 y x) f32.PI = true;
}.

(** ** NaN propagates through the arithmetic, and loses every comparison *)

Create Rewrite HintDb nan.

Lemma mul_nan_r x : f32.mul x S754_nan = S754_nan.
Proof. by destruct x. Qed.
Lemma add_nan_l x : f32.add S754_nan x = S754_nan.
Proof. reflexivity. Qed.
Lemma add_nan_r x : f32.add x S754_nan = S754_nan.
Proof. by destruct x. Qed.
Lemma sub_nan_l x : f32.sub S754_nan x = S754_nan.
Proof. reflexivity. Qed.
Lemma ltb_nan_l x : SFltb S754_nan x = false.
Proof. reflexivity. Qed.
Lemma ltb_nan_r x : SFltb x S754_nan = false.
Proof. by destruct x. Qed.
Lemma leb_nan_l x : SFleb S754_nan x = false.
Proof. reflexivity. Qed.
Lemma leb_nan_r x : SFleb x S754_nan = false.
Proof. by destruct x. Qed.
Lemma fclamp_nan lo hi : fclamp lo hi S754_nan = S754_nan.
Proof. unfold fclamp. by rewrite ltb_nan_l, ltb_nan_r. Qed.

#[export] Hint Rewrite mul_nan_r add_nan_l add_nan_r sub_nan_l ltb_nan_l ltb_nan_r
  leb_nan_l leb_nan_r fclamp_nan : nan.

Example lit_1em9 : f32.lit 1 (10 ^ 9) = S754_finite false 9007199 (-53).
Proof. vm_compute. reflexivity. Qed.
Example lit_001 : f32.lit 1 100 = S754_finite false 10737418 (-30).
Proof. vm_compute. reflexivity. Qed.
Example round_half_away : f32.to_i32 (f32.round (f32.div (f32.of_Z (-5)) (f32.of_Z 2))) = -3.
Proof. vm_compute. reflexivity. Qed.

(** ** A concrete libm

    Exact on the axes and on NaN, which is all the examples evaluate. *)

Module ToyLibm.
Definition PI_2 : float := f32.div f32.PI (f32.of_Z 2).
Definition PI_4 : float := f32.div f32.PI (f32.of_Z 4).

Definition atan2 (y x : float) : float :=
  if is_nan y || is_nan x then S754_nan
  else
    let up := SFltb f32.zero y in
    let down := SFltb y f32.zero in
    let left_ := SFltb x f32.zero in
    let right_ := SFltb f32.zero x in
    if negb up && negb down then (if left_ then f32.PI else f32.zero)
    else
      let a := if right_ then PI_4 else if left_ then f32.sub f32.PI PI_4 else PI_2 in
      if up then a else f32.opp a.

Definition acos (x : float) : float :=
  if is_nan x then S754_nan
  else if SFltb x f32.one then (if SFleb x (f32.of_Z (-1)) then f32.PI else PI_2)
  else f32.zero.

#[export] Instance toy_libm : Libm := {|
  f32_cos x := if SFeqb x f32.zero then f32.one else f32.of_Z (-1);
  (* the sine of the f32 nearest to pi is not 0 *)
  f32_sin x := if SFeqb x f32.PI then S754_finite true 12303662 (-47) else f32.zero;
  f32_acos := acos;
  f32_atan2 := atan2;
|}.

#[export] Instance toy_libm_nan : LibmNan.
Proof. constructor; [done|done|]. intros y. simpl. unfold atan2. by destruct (is_nan y). Qed.

#[export] Instance toy_libm_range : LibmRange.
Proof.
  constructor; intros y x; change (f32_atan2 y x) with (atan2 y x); unfold atan2;
    repeat match goal with |- context [if ?b then _ else _] => destruct b end;
    (vm_compute; reflexivity) || (left; reflexivity) || (right; vm_compute; done).
Qed.
End ToyLibm.
