(* ===== verification/FloatBounds.v ===== *)
(** * Bounds on rounded [f32] arithmetic

    [SpecFloat] computes but proves nothing.  This file proves what the code's loops
    and sums of angles need: a rounded result stays below every representable bound
    its exact value stays below, rounding yields canonical floats, and on these the
    float comparisons compare values.  Values are integers in units of 2^-149, the
    smallest positive [f32]. *)

From S2P Require Import Prelude Float.
Local Open Scope Z_scope.

Abbreviation fexp32 := (fexp 24 128).

Lemma fexp32_eq e : fexp32 e = Z.max (e - 24) (-149).
Proof. reflexivity. Qed.

(** ** Digits *)

Lemma digits_size p : digits2_pos p = Pos.size p.
Proof. induction p; simpl; congruence. Qed.

Lemma digits_bounds p :
  2 ^ (Zpos (digits2_pos p) - 1) ≤ Zpos p < 2 ^ Zpos (digits2_pos p).
Proof.
  rewrite digits_size. pose proof (Pos.size_gt p) as Hg. pose proof (Pos.size_le p) as Hl.
  apply Pos2Z.pos_lt_pos in Hg. apply Pos2Z.pos_le_pos in Hl.
  rewrite Pos2Z.inj_pow in Hg, Hl. split; [|exact Hg].
  rewrite (Pos2Z.inj_xO p) in Hl.
  replace (Zpos (Pos.size p)) with (Zpos (Pos.size p) - 1 + 1) in Hl by lia.
  rewrite Z.pow_add_r in Hl by lia. change (2 ^ 1) with 2 in Hl. lia.
Qed.

(** A mantissa below [2 ^ n] has at most [n] digits. *)
Lemma digits_le p n : 0 ≤ n → Zpos p < 2 ^ n → Zpos (digits2_pos p) ≤ n.
Proof.
  intros Hn Hp. pose proof (digits_bounds p) as [Hl _].
  enough (Zpos (digits2_pos p) - 1 < n) by lia. apply (Z.pow_lt_mono_r_iff 2); lia.
Qed.

Lemma digits_ge p n : 0 ≤ n → 2 ^ n ≤ Zpos p → n < Zpos (digits2_pos p).
Proof.
  intros Hn Hp. pose proof (digits_bounds p) as [_ Hu]. apply (Z.pow_lt_mono_r_iff 2); lia.
Qed.

(** ** Shifting right *)

Lemma iter_pos_nat {A} (f : A → A) p : ∀ x, iter_pos f p x = Nat.iter (Pos.to_nat p) f x.
Proof.
  induction p as [p IH|p IH|]; intros x; simpl iter_pos; rewrite ?IH.
  - rewrite Pos2Nat.inj_xI. rewrite <- Nat.iter_add, Nat.iter_swap.
    replace (S (2 * Pos.to_nat p)) with (1 + (Pos.to_nat p + Pos.to_nat p))%nat by lia. reflexivity.
  - rewrite Pos2Nat.inj_xO, <- Nat.iter_add. f_equal. lia.
  - reflexivity.
Qed.

Lemma shr_1_m r : 0 ≤ shr_m r → shr_m (shr_1 r) = shr_m r / 2.
Proof.
  destruct r as [[|[p|p|]|p] r s]; simpl; intros; try lia; try reflexivity.
  - rewrite <- Z.div2_div. reflexivity.
  - rewrite <- Z.div2_div. reflexivity.
Qed.

Lemma shr_iter_m n : ∀ r, 0 ≤ shr_m r → shr_m (Nat.iter n shr_1 r) = shr_m r / 2 ^ Z.of_nat n.
Proof.
  induction n as [|n IH]; intros r Hr.
  - simpl. by rewrite Z.div_1_r.
  - change (Nat.iter (S n) shr_1 r) with (shr_1 (Nat.iter n shr_1 r)).
    assert (0 < 2 ^ Z.of_nat n) by lia.
    rewrite shr_1_m; rewrite IH by done.
    + rewrite Z.div_div by lia. f_equal. rewrite Nat2Z.inj_succ, Z.pow_succ_r by lia. lia.
    + by apply Z.div_pos.
Qed.

Lemma shr_iter_exact n : ∀ k,
  0 ≤ k → Nat.iter n shr_1 (Build_shr_record (k * 2 ^ Z.of_nat n) false false) =
          Build_shr_record k false false.
Proof.
  induction n as [|n IH]; intros k Hk.
  - simpl. by rewrite Z.mul_1_r.
  - rewrite Nat2Z.inj_succ, Z.pow_succ_r, Z.mul_assoc by lia.
    change (shr_1 (Nat.iter n shr_1 (Build_shr_record (k * 2 * 2 ^ Z.of_nat n) false false)) =
            Build_shr_record k false false).
    rewrite IH by lia. destruct k as [|p|p]; [reflexivity| |lia].
    rewrite <- Pos2Z.inj_mul, Pos.mul_comm. reflexivity.
Qed.

(** The number of places [shr_fexp] shifts by. *)
Definition shift_of (m e : Z) : Z := Z.max 0 (fexp32 (Zdigits2 m + e) - e).

Lemma shr_fexp_spec m e l mrs e' :
  0 ≤ m → shr_fexp 24 128 m e l = (mrs, e') →
  let n := shift_of m e in
  e' = e + n ∧ shr_m mrs = m / 2 ^ n ∧
  (n = 0 → loc_of_shr_record mrs = l) ∧
  (l = loc_Exact → m = m / 2 ^ n * 2 ^ n → loc_of_shr_record mrs = loc_Exact).
Proof.
  intros Hm. unfold shr_fexp, shr, shift_of. set (d := fexp32 _ - e).
  assert (shr_m (shr_record_of_loc m l) = m) as Em by (by destruct l as [|[]]).
  assert (loc_of_shr_record (shr_record_of_loc m l) = l) as El by (by destruct l as [|[]]).
  destruct d as [|p|p] eqn:Ed; intros [= <- <-]; cbn zeta.
  - rewrite Z.max_id, Em, El, Z.add_0_r, Z.div_1_r. by split_and!.
  - rewrite Z.max_r, iter_pos_nat by lia.
    rewrite <- (positive_nat_Z p). split; [reflexivity|].
    rewrite shr_iter_m, Em by (rewrite Em; lia). split; [reflexivity|]. split; [lia|].
    intros -> Hex. cbn [shr_record_of_loc]. rewrite Hex, shr_iter_exact; [reflexivity|].
    apply Z.div_pos; lia.
  - rewrite Z.max_l, Em, El, Z.add_0_r, Z.div_1_r by lia. by split_and!.
Qed.

Lemma round_nearest_cases m l :
  round_nearest_even m l = m ∨ (round_nearest_even m l = m + 1 ∧ l ≠ loc_Exact).
Proof. destruct l as [|[]]; simpl; auto. destruct (Z.even m); auto. Qed.

Lemma div_pow_le m n : 0 ≤ m → 0 ≤ n → m / 2 ^ n * 2 ^ n ≤ m.
Proof. intros. rewrite Z.mul_comm. apply Z.mul_div_le. lia. Qed.

(** ** Rounding respects representable bounds *)

(** [x] has the sign [sx] and its magnitude is at most [b * 2 ^ q]; [K] scales the
    exponents to non-negative ones. *)
Definition bounded_by (K : Z) (sx : bool) (b q : Z) (x : float) : Prop :=
  match x with
  | S754_zero s => s = sx
  | S754_finite s m e => s = sx ∧ -149 ≤ e ∧ Zpos m * 2 ^ (e + K) ≤ b * 2 ^ (q + K)
  | _ => False
  end.

(** The first rounding step: the mantissa kept, or the next one up. *)
Lemma round_step_le K mx ex lx b q mrs e' :
  149 ≤ K → 0 ≤ ex + K → 0 ≤ mx → 0 < b < 2 ^ 24 → -149 ≤ q →
  match lx with loc_Exact => mx | _ => mx + 1 end * 2 ^ (ex + K) ≤ b * 2 ^ (q + K) →
  shr_fexp 24 128 mx ex lx = (mrs, e') →
  0 ≤ round_nearest_even (shr_m mrs) (loc_of_shr_record mrs) ∧ -149 ≤ e' ∧ 0 ≤ e' + K ∧
  round_nearest_even (shr_m mrs) (loc_of_shr_record mrs) * 2 ^ (e' + K) ≤ b * 2 ^ (q + K).
Proof.
  intros HK Hex Hmx Hb Hq HB Hsh. apply shr_fexp_spec in Hsh as (-> & -> & Hl0 & Hl1); [|done].
  set (n := shift_of mx ex) in *. assert (0 ≤ n) as Hn by (unfold n, shift_of; lia).
  set (f := fexp32 (Zdigits2 mx + ex)).
  assert (n = Z.max 0 (f - ex)) as En by reflexivity.
  assert (f = Z.max (Zdigits2 mx + ex - 24) (-149)) as Ef by reflexivity.
  set (M := mx / 2 ^ n) in *. set (X := 2 ^ (ex + K)) in *. set (B := b * 2 ^ (q + K)) in *.
  assert (0 < X) by (unfold X; lia). assert (0 < 2 ^ n) by lia.
  assert (0 ≤ M) as HM by (apply Z.div_pos; lia).
  assert (M * 2 ^ n ≤ mx) as HMn by (by apply div_pow_le).
  assert (2 ^ (ex + n + K) = 2 ^ n * X) as EX
    by (unfold X; rewrite <- Z.pow_add_r by lia; f_equal; lia).
  assert (mx * X ≤ B) as HmB by (destruct lx; nia).
  split; [destruct (round_nearest_cases M (loc_of_shr_record mrs)) as [->|[-> _]]; lia|].
  split; [lia|]. split; [lia|]. rewrite EX.
  destruct (round_nearest_cases M (loc_of_shr_record mrs)) as [->|[-> Hne]]; [nia|].
  destruct (decide (n = 0)) as [E0|Hn0].
  { rewrite (Hl0 E0) in Hne. assert (M = mx) as -> by (unfold M; by rewrite E0, Z.div_1_r).
    rewrite E0, Z.pow_0_r. destruct lx; [done|lia]. }
  assert (M * 2 ^ n * X < B) as Hlt.
  { destruct lx; [|nia]. assert (M * 2 ^ n ≠ mx); [|nia].
    intros E. apply Hne, Hl1; [done|]. fold M. lia. }
  assert (ex + n = f) as Eef by lia.
  destruct (Z.le_gt_cases f q) as [Hfq|Hfq].
  - assert (2 ^ (q + K) = 2 ^ (q - f) * (2 ^ n * X)) as Eq
      by (rewrite <- EX, <- Z.pow_add_r by lia; f_equal; lia).
    unfold B in *. rewrite Eq in *. clear -Hlt H H0 HM Hb.
    set (Y := 2 ^ n * X) in *. set (C := 2 ^ (q - f)) in *. assert (0 < Y) by (unfold Y; nia).
    assert (M < b * C) by nia. nia.
  - exfalso. destruct mx as [|p|p]; [|clear Hmx|lia].
    { unfold n, shift_of in *. simpl in Ef. lia. }
    cbn [Zdigits2] in Ef. pose proof (digits_bounds p) as [Hd _].
    assert (2 ^ 23 ≤ M) as HM23.
    { apply Z.div_le_lower_bound; [lia|]. rewrite <- Z.pow_add_r by lia.
      etransitivity; [|exact Hd]. apply Z.pow_le_mono_r; lia. }
    assert (2 ^ 24 * 2 ^ (q + K) ≤ 2 ^ 23 * (2 ^ n * X)) as Hq24.
    { rewrite <- EX, <- !Z.pow_add_r by lia. apply Z.pow_le_mono_r; lia. }
    unfold B in *. assert (0 < 2 ^ (q + K)) by lia. nia.
Qed.

Lemma round_aux_le K sx mx ex lx b q :
  149 ≤ K → 0 ≤ ex + K → 0 ≤ mx → 0 < b < 2 ^ 24 → -149 ≤ q ≤ 80 →
  match lx with loc_Exact => mx | _ => mx + 1 end * 2 ^ (ex + K) ≤ b * 2 ^ (q + K) →
  bounded_by K sx b q (binary_round_aux 24 128 sx mx ex lx).
Proof.
  intros HK Hex Hmx Hb Hq HB. unfold binary_round_aux.
  destruct (shr_fexp 24 128 mx ex lx) as [mrs e'] eqn:E1.
  destruct (round_step_le K mx ex lx b q mrs e' HK Hex Hmx Hb ltac:(lia) HB E1) as (H0 & He & HeK & Hle).
  set (m1 := round_nearest_even _ _) in *.
  destruct (shr_fexp 24 128 m1 e' loc_Exact) as [mrs2 e2] eqn:E2.
  apply shr_fexp_spec in E2 as (-> & -> & _); [|done].
  set (n := shift_of m1 e'). assert (0 ≤ n) by (unfold n, shift_of; lia).
  pose proof (div_pow_le m1 n H0 ltac:(done)) as Hdiv.
  assert (0 ≤ m1 / 2 ^ n) by (apply Z.div_pos; lia).
  destruct (m1 / 2 ^ n) as [|m|m] eqn:Em; [reflexivity| |lia].
  assert (2 ^ (e' + n + K) = 2 ^ n * 2 ^ (e' + K)) as Ep
    by (rewrite <- Z.pow_add_r by lia; f_equal; lia).
  assert (Zpos m * 2 ^ (e' + n + K) ≤ b * 2 ^ (q + K)) as Hm by (rewrite Ep; nia).
  assert (e' + n ≤ 104) as H104.
  { enough (e' + n + K < 24 + (q + K)) by lia. apply (Z.pow_lt_mono_r_iff 2); [lia|lia|].
    rewrite (Z.pow_add_r 2 24) by lia. assert (0 < 2 ^ (q + K)) by lia. nia. }
  change (128 - 24) with 104. destruct (Z.leb_spec (e' + n) 104); [|lia]. simpl. split_and!; [done|lia|done].
Qed.

(** ** Rounding yields canonical floats *)

Lemma shl_align_spec mx ex e' mz ez :
  shl_align mx ex e' = (mz, ez) →
  ez = Z.min ex e' ∧ Zpos mz = Zpos mx * 2 ^ (ex - ez) ∧
  Zpos (digits2_pos mz) + ez = Zpos (digits2_pos mx) + ex.
Proof.
  assert (∀ d, Zpos (Pos.iter xO mx d) = Zpos mx * 2 ^ Zpos d ∧
    Zpos (digits2_pos (Pos.iter xO mx d)) = Zpos (digits2_pos mx) + Zpos d) as Hit.
  { intros d. induction d as [|d [IH1 IH2]] using Pos.peano_ind.
    - rewrite Z.pow_1_r. split; [|cbn; lia]. change (Pos.iter xO mx 1) with (xO mx). lia.
    - rewrite Pos.iter_succ. split.
      + rewrite Pos2Z.inj_succ, Z.pow_succ_r, Pos2Z.inj_xO, IH1 by lia. ring.
      + cbn [digits2_pos]. rewrite Pos2Z.inj_succ, IH2. lia. }
  unfold shl_align. destruct (e' - ex) as [|d|d] eqn:Ed; intros [= <- <-].
  - rewrite Z.min_l, Z.sub_diag, Z.pow_0_r by lia. split_and!; lia.
  - rewrite Z.min_l, Z.sub_diag, Z.pow_0_r by lia. split_and!; lia.
  - rewrite Z.min_r by lia. replace (ex - e') with (Zpos d) by lia.
    destruct (Hit d) as [-> ->]. split_and!; lia.
Qed.

(** A mantissa of the width its exponent calls for. *)
Definition canonical (m e : Z) : Prop := 0 < m < 2 ^ 24 ∧ -149 ≤ e ∧ (-149 < e → 2 ^ 23 ≤ m).

Lemma canonical_fexp p e :
  canonical (Zpos p) e ↔ fexp32 (Zpos (digits2_pos p) + e) = e.
Proof.
  unfold canonical. rewrite fexp32_eq. pose proof (digits_bounds p) as [Hl Hu].
  split.
  - intros (Hp & He & H23). assert (Zpos (digits2_pos p) ≤ 24) by (apply digits_le; lia).
    destruct (Z.eq_dec e (-149)) as [->|]; [lia|].
    pose proof (digits_ge p 23 ltac:(lia) (H23 ltac:(lia))). lia.
  - intros Hf. assert (Zpos (digits2_pos p) ≤ 24) as Hd by lia. split_and!; [lia| |lia|].
    + eapply Z.lt_le_trans; [exact Hu|]. apply Z.pow_le_mono_r; lia.
    + intros He. assert (Zpos (digits2_pos p) = 24) as E by lia. by rewrite E in Hl.
Qed.

Lemma shift_canonical p e : canonical (Zpos p) e → shift_of (Zpos p) e = 0.
Proof. intros Hc%canonical_fexp. unfold shift_of. cbn [Zdigits2]. rewrite Hc. lia. Qed.

Lemma binary_round_valid sx mx ex : f32.valid (binary_round 24 128 sx mx ex).
Proof.
  unfold f32.valid, binary_round.
  destruct (shl_align _ _ _) as [mz ez] eqn:Ea. apply shl_align_spec in Ea as (Eez & _ & Ed).
  unfold binary_round_aux. destruct (shr_fexp 24 128 (Zpos mz) ez loc_Exact) as [mrs e'] eqn:E1.
  apply shr_fexp_spec in E1 as (-> & -> & _); [|lia].
  set (f := fexp32 (Zpos (digits2_pos mx) + ex)) in *.
  assert (f = Z.max (Zpos (digits2_pos mz) + ez - 24) (-149)) as Ef by (rewrite Ed; reflexivity).
  assert (shift_of (Zpos mz) ez = f - ez) as ->.
  { unfold shift_of. cbn [Zdigits2]. rewrite Ed. fold f. lia. }
  replace (ez + (f - ez)) with f by lia. set (n := f - ez). pose proof (digits_bounds mz) as [Hl Hu].
  set (M := Zpos mz / 2 ^ n). assert (0 ≤ n) by lia.
  assert (0 ≤ M < 2 ^ 24) as HM.
  { split; [apply Z.div_pos; lia|]. apply Z.div_lt_upper_bound; [lia|].
    rewrite <- Z.pow_add_r by lia. eapply Z.lt_le_trans; [exact Hu|]. apply Z.pow_le_mono_r; lia. }
  assert (-149 < f → 2 ^ 23 ≤ M) as H23.
  { intros Hf. apply Z.div_le_lower_bound; [lia|]. rewrite <- Z.pow_add_r by lia.
    etransitivity; [|exact Hl]. apply Z.pow_le_mono_r; lia. }
  set (m1 := round_nearest_even M _).
  assert (0 ≤ m1 ≤ 2 ^ 24 ∧ (-149 < f → 2 ^ 23 ≤ m1)) as [Hm1 Hm23].
  { unfold m1. destruct (round_nearest_cases M (loc_of_shr_record mrs)) as [->|[-> _]]; lia. }
  destruct (shr_fexp 24 128 m1 f loc_Exact) as [mrs2 e2] eqn:E2.
  apply shr_fexp_spec in E2 as (-> & -> & _); [|lia].
  destruct m1 as [|p|p] eqn:Em1; [reflexivity| |lia].
  destruct (Z.eq_dec (Zpos p) (2 ^ 24)) as [E24|Hne].
  - assert (shift_of (Zpos p) f = 1) as ->.
    { unfold shift_of. cbn [Zdigits2]. replace p with (2 ^ 24)%positive by lia. rewrite fexp32_eq.
      change (Zpos (digits2_pos (2 ^ 24))) with 25. lia. }
    rewrite E24. change (2 ^ 24 / 2 ^ 1) with (Zpos (2 ^ 23)). cbv iota.
    destruct (Z.leb_spec (f + 1) (128 - 24)); [|reflexivity]. unfold valid_binary, bounded.
    apply andb_true_intro. split; [|by apply Z.leb_le].
    apply Z.eqb_eq, canonical_fexp. unfold canonical. split_and!; lia.
  - assert (canonical (Zpos p) f) as Hc by (unfold canonical; lia).
    rewrite shift_canonical, Z.pow_0_r, Z.div_1_r, Z.add_0_r by done. cbv iota.
    destruct (Z.leb_spec f (128 - 24)); [|reflexivity]. unfold valid_binary, bounded.
    apply andb_true_intro. split; [|by apply Z.leb_le]. by apply Z.eqb_eq, canonical_fexp.
Qed.

(** ** Values *)

(** A valid finite float. *)
Definition fin (x : float) : Prop :=
  match x with
  | S754_zero _ => True
  | S754_finite _ m e => bounded 24 128 m e = true
  | _ => False
  end.

(** The value in units of 2^-149. *)
Definition sval (x : float) : Z :=
  match x with
  | S754_finite s m e => cond_Zopp s (Zpos m * 2 ^ (e + 149))
  | _ => 0
  end.

Lemma bounded_canonical m e : bounded 24 128 m e = true → canonical (Zpos m) e.
Proof. unfold bounded. intros [H _]%andb_prop. by apply canonical_fexp, Z.eqb_eq. Qed.

Lemma canonical_lt m1 e1 m2 e2 :
  canonical m1 e1 → canonical m2 e2 → e1 < e2 → m1 * 2 ^ (e1 + 149) < m2 * 2 ^ (e2 + 149).
Proof.
  intros (H1 & Hlo & _) (H2 & _ & H23) He. specialize (H23 ltac:(lia)).
  replace (e2 + 149) with (1 + (e2 - e1 - 1) + (e1 + 149)) by lia.
  rewrite (Z.pow_add_r 2 (1 + (e2 - e1 - 1))), (Z.pow_add_r 2 1) by lia. change (2 ^ 1) with 2.
  assert (0 < 2 ^ (e1 + 149)) by lia.
  assert (1 ≤ 2 ^ (e2 - e1 - 1)) by (pose proof (Z.pow_pos_nonneg 2 (e2 - e1 - 1)); lia).
  set (X := 2 ^ (e1 + 149)) in *. set (Y := 2 ^ (e2 - e1 - 1)) in *.
  assert (m2 * 1 ≤ m2 * Y) by (apply Z.mul_le_mono_nonneg_l; lia).
  assert (m1 < m2 * (2 * Y)) by lia. nia.
Qed.

Lemma magnitude_compare m1 e1 m2 e2 :
  canonical (Zpos m1) e1 → canonical (Zpos m2) e2 →
  Z.compare (Zpos m1 * 2 ^ (e1 + 149)) (Zpos m2 * 2 ^ (e2 + 149)) =
  match Z.compare e1 e2 with
  | Lt => Lt | Gt => Gt | Eq => Pos.compare_cont Eq m1 m2
  end.
Proof.
  intros H1 H2. destruct (Z.compare_spec e1 e2) as [->|Hlt|Hgt].
  - change (Pos.compare_cont Eq m1 m2) with (Z.compare (Zpos m1) (Zpos m2)).
    destruct H1 as (_ & He & _). symmetry. apply Zmult_compare_compat_r. lia.
  - apply Z.compare_lt_iff. by apply canonical_lt.
  - apply Z.compare_gt_iff. by apply canonical_lt.
Qed.

Lemma compare_val x y : fin x → fin y → SFcompare x y = Some (Z.compare (sval x) (sval y)).
Proof.
  assert (∀ m e, canonical (Zpos m) e → 0 < Zpos m * 2 ^ (e + 149)) as Hpos.
  { intros m e (_ & He & _). pose proof (Z.pow_pos_nonneg 2 (e + 149)). lia. }
  destruct x as [sx|sx| |sx mx ex], y as [sy|sy| |sy my ey]; cbn -[Z.compare Z.mul Z.pow Z.add]; try done.
  - intros _ Hy%bounded_canonical%Hpos. f_equal. destruct sy; cbn -[Z.compare Z.mul Z.pow Z.add]; symmetry;
      [apply Z.compare_gt_iff|apply Z.compare_lt_iff]; lia.
  - intros Hx%bounded_canonical%Hpos _. f_equal. destruct sx; cbn -[Z.compare Z.mul Z.pow Z.add]; symmetry;
      [apply Z.compare_lt_iff|apply Z.compare_gt_iff]; lia.
  - intros Hx%bounded_canonical Hy%bounded_canonical.
    pose proof (Hpos _ _ Hx). pose proof (Hpos _ _ Hy). f_equal.
    destruct sx, sy; cbn -[Z.compare Z.mul Z.pow Z.add].
    + rewrite Z.compare_opp, (Z.compare_antisym (Zpos mx * 2 ^ (ex + 149))), magnitude_compare by done.
      destruct (Z.compare ex ey); reflexivity.
    + symmetry. apply Z.compare_lt_iff. lia.
    + symmetry. apply Z.compare_gt_iff. lia.
    + by rewrite magnitude_compare.
Qed.

Lemma ltb_val x y : fin x → fin y → SFltb x y = (sval x <? sval y).
Proof. intros. unfold SFltb, Z.ltb. by rewrite compare_val by done. Qed.

Lemma leb_val x y : fin x → fin y → SFleb x y = (sval x <=? sval y).
Proof. intros. unfold SFleb, Z.leb. rewrite compare_val by done. by destruct (sval x ?= sval y). Qed.

(** ** Sums and differences *)

(** [r] rounds the exact value [v] and stays within [b * 2 ^ q]. *)
Definition rounds (v b q : Z) (r : float) : Prop :=
  fin r ∧ Z.abs (sval r) ≤ b * 2 ^ (q + 149) ∧ (0 ≤ v → 0 ≤ sval r) ∧ (v ≤ 0 → sval r ≤ 0).

Lemma rounds_self x b q : fin x → Z.abs (sval x) ≤ b * 2 ^ (q + 149) → rounds (sval x) b q x.
Proof. intros. unfold rounds. by split_and!. Qed.

Lemma round_rounds sx mx ex b q :
  -149 ≤ ex → 0 < b < 2 ^ 24 → -149 ≤ q ≤ 80 → Zpos mx * 2 ^ (ex + 149) ≤ b * 2 ^ (q + 149) →
  rounds (cond_Zopp sx 1) b q (binary_round 24 128 sx mx ex).
Proof.
  intros He Hb Hq HB. pose proof (binary_round_valid sx mx ex) as Hv. unfold f32.valid, binary_round in *.
  destruct (shl_align _ _ _) as [mz ez] eqn:Ea. apply shl_align_spec in Ea as (Eez & Emz & _).
  rewrite fexp32_eq in Eez.
  assert (Zpos mz * 2 ^ (ez + 149) = Zpos mx * 2 ^ (ex + 149)) as Ev.
  { rewrite Emz, <- Z.mul_assoc, <- Z.pow_add_r by lia. do 2 f_equal. lia. }
  rewrite <- Ev in HB.
  pose proof (round_aux_le 149 sx (Zpos mz) ez loc_Exact b q ltac:(lia) ltac:(lia) ltac:(lia) Hb Hq HB) as Hr.
  set (r := binary_round_aux _ _ _ _ _ _) in *. unfold rounds.
  assert (0 < b * 2 ^ (q + 149)) by (pose proof (Z.pow_pos_nonneg 2 (q + 149)); nia).
  destruct r as [s|s| |s m e]; cbn [bounded_by] in Hr; try done.
  - cbn [fin sval]. split_and!; (done || lia).
  - destruct Hr as (-> & He' & Hm). cbn [fin sval]. cbn [valid_binary] in Hv.
    assert (0 < 2 ^ (e + 149)) by lia. destruct sx; cbn [cond_Zopp]; split_and!; (done || lia).
Qed.

Lemma rounds_sign v v' b q r : Z.sgn v = Z.sgn v' → rounds v b q r → rounds v' b q r.
Proof.
  intros Hs (H1 & H2 & H3 & H4). unfold rounds. split_and!; [done|done| |].
  - intros Hv. apply H3. destruct v, v'; simpl in *; lia.
  - intros Hv. apply H4. destruct v, v'; simpl in *; lia.
Qed.

Lemma normalize_rounds m e z b q :
  -149 ≤ e → 0 < b < 2 ^ 24 → -149 ≤ q ≤ 80 → Z.abs m * 2 ^ (e + 149) ≤ b * 2 ^ (q + 149) →
  rounds m b q (binary_normalize 24 128 m e z).
Proof.
  intros He Hb Hq HB. destruct m as [|m|m]; cbn [binary_normalize].
  - unfold rounds. cbn [fin sval]. split_and!; (done || lia).
  - apply (rounds_sign (cond_Zopp false 1)); [done|]. by apply round_rounds.
  - apply (rounds_sign (cond_Zopp true 1)); [done|]. by apply round_rounds.
Qed.

(** The common exponent of a sum. *)
Lemma aligned s m e ez :
  ez ≤ e → -149 ≤ ez →
  cond_Zopp s (Zpos (shl_align m e ez).1) * 2 ^ (ez + 149) = cond_Zopp s (Zpos m * 2 ^ (e + 149)).
Proof.
  intros He Hez. destruct (shl_align m e ez) as [mz e'] eqn:Ea.
  apply shl_align_spec in Ea as (-> & Emz & _). rewrite Z.min_r in Emz by lia. cbn [fst].
  assert (Zpos mz * 2 ^ (ez + 149) = Zpos m * 2 ^ (e + 149)) as E.
  { rewrite Emz, <- Z.mul_assoc, <- Z.pow_add_r by lia. do 2 f_equal. lia. }
  destruct s; cbn [cond_Zopp]; lia.
Qed.

Lemma sgn_scaled m v e : 0 ≤ e → m * 2 ^ e = v → Z.sgn m = Z.sgn v ∧ Z.abs m * 2 ^ e = Z.abs v.
Proof.
  intros He <-. assert (0 < 2 ^ e) by lia. rewrite Z.sgn_mul, Z.abs_mul.
  rewrite (Z.sgn_pos (2 ^ e)), (Z.abs_eq (2 ^ e)) by lia. lia.
Qed.

Section sums.
Context (x y : float) (b q : Z) (Hx : fin x) (Hy : fin y).
Hypothesis b_range : 0 < b < 2 ^ 24.
Hypothesis q_range : -149 ≤ q ≤ 80.

Lemma add_rounds :
  Z.abs (sval x + sval y) ≤ b * 2 ^ (q + 149) → rounds (sval x + sval y) b q (f32.add x y).
Proof.
  intros HB. destruct x as [sx|sx| |sx mx ex], y as [sy|sy| |sy my ey]; try done.
  - unfold f32.add, rounds. destruct sx, sy; split_and!; (done || exact HB).
  - change (sval (S754_zero sy)) with 0 in *. rewrite Z.add_0_r in *. by apply rounds_self.
  - pose proof (bounded_canonical _ _ Hx) as (_ & Hex & _).
    pose proof (bounded_canonical _ _ Hy) as (_ & Hey & _). unfold f32.add, SFadd.
    set (ez := Z.min ex ey). set (m := cond_Zopp sx _ + cond_Zopp sy _).
    assert (m * 2 ^ (ez + 149) = sval (S754_finite sx mx ex) + sval (S754_finite sy my ey)) as Em
      by (unfold m; rewrite Z.mul_add_distr_r, !aligned by lia; reflexivity).
    apply sgn_scaled in Em as [Es Ea]; [|lia].
    eapply rounds_sign; [exact Es|]. apply normalize_rounds; [lia|done|done|]. by rewrite Ea.
Qed.

Lemma sub_rounds :
  Z.abs (sval x - sval y) ≤ b * 2 ^ (q + 149) → rounds (sval x - sval y) b q (f32.sub x y).
Proof.
  intros HB. destruct x as [sx|sx| |sx mx ex], y as [sy|sy| |sy my ey]; try done.
  - unfold f32.sub, rounds. destruct sx, sy; split_and!; (done || exact HB).
  - assert (sval (S754_zero sx) - sval (S754_finite sy my ey) = sval (S754_finite (negb sy) my ey)) as E
      by (destruct sy; cbn [sval cond_Zopp negb]; lia).
    rewrite E in *. by apply rounds_self.
  - change (sval (S754_zero sy)) with 0 in *. rewrite Z.sub_0_r in *. by apply rounds_self.
  - pose proof (bounded_canonical _ _ Hx) as (_ & Hex & _).
    pose proof (bounded_canonical _ _ Hy) as (_ & Hey & _). unfold f32.sub, SFsub.
    set (ez := Z.min ex ey). set (m := cond_Zopp sx _ - cond_Zopp sy _).
    assert (m * 2 ^ (ez + 149) = sval (S754_finite sx mx ex) - sval (S754_finite sy my ey)) as Em
      by (unfold m; rewrite Z.mul_sub_distr_r, !aligned by lia; reflexivity).
    apply sgn_scaled in Em as [Es Ea]; [|lia].
    eapply rounds_sign; [exact Es|]. apply normalize_rounds; [lia|done|done|]. by rewrite Ea.
Qed.
End sums.

(** ** The bit patterns of [f64] *)

Lemma pattern_fields (s : bool) ex fr :
  0 ≤ ex < 2 ^ 11 → 0 ≤ fr < 2 ^ 52 →
  let b := (if s then 2 ^ 63 else 0) + ex * 2 ^ 52 + fr in
  (2 ^ 63 <=? b) = s ∧ b / 2 ^ 52 mod 2 ^ 11 = ex ∧ b mod 2 ^ 52 = fr.
Proof.
  intros He Hf b. set (k := if s then 2 ^ 11 else 0).
  assert (b = (k + ex) * 2 ^ 52 + fr) as Eb by (unfold b, k; destruct s; lia).
  split_and!.
  - destruct (Z.leb_spec (2 ^ 63) b); unfold b in *; destruct s; lia.
  - rewrite Eb, Z.div_add_l, (Z.div_small fr), Z.add_0_r by lia. unfold k.
    destruct s; [|by apply Z.mod_small]. rewrite Z.add_comm, <- (Z.mul_1_l (2 ^ 11)) at 1.
    rewrite Z.mod_add by lia. by apply Z.mod_small.
  - rewrite Eb, Z.add_comm, Z.mod_add by lia. by apply Z.mod_small.
Qed.

(** Mantissa and exponent of a valid finite [f64]. *)
Lemma f64_canonical s m e :
  f64.valid (S754_finite s m e) →
  Zpos m < 2 ^ 53 ∧ -1074 ≤ e ≤ 971 ∧ (Zpos m < 2 ^ 52 → e = -1074).
Proof.
  unfold f64.valid, valid_binary, bounded, canonical_mantissa, fexp, emin.
  intros [Hc He]%andb_prop. apply Z.eqb_eq in Hc. apply Z.leb_le in He.
  pose proof (digits_bounds m) as [Hl Hu]. set (d := Zpos (digits2_pos m)) in *.
  split_and!; [|lia..|].
  - eapply Z.lt_le_trans; [exact Hu|]. apply Z.pow_le_mono_r; lia.
  - intros Hm. enough (d - 1 < 52) by lia. apply (Z.pow_lt_mono_r_iff 2); lia.
Qed.

Lemma f64_bits_round_trip x : f64.valid x → x ≠ S754_nan → f64.from_bits (f64.to_bits x) = x.
Proof.
  intros Hv Hn. unfold f64.from_bits, f64.to_bits. destruct x as [s|s| |s m e]; [by destruct s..|done|].
  apply f64_canonical in Hv as (Hm & He & Hsub). destruct (Z.leb_spec (2 ^ 52) (Zpos m)) as [Hle|Hlt].
  - destruct (pattern_fields s (e + 1075) (Zpos m - 2 ^ 52)) as (-> & -> & ->); [lia..|].
    destruct (Z.eqb_spec (e + 1075) 2047); [lia|]. destruct (Z.eqb_spec (e + 1075) 0); [lia|].
    replace (2 ^ 52 + (Zpos m - 2 ^ 52)) with (Zpos m) by lia. f_equal. lia.
  - replace ((if s then 2 ^ 63 else 0) + Zpos m) with ((if s then 2 ^ 63 else 0) + 0 * 2 ^ 52 + Zpos m) by lia.
    destruct (pattern_fields s 0 (Zpos m)) as (-> & -> & ->); [lia..|].
    cbn [Z.eqb]. rewrite Hsub by lia. done.
Qed.
