(* ===== verification/Core.v ===== *)
(** * otap-core: the five dimensions of a Transient

    Models [src/crates/otap-core/src/{error,dimensions,transient}.rs]: the
    protocol errors, [Wavelength] (D2), [StokesVector] and
    [PolarizationTrajectory] (D3), [OamMode] (D4), [MicroStructure] (D5) and
    the [Transient] that carries them with its payload (D1). *)

From S2P Require Import Prelude Float.
Local Open Scope Z_scope.

(** ** Errors *)

Inductive ProtocolError : Type :=
| WavelengthOutOfRange (channel max : Z)
| UnknownOamMode (charge : Z)
| AuthenticationFailure
| IntegrityFailure
| SequenceGap (expected actual : Z)
| SchemaMismatch (oam_mode expected actual : Z)
| WireFormat (msg : string).

#[export] Instance ProtocolError_eq_dec : EqDecision ProtocolError.
Proof. solve_decision. Defined.

Abbreviation Result A := (result A ProtocolError).

(** ** D2: wavelength *)

Record Wavelength : Type := mkWavelength { channel : Z }.

#[export] Instance Wavelength_eq_dec : EqDecision Wavelength.
Proof. solve_decision. Defined.

Definition MAX_CHANNEL : Z := 351.

Definition Wavelength_new (channel : Z) : Result Wavelength :=
  if MAX_CHANNEL <? channel then Err (WavelengthOutOfRange channel MAX_CHANNEL)
  else Ok (mkWavelength channel).

Definition Wavelength_ok (w : Wavelength) : Prop := 0 ≤ channel w ≤ MAX_CHANNEL.

Definition SPACING_GHZ : float := f64.of_Z 25.
Definition ANCHOR_THZ : float := f64.lit 1931 10.

Definition frequency_thz (w : Wavelength) : float :=
  f64.add ANCHOR_THZ
    (f64.mul (f64.of_Z (channel w)) (f64.div SPACING_GHZ (f64.of_Z 1000))).

Definition wavelength_nm (w : Wavelength) : float :=
  f64.div (f64.lit 299792458 1000) (frequency_thz w).

(** ** D3: polarization *)

Record StokesVector : Type := mkStokes { s1 : float; s2 : float; s3 : float }.

(** [StokesVector::new]: scale to the unit sphere, the divisor kept away from 0. *)
Definition StokesVector_new (a b c : float) : StokesVector :=
  let mag :=
    fmax (f32.sqrt (f32.add (f32.add (f32.mul a a) (f32.mul b b)) (f32.mul c c)))
      (f32.lit 1 (10 ^ 9)) in
  mkStokes (f32.div a mag) (f32.div b mag) (f32.div c mag).

Definition Stokes_H : StokesVector := mkStokes f32.one f32.zero f32.zero.
Definition Stokes_V : StokesVector := mkStokes (f32.of_Z (-1)) f32.zero f32.zero.
Definition Stokes_D : StokesVector := mkStokes f32.zero f32.one f32.zero.
Definition Stokes_R : StokesVector := mkStokes f32.zero f32.zero f32.one.

Definition dot (v w : StokesVector) : float :=
  fclamp (f32.of_Z (-1)) f32.one
    (f32.add (f32.add (f32.mul (s1 v) (s1 w)) (f32.mul (s2 v) (s2 w)))
       (f32.mul (s3 v) (s3 w))).

Definition TRAJECTORY_SAMPLES : nat := 16.

(** [[StokesVector; TRAJECTORY_SAMPLES]] *)
Record PolarizationTrajectory : Type := mkTrajectory { samples : list StokesVector }.

Definition PolarizationTrajectory_new (l : list StokesVector) : PolarizationTrajectory :=
  mkTrajectory l.

Definition Trajectory_ok (t : PolarizationTrajectory) : Prop :=
  length (samples t) = TRAJECTORY_SAMPLES.

(** The [while d > PI] and [while d <= -PI] loops of [winding_number_s3]. *)
Fixpoint wrap_above (fuel : nat) (d : float) : float :=
  match fuel with
  | O => d
  | S fuel => if SFltb f32.PI d then wrap_above fuel (f32.sub d f32.TWO_PI) else d
  end.

Fixpoint wrap_below (fuel : nat) (d : float) : float :=
  match fuel with
  | O => d
  | S fuel =>
      if SFleb d (f32.opp f32.PI) then wrap_below fuel (f32.add d f32.TWO_PI) else d
  end.

(** An angle difference lies between [-2 PI] and [2 PI], so each loop body runs
    at most once ([Winding.v] proves it); the bound leaves a margin. *)
Definition WRAP_FUEL : nat := 4.

Section libm.
Context `{Libm}.

Definition angular_distance (v w : StokesVector) : float := f32_acos (dot v w).

(** The signed angle from one sample to the next in the s1-s2 plane. *)
Definition angle_step (a b : StokesVector) : float :=
  let theta_a := f32_atan2 (s2 a) (s1 a) in
  let theta_b := f32_atan2 (s2 b) (s1 b) in
  wrap_below WRAP_FUEL (wrap_above WRAP_FUEL (f32.sub theta_b theta_a)).

(** The loop over [i in 0..TRAJECTORY_SAMPLES], neighbours taken cyclically. *)
Definition total_angle (l : list StokesVector) : float :=
  fold_left (λ acc i,
    f32.add acc
      (angle_step (nth i l Stokes_H) (nth ((i + 1) mod TRAJECTORY_SAMPLES)%nat l Stokes_H)))
    (seq 0 TRAJECTORY_SAMPLES) f32.zero.

Definition winding_number_s3 (t : PolarizationTrajectory) : Z :=
  f32.to_i32 (f32.round (f32.div (total_angle (samples t)) f32.TWO_PI)).
End libm.

(** ** D4: orbital angular momentum *)

Record OamMode : Type := mkOamMode { charge : Z }.

#[export] Instance OamMode_eq_dec : EqDecision OamMode.
Proof. solve_decision. Defined.

Definition OAM_MIN : Z := -16.
Definition OAM_MAX : Z := 16.
Definition OAM_RAW : OamMode := mkOamMode 0.

Definition OamMode_new (charge : Z) : Result OamMode :=
  if (charge <? OAM_MIN) || (OAM_MAX <? charge) then Err (UnknownOamMode charge)
  else Ok (mkOamMode charge).

Definition OamMode_new_const (charge : Z) : outcome OamMode :=
  if (OAM_MIN <=? charge) && (charge <=? OAM_MAX) then Done (mkOamMode charge) else Panic.

Definition OamMode_ok (o : OamMode) : Prop := OAM_MIN ≤ charge o ≤ OAM_MAX.

(** ** D5: temporal microstructure *)

Inductive GuardInterval : Type :=
| Nominal
| Priority
| EndOfMessage
| Retransmission
| Keepalive.

#[export] Instance GuardInterval_eq_dec : EqDecision GuardInterval.
Proof. solve_decision. Defined.

Record MicroStructure : Type := mkMicro { sequence : Z; guard : GuardInterval }.

#[export] Instance MicroStructure_eq_dec : EqDecision MicroStructure.
Proof. solve_decision. Defined.

Definition MicroStructure_new (sequence : Z) : MicroStructure := mkMicro sequence Nominal.
Definition with_eom (m : MicroStructure) : MicroStructure := mkMicro (sequence m) EndOfMessage.
Definition with_priority (m : MicroStructure) : MicroStructure := mkMicro (sequence m) Priority.

Definition Micro_ok (m : MicroStructure) : Prop := u16 (sequence m).

(** ** The Transient *)

Record Transient : Type := mkTransient {
  wavelength : Wavelength;
  polarization : PolarizationTrajectory;
  oam : OamMode;
  micro : MicroStructure;
  payload : bytes;
}.

Definition Transient_new w p o m pl : Transient := mkTransient w p o m pl.

Definition reference_size_bytes (t : Transient) : Z := Z.of_nat (length (payload t)).

(** What the Rust types guarantee of every [Transient]. *)
Definition Transient_ok (t : Transient) : Prop :=
  Wavelength_ok (wavelength t) ∧ Trajectory_ok (polarization t) ∧ OamMode_ok (oam t) ∧
  Micro_ok (micro t) ∧ bytes_ok (payload t).

(** ** Constructors establish the type invariants *)

Lemma Wavelength_new_ok ch w :
  u16 ch → Wavelength_new ch = Ok w → Wavelength_ok w ∧ channel w = ch.
Proof.
  unfold Wavelength_new, Wavelength_ok, in_uint. intros Hu.
  destruct (Z.ltb_spec MAX_CHANNEL ch); intros; simplify_eq; simpl; lia.
Qed.

Lemma Wavelength_new_channel w : Wavelength_ok w → Wavelength_new (channel w) = Ok w.
Proof.
  destruct w as [c]. unfold Wavelength_ok, Wavelength_new. simpl. intros.
  destruct (Z.ltb_spec MAX_CHANNEL c); [lia|done].
Qed.

Lemma Wavelength_ok_u16 w : Wavelength_ok w → u16 (channel w).
Proof. unfold Wavelength_ok, MAX_CHANNEL, in_uint. lia. Qed.

Lemma OamMode_new_ok c o : OamMode_new c = Ok o → OamMode_ok o ∧ charge o = c.
Proof.
  unfold OamMode_new, OamMode_ok.
  destruct (Z.ltb_spec c OAM_MIN), (Z.ltb_spec OAM_MAX c); simpl; intros; simplify_eq;
    simpl; lia.
Qed.

(** The two constructors agree: [new_const] panics exactly where [new] fails. *)
Lemma OamMode_new_const_new c :
  OamMode_new_const c = match OamMode_new c with Ok o => Done o | Err _ => Panic end.
Proof.
  unfold OamMode_new, OamMode_new_const.
  destruct (Z.leb_spec OAM_MIN c), (Z.ltb_spec c OAM_MIN), (Z.leb_spec c OAM_MAX),
    (Z.ltb_spec OAM_MAX c); simpl; auto; lia.
Qed.

#[export] Hint Resolve Wavelength_ok_u16 : otap.

(** ** The ITU grid

    Every channel has its own frequency: the frequencies increase strictly with
    the channel index, and the wavelengths decrease. *)

Definition channels : list Z := Z.of_nat <$> seq 0 351.

Definition grid_step (c : Z) : bool :=
  SFltb (frequency_thz (mkWavelength c)) (frequency_thz (mkWavelength (c + 1))) &&
  SFltb (wavelength_nm (mkWavelength (c + 1))) (wavelength_nm (mkWavelength c)).

Lemma grid_steps : forallb grid_step channels = true.
Proof. vm_compute. reflexivity. Qed.
