(* ===== verification/Winding.v ===== *)
(** * otap-core: the winding number, bounded

    The two [while] loops of [winding_number_s3] ([dimensions.rs]) run on floats.  For
    the angles [atan2] returns they run at most once each, so the fuel [Core.v] gives
    them is never used up, and the sum of the sixteen steps bounds the result. *)

From S2P Require Import Prelude Float FloatBounds Core.
Local Open Scope Z_scope.

(** ** The constants *)

(** pi in units of 2^-149. *)
Definition PI_val : Z := 13176795 * 2 ^ 127.

Lemma PI_fin : fin f32.PI ∧ sval f32.PI = PI_val.
Proof. by split; vm_compute. Qed.

Lemma opp_PI_fin : fin (f32.opp f32.PI) ∧ sval (f32.opp f32.PI) = - PI_val.
Proof. by split; vm_compute. Qed.

Lemma TWO_PI_eq : f32.TWO_PI = S754_finite false 13176795 (-21).
Proof. vm_compute. reflexivity. Qed.

Lemma TWO_PI_fin : fin f32.TWO_PI ∧ sval f32.TWO_PI = 2 * PI_val.
Proof. by split; vm_compute. Qed.

Lemma PI_bound : PI_val = 13176795 * 2 ^ (-22 + 149) ∧ 2 * PI_val = 13176795 * 2 ^ (-21 + 149).
Proof. by split; vm_compute. Qed.

Lemma PI_pos : 0 < PI_val < 13 * 2 ^ 147.
Proof. by split; vm_compute. Qed.

#[local] Opaque PI_val.

(** ** The angles *)

(** NaN, or a finite float of magnitude at most [n]. *)
Definition angle_within (n : Z) (x : float) : Prop := x = S754_nan ∨ fin x ∧ Z.abs (sval x) ≤ n.

Lemma valid_between x :
  f32.valid x → SFleb (f32.opp f32.PI) x = true → SFleb x f32.PI = true →
  fin x ∧ Z.abs (sval x) ≤ PI_val.
Proof.
  intros Hv Hlo Hhi. assert (fin x) as Hf.
  { destruct x as [s|s| |s m e]; [exact I| | |exact Hv].
    - destruct s; [discriminate Hlo|discriminate Hhi].
    - discriminate Hlo. }
  destruct PI_fin as [Hp Ep], opp_PI_fin as [Ho Eo].
  rewrite leb_val, Eo in Hlo by done. rewrite leb_val, Ep in Hhi by done.
  apply Z.leb_le in Hlo, Hhi. split; [done|lia].
Qed.

Lemma atan2_within `{LibmRange} y x : angle_within PI_val (f32_atan2 y x).
Proof.
  destruct (atan2_range y x) as [->|[Hlo Hhi]]; [by left|right].
  apply valid_between; [apply atan2_valid|done|done].
Qed.

Lemma difference_within a b :
  angle_within PI_val a → angle_within PI_val b → angle_within (2 * PI_val) (f32.sub b a).
Proof.
  intros [->|[Ha Va]] [->|[Hb Vb]]; try (left; by destruct b || reflexivity).
  right. rewrite (proj2 PI_bound).
  destruct (sub_rounds b a 13176795 (-21) Hb Ha) as (Hf & Hv & _); [lia|lia| |done].
  rewrite <- (proj2 PI_bound). lia.
Qed.

(** ** The loops *)

(** The first loop: at most one round, and its guard is false after it. *)
Lemma wrap_above_once d :
  angle_within (2 * PI_val) d →
  let d1 := wrap_above 1 d in
  angle_within (2 * PI_val) d1 ∧ SFltb f32.PI d1 = false ∧
  ∀ fuel, (1 ≤ fuel)%nat → wrap_above fuel d = d1.
Proof.
  intros Hd. cbn [wrap_above]. destruct (SFltb f32.PI d) eqn:Eg.
  - assert (angle_within PI_val (f32.sub d f32.TWO_PI)) as Hd1.
    { destruct Hd as [->|[Hf Hv]]; [by left|right]. destruct PI_fin as [Hp Ep], TWO_PI_fin as [Ht Et].
      rewrite ltb_val, Ep in Eg by done. apply Z.ltb_lt in Eg. rewrite (proj1 PI_bound).
      destruct (sub_rounds d f32.TWO_PI 13176795 (-22) Hf Ht) as (Hf1 & Hv1 & _); [lia|lia| |done].
      rewrite <- (proj1 PI_bound), Et. lia. }
    assert (SFltb f32.PI (f32.sub d f32.TWO_PI) = false) as Eg1.
    { destruct Hd1 as [->|[Hf1 Hv1]]; [reflexivity|]. destruct PI_fin as [Hp Ep].
      rewrite ltb_val, Ep by done. apply Z.ltb_ge. lia. }
    split; [|split; [exact Eg1|]].
    + destruct Hd1 as [->|[? ?]]; [by left|right]. split; [done|lia].
    + intros [|[|fuel]] Hfuel; [lia|cbn [wrap_above]; by rewrite Eg|].
      cbn [wrap_above]. by rewrite Eg, Eg1.
  - split; [done|]. split; [done|]. intros [|fuel] Hfuel; [lia|]. cbn [wrap_above]. by rewrite Eg.
Qed.

(** The second loop, on what the first one leaves. *)
Lemma wrap_below_once d :
  angle_within (2 * PI_val) d → SFltb f32.PI d = false →
  let d2 := wrap_below 1 d in
  angle_within PI_val d2 ∧ SFleb d2 (f32.opp f32.PI) = false ∧
  ∀ fuel, (1 ≤ fuel)%nat → wrap_below fuel d = d2.
Proof.
  intros Hd Hle. destruct PI_fin as [Hp Ep], opp_PI_fin as [Ho Eo], TWO_PI_fin as [Ht Et].
  cbn [wrap_below]. destruct (SFleb d (f32.opp f32.PI)) eqn:Eg.
  - destruct Hd as [->|[Hf Hv]]; [by rewrite leb_nan_l in Eg|].
    rewrite leb_val, Eo in Eg by done. apply Z.leb_le in Eg.
    destruct (add_rounds d f32.TWO_PI 13176795 (-22) Hf Ht) as (Hf2 & Hv2 & Hs & _); [lia|lia| |].
    { rewrite <- (proj1 PI_bound), Et. lia. }
    rewrite <- (proj1 PI_bound) in Hv2. rewrite Et in Hs. specialize (Hs ltac:(lia)).
    assert (SFleb (f32.add d f32.TWO_PI) (f32.opp f32.PI) = false) as Eg2.
    { rewrite leb_val, Eo by done. apply Z.leb_gt. pose proof PI_pos. lia. }
    split; [by right|]. split; [done|]. intros [|[|fuel]] Hfuel; [lia| |].
    + cbn [wrap_below]. rewrite leb_val, Eo by done. by destruct (Z.leb_spec (sval d) (- PI_val)); [|lia].
    + cbn [wrap_below]. rewrite Eg2, leb_val, Eo by done.
      by destruct (Z.leb_spec (sval d) (- PI_val)); [|lia].
  - split; [|split; [done|]].
    + destruct Hd as [->|[Hf Hv]]; [by left|right]. split; [done|].
      rewrite leb_val, Eo in Eg by done. rewrite ltb_val, Ep in Hle by done.
      apply Z.leb_gt in Eg. apply Z.ltb_ge in Hle. lia.
    + intros [|fuel] Hfuel; [lia|]. cbn [wrap_below]. by rewrite Eg.
Qed.

(** One step lies in (-pi, pi]. *)
Lemma angle_step_within `{LibmRange} a b : angle_within PI_val (angle_step a b).
Proof.
  unfold angle_step. set (d := f32.sub _ _).
  assert (angle_within (2 * PI_val) d) as Hd by (apply difference_within; apply atan2_within).
  destruct (wrap_above_once d Hd) as (H1 & G1 & F1).
  destruct (wrap_below_once _ H1 G1) as (H2 & _ & F2).
  rewrite F1, F2 by (unfold WRAP_FUEL; lia). exact H2.
Qed.

(** ** The sum and the quotient *)

(** Each step adds less than 13/4. *)
Lemma partial_sum `{LibmRange} l (idx : list nat) : ∀ acc (k : Z),
  0 ≤ k → k + Z.of_nat (length idx) ≤ 16 → angle_within (13 * k * 2 ^ 147) acc →
  angle_within (13 * (k + Z.of_nat (length idx)) * 2 ^ 147)
    (fold_left (λ acc i, f32.add acc
       (angle_step (nth i l Stokes_H) (nth ((i + 1) mod TRAJECTORY_SAMPLES)%nat l Stokes_H))) idx acc).
Proof.
  induction idx as [|i idx IH]; intros acc k Hk Hlen Hacc.
  { cbn [length fold_left]. by rewrite Z.add_0_r. }
  cbn [length fold_left]. cbn [length] in Hlen. set (d := angle_step _ _).
  replace (k + Z.of_nat (S (length idx))) with (k + 1 + Z.of_nat (length idx)) by lia.
  apply IH; [lia|lia|].
  assert (angle_within PI_val d) as Hd by apply angle_step_within.
  destruct Hacc as [->|[Ha Va]]; [by left|]. destruct Hd as [->|[Hf Hv]]; [left; apply add_nan_r|right].
  pose proof PI_pos.
  destruct (add_rounds acc d (13 * (k + 1)) (-2) Ha Hf) as (Hs1 & Hs2 & _); [lia|lia| |done].
  change (-2 + 149) with 147. lia.
Qed.

Lemma total_angle_within `{LibmRange} l : angle_within (52 * 2 ^ 149) (total_angle l).
Proof.
  unfold total_angle.
  pose proof (partial_sum l (seq 0 TRAJECTORY_SAMPLES) f32.zero 0 ltac:(lia) ltac:(vm_compute; done)
    ltac:(right; done)) as Hs.
  rewrite length_seq in Hs.
  by replace (13 * (0 + Z.of_nat TRAJECTORY_SAMPLES) * 2 ^ 147) with (52 * 2 ^ 149) in Hs by (vm_compute; done).
Qed.

Lemma magnitude_digits mx ex :
  -149 ≤ ex → Zpos mx * 2 ^ (ex + 149) ≤ 52 * 2 ^ 149 → Zpos (digits2_pos mx) + ex ≤ 6.
Proof.
  intros Hex Hm. pose proof (digits_bounds mx) as [Hl _].
  enough (Zpos (digits2_pos mx) - 1 + (ex + 149) < 155) by lia.
  apply (Z.pow_lt_mono_r_iff 2); [lia|lia|]. rewrite Z.pow_add_r by lia.
  assert (0 < 2 ^ (ex + 149)) by lia. nia.
Qed.

(** The integer quotient [q] of the aligned mantissas. *)
Lemma quotient_le mx ex e' q r :
  -149 ≤ e' → e' ≤ ex + 21 → -149 ≤ ex → Zpos mx * 2 ^ (ex + 149) ≤ 52 * 2 ^ 149 →
  Zpos mx * 2 ^ (ex + 21 - e') = 13176795 * q + r → 0 ≤ r < 13176795 →
  0 ≤ q ∧ 13176795 * (q * 2 ^ (e' + 149)) ≤ 52 * 2 ^ 170.
Proof.
  intros He' Hee Hex Hm Eq Hr. set (m' := Zpos mx * 2 ^ (ex + 21 - e')) in *.
  assert (0 ≤ m') by (unfold m'; pose proof (Z.pow_pos_nonneg 2 (ex + 21 - e')); nia).
  split; [nia|]. assert (0 < 2 ^ (e' + 149)) by lia.
  transitivity (m' * 2 ^ (e' + 149)); [nia|]. unfold m'. rewrite <- Z.mul_assoc, <- Z.pow_add_r by lia.
  replace (ex + 21 - e' + (e' + 149)) with (ex + 149 + 21) by lia. rewrite (Z.pow_add_r 2 (ex + 149)) by lia. lia.
Qed.

(** The quotient of a number up to 52 by 2 pi stays below 67/8. *)
Lemma div_two_pi x :
  fin x → Z.abs (sval x) ≤ 52 * 2 ^ 149 →
  match f32.div x f32.TWO_PI with
  | S754_zero _ => True
  | S754_finite _ m e => -149 ≤ e ∧ Zpos m * 2 ^ (e + 149) ≤ 67 * 2 ^ 146
  | _ => False
  end.
Proof.
  rewrite TWO_PI_eq. destruct x as [s|s| |s mx ex]; try done. intros Hx Hv.
  pose proof (bounded_canonical _ _ Hx) as (_ & Hex & _).
  assert (Zpos mx * 2 ^ (ex + 149) ≤ 52 * 2 ^ 149) as Hm by (destruct s; cbn [sval cond_Zopp] in Hv; lia).
  unfold f32.div, SFdiv, SFdiv_core_binary. cbn [Zdigits2].
  change (Zpos (digits2_pos 13176795)) with 24. set (e' := Z.min _ _).
  pose proof (magnitude_digits mx ex ltac:(lia) Hm) as Hd6.
  assert (-149 ≤ e' ≤ -21 ∧ e' ≤ ex + 21) as He' by (unfold e'; rewrite fexp32_eq; lia).
  set (m' := match ex - -21 - e' with Z0 => _ | Zpos _ => _ | Zneg _ => _ end).
  assert (m' = Zpos mx * 2 ^ (ex + 21 - e')) as Em'.
  { unfold m'. replace (ex - -21 - e') with (ex + 21 - e') by lia.
    destruct (ex + 21 - e') eqn:E; [lia|by rewrite Z.shiftl_mul_pow2 by lia|lia]. }
  pose proof (Z_div_mod m' 13176795 ltac:(lia)) as Hdiv.
  destruct (Z.div_eucl m' 13176795) as [q r]. destruct Hdiv as [Eq Hr].
  rewrite Em' in Eq.
  destruct (quotient_le mx ex e' q r ltac:(lia) ltac:(lia) ltac:(lia) Hm Eq ltac:(lia)) as [Hq HA].
  assert (2 ^ (e' + 149) ≤ 2 ^ 128) by (apply Z.pow_le_mono_r; lia).
  pose proof (round_aux_le 149 (xorb s false) q e' (new_location 13176795 r) 67 (-3)
    ltac:(lia) ltac:(lia) ltac:(done) ltac:(lia) ltac:(lia)) as Hb.
  assert ((q + 1) * 2 ^ (e' + 149) ≤ 67 * 2 ^ (-3 + 149)) as Hle
    by (rewrite Z.mul_add_distr_r; change (-3 + 149) with 146; lia).
  assert (match new_location 13176795 r with loc_Exact => q | _ => q + 1 end * 2 ^ (e' + 149)
    ≤ 67 * 2 ^ (-3 + 149)) as Hle'.
  { assert (0 < 2 ^ (e' + 149)) by lia. destruct (new_location _ _); [nia|exact Hle]. }
  specialize (Hb Hle'). destruct (binary_round_aux _ _ _ _ _ _); try done.
  destruct Hb as (_ & ? & ?). by split.
Qed.

(** ** Rounding the quotient *)

(** Rounded to the nearest integer, at most 8. *)
Lemma round_mag_le m e :
  -149 ≤ e → Zpos m * 2 ^ (e + 149) ≤ 67 * 2 ^ 146 → 0 ≤ round_mag m e ≤ 8.
Proof.
  intros He Hm. unfold round_mag. assert (e ≤ 3) as He3.
  { enough (e + 149 < 153) by lia. apply (Z.pow_lt_mono_r_iff 2); [lia|lia|]. nia. }
  destruct (Z.leb_spec 0 e) as [Hpos|Hneg].
  - rewrite Z.pow_add_r in Hm by lia. assert (0 < 2 ^ e) by (apply Z.pow_pos_nonneg; lia). nia.
  - assert (0 < 2 ^ (- e)) as Hp by (apply Z.pow_pos_nonneg; lia).
    replace (2 ^ (- e + 1)) with (2 * 2 ^ (- e)) by (rewrite Z.pow_add_r by lia; lia).
    assert (8 * Zpos m ≤ 67 * 2 ^ (- e)) as H8.
    { assert (2 ^ (e + 149) * 2 ^ (- e) = 2 ^ 149) as Ep by (rewrite <- Z.pow_add_r by lia; f_equal; lia).
      assert (0 < 2 ^ (e + 149)) by (apply Z.pow_pos_nonneg; lia). nia. }
    split; [apply Z.div_pos; lia|].
    enough ((2 * Zpos m + 2 ^ (- e)) / (2 * 2 ^ (- e)) < 9) by lia.
    apply Z.div_lt_upper_bound; lia.
Qed.

(** The integers of that range are floats, so rounding and casting are exact. *)
Lemma round_cast s m e :
  0 ≤ round_mag m e ≤ 8 → f32.to_i32 (f32.round (S754_finite s m e)) = cond_Zopp s (round_mag m e).
Proof.
  intros [Hlo Hhi]. unfold f32.round. remember (round_mag m e) as r eqn:Er. clear Er.
  assert (r ∈ seqZ 0 9) as Hin by (apply elem_of_seqZ; lia).
  assert (∀ r, r ∈ seqZ 0 9 → f32.to_i32 match r with
      | 0 => S754_zero s
      | Zpos p => f32.of_Z (cond_Zopp s (Zpos p))
      | Zneg p => f32.of_Z (cond_Zopp s (Zneg p)) end
    = cond_Zopp s r) as Hall; [|by apply Hall].
  apply Forall_forall. destruct s; repeat constructor.
Qed.

Lemma winding_within `{LibmRange} t : -8 ≤ winding_number_s3 t ≤ 8.
Proof.
  unfold winding_number_s3. destruct (total_angle_within (samples t)) as [->|[Hf Hv]].
  { vm_compute. split; discriminate. }
  pose proof (div_two_pi _ Hf Hv) as Hd. destruct (f32.div _ _) as [s|s| |s m e];
    [split; discriminate|destruct Hd|destruct Hd|].
  destruct Hd as [He Hm]. pose proof (round_mag_le m e He Hm) as Hr.
  rewrite round_cast by done. destruct s; cbn [cond_Zopp]; lia.
Qed.

(** ** The properties *)

Import ToyLibm.

Lemma within_pi d :
  angle_within PI_val d → SFleb d (f32.opp f32.PI) = false →
  d = S754_nan ∨ SFltb (f32.opp f32.PI) d = true ∧ SFleb d f32.PI = true.
Proof.
  intros [->|[Hf Hv]] Hg; [by left|right]. destruct PI_fin as [Hp Ep], opp_PI_fin as [Ho Eo].
  rewrite leb_val, Eo in Hg by done. apply Z.leb_gt in Hg.
  rewrite ltb_val, leb_val, Eo, Ep by done. rewrite Z.ltb_lt, Z.leb_le. lia.
Qed.

(** C36: The two [while] loops of [winding_number_s3] terminate.  For angles as [atan2]
    returns them each body runs at most once: from one unit of fuel on the result no
    longer depends on the fuel, the guard of the loop is false on it, and the step from
    one sample to the next is NaN or lies in (-pi, pi]. *)
Theorem wrap_loops_terminate `{LibmRange} (a b : StokesVector) :
  let d := f32.sub (f32_atan2 (s2 b) (s1 b)) (f32_atan2 (s2 a) (s1 a)) in
  let d1 := wrap_above 1 d in
  let d2 := wrap_below 1 d1 in
  (∀ fuel, (1 ≤ fuel)%nat → wrap_above fuel d = d1 ∧ wrap_below fuel d1 = d2) ∧
  SFltb f32.PI d1 = false ∧ SFleb d2 (f32.opp f32.PI) = false ∧
  angle_step a b = d2 ∧
  (d2 = S754_nan ∨ SFltb (f32.opp f32.PI) d2 = true ∧ SFleb d2 f32.PI = true).
Proof.
  intros d. assert (angle_within (2 * PI_val) d) as Hd by (apply difference_within; apply atan2_within).
  destruct (wrap_above_once d Hd) as (Hd1 & G1 & F1).
  destruct (wrap_below_once _ Hd1 G1) as (Hd2 & G2 & F2).
  split_and!; [by split; [apply F1|apply F2]|done|done| |by apply within_pi].
  unfold angle_step. fold d. by rewrite F1, F2 by (unfold WRAP_FUEL; lia).
Qed.

(** From the direction of -1 (angle pi) to the direction of -i: the first loop is
    passed by, the second runs once. *)
Lemma wrap_loops_terminate_witness :
  let a := mkStokes (f32.of_Z (-1)) f32.zero f32.zero in
  let b := mkStokes f32.zero (f32.of_Z (-1)) f32.zero in
  angle_step a b = wrap_below 1 (wrap_above 1 (f32.sub (f32.opp PI_2) f32.PI)) ∧
  SFleb (f32.sub (f32.opp PI_2) f32.PI) (f32.opp f32.PI) = true.
Proof.
  split; [|vm_compute; reflexivity].
  exact (proj1 (proj2 (proj2 (proj2 (wrap_loops_terminate (H0 := toy_libm_range)
    (mkStokes (f32.of_Z (-1)) f32.zero f32.zero) (mkStokes f32.zero (f32.of_Z (-1)) f32.zero)))))).
Defined.

(** C35: The winding number of any sixteen samples, also of samples that are NaN or
    infinite, lies between -8 and 8: sixteen steps of at most half a turn each, the sum
    and the quotient rounded to [f32]. *)
Theorem winding_number_bounded `{LibmRange} (t : PolarizationTrajectory) :
  -8 ≤ winding_number_s3 t ≤ 8.
Proof. apply winding_within. Qed.

(** Eight half turns forward make a winding number of 4. *)
Lemma winding_number_bounded_witness :
  let t := mkTrajectory (concat (replicate 4 [Stokes_H; Stokes_D; Stokes_V;
    mkStokes f32.zero (f32.of_Z (-1)) f32.zero])) in
  winding_number_s3 t = 4 ∧ winding_number_s3 t ≤ 8.
Proof.
  split; [vm_compute; reflexivity|].
  apply (winding_number_bounded (H0 := toy_libm_range)).
Defined.
