(* ===== verification/External.v ===== *)
(** * Interfaces of the cryptographic crates

    The hash, MAC and signature crates ([sha2], [hmac], [ed25519-dalek], [p256]) are
    dependencies of the repository, not part of it.  Each is a
    class of operations, a parameter of the definitions that call it; a second
    class states the documented facts the theorems rely on.  [Toy] gives
    concrete instances, which show that the stated facts can hold. *)

From S2P Require Import Prelude.
Local Open Scope Z_scope.

(** ** SHA-256 and HMAC-SHA256 *)

Class Sha256 := { sha256 : bytes → bytes }.

(** A digest is 32 bytes. *)
Class Sha256Spec `{Sha256} : Prop := {
  sha256_array m : array_ok 32 (sha256 m);
}.

(** [hmac key message] *)
Class HmacSha256 := { hmac_sha256 : bytes → bytes → bytes }.

(** A tag is 32 bytes. *)
Class HmacSpec `{HmacSha256} : Prop := {
  hmac_array k m : array_ok 32 (hmac_sha256 k m);
}.

(** The streaming interface: [new_from_slice], [update], [finalize]. A clone is
    the same value. *)
Record Hmac : Type := mkHmac { hmac_key : bytes; hmac_input : bytes }.

Definition Hmac_new (key : bytes) : Hmac := mkHmac key [].
Definition Hmac_update (m : Hmac) (data : bytes) : Hmac :=
  mkHmac (hmac_key m) (hmac_input m ++ data).
Definition Hmac_finalize `{HmacSha256} (m : Hmac) : bytes :=
  hmac_sha256 (hmac_key m) (hmac_input m).

(** ** Ed25519 *)

Class Ed25519 := {
  ed_sk : Type;
  ed_vk : Type;
  (** [SigningKey::from_bytes] *)
  ed_sk_from_bytes : bytes → ed_sk;
  (** [SigningKey::verifying_key] *)
  ed_verifying_key : ed_sk → ed_vk;
  (** [Signer::sign], to bytes *)
  ed_sign : ed_sk → bytes → bytes;
  (** [VerifyingKey::from_bytes]: [None] when the bytes are not a curve point *)
  ed_vk_from_bytes : bytes → option ed_vk;
  (** [VerifyingKey::to_bytes] *)
  ed_vk_to_bytes : ed_vk → bytes;
  (** [Verifier::verify] *)
  ed_verify : ed_vk → bytes → bytes → bool;
}.

Class Ed25519Spec `{Ed25519} : Prop := {
  (** A signature made with a key verifies under its public key. *)
  ed_sign_verify sk m : ed_verify (ed_verifying_key sk) m (ed_sign sk m) = true;
  (** A public key survives serialization. *)
  ed_vk_roundtrip sk :
    ed_vk_from_bytes (ed_vk_to_bytes (ed_verifying_key sk)) = Some (ed_verifying_key sk);
  ed_vk_array vk : array_ok 32 (ed_vk_to_bytes vk);
  ed_sig_array sk m : array_ok 64 (ed_sign sk m);
}.

(** ** ECDSA over P-256 *)

Class P256 := {
  p256_sk : Type;
  p256_vk : Type;
  p256_sig : Type;
  (** [SigningKey::from_slice]: [None] for a wrong length or a scalar out of range *)
  p256_sk_from_slice : bytes → option p256_sk;
  p256_verifying_key : p256_sk → p256_vk;
  p256_sign : p256_sk → bytes → p256_sig;
  p256_verify : p256_vk → bytes → p256_sig → bool;
}.

(** A signature made with a key verifies under its public key. *)
Class P256Spec `{P256} : Prop := {
  p256_sign_verify sk m : p256_verify (p256_verifying_key sk) m (p256_sign sk m) = true;
}.

(** ** Concrete instances *)

Module Toy.
Definition fold32 (m : bytes) : bytes := to_be_bytes 32 (from_be_bytes m).

#[export] Instance toy_hmac : HmacSha256 := {| hmac_sha256 k m := fold32 (k ++ m) |}.
#[export] Instance toy_hmac_spec : HmacSpec.
Proof. constructor. intros. apply array_ok_to_be_bytes. Qed.

(** The first 32 bytes, padded with zeros. *)
Definition first32 (m : bytes) : bytes := take 32 (((λ z, z mod 256) <$> m) ++ replicate 32 0).

Lemma first32_ok m : array_ok 32 (first32 m).
Proof.
  unfold first32. split.
  - rewrite length_take, length_app, length_fmap, length_replicate. lia.
  - apply Forall_take, bytes_ok_app. split; [|apply bytes_ok_zeros].
    unfold bytes_ok. apply Forall_fmap, Forall_true. intros z. apply (wrap_range 8). lia.
Qed.

Lemma first32_id m : array_ok 32 m → first32 m = m.
Proof.
  intros [Hl Hb]. unfold first32.
  rewrite take_app_le, take_ge by (rewrite length_fmap; lia).
  rewrite <- (list_fmap_id m) at 2. apply list_fmap_ext. intros i z Hz.
  apply (Forall_lookup_1 _ _ _ _ Hb) in Hz. by apply (wrap_small 8).
Qed.

#[export] Instance toy_sha256 : Sha256 := {| sha256 := first32 |}.
#[export] Instance toy_sha256_spec : Sha256Spec.
Proof. constructor. intros. apply first32_ok. Qed.

(** The public key is the key; a signature is the key followed by the message
    cut to 32 bytes. *)
#[export] Instance toy_ed25519 : Ed25519 := {|
  ed_sk := bytes;
  ed_vk := bytes;
  ed_sk_from_bytes := first32;
  ed_verifying_key := first32;
  ed_sign sk m := first32 sk ++ first32 m;
  ed_vk_from_bytes l := Some (first32 l);
  ed_vk_to_bytes := first32;
  ed_verify vk m sig := bool_decide (sig = first32 vk ++ first32 m);
|}.

#[export] Instance toy_ed25519_spec : Ed25519Spec.
Proof.
  constructor; intros;
    cbn [ed_verify ed_verifying_key ed_sign ed_vk_from_bytes ed_vk_to_bytes toy_ed25519].
  - apply bool_decide_true. by rewrite (first32_id (first32 sk)) by apply first32_ok.
  - by rewrite !(first32_id (first32 _)) by apply first32_ok.
  - apply first32_ok.
  - destruct (first32_ok sk), (first32_ok m).
    split; [rewrite length_app; lia|by apply bytes_ok_app].
Qed.

(** A scalar is 32 bytes, not all zero. *)
#[export] Instance toy_p256 : P256 := {|
  p256_sk := bytes;
  p256_vk := bytes;
  p256_sig := bytes * bytes;
  p256_sk_from_slice b :=
    if bool_decide (length b = 32%nat) && negb (from_be_bytes b =? 0) then Some b else None;
  p256_verifying_key sk := sk;
  p256_sign sk m := (sk, m);
  p256_verify vk m sig := bool_decide (sig = (vk, m));
|}.

#[export] Instance toy_p256_spec : P256Spec.
Proof. constructor. intros sk m. by apply bool_decide_true. Qed.
End Toy.
