(* ===== verification/Crypto.v ===== *)
(** * otap-crypto: trajectory authentication

    Models [src/crates/otap-crypto/src/lib.rs]: the shared secret, the HMAC
    derivation of a polarization trajectory from the fields of a Transient, and
    the two verification modes. *)

From S2P Require Import Prelude Float Core External.
Local Open Scope Z_scope.

(** ** Shared secret *)

Record SharedSecret : Type := mkSecret { secret_bytes : bytes }.

Definition SharedSecret_new (key : bytes) : SharedSecret := mkSecret key.

Definition SharedSecret_ok (s : SharedSecret) : Prop := array_ok 32 (secret_bytes s).

Definition test_from_label `{Sha256} (label : bytes) : SharedSecret :=
  mkSecret (sha256 (str_bytes "OTAP-TEST-KEY-" ++ label)).

(** ** Trajectory derivation *)

Record TrajectoryContext : Type := mkContext {
  ctx_wavelength : Wavelength;
  ctx_oam : OamMode;
  ctx_sequence : Z;
  ctx_payload : bytes;
}.

(** The Rust types of the fields; a payload longer than [u32::MAX] bytes does not
    fit the length field of the MAC input. *)
Definition Context_ok (c : TrajectoryContext) : Prop :=
  Wavelength_ok (ctx_wavelength c) ∧ OamMode_ok (ctx_oam c) ∧ u16 (ctx_sequence c) ∧
  u32 (Z.of_nat (length (ctx_payload c))).

(** Map 6 bytes to a normalized Stokes vector. *)
Definition to_signed (hi lo : Z) : float :=
  let raw := as_signed 16 (from_be_bytes [hi; lo]) in
  f32.div (f32.of_Z raw) (f32.of_Z 32768).

Definition stokes_from_bytes (b : bytes) : StokesVector :=
  let at_ i := nth i b 0 in
  StokesVector_new (to_signed (at_ 0%nat) (at_ 1%nat)) (to_signed (at_ 2%nat) (at_ 3%nat))
    (to_signed (at_ 4%nat) (at_ 5%nat)).

Section derive.
Context `{HmacSha256}.

(** The MAC state before the first [finalize]. *)
Definition context_mac (secret : SharedSecret) (c : TrajectoryContext) : Hmac :=
  let mac := Hmac_new (secret_bytes secret) in
  let mac := Hmac_update mac (str_bytes "OTAP-D3-TRAJECTORY-v1") in
  let mac := Hmac_update mac (to_be_bytes 2 (channel (ctx_wavelength c))) in
  let mac := Hmac_update mac (to_be_bytes 1 (wrap 8 (charge (ctx_oam c)))) in
  let mac := Hmac_update mac (to_be_bytes 2 (ctx_sequence c)) in
  let mac := Hmac_update mac (to_be_bytes 4 (wrap 32 (Z.of_nat (length (ctx_payload c))))) in
  Hmac_update mac (ctx_payload c).

(** The MAC state before the [finalize] of sample [i]. *)
Definition sample_mac (secret : SharedSecret) (tag : bytes) (i : nat) : Hmac :=
  let base := Hmac_new (secret_bytes secret) in
  let base := Hmac_update base (str_bytes "OTAP-D3-SAMPLE-v1") in
  let base := Hmac_update base tag in
  Hmac_update base (to_be_bytes 2 (wrap 16 (Z.of_nat i))).

Definition derive_trajectory (secret : SharedSecret) (c : TrajectoryContext)
    : PolarizationTrajectory :=
  let tag := Hmac_finalize (context_mac secret c) in
  PolarizationTrajectory_new
    ((λ i, stokes_from_bytes (slice (Hmac_finalize (sample_mac secret tag i)) 0 6))
       <$> seq 0 TRAJECTORY_SAMPLES).
End derive.

(** ** Verification *)

Inductive AuthMode : Type :=
| TrajectoryMatch (tolerance_rad : float)
| Topological.

Definition AuthMode_default : AuthMode := TrajectoryMatch (f32.lit 1 10).

Section verify.
Context `{HmacSha256} `{Libm}.

(** [for i in 0..TRAJECTORY_SAMPLES]: the first sample out of tolerance
    returns. *)
Fixpoint match_samples (tolerance_rad : float) (expected observed : list StokesVector)
    (idx : list nat) : Result unit :=
  match idx with
  | [] => Ok ()
  | i :: idx =>
      let d := angular_distance (nth i expected Stokes_H) (nth i observed Stokes_H) in
      if SFltb tolerance_rad d then Err AuthenticationFailure
      else match_samples tolerance_rad expected observed idx
  end.

Definition verify_trajectory (secret : SharedSecret) (c : TrajectoryContext)
    (observed : PolarizationTrajectory) (mode : AuthMode) : Result unit :=
  let expected := derive_trajectory secret c in
  match mode with
  | TrajectoryMatch tolerance_rad =>
      match_samples tolerance_rad (samples expected) (samples observed)
        (seq 0 TRAJECTORY_SAMPLES)
  | Topological =>
      if winding_number_s3 expected =? winding_number_s3 observed then Ok ()
      else Err AuthenticationFailure
  end.
End verify.

(** ** Shape of the derivation *)

Lemma derive_trajectory_ok `{HmacSha256} secret c :
  Trajectory_ok (derive_trajectory secret c).
Proof. reflexivity. Qed.

Lemma context_mac_input `{HmacSha256} secret c :
  hmac_input (context_mac secret c) =
  str_bytes "OTAP-D3-TRAJECTORY-v1" ++ to_be_bytes 2 (channel (ctx_wavelength c)) ++
  to_be_bytes 1 (wrap 8 (charge (ctx_oam c))) ++ to_be_bytes 2 (ctx_sequence c) ++
  to_be_bytes 4 (wrap 32 (Z.of_nat (length (ctx_payload c)))) ++ ctx_payload c.
Proof. unfold context_mac, Hmac_update. cbn [hmac_input Hmac_new]. by rewrite !app_nil_l, <- !app_assoc. Qed.

Lemma sample_mac_input `{HmacSha256} secret tag i :
  hmac_input (sample_mac secret tag i) =
  str_bytes "OTAP-D3-SAMPLE-v1" ++ tag ++ to_be_bytes 2 (wrap 16 (Z.of_nat i)).
Proof. unfold sample_mac, Hmac_update. cbn [hmac_input Hmac_new]. by rewrite !app_nil_l, <- !app_assoc. Qed.

(** The [u8] cast of a charge keeps it apart from every other charge. *)
Lemma charge_byte_inj o o' :
  OamMode_ok o → OamMode_ok o' → wrap 8 (charge o) = wrap 8 (charge o') → o = o'.
Proof.
  destruct o as [c], o' as [c']. unfold OamMode_ok, OAM_MIN, OAM_MAX. simpl. intros ? ? Heq.
  f_equal. rewrite <- (as_signed_wrap 8 c), <- (as_signed_wrap 8 c'), Heq;
    unfold in_sint; simpl; lia.
Qed.

Ltac peel H :=
  apply app_inj_length in H as [? H]; [|by rewrite ?to_be_bytes_length].

(** The MAC input determines every field of the context. *)
Lemma context_mac_inj `{HmacSha256} secret secret' c c' :
  Context_ok c → Context_ok c' →
  hmac_input (context_mac secret c) = hmac_input (context_mac secret' c') → c = c'.
Proof.
  intros (Hw & Ho & Hs & Hp) (Hw' & Ho' & Hs' & Hp').
  rewrite !context_mac_input. intros E.
  peel E. peel E. peel E. peel E. peel E.
  destruct c as [w o s p], c' as [w' o' s' p']; simpl in *. f_equal.
  - destruct w as [ch], w' as [ch']. f_equal.
    by apply (to_be_bytes_inj 2); [exact (Wavelength_ok_u16 _ Hw)|exact (Wavelength_ok_u16 _ Hw')|].
  - apply charge_byte_inj; auto.
    eapply (to_be_bytes_inj 1); [by apply wrap_range..|done].
  - by eapply (to_be_bytes_inj 2).
  - done.
Qed.

(** No sample input is a context input: the domain tags differ at byte 8. *)
Lemma sample_mac_ne_context_mac `{HmacSha256} secret secret' tag i c :
  hmac_input (sample_mac secret tag i) ≠ hmac_input (context_mac secret' c).
Proof.
  rewrite sample_mac_input, context_mac_input. intros E.
  apply (f_equal (λ l, l !! 8%nat)) in E. vm_compute in E. discriminate.
Qed.

Lemma sample_mac_inj `{HmacSha256} secret secret' tag tag' i i' :
  length tag = length tag' → u16 (Z.of_nat i) → u16 (Z.of_nat i') →
  hmac_input (sample_mac secret tag i) = hmac_input (sample_mac secret' tag' i') →
  tag = tag' ∧ i = i'.
Proof.
  intros Hl Hi Hi'. rewrite !sample_mac_input. intros E. peel E.
  apply app_inj_length in E as [? E]; [|done].
  rewrite !wrap_small in E by done.
  apply (to_be_bytes_inj 2) in E; [|done..]. split; [done|lia].
Qed.

(** ** Verification *)

Section verify_facts.
Context `{HmacSha256} `{Libm}.

Lemma match_samples_ok tol e o idx :
  match_samples tol e o idx = Ok () ↔
  Forall (λ i, SFltb tol (angular_distance (nth i e Stokes_H) (nth i o Stokes_H)) = false) idx.
Proof.
  induction idx as [|i idx IH]; cbn [match_samples]; [by split; [constructor|]|].
  rewrite Forall_cons. destruct (SFltb tol _); [split; [done|by intros [[=] _]]|].
  rewrite IH. tauto.
Qed.

Lemma match_samples_cases tol e o idx :
  match_samples tol e o idx = Ok () ∨
  match_samples tol e o idx = Err AuthenticationFailure.
Proof. induction idx as [|i idx IH]; cbn; [by left|]. case_match; [by right|done]. Qed.

Lemma verify_derived_topological secret c :
  verify_trajectory secret c (derive_trajectory secret c) Topological = Ok ().
Proof. unfold verify_trajectory. by rewrite Z.eqb_refl. Qed.

Lemma verify_cases secret c obs mode :
  verify_trajectory secret c obs mode = Ok () ∨
  verify_trajectory secret c obs mode = Err AuthenticationFailure.
Proof.
  unfold verify_trajectory. destruct mode; [apply match_samples_cases|].
  case_match; auto.
Qed.
End verify_facts.

(** ** NaN samples *)

Definition nan_stokes : StokesVector := mkStokes S754_nan S754_nan S754_nan.
Definition nan_trajectory : PolarizationTrajectory :=
  PolarizationTrajectory_new (replicate TRAJECTORY_SAMPLES nan_stokes).

Lemma angular_distance_nan `{LibmNan} v : angular_distance v nan_stokes = S754_nan.
Proof. unfold angular_distance, dot. cbn [s1 s2 s3 nan_stokes]. autorewrite with nan. apply acos_nan. Qed.

Lemma nth_nan i : (i < TRAJECTORY_SAMPLES)%nat →
  nth i (samples nan_trajectory) Stokes_H = nan_stokes.
Proof. intros Hi. cbn [samples nan_trajectory PolarizationTrajectory_new]. rewrite nth_lookup, lookup_replicate_2 by done. done. Qed.

(** ** Properties *)

(** The strings MACed for a context and for a sample of it. *)
Definition context_input (c : TrajectoryContext) : bytes :=
  str_bytes "OTAP-D3-TRAJECTORY-v1" ++ to_be_bytes 2 (channel (ctx_wavelength c)) ++
  to_be_bytes 1 (wrap 8 (charge (ctx_oam c))) ++ to_be_bytes 2 (ctx_sequence c) ++
  to_be_bytes 4 (wrap 32 (Z.of_nat (length (ctx_payload c)))) ++ ctx_payload c.

Definition context_tag `{HmacSha256} (secret : SharedSecret) (c : TrajectoryContext) : bytes :=
  hmac_sha256 (secret_bytes secret) (context_input c).

Definition sample_input `{HmacSha256} (secret : SharedSecret) (c : TrajectoryContext) (i : nat)
    : bytes :=
  str_bytes "OTAP-D3-SAMPLE-v1" ++ context_tag secret c ++ to_be_bytes 2 (wrap 16 (Z.of_nat i)).

Lemma context_mac_tag `{HmacSha256} secret c :
  Hmac_finalize (context_mac secret c) = context_tag secret c.
Proof. unfold Hmac_finalize, context_tag. by rewrite context_mac_input. Qed.

Lemma sample_input_mac `{HmacSha256} secret c i :
  hmac_input (sample_mac secret (context_tag secret c) i) = sample_input secret c i.
Proof. apply sample_mac_input. Qed.

Lemma derive_trajectory_samples `{HmacSha256} secret c :
  samples (derive_trajectory secret c) =
  (λ i, stokes_from_bytes
          (take 6 (hmac_sha256 (secret_bytes secret) (sample_input secret c i))))
    <$> seq 0 TRAJECTORY_SAMPLES.
Proof.
  unfold derive_trajectory. rewrite context_mac_tag. apply list_fmap_ext. intros _ i _.
  unfold Hmac_finalize. by rewrite sample_input_mac.
Qed.

(** C34: the trajectory is bound to every field of the Transient.  Each of its
    [TRAJECTORY_SAMPLES] samples is read off the HMAC of that sample's own input
    string, which carries the HMAC of the context string and the sample's index.
    The context string determines the wavelength, OAM mode, sequence number and
    payload; and unless the HMAC itself collides on the two context strings,
    sample [i] of one Transient is derived from the same input as sample [j] of
    another only for the same context and the same index.  Context and sample
    inputs never coincide. *)
Theorem trajectory_binding `{HmacSpec} (secret : SharedSecret) (c c' : TrajectoryContext)
    (i j : nat) :
  Context_ok c → Context_ok c' → (i < TRAJECTORY_SAMPLES)%nat → (j < TRAJECTORY_SAMPLES)%nat →
  (context_tag secret c = context_tag secret c' → context_input c = context_input c') →
  samples (derive_trajectory secret c) !! i =
    Some (stokes_from_bytes
            (take 6 (hmac_sha256 (secret_bytes secret) (sample_input secret c i)))) ∧
  length (samples (derive_trajectory secret c)) = TRAJECTORY_SAMPLES ∧
  (context_input c = context_input c' ↔ c = c') ∧
  (sample_input secret c i = sample_input secret c' j ↔ c = c' ∧ i = j) ∧
  sample_input secret c i ≠ context_input c'.
Proof.
  unfold TRAJECTORY_SAMPLES. intros Hc Hc' Hi Hj Hcol.
  assert (context_input c = context_input c' → c = c') as Hinj.
  { intros E. apply (context_mac_inj secret secret); [done..|]. by rewrite !context_mac_input. }
  split_and!.
  - rewrite derive_trajectory_samples, list_lookup_fmap, lookup_seq_lt by done. done.
  - by rewrite derive_trajectory_samples, length_fmap, length_seq.
  - split; [done | by intros ->].
  - split; [|by intros [-> ->]]. rewrite <- !sample_input_mac. intros E.
    eapply sample_mac_inj in E as [Etag ->]; [by split; [apply Hinj, Hcol|]| |unfold in_uint; lia..].
    unfold context_tag. by rewrite !(proj1 (hmac_array _ _)).
  - rewrite <- sample_input_mac. unfold context_input. rewrite <- (context_mac_input secret c').
    apply sample_mac_ne_context_mac.
Qed.

Definition demo_ctx (seq : Z) : TrajectoryContext :=
  mkContext (mkWavelength 40) (mkOamMode 1) seq [1; 2; 3].

Lemma demo_ctx_ok : Context_ok (demo_ctx 7) ∧ Context_ok (demo_ctx 8).
Proof. vm_compute. repeat split; discriminate. Qed.

#[local] Existing Instances Toy.toy_hmac Toy.toy_hmac_spec ToyLibm.toy_libm ToyLibm.toy_libm_nan.

Lemma demo_tag_ne :
  context_tag (mkSecret [5]) (demo_ctx 7) ≠ context_tag (mkSecret [5]) (demo_ctx 8).
Proof. vm_compute. discriminate. Qed.

Lemma trajectory_binding_witness :
  samples (derive_trajectory (mkSecret [5]) (demo_ctx 7)) !! 3%nat =
    Some (stokes_from_bytes
            (take 6 (hmac_sha256 [5] (sample_input (mkSecret [5]) (demo_ctx 7) 3)))) ∧
  sample_input (mkSecret [5]) (demo_ctx 7) 3 ≠ sample_input (mkSecret [5]) (demo_ctx 8) 3.
Proof.
  destruct demo_ctx_ok as [H7 H8].
  assert (3 < TRAJECTORY_SAMPLES)%nat as H3 by (unfold TRAJECTORY_SAMPLES; lia).
  pose proof (trajectory_binding (mkSecret [5]) (demo_ctx 7) (demo_ctx 8) 3 3 H7 H8 H3 H3
    (λ E, False_ind _ (demo_tag_ne E))) as (Hd & _ & _ & Hs & _).
  split; [exact Hd|]. intros E. apply Hs in E as [E _]. discriminate E.
Defined.

(** What the two modes accept.  Trajectory match accepts exactly when no
    sample is farther than the tolerance from the derived one; topological
    match exactly when the winding numbers agree; the only error is
    [AuthenticationFailure]. *)
Theorem verify_trajectory_spec `{HmacSha256} `{Libm} (secret : SharedSecret)
    (c : TrajectoryContext) (obs : PolarizationTrajectory) (mode : AuthMode) :
  let expected := derive_trajectory secret c in
  (verify_trajectory secret c obs mode = Ok () ↔
   match mode with
   | TrajectoryMatch tol =>
       ∀ i, (i < TRAJECTORY_SAMPLES)%nat →
         SFltb tol (angular_distance (nth i (samples expected) Stokes_H)
                      (nth i (samples obs) Stokes_H)) = false
   | Topological => winding_number_s3 expected = winding_number_s3 obs
   end) ∧
  (verify_trajectory secret c obs mode = Ok () ∨
   verify_trajectory secret c obs mode = Err AuthenticationFailure).
Proof.
  cbv zeta. split; [|apply verify_cases]. unfold verify_trajectory. destruct mode as [tol|].
  - rewrite match_samples_ok, Forall_forall. split.
    + intros Hall i Hi. apply Hall, elem_of_seq. lia.
    + intros Hall i Hi%elem_of_seq. apply Hall. lia.
  - destruct (Z.eqb_spec (winding_number_s3 (derive_trajectory secret c))
      (winding_number_s3 obs)); naive_solver.
Qed.

(** A trajectory of NaN samples passes trajectory match for every secret,
    every context and every tolerance: the comparison [d > tolerance_rad] is
    false on NaN, so the check does not fail closed. *)
Theorem nan_trajectory_authenticates `{HmacSha256} `{LibmNan} (secret : SharedSecret)
    (c : TrajectoryContext) (tol : float) :
  verify_trajectory secret c nan_trajectory (TrajectoryMatch tol) = Ok ().
Proof.
  apply match_samples_ok, Forall_forall. intros i Hi%elem_of_seq.
  rewrite nth_nan, angular_distance_nan by lia. apply ltb_nan_r.
Qed.

Lemma nan_trajectory_authenticates_witness :
  verify_trajectory (mkSecret (replicate 32 1)) (mkContext (mkWavelength 40) (mkOamMode 1) 0 [])
    nan_trajectory (TrajectoryMatch (f32.lit 1 1000)) = Ok ().
Proof. apply nan_trajectory_authenticates. Defined.
