(* ===== verification/Schema.v ===== *)
(** * otap-schema: the application schemas

    Models [src/crates/otap-schema/src/{lib,equity_order,market_tick,heartbeat}.rs].
    The trait [Schema] is the class [Schema]; [SchemaLaws] is what the codec
    relies on, proved for each of the three schemas.  An [f64] field is its
    IEEE-754 bit pattern: [to_be_bytes] and [from_be_bytes] only move bits. *)

From S2P Require Import Prelude Float Core.
Local Open Scope Z_scope.

(** ** The trait *)

Class Schema (S : Type) := {
  OAM_MODE : OamMode;
  PAYLOAD_BYTES : nat;
  encode : S → bytes;
  decode : bytes → Result S;
}.
Arguments OAM_MODE S {_}.
Arguments PAYLOAD_BYTES S {_}.

(** [wf] holds of the values the Rust type admits. *)
Class SchemaLaws (S : Type) `{Schema S} (wf : S → Prop) : Prop := {
  encode_length v : wf v → length (encode v) = PAYLOAD_BYTES S;
  encode_bytes_ok v : wf v → bytes_ok (encode v);
  decode_encode v : wf v → decode (encode v) = Ok v;
  decode_wrong_length b :
    length b ≠ PAYLOAD_BYTES S →
    decode b = Err (SchemaMismatch (charge (OAM_MODE S)) (Z.of_nat (PAYLOAD_BYTES S))
                      (Z.of_nat (length b)));
  decode_wf b (v : S) : bytes_ok b → decode b = Ok v → wf v;
}.

(** [bytes.len() != PAYLOAD_BYTES] *)
Definition check_length (o : OamMode) (n : nat) (b : bytes) : Result unit :=
  if decide (length b = n) then Ok ()
  else Err (SchemaMismatch (charge o) (Z.of_nat n) (Z.of_nat (length b))).

(** ** Equity trade order, OAM +1 *)

Inductive Side : Type := Buy | Sell.

#[export] Instance Side_eq_dec : EqDecision Side.
Proof. solve_decision. Defined.

Definition Side_to_u8 (s : Side) : Z := match s with Buy => 0 | Sell => 1 end.

Definition Side_from_u8 (b : Z) : Result Side :=
  if b =? 0 then Ok Buy
  else if b =? 1 then Ok Sell
  else Err (WireFormat "invalid side byte").

Record EquityTradeOrder : Type := mkOrder {
  order_symbol : bytes;
  side : Side;
  quantity : Z;
  price_cents : Z;
  order_timestamp_ns : Z;
  client_order_id : Z;
  firm_uuid : bytes;
}.

Definition Order_ok (o : EquityTradeOrder) : Prop :=
  array_ok 4 (order_symbol o) ∧ u32 (quantity o) ∧ u64 (price_cents o) ∧
  u64 (order_timestamp_ns o) ∧ u64 (client_order_id o) ∧ array_ok 16 (firm_uuid o).

(** [symbol] is the UTF-8 bytes of the [&str]. *)
Definition EquityTradeOrder_new (symbol : bytes) (side : Side)
    (quantity price_cents timestamp_ns client_order_id : Z) (firm_uuid : bytes)
    : EquityTradeOrder :=
  mkOrder (splice (replicate 4 0) 0 (take 4 symbol)) side quantity price_cents
    timestamp_ns client_order_id firm_uuid.

Definition ORDER_OAM : OamMode := mkOamMode 1.
Definition ORDER_BYTES : nat := 256.

Definition Order_encode (o : EquityTradeOrder) : bytes :=
  let buf := replicate ORDER_BYTES 0 in
  let buf := splice buf 0 (order_symbol o) in
  let buf := splice buf 4 [Side_to_u8 (side o)] in
  let buf := splice buf 8 (to_be_bytes 4 (quantity o)) in
  let buf := splice buf 16 (to_be_bytes 8 (price_cents o)) in
  let buf := splice buf 24 (to_be_bytes 8 (order_timestamp_ns o)) in
  let buf := splice buf 32 (to_be_bytes 8 (client_order_id o)) in
  splice buf 40 (firm_uuid o).

Definition Order_decode (b : bytes) : Result EquityTradeOrder :=
  let? _ := check_length ORDER_OAM ORDER_BYTES b in
  let? side := Side_from_u8 (nth 4 b 0) in
  Ok (mkOrder (slice b 0 4) side (from_be_bytes (slice b 8 12))
        (from_be_bytes (slice b 16 24)) (from_be_bytes (slice b 24 32))
        (from_be_bytes (slice b 32 40)) (slice b 40 56)).

#[export] Instance Order_schema : Schema EquityTradeOrder := {|
  OAM_MODE := ORDER_OAM;
  PAYLOAD_BYTES := ORDER_BYTES;
  encode := Order_encode;
  decode := Order_decode;
|}.

(** *** [symbol_str] *)

Definition cont (lo hi b : Z) : bool := (lo <=? b) && (b <=? hi).

(** [core::str::from_utf8]: the byte sequences it accepts (Unicode, table 3-7). *)
Fixpoint is_utf8 (l : bytes) : bool :=
  match l with
  | [] => true
  | a :: l1 =>
      if a <? 0x80 then is_utf8 l1 else
      match l1 with
      | [] => false
      | b :: l2 =>
          if cont 0xC2 0xDF a then cont 0x80 0xBF b && is_utf8 l2 else
          match l2 with
          | [] => false
          | c :: l3 =>
              if cont 0xE0 0xEF a then
                cont (if a =? 0xE0 then 0xA0 else 0x80) (if a =? 0xED then 0x9F else 0xBF) b
                && cont 0x80 0xBF c && is_utf8 l3
              else
              match l3 with
              | [] => false
              | d :: l4 =>
                  cont 0xF0 0xF4 a
                  && cont (if a =? 0xF0 then 0x90 else 0x80) (if a =? 0xF4 then 0x8F else 0xBF) b
                  && cont 0x80 0xBF c && cont 0x80 0xBF d && is_utf8 l4
              end
          end
      end
  end.

(** [iter().position(|&b| b == 0)] *)
Fixpoint position_zero (l : bytes) : option nat :=
  match l with
  | [] => None
  | b :: l => if b =? 0 then Some 0%nat else S <$> position_zero l
  end.

Definition symbol_str (o : EquityTradeOrder) : bytes :=
  let fin := default (length (order_symbol o)) (position_zero (order_symbol o)) in
  let s := slice (order_symbol o) 0 fin in
  if is_utf8 s then s else str_bytes "?".

(** ** Market tick, OAM +3 *)

Record MarketTick : Type := mkTick {
  tick_symbol : bytes;
  bid_cents : Z;
  ask_cents : Z;
  last_cents : Z;
  volume : Z;
  tick_timestamp_ns : Z;
  tick_reserved : bytes;
}.

Definition Tick_ok (t : MarketTick) : Prop :=
  array_ok 8 (tick_symbol t) ∧ u64 (bid_cents t) ∧ u64 (ask_cents t) ∧ u64 (last_cents t) ∧
  u64 (volume t) ∧ u64 (tick_timestamp_ns t) ∧ array_ok 16 (tick_reserved t).

Definition TICK_OAM : OamMode := mkOamMode 3.
Definition TICK_BYTES : nat := 64.

Definition Tick_encode (t : MarketTick) : bytes :=
  let buf := replicate TICK_BYTES 0 in
  let buf := splice buf 0 (tick_symbol t) in
  let buf := splice buf 8 (to_be_bytes 8 (bid_cents t)) in
  let buf := splice buf 16 (to_be_bytes 8 (ask_cents t)) in
  let buf := splice buf 24 (to_be_bytes 8 (last_cents t)) in
  let buf := splice buf 32 (to_be_bytes 8 (volume t)) in
  let buf := splice buf 40 (to_be_bytes 8 (tick_timestamp_ns t)) in
  splice buf 48 (tick_reserved t).

Definition Tick_decode (b : bytes) : Result MarketTick :=
  let? _ := check_length TICK_OAM TICK_BYTES b in
  Ok (mkTick (slice b 0 8) (from_be_bytes (slice b 8 16)) (from_be_bytes (slice b 16 24))
        (from_be_bytes (slice b 24 32)) (from_be_bytes (slice b 32 40))
        (from_be_bytes (slice b 40 48)) (slice b 48 64)).

#[export] Instance Tick_schema : Schema MarketTick := {|
  OAM_MODE := TICK_OAM;
  PAYLOAD_BYTES := TICK_BYTES;
  encode := Tick_encode;
  decode := Tick_decode;
|}.

(** ** Heartbeat, OAM +4 *)

Record Heartbeat : Type := mkHeartbeat {
  node_id : Z;
  clock_offset_ns : Z;
  heartbeat_seq : Z;
  hb_reserved : bytes;
}.

Definition Heartbeat_ok (h : Heartbeat) : Prop :=
  u64 (node_id h) ∧ in_sint 64 (clock_offset_ns h) ∧ u64 (heartbeat_seq h) ∧
  array_ok 8 (hb_reserved h).

Definition HEARTBEAT_OAM : OamMode := mkOamMode 4.
Definition HEARTBEAT_BYTES : nat := 32.

Definition Heartbeat_encode (h : Heartbeat) : bytes :=
  let buf := replicate HEARTBEAT_BYTES 0 in
  let buf := splice buf 0 (to_be_bytes 8 (node_id h)) in
  let buf := splice buf 8 (to_be_bytes 8 (clock_offset_ns h)) in
  let buf := splice buf 16 (to_be_bytes 8 (heartbeat_seq h)) in
  splice buf 24 (hb_reserved h).

Definition Heartbeat_decode (b : bytes) : Result Heartbeat :=
  let? _ := check_length HEARTBEAT_OAM HEARTBEAT_BYTES b in
  Ok (mkHeartbeat (from_be_bytes (slice b 0 8)) (as_signed 64 (from_be_bytes (slice b 8 16)))
        (from_be_bytes (slice b 16 24)) (slice b 24 32)).

#[export] Instance Heartbeat_schema : Schema Heartbeat := {|
  OAM_MODE := HEARTBEAT_OAM;
  PAYLOAD_BYTES := HEARTBEAT_BYTES;
  encode := Heartbeat_encode;
  decode := Heartbeat_decode;
|}.

(** ** Registry *)

Inductive SchemaId : Type := IdEquityTradeOrder | IdMarketTick | IdHeartbeat.

#[export] Instance SchemaId_eq_dec : EqDecision SchemaId.
Proof. solve_decision. Defined.

Definition SchemaId_resolve (o : OamMode) : option SchemaId :=
  if charge o =? 1 then Some IdEquityTradeOrder
  else if charge o =? 3 then Some IdMarketTick
  else if charge o =? 4 then Some IdHeartbeat
  else None.

Definition payload_bytes (id : SchemaId) : nat :=
  match id with
  | IdEquityTradeOrder => PAYLOAD_BYTES EquityTradeOrder
  | IdMarketTick => PAYLOAD_BYTES MarketTick
  | IdHeartbeat => PAYLOAD_BYTES Heartbeat
  end.

Inductive AnySchemaValue : Type :=
| AnyEquityTradeOrder (o : EquityTradeOrder)
| AnyMarketTick (t : MarketTick)
| AnyHeartbeat (h : Heartbeat).

Definition Any_decode (oam : OamMode) (payload : bytes) : Result AnySchemaValue :=
  let? id := ok_or (SchemaId_resolve oam) (UnknownOamMode (charge oam)) in
  match id with
  | IdEquityTradeOrder => let? o := decode payload in Ok (AnyEquityTradeOrder o)
  | IdMarketTick => let? t := decode payload in Ok (AnyMarketTick t)
  | IdHeartbeat => let? h := decode payload in Ok (AnyHeartbeat h)
  end.

Definition as_equity_order (v : AnySchemaValue) : option EquityTradeOrder :=
  match v with AnyEquityTradeOrder o => Some o | _ => None end.

(** The derived [PartialEq]: field by field, prices compared as [f64]s, so a NaN
    price differs from itself. *)
Definition f64_eqb (a b : Z) : bool := SFeqb (f64.from_bits a) (f64.from_bits b).

Definition Order_eqb (o o' : EquityTradeOrder) : bool :=
  bool_decide (order_symbol o = order_symbol o') && bool_decide (side o = side o')
  && (quantity o =? quantity o') && f64_eqb (price_cents o) (price_cents o')
  && (order_timestamp_ns o =? order_timestamp_ns o')
  && (client_order_id o =? client_order_id o') && bool_decide (firm_uuid o = firm_uuid o').

Definition Tick_eqb (t t' : MarketTick) : bool :=
  bool_decide (tick_symbol t = tick_symbol t') && f64_eqb (bid_cents t) (bid_cents t')
  && f64_eqb (ask_cents t) (ask_cents t') && f64_eqb (last_cents t) (last_cents t')
  && (volume t =? volume t') && (tick_timestamp_ns t =? tick_timestamp_ns t')
  && bool_decide (tick_reserved t = tick_reserved t').

Definition Heartbeat_eqb (h h' : Heartbeat) : bool :=
  (node_id h =? node_id h') && (clock_offset_ns h =? clock_offset_ns h')
  && (heartbeat_seq h =? heartbeat_seq h') && bool_decide (hb_reserved h = hb_reserved h').

Definition Any_eqb (v v' : AnySchemaValue) : bool :=
  match v, v' with
  | AnyEquityTradeOrder o, AnyEquityTradeOrder o' => Order_eqb o o'
  | AnyMarketTick t, AnyMarketTick t' => Tick_eqb t t'
  | AnyHeartbeat h, AnyHeartbeat h' => Heartbeat_eqb h h'
  | _, _ => false
  end.

(** A value of any schema, its id, its encoding and its range. *)
Definition any_id (v : AnySchemaValue) : SchemaId :=
  match v with
  | AnyEquityTradeOrder _ => IdEquityTradeOrder
  | AnyMarketTick _ => IdMarketTick
  | AnyHeartbeat _ => IdHeartbeat
  end.

Definition any_encode (v : AnySchemaValue) : bytes :=
  match v with
  | AnyEquityTradeOrder o => encode o
  | AnyMarketTick t => encode t
  | AnyHeartbeat h => encode h
  end.

Definition Any_ok (v : AnySchemaValue) : Prop :=
  match v with
  | AnyEquityTradeOrder o => Order_ok o
  | AnyMarketTick t => Tick_ok t
  | AnyHeartbeat h => Heartbeat_ok h
  end.

(** ** Layouts: each encoding as the concatenation of its fields *)

Lemma check_length_ok o n b : length b = n → check_length o n b = Ok ().
Proof. intros. unfold check_length. by rewrite decide_True. Qed.

Lemma check_length_err o n b :
  length b ≠ n →
  check_length o n b = Err (SchemaMismatch (charge o) (Z.of_nat n) (Z.of_nat (length b))).
Proof. intros. unfold check_length. by rewrite decide_False. Qed.

Lemma check_length_inv o n b : check_length o n b = Ok () → length b = n.
Proof. unfold check_length. by case_decide. Qed.

Lemma Order_layout o :
  Order_ok o →
  Order_encode o =
  order_symbol o ++ [Side_to_u8 (side o)] ++ replicate 3 0 ++ to_be_bytes 4 (quantity o) ++
  replicate 4 0 ++ to_be_bytes 8 (price_cents o) ++ to_be_bytes 8 (order_timestamp_ns o) ++
  to_be_bytes 8 (client_order_id o) ++ firm_uuid o ++ replicate 200 0.
Proof.
  intros (Hs & _ & _ & _ & _ & Hu). unfold Order_encode, ORDER_BYTES.
  rewrite <- (app_nil_l (replicate _ 0)).
  fill 0%nat. fill 0%nat. fill 3%nat. fill 4%nat. fill 0%nat. fill 0%nat. fill 0%nat.
  rewrite <- !app_assoc. len_norm. reflexivity.
Qed.

Lemma Tick_layout t :
  Tick_ok t →
  Tick_encode t =
  tick_symbol t ++ to_be_bytes 8 (bid_cents t) ++ to_be_bytes 8 (ask_cents t) ++
  to_be_bytes 8 (last_cents t) ++ to_be_bytes 8 (volume t) ++
  to_be_bytes 8 (tick_timestamp_ns t) ++ tick_reserved t.
Proof.
  intros (Hs & _ & _ & _ & _ & _ & Hr). unfold Tick_encode, TICK_BYTES.
  rewrite <- (app_nil_l (replicate _ 0)).
  do 7 fill 0%nat. rewrite <- !app_assoc. len_norm. by rewrite app_nil_r.
Qed.

Lemma Heartbeat_layout h :
  Heartbeat_ok h →
  Heartbeat_encode h =
  to_be_bytes 8 (node_id h) ++ to_be_bytes 8 (clock_offset_ns h) ++
  to_be_bytes 8 (heartbeat_seq h) ++ hb_reserved h.
Proof.
  intros (_ & _ & _ & Hr). unfold Heartbeat_encode, HEARTBEAT_BYTES.
  rewrite <- (app_nil_l (replicate _ 0)).
  do 4 fill 0%nat. rewrite <- !app_assoc. len_norm. by rewrite app_nil_r.
Qed.

(** ** The laws, schema by schema *)

Lemma Side_round_trip s : Side_from_u8 (Side_to_u8 s) = Ok s.
Proof. by destruct s. Qed.

Lemma Side_to_u8_ok s : u8 (Side_to_u8 s).
Proof. destruct s; unfold in_uint; simpl; lia. Qed.

Ltac bytes_oks :=
  repeat (apply bytes_ok_app; split); eauto with otap;
  try match goal with H : array_ok _ ?x |- bytes_ok ?x => exact (proj2 H) end.

Ltac fields_back :=
  rewrite ?from_to_be_bytes_uint by done.

#[export] Instance Order_laws : SchemaLaws EquityTradeOrder Order_ok.
Proof.
  constructor; cbn [encode decode OAM_MODE PAYLOAD_BYTES Order_schema].
  - intros v Hv. rewrite Order_layout by done. destruct Hv as (? & _ & _ & _ & _ & ?). len.
  - intros v Hv. rewrite Order_layout by done. destruct Hv as (? & _ & _ & _ & _ & ?).
    bytes_oks. constructor; [apply Side_to_u8_ok | constructor].
  - intros v Hv. rewrite Order_layout by done.
    destruct v as [sym sd q p t c u], Hv as (? & ? & ? & ? & ? & ?); cbn [order_symbol side quantity price_cents order_timestamp_ns client_order_id firm_uuid] in *.
    unfold Order_decode, ORDER_BYTES. rewrite check_length_ok by len. cbn [rbind].
    rewrite nth_app_r by len. len_norm.
    change (nth 0 _ 0) with (Side_to_u8 sd). rewrite Side_round_trip. cbn [rbind].
    f_equal. rewrite (slice_app_head sym) by len.
    f_equal; read; fields_back; done.
  - intros b Hb. unfold Order_decode. by rewrite check_length_err.
  - intros b v Hb. unfold Order_decode.
    destruct (check_length _ _ b) as [[]|] eqn:Hc; [|done].
    apply check_length_inv in Hc. unfold ORDER_BYTES in Hc. cbn [rbind].
    destruct (Side_from_u8 _); [|done]. intros [= <-]. unfold Order_ok; cbn -[slice].
    split_and!; try (by apply array_ok_slice; [|lia|]);
      apply from_be_slice_uint; done || lia.
Qed.

#[export] Instance Tick_laws : SchemaLaws MarketTick Tick_ok.
Proof.
  constructor; cbn [encode decode OAM_MODE PAYLOAD_BYTES Tick_schema].
  - intros v Hv. rewrite Tick_layout by done. destruct Hv as (? & _ & _ & _ & _ & _ & ?). len.
  - intros v Hv. rewrite Tick_layout by done. destruct Hv as (? & _ & _ & _ & _ & _ & ?).
    bytes_oks.
  - intros v Hv. rewrite Tick_layout by done.
    destruct v as [sym bi a l vo t r], Hv as (? & ? & ? & ? & ? & ? & ?);
      cbn [tick_symbol bid_cents ask_cents last_cents volume tick_timestamp_ns tick_reserved] in *.
    unfold Tick_decode, TICK_BYTES. rewrite check_length_ok by len. cbn [rbind].
    f_equal. rewrite (slice_app_head sym) by len.
    f_equal; read; fields_back; done.
  - intros b Hb. unfold Tick_decode. by rewrite check_length_err.
  - intros b v Hb. unfold Tick_decode.
    destruct (check_length _ _ b) as [[]|] eqn:Hc; [|done].
    apply check_length_inv in Hc. unfold TICK_BYTES in Hc. cbn [rbind].
    intros [= <-]. unfold Tick_ok; cbn -[slice].
    split_and!; try (by apply array_ok_slice; [|lia|]);
      apply from_be_slice_uint; done || lia.
Qed.

Lemma as_signed_sint w z : 0 < w → in_sint w (as_signed w z).
Proof.
  intros Hw. unfold in_sint, as_signed.
  assert (2 ^ w = 2 * 2 ^ (w - 1)) as Hp by (rewrite <- Z.pow_succ_r by lia; f_equal; lia).
  pose proof (Z.pow_pos_nonneg 2 (w - 1)). pose proof (Z.mod_pos_bound z (2 ^ w)).
  destruct (Z.ltb_spec (z mod 2 ^ w) (2 ^ (w - 1))); lia.
Qed.

#[export] Instance Heartbeat_laws : SchemaLaws Heartbeat Heartbeat_ok.
Proof.
  constructor; cbn [encode decode OAM_MODE PAYLOAD_BYTES Heartbeat_schema].
  - intros v Hv. rewrite Heartbeat_layout by done. destruct Hv as (? & _ & _ & ?). len.
  - intros v Hv. rewrite Heartbeat_layout by done. destruct Hv as (? & _ & _ & ?). bytes_oks.
  - intros v Hv. rewrite Heartbeat_layout by done.
    destruct v as [n co s r], Hv as (? & ? & ? & ?);
      cbn [node_id clock_offset_ns heartbeat_seq hb_reserved] in *.
    unfold Heartbeat_decode, HEARTBEAT_BYTES. rewrite check_length_ok by len. cbn [rbind].
    f_equal. rewrite (slice_app_head (to_be_bytes 8 n)) by len.
    f_equal; [by fields_back| |by read; fields_back|by read].
    read. rewrite from_to_be_bytes. by apply (as_signed_wrap 64).
  - intros b Hb. unfold Heartbeat_decode. by rewrite check_length_err.
  - intros b v Hb. unfold Heartbeat_decode.
    destruct (check_length _ _ b) as [[]|] eqn:Hc; [|done].
    apply check_length_inv in Hc. unfold HEARTBEAT_BYTES in Hc. cbn [rbind].
    intros [= <-]. unfold Heartbeat_ok; cbn -[slice as_signed].
    split_and!; try (by apply array_ok_slice; [|lia|]); try (apply as_signed_sint; lia);
      apply from_be_slice_uint; done || lia.
Qed.

(** ** Any schema *)

Definition schema_oam (id : SchemaId) : OamMode :=
  match id with
  | IdEquityTradeOrder => OAM_MODE EquityTradeOrder
  | IdMarketTick => OAM_MODE MarketTick
  | IdHeartbeat => OAM_MODE Heartbeat
  end.

Lemma resolve_schema_oam id : SchemaId_resolve (schema_oam id) = Some id.
Proof. by destruct id. Qed.

Lemma resolve_inv o id : SchemaId_resolve o = Some id → o = schema_oam id.
Proof.
  destruct o as [c]. unfold SchemaId_resolve. cbn [charge].
  destruct (Z.eqb_spec c 1), (Z.eqb_spec c 3), (Z.eqb_spec c 4); intros; simplify_eq; done.
Qed.

Lemma schema_oam_ok id : OamMode_ok (schema_oam id).
Proof. destruct id; unfold OamMode_ok; simpl; unfold OAM_MIN, OAM_MAX; lia. Qed.

Lemma any_encode_length v : Any_ok v → length (any_encode v) = payload_bytes (any_id v).
Proof. destruct v as [x|x|x]; exact (encode_length x). Qed.

Lemma any_encode_ok v : Any_ok v → bytes_ok (any_encode v).
Proof. destruct v as [x|x|x]; exact (encode_bytes_ok x). Qed.

Lemma any_decode_encode v :
  Any_ok v → Any_decode (schema_oam (any_id v)) (any_encode v) = Ok v.
Proof.
  intros Hv. unfold Any_decode. rewrite resolve_schema_oam. cbn [ok_or rbind].
  destruct v as [x|x|x]; cbn [any_id any_encode]; by rewrite (decode_encode x Hv).
Qed.

Lemma decode_ok_length (S : Type) `{SchemaLaws S wf} b (v : S) :
  decode b = Ok v → length b = PAYLOAD_BYTES S.
Proof.
  intros Hd. destruct (decide (length b = PAYLOAD_BYTES S)) as [|Hne]; [done|].
  apply decode_wrong_length in Hne. congruence.
Qed.

Lemma Any_decode_inv o p v :
  Any_decode o p = Ok v →
  SchemaId_resolve o = Some (any_id v) ∧ length p = payload_bytes (any_id v) ∧
  (bytes_ok p → Any_ok v).
Proof.
  unfold Any_decode. destruct (SchemaId_resolve o) as [id|]; [|done]. cbn [ok_or rbind].
  destruct id; intros (x & Hx & [= <-])%rbind_ok; cbn [any_id payload_bytes Any_ok];
    (split; [done|]); (split; [exact (decode_ok_length _ _ _ Hx) | by intros; eapply decode_wf]).
Qed.

#[export] Hint Resolve any_encode_ok any_encode_length schema_oam_ok : otap.

(** The side byte is the only content check of the three decoders. *)
Lemma Order_decode_total p :
  length p = 256%nat → (nth 4 p 0 = 0 ∨ nth 4 p 0 = 1) → ∃ o, Order_decode p = Ok o.
Proof.
  intros Hl Hs. unfold Order_decode. rewrite check_length_ok by done. cbn [rbind].
  destruct Hs as [-> | ->]; cbn [rbind Side_from_u8 Z.eqb]; by eexists.
Qed.

Lemma Order_decode_side p o : Order_decode p = Ok o → nth 4 p 0 = Side_to_u8 (side o).
Proof.
  unfold Order_decode. intros ([] & _ & (s & Hs & [= <-])%rbind_ok)%rbind_ok. cbn [side].
  unfold Side_from_u8 in Hs.
  destruct (Z.eqb_spec (nth 4 p 0) 0); [by simplify_eq|].
  destruct (Z.eqb_spec (nth 4 p 0) 1); by simplify_eq.
Qed.

(** Decoding followed by encoding. *)
Lemma Tick_encode_decode p t : bytes_ok p → Tick_decode p = Ok t → Tick_encode t = p.
Proof.
  intros Hp Hd. rewrite Tick_layout by (by eapply (decode_wf (S := MarketTick))).
  unfold Tick_decode in Hd. apply rbind_ok in Hd as ([] & Hl%check_length_inv & [= <-]).
  unfold TICK_BYTES in Hl. cbn -[slice].
  rewrite !(to_from_be_bytes_array 8) by (apply array_ok_slice; done || lia).
  rewrite !slice_join by lia. by apply slice_all.
Qed.

Lemma to_be_bytes_as_signed n z :
  0 < Z.of_nat n → to_be_bytes n (as_signed (8 * Z.of_nat n) z) = to_be_bytes n z.
Proof.
  intros Hn. rewrite <- (to_be_bytes_mod n (as_signed _ _)), <- (to_be_bytes_mod n z).
  f_equal. unfold as_signed. rewrite Z.pow_mul_r by lia. change (2 ^ 8) with 256.
  pose proof (Z.pow_pos_nonneg 256 (Z.of_nat n)).
  destruct (_ <? _); [apply Z.mod_mod; lia|].
  rewrite Zminus_mod, Z.mod_same, Z.sub_0_r, !Z.mod_mod by lia. done.
Qed.

Lemma Heartbeat_encode_decode p h :
  bytes_ok p → Heartbeat_decode p = Ok h → Heartbeat_encode h = p.
Proof.
  intros Hp Hd. rewrite Heartbeat_layout by (by eapply (decode_wf (S := Heartbeat))).
  unfold Heartbeat_decode in Hd. apply rbind_ok in Hd as ([] & Hl%check_length_inv & [= <-]).
  unfold HEARTBEAT_BYTES in Hl. cbn -[slice as_signed].
  rewrite (to_be_bytes_as_signed 8) by lia.
  rewrite !(to_from_be_bytes_array 8) by (apply array_ok_slice; done || lia).
  rewrite !slice_join by lia. by apply slice_all.
Qed.

(** The three blank ranges of an equity order. *)
Definition order_blank (p : bytes) : Prop :=
  slice p 5 8 = replicate 3 0 ∧ slice p 12 16 = replicate 4 0 ∧
  slice p 56 256 = replicate 200 0.

Lemma Order_encode_decode p o :
  bytes_ok p → Order_decode p = Ok o → (Order_encode o = p ↔ order_blank p).
Proof.
  intros Hp Hd. pose proof (Order_decode_side p o Hd) as Hs.
  rewrite Order_layout by (by eapply (decode_wf (S := EquityTradeOrder))).
  unfold Order_decode in Hd.
  apply rbind_ok in Hd as ([] & Hl%check_length_inv & (s & _ & [= <-])%rbind_ok).
  unfold ORDER_BYTES in Hl. cbn [order_symbol side quantity price_cents order_timestamp_ns
    client_order_id firm_uuid] in *.
  rewrite (to_from_be_bytes_array 4), !(to_from_be_bytes_array 8)
    by (apply array_ok_slice; done || lia).
  rewrite <- Hs, <- slice_single by lia. unfold order_blank. split.
  - intros E.
    assert (∀ a b, (a ≤ b ≤ 256)%nat → length (slice p a b) = (b - a)%nat) as HL
      by (intros; apply slice_length; lia).
    pose proof (HL 0 4 ltac:(lia))%nat. pose proof (HL 4 5 ltac:(lia))%nat.
    pose proof (HL 8 12 ltac:(lia))%nat. pose proof (HL 16 24 ltac:(lia))%nat.
    pose proof (HL 24 32 ltac:(lia))%nat. pose proof (HL 32 40 ltac:(lia))%nat.
    pose proof (HL 40 56 ltac:(lia))%nat.
    rewrite <- E. split_and!; read; reflexivity.
  - intros (<- & <- & <-). rewrite !slice_join by lia. by apply slice_all.
Qed.

(** ** Symbols *)

Lemma is_utf8_ascii s : Forall (λ b, 0 < b < 128) s → is_utf8 s = true.
Proof.
  induction 1 as [|b s Hb _ IH]; [done|]. cbn [is_utf8].
  destruct (Z.ltb_spec b 128); [done|lia].
Qed.

Lemma position_zero_app s q :
  Forall (λ b, 0 < b < 128) s → position_zero (s ++ q) = (λ n, length s + n)%nat <$> position_zero q.
Proof.
  induction 1 as [|b s Hb _ IH]; cbn [position_zero app length].
  - destruct (position_zero q); done.
  - destruct (Z.eqb_spec b 0); [lia|]. rewrite IH. by destruct (position_zero q).
Qed.

(** ** Properties *)

Definition demo_order : EquityTradeOrder :=
  EquityTradeOrder_new (str_bytes "AAPL") Buy 1000 4671226772094713856 1716649200000000001
    0xDEADBEEFCAFEF00D (replicate 16 0x11).

Lemma demo_order_ok : Order_ok demo_order.
Proof. unfold Order_ok, array_ok, bytes_ok. vm_compute. repeat constructor; congruence. Qed.

(** C30: every value of every registered schema survives encoding and decoding by
    OAM dispatch: the payload the encoder writes for a value has the schema's
    length, and [AnySchemaValue::decode] under the schema's OAM mode gives the
    value back (prices compared bit for bit). *)
Theorem any_schema_round_trip (v : AnySchemaValue) :
  Any_ok v →
  length (any_encode v) = payload_bytes (any_id v) ∧ bytes_ok (any_encode v) ∧
  Any_decode (schema_oam (any_id v)) (any_encode v) = Ok v.
Proof.
  intros Hv. split_and!; [by apply any_encode_length | by apply any_encode_ok | by apply any_decode_encode].
Qed.

Lemma any_schema_round_trip_witness :
  Any_decode (schema_oam IdEquityTradeOrder) (Order_encode demo_order)
  = Ok (AnyEquityTradeOrder demo_order).
Proof.
  exact (proj2 (proj2 (any_schema_round_trip (AnyEquityTradeOrder demo_order) demo_order_ok))).
Defined.

(** [AnySchemaValue::decode] accepts a payload exactly when its OAM mode is
    registered, its length is the schema's and, for an equity order, the side
    byte is 0 or 1; the schema of the result is the registered one. *)
Theorem any_decode_accepts (o : OamMode) (p : bytes) (id : SchemaId) :
  (∃ v, Any_decode o p = Ok v ∧ any_id v = id) ↔
  SchemaId_resolve o = Some id ∧ length p = payload_bytes id ∧
  (id = IdEquityTradeOrder → nth 4 p 0 = 0 ∨ nth 4 p 0 = 1).
Proof.
  split.
  - intros (v & Hd & <-). destruct (Any_decode_inv _ _ _ Hd) as (Hr & Hl & _).
    split; [done|]. split; [done|]. intros Hid. destruct v as [x| |]; try done.
    unfold Any_decode in Hd. rewrite Hr in Hd. cbn [ok_or rbind any_id] in Hd.
    apply rbind_ok in Hd as (y & Hy & [= ->]).
    rewrite (Order_decode_side _ _ Hy). destruct (side x); auto.
  - intros (Hr & Hl & Hs). unfold Any_decode. rewrite Hr. cbn [ok_or rbind].
    destruct id; cbn [payload_bytes] in Hl.
    + destruct (Order_decode_total p Hl (Hs eq_refl)) as [x Hx]. cbn [decode Order_schema].
      rewrite Hx. by eexists.
    + cbn [decode Tick_schema]. unfold Tick_decode. rewrite check_length_ok by done. by eexists.
    + cbn [decode Heartbeat_schema]. unfold Heartbeat_decode. rewrite check_length_ok by done.
      by eexists.
Qed.

(** Decoding loses nothing but blank bytes: re-encoding a decoded market tick
    or heartbeat gives the received payload back, and re-encoding a decoded
    equity order does so exactly when the three reserved ranges (5..8, 12..16
    and 56..256) were zero. *)
Theorem any_decode_canonical (o : OamMode) (p : bytes) (v : AnySchemaValue) :
  bytes_ok p → Any_decode o p = Ok v →
  (any_encode v = p ↔ (any_id v = IdEquityTradeOrder → order_blank p)).
Proof.
  intros Hp Hd. destruct (Any_decode_inv _ _ _ Hd) as (Hr & _).
  unfold Any_decode in Hd. rewrite Hr in Hd. cbn [ok_or rbind] in Hd.
  destruct v as [x|x|x]; cbn [any_id any_encode] in *;
    apply rbind_ok in Hd as (y & Hy & [= ->]).
  - cbn [encode Order_schema]. rewrite (Order_encode_decode p x Hp Hy). naive_solver.
  - cbn [encode Tick_schema]. rewrite (Tick_encode_decode p x Hp Hy). naive_solver.
  - cbn [encode Heartbeat_schema]. rewrite (Heartbeat_encode_decode p x Hp Hy). naive_solver.
Qed.

Lemma any_decode_canonical_witness :
  ∃ v, Any_decode (mkOamMode 4) (replicate 32 7) = Ok v ∧ any_encode v = replicate 32 7.
Proof.
  eexists. split; [vm_compute; reflexivity|].
  apply (any_decode_canonical (mkOamMode 4) (replicate 32 7)).
  - apply Forall_replicate. vm_compute. split; congruence.
  - vm_compute. reflexivity.
  - vm_compute. discriminate.
Defined.

(** [EquityTradeOrder::new] keeps a symbol of at most four ASCII characters,
    and [symbol_str] gives it back. *)
Theorem symbol_str_round_trip (s : bytes) sd q p t c u :
  Forall (λ b, 0 < b < 128) s → (length s ≤ 4)%nat →
  symbol_str (EquityTradeOrder_new s sd q p t c u) = s.
Proof.
  intros Hs Hl. unfold symbol_str, EquityTradeOrder_new. cbn [order_symbol].
  rewrite take_ge by lia.
  assert (splice (replicate 4 0) 0 s = s ++ replicate (4 - length s) 0) as ->
    by (apply (splice_blank [] 0 4 0 0 s); [done|lia]).
  rewrite (position_zero_app _ _ Hs).
  assert (default (length (s ++ replicate (4 - length s) 0))
    ((λ n, length s + n)%nat <$> position_zero (replicate (4 - length s) 0)) = length s) as ->.
  { destruct (4 - length s)%nat eqn:E; cbn; rewrite ?app_nil_r; lia. }
  rewrite slice_app_head by done. by rewrite is_utf8_ascii.
Qed.

Lemma symbol_str_round_trip_witness : symbol_str demo_order = str_bytes "AAPL".
Proof.
  apply symbol_str_round_trip; [|vm_compute; lia].
  repeat constructor; vm_compute; congruence.
Defined.
