(* ===== verification/Codec.v ===== *)
(** * otap-codec: encoder and decoder

    Models [src/crates/otap-codec/src/lib.rs].  An [Encoder] is threaded
    through [encode_raw] for its sequence counter; a [Decoder] has no state
    besides its configuration. *)

From S2P Require Import Prelude Float Core External Crypto Schema.
Local Open Scope Z_scope.

(** ** Encoder *)

Record Encoder : Type := mkEncoder {
  enc_secret : SharedSecret;
  next_sequence : Z;
  enc_wavelength : Wavelength;
}.

Definition Encoder_new (secret : SharedSecret) (w : Wavelength) : Encoder :=
  mkEncoder secret 0 w.

Definition Encoder_ok (e : Encoder) : Prop :=
  SharedSecret_ok (enc_secret e) ∧ u16 (next_sequence e) ∧ Wavelength_ok (enc_wavelength e).

(** ** Decoder *)

Record DecoderConfig : Type := mkDecoderConfig {
  dec_secret : SharedSecret;
  expected_wavelength : Wavelength;
  auth_mode : AuthMode;
}.

Record DecodeReport : Type := mkReport {
  rep_value : AnySchemaValue;
  rep_wavelength : Wavelength;
  rep_oam : OamMode;
  rep_micro : MicroStructure;
  rep_auth_ok : bool;
}.

Record Decoder : Type := mkDecoder { config : DecoderConfig }.

Definition Decoder_new (c : DecoderConfig) : Decoder := mkDecoder c.

(** The context a Transient is authenticated under. *)
Definition transient_context (t : Transient) : TrajectoryContext :=
  mkContext (wavelength t) (oam t) (sequence (micro t)) (payload t).

Section codec.
Context `{HmacSha256} `{Libm}.

Definition encode_raw (e : Encoder) (o : OamMode) (p : bytes) : Encoder * Transient :=
  let seq := next_sequence e in
  let e' := mkEncoder (enc_secret e) (wrapping_add 16 (next_sequence e) 1) (enc_wavelength e) in
  let m := MicroStructure_new seq in
  let trajectory :=
    derive_trajectory (enc_secret e) (mkContext (enc_wavelength e) o seq p) in
  (e', Transient_new (enc_wavelength e) trajectory o m p).

Definition Encoder_encode {S} `{Schema S} (e : Encoder) (value : S) : Encoder * Transient :=
  encode_raw e (OAM_MODE S) (encode value).

Definition Decoder_decode (d : Decoder) (t : Transient) : Result DecodeReport :=
  if decide (wavelength t ≠ expected_wavelength (config d)) then
    Err (WireFormat "wavelength does not match decoder binding")
  else
    let w := wavelength t in
    let m := micro t in
    let o := oam t in
    let auth_ok :=
      is_ok (verify_trajectory (dec_secret (config d))
               (mkContext w o (sequence m) (payload t)) (polarization t)
               (auth_mode (config d))) in
    let? value := Any_decode o (payload t) in
    Ok (mkReport value w o m auth_ok).

(** Encode a value of whichever schema. *)
Definition encode_any (e : Encoder) (v : AnySchemaValue) : Encoder * Transient :=
  match v with
  | AnyEquityTradeOrder o => Encoder_encode e o
  | AnyMarketTick t => Encoder_encode e t
  | AnyHeartbeat h => Encoder_encode e h
  end.

(** Encode a sequence of payloads with one encoder. *)
Fixpoint encode_all (e : Encoder) (l : list (OamMode * bytes)) : Encoder * list Transient :=
  match l with
  | [] => (e, [])
  | (o, p) :: l =>
      let '(e, t) := encode_raw e o p in
      let '(e, ts) := encode_all e l in (e, t :: ts)
  end.

(** ** Lemmas *)

Lemma encode_any_raw e v : encode_any e v = encode_raw e (schema_oam (any_id v)) (any_encode v).
Proof. by destruct v. Qed.

Lemma encode_raw_ok e o p :
  Encoder_ok e → OamMode_ok o → bytes_ok p →
  Encoder_ok (encode_raw e o p).1 ∧ Transient_ok (encode_raw e o p).2.
Proof.
  intros (Hs & Hn & Hw) Ho Hp. split; [split; [done|split; [by apply wrap_range|done]]|].
  split; [done|]. split; [apply derive_trajectory_ok|done].
Qed.

(** The decoder sees the context the encoder derived the trajectory from. *)
Lemma encode_raw_context e o p :
  polarization (encode_raw e o p).2 =
  derive_trajectory (enc_secret e) (transient_context (encode_raw e o p).2).
Proof. reflexivity. Qed.

Lemma Decoder_decode_ok d t v :
  wavelength t = expected_wavelength (config d) → Any_decode (oam t) (payload t) = Ok v →
  Decoder_decode d t =
  Ok (mkReport v (wavelength t) (oam t) (micro t)
        (is_ok (verify_trajectory (dec_secret (config d)) (transient_context t)
                  (polarization t) (auth_mode (config d))))).
Proof.
  intros Hw Hd. unfold Decoder_decode. rewrite decide_False by (intros []; done).
  by rewrite Hd.
Qed.

(** The encoder after [i] calls. *)
Definition advance (e : Encoder) (i : nat) : Encoder :=
  mkEncoder (enc_secret e) (wrap 16 (next_sequence e + Z.of_nat i)) (enc_wavelength e).

Lemma advance_0 e : u16 (next_sequence e) → advance e 0 = e.
Proof.
  intros. destruct e as [s n w]. unfold advance. cbn in *. by rewrite Z.add_0_r, wrap_small.
Qed.

Lemma advance_S e i o p : advance (encode_raw e o p).1 i = advance e (S i).
Proof.
  unfold advance, encode_raw. cbn [fst next_sequence enc_secret enc_wavelength]. f_equal.
  unfold wrapping_add, wrap. rewrite Zplus_mod_idemp_l. f_equal. lia.
Qed.

Lemma encode_all_cons e o p l :
  encode_all e ((o, p) :: l) =
  ((encode_all (encode_raw e o p).1 l).1,
   (encode_raw e o p).2 :: (encode_all (encode_raw e o p).1 l).2).
Proof.
  cbn [encode_all]. destruct (encode_raw e o p) as [e' t]. cbn [fst snd].
  by destruct (encode_all e' l).
Qed.

Lemma encode_all_lookup e l i o p :
  u16 (next_sequence e) → l !! i = Some (o, p) →
  (encode_all e l).2 !! i = Some (encode_raw (advance e i) o p).2.
Proof.
  revert e i. induction l as [|[o' p'] l IH]; intros e i He Hl; [done|].
  rewrite encode_all_cons. cbn [snd]. destruct i as [|i]; cbn in Hl.
  - simplify_eq. by rewrite advance_0.
  - change ((encode_all (encode_raw e o' p').1 l).2 !! i = Some (encode_raw (advance e (S i)) o p).2).
    rewrite (IH _ i) by (done || by apply wrap_range). by rewrite advance_S.
Qed.

Lemma encode_all_fst e l :
  u16 (next_sequence e) → (encode_all e l).1 = advance e (length l).
Proof.
  revert e. induction l as [|[o p] l IH]; intros e He; [by rewrite advance_0|].
  rewrite encode_all_cons. cbn [fst]. rewrite IH by (by apply wrap_range).
  apply advance_S.
Qed.

Lemma encode_all_length e l : length (encode_all e l).2 = length l.
Proof.
  revert e. induction l as [|[o p] l IH]; intros e; [done|].
  rewrite encode_all_cons. cbn. by rewrite IH.
Qed.
End codec.

(** ** Properties *)

(** C5: end-to-end codec correctness.  Whatever value of whatever schema the
    encoder is given, a decoder bound to the same secret and wavelength returns
    that value, with the encoder's wavelength, the schema's OAM mode and the
    sequence number the counter had; the counter advances modulo 2^16.  In
    topological mode the report is authenticated; in trajectory-match mode it
    is authenticated exactly when every derived sample is within the tolerance
    of itself, as [acos] of its own dot product computes it. *)
Theorem codec_round_trip `{HmacSha256} `{Libm} (e : Encoder) (v : AnySchemaValue)
    (mode : AuthMode) :
  Encoder_ok e → Any_ok v →
  let '(e', t) := encode_any e v in
  Transient_ok t ∧ Encoder_ok e' ∧
  next_sequence e' = (next_sequence e + 1) mod 65536 ∧
  ∃ auth_ok,
    Decoder_decode (Decoder_new (mkDecoderConfig (enc_secret e) (enc_wavelength e) mode)) t =
    Ok (mkReport v (enc_wavelength e) (schema_oam (any_id v))
          (mkMicro (next_sequence e) Nominal) auth_ok) ∧
    (auth_ok = true ↔
     match mode with
     | Topological => True
     | TrajectoryMatch tol =>
         ∀ i, (i < TRAJECTORY_SAMPLES)%nat →
           let s := nth i (samples (polarization t)) Stokes_H in
           SFltb tol (angular_distance s s) = false
     end).
Proof.
  intros He Hv. rewrite encode_any_raw.
  destruct (encode_raw_ok e (schema_oam (any_id v)) (any_encode v)) as [He' Ht]; auto with otap.
  destruct (encode_raw e _ _) as [e' t] eqn:E. split_and!; [done|done|by injection E as <- _|].
  assert (t = (encode_raw e (schema_oam (any_id v)) (any_encode v)).2) as -> by (by rewrite E).
  eexists. split; [apply Decoder_decode_ok; [done|by apply any_decode_encode]|].
  cbn [Decoder_new config dec_secret auth_mode]. rewrite encode_raw_context.
  set (c := transient_context _). cbn [enc_secret]. destruct mode as [tol|].
  - unfold verify_trajectory. destruct (match_samples _ _ _ _) as [[]|] eqn:M.
    + apply match_samples_ok in M. rewrite Forall_forall in M.
      split; [intros _ i Hi|done]. apply M, elem_of_seq. lia.
    + split; [done|]. intros Hall. exfalso.
      assert (match_samples tol (samples (derive_trajectory (enc_secret e) c))
        (samples (derive_trajectory (enc_secret e) c)) (seq 0 TRAJECTORY_SAMPLES) = Ok ()) as M'.
      { apply match_samples_ok, Forall_forall. intros i Hi%elem_of_seq. apply Hall. lia. }
      congruence.
  - by rewrite verify_derived_topological.
Qed.

#[local] Existing Instances Toy.toy_hmac Toy.toy_hmac_spec ToyLibm.toy_libm ToyLibm.toy_libm_nan.

Definition demo_encoder : Encoder :=
  Encoder_new (mkSecret (replicate 32 0x42)) (mkWavelength 40).

Lemma demo_encoder_ok : Encoder_ok demo_encoder.
Proof.
  split; [split; [done|apply Forall_replicate; vm_compute; split; congruence]|].
  vm_compute. repeat split; congruence.
Qed.

Lemma codec_round_trip_witness :
  ∃ auth_ok, Decoder_decode (Decoder_new (mkDecoderConfig (mkSecret (replicate 32 0x42))
      (mkWavelength 40) Topological))
    (encode_any demo_encoder (AnyEquityTradeOrder demo_order)).2 =
    Ok (mkReport (AnyEquityTradeOrder demo_order) (mkWavelength 40) (mkOamMode 1)
          (mkMicro 0 Nominal) auth_ok) ∧ (auth_ok = true ↔ True).
Proof.
  pose proof (codec_round_trip demo_encoder (AnyEquityTradeOrder demo_order) Topological
    demo_encoder_ok demo_order_ok) as Hrt.
  destruct (encode_any demo_encoder (AnyEquityTradeOrder demo_order)) as [e' t].
  exact (proj2 (proj2 (proj2 Hrt))).
Defined.

(** Authentication is reported, not enforced.  Replacing the trajectory of a
    Transient by any other one changes nothing of the decoder's result but the
    [auth_ok] flag: acceptance and the decoded value depend on the wavelength,
    the OAM mode and the payload alone. *)
Theorem decode_ignores_polarization `{HmacSha256} `{Libm} (d : Decoder) (t : Transient)
    (pol : PolarizationTrajectory) :
  let t' := mkTransient (wavelength t) pol (oam t) (micro t) (payload t) in
  match Decoder_decode d t, Decoder_decode d t' with
  | Ok r, Ok r' =>
      r' = mkReport (rep_value r) (rep_wavelength r) (rep_oam r) (rep_micro r) (rep_auth_ok r')
  | Err e, Err e' => e = e'
  | _, _ => False
  end.
Proof.
  cbv zeta. unfold Decoder_decode. cbn [wavelength oam micro payload].
  case_decide; [done|]. by destruct (Any_decode (oam t) (payload t)).
Qed.

(** The [i]-th Transient of a session carries sequence number
    [(start + i) mod 2^16], the payload and OAM mode it was given, and the
    trajectory derived from exactly these; the encoder ends [length l] steps
    further.  Two equal messages sent 2^16 apart are the same Transient. *)
Theorem encode_all_spec `{HmacSha256} `{Libm} (e : Encoder) (l : list (OamMode * bytes)) :
  u16 (next_sequence e) →
  next_sequence (encode_all e l).1 = (next_sequence e + Z.of_nat (length l)) mod 65536 ∧
  length (encode_all e l).2 = length l ∧
  (∀ i o p, l !! i = Some (o, p) →
     let seq := (next_sequence e + Z.of_nat i) mod 65536 in
     (encode_all e l).2 !! i =
     Some (mkTransient (enc_wavelength e)
             (derive_trajectory (enc_secret e) (mkContext (enc_wavelength e) o seq p))
             o (mkMicro seq Nominal) p)) ∧
  (∀ i j m, l !! i = Some m → l !! j = Some m →
     Z.of_nat i mod 65536 = Z.of_nat j mod 65536 →
     (encode_all e l).2 !! i = (encode_all e l).2 !! j).
Proof.
  intros He. rewrite encode_all_fst, encode_all_length by done. split_and!; [done|done|..].
  - intros i o p Hi. by rewrite (encode_all_lookup e l i o p).
  - intros i j [o p] Hi Hj Hij.
    rewrite (encode_all_lookup e l i o p), (encode_all_lookup e l j o p) by done.
    unfold advance, wrap. change (2 ^ 16) with 65536.
    rewrite <- (Zplus_mod_idemp_r (Z.of_nat i)), Hij, Zplus_mod_idemp_r. done.
Qed.

Lemma encode_all_spec_witness :
  (sequence ∘ micro) <$>
    (encode_all (mkEncoder (mkSecret []) 65535 (mkWavelength 1))
       [(mkOamMode 4, [1]); (mkOamMode 4, [2])]).2 !! 1%nat = Some 0.
Proof.
  pose proof (encode_all_spec (mkEncoder (mkSecret []) 65535 (mkWavelength 1))
       [(mkOamMode 4, [1]); (mkOamMode 4, [2])] ltac:(vm_compute; split; congruence))
    as (_ & _ & Hl & _).
  rewrite (Hl 1%nat (mkOamMode 4) [2] eq_refl). reflexivity.
Defined.
