(* ===== verification/Csr.v ===== *)
(** * otap-csr: the register file

    Models [src/crates/otap-csr/src/lib.rs]: the register map, [RegisterFile]
    with its checked reads and writes, the typed [writer] functions and the
    typed [view].  A register file is its 256 words; a writer takes the file
    and returns it with the result. *)

From S2P Require Import Prelude Float Core Crypto.
From Stdlib Require Import ZifyNat.
Local Open Scope Z_scope.

(** [lia] reasons about division and remainder by constants. *)
Ltac Zify.zify_post_hook ::= Z.to_euclidean_division_equations.

(** ** The register map *)

Definition REG_WAVELENGTH : Z := 0x000.
Definition REG_CTRL : Z := 0x004.
Definition REG_AUTH_TOLERANCE : Z := 0x008.
Definition REG_STATUS : Z := 0x00C.
Definition REG_SECRET_BASE : Z := 0x010.
Definition SECRET_WORDS : nat := 8.
Definition REG_SECRET_VALID : Z := 0x030.
Definition REG_SCHEMA_PAYLOAD_BASE : Z := 0x040.
Definition SCHEMA_TABLE_ENTRIES : Z := 32.
Definition REG_OAM_TABLE_BASE : Z := 0x100.
Definition OAM_TABLE_ENTRIES : Z := 33.
Definition REG_PEER_WAVELENGTH_BASE : Z := 0x200.
Definition PEER_TABLE_ENTRIES : Z := 16.
Definition CSR_SPACE_BYTES : Z := 0x400.
Definition CSR_SPACE_WORDS : Z := CSR_SPACE_BYTES / 4.

Definition CTRL_ENABLE_TX : Z := Z.shiftl 1 0.
Definition CTRL_ENABLE_RX : Z := Z.shiftl 1 1.
Definition CTRL_AUTH_TOPOLOGICAL : Z := Z.shiftl 1 2.
Definition STATUS_ARMED : Z := Z.shiftl 1 0.
Definition STATUS_PEER_READY : Z := Z.shiftl 1 1.
Definition STATUS_ERROR : Z := Z.shiftl 1 31.

Inductive CsrError : Type :=
| OutOfRange (offset size : Z)
| Misaligned (offset : Z)
| SchemaIdOutOfRange (id entries : Z)
| OamOutOfRange (charge : Z)
| CsrProtocol (e : ProtocolError).

Abbreviation CsrResult A := (result A CsrError).

(** ** Register file *)

Record RegisterFile : Type := mkRegisterFile { words : list Z }.

Definition RegisterFile_new : RegisterFile :=
  mkRegisterFile (replicate (Z.to_nat CSR_SPACE_WORDS) 0).

Definition RegisterFile_ok (rf : RegisterFile) : Prop :=
  length (words rf) = Z.to_nat CSR_SPACE_WORDS ∧ Forall u32 (words rf).

Definition read_u32 (offset : Z) (rf : RegisterFile) : CsrResult Z :=
  if CSR_SPACE_BYTES <=? offset then Err (OutOfRange offset CSR_SPACE_BYTES)
  else if negb (Z.land offset 0x3 =? 0) then Err (Misaligned offset)
  else Ok (nth (Z.to_nat (offset / 4)) (words rf) 0).

Definition write_u32 (offset value : Z) : state_result RegisterFile unit CsrError :=
  λ rf,
    if CSR_SPACE_BYTES <=? offset then (rf, Err (OutOfRange offset CSR_SPACE_BYTES))
    else if negb (Z.land offset 0x3 =? 0) then (rf, Err (Misaligned offset))
    else (mkRegisterFile (<[Z.to_nat (offset / 4) := value]> (words rf)), Ok ()).

Definition snapshot (rf : RegisterFile) : list Z := words rf.

(** ** writer *)

Definition set_wavelength (w : Wavelength) : state_result RegisterFile unit CsrError :=
  write_u32 REG_WAVELENGTH (channel w).

Definition set_ctrl (value : Z) : state_result RegisterFile unit CsrError :=
  write_u32 REG_CTRL value.

Definition set_auth_tolerance (radians : float) : state_result RegisterFile unit CsrError :=
  let mrad := f32.to_u32 (fmax (f32.round (f32.mul radians (f32.of_Z 1000))) f32.zero) in
  write_u32 REG_AUTH_TOLERANCE mrad.

(** [u32::from_be_bytes] of bytes [4i..4i+4] of the secret. *)
Definition secret_word (secret_bytes : bytes) (i : nat) : Z :=
  from_be_bytes [nth (i * 4) secret_bytes 0; nth (i * 4 + 1) secret_bytes 0;
                 nth (i * 4 + 2) secret_bytes 0; nth (i * 4 + 3) secret_bytes 0].

Definition set_secret (secret_bytes : bytes) : state_result RegisterFile unit CsrError :=
  exec! sr_for (seq 0 SECRET_WORDS) (λ i,
    write_u32 (REG_SECRET_BASE + Z.of_nat i * 4) (secret_word secret_bytes i));
  write_u32 REG_SECRET_VALID 1.

Definition set_schema_payload (schema_id payload_bytes : Z)
    : state_result RegisterFile unit CsrError :=
  if (schema_id =? 0) || (SCHEMA_TABLE_ENTRIES <=? schema_id) then
    sr_throw (SchemaIdOutOfRange schema_id SCHEMA_TABLE_ENTRIES)
  else
    let entry := schema_id in
    let word_off := REG_SCHEMA_PAYLOAD_BASE + (entry / 2) * 4 in
    do! word <- sr_read (read_u32 word_off);
    let word :=
      if entry mod 2 =? 0 then Z.lor (Z.land word 0xFFFF0000) payload_bytes
      else Z.lor (Z.land word 0x0000FFFF) (Z.shiftl payload_bytes 16) in
    write_u32 word_off word.

Definition set_oam_to_schema (oam : OamMode) (schema_id : Z)
    : state_result RegisterFile unit CsrError :=
  let idx := charge oam + 16 in
  if negb ((0 <=? idx) && (idx <=? 32)) then sr_throw (OamOutOfRange (charge oam))
  else
    let word_off := REG_OAM_TABLE_BASE + (idx / 4) * 4 in
    let byte_in_word := idx mod 4 in
    do! word <- sr_read (read_u32 word_off);
    let shift := byte_in_word * 8 in
    let word := Z.land word (u32_not (Z.shiftl 0xFF shift)) in
    let word := Z.lor word (Z.shiftl schema_id shift) in
    write_u32 word_off word.

(** ** view *)

Definition view_wavelength (rf : RegisterFile) : CsrResult Wavelength :=
  let? v := read_u32 REG_WAVELENGTH rf in
  map_err CsrProtocol (Wavelength_new (Z.land v 0xFFFF)).

Definition view_ctrl (rf : RegisterFile) : CsrResult Z := read_u32 REG_CTRL rf.

Definition view_auth_tolerance (rf : RegisterFile) : CsrResult float :=
  let? v := read_u32 REG_AUTH_TOLERANCE rf in
  Ok (f32.div (f32.of_Z v) (f32.of_Z 1000)).

Definition secret_valid (rf : RegisterFile) : CsrResult bool :=
  let? v := read_u32 REG_SECRET_VALID rf in
  Ok (negb (Z.land v 1 =? 0)).

Definition shared_secret (rf : RegisterFile) : CsrResult (option SharedSecret) :=
  let? valid := secret_valid rf in
  if negb valid then Ok None
  else
    let? bytes :=
      fold_left (λ acc i,
        let? bytes := acc in
        let? w := read_u32 (REG_SECRET_BASE + Z.of_nat i * 4) rf in
        Ok (splice bytes (i * 4) (to_be_bytes 4 w)))
        (seq 0 SECRET_WORDS) (Ok (replicate 32 0)) in
    Ok (Some (SharedSecret_new bytes)).

Definition schema_payload_bytes (schema_id : Z) (rf : RegisterFile) : CsrResult Z :=
  if (schema_id =? 0) || (SCHEMA_TABLE_ENTRIES <=? schema_id) then
    Err (SchemaIdOutOfRange schema_id SCHEMA_TABLE_ENTRIES)
  else
    let entry := schema_id in
    let word_off := REG_SCHEMA_PAYLOAD_BASE + (entry / 2) * 4 in
    let? word := read_u32 word_off rf in
    Ok (if entry mod 2 =? 0 then Z.land word 0xFFFF else Z.land (Z.shiftr word 16) 0xFFFF).

Definition schema_id_for_oam (oam : OamMode) (rf : RegisterFile) : CsrResult Z :=
  let idx := charge oam + 16 in
  if negb ((0 <=? idx) && (idx <=? 32)) then Err (OamOutOfRange (charge oam))
  else
    let word_off := REG_OAM_TABLE_BASE + (idx / 4) * 4 in
    let byte_in_word := idx mod 4 in
    let? word := read_u32 word_off rf in
    Ok (Z.land (Z.shiftr word (byte_in_word * 8)) 0xFF).

(** ** Words *)

Definition word (rf : RegisterFile) (i : nat) : Z := nth i (words rf) 0.

Definition set_word (rf : RegisterFile) (i : nat) (v : Z) : RegisterFile :=
  mkRegisterFile (<[i := v]> (words rf)).

Lemma RegisterFile_new_ok : RegisterFile_ok RegisterFile_new.
Proof. split; [done|]. apply Forall_replicate. unfold in_uint. lia. Qed.

Lemma read_word off i rf :
  off = 4 * Z.of_nat i → (i < 256)%nat → read_u32 off rf = Ok (word rf i).
Proof.
  intros -> Hi. unfold read_u32, CSR_SPACE_BYTES.
  destruct (Z.leb_spec 0x400 (4 * Z.of_nat i)); [lia|].
  replace (Z.land (4 * Z.of_nat i) 3) with 0.
  - cbn [Z.eqb negb]. unfold word. do 3 f_equal.
    rewrite Z.mul_comm, Z.div_mul by lia. apply Nat2Z.id.
  - change 3 with (Z.ones 2). rewrite Z.land_ones by lia. change (2 ^ 2) with 4.
    rewrite Z.mul_comm, Z.mod_mul by lia. done.
Qed.

Lemma write_word off i v rf :
  off = 4 * Z.of_nat i → (i < 256)%nat → write_u32 off v rf = (set_word rf i v, Ok ()).
Proof.
  intros Hoff Hi. pose proof (read_word off i rf Hoff Hi) as Hr. revert Hr.
  unfold read_u32, write_u32. destruct (_ <=? _); [done|]. destruct (negb _); [done|]. intros _.
  unfold set_word. do 3 f_equal. subst off. rewrite Z.mul_comm, Z.div_mul by lia.
  apply Nat2Z.id.
Qed.

Lemma word_set rf i j v :
  RegisterFile_ok rf → (i < 256)%nat →
  word (set_word rf i v) j = if decide (i = j) then v else word rf j.
Proof.
  intros [Hl _] Hi. unfold word, set_word. cbn [words]. rewrite !nth_lookup, list_lookup_insert.
  rewrite Hl. destruct (decide (i = j)) as [->|].
  - rewrite decide_True; [done|]. split; [done|exact Hi].
  - rewrite decide_False; [done|]. tauto.
Qed.

Lemma set_word_ok rf i v : RegisterFile_ok rf → u32 v → RegisterFile_ok (set_word rf i v).
Proof.
  intros [Hl Hw] Hv. split; cbn [words set_word].
  - by rewrite length_insert.
  - by apply Forall_insert.
Qed.

Lemma word_u32 rf i : RegisterFile_ok rf → u32 (word rf i).
Proof.
  intros [_ Hw]. unfold word. rewrite nth_lookup. destruct (words rf !! i) eqn:E.
  - by eapply Forall_lookup_1 in Hw.
  - unfold in_uint. cbn. lia.
Qed.

(** A loop of consecutive writes fills a block. *)
Lemma write_block base (f : nat → Z) n : ∀ a rf,
  length (words rf) = 256%nat → (base + a + n ≤ 256)%nat →
  sr_for (seq a n) (λ i, write_u32 (4 * Z.of_nat base + Z.of_nat i * 4) (f i)) rf =
  (mkRegisterFile (splice (words rf) (base + a) (f <$> seq a n)), Ok ()).
Proof.
  induction n as [|n IH]; intros a rf Hl Hb.
  - cbn. rewrite splice_nil. by destruct rf.
  - cbn [seq sr_for]. erewrite sr_bind_ok by (apply (write_word _ (base + a)); lia).
    rewrite IH by (cbn [words set_word]; rewrite ?length_insert; lia).
    cbn [words set_word fmap list_fmap]. rewrite Nat.add_succ_r.
    by rewrite splice_cons by lia.
Qed.

(** ** The configuration a register file holds

    The abstract contents: what the views read and the writers update. *)

Record Config : Type := mkConfig {
  cfg_wavelength : Z;
  cfg_ctrl : Z;
  cfg_tolerance : Z;
  cfg_secret : option bytes;
  cfg_payloads : list Z;
  cfg_oams : list Z;
}.

Definition payload_entry (rf : RegisterFile) (i : nat) : Z :=
  get_field (word rf (16 + i / 2)) (16 * Z.of_nat (i mod 2)) 16.

Definition oam_entry (rf : RegisterFile) (i : nat) : Z :=
  get_field (word rf (64 + i / 4)) (8 * Z.of_nat (i mod 4)) 8.

Definition secret_words (rf : RegisterFile) : bytes :=
  concat ((λ i, to_be_bytes 4 (word rf (4 + i))) <$> seq 0 SECRET_WORDS).

Definition abs (rf : RegisterFile) : Config :=
  mkConfig (get_field (word rf 0) 0 16) (word rf 1) (word rf 2)
    (if Z.testbit (word rf 12) 0 then Some (secret_words rf) else None)
    (payload_entry rf <$> seq 0 32) (oam_entry rf <$> seq 0 33).

Definition with_wavelength (c : Config) (v : Z) : Config :=
  mkConfig v (cfg_ctrl c) (cfg_tolerance c) (cfg_secret c) (cfg_payloads c) (cfg_oams c).
Definition with_ctrl (c : Config) (v : Z) : Config :=
  mkConfig (cfg_wavelength c) v (cfg_tolerance c) (cfg_secret c) (cfg_payloads c) (cfg_oams c).
Definition with_tolerance (c : Config) (v : Z) : Config :=
  mkConfig (cfg_wavelength c) (cfg_ctrl c) v (cfg_secret c) (cfg_payloads c) (cfg_oams c).
Definition with_secret (c : Config) (v : bytes) : Config :=
  mkConfig (cfg_wavelength c) (cfg_ctrl c) (cfg_tolerance c) (Some v) (cfg_payloads c) (cfg_oams c).
Definition with_payload (c : Config) (id v : Z) : Config :=
  mkConfig (cfg_wavelength c) (cfg_ctrl c) (cfg_tolerance c) (cfg_secret c)
    (<[Z.to_nat id := v]> (cfg_payloads c)) (cfg_oams c).
Definition with_oam (c : Config) (charge v : Z) : Config :=
  mkConfig (cfg_wavelength c) (cfg_ctrl c) (cfg_tolerance c) (cfg_secret c) (cfg_payloads c)
    (<[Z.to_nat (charge + 16) := v]> (cfg_oams c)).

(** Each part of the configuration lives in its own words. *)
Section frame.
Context (rf rf' : RegisterFile).

Lemma secret_words_frame :
  (∀ i, (4 ≤ i < 12)%nat → word rf' i = word rf i) → secret_words rf' = secret_words rf.
Proof.
  intros Hw. unfold secret_words. f_equal.
  apply list_fmap_ext. intros _ i [_ Hi]%list_elem_of_lookup_2%elem_of_seq.
  rewrite Hw; [done|]. unfold SECRET_WORDS in Hi. lia.
Qed.

Lemma payloads_frame :
  (∀ i, (16 ≤ i < 32)%nat → word rf' i = word rf i) →
  payload_entry rf' <$> seq 0 32 = payload_entry rf <$> seq 0 32.
Proof.
  intros Hw. apply list_fmap_ext. intros _ i Hi%list_elem_of_lookup_2%elem_of_seq.
  unfold payload_entry. rewrite Hw; [done|]. lia.
Qed.

Lemma oams_frame :
  (∀ i, (64 ≤ i < 73)%nat → word rf' i = word rf i) →
  oam_entry rf' <$> seq 0 33 = oam_entry rf <$> seq 0 33.
Proof.
  intros Hw. apply list_fmap_ext. intros _ i Hi%list_elem_of_lookup_2%elem_of_seq.
  unfold oam_entry. rewrite Hw; [done|]. lia.
Qed.
End frame.

(** Split a goal on [abs] into its parts and discharge the untouched ones. *)
Ltac word_at := rewrite !word_set by (done || lia); repeat first [case_decide; [lia|] | case_decide; [|lia]].
Ltac abs_parts :=
  unfold abs, with_wavelength, with_ctrl, with_tolerance, with_secret, with_payload, with_oam;
  cbn [cfg_wavelength cfg_ctrl cfg_tolerance cfg_secret cfg_payloads cfg_oams];
  f_equal;
  try (by word_at);
  try (apply payloads_frame; intros; by word_at);
  try (apply oams_frame; intros; by word_at);
  try (word_at; erewrite secret_words_frame; [done|intros; by word_at]).

(** ** Each writer refines the update of one part *)

Section writers.
Context (rf : RegisterFile) (Hrf : RegisterFile_ok rf).

Lemma set_wavelength_spec w :
  Wavelength_ok w →
  ∃ rf', set_wavelength w rf = (rf', Ok ()) ∧ RegisterFile_ok rf' ∧
    abs rf' = with_wavelength (abs rf) (channel w).
Proof.
  intros Hw. exists (set_word rf 0 (channel w)). split; [apply write_word; [done|lia]|].
  unfold Wavelength_ok, MAX_CHANNEL in Hw.
  split; [apply set_word_ok; [done|unfold in_uint; lia]|]. abs_parts.
  word_at. unfold get_field. rewrite Z.shiftr_0_r, Z.land_ones by lia.
  apply Z.mod_small. lia.
Qed.

Lemma set_ctrl_spec v :
  u32 v →
  ∃ rf', set_ctrl v rf = (rf', Ok ()) ∧ RegisterFile_ok rf' ∧
    abs rf' = with_ctrl (abs rf) v.
Proof.
  intros Hv. exists (set_word rf 1 v). split; [apply write_word; [done|lia]|].
  split; [by apply set_word_ok|]. abs_parts.
Qed.

Lemma to_u32_range x : u32 (f32.to_u32 x).
Proof.
  unfold f32.to_u32, to_int_sat, in_uint. destruct x as [s|s| |s m e]; try destruct s; lia.
Qed.

Lemma set_auth_tolerance_spec r :
  ∃ rf', set_auth_tolerance r rf = (rf', Ok ()) ∧ RegisterFile_ok rf' ∧
    abs rf' = with_tolerance (abs rf)
      (f32.to_u32 (fmax (f32.round (f32.mul r (f32.of_Z 1000))) f32.zero)).
Proof.
  eexists (set_word rf 2 _). split; [apply write_word; [done|lia]|].
  split; [apply set_word_ok; [done|apply to_u32_range]|]. abs_parts.
Qed.

Lemma secret_word_slice secret i :
  array_ok 32 secret → (i < SECRET_WORDS)%nat →
  secret_word secret i = from_be_bytes (slice secret (i * 4) (i * 4 + 4)).
Proof. unfold SECRET_WORDS, secret_word. intros [Hl _] Hi. by rewrite slice_four by lia. Qed.

Lemma set_secret_spec secret :
  array_ok 32 secret →
  ∃ rf', set_secret secret rf = (rf', Ok ()) ∧ RegisterFile_ok rf' ∧
    abs rf' = with_secret (abs rf) secret.
Proof.
  intros Hs. pose proof Hs as [Hlen Hok]. unfold set_secret.
  set (f := secret_word secret). assert (length (words rf) = 256%nat) as Hl by exact (proj1 Hrf).
  pose proof (write_block 4 f SECRET_WORDS 0 rf (proj1 Hrf) ltac:(unfold SECRET_WORDS; lia))
    as Hloop. cbn [Nat.add] in Hloop.
  set (rf1 := mkRegisterFile (splice (words rf) 4 (f <$> seq 0 SECRET_WORDS))) in Hloop.
  assert (length (f <$> seq 0 SECRET_WORDS) = 8%nat) as Hf by done.
  assert (∀ i, word rf1 i = if decide (4 ≤ i < 12)%nat then f (i - 4)%nat else word rf i) as Hw.
  { intros i. unfold word, rf1. cbn [words].
    rewrite !nth_lookup, splice_lookup, Hf by lia.
    destruct (decide (4 ≤ i < 4 + 8)%nat), (decide (4 ≤ i < 12)%nat); try lia.
    rewrite list_lookup_fmap, lookup_seq_lt by (unfold SECRET_WORDS; lia). done. }
  assert (∀ i, (i < 8)%nat → f i = from_be_bytes (slice secret (i * 4) (i * 4 + 4))) as Hfi
    by (intros; by apply secret_word_slice).
  assert (RegisterFile_ok rf1) as Hrf1.
  { split.
    - cbn [words rf1]. rewrite splice_length; [exact (proj1 Hrf)|].
      lia.
    - apply splice_Forall; [exact (proj2 Hrf)|]. apply Forall_fmap, Forall_forall.
      intros i Hi%elem_of_seq. unfold compose. unfold SECRET_WORDS in Hi.
      rewrite Hfi by lia. apply from_be_slice_uint; [done|lia|lia]. }
  exists (set_word rf1 12 1). split; [|split; [by apply set_word_ok|]].
  { erewrite sr_bind_ok by exact Hloop. apply write_word; [done|lia]. }
  abs_parts; try (rewrite word_set by (done || lia); case_decide; [lia|]; rewrite Hw;
    case_decide; [lia|done]).
  - word_at. cbn [Z.testbit Z.odd]. f_equal. rewrite <- (slice_all secret 32) at 1 by done.
    unfold secret_words. cbn [seq fmap list_fmap concat SECRET_WORDS Nat.add].
    word_at. rewrite !Hw. repeat (case_decide; [|lia]). cbn [Nat.sub].
    rewrite !Hfi, !(to_from_be_bytes_array 4) by (lia || (apply array_ok_slice; done || lia)).
    rewrite app_nil_r, !slice_join by lia. done.
  - apply payloads_frame. intros i Hi. word_at. rewrite Hw. by case_decide; [lia|].
  - apply oams_frame. intros i Hi. word_at. rewrite Hw. by case_decide; [lia|].
Qed.

Lemma set_schema_payload_spec id n :
  1 ≤ id < 32 → u16 n →
  ∃ rf', set_schema_payload id n rf = (rf', Ok ()) ∧ RegisterFile_ok rf' ∧
    abs rf' = with_payload (abs rf) id n.
Proof.
  intros Hid Hn. unfold set_schema_payload, SCHEMA_TABLE_ENTRIES.
  destruct (Z.eqb_spec id 0), (Z.leb_spec 32 id); try lia. cbn [orb].
  assert (∃ i, id = Z.of_nat i) as [i ->] by (exists (Z.to_nat id); lia).
  set (k := (16 + i / 2)%nat).
  set (w' := set_field (word rf k) (16 * Z.of_nat (i mod 2)) 16 n).
  pose proof (word_u32 rf k Hrf) as Hk.
  exists (set_word rf k w'). split; [|split].
  - unfold sr_bind, sr_read. rewrite (read_word _ k) by (unfold k, REG_SCHEMA_PAYLOAD_BASE; lia).
    rewrite (write_word _ k) by (unfold k, REG_SCHEMA_PAYLOAD_BASE; lia).
    do 3 f_equal. unfold w', set_field.
    change 0xFFFF0000 with (u32_not (Z.ones 16)). change 0xFFFF with (u32_not (Z.shiftl (Z.ones 16) 16)).
    destruct (Z.eqb_spec (Z.of_nat i mod 2) 0) as [E|E].
    + replace (16 * Z.of_nat (i mod 2)) with 0 by lia. rewrite !Z.shiftl_0_r.
      by rewrite land_u32_not.
    + replace (16 * Z.of_nat (i mod 2)) with 16 by lia. by rewrite land_u32_not.
  - apply set_word_ok; [done|]. apply set_field_uint; auto; lia.
  - assert (payload_entry (set_word rf k w') i = n) as Hi.
    { unfold payload_entry, k. word_at. apply get_set_field_same; auto; lia. }
    abs_parts. rewrite Nat2Z.id. rewrite <- Hi.
    apply fmap_seq_insert; [lia|]. intros j Hj Hne. unfold payload_entry.
    rewrite word_set by (done || (unfold k; lia)). case_decide as D; [|done].
    rewrite <- D. unfold w'. apply get_set_field_other; auto; unfold k in D; lia.
Qed.

Lemma set_oam_to_schema_spec o id :
  OamMode_ok o → u8 id →
  ∃ rf', set_oam_to_schema o id rf = (rf', Ok ()) ∧ RegisterFile_ok rf' ∧
    abs rf' = with_oam (abs rf) (charge o) id.
Proof.
  unfold OamMode_ok, OAM_MIN, OAM_MAX. intros Ho Hid. unfold set_oam_to_schema.
  set (i := Z.to_nat (charge o + 16)). assert (charge o + 16 = Z.of_nat i) as E by lia.
  rewrite !E. destruct (Z.leb_spec 0 (Z.of_nat i)), (Z.leb_spec (Z.of_nat i) 32); try lia.
  cbn [andb negb].
  set (k := (64 + i / 4)%nat). set (off := 8 * Z.of_nat (i mod 4)).
  set (w' := set_field (word rf k) off 8 id).
  pose proof (word_u32 rf k Hrf) as Hk.
  exists (set_word rf k w'). split; [|split].
  - unfold sr_bind, sr_read. rewrite (read_word _ k) by (unfold k, REG_OAM_TABLE_BASE; lia).
    rewrite (write_word _ k) by (unfold k, REG_OAM_TABLE_BASE; lia).
    do 3 f_equal. unfold w', set_field. change 0xFF with (Z.ones 8).
    replace (Z.of_nat i mod 4 * 8) with off by (unfold off; lia).
    rewrite land_u32_not; [done|done|].
    assert (off = 0 ∨ off = 8 ∨ off = 16 ∨ off = 24) as Ho4 by (unfold off; lia).
    destruct Ho4 as [-> | [-> | [-> | ->]]]; vm_compute; split; congruence.
  - apply set_word_ok; [done|]. apply set_field_uint; auto; unfold off; lia.
  - assert (oam_entry (set_word rf k w') i = id) as Hi.
    { unfold oam_entry, k. word_at. apply get_set_field_same; auto; unfold off; lia. }
    abs_parts. rewrite E, Nat2Z.id. rewrite <- Hi.
    apply fmap_seq_insert; [lia|]. intros j Hj Hne. unfold oam_entry.
    rewrite word_set by (done || (unfold k; lia)). case_decide as D; [|done].
    rewrite <- D. unfold w'. apply get_set_field_other; auto; unfold k in D; unfold off; lia.
Qed.
End writers.

(** ** Each view reads one part *)

Section views.
Context (rf : RegisterFile).

Lemma view_wavelength_abs :
  view_wavelength rf = map_err CsrProtocol (Wavelength_new (cfg_wavelength (abs rf))).
Proof.
  unfold view_wavelength. rewrite (read_word _ 0) by (done || lia). cbn [rbind].
  unfold abs, get_field. cbn [cfg_wavelength]. by rewrite Z.shiftr_0_r.
Qed.

Lemma view_ctrl_abs : view_ctrl rf = Ok (cfg_ctrl (abs rf)).
Proof. by apply (read_word _ 1); [|lia]. Qed.

Lemma view_auth_tolerance_abs :
  view_auth_tolerance rf = Ok (f32.div (f32.of_Z (cfg_tolerance (abs rf))) (f32.of_Z 1000)).
Proof. unfold view_auth_tolerance. by rewrite (read_word _ 2) by (done || lia). Qed.

Lemma secret_valid_abs : secret_valid rf = Ok (Z.testbit (word rf 12) 0).
Proof.
  unfold secret_valid. rewrite (read_word _ 12) by (done || lia). cbn [rbind]. f_equal.
  change 1 with (Z.ones 1) at 1. rewrite Z.land_ones by lia.
  change (2 ^ 1) with 2. rewrite Z.bit0_odd, Zmod_odd. by destruct (Z.odd _).
Qed.

Lemma shared_secret_abs :
  shared_secret rf = Ok (SharedSecret_new <$> cfg_secret (abs rf)).
Proof.
  unfold shared_secret. rewrite secret_valid_abs. cbn [rbind abs cfg_secret].
  destruct (Z.testbit (word rf 12) 0); [|done]. cbn [negb fmap option_fmap option_map].
  unfold secret_words. cbn [seq SECRET_WORDS fold_left fmap list_fmap concat rbind Nat.mul Nat.add].
  rewrite (read_word _ 4), (read_word _ 5), (read_word _ 6), (read_word _ 7),
    (read_word _ 8), (read_word _ 9), (read_word _ 10), (read_word _ 11) by (done || lia).
  cbn [rbind]. rewrite <- (app_nil_l (replicate 32 0)).
  do 8 fill 0%nat. rewrite <- !app_assoc. len_norm. done.
Qed.

Lemma schema_payload_bytes_abs id :
  1 ≤ id < 32 →
  schema_payload_bytes id rf = Ok (nth (Z.to_nat id) (cfg_payloads (abs rf)) 0).
Proof.
  intros Hid. unfold schema_payload_bytes, SCHEMA_TABLE_ENTRIES.
  destruct (Z.eqb_spec id 0), (Z.leb_spec 32 id); try lia. cbn [orb].
  assert (∃ i, id = Z.of_nat i) as [i ->] by (exists (Z.to_nat id); lia).
  rewrite (read_word _ (16 + i / 2)) by (unfold REG_SCHEMA_PAYLOAD_BASE; lia). cbn [rbind].
  f_equal. rewrite Nat2Z.id. cbn [abs cfg_payloads].
  rewrite nth_lookup, list_lookup_fmap, lookup_seq_lt by lia. cbn [fmap option_fmap option_map default from_option Nat.add].
  unfold payload_entry, get_field. change 0xFFFF with (Z.ones 16).
  destruct (Z.eqb_spec (Z.of_nat i mod 2) 0).
  - replace (16 * Z.of_nat (i mod 2)) with 0 by lia. by rewrite Z.shiftr_0_r.
  - by replace (16 * Z.of_nat (i mod 2)) with 16 by lia.
Qed.

Lemma schema_id_for_oam_abs o :
  OamMode_ok o →
  schema_id_for_oam o rf = Ok (nth (Z.to_nat (charge o + 16)) (cfg_oams (abs rf)) 0).
Proof.
  unfold OamMode_ok, OAM_MIN, OAM_MAX. intros Ho. unfold schema_id_for_oam.
  assert (∃ i, charge o + 16 = Z.of_nat i) as [i E]
    by (exists (Z.to_nat (charge o + 16)); lia).
  rewrite !E. destruct (Z.leb_spec 0 (Z.of_nat i)), (Z.leb_spec (Z.of_nat i) 32); try lia.
  cbn [andb negb]. rewrite (read_word _ (64 + i / 4)) by (unfold REG_OAM_TABLE_BASE; lia).
  cbn [rbind]. f_equal. rewrite Nat2Z.id. cbn [abs cfg_oams].
  rewrite nth_lookup, list_lookup_fmap, lookup_seq_lt by lia. cbn [fmap option_fmap option_map default from_option Nat.add].
  unfold oam_entry, get_field. change 0xFF with (Z.ones 8).
  by replace (Z.of_nat i mod 4 * 8) with (8 * Z.of_nat (i mod 4)) by lia.
Qed.
End views.

(** ** Properties *)

(** The writer functions as operations, and what each does to a configuration. *)
Inductive CsrWrite : Type :=
| WriteWavelength (w : Wavelength)
| WriteCtrl (v : Z)
| WriteTolerance (radians : float)
| WriteSecret (secret : bytes)
| WritePayload (schema_id payload_bytes : Z)
| WriteOam (oam : OamMode) (schema_id : Z).

(** The ranges of the Rust argument types. *)
Definition CsrWrite_ok (op : CsrWrite) : Prop :=
  match op with
  | WriteWavelength w => Wavelength_ok w
  | WriteCtrl v => u32 v
  | WriteTolerance _ => True
  | WriteSecret s => array_ok 32 s
  | WritePayload id n => u8 id ∧ u16 n
  | WriteOam o id => OamMode_ok o ∧ u8 id
  end.

Definition exec_write (op : CsrWrite) : state_result RegisterFile unit CsrError :=
  match op with
  | WriteWavelength w => set_wavelength w
  | WriteCtrl v => set_ctrl v
  | WriteTolerance r => set_auth_tolerance r
  | WriteSecret s => set_secret s
  | WritePayload id n => set_schema_payload id n
  | WriteOam o id => set_oam_to_schema o id
  end.

Definition spec_write (op : CsrWrite) (c : Config) : CsrResult Config :=
  match op with
  | WriteWavelength w => Ok (with_wavelength c (channel w))
  | WriteCtrl v => Ok (with_ctrl c v)
  | WriteTolerance r =>
      Ok (with_tolerance c (f32.to_u32 (fmax (f32.round (f32.mul r (f32.of_Z 1000))) f32.zero)))
  | WriteSecret s => Ok (with_secret c s)
  | WritePayload id n =>
      if decide (1 ≤ id < 32) then Ok (with_payload c id n)
      else Err (SchemaIdOutOfRange id 32)
  | WriteOam o id => Ok (with_oam c (charge o) id)
  end.

Lemma exec_write_refines op rf :
  CsrWrite_ok op → RegisterFile_ok rf →
  match spec_write op (abs rf) with
  | Ok c => ∃ rf', exec_write op rf = (rf', Ok ()) ∧ RegisterFile_ok rf' ∧ abs rf' = c
  | Err e => exec_write op rf = (rf, Err e)
  end.
Proof.
  intros Hop Hrf. destruct op as [w|v|r|s|id n|o id]; cbn [spec_write exec_write].
  - by apply set_wavelength_spec.
  - by apply set_ctrl_spec.
  - by apply set_auth_tolerance_spec.
  - by apply set_secret_spec.
  - destruct Hop as [Hid Hn]. case_decide; [by apply set_schema_payload_spec|].
    unfold set_schema_payload, SCHEMA_TABLE_ENTRIES. unfold in_uint in Hid.
    destruct (Z.eqb_spec id 0), (Z.leb_spec 32 id); try lia; done.
  - destruct Hop. by apply set_oam_to_schema_spec.
Qed.

Definition run_writes (ops : list CsrWrite) (rf : RegisterFile) : RegisterFile :=
  fold_left (λ rf op, (exec_write op rf).1) ops rf.

(** A rejected write leaves the configuration as it was. *)
Definition spec_run (ops : list CsrWrite) (c : Config) : Config :=
  fold_left (λ c op, match spec_write op c with Ok c' => c' | Err _ => c end) ops c.

(** The writes that no argument check rejects. *)
Definition accepts (op : CsrWrite) : Prop :=
  match op with WritePayload id _ => 1 ≤ id < 32 | _ => True end.

Lemma exec_write_run op rf :
  CsrWrite_ok op → accepts op → RegisterFile_ok rf →
  exec_write op rf = (run_writes [op] rf, Ok ()).
Proof.
  intros Hop Ha Hrf. pose proof (exec_write_refines op rf Hop Hrf) as Hr. cbn.
  assert (∃ c, spec_write op (abs rf) = Ok c) as [c Hc].
  { destruct op; cbn in *; eauto. rewrite decide_True by done. eauto. }
  rewrite Hc in Hr. by destruct Hr as (rf' & -> & _).
Qed.

Lemma run_writes_refines ops rf :
  Forall CsrWrite_ok ops → RegisterFile_ok rf →
  RegisterFile_ok (run_writes ops rf) ∧ abs (run_writes ops rf) = spec_run ops (abs rf).
Proof.
  intros Hops. revert rf. induction Hops as [|op ops Hop _ IH]; intros rf Hrf; [done|].
  cbn. pose proof (exec_write_refines op rf Hop Hrf) as Hr.
  destruct (spec_write op (abs rf)) as [c|e].
  - destruct Hr as (rf' & -> & ? & <-). by apply IH.
  - rewrite Hr. by apply IH.
Qed.

(** C4: the packed register file implements the configuration it stands for.
    Every writer function, run on any register file, updates exactly the part of
    the configuration it names and nothing else, or, for a schema id of 0 or of
    32 and above, returns [SchemaIdOutOfRange] and leaves the file unchanged;
    so any sequence of writer calls computes the configuration the same sequence
    of abstract updates computes, and keeps every word in [u32] range. *)
Theorem csr_writers_refine (ops : list CsrWrite) (rf : RegisterFile) :
  Forall CsrWrite_ok ops → RegisterFile_ok rf →
  RegisterFile_ok (run_writes ops rf) ∧
  abs (run_writes ops rf) = spec_run ops (abs rf) ∧
  (∀ op, CsrWrite_ok op →
     match spec_write op (abs rf) with
     | Ok _ => (exec_write op rf).2 = Ok ()
     | Err e => exec_write op rf = (rf, Err e)
     end).
Proof.
  intros Hops Hrf. split_and!; [by apply run_writes_refines..|].
  intros op Hop. pose proof (exec_write_refines op rf Hop Hrf) as Hr.
  destruct (spec_write op (abs rf)); [by destruct Hr as (rf' & -> & _)|done].
Qed.

Definition demo_writes : list CsrWrite :=
  [WriteWavelength (mkWavelength 40); WriteSecret (replicate 32 0x11); WritePayload 1 256;
   WritePayload 2 64; WritePayload 40 7; WriteOam (mkOamMode 16) 9; WriteOam (mkOamMode 1) 7].

Lemma demo_writes_ok : Forall CsrWrite_ok demo_writes.
Proof.
  repeat constructor; try (vm_compute; split; congruence); vm_compute; congruence.
Qed.

Lemma csr_writers_refine_witness :
  abs (run_writes demo_writes RegisterFile_new) = spec_run demo_writes (abs RegisterFile_new).
Proof.
  exact (proj1 (proj2 (csr_writers_refine demo_writes RegisterFile_new demo_writes_ok
    RegisterFile_new_ok))).
Defined.

(** The typed views read the configuration: wavelength (range-checked),
    control word, tolerance in milliradians over 1000, the secret or [None] when
    it was never loaded, the payload table at every id 1..31 and the OAM table
    at every charge -16..16. *)
Theorem csr_views_read (rf : RegisterFile) :
  view_wavelength rf = map_err CsrProtocol (Wavelength_new (cfg_wavelength (abs rf))) ∧
  view_ctrl rf = Ok (cfg_ctrl (abs rf)) ∧
  view_auth_tolerance rf = Ok (f32.div (f32.of_Z (cfg_tolerance (abs rf))) (f32.of_Z 1000)) ∧
  shared_secret rf = Ok (SharedSecret_new <$> cfg_secret (abs rf)) ∧
  (∀ id, u8 id → schema_payload_bytes id rf =
     if decide (1 ≤ id < 32) then Ok (nth (Z.to_nat id) (cfg_payloads (abs rf)) 0)
     else Err (SchemaIdOutOfRange id 32)) ∧
  (∀ o, OamMode_ok o →
     schema_id_for_oam o rf = Ok (nth (Z.to_nat (charge o + 16)) (cfg_oams (abs rf)) 0)).
Proof.
  split_and!; [apply view_wavelength_abs|apply view_ctrl_abs|apply view_auth_tolerance_abs|
    apply shared_secret_abs| |apply schema_id_for_oam_abs].
  intros id Hid. unfold in_uint in Hid. case_decide; [by apply schema_payload_bytes_abs|].
  unfold schema_payload_bytes, SCHEMA_TABLE_ENTRIES.
  destruct (Z.eqb_spec id 0), (Z.leb_spec 32 id); try lia; done.
Qed.

(** word accesses.  A read or a write fails exactly when the offset is beyond
    the CSR space ([OutOfRange]) or not a multiple of four ([Misaligned]), and a
    failed write changes nothing; after a successful write the word reads back
    and every other offset reads as before. *)
Theorem csr_word_access (rf : RegisterFile) (off v : Z) :
  RegisterFile_ok rf → 0 ≤ off →
  if decide (0x400 ≤ off) then
    read_u32 off rf = Err (OutOfRange off 0x400) ∧
    write_u32 off v rf = (rf, Err (OutOfRange off 0x400))
  else if decide (off mod 4 = 0) then
    ∃ rf', write_u32 off v rf = (rf', Ok ()) ∧ read_u32 off rf' = Ok v ∧
      ∀ off', 0 ≤ off' → off' ≠ off → read_u32 off' rf' = read_u32 off' rf
  else
    read_u32 off rf = Err (Misaligned off) ∧ write_u32 off v rf = (rf, Err (Misaligned off)).
Proof.
  intros Hrf Hoff.
  assert (∀ o, Z.land o 3 = o mod 4) as Hland
    by (intros o; change 3 with (Z.ones 2); by rewrite Z.land_ones by lia).
  repeat case_decide.
  - unfold read_u32, write_u32, CSR_SPACE_BYTES. by destruct (Z.leb_spec 0x400 off); [|lia].
  - assert (∃ i, off = 4 * Z.of_nat i) as [i ->] by (exists (Z.to_nat (off / 4)); lia).
    exists (set_word rf i v). split; [apply write_word; [done|lia]|]. split.
    + rewrite (read_word _ i), word_set by (done || lia). by rewrite decide_True.
    + intros off' Hoff' Hne. unfold read_u32 at 1 2. destruct (_ <=? off'); [done|].
      rewrite Hland. destruct (Z.eqb_spec (off' mod 4) 0); [|done]. cbn [negb]. f_equal.
      change (word (set_word rf i v) (Z.to_nat (off' / 4)) = word rf (Z.to_nat (off' / 4))).
      rewrite word_set by (done || lia). rewrite decide_False; [done|]. lia.
  - unfold read_u32, write_u32, CSR_SPACE_BYTES. destruct (Z.leb_spec 0x400 off); [lia|].
    rewrite Hland. by destruct (Z.eqb_spec (off mod 4) 0).
Qed.

Lemma csr_word_access_witness :
  read_u32 3 RegisterFile_new = Err (Misaligned 3).
Proof.
  exact (proj1 (csr_word_access RegisterFile_new 3 0 RegisterFile_new_ok ltac:(lia))).
Defined.
