(* ===== verification/Rtl.v ===== *)
(** * rtl: the register block in hardware

    Models [src/rtl/otap_csr_block.sv] with the register map of
    [src/rtl/otap_csr_map.svh], and proves that the block and the register file of
    [otap-csr] are two implementations of one contract: bus cycles act on the storage
    as the Rust accessors do, and the decoded outputs are what the Rust views read.

    A clock edge is a function of the registers and the inputs sampled at it; an output
    assigned combinationally is a function of the registers.  Vectors are [Z], a signed
    port the [Z] it stands for. *)

From S2P Require Import Prelude Float Core Crypto Csr.
From Stdlib Require Import ZifyNat.
Local Open Scope Z_scope.

Ltac Zify.zify_post_hook ::= Z.to_euclidean_division_equations.

(** ** The register map, otap_csr_map.svh *)

Definition OTAP_REG_WAVELENGTH : Z := 0x000.
Definition OTAP_REG_CTRL : Z := 0x004.
Definition OTAP_REG_AUTH_TOLERANCE : Z := 0x008.
Definition OTAP_REG_STATUS : Z := 0x00C.
Definition OTAP_REG_SECRET_BASE : Z := 0x010.
Definition OTAP_SECRET_WORDS : nat := 8.
Definition OTAP_REG_SECRET_VALID : Z := 0x030.
Definition OTAP_REG_SCHEMA_PAYLOAD_BASE : Z := 0x040.
Definition OTAP_REG_OAM_TABLE_BASE : Z := 0x100.
Definition OTAP_CSR_SPACE_BYTES : Z := 0x400.
Definition OTAP_CSR_SPACE_WORDS : Z := OTAP_CSR_SPACE_BYTES / 4.

(** ** The block *)

(** The default of the parameter. *)
Definition ADDR_WIDTH : Z := 12.

Record CsrBlock : Type := mkCsrBlock {
  reg_file : list Z;
  rd_data : Z;
}.

(** The inputs sampled at a rising edge. *)
Record CsrBus : Type := mkCsrBus {
  rstn : bool;
  wr_en : bool;
  wr_addr : Z;
  wr_data : Z;
  rd_en : bool;
  rd_addr : Z;
}.

(** The guard of both ports: [addr[1:0] == 2'b00 && addr < OTAP_CSR_SPACE_BYTES]. *)
Definition addr_ok (addr : Z) : bool :=
  (get_field addr 0 2 =? 0) && (addr <? OTAP_CSR_SPACE_BYTES).

(** [addr[ADDR_WIDTH-1:2]]. *)
Definition addr_word (addr : Z) : nat := Z.to_nat (get_field addr 2 (ADDR_WIDTH - 2)).

(** One edge: both [always_ff] blocks read the registers as they were before it. *)
Definition csr_clock (i : CsrBus) (s : CsrBlock) : CsrBlock :=
  mkCsrBlock
    (if negb (rstn i) then replicate (Z.to_nat OTAP_CSR_SPACE_WORDS) 0
     else if wr_en i && addr_ok (wr_addr i)
       then <[addr_word (wr_addr i) := wr_data i]> (reg_file s)
     else reg_file s)
    (if rd_en i && addr_ok (rd_addr i) then nth (addr_word (rd_addr i)) (reg_file s) 0 else 0).

Definition csr_run (cycles : list CsrBus) (s : CsrBlock) : CsrBlock :=
  fold_left (λ s i, csr_clock i s) cycles s.

Section decode.
Context (s : CsrBlock).

Definition reg (offset : Z) : Z := nth (Z.to_nat (Z.shiftr offset 2)) (reg_file s) 0.

Definition out_wavelength : Z := get_field (reg OTAP_REG_WAVELENGTH) 0 16.
Definition out_ctrl : Z := reg OTAP_REG_CTRL.
Definition out_auth_tolerance : Z := reg OTAP_REG_AUTH_TOLERANCE.
Definition out_secret_valid : bool := Z.testbit (reg OTAP_REG_SECRET_VALID) 0.

(** [cfg_secret[(255 - k*32) -: 32]] is word [k]. *)
Definition out_secret : Z :=
  fold_left (λ acc k, set_field acc (255 - Z.of_nat k * 32 - 31) 32
                        (reg (OTAP_REG_SECRET_BASE + Z.of_nat k * 4)))
    (seq 0 OTAP_SECRET_WORDS) 0.

Definition lookup_schema_payload (schema_id_lookup : Z) : Z :=
  let schema_word :=
    nth (Z.to_nat (Z.shiftr OTAP_REG_SCHEMA_PAYLOAD_BASE 2 + Z.shiftr schema_id_lookup 1))
      (reg_file s) 0 in
  if Z.testbit schema_id_lookup 0 then get_field schema_word 16 16
  else get_field schema_word 0 16.

(** [oam_lookup] is the signed value of the 5-bit port; the sum has 6 bits. *)
Definition lookup_oam (oam_lookup : Z) : Z :=
  let oam_idx := wrap 6 (oam_lookup + 16) in
  let oam_word :=
    nth (Z.to_nat (Z.shiftr OTAP_REG_OAM_TABLE_BASE 2 + Z.shiftr oam_idx 2)) (reg_file s) 0 in
  match get_field oam_idx 0 2 with
  | 0 => get_field oam_word 0 8
  | 1 => get_field oam_word 8 8
  | 2 => get_field oam_word 16 8
  | _ => get_field oam_word 24 8
  end.
End decode.

(** ** The bus against the accessors *)

(** What a cycle does, in terms of the Rust accessors: a failed write changes nothing, a
    failed or absent read gives 0. *)
Definition spec_clock (i : CsrBus) (rf : RegisterFile) : RegisterFile * Z :=
  ((if negb (rstn i) then RegisterFile_new
    else if wr_en i then (write_u32 (wr_addr i) (wr_data i) rf).1 else rf),
   (if rd_en i then match read_u32 (rd_addr i) rf with Ok v => v | Err _ => 0 end else 0)).

Definition spec_cycles (cycles : list CsrBus) (rf : RegisterFile) : RegisterFile :=
  fold_left (λ rf i, (spec_clock i rf).1) cycles rf.

(** The widths of the ports. *)
Definition CsrBus_ok (i : CsrBus) : Prop :=
  in_uint ADDR_WIDTH (wr_addr i) ∧ u32 (wr_data i) ∧ in_uint ADDR_WIDTH (rd_addr i).

Lemma low_bits z : get_field z 0 2 = Z.land z 3.
Proof. unfold get_field. by rewrite Z.shiftr_0_r. Qed.

Lemma addr_word_div a : in_uint ADDR_WIDTH a → addr_word a = Z.to_nat (a / 4).
Proof.
  intros Ha. unfold addr_word, get_field, ADDR_WIDTH, in_uint in *. f_equal.
  rewrite Z.shiftr_div_pow2, Z.land_ones by lia. apply Z.mod_small. lia.
Qed.

Lemma addr_ok_access a :
  addr_ok a = negb (CSR_SPACE_BYTES <=? a) && (Z.land a 3 =? 0).
Proof.
  unfold addr_ok. rewrite low_bits. change OTAP_CSR_SPACE_BYTES with CSR_SPACE_BYTES.
  rewrite <- Z.ltb_antisym. apply andb_comm.
Qed.

Lemma clock_spec i s rf :
  CsrBus_ok i → reg_file s = words rf →
  reg_file (csr_clock i s) = words (spec_clock i rf).1 ∧ rd_data (csr_clock i s) = (spec_clock i rf).2.
Proof.
  intros (Hw & _ & Hr) Hs. unfold csr_clock, spec_clock. cbn [reg_file rd_data fst snd].
  rewrite Hs, !addr_ok_access, !addr_word_div by done. unfold read_u32, write_u32. split.
  - destruct (rstn i); [|done]. cbn [negb]. destruct (wr_en i); [|done]. cbn [andb].
    destruct (_ <=? wr_addr i); [done|]. by destruct (_ =? 0).
  - destruct (rd_en i); [|done]. cbn [andb].
    destruct (_ <=? rd_addr i); [done|]. by destruct (_ =? 0).
Qed.

Lemma run_spec cycles : ∀ s rf,
  Forall CsrBus_ok cycles → reg_file s = words rf →
  reg_file (csr_run cycles s) = words (spec_cycles cycles rf).
Proof.
  induction cycles as [|i cycles IH]; intros s rf Hok Hs; [done|].
  apply Forall_cons in Hok as [Hi Hok]. apply IH; [done|]. by apply clock_spec.
Qed.

Lemma spec_clock_ok i rf :
  CsrBus_ok i → RegisterFile_ok rf → RegisterFile_ok (spec_clock i rf).1.
Proof.
  intros (_ & Hd & _) Hrf. unfold spec_clock, write_u32. cbn [fst].
  destruct (rstn i); [|apply RegisterFile_new_ok]. destruct (wr_en i); [|done]. cbn [negb].
  destruct (_ <=? wr_addr i); [done|]. destruct (negb _); [done|]. by apply set_word_ok.
Qed.

Lemma spec_cycles_ok cycles : ∀ rf,
  Forall CsrBus_ok cycles → RegisterFile_ok rf → RegisterFile_ok (spec_cycles cycles rf).
Proof.
  induction cycles as [|i cycles IH]; intros rf Hok Hrf; [done|].
  apply Forall_cons in Hok as [Hi Hok]. apply IH; [done|]. by apply spec_clock_ok.
Qed.

(** ** The outputs against the views *)

Lemma from_be_bytes_app l1 l2 :
  from_be_bytes (l1 ++ l2) = from_be_bytes l1 * 256 ^ Z.of_nat (length l2) + from_be_bytes l2.
Proof. unfold from_be_bytes at 1 2. by rewrite fold_left_app, from_be_bytes_acc. Qed.

(** Filling in the next field of a vector that is zero from there down. *)
Lemma set_field_next a m w :
  0 ≤ m → u32 w → set_field (a * 2 ^ (m + 32)) m 32 w = (a * 2 ^ 32 + w) * 2 ^ m.
Proof.
  intros Hm Hw. apply Z.bits_inj'. intros i Hi. rewrite set_field_testbit by (done || lia).
  destruct (Z.leb_spec m i); cbn [andb].
  - rewrite (Z.mul_pow2_bits _ m), testbit_above by (done || lia).
    destruct (Z.ltb_spec i (m + 32)), (Z.ltb_spec (i - m) 32); try lia; [done|].
    rewrite Z.mul_pow2_bits by lia. f_equal. lia.
  - rewrite !Z.mul_pow2_bits_low by lia. done.
Qed.

Lemma secret_words_array rf : array_ok 32 (secret_words rf).
Proof.
  split; [reflexivity|]. unfold secret_words. apply Forall_concat, Forall_fmap, Forall_true.
  intros i. apply to_be_bytes_ok.
Qed.

Section outputs.
Context (s : CsrBlock) (rf : RegisterFile) (Hs : reg_file s = words rf) (Hrf : RegisterFile_ok rf).

Lemma reg_word i : reg s (4 * Z.of_nat i) = word rf i.
Proof.
  unfold reg, word. rewrite Hs, Z.shiftr_div_pow2 by lia. f_equal. lia.
Qed.

Lemma words_length l :
  Z.of_nat (length (concat ((λ i, to_be_bytes 4 (word rf (4 + i))) <$> l))) = 4 * Z.of_nat (length l).
Proof.
  induction l as [|i l IH]; [done|]. cbn [fmap list_fmap concat]. rewrite length_app, to_be_bytes_length.
  cbn [length]. rewrite Nat2Z.inj_add, IH. lia.
Qed.

(** The words packed so far, above zeroes. *)
Lemma pack_secret n : ∀ a k, (k + n = 8)%nat →
  fold_left (λ acc k, set_field acc (255 - Z.of_nat k * 32 - 31) 32
                        (reg s (OTAP_REG_SECRET_BASE + Z.of_nat k * 4))) (seq k n)
    (a * 2 ^ (32 * Z.of_nat n)) =
  a * 256 ^ (4 * Z.of_nat n) + from_be_bytes (concat ((λ i, to_be_bytes 4 (word rf (4 + i))) <$> seq k n)).
Proof.
  induction n as [|n IH]; intros a k Hk; [cbn; unfold from_be_bytes; cbn; lia|].
  cbn [seq fold_left fmap list_fmap concat].
  replace (OTAP_REG_SECRET_BASE + Z.of_nat k * 4) with (4 * Z.of_nat (4 + k))
    by (unfold OTAP_REG_SECRET_BASE; lia).
  rewrite reg_word. pose proof (word_u32 rf (4 + k) Hrf) as Hw.
  replace (32 * Z.of_nat (S n)) with (255 - Z.of_nat k * 32 - 31 + 32) by lia.
  rewrite set_field_next by (done || lia).
  replace (255 - Z.of_nat k * 32 - 31) with (32 * Z.of_nat n) by lia.
  rewrite IH by lia. rewrite from_be_bytes_app, from_to_be_bytes_uint by done.
  rewrite words_length, length_seq. replace (4 * Z.of_nat (S n)) with (4 * Z.of_nat n + 4) by lia.
  rewrite Z.pow_add_r by lia. change (256 ^ 4) with (2 ^ 32). lia.
Qed.

Lemma out_secret_abs : out_secret s = from_be_bytes (secret_words rf).
Proof.
  pose proof (pack_secret 8 0 0 eq_refl) as H. rewrite !Z.mul_0_l, Z.add_0_l in H. exact H.
Qed.

Lemma out_valid_word : out_secret_valid s = Z.testbit (word rf 12) 0.
Proof. unfold out_secret_valid. by rewrite (reg_word 12 : reg s OTAP_REG_SECRET_VALID = _). Qed.

Lemma lookup_schema_payload_abs i :
  (i < 32)%nat → lookup_schema_payload s (Z.of_nat i) = payload_entry rf i.
Proof.
  intros Hi. unfold lookup_schema_payload, payload_entry, OTAP_REG_SCHEMA_PAYLOAD_BASE.
  rewrite !Z.shiftr_div_pow2, Z.bit0_odd by lia. rewrite Hs. unfold word.
  replace (Z.to_nat (64 / 2 ^ 2 + Z.of_nat i / 2 ^ 1)) with (16 + i / 2)%nat by lia.
  destruct (Z.odd (Z.of_nat i)) eqn:E; [|apply (f_equal negb) in E; rewrite Z.negb_odd in E];
    rewrite ?Z.odd_spec, ?Z.even_spec in E; destruct E as [c E].
  - by replace (16 * Z.of_nat (i mod 2)) with 16 by lia.
  - by replace (16 * Z.of_nat (i mod 2)) with 0 by lia.
Qed.

Lemma lookup_oam_abs c :
  -16 ≤ c < 16 → lookup_oam s c = oam_entry rf (Z.to_nat (c + 16)).
Proof.
  intros Hc. unfold lookup_oam, oam_entry, OTAP_REG_OAM_TABLE_BASE.
  rewrite wrap_small by (unfold in_uint; lia).
  rewrite low_bits. change 3 with (Z.ones 2). rewrite !Z.shiftr_div_pow2, Z.land_ones by lia.
  rewrite Hs. unfold word.
  replace (Z.to_nat (256 / 2 ^ 2 + (c + 16) / 2 ^ 2)) with (64 + Z.to_nat (c + 16) / 4)%nat by lia.
  set (v := nth _ _ _). replace (8 * Z.of_nat (Z.to_nat (c + 16) mod 4)) with (8 * ((c + 16) mod 4)) by lia.
  change (2 ^ 2) with 4. pose proof (Z.mod_pos_bound (c + 16) 4 ltac:(lia)) as Hm.
  assert ((c + 16) mod 4 = 0 ∨ (c + 16) mod 4 = 1 ∨ (c + 16) mod 4 = 2 ∨ (c + 16) mod 4 = 3)
    as [-> | [-> | [-> | ->]]] by lia; done.
Qed.
End outputs.

(** ** Properties *)

(** C16: The register block and the register file of [otap-csr] are one contract.  From a
    reset edge on and over any further bus cycles, the storage is the register file that
    [write_u32] yields for the same writes, a write out of range or misaligned being
    dropped; each cycle's read data is what [read_u32] returns, or 0 where it fails; and
    after any cycles the decoded outputs are what the Rust views read: wavelength, control
    word, tolerance, the valid bit and the secret, the payload table at every handle and
    the OAM table at the charges -16 to 15, which are those the port can carry. *)
Theorem rtl_refines_register_file (s : CsrBlock) (reset : CsrBus) (cycles : list CsrBus) :
  rstn reset = false → CsrBus_ok reset → Forall CsrBus_ok cycles →
  let s' := csr_run (reset :: cycles) s in
  let rf := spec_cycles cycles RegisterFile_new in
  reg_file s' = words rf ∧ RegisterFile_ok rf ∧
  (∀ i, CsrBus_ok i → rd_data (csr_clock i s') = (spec_clock i rf).2) ∧
  view_wavelength rf = map_err CsrProtocol (Wavelength_new (out_wavelength s')) ∧
  view_ctrl rf = Ok (out_ctrl s') ∧
  view_auth_tolerance rf = Ok (f32.div (f32.of_Z (out_auth_tolerance s')) (f32.of_Z 1000)) ∧
  secret_valid rf = Ok (out_secret_valid s') ∧
  shared_secret rf =
    Ok (if out_secret_valid s' then Some (SharedSecret_new (to_be_bytes 32 (out_secret s'))) else None) ∧
  (∀ id, 1 ≤ id < 32 → schema_payload_bytes id rf = Ok (lookup_schema_payload s' id)) ∧
  (∀ o, OamMode_ok o → charge o < 16 → schema_id_for_oam o rf = Ok (lookup_oam s' (charge o))).
Proof.
  intros Hr Hok Hcycles s' rf.
  assert (reg_file s' = words rf) as Hs.
  { unfold s', csr_run. cbn [fold_left]. apply run_spec; [done|]. unfold csr_clock. cbn [reg_file].
    by rewrite Hr. }
  assert (RegisterFile_ok rf) as Hrf by (apply spec_cycles_ok; [done|apply RegisterFile_new_ok]).
  split_and!; [done|done|intros; by apply clock_spec|..].
  - rewrite view_wavelength_abs. unfold out_wavelength.
    by rewrite (reg_word s' rf Hs 0 : reg s' OTAP_REG_WAVELENGTH = _).
  - rewrite view_ctrl_abs. unfold out_ctrl. by rewrite (reg_word s' rf Hs 1 : reg s' OTAP_REG_CTRL = _).
  - rewrite view_auth_tolerance_abs. unfold out_auth_tolerance.
    by rewrite (reg_word s' rf Hs 2 : reg s' OTAP_REG_AUTH_TOLERANCE = _).
  - rewrite secret_valid_abs. by rewrite (out_valid_word s' rf).
  - rewrite shared_secret_abs, (out_valid_word s' rf), (out_secret_abs s' rf) by done.
    rewrite to_from_be_bytes_array by apply secret_words_array. cbn [abs cfg_secret].
    by destruct (Z.testbit _ 0).
  - intros id Hid. rewrite schema_payload_bytes_abs by done. rewrite <- (Z2Nat.id id) at 2 by lia.
    rewrite (lookup_schema_payload_abs s' rf) by (done || lia).
    unfold abs. cbn [cfg_payloads]. by rewrite nth_lookup, list_lookup_fmap, lookup_seq_lt by lia.
  - intros o Ho Hc. rewrite schema_id_for_oam_abs by done.
    unfold OamMode_ok, OAM_MIN, OAM_MAX in Ho. rewrite (lookup_oam_abs s' rf) by (done || lia).
    unfold abs. cbn [cfg_oams]. by rewrite nth_lookup, list_lookup_fmap, lookup_seq_lt by lia.
Qed.

(** A bus cycle that writes, and reads the same address. *)
Definition write_cycle (addr data : Z) : CsrBus := mkCsrBus true true addr data true addr.

(** Reset, then the wavelength, a payload word, an OAM word, a misaligned write and one
    beyond the space. *)
Definition demo_cycles : list CsrBus :=
  [write_cycle 0x000 40; write_cycle 0x044 0x00200040; write_cycle 0x110 0x00000100;
   write_cycle 0x002 0xFFFF; write_cycle 0x400 7].

Lemma rtl_refines_register_file_witness :
  schema_payload_bytes 3 (spec_cycles demo_cycles RegisterFile_new) = Ok 32 ∧
  lookup_schema_payload (csr_run (mkCsrBus false false 0 0 false 0 :: demo_cycles)
    (mkCsrBlock [] 0)) 3 = 32.
Proof.
  split; [|vm_compute; reflexivity].
  refine (eq_trans (proj1 (proj2 (proj2 (proj2 (proj2 (proj2 (proj2 (proj2 (proj2
    (rtl_refines_register_file (mkCsrBlock [] 0) (mkCsrBus false false 0 0 false 0) demo_cycles
       eq_refl _ _))))))))) 3 _) _).
  all: first [repeat constructor; vm_compute; congruence | vm_compute; reflexivity].
Defined.
