(* ===== verification/BitPlane.v ===== *)
(** * Bit planes

    Numbers stored across bit vectors: bit [k] of plane [p] is bit [p] of the number in
    column [k].  The commit scanner of the hardware ([Rob.v]) and the lease index of the
    registry ([Bitweave.v]) compare all columns with a key at once by one [and] per
    plane; this file has the scan and the comparison it amounts to. *)

From S2P Require Import Prelude.
Local Open Scope Z_scope.

(** [acc & plane] for a set bit of the key, [acc & ~plane] for a clear one; plane [p] is
    the first of the list. *)
Fixpoint plane_scan (p : Z) (key : Z) (planes : list Z) (acc : Z) : Z :=
  match planes with
  | [] => acc
  | plane :: planes =>
      plane_scan (p + 1) key planes
        (if Z.testbit key p then Z.land acc plane else Z.land acc (Z.lnot plane))
  end.

(** The number in column [k]. *)
Fixpoint column (planes : list Z) (k : Z) : Z :=
  match planes with
  | [] => 0
  | plane :: planes => Z.b2z (Z.testbit plane k) + 2 * column planes k
  end.

(** A vector from its bits, bit 0 first. *)
Fixpoint of_bits (l : list bool) : Z :=
  match l with
  | [] => 0
  | b :: l => Z.b2z b + 2 * of_bits l
  end.

Lemma of_bits_column planes k : column planes k = of_bits ((λ plane, Z.testbit plane k) <$> planes).
Proof. induction planes as [|plane planes IH]; [done|]. cbn. by rewrite IH. Qed.

Lemma testbit_of_bits l i : 0 ≤ i → Z.testbit (of_bits l) i = default false (l !! Z.to_nat i).
Proof.
  revert i. induction l as [|b l IH]; intros i Hi; [apply Z.bits_0|]. cbn [of_bits].
  destruct (decide (i = 0)) as [->|Hne]; [apply Z.add_b2z_double_bit0|].
  replace i with (Z.succ (Z.pred i)) by lia.
  rewrite <- Z.div2_bits, Z.add_b2z_double_div2, IH, Z2Nat.inj_succ by lia. done.
Qed.

Lemma of_bits_uint l : in_uint (Z.of_nat (length l)) (of_bits l).
Proof.
  unfold in_uint. induction l as [|b l IH]; [cbn; lia|]. cbn [of_bits length].
  rewrite Nat2Z.inj_succ, Z.pow_succ_r by lia. destruct b; cbn [Z.b2z]; lia.
Qed.

Lemma column_uint planes k : in_uint (Z.of_nat (length planes)) (column planes k).
Proof. rewrite of_bits_column, <- (length_fmap (λ plane, Z.testbit plane k)). apply of_bits_uint. Qed.

Lemma testbit_column planes k p :
  0 ≤ p → Z.testbit (column planes k) p = default false ((λ plane, Z.testbit plane k) <$> planes !! Z.to_nat p).
Proof. intros Hp. by rewrite of_bits_column, testbit_of_bits, list_lookup_fmap by done. Qed.

(** Two numbers of [w] bits agree when their bits do. *)
Lemma uint_eq w a b :
  0 ≤ w → in_uint w a → in_uint w b → (∀ p, 0 ≤ p < w → Z.testbit a p = Z.testbit b p) → a = b.
Proof.
  intros Hw Ha Hb H. apply Z.bits_inj'. intros p Hp. destruct (decide (p < w)); [by apply H|].
  by rewrite !(uint_testbit_high w) by (done || lia).
Qed.

(** The scan from plane [p] on keeps the columns whose remaining bits are those of the
    key. *)
Lemma plane_scan_from k planes : ∀ p key acc, 0 ≤ p → 0 ≤ k →
  Z.testbit (plane_scan p key planes acc) k =
  Z.testbit acc k && (column planes k =? Z.shiftr key p mod 2 ^ Z.of_nat (length planes)).
Proof.
  induction planes as [|plane planes IH]; intros p key acc Hp Hk; cbn [plane_scan column length].
  { rewrite Z.mod_1_r, andb_true_r. done. }
  rewrite IH, Nat2Z.inj_succ, Z.pow_succ_r by lia.
  rewrite (Z.rem_mul_r _ 2) by (try apply Z.pow_nonzero; lia).
  replace (Z.shiftr key p / 2) with (Z.shiftr key (p + 1))
    by (rewrite <- Z.shiftr_shiftr by lia; by rewrite (Z.shiftr_div_pow2 (Z.shiftr key p) 1) by lia).
  rewrite <- (Z.bit0_mod (Z.shiftr key p)), Z.shiftr_spec, Z.add_0_l by lia.
  set (rest := Z.shiftr key (p + 1) mod _). destruct (Z.testbit key p).
  - rewrite Z.land_spec. destruct (Z.testbit plane k); cbn [Z.b2z]; [|rewrite andb_false_r; cbn [andb]].
    + rewrite andb_true_r. f_equal. apply eq_bool_prop_intro. rewrite !Is_true_true, !Z.eqb_eq. lia.
    + symmetry. apply andb_false_iff. right. apply Z.eqb_neq. lia.
  - rewrite Z.land_spec, Z.lnot_spec by done. destruct (Z.testbit plane k); cbn [Z.b2z negb].
    + rewrite andb_false_r. cbn [andb]. symmetry. apply andb_false_iff. right. apply Z.eqb_neq. lia.
    + rewrite andb_true_r. f_equal. apply eq_bool_prop_intro. rewrite !Is_true_true, !Z.eqb_eq. lia.
Qed.

(** The bit-parallel scan is the comparison of every column with the key. *)
Lemma plane_scan_spec key planes acc k :
  in_uint (Z.of_nat (length planes)) key → 0 ≤ k →
  Z.testbit (plane_scan 0 key planes acc) k = Z.testbit acc k && (column planes k =? key).
Proof.
  intros Hkey Hk. rewrite plane_scan_from, Z.shiftr_0_r by lia. by rewrite (Z.mod_small key).
Qed.

(** Writing a number into column [k], plane by plane. *)
Definition set_column (planes : list Z) (k v : Z) : list Z :=
  imap (λ p plane, set_field plane k 1 (Z.b2z (Z.testbit v (Z.of_nat p)))) planes.

Lemma set_column_length planes k v : length (set_column planes k v) = length planes.
Proof. apply length_imap. Qed.

Lemma b2z_uint b : in_uint 1 (Z.b2z b).
Proof. unfold in_uint. destruct b; cbn; lia. Qed.
#[export] Hint Resolve b2z_uint : otap.

Lemma column_set_column planes k v j :
  0 ≤ k → 0 ≤ j → in_uint (Z.of_nat (length planes)) v →
  column (set_column planes k v) j = if decide (j = k) then v else column planes j.
Proof.
  intros Hk Hj Hv. apply (uint_eq (Z.of_nat (length planes))); [lia| | |].
  - rewrite <- (set_column_length planes k v). apply column_uint.
  - case_decide; [done|apply column_uint].
  - intros p Hp. rewrite testbit_column by lia. unfold set_column. rewrite list_lookup_imap.
    assert (is_Some (planes !! Z.to_nat p)) as [plane Hplane] by (apply lookup_lt_is_Some; lia).
    rewrite Hplane. cbn [fmap option_fmap option_map default from_option].
    rewrite set_field_testbit by (auto with otap; lia). rewrite Z2Nat.id by lia. case_decide as D.
    + subst j. rewrite Z.leb_refl, (proj2 (Z.ltb_lt k (k + 1))), Z.sub_diag by lia.
      cbn [andb]. apply Z.b2z_bit0.
    + rewrite testbit_column, Hplane by lia. destruct (Z.leb_spec k j), (Z.ltb_spec j (k + 1)); try lia; done.
Qed.
