(* ===== verification/Rob.v ===== *)
(** * rtl: the reorder buffer's commit scanner

    Models [src/rtl/otap_rob_bitweave.v] with its default parameters: packets are stored
    in the slot given by the low bits of their sequence id, the id itself across bit
    planes, and the slot that holds the id to be committed next is found by a scan of
    the planes whose result is registered.

    [rob_clock] is one rising edge.  All [always] blocks read the registers as they were
    before it; two of them write [rob_valid] and [sid_plane], and the order in which
    their nonblocking assignments take effect is the parameter [commit_last]. *)

From S2P Require Import Prelude BitPlane.
From Stdlib Require Import ZifyNat.
Local Open Scope Z_scope.

Ltac Zify.zify_post_hook ::= Z.to_euclidean_division_equations.

(** ** The module *)

Definition SID_WIDTH : nat := 16.
Definition ROB_DEPTH : nat := 256.
Definition ROB_ADDR_WIDTH : Z := 8.

Record Rob : Type := mkRob {
  ingress_sid : Z;
  rob_data : list Z;
  rob_keep : list Z;
  rob_valid : list bool;
  sid_plane : list Z;
  commit_ptr : Z;
  match_vector_pipe : Z;
  match_valid_pipe : bool;
  m_axis_tdata : Z;
  m_axis_tkeep : Z;
  m_axis_tvalid : bool;
  m_axis_tlast : bool;
}.

(** The inputs sampled at an edge. *)
Record RobIn : Type := mkRobIn {
  rst : bool;
  s_axis_tdata : Z;
  s_axis_tkeep : Z;
  s_axis_tvalid : bool;
  s_axis_tlast : bool;
  m_axis_tready : bool;
}.

Definition write_idx (s : Rob) : Z := get_field (ingress_sid s) 0 ROB_ADDR_WIDTH.

Definition valid_at (valid : list bool) (k : Z) : bool := nth (Z.to_nat k) valid false.

Definition s_axis_tready (s : Rob) : bool := negb (valid_at (rob_valid s) (write_idx s)).

Definition accepts_packet (i : RobIn) (s : Rob) : bool :=
  s_axis_tvalid i && s_axis_tready s && s_axis_tlast i.

(** Stage 1: the match vector for [commit_ptr]. *)
Definition match_vector (s : Rob) : Z :=
  Z.land (plane_scan 0 (commit_ptr s) (sid_plane s) (Z.ones (Z.of_nat ROB_DEPTH)))
    (of_bits (rob_valid s)).

(** Stage 2: the priority encoder; the loop counts down, so the lowest bit wins. *)
Definition match_idx (s : Rob) : Z :=
  fold_left (λ idx k, if Z.testbit (match_vector_pipe s) k then k else idx)
    (Z.of_nat <$> reverse (seq 0 ROB_DEPTH)) 0.

Definition commits (i : RobIn) (s : Rob) : bool :=
  (m_axis_tready i || negb (m_axis_tvalid s)) && match_valid_pipe s.

(** The slots' valid bits and planes: what each block assigns. *)
Definition ingress_slots (i : RobIn) (s : Rob) (slots : list bool * list Z) : list bool * list Z :=
  if accepts_packet i s then
    (<[Z.to_nat (write_idx s) := true]> slots.1, set_column slots.2 (write_idx s) (ingress_sid s))
  else slots.

Definition commit_slots (i : RobIn) (s : Rob) (slots : list bool * list Z) : list bool * list Z :=
  if commits i s then
    (<[Z.to_nat (match_idx s) := false]> slots.1, set_column slots.2 (match_idx s) 0)
  else slots.

Definition rob_clock (commit_last : bool) (i : RobIn) (s : Rob) : Rob :=
  if rst i then
    mkRob 0 (rob_data s) (rob_keep s) (replicate ROB_DEPTH false) (replicate SID_WIDTH 0)
      0 0 false (m_axis_tdata s) (m_axis_tkeep s) false false
  else
    let slots := (rob_valid s, sid_plane s) in
    let slots := if commit_last then commit_slots i s (ingress_slots i s slots)
                 else ingress_slots i s (commit_slots i s slots) in
    let idx := Z.to_nat (write_idx s) in
    let out := m_axis_tready i || negb (m_axis_tvalid s) in
    mkRob
      (if accepts_packet i s then wrap 16 (ingress_sid s + 1) else ingress_sid s)
      (if accepts_packet i s then <[idx := s_axis_tdata i]> (rob_data s) else rob_data s)
      (if accepts_packet i s then <[idx := s_axis_tkeep i]> (rob_keep s) else rob_keep s)
      slots.1 slots.2
      (if commits i s then wrap 16 (commit_ptr s + 1) else commit_ptr s)
      (match_vector s) (negb (match_vector s =? 0))
      (if commits i s then nth (Z.to_nat (match_idx s)) (rob_data s) 0 else m_axis_tdata s)
      (if commits i s then nth (Z.to_nat (match_idx s)) (rob_keep s) 0 else m_axis_tkeep s)
      (if out then match_valid_pipe s else m_axis_tvalid s)
      (if out then match_valid_pipe s else m_axis_tlast s).

(** ** Reachable states *)

(** A state after a reset edge and any further edges. *)
Inductive rob_reachable (commit_last : bool) : Rob → Prop :=
| rob_reset i s :
    rst i = true → length (rob_data s) = ROB_DEPTH → length (rob_keep s) = ROB_DEPTH →
    rob_reachable commit_last (rob_clock commit_last i s)
| rob_edge i s : rob_reachable commit_last s → rob_reachable commit_last (rob_clock commit_last i s).

(** The sequence id stored in slot [k]. *)
Definition slot_sid (s : Rob) (k : Z) : Z := column (sid_plane s) k.

(** Valid bits and planes as the buffer keeps them: a valid slot [k] holds an id that
    belongs in it. *)
Definition slots_ok (slots : list bool * list Z) : Prop :=
  length slots.1 = ROB_DEPTH ∧ length slots.2 = SID_WIDTH ∧
  ∀ k, 0 ≤ k < 256 → valid_at slots.1 k = true → column slots.2 k mod 256 = k.

Record rob_inv (s : Rob) : Prop := {
  ri_slots : slots_ok (rob_valid s, sid_plane s);
  ri_sid : u16 (ingress_sid s);
  ri_ptr : u16 (commit_ptr s);
}.

Lemma write_idx_mod s : write_idx s = ingress_sid s mod 256.
Proof. unfold write_idx, get_field. by rewrite Z.shiftr_0_r, Z.land_ones by (unfold ROB_ADDR_WIDTH; lia). Qed.

Lemma valid_at_insert valid k j b :
  length valid = ROB_DEPTH → 0 ≤ k < 256 → 0 ≤ j →
  valid_at (<[Z.to_nat k := b]> valid) j = if decide (j = k) then b else valid_at valid j.
Proof.
  unfold valid_at, ROB_DEPTH. intros Hl Hk Hj. rewrite !nth_lookup, list_lookup_insert.
  case_decide as D; [|by rewrite decide_False by lia].
  by rewrite decide_True by lia.
Qed.

(** The encoder answers with a slot. *)
Lemma match_idx_range s : 0 ≤ match_idx s < 256.
Proof.
  unfold match_idx.
  assert (∀ l idx, Forall (λ k, 0 ≤ k < 256) l → 0 ≤ idx < 256 →
    0 ≤ fold_left (λ idx k, if Z.testbit (match_vector_pipe s) k then k else idx) l idx < 256) as Hfold.
  { intros l. induction l as [|k l IH]; intros idx Hall Hidx; [done|].
    apply Forall_cons in Hall as [Hk Hall]. apply IH; [done|]. by destruct (Z.testbit _ _). }
  apply Hfold; [|lia]. apply Forall_fmap, Forall_reverse, Forall_forall. intros k Hk%elem_of_seq.
  unfold ROB_DEPTH in Hk. unfold compose. lia.
Qed.

(** One bit set: the encoder finds it. *)
Lemma match_idx_single s k : 0 ≤ k < 256 → match_vector_pipe s = 2 ^ k → match_idx s = k.
Proof.
  intros Hk E. unfold match_idx. rewrite E.
  assert (∀ n, (n < 256)%nat → fold_left (λ idx k, if Z.testbit (2 ^ Z.of_nat n) k then k else idx)
    (Z.of_nat <$> reverse (seq 0 ROB_DEPTH)) 0 = Z.of_nat n) as Hall.
  { assert (Forall (λ n, fold_left (λ idx k, if Z.testbit (2 ^ Z.of_nat n) k then k else idx)
      (Z.of_nat <$> reverse (seq 0 ROB_DEPTH)) 0 = Z.of_nat n) (seq 0 256)) as H
      by (apply (bool_decide_eq_true_1 (Forall _ _)); vm_compute; reflexivity).
    intros n Hn. apply (Forall_lookup_1 _ _ n n) in H; [done|]. by apply lookup_seq. }
  replace k with (Z.of_nat (Z.to_nat k)) by lia. apply Hall. lia.
Qed.

Lemma ingress_slots_ok i s slots :
  rob_inv s → slots_ok slots → slots_ok (ingress_slots i s slots).
Proof.
  intros [_ Hsid _] (Hv & Hp & Hs). unfold ingress_slots. destruct (accepts_packet i s); [|done].
  rewrite write_idx_mod. split_and!; cbn [fst snd].
  - by rewrite length_insert.
  - by rewrite set_column_length.
  - intros k Hk. rewrite valid_at_insert, column_set_column by (try done; try (rewrite Hp; done); lia).
    case_decide; [by subst|by apply Hs].
Qed.

Lemma commit_slots_ok i s slots : slots_ok slots → slots_ok (commit_slots i s slots).
Proof.
  intros (Hv & Hp & Hs). unfold commit_slots. destruct (commits i s); [|done].
  pose proof (match_idx_range s). split_and!; cbn [fst snd].
  - by rewrite length_insert.
  - by rewrite set_column_length.
  - intros k Hk. rewrite valid_at_insert, column_set_column by (try done; try (rewrite Hp; done); lia).
    case_decide; [done|by apply Hs].
Qed.

Lemma rob_clock_inv b i s : rst i = true ∨ rob_inv s → rob_inv (rob_clock b i s).
Proof.
  intros Hi. unfold rob_clock. destruct (rst i) eqn:Hr.
  - split; cbn [rob_valid sid_plane ingress_sid commit_ptr]; [|unfold in_uint; lia..].
    split_and!; [done|done|]. intros k Hk. unfold valid_at. cbn [fst].
    by rewrite nth_lookup, lookup_replicate_2 by (unfold ROB_DEPTH; lia).
  - destruct Hi as [?|Hi]; [done|]. pose proof Hi as [Hs Hsid Hptr].
    split; cbn [rob_valid sid_plane ingress_sid commit_ptr].
    + rewrite <- surjective_pairing. destruct b.
      * apply commit_slots_ok. by apply ingress_slots_ok.
      * apply ingress_slots_ok; [done|]. by apply commit_slots_ok.
    + destruct (accepts_packet i s); [apply wrap_range; lia|done].
    + destruct (commits i s); [apply wrap_range; lia|done].
Qed.

Lemma rob_reachable_inv b s : rob_reachable b s → rob_inv s.
Proof. induction 1; apply rob_clock_inv; auto. Qed.

(** ** The scan *)

Definition committable (s : Rob) : bool :=
  let k := commit_ptr s mod 256 in valid_at (rob_valid s) k && (slot_sid s k =? commit_ptr s).

Lemma match_vector_testbit s k :
  rob_inv s → 0 ≤ k →
  Z.testbit (match_vector s) k = valid_at (rob_valid s) k && (slot_sid s k =? commit_ptr s).
Proof.
  intros [(Hv & Hp & _) _ Hptr] Hk. cbn [fst snd] in *. unfold match_vector.
  rewrite Z.land_spec, plane_scan_spec, testbit_of_bits by (try done; rewrite Hp; done).
  rewrite Z.testbit_ones_nonneg by (unfold ROB_DEPTH; lia). unfold valid_at.
  rewrite nth_lookup. destruct (Z.ltb_spec k (Z.of_nat ROB_DEPTH)); cbn [andb]; [apply andb_comm|].
  by rewrite lookup_ge_None_2 by lia.
Qed.

Lemma match_vector_spec s :
  rob_inv s → match_vector s = if committable s then 2 ^ (commit_ptr s mod 256) else 0.
Proof.
  intros Hs. pose proof (ri_ptr s Hs) as Hptr. pose proof (ri_slots s Hs) as (Hl & _ & Hsl).
  apply Z.bits_inj'. intros k Hk. rewrite match_vector_testbit by done. unfold committable.
  set (j := commit_ptr s mod 256). assert (0 ≤ j < 256) as Hj by (unfold j; lia).
  destruct (decide (k = j)) as [->|Hne].
  - destruct (_ && _); [by rewrite Z.pow2_bits_true by lia|by rewrite Z.bits_0].
  - transitivity false; [|destruct (_ && _); [by rewrite Z.pow2_bits_false by lia|by rewrite Z.bits_0]].
    apply andb_false_iff. destruct (valid_at (rob_valid s) k) eqn:E; [right|by left].
    apply Z.eqb_neq. intros Heq. destruct (decide (k < 256)).
    + apply (Hsl k) in E; [|lia]. apply Hne. unfold j. rewrite <- Heq. done.
    + unfold valid_at in E. rewrite nth_overflow in E; [done|]. cbn [fst] in Hl. unfold ROB_DEPTH in Hl. lia.
Qed.

(** ** Properties *)

(** C25: The bit-woven scan finds the slot to commit.  In every reachable state, an edge
    registers a match vector with at most one bit: that of slot [commit_ptr mod 256],
    set exactly when this slot is valid and holds the id [commit_ptr]; and the priority
    encoder then answers with this slot.  So the parallel scan over planes and slots
    computes what one indexed comparison would. *)
Theorem rob_scan_exact (commit_last : bool) (s : Rob) (i : RobIn) :
  rob_reachable commit_last s → rst i = false →
  let s' := rob_clock commit_last i s in
  let k := commit_ptr s mod 256 in
  let hit := valid_at (rob_valid s) k && (slot_sid s k =? commit_ptr s) in
  match_vector_pipe s' = (if hit then 2 ^ k else 0) ∧
  match_valid_pipe s' = hit ∧
  (hit = true → match_idx s' = k).
Proof.
  intros Hs%rob_reachable_inv Hi s' k hit. pose proof (ri_ptr s Hs) as Hptr.
  assert (match_vector_pipe s' = if hit then 2 ^ k else 0) as E.
  { unfold s', rob_clock. rewrite Hi. cbn [match_vector_pipe]. by apply match_vector_spec. }
  split_and!; [done| |].
  - unfold s', rob_clock in *. rewrite Hi in *. cbn [match_vector_pipe match_valid_pipe] in *.
    rewrite E. destruct hit; [|done].
    assert (0 < 2 ^ k) by (apply Z.pow_pos_nonneg; unfold k; lia).
    destruct (Z.eqb_spec (2 ^ k) 0); [lia|done].
  - intros Hhit. apply match_idx_single; [unfold k; lia|]. by rewrite E, Hhit.
Qed.

(** A packet of one beat, and an idle edge; the sink is ready. *)
Definition beat (data : Z) : RobIn := mkRobIn false data 0 true true true.
Definition idle : RobIn := mkRobIn false 0 0 false false true.

Definition rob_run (commit_last : bool) (inputs : list RobIn) (s : Rob) : Rob :=
  fold_left (λ s i, rob_clock commit_last i s) inputs s.

Definition blank : Rob :=
  mkRob 0 (replicate ROB_DEPTH 0) (replicate ROB_DEPTH 0) (replicate ROB_DEPTH false)
    (replicate SID_WIDTH 0) 0 0 false 0 0 false false.

Lemma blank_reachable b : rob_reachable b blank.
Proof. apply (rob_reset b (mkRobIn true 0 0 false false false) blank); done. Qed.

Lemma rob_scan_exact_witness :
  match_valid_pipe (rob_clock true idle (rob_run true [beat 101] blank)) = true ∧
  match_idx (rob_clock true idle (rob_run true [beat 101] blank)) = 0.
Proof.
  pose proof (rob_scan_exact true (rob_run true [beat 101] blank) idle
    (rob_edge true (beat 101) blank (blank_reachable true)) eq_refl) as (_ & Hv & Hi).
  split; [rewrite Hv; vm_compute; reflexivity|]. apply Hi. vm_compute. reflexivity.
Defined.

Lemma rob_run_fixed b i n s : rob_clock b i s = s → rob_run b (replicate n i) s = s.
Proof. intros Hs. induction n as [|n IH]; [done|]. cbn. by rewrite Hs. Qed.

Lemma rob_run_cons b i l s : rob_run b (i :: l) s = rob_run b l (rob_clock b i s).
Proof. reflexivity. Qed.

Lemma rob_run_app b l1 l2 s : rob_run b (l1 ++ l2) s = rob_run b l2 (rob_run b l1 s).
Proof. apply fold_left_app. Qed.

(** Packets with a gap between them are not delivered one by one.  After reset and with
    a sink that is always ready, a single packet leaves the buffer twice, on consecutive
    edges: the scan registered at the edge of the commit still used the old pointer.  The
    pointer has then passed the next id, so the packet that arrives next, after any
    number of idle edges, stays in its slot and is never sent, however long one waits. *)
Theorem rob_gap_duplicates_and_loses (commit_last : bool) (d1 d2 : Z) (n m : nat) :
  let sent s := if m_axis_tvalid s then Some (m_axis_tdata s) else None in
  let s1 := rob_run commit_last [beat d1; idle; idle] blank in
  let s2 := rob_clock commit_last idle s1 in
  let s3 := rob_run commit_last (replicate (1 + n) idle ++ beat d2 :: replicate m idle) s2 in
  sent s1 = Some d1 ∧ sent s2 = Some d1 ∧ sent s3 = None ∧
  commit_ptr s3 = 2 ∧ valid_at (rob_valid s3) 1 = true ∧ slot_sid s3 1 = 1 ∧
  nth 1 (rob_data s3) 0 = d2.
Proof.
  cbv zeta. set (s2 := rob_clock _ _ _). set (s2' := rob_clock commit_last idle s2).
  assert (rob_clock commit_last idle s2' = s2') as H2 by (destruct commit_last; vm_compute; reflexivity).
  set (s3 := rob_clock commit_last (beat d2) s2').
  assert (rob_clock commit_last idle s3 = s3) as H3 by (destruct commit_last; vm_compute; reflexivity).
  rewrite rob_run_app. cbn [replicate Nat.add].
  rewrite !rob_run_cons. fold s2'. rewrite (rob_run_fixed _ _ n _ H2). fold s3.
  rewrite (rob_run_fixed _ _ m _ H3).
  destruct commit_last; split_and!; vm_compute; reflexivity.
Qed.
