(* ===== verification/Bitweave.v ===== *)
(** * flr: the bit-woven lease index

    Models [src/flr/internal/bitweave]: the lease index of [bitweave.go], its buffered
    form of [bitweave_buffered.go] (the portable scan; the assembly is not part of the
    sources).  An attribute of up to 1024 leases is stored
    in bit planes of sixteen 64-bit words; a query compares all leases with a proposal by
    one [and] per plane and word.  A Go slice handed back is the list of its elements. *)

From stdpp Require Import gmap strings.
From S2P Require Import Prelude BitPlane.
From Stdlib Require Import ZifyNat.
Local Open Scope Z_scope.

Ltac Zify.zify_post_hook ::= Z.to_euclidean_division_equations.

(** ** The index *)

Definition MaxLeases : nat := 1024.
Definition wordsPerPlane : nat := MaxLeases / 64.

Record LeaseIndex : Type := mkLeaseIndex {
  ChannelNum : list (list Z);
  AwgID : list (list Z);
  TenantID : list (list Z);
  AwgPort : list (list Z);
  Active : list Z;
  Exclusive : list Z;
  LeaseIDs : list text;
  Count : nat;
}.

Definition zero_plane : list Z := replicate wordsPerPlane 0.

Definition NewLeaseIndex : LeaseIndex :=
  mkLeaseIndex (replicate 32 zero_plane) (replicate 16 zero_plane) (replicate 16 zero_plane)
    (replicate 16 zero_plane) zero_plane zero_plane (replicate MaxLeases []) 0.

(** The attributes of a lease, stored or proposed. *)
Record Attrs : Type := mkAttrs {
  at_channel : Z;
  at_awg : Z;
  at_tenant : Z;
  at_port : Z;
  at_exclusive : bool;
}.

(** [plane[word] |= 1 << bit]. *)
Definition set_bit (slot : nat) (plane : list Z) : list Z :=
  alter (λ x, Z.lor x (Z.shiftl 1 (Z.of_nat (slot mod 64)))) (slot / 64)%nat plane.

(** [plane[word] &= ^(1 << bit)]. *)
Definition clear_bit (slot : nat) (plane : list Z) : list Z :=
  alter (λ x, Z.land x (Z.lnot (Z.shiftl 1 (Z.of_nat (slot mod 64))))) (slot / 64)%nat plane.

(** The loop over the planes of one attribute. *)
Definition set_attr (slot : nat) (v : Z) (planes : list (list Z)) : list (list Z) :=
  imap (λ p plane, if Z.testbit v (Z.of_nat p) then set_bit slot plane else plane) planes.

Definition clear_attr (slot : nat) (planes : list (list Z)) : list (list Z) :=
  clear_bit slot <$> planes.

(** [None]: the index is full. *)
Definition Insert (idx : LeaseIndex) (leaseID : text) (a : Attrs) : option (LeaseIndex * nat) :=
  if (MaxLeases <=? Count idx)%nat then None
  else
    let slot := Count idx in
    Some (mkLeaseIndex
      (set_attr slot (at_channel a) (ChannelNum idx))
      (set_attr slot (at_awg a) (AwgID idx))
      (set_attr slot (at_tenant a) (TenantID idx))
      (set_attr slot (at_port a) (AwgPort idx))
      (set_bit slot (Active idx))
      (if at_exclusive a then set_bit slot (Exclusive idx) else Exclusive idx)
      (<[slot := leaseID]> (LeaseIDs idx))
      (S slot), slot).

Definition Remove (idx : LeaseIndex) (slot : Z) : LeaseIndex :=
  if (slot <? 0) || (Z.of_nat MaxLeases <=? slot) then idx
  else
    let slot := Z.to_nat slot in
    mkLeaseIndex (clear_attr slot (ChannelNum idx)) (clear_attr slot (AwgID idx))
      (clear_attr slot (TenantID idx)) (clear_attr slot (AwgPort idx))
      (clear_bit slot (Active idx)) (clear_bit slot (Exclusive idx))
      (<[slot := []]> (LeaseIDs idx)) (Count idx).

Inductive ConflictType : Type := LambdaCollision | AwgPortCollision | TenantIsolation.

Record Conflict : Type := mkConflict {
  cf_type : ConflictType;
  cf_lease : text;
  cf_slot : nat;
}.

(** ** Queries *)

(** The words in use. *)
Definition words_of (idx : LeaseIndex) : nat := (Count idx + 63) / 64.

(** The nested loops over planes and words; plane [p] is the first of the list. *)
Fixpoint match_attr (p : Z) (key : Z) (words : nat) (planes : list (list Z)) (acc : list Z) : list Z :=
  match planes with
  | [] => acc
  | plane :: planes =>
      match_attr (p + 1) key words planes
        (imap (λ w x,
           if (w <? words)%nat then
             if Z.testbit key p then Z.land x (nth w plane 0) else Z.land x (Z.lnot (nth w plane 0))
           else x) acc)
  end.

(** [bits.TrailingZeros64]. *)
Definition TrailingZeros64 (b : Z) : nat :=
  default 64%nat (list_find (λ i, Z.testbit b (Z.of_nat i) = true) (seq 0 64) ≫= λ r, Some r.2).

(** The loop that peels the set bits of a word, lowest first. *)
Fixpoint peel (fuel : nat) (b : Z) : list nat :=
  match fuel with
  | O => []
  | S fuel => if b =? 0 then [] else TrailingZeros64 b :: peel fuel (Z.land b (b - 1))
  end.

(** A word has at most 64 set bits. *)
Definition bits_of (b : Z) : list nat := peel 64 b.

(** [for w := 0; w < words; w++ { x[w] = f(w) }] on a zeroed array. *)
Definition fill_words (words : nat) (f : nat → Z) : list Z :=
  (λ w, if (w <? words)%nat then f w else 0) <$> seq 0 wordsPerPlane.

(** [x[exWord] &= exMask], when the excluded slot is one. *)
Definition exclude (excludeSlot : Z) (x : list Z) : list Z :=
  if (0 <=? excludeSlot) && (excludeSlot <? Z.of_nat MaxLeases)
  then clear_bit (Z.to_nat excludeSlot) x else x.

Section query.
Context (idx : LeaseIndex).

Definition conflicts_at (t : ConflictType) (w : nat) (mask : list Z) : list Conflict :=
  (λ trail, let slot := (w * 64 + trail)%nat in mkConflict t (nth slot (LeaseIDs idx) []) slot)
    <$> bits_of (nth w mask 0).

Definition extractConflicts (lambda port tenant : list Z) : list Conflict :=
  concat ((λ w,
    conflicts_at LambdaCollision w lambda ++ conflicts_at AwgPortCollision w port ++
    conflicts_at TenantIsolation w tenant) <$> seq 0 (words_of idx)).

(** [bitweave.go]: one array and one loop per mask, the extraction inlined. *)
Definition CheckConflicts (a : Attrs) (excludeSlot : Z) : list Conflict :=
  let words := words_of idx in
  if (words =? 0)%nat then []
  else
    let channelMatch := match_attr 0 (at_channel a) words (ChannelNum idx) (Active idx) in
    let awgMatch := match_attr 0 (at_awg a) words (AwgID idx) (Active idx) in
    let portMatch := match_attr 0 (at_port a) words (AwgPort idx) (Active idx) in
    let tenantMatch := match_attr 0 (at_tenant a) words (TenantID idx) (Active idx) in
    let differentTenant :=
      fill_words words (λ w, Z.land (nth w (Active idx) 0) (Z.lnot (nth w tenantMatch 0))) in
    let proposedExclMask := if at_exclusive a then 2 ^ 64 - 1 else 0 in
    let lambdaConflicts :=
      fill_words words (λ w,
        let sameChannelSameAwg := Z.land (nth w channelMatch 0) (nth w awgMatch 0) in
        Z.land sameChannelSameAwg (Z.lor (nth w (Exclusive idx) 0) proposedExclMask)) in
    let portConflicts := fill_words words (λ w, Z.land (nth w awgMatch 0) (nth w portMatch 0)) in
    let tenantConflicts :=
      fill_words words (λ w,
        let sameChannelSameAwg := Z.land (nth w channelMatch 0) (nth w awgMatch 0) in
        Z.land sameChannelSameAwg (nth w differentTenant 0)) in
    let lambdaConflicts := exclude excludeSlot lambdaConflicts in
    let portConflicts := exclude excludeSlot portConflicts in
    let tenantConflicts := exclude excludeSlot tenantConflicts in
    concat ((λ w,
      conflicts_at LambdaCollision w lambdaConflicts ++
      conflicts_at AwgPortCollision w portConflicts ++
      conflicts_at TenantIsolation w tenantConflicts) <$> seq 0 words).

(** [bitweave_buffered.go]: the masks in one pass, then the extraction. *)
Definition computeConflictMasks (a : Attrs) (excludeSlot : Z) : list Z * list Z * list Z :=
  let words := words_of idx in
  if (words =? 0)%nat then (zero_plane, zero_plane, zero_plane)
  else
    let channelMatch := match_attr 0 (at_channel a) words (ChannelNum idx) (Active idx) in
    let awgMatch := match_attr 0 (at_awg a) words (AwgID idx) (Active idx) in
    let portMatch := match_attr 0 (at_port a) words (AwgPort idx) (Active idx) in
    let tenantMatch := match_attr 0 (at_tenant a) words (TenantID idx) (Active idx) in
    let proposedExclMask := if at_exclusive a then 2 ^ 64 - 1 else 0 in
    let differentTenant :=
      fill_words words (λ w, Z.land (nth w (Active idx) 0) (Z.lnot (nth w tenantMatch 0))) in
    let sameChAwg w := Z.land (nth w channelMatch 0) (nth w awgMatch 0) in
    let lambda :=
      fill_words words (λ w, Z.land (sameChAwg w) (Z.lor (nth w (Exclusive idx) 0) proposedExclMask)) in
    let port := fill_words words (λ w, Z.land (nth w awgMatch 0) (nth w portMatch 0)) in
    let tenant := fill_words words (λ w, Z.land (sameChAwg w) (nth w differentTenant 0)) in
    (exclude excludeSlot lambda, exclude excludeSlot port, exclude excludeSlot tenant).

(** The results start at [buf[:0]]: what the buffer held does not matter. *)
Definition CheckConflictsBuf (a : Attrs) (excludeSlot : Z) (buf : list Conflict) : list Conflict :=
  let '(lambda, port, tenant) := computeConflictMasks a excludeSlot in
  take 0 buf ++ extractConflicts lambda port tenant.

Record LensSnapshot : Type := mkSnapshot {
  ls_lease : text;
  ls_attrs : Attrs;
  ls_slot : nat;
}.

(** [v |= 1 << p] for every plane [p] with the bit set. *)
Fixpoint gather_from (p : nat) (planes : list (list Z)) (w trail : nat) (v : Z) : Z :=
  match planes with
  | [] => v
  | plane :: planes =>
      gather_from (S p) planes w trail
        (if Z.testbit (nth w plane 0) (Z.of_nat trail) then Z.lor v (Z.shiftl 1 (Z.of_nat p)) else v)
  end.

Definition gather (planes : list (list Z)) (w trail : nat) : Z := gather_from 0 planes w trail 0.

Definition Lens : list LensSnapshot :=
  concat ((λ w, (λ trail,
    let slot := (w * 64 + trail)%nat in
    mkSnapshot (nth slot (LeaseIDs idx) [])
      (mkAttrs (gather (ChannelNum idx) w trail) (gather (AwgID idx) w trail)
        (gather (TenantID idx) w trail) (gather (AwgPort idx) w trail)
        (Z.testbit (nth w (Exclusive idx) 0) (Z.of_nat trail))) slot)
    <$> bits_of (nth w (Active idx) 0)) <$> seq 0 (words_of idx)).
End query.

(** ** Bits of a plane *)

Lemma testbit_one i : i ≠ 0 → Z.testbit 1 i = false.
Proof. intros Hi. change 1 with (2 ^ 0). apply Z.pow2_bits_false. lia. Qed.

(** Bit [k] of a plane, over its words. *)
Definition plane_bit (plane : list Z) (k : nat) : bool :=
  Z.testbit (nth (k / 64) plane 0) (Z.of_nat (k mod 64)).

(** The number the planes of an attribute hold for slot [k]. *)
Definition attr_at (planes : list (list Z)) (k : nat) : Z :=
  of_bits ((λ plane, plane_bit plane k) <$> planes).

Definition plane_ok (plane : list Z) : Prop := length plane = wordsPerPlane ∧ Forall (in_uint 64) plane.

Lemma nth_alter {A} (f : A → A) i l j (d : A) :
  (i < length l)%nat → nth j (alter f i l) d = if decide (j = i) then f (nth j l d) else nth j l d.
Proof.
  intros Hi. rewrite !nth_lookup, list_lookup_alter. destruct (decide (j = i)) as [->|Hne].
  - rewrite decide_True by done. by destruct (lookup_lt_is_Some_2 l i Hi) as [x ->].
  - by rewrite decide_False by done.
Qed.

Lemma bw_same_slot k slot : (k / 64 = slot / 64 → k mod 64 = slot mod 64 → k = slot)%nat.
Proof. lia. Qed.

Lemma set_bit_bit slot plane k :
  length plane = wordsPerPlane → (slot < MaxLeases)%nat →
  plane_bit (set_bit slot plane) k = bool_decide (k = slot) || plane_bit plane k.
Proof.
  intros Hl Hs. unfold plane_bit, set_bit. change wordsPerPlane with 16%nat in Hl.
  unfold MaxLeases in Hs. rewrite nth_alter by lia.
  case_decide as D; [|rewrite bool_decide_false by (intros ->; lia); done].
  rewrite Z.lor_spec, Z.shiftl_spec, orb_comm by lia. f_equal.
  destruct (decide (k = slot)) as [->|Hne].
  - by rewrite bool_decide_true, Z.sub_diag.
  - rewrite bool_decide_false by done. apply testbit_one. intros E. apply Hne, bw_same_slot; lia.
Qed.

Lemma clear_bit_bit slot plane k :
  length plane = wordsPerPlane → (slot < MaxLeases)%nat →
  plane_bit (clear_bit slot plane) k = negb (bool_decide (k = slot)) && plane_bit plane k.
Proof.
  intros Hl Hs. unfold plane_bit, clear_bit. change wordsPerPlane with 16%nat in Hl.
  unfold MaxLeases in Hs. rewrite nth_alter by lia.
  case_decide as D; [|rewrite bool_decide_false by (intros ->; lia); done].
  rewrite Z.land_spec, Z.lnot_spec, Z.shiftl_spec, andb_comm by lia. f_equal. f_equal.
  destruct (decide (k = slot)) as [->|Hne].
  - by rewrite bool_decide_true, Z.sub_diag.
  - rewrite bool_decide_false by done. apply testbit_one. intros E. apply Hne, bw_same_slot; lia.
Qed.

Lemma alter_plane_ok f slot plane :
  (∀ x, in_uint 64 x → in_uint 64 (f x)) → plane_ok plane → plane_ok (alter f (slot / 64)%nat plane).
Proof.
  intros Hf [Hl Hu]. split; [by rewrite length_alter|]. apply Forall_alter; [done|]. auto.
Qed.

Lemma set_bit_ok slot plane : plane_ok plane → plane_ok (set_bit slot plane).
Proof.
  apply alter_plane_ok. intros x Hx. apply uint_of_testbit; [lia| |].
  - unfold in_uint in Hx. apply Z.lor_nonneg. split; [lia|]. apply Z.shiftl_nonneg. lia.
  - intros i Hi. rewrite Z.lor_spec, (uint_testbit_high 64 x), Z.shiftl_spec by (done || lia).
    apply testbit_one. lia.
Qed.

Lemma clear_bit_ok slot plane : plane_ok plane → plane_ok (clear_bit slot plane).
Proof.
  apply alter_plane_ok. intros x Hx. apply uint_of_testbit; [lia| |].
  - unfold in_uint in Hx. apply Z.land_nonneg. lia.
  - intros i Hi. by rewrite Z.land_spec, (uint_testbit_high 64 x) by (done || lia).
Qed.

(** ** Attributes *)

Definition planes_ok (n : nat) (planes : list (list Z)) : Prop :=
  length planes = n ∧ Forall plane_ok planes.

Lemma testbit_attr planes k p :
  0 ≤ p → Z.testbit (attr_at planes k) p = default false ((λ plane, plane_bit plane k) <$> planes !! Z.to_nat p).
Proof. intros Hp. unfold attr_at. by rewrite testbit_of_bits, list_lookup_fmap. Qed.

Lemma attr_uint n planes k : length planes = n → in_uint (Z.of_nat n) (attr_at planes k).
Proof. intros <-. rewrite <- (length_fmap (λ plane, plane_bit plane k)). apply of_bits_uint. Qed.

Lemma set_attr_ok n slot v planes : planes_ok n planes → planes_ok n (set_attr slot v planes).
Proof.
  intros [Hl Hp]. split; [unfold set_attr; by rewrite length_imap|].
  apply Forall_lookup_2. intros p plane Hlk. unfold set_attr in Hlk.
  rewrite list_lookup_imap in Hlk. apply fmap_Some in Hlk as (q & Hq & ->).
  eapply Forall_lookup_1 in Hp; [|exact Hq]. destruct (Z.testbit _ _); [by apply set_bit_ok|done].
Qed.

Lemma clear_attr_ok n slot planes : planes_ok n planes → planes_ok n (clear_attr slot planes).
Proof.
  intros [Hl Hp]. split; [unfold clear_attr; by rewrite length_fmap|].
  apply Forall_fmap. eapply Forall_impl; [exact Hp|]. intros plane. apply clear_bit_ok.
Qed.

(** Compare two attributes bit by bit: plane [p] is there. *)
Ltac attr_bits n planes Hplanes :=
  apply (uint_eq (Z.of_nat n)); [lia|apply attr_uint; unfold set_attr, clear_attr;
    rewrite ?length_imap, ?length_fmap; apply Hplanes|
    repeat case_decide; try done; first [by apply attr_uint, Hplanes | unfold in_uint; lia]|];
  let p := fresh "p" in let Hp := fresh "Hp" in intros p Hp;
  let plane := fresh "plane" in let Hlk := fresh "Hlk" in
  assert (is_Some (planes !! Z.to_nat p)) as [plane Hlk]
    by (apply lookup_lt_is_Some; destruct Hplanes; lia);
  let Hok := fresh "Hok" in
  assert (plane_ok plane) as Hok by (eapply Forall_lookup_1; [apply Hplanes|exact Hlk]);
  rewrite testbit_attr by lia.

Lemma attr_set_attr n slot v planes k :
  planes_ok n planes → (slot < MaxLeases)%nat → in_uint (Z.of_nat n) v → attr_at planes slot = 0 →
  attr_at (set_attr slot v planes) k = if decide (k = slot) then v else attr_at planes k.
Proof.
  intros Hplanes Hs Hv H0. attr_bits n planes Hplanes. unfold set_attr.
  rewrite list_lookup_imap, Hlk. cbn [fmap option_fmap option_map default from_option].
  rewrite Z2Nat.id by lia.
  pose proof (testbit_attr planes k p ltac:(lia)) as Hk. rewrite Hlk in Hk. cbn in Hk.
  destruct (decide (k = slot)) as [->|Hne].
  - rewrite H0, Z.bits_0 in Hk. destruct (Z.testbit v p); [|by rewrite Hk].
    rewrite set_bit_bit by (apply Hok || done). by rewrite bool_decide_true.
  - rewrite Hk. destruct (Z.testbit v p); [|done].
    rewrite set_bit_bit by (apply Hok || done). by rewrite bool_decide_false.
Qed.

Lemma attr_clear_attr n slot planes k :
  planes_ok n planes → (slot < MaxLeases)%nat →
  attr_at (clear_attr slot planes) k = if decide (k = slot) then 0 else attr_at planes k.
Proof.
  intros Hplanes Hs. attr_bits n planes Hplanes. unfold clear_attr.
  rewrite list_lookup_fmap, Hlk. cbn [fmap option_fmap option_map default from_option].
  rewrite clear_bit_bit by (apply Hok || done). case_decide as D.
  - by rewrite bool_decide_true, Z.bits_0.
  - rewrite bool_decide_false by done. rewrite testbit_attr by lia. by rewrite Hlk.
Qed.

(** ** What an index holds *)

Abbreviation entry := (text * Attrs)%type.

Definition Attrs_ok (a : Attrs) : Prop := u32 (at_channel a) ∧ u16 (at_awg a) ∧ u16 (at_tenant a) ∧ u16 (at_port a).

(** The bits of slot [k]: those of a live lease, or none. *)
Definition slot_holds (idx : LeaseIndex) (k : nat) (e : option entry) : Prop :=
  match e with
  | Some (id, a) =>
      plane_bit (Active idx) k = true ∧ plane_bit (Exclusive idx) k = at_exclusive a ∧
      attr_at (ChannelNum idx) k = at_channel a ∧ attr_at (AwgID idx) k = at_awg a ∧
      attr_at (TenantID idx) k = at_tenant a ∧ attr_at (AwgPort idx) k = at_port a ∧
      LeaseIDs idx !! k = Some id
  | None =>
      plane_bit (Active idx) k = false ∧ plane_bit (Exclusive idx) k = false ∧
      attr_at (ChannelNum idx) k = 0 ∧ attr_at (AwgID idx) k = 0 ∧
      attr_at (TenantID idx) k = 0 ∧ attr_at (AwgPort idx) k = 0
  end.

(** The index stands for a list of slots, each with a live lease or cleared. *)
Record represents (idx : LeaseIndex) (slots : list (option entry)) : Prop := {
  rp_channel : planes_ok 32 (ChannelNum idx);
  rp_awg : planes_ok 16 (AwgID idx);
  rp_tenant : planes_ok 16 (TenantID idx);
  rp_port : planes_ok 16 (AwgPort idx);
  rp_active : plane_ok (Active idx);
  rp_exclusive : plane_ok (Exclusive idx);
  rp_ids : length (LeaseIDs idx) = MaxLeases;
  rp_count : Count idx = length slots;
  rp_max : (length slots ≤ MaxLeases)%nat;
  rp_slots : ∀ k, (k < MaxLeases)%nat → slot_holds idx k (mjoin (slots !! k));
}.

Lemma zero_plane_ok : plane_ok zero_plane.
Proof. split; [done|]. apply Forall_replicate. unfold in_uint. lia. Qed.

Lemma zero_planes_ok n : planes_ok n (replicate n zero_plane).
Proof. split; [apply length_replicate|]. apply Forall_replicate, zero_plane_ok. Qed.

Lemma zero_plane_bit k : plane_bit zero_plane k = false.
Proof.
  unfold plane_bit, zero_plane. rewrite nth_lookup.
  destruct (replicate wordsPerPlane 0 !! (k / 64)%nat) as [x|] eqn:E; [|apply Z.bits_0].
  apply lookup_replicate in E as [-> _]. apply Z.bits_0.
Qed.

Lemma zero_attr n k : attr_at (replicate n zero_plane) k = 0.
Proof.
  unfold attr_at. induction n as [|n IH]; [done|].
  change (Z.b2z (plane_bit zero_plane k) +
    2 * of_bits ((λ plane, plane_bit plane k) <$> replicate n zero_plane) = 0).
  by rewrite IH, zero_plane_bit.
Qed.

Lemma new_represents : represents NewLeaseIndex [].
Proof.
  split; try apply zero_planes_ok; try apply zero_plane_ok; try done; [cbn; lia|].
  intros k Hk. change (slot_holds NewLeaseIndex k None).
  repeat split; first [apply zero_plane_bit | apply zero_attr].
Qed.

Lemma slot_update (slots : list (option entry)) slot e k :
  (slot < length slots)%nat →
  mjoin (<[slot := e]> slots !! k) = if decide (k = slot) then e else mjoin (slots !! k).
Proof.
  intros Hs. rewrite list_lookup_insert. destruct (decide (k = slot)) as [->|Hne].
  - by rewrite decide_True.
  - by rewrite decide_False by naive_solver.
Qed.

Lemma slot_append (slots : list (option entry)) e k :
  mjoin ((slots ++ [e]) !! k) = if decide (k = length slots) then e else mjoin (slots !! k).
Proof.
  destruct (decide (k = length slots)) as [->|Hne]; [by rewrite list_lookup_middle|].
  destruct (decide (k < length slots)%nat); [by rewrite lookup_app_l|].
  rewrite !lookup_ge_None_2; [done|lia|rewrite length_app; cbn; lia].
Qed.

Lemma bw_insert_represents idx slots id a :
  represents idx slots → Attrs_ok a → (length slots < MaxLeases)%nat →
  ∃ idx', Insert idx id a = Some (idx', length slots) ∧ represents idx' (slots ++ [Some (id, a)]).
Proof.
  intros Hr (Hch & Hawg & Hten & Hport) Hlt. unfold Insert. rewrite (rp_count _ _ Hr).
  destruct (Nat.leb_spec MaxLeases (length slots)); [lia|]. eexists. split; [reflexivity|].
  pose proof (rp_slots _ _ Hr (length slots) Hlt) as Hnew.
  rewrite lookup_ge_None_2 in Hnew by done. destruct Hnew as (Ha0 & He0 & Hc0 & Hw0 & Ht0 & Hp0).
  pose proof Hr as [Rc Ra Rt Rp RA RE Ri _ _ Rs].
  split; cbn [ChannelNum AwgID TenantID AwgPort Active Exclusive LeaseIDs Count];
    try (by apply set_attr_ok); try (by apply set_bit_ok).
  - destruct (at_exclusive a); [by apply set_bit_ok|done].
  - by rewrite length_insert.
  - rewrite length_app. cbn. lia.
  - rewrite length_app. cbn. lia.
  - intros k Hk. specialize (Rs k Hk). rewrite slot_append.
    destruct (decide (k = length slots)) as [->|Hne].
    + unfold slot_holds. cbn [ChannelNum AwgID TenantID AwgPort Active Exclusive LeaseIDs].
      rewrite !(attr_set_attr 32), !(attr_set_attr 16), set_bit_bit by (done || apply RA).
      rewrite bool_decide_true by done. repeat rewrite decide_True by done.
      split_and!; try done; [|by rewrite list_lookup_insert_eq by (rewrite Ri; lia)].
      destruct (at_exclusive a); [|done]. rewrite set_bit_bit by (done || apply RE).
      by rewrite bool_decide_true.
    + assert (plane_bit (if at_exclusive a then set_bit (length slots) (Exclusive idx) else Exclusive idx) k
        = plane_bit (Exclusive idx) k) as HE.
      { destruct (at_exclusive a); [|done]. rewrite set_bit_bit by (done || apply RE).
        by rewrite bool_decide_false. }
      destruct (mjoin (slots !! k)) as [[id' a']|]; unfold slot_holds in *;
        cbn [ChannelNum AwgID TenantID AwgPort Active Exclusive LeaseIDs];
        rewrite HE, !(attr_set_attr 32), !(attr_set_attr 16), set_bit_bit by (done || apply RA);
        rewrite bool_decide_false by done; repeat rewrite decide_False by done; [|done].
      by rewrite list_lookup_insert_ne by done.
Qed.

Lemma insert_full idx slots id a :
  represents idx slots → length slots = MaxLeases → Insert idx id a = None.
Proof. intros Hr Hl. unfold Insert. rewrite (rp_count _ _ Hr), Hl. done. Qed.

(** Clearing a slot past the end changes nothing that is not clear already. *)
Lemma remove_represents idx slots slot :
  represents idx slots →
  represents (Remove idx slot) (if decide (0 ≤ slot) then <[Z.to_nat slot := None]> slots else slots).
Proof.
  intros Hr. unfold Remove. destruct (Z.ltb_spec slot 0); [by rewrite decide_False by lia|].
  rewrite decide_True by lia. destruct (Z.leb_spec (Z.of_nat MaxLeases) slot); cbn [orb].
  { by rewrite list_insert_ge by (pose proof (rp_max _ _ Hr); lia). }
  set (s := Z.to_nat slot). assert (s < MaxLeases)%nat as Hs by lia.
  pose proof Hr as [Rc Ra Rt Rp RA RE Ri Rn Rm Rs].
  split; cbn [ChannelNum AwgID TenantID AwgPort Active Exclusive LeaseIDs Count];
    try (by apply clear_attr_ok); try (by apply clear_bit_ok); try (by rewrite length_insert); [].
  intros k Hk. specialize (Rs k Hk).
  assert (mjoin (<[s := None]> slots !! k) = if decide (k = s) then None else mjoin (slots !! k)) as ->.
  { destruct (decide (s < length slots)%nat); [by apply slot_update|].
    rewrite list_insert_ge by lia. destruct (decide (k = s)) as [->|]; [|done].
    by rewrite lookup_ge_None_2 by lia. }
  destruct (decide (k = s)) as [->|Hne].
  - unfold slot_holds. cbn [ChannelNum AwgID TenantID AwgPort Active Exclusive].
    rewrite !(attr_clear_attr 32), !(attr_clear_attr 16), !clear_bit_bit by (done || apply RA || apply RE).
    rewrite bool_decide_true by done. by repeat rewrite decide_True by done.
  - destruct (mjoin (slots !! k)) as [[id' a']|]; unfold slot_holds in *;
      cbn [ChannelNum AwgID TenantID AwgPort Active Exclusive LeaseIDs];
      rewrite !(attr_clear_attr 32), !(attr_clear_attr 16), !clear_bit_bit by (done || apply RA || apply RE);
      rewrite bool_decide_false by done; repeat rewrite decide_False by done; [|done].
    by rewrite list_lookup_insert_ne by done.
Qed.

(** ** The scan *)

Lemma match_attr_length words planes : ∀ p key acc, length (match_attr p key words planes acc) = length acc.
Proof. induction planes as [|plane planes IH]; intros; [done|]. cbn. by rewrite IH, length_imap. Qed.

(** Word [w] of the result is the scan of the planes' words [w]. *)
Lemma match_attr_word w words planes : ∀ p key acc, (w < words)%nat → (w < length acc)%nat →
  nth w (match_attr p key words planes acc) 0 =
  plane_scan p key ((λ plane, nth w plane 0) <$> planes) (nth w acc 0).
Proof.
  induction planes as [|plane planes IH]; intros p key acc Hw Ha; [done|].
  cbn [match_attr fmap list_fmap plane_scan]. rewrite IH by (rewrite ?length_imap; done). f_equal.
  rewrite (nth_lookup (imap _ _)), (nth_lookup acc), list_lookup_imap.
  destruct (lookup_lt_is_Some_2 acc w Ha) as [x ->]. cbn [fmap option_fmap option_map default from_option].
  by rewrite (proj2 (Nat.ltb_lt w words) Hw).
Qed.

Lemma column_attr planes k :
  column ((λ plane, nth (k / 64) plane 0) <$> planes) (Z.of_nat (k mod 64)) = attr_at planes k.
Proof. rewrite of_bits_column. unfold attr_at. by rewrite <- list_fmap_compose. Qed.

Lemma match_attr_bit n words planes key acc k :
  length planes = n → length acc = wordsPerPlane → in_uint (Z.of_nat n) key → (k / 64 < words)%nat →
  (k < MaxLeases)%nat →
  plane_bit (match_attr 0 key words planes acc) k = plane_bit acc k && (attr_at planes k =? key).
Proof.
  intros Hn Hacc Hkey Hw Hk. unfold plane_bit at 1. change wordsPerPlane with 16%nat in Hacc.
  unfold MaxLeases in Hk. rewrite match_attr_word, plane_scan_spec by (rewrite ?length_fmap, ?Hn; done || lia).
  by rewrite column_attr.
Qed.

(** ** Peeling bits *)

Lemma TrailingZeros64_lowest b i :
  (i < 64)%nat → Z.testbit b (Z.of_nat i) = true → (∀ j, (j < i)%nat → Z.testbit b (Z.of_nat j) = false) →
  TrailingZeros64 b = i.
Proof.
  intros Hi Hb Hlow. unfold TrailingZeros64.
  assert (list_find (λ i, Z.testbit b (Z.of_nat i) = true) (seq 0 64) = Some (i, i)) as ->; [|done].
  apply list_find_Some. split_and!; [apply lookup_seq; lia|done|].
  intros j y [-> _]%lookup_seq Hj. by rewrite Hlow.
Qed.

(** [b & (b - 1)] clears the lowest set bit. *)
Lemma clear_lowest b i :
  Z.testbit b (Z.of_nat i) = true → (∀ j, (j < i)%nat → Z.testbit b (Z.of_nat j) = false) →
  ∀ j, 0 ≤ j → Z.testbit (Z.land b (b - 1)) j = Z.testbit b j && negb (j =? Z.of_nat i).
Proof.
  intros Hb Hlow j Hj. set (n := Z.of_nat i) in *. rewrite Z.land_spec.
  assert (b mod 2 ^ n = 0) as Hmod.
  { apply Z.bits_inj'. intros k Hk. rewrite Z.bits_0. destruct (decide (k < n)).
    - rewrite Z.mod_pow2_bits_low by done. rewrite <- (Z2Nat.id k) by done. apply Hlow. lia.
    - by rewrite Z.mod_pow2_bits_high by lia. }
  set (m := b / 2 ^ n). assert (0 < 2 ^ n) as Hpow by (apply Z.pow_pos_nonneg; lia).
  assert (b = m * 2 ^ n) as Hbm by (pose proof (Z.div_mod b (2 ^ n)); unfold m; lia).
  assert (Z.odd m = true) as Hodd.
  { rewrite <- Z.bit0_odd. unfold m. by rewrite Z.div_pow2_bits by lia. }
  replace (b - 1) with ((m - 1) * 2 ^ n + (2 ^ n - 1)) by lia.
  rewrite testbit_above by (unfold in_uint; lia). destruct (Z.ltb_spec j n).
  - rewrite <- (Z2Nat.id j) by done. rewrite (Hlow (Z.to_nat j)) by lia. done.
  - rewrite Hbm at 1 2. rewrite Z.mul_pow2_bits by lia. apply Z.odd_spec in Hodd as [c ->].
    destruct (Z.eqb_spec j n) as [->|Hne].
    + rewrite Z.sub_diag, !Z.bit0_odd, Z.odd_add, Z.odd_sub, !Z.odd_add, Z.odd_mul. done.
    + replace (j - n) with (Z.succ (Z.pred (j - n))) by lia.
      rewrite Z.testbit_odd_succ by lia. replace (2 * c + 1 - 1) with (2 * c) by lia.
      rewrite Z.testbit_even_succ by lia. cbn [negb]. by destruct (Z.testbit c _).
Qed.

Lemma peel_from n : ∀ fuel i b,
  (i + n = 64)%nat → (n ≤ fuel)%nat → in_uint 64 b → (∀ j, (j < i)%nat → Z.testbit b (Z.of_nat j) = false) →
  peel fuel b = base.filter (λ j, Z.testbit b (Z.of_nat j) = true) (seq i n).
Proof.
  induction n as [|n IH]; intros fuel i b Hi Hfuel Hb Hlow.
  { assert (b = 0) as ->; [|by destruct fuel]. apply (uint_eq 64); [lia|done|unfold in_uint; lia|].
    intros p Hp. rewrite Z.bits_0, <- (Z2Nat.id p) by lia. apply Hlow. lia. }
  cbn [seq]. rewrite filter_cons. case_decide as Hbit.
  - destruct fuel as [|fuel]; [lia|]. cbn [peel].
    destruct (Z.eqb_spec b 0) as [->|Hne]; [by rewrite Z.bits_0 in Hbit|].
    rewrite (TrailingZeros64_lowest b i) by (done || lia). f_equal.
    pose proof (clear_lowest b i Hbit Hlow) as Hcl.
    rewrite (IH fuel (S i)); [|lia|lia| |].
    + apply filter_ext_in. intros j Hj%elem_of_seq. rewrite Hcl by lia.
      destruct (Z.eqb_spec (Z.of_nat j) (Z.of_nat i)); [lia|]. by rewrite andb_true_r.
    + apply uint_of_testbit; [lia|apply Z.land_nonneg; unfold in_uint in Hb; lia|].
      intros k Hk. by rewrite Z.land_spec, (uint_testbit_high 64 b) by (done || lia).
    + intros j Hj. rewrite Hcl by lia. destruct (decide (j = i)) as [->|].
      * by rewrite Z.eqb_refl, andb_false_r.
      * by rewrite Hlow by lia.
  - apply IH; [lia|lia|done|]. intros j Hj. destruct (decide (j = i)) as [->|]; [|apply Hlow; lia].
    by apply not_true_is_false.
Qed.

Lemma bits_of_spec b :
  in_uint 64 b → bits_of b = base.filter (λ j, Z.testbit b (Z.of_nat j) = true) (seq 0 64).
Proof. intros Hb. apply peel_from; [done|done|done|lia]. Qed.

(** ** The masks *)

Lemma land_uint w x y : 0 ≤ w → in_uint w x → in_uint w (Z.land x y).
Proof.
  intros Hw Hx. apply uint_of_testbit; [done|apply Z.land_nonneg; unfold in_uint in Hx; lia|].
  intros i Hi. by rewrite Z.land_spec, (uint_testbit_high w x) by (done || lia).
Qed.

Lemma plane_scan_uint w planes : ∀ p key acc, 0 ≤ w → in_uint w acc → in_uint w (plane_scan p key planes acc).
Proof.
  induction planes as [|plane planes IH]; intros p key acc Hw Ha; [done|].
  cbn. apply IH; [done|]. by destruct (Z.testbit key p); apply land_uint.
Qed.

Lemma plane_word_uint plane w : plane_ok plane → in_uint 64 (nth w plane 0).
Proof.
  intros [_ Hu]. rewrite nth_lookup. destruct (plane !! w) as [x|] eqn:E.
  - by eapply Forall_lookup_1 in Hu.
  - cbn. unfold in_uint. lia.
Qed.

Lemma match_attr_uint w words planes p key acc :
  (w < words)%nat → plane_ok acc → (w < wordsPerPlane)%nat →
  in_uint 64 (nth w (match_attr p key words planes acc) 0).
Proof.
  intros Hw Ha Hl. rewrite match_attr_word by (rewrite ?(proj1 Ha); done).
  apply plane_scan_uint; [lia|]. by apply plane_word_uint.
Qed.

Lemma fill_words_nth words f w :
  (w < words)%nat → (w < wordsPerPlane)%nat → nth w (fill_words words f) 0 = f w.
Proof.
  intros Hw Hl. unfold fill_words. rewrite nth_lookup, list_lookup_fmap, lookup_seq_lt by done.
  cbn [fmap option_fmap option_map default from_option Nat.add]. by rewrite (proj2 (Nat.ltb_lt w words) Hw).
Qed.

Lemma fill_words_ok words f :
  (∀ w, (w < words)%nat → (w < wordsPerPlane)%nat → in_uint 64 (f w)) → plane_ok (fill_words words f).
Proof.
  intros Hf. split; [unfold fill_words; by rewrite length_fmap, length_seq|].
  apply Forall_fmap, Forall_forall. intros w Hw%elem_of_seq. unfold compose.
  destruct (Nat.ltb_spec w words); [apply Hf; lia|unfold in_uint; lia].
Qed.

Lemma exclude_ok ex x : plane_ok x → plane_ok (exclude ex x).
Proof. intros Hx. unfold exclude. destruct (_ && _); [by apply clear_bit_ok|done]. Qed.

Lemma exclude_bit ex x k :
  plane_ok x → (k < MaxLeases)%nat → plane_bit (exclude ex x) k = negb (Z.of_nat k =? ex) && plane_bit x k.
Proof.
  intros Hx Hk. unfold exclude. destruct (Z.leb_spec 0 ex), (Z.ltb_spec ex (Z.of_nat MaxLeases)); cbn [andb];
    try (destruct (Z.eqb_spec (Z.of_nat k) ex); [lia|done]).
  rewrite clear_bit_bit by (apply Hx || lia). f_equal. f_equal.
  destruct (Z.eqb_spec (Z.of_nat k) ex); [rewrite bool_decide_true by lia|rewrite bool_decide_false by lia]; done.
Qed.

(** ** The reference: a walk over the slots *)

(** When a stored lease conflicts with a proposal. *)
Definition collides (t : ConflictType) (e a : Attrs) : bool :=
  match t with
  | LambdaCollision =>
      (at_channel e =? at_channel a) && (at_awg e =? at_awg a) && (at_exclusive e || at_exclusive a)
  | AwgPortCollision => (at_awg e =? at_awg a) && (at_port e =? at_port a)
  | TenantIsolation =>
      (at_channel e =? at_channel a) && (at_awg e =? at_awg a) && negb (at_tenant e =? at_tenant a)
  end.

Definition scan_slot (slots : list (option entry)) (a : Attrs) (ex : Z) (t : ConflictType) (k : nat)
    : option Conflict :=
  match mjoin (slots !! k) with
  | Some (id, e) => if collides t e a && negb (Z.of_nat k =? ex) then Some (mkConflict t id k) else None
  | None => None
  end.

Definition scan (slots : list (option entry)) (a : Attrs) (ex : Z) : list Conflict :=
  concat ((λ w, concat ((λ t, omap (scan_slot slots a ex t) (seq (w * 64) 64))
    <$> [LambdaCollision; AwgPortCollision; TenantIsolation])) <$> seq 0 ((length slots + 63) / 64)).

Lemma fmap_filter_omap {A B} (P : A → Prop) `{∀ x, Decision (P x)} (f : A → B) (g : A → option B) (l : list A) :
  (∀ x, x ∈ l → g x = if decide (P x) then Some (f x) else None) → f <$> base.filter P l = omap g l.
Proof.
  induction l as [|x l IH]; intros Hg; [done|]. rewrite filter_cons. cbn [omap list_omap].
  rewrite (Hg x) by (by left). rewrite <- IH by (intros; apply Hg; by right). by case_decide.
Qed.

Lemma omap_fmap {A B C} (f : A → B) (g : B → option C) (l : list A) : omap g (f <$> l) = omap (g ∘ f) l.
Proof. induction l as [|x l IH]; [done|]. cbn. by rewrite <- IH. Qed.

(** A mask whose bits are the collisions, unpacked. *)
Lemma conflicts_at_scan idx slots a ex t w mask :
  represents idx slots → plane_ok mask → (w < wordsPerPlane)%nat →
  (∀ k, (k / 64 = w)%nat → (k < MaxLeases)%nat → plane_bit mask k =
     negb (Z.of_nat k =? ex) &&
     match mjoin (slots !! k) with Some (_, e) => collides t e a | None => false end) →
  conflicts_at idx t w mask = omap (scan_slot slots a ex t) (seq (w * 64) 64).
Proof.
  intros Hr Hmask Hw Hbits. unfold conflicts_at. rewrite bits_of_spec by (by apply plane_word_uint).
  replace (seq (w * 64) 64) with (Nat.add (w * 64) <$> seq 0 64) by (by rewrite fmap_add_seq, Nat.add_0_r).
  rewrite omap_fmap.
  apply fmap_filter_omap. intros j Hj%elem_of_seq. change wordsPerPlane with 16%nat in Hw.
  assert (w * 64 + j < MaxLeases)%nat as Hk by (unfold MaxLeases; lia).
  specialize (Hbits (w * 64 + j)%nat ltac:(lia) Hk). unfold plane_bit in Hbits.
  replace ((w * 64 + j) / 64)%nat with w in Hbits by lia.
  replace ((w * 64 + j) mod 64)%nat with j in Hbits by lia. unfold compose, scan_slot. cbv beta zeta. rewrite Hbits.
  pose proof (rp_slots _ _ Hr _ Hk) as Hs.
  destruct (mjoin (slots !! (w * 64 + j)%nat)) as [[id e]|]; cbn [slot_holds] in Hs.
  - destruct Hs as (_ & _ & _ & _ & _ & _ & Hid). rewrite nth_lookup, Hid. cbn [default from_option].
    rewrite andb_comm. by destruct (negb (Z.of_nat (w * 64 + j) =? ex) && collides t e a).
  - rewrite andb_false_r. done.
Qed.

Section masks.
Context (idx : LeaseIndex) (slots : list (option entry)) (a : Attrs).
Context (Hr : represents idx slots) (Ha : Attrs_ok a) (k : nat).
Context (Hk : (k < MaxLeases)%nat) (Hw : (k / 64 < words_of idx)%nat).

Lemma match_bit n planes (attr : Attrs → Z) :
  planes_ok n planes → in_uint (Z.of_nat n) (attr a) →
  (∀ id e, mjoin (slots !! k) = Some (id, e) → attr_at planes k = attr e) →
  plane_bit (match_attr 0 (attr a) (words_of idx) planes (Active idx)) k =
  match mjoin (slots !! k) with Some (_, e) => attr e =? attr a | None => false end.
Proof.
  intros [Hn _] Ha' Hat. rewrite (match_attr_bit n) by (done || apply (rp_active _ _ Hr)).
  pose proof (rp_slots _ _ Hr k Hk) as Hs. destruct (mjoin (slots !! k)) as [[id e]|] eqn:E.
  - destruct Hs as (-> & _). by rewrite (Hat id e).
  - by destruct Hs as (-> & _).
Qed.

Lemma channel_bit :
  plane_bit (match_attr 0 (at_channel a) (words_of idx) (ChannelNum idx) (Active idx)) k =
  match mjoin (slots !! k) with Some (_, e) => at_channel e =? at_channel a | None => false end.
Proof.
  apply (match_bit 32); [apply (rp_channel _ _ Hr)|apply Ha|]. intros id e E.
  pose proof (rp_slots _ _ Hr k Hk) as Hs. rewrite E in Hs. apply Hs.
Qed.

Lemma awg_bit :
  plane_bit (match_attr 0 (at_awg a) (words_of idx) (AwgID idx) (Active idx)) k =
  match mjoin (slots !! k) with Some (_, e) => at_awg e =? at_awg a | None => false end.
Proof.
  apply (match_bit 16); [apply (rp_awg _ _ Hr)|apply Ha|]. intros id e E.
  pose proof (rp_slots _ _ Hr k Hk) as Hs. rewrite E in Hs. apply Hs.
Qed.

Lemma port_bit :
  plane_bit (match_attr 0 (at_port a) (words_of idx) (AwgPort idx) (Active idx)) k =
  match mjoin (slots !! k) with Some (_, e) => at_port e =? at_port a | None => false end.
Proof.
  apply (match_bit 16); [apply (rp_port _ _ Hr)|apply Ha|]. intros id e E.
  pose proof (rp_slots _ _ Hr k Hk) as Hs. rewrite E in Hs. apply Hs.
Qed.

Lemma tenant_bit :
  plane_bit (match_attr 0 (at_tenant a) (words_of idx) (TenantID idx) (Active idx)) k =
  match mjoin (slots !! k) with Some (_, e) => at_tenant e =? at_tenant a | None => false end.
Proof.
  apply (match_bit 16); [apply (rp_tenant _ _ Hr)|apply Ha|]. intros id e E.
  pose proof (rp_slots _ _ Hr k Hk) as Hs. rewrite E in Hs. apply Hs.
Qed.

Lemma fill_bit f : plane_bit (fill_words (words_of idx) f) k = Z.testbit (f (k / 64)%nat) (Z.of_nat (k mod 64)).
Proof.
  unfold plane_bit. rewrite fill_words_nth; [done..|]. unfold MaxLeases in Hk.
  change wordsPerPlane with 16%nat. lia.
Qed.
End masks.

(** The buffered query and the plain one are the same computation. *)
Lemma check_buf idx a ex buf : CheckConflictsBuf idx a ex buf = CheckConflicts idx a ex.
Proof.
  unfold CheckConflictsBuf, CheckConflicts, computeConflictMasks.
  destruct (Nat.eqb_spec (words_of idx) 0) as [E|E]; [|done].
  unfold extractConflicts. by rewrite E.
Qed.

Section check.
Context (idx : LeaseIndex) (slots : list (option entry)) (a : Attrs).
Context (Hr : represents idx slots) (Ha : Attrs_ok a).

Abbreviation channelMatch := (match_attr 0 (at_channel a) (words_of idx) (ChannelNum idx) (Active idx)).
Abbreviation awgMatch := (match_attr 0 (at_awg a) (words_of idx) (AwgID idx) (Active idx)).

(** A mask that is some match word cut down further. *)
Lemma mask_ok planes key f :
  plane_ok (fill_words (words_of idx) (λ w, Z.land (nth w (match_attr 0 key (words_of idx) planes (Active idx)) 0) (f w))).
Proof.
  apply fill_words_ok. intros w Hw Hl. apply land_uint; [lia|]. apply match_attr_uint; [done| |done].
  apply (rp_active _ _ Hr).
Qed.

Lemma same_ok f :
  plane_ok (fill_words (words_of idx) (λ w, Z.land (Z.land (nth w channelMatch 0) (nth w awgMatch 0)) (f w))).
Proof.
  apply fill_words_ok. intros w Hw Hl. do 2 (apply land_uint; [lia|]). apply match_attr_uint; [done| |done].
  apply (rp_active _ _ Hr).
Qed.

Lemma lambda_bit k :
  (k < MaxLeases)%nat → (k / 64 < words_of idx)%nat →
  plane_bit (fill_words (words_of idx) (λ w, Z.land (Z.land (nth w channelMatch 0) (nth w awgMatch 0))
    (Z.lor (nth w (Exclusive idx) 0) (if at_exclusive a then 2 ^ 64 - 1 else 0)))) k =
  match mjoin (slots !! k) with Some (_, e) => collides LambdaCollision e a | None => false end.
Proof.
  intros Hk Hw. rewrite (fill_bit idx k Hk Hw), !Z.land_spec, Z.lor_spec.
  pose proof (channel_bit idx slots a Hr Ha k Hk Hw) as Hc. pose proof (awg_bit idx slots a Hr Ha k Hk Hw) as Hg.
  unfold plane_bit in Hc, Hg. rewrite Hc, Hg.
  pose proof (rp_slots _ _ Hr k Hk) as Hs. destruct (mjoin (slots !! k)) as [[id e]|]; [|done].
  destruct Hs as (_ & He & _). unfold plane_bit in He. rewrite He. cbn [collides]. do 2 f_equal.
  destruct (at_exclusive a); [|apply Z.bits_0]. change (2 ^ 64 - 1) with (Z.ones 64).
  rewrite Z.testbit_ones_nonneg by lia. apply Z.ltb_lt. lia.
Qed.

Lemma port_mask_bit k :
  (k < MaxLeases)%nat → (k / 64 < words_of idx)%nat →
  plane_bit (fill_words (words_of idx) (λ w, Z.land (nth w awgMatch 0)
    (nth w (match_attr 0 (at_port a) (words_of idx) (AwgPort idx) (Active idx)) 0))) k =
  match mjoin (slots !! k) with Some (_, e) => collides AwgPortCollision e a | None => false end.
Proof.
  intros Hk Hw. rewrite (fill_bit idx k Hk Hw), !Z.land_spec.
  pose proof (port_bit idx slots a Hr Ha k Hk Hw) as Hp. pose proof (awg_bit idx slots a Hr Ha k Hk Hw) as Hg.
  unfold plane_bit in Hp, Hg. rewrite Hp, Hg. by destruct (mjoin (slots !! k)) as [[id e]|].
Qed.

Lemma tenant_mask_bit k :
  (k < MaxLeases)%nat → (k / 64 < words_of idx)%nat →
  plane_bit (fill_words (words_of idx) (λ w, Z.land (Z.land (nth w channelMatch 0) (nth w awgMatch 0))
    (nth w (fill_words (words_of idx) (λ w, Z.land (nth w (Active idx) 0)
      (Z.lnot (nth w (match_attr 0 (at_tenant a) (words_of idx) (TenantID idx) (Active idx)) 0)))) 0))) k =
  match mjoin (slots !! k) with Some (_, e) => collides TenantIsolation e a | None => false end.
Proof.
  intros Hk Hw. assert (k / 64 < wordsPerPlane)%nat as Hl
    by (unfold MaxLeases in Hk; change wordsPerPlane with 16%nat; lia).
  rewrite (fill_bit idx k Hk Hw), fill_words_nth, !Z.land_spec, Z.lnot_spec by (done || lia).
  pose proof (channel_bit idx slots a Hr Ha k Hk Hw) as Hc. pose proof (awg_bit idx slots a Hr Ha k Hk Hw) as Hg.
  pose proof (tenant_bit idx slots a Hr Ha k Hk Hw) as Ht.
  unfold plane_bit in Hc, Hg, Ht. rewrite Hc, Hg, Ht.
  pose proof (rp_slots _ _ Hr k Hk) as Hs. destruct (mjoin (slots !! k)) as [[id e]|]; [|done].
  destruct Hs as (Hact & _). unfold plane_bit in Hact. by rewrite Hact.
Qed.

Lemma check_scan ex : CheckConflicts idx a ex = scan slots a ex.
Proof.
  unfold CheckConflicts, scan.
  replace ((length slots + 63) / 64)%nat with (words_of idx) by (unfold words_of; by rewrite (rp_count _ _ Hr)).
  destruct (Nat.eqb_spec (words_of idx) 0) as [->|_]; [done|]. f_equal.
  apply list_fmap_ext. intros _ w Hw%list_elem_of_lookup_2%elem_of_seq.
  assert (w < wordsPerPlane)%nat as Hl.
  { pose proof (rp_max _ _ Hr). unfold words_of, MaxLeases in *. rewrite (rp_count _ _ Hr) in Hw.
    change wordsPerPlane with 16%nat. lia. }
  cbn [fmap list_fmap concat]. rewrite app_nil_r.
  rewrite !(conflicts_at_scan _ slots a ex); try done; try (apply exclude_ok; apply mask_ok || apply same_ok).
  all: intros k Hkw Hk; rewrite exclude_bit by (done || apply mask_ok || apply same_ok); f_equal.
  - apply tenant_mask_bit; [done|lia].
  - apply port_mask_bit; [done|lia].
  - apply lambda_bit; [done|lia].
Qed.
End check.

(** ** The lens *)

Lemma lor_above p v : in_uint (Z.of_nat p) v → Z.lor v (Z.shiftl 1 (Z.of_nat p)) = v + 2 ^ Z.of_nat p.
Proof.
  intros Hv. apply Z.bits_inj'. intros i Hi. rewrite Z.lor_spec, Z.shiftl_spec by lia.
  replace (v + 2 ^ Z.of_nat p) with (1 * 2 ^ Z.of_nat p + v) by lia. rewrite testbit_above by (done || lia).
  destruct (Z.ltb_spec i (Z.of_nat p)).
  - rewrite (Z.testbit_neg_r 1) by lia. apply orb_false_r.
  - by rewrite (uint_testbit_high (Z.of_nat p) v) by (done || lia).
Qed.

Lemma gather_from_spec planes w trail : ∀ p v, in_uint (Z.of_nat p) v →
  gather_from p planes w trail v =
  v + 2 ^ Z.of_nat p * of_bits ((λ plane, Z.testbit (nth w plane 0) (Z.of_nat trail)) <$> planes).
Proof.
  induction planes as [|plane planes IH]; intros p v Hv; cbn [gather_from fmap list_fmap of_bits]; [lia|].
  assert (2 ^ Z.of_nat (S p) = 2 * 2 ^ Z.of_nat p) as Hp by (rewrite Nat2Z.inj_succ, Z.pow_succ_r by lia; done).
  pose proof Hv as Hv'. unfold in_uint in Hv'. destruct (Z.testbit _ _) eqn:E.
  - rewrite lor_above, IH, Hp by (done || unfold in_uint; lia). cbn [Z.b2z]. lia.
  - rewrite IH, Hp by (unfold in_uint; lia). cbn [Z.b2z]. lia.
Qed.

Lemma gather_attr planes w trail :
  (trail < 64)%nat → gather planes w trail = attr_at planes (w * 64 + trail).
Proof.
  intros Ht. unfold gather. rewrite gather_from_spec by (unfold in_uint; lia).
  rewrite Z.add_0_l, Z.mul_1_l. unfold attr_at, plane_bit.
  replace ((w * 64 + trail) / 64)%nat with w by lia. by replace ((w * 64 + trail) mod 64)%nat with trail by lia.
Qed.

(** The live lease in slot [k], as the lens shows it. *)
Definition live (slots : list (option entry)) (k : nat) : option LensSnapshot :=
  match mjoin (slots !! k) with Some (id, a) => Some (mkSnapshot id a k) | None => None end.

Lemma omap_app {A B} (f : A → option B) (l1 l2 : list A) : omap f (l1 ++ l2) = omap f l1 ++ omap f l2.
Proof. induction l1 as [|x l1 IH]; [done|]. cbn. destruct (f x); [|done]. by rewrite IH. Qed.

Lemma omap_blocks {B} (f : nat → option B) n :
  concat ((λ w, omap f (seq (w * 64) 64)) <$> seq 0 n) = omap f (seq 0 (n * 64)).
Proof.
  induction n as [|n IH]; [done|]. rewrite seq_S, fmap_app, concat_app, IH.
  replace (S n * 64)%nat with (n * 64 + 64)%nat by lia. rewrite seq_app, omap_app. cbn [fmap list_fmap concat Nat.add].
  by rewrite app_nil_r.
Qed.

Lemma omap_none {A B} (f : A → option B) (l : list A) : (∀ x, x ∈ l → f x = None) → omap f l = [].
Proof.
  induction l as [|x l IH]; intros Hf; [done|]. cbn. rewrite (Hf x) by (by left). apply IH.
  intros y Hy. apply Hf. by right.
Qed.

Lemma lens_live idx slots :
  represents idx slots → Lens idx = omap (live slots) (seq 0 (length slots)).
Proof.
  intros Hr. transitivity (omap (live slots) (seq 0 (words_of idx * 64))).
  - rewrite <- omap_blocks. unfold Lens. f_equal. apply list_fmap_ext.
    intros _ w Hw%list_elem_of_lookup_2%elem_of_seq.
    assert (w < 16)%nat as Hl.
    { pose proof (rp_max _ _ Hr). unfold words_of, MaxLeases in *. rewrite (rp_count _ _ Hr) in Hw. lia. }
    rewrite bits_of_spec by (apply plane_word_uint, (rp_active _ _ Hr)).
    replace (seq (w * 64) 64) with (Nat.add (w * 64) <$> seq 0 64) by (by rewrite fmap_add_seq, Nat.add_0_r).
    rewrite omap_fmap. apply fmap_filter_omap. intros j Hj%elem_of_seq. unfold compose, live.
    assert (w * 64 + j < MaxLeases)%nat as Hk by (unfold MaxLeases; lia).
    pose proof (rp_slots _ _ Hr _ Hk) as Hs. cbv beta zeta. rewrite !gather_attr by lia.
    assert (∀ plane, Z.testbit (nth w plane 0) (Z.of_nat j) = plane_bit plane (w * 64 + j)) as Hb.
    { intros plane. unfold plane_bit. replace ((w * 64 + j) / 64)%nat with w by lia.
      by replace ((w * 64 + j) mod 64)%nat with j by lia. }
    rewrite !Hb. destruct (mjoin (slots !! (w * 64 + j)%nat)) as [[id [ch awg ten port ex]]|]; cbn [slot_holds] in Hs.
    + destruct Hs as (-> & -> & -> & -> & -> & -> & Hid). rewrite nth_lookup, Hid. done.
    + by destruct Hs as (-> & _).
  - assert (words_of idx * 64 = length slots + (words_of idx * 64 - length slots))%nat as ->
      by (unfold words_of; rewrite (rp_count _ _ Hr); lia).
    rewrite seq_app, omap_app, (omap_none _ (seq (0 + length slots) _)), app_nil_r; [done|].
    intros k Hk%elem_of_seq. unfold live. by rewrite lookup_ge_None_2 by lia.
Qed.

(** ** Properties *)

Inductive IndexOp : Type :=
| OpInsert (id : text) (a : Attrs)
| OpRemove (slot : Z).

Definition IndexOp_ok (op : IndexOp) : Prop :=
  match op with OpInsert _ a => Attrs_ok a | OpRemove _ => True end.

(** A failed insertion leaves the index as it was. *)
Definition exec_op (op : IndexOp) (idx : LeaseIndex) : LeaseIndex :=
  match op with
  | OpInsert id a => match Insert idx id a with Some (idx', _) => idx' | None => idx end
  | OpRemove slot => Remove idx slot
  end.

(** Insertion takes the next slot, of which there are 1024; removal clears a slot and
    gives none back. *)
Definition spec_op (op : IndexOp) (slots : list (option entry)) : list (option entry) :=
  match op with
  | OpInsert id a => if decide (length slots < MaxLeases)%nat then slots ++ [Some (id, a)] else slots
  | OpRemove slot => if decide (0 ≤ slot) then <[Z.to_nat slot := None]> slots else slots
  end.

Definition exec_ops (ops : list IndexOp) (idx : LeaseIndex) : LeaseIndex :=
  fold_left (λ idx op, exec_op op idx) ops idx.

Definition spec_ops (ops : list IndexOp) (slots : list (option entry)) : list (option entry) :=
  fold_left (λ slots op, spec_op op slots) ops slots.

Lemma exec_op_represents op idx slots :
  IndexOp_ok op → represents idx slots → represents (exec_op op idx) (spec_op op slots).
Proof.
  intros Hop Hr. destruct op as [id a|slot]; cbn [exec_op spec_op]; [|by apply remove_represents].
  case_decide as D.
  - by destruct (bw_insert_represents idx slots id a Hr Hop D) as (idx' & -> & ?).
  - by rewrite (insert_full idx slots) by (try done; pose proof (rp_max _ _ Hr); lia).
Qed.

Lemma exec_ops_represents ops : ∀ idx slots,
  Forall IndexOp_ok ops → represents idx slots → represents (exec_ops ops idx) (spec_ops ops slots).
Proof.
  induction ops as [|op ops IH]; intros idx slots Hops Hr; [done|].
  apply Forall_cons in Hops as [Hop Hops]. apply IH; [done|]. by apply exec_op_represents.
Qed.

(** C22: The bit-woven index is exact.  After any insertions and removals, the query by bit
    planes, in the plain and in the buffered form and whatever the buffer held, returns
    what a walk over the live leases returns: per word of 64 slots the collisions on
    channel and AWG when either side is exclusive, then those on AWG and port, then those
    of different tenants, each in slot order and without the excluded slot; and the lens
    shows exactly the live leases with the attributes they were inserted with. *)
Theorem bitweave_exact (ops : list IndexOp) (a : Attrs) (excludeSlot : Z) (buf : list Conflict) :
  Forall IndexOp_ok ops → Attrs_ok a →
  let idx := exec_ops ops NewLeaseIndex in
  let slots := spec_ops ops [] in
  CheckConflicts idx a excludeSlot = scan slots a excludeSlot ∧
  CheckConflictsBuf idx a excludeSlot buf = scan slots a excludeSlot ∧
  Lens idx = omap (live slots) (seq 0 (length slots)).
Proof.
  intros Hops Ha idx slots.
  assert (represents idx slots) as Hr by (apply exec_ops_represents; [done|apply new_represents]).
  split_and!; [by apply check_scan| |by apply lens_live].
  rewrite check_buf. by apply check_scan.
Qed.

Definition demo_ops : list IndexOp :=
  [OpInsert (lit "a") (mkAttrs 40 1 7 40 true); OpInsert (lit "b") (mkAttrs 41 1 7 40 false);
   OpInsert (lit "c") (mkAttrs 40 2 9 3 true); OpRemove 0; OpInsert (lit "d") (mkAttrs 40 1 9 5 false)].

Lemma bitweave_exact_witness :
  CheckConflicts (exec_ops demo_ops NewLeaseIndex) (mkAttrs 40 1 7 40 true) (-1) =
  [mkConflict LambdaCollision (lit "d") 3; mkConflict AwgPortCollision (lit "b") 1; mkConflict TenantIsolation (lit "d") 3].
Proof.
  refine (eq_trans (proj1 (bitweave_exact demo_ops (mkAttrs 40 1 7 40 true) (-1) [] _ _)) _).
  - repeat constructor; vm_compute; congruence.
  - repeat constructor; vm_compute; congruence.
  - vm_compute. reflexivity.
Defined.
