(* ===== verification/Sim.v ===== *)
(** * otap-sim: the fiber channel

    Models [src/crates/otap-sim/src/lib.rs]: rotations of the Poincaré sphere,
    the xorshift generator and the channel that rotates a Transient's
    polarization and flips payload bits.  A generator or channel is threaded
    through the calls that advance it. *)

From S2P Require Import Prelude Float Core.
Local Open Scope Z_scope.

(** ** Rotations *)

(** [[[f32; 3]; 3]] *)
Record PoincareRotation : Type := mkRotation { m : list (list float) }.

Definition entry (r : PoincareRotation) (i j : nat) : float := nth j (nth i (m r) []) f32.zero.

Definition IDENTITY : PoincareRotation :=
  mkRotation [[f32.one; f32.zero; f32.zero]; [f32.zero; f32.one; f32.zero];
              [f32.zero; f32.zero; f32.one]].

Section libm.
Context `{Libm}.

Definition about_s3 (angle : float) : PoincareRotation :=
  let c := f32_cos angle in let s := f32_sin angle in
  mkRotation [[c; f32.opp s; f32.zero]; [s; c; f32.zero]; [f32.zero; f32.zero; f32.one]].

Definition about_s1 (angle : float) : PoincareRotation :=
  let c := f32_cos angle in let s := f32_sin angle in
  mkRotation [[f32.one; f32.zero; f32.zero]; [f32.zero; c; f32.opp s]; [f32.zero; s; c]].

Definition about_s2 (angle : float) : PoincareRotation :=
  let c := f32_cos angle in let s := f32_sin angle in
  mkRotation [[c; f32.zero; s]; [f32.zero; f32.one; f32.zero]; [f32.opp s; f32.zero; c]].
End libm.

(** [r.then(&other)]; the sum of an [f32] iterator starts at [-0.0]. *)
Definition rotation_then (r other : PoincareRotation) : PoincareRotation :=
  mkRotation
    ((λ i, (λ j,
        fold_left (λ acc k, f32.add acc (f32.mul (entry other i k) (entry r k j)))
          (seq 0 3) (S754_zero true)) <$> seq 0 3) <$> seq 0 3).

Definition rotation_apply (r : PoincareRotation) (v : StokesVector) : StokesVector :=
  let row i :=
    f32.add (f32.add (f32.mul (entry r i 0) (s1 v)) (f32.mul (entry r i 1) (s2 v)))
      (f32.mul (entry r i 2) (s3 v)) in
  StokesVector_new (row 0%nat) (row 1%nat) (row 2%nat).

(** ** xorshift64 *)

Record ChannelRng : Type := mkRng { state : Z }.

Definition ChannelRng_new (seed : Z) : ChannelRng :=
  mkRng (if seed =? 0 then 0xDEADBEEFCAFEF00D else seed).

(** [x << k] on [u64] drops the high bits. *)
Definition shl64 (x k : Z) : Z := wrap 64 (Z.shiftl x k).

Definition xorshift (x : Z) : Z :=
  let x := Z.lxor x (shl64 x 13) in
  let x := Z.lxor x (Z.shiftr x 7) in
  Z.lxor x (shl64 x 17).

Definition next_u64 (r : ChannelRng) : ChannelRng * Z :=
  let x := xorshift (state r) in (mkRng x, x).

Definition U32_MAX_F32 : float := f32.of_Z (2 ^ 32 - 1).

Definition next_signed_unit (r : ChannelRng) : ChannelRng * float :=
  let '(r, x) := next_u64 r in
  let n := wrap 32 x in
  (r, f32.sub (f32.mul (f32.div (f32.of_Z n) U32_MAX_F32) (f32.of_Z 2)) f32.one).

Definition next_unit (r : ChannelRng) : ChannelRng * float :=
  let '(r, x) := next_u64 r in
  let n := wrap 32 x in
  (r, f32.div (f32.of_Z n) U32_MAX_F32).

(** ** Channel *)

Record Channel : Type := mkChannel {
  pmd_rotation : PoincareRotation;
  bit_error_rate : float;
  rng : ChannelRng;
}.

Definition Channel_perfect : Channel :=
  mkChannel IDENTITY (S754_zero false) (ChannelRng_new 1).

Definition Channel_with_pmd (r : PoincareRotation) : Channel :=
  mkChannel r (S754_zero false) (ChannelRng_new 42).

Definition Channel_random_pmd `{Libm} (seed : Z) : Channel :=
  let g := ChannelRng_new seed in
  let '(g, u1) := next_signed_unit g in
  let r1 := about_s1 (f32.mul u1 f32.PI) in
  let '(g, u2) := next_signed_unit g in
  let r2 := about_s2 (f32.mul u2 f32.PI) in
  let '(g, u3) := next_signed_unit g in
  let r3 := about_s3 (f32.mul u3 f32.PI) in
  mkChannel (rotation_then (rotation_then r1 r2) r3) (S754_zero false) g.

(** The inner loop [for bit in 0..8] on one byte. *)
Fixpoint corrupt_byte (ber : float) (bits : list Z) (g : ChannelRng) (byte : Z)
    : ChannelRng * Z :=
  match bits with
  | [] => (g, byte)
  | bit :: bits =>
      let '(g, u) := next_unit g in
      let byte :=
        if SFltb (f64.of_f32 u) ber then Z.lxor byte (Z.shiftl 1 bit) else byte in
      corrupt_byte ber bits g byte
  end.

Definition BITS : list Z := [0; 1; 2; 3; 4; 5; 6; 7].

(** The outer loop [for byte in t.payload.iter_mut()]. *)
Fixpoint corrupt_payload (ber : float) (g : ChannelRng) (p : bytes) : ChannelRng * bytes :=
  match p with
  | [] => (g, [])
  | byte :: p =>
      let '(g, byte) := corrupt_byte ber BITS g byte in
      let '(g, p) := corrupt_payload ber g p in (g, byte :: p)
  end.

Definition transmit (c : Channel) (t : Transient) : Channel * Transient :=
  let new_samples :=
    (λ i, rotation_apply (pmd_rotation c) (nth i (samples (polarization t)) Stokes_H))
      <$> seq 0 TRAJECTORY_SAMPLES in
  let pol := PolarizationTrajectory_new new_samples in
  let '(g, p) :=
    if SFltb (S754_zero false) (bit_error_rate c)
    then corrupt_payload (bit_error_rate c) (rng c) (payload t)
    else (rng c, payload t) in
  (mkChannel (pmd_rotation c) (bit_error_rate c) g,
   mkTransient (wavelength t) pol (oam t) (micro t) p).

(** ** The generator *)

Lemma shl64_testbit x k i :
  0 ≤ i → 0 ≤ k → Z.testbit (shl64 x k) i = (i <? 64) && Z.testbit x (i - k).
Proof.
  intros. unfold shl64, wrap. destruct (Z.ltb_spec i 64); cbn [andb].
  - rewrite Z.mod_pow2_bits_low, Z.shiftl_spec by lia. done.
  - apply Z.mod_pow2_bits_high. lia.
Qed.

Lemma shl64_uint x k : u64 (shl64 x k).
Proof. by apply wrap_range. Qed.

Lemma lxor_uint w x y : 0 ≤ w → in_uint w x → in_uint w y → in_uint w (Z.lxor x y).
Proof.
  intros Hw Hx Hy. apply uint_of_testbit; [done| |].
  - unfold in_uint in *. rewrite Z.lxor_nonneg. lia.
  - intros i Hi. rewrite Z.lxor_spec, !(uint_testbit_high w) by (done || lia). done.
Qed.

Lemma shiftr_uint w x k : 0 ≤ w → 0 ≤ k → in_uint w x → in_uint w (Z.shiftr x k).
Proof.
  intros Hw Hk Hx. apply uint_of_testbit; [done| |].
  - rewrite Z.shiftr_nonneg. unfold in_uint in Hx. lia.
  - intros i Hi. rewrite Z.shiftr_spec, (uint_testbit_high w) by (done || lia). done.
Qed.

Lemma uint_zero w x : 0 ≤ w → in_uint w x →
  (∀ n : nat, (Z.of_nat n < w) → Z.testbit x (Z.of_nat n) = false) → x = 0.
Proof.
  intros Hw Hx Hb. apply Z.bits_inj'. intros i Hi. rewrite Z.bits_0.
  destruct (Z.ltb_spec i w); [|by apply (uint_testbit_high w)].
  specialize (Hb (Z.to_nat i)). rewrite Z2Nat.id in Hb by lia. auto.
Qed.

(** [x ^ (x << k)] and [x ^ (x >> k)] vanish only at 0: bit [n] is determined by
    the bits below it, or above it. *)
Lemma xor_shl_zero x k : u64 x → 0 < k → Z.lxor x (shl64 x k) = 0 → x = 0.
Proof.
  intros Hx Hk E. apply (uint_zero 64); [lia|done|].
  intros n. induction (lt_wf n) as [n _ IH]. intros Hn.
  assert (Z.testbit (Z.lxor x (shl64 x k)) (Z.of_nat n) = false) as B by (rewrite E; apply Z.bits_0).
  rewrite Z.lxor_spec, shl64_testbit in B by lia.
  destruct (Z.ltb_spec (Z.of_nat n) 64); [|lia]. cbn [andb] in B.
  destruct (Z.leb_spec 0 (Z.of_nat n - k)).
  - specialize (IH (Z.to_nat (Z.of_nat n - k))). rewrite Z2Nat.id in IH by lia.
    rewrite IH, xorb_false_r in B by lia. done.
  - rewrite (Z.testbit_neg_r x (Z.of_nat n - k)), xorb_false_r in B by lia. done.
Qed.

Lemma xor_shr_zero x k : u64 x → 0 < k → Z.lxor x (Z.shiftr x k) = 0 → x = 0.
Proof.
  intros Hx Hk E. apply (uint_zero 64); [lia|done|].
  intros n. induction (Wf_nat.well_founded_ltof _ (λ n, 64 - n)%nat n) as [n _ IH].
  unfold Wf_nat.ltof in IH. intros Hn.
  assert (Z.testbit (Z.lxor x (Z.shiftr x k)) (Z.of_nat n) = false) as B by (rewrite E; apply Z.bits_0).
  rewrite Z.lxor_spec, Z.shiftr_spec in B by lia.
  destruct (Z.ltb_spec (Z.of_nat n + k) 64).
  - specialize (IH (Z.to_nat (Z.of_nat n + k))). rewrite Z2Nat.id in IH by lia.
    rewrite IH, xorb_false_r in B by lia. done.
  - rewrite (uint_testbit_high 64 x (Z.of_nat n + k)), xorb_false_r in B by (done || lia). done.
Qed.

Lemma xorshift_uint x : u64 x → u64 (xorshift x).
Proof.
  intros Hx. unfold xorshift.
  assert (u64 (Z.lxor x (shl64 x 13))) as H1 by (apply lxor_uint; auto using shl64_uint; lia).
  assert (u64 (Z.lxor (Z.lxor x (shl64 x 13)) (Z.shiftr (Z.lxor x (shl64 x 13)) 7))) as H2
    by (apply lxor_uint; [lia|done|apply shiftr_uint; done || lia]).
  apply lxor_uint; auto using shl64_uint; lia.
Qed.

Lemma xorshift_zero x : u64 x → xorshift x = 0 → x = 0.
Proof.
  intros Hx. unfold xorshift. set (a := Z.lxor x (shl64 x 13)).
  assert (u64 a) as Ha by (apply lxor_uint; auto using shl64_uint; lia).
  set (b := Z.lxor a (Z.shiftr a 7)).
  assert (u64 b) as Hb by (apply lxor_uint; [lia|done|apply shiftr_uint; done || lia]).
  intros Hb0%xor_shl_zero; [|done|lia]. apply xor_shr_zero in Hb0; [|done|lia].
  by apply xor_shl_zero in Hb0.
Qed.

(** The generator is linear over xor, so a trivial kernel makes it injective. *)
Lemma shl64_lxor x y k : 0 ≤ k → shl64 (Z.lxor x y) k = Z.lxor (shl64 x k) (shl64 y k).
Proof.
  intros. apply Z.bits_inj'. intros i Hi. rewrite Z.lxor_spec, !shl64_testbit by lia.
  rewrite Z.lxor_spec. by destruct (i <? 64).
Qed.

Lemma lxor_swap a b c d : Z.lxor (Z.lxor a b) (Z.lxor c d) = Z.lxor (Z.lxor a c) (Z.lxor b d).
Proof.
  apply Z.bits_inj'. intros i Hi. rewrite !Z.lxor_spec.
  by destruct (Z.testbit a i), (Z.testbit b i), (Z.testbit c i), (Z.testbit d i).
Qed.

Lemma xor_shl_lxor x y k :
  0 ≤ k → Z.lxor (Z.lxor x y) (shl64 (Z.lxor x y) k) =
  Z.lxor (Z.lxor x (shl64 x k)) (Z.lxor y (shl64 y k)).
Proof. intros. by rewrite shl64_lxor, lxor_swap. Qed.

Lemma xor_shr_lxor x y k :
  Z.lxor (Z.lxor x y) (Z.shiftr (Z.lxor x y) k) =
  Z.lxor (Z.lxor x (Z.shiftr x k)) (Z.lxor y (Z.shiftr y k)).
Proof. by rewrite Z.shiftr_lxor, lxor_swap. Qed.

Lemma xorshift_lxor x y : xorshift (Z.lxor x y) = Z.lxor (xorshift x) (xorshift y).
Proof.
  unfold xorshift. cbv zeta. rewrite (xor_shl_lxor x y 13) by lia.
  rewrite xor_shr_lxor. by rewrite xor_shl_lxor.
Qed.

Lemma xorshift_inj x y : u64 x → u64 y → xorshift x = xorshift y → x = y.
Proof.
  intros Hx Hy E. apply Z.lxor_eq, xorshift_zero; [by apply lxor_uint|].
  rewrite xorshift_lxor, E. apply Z.lxor_nilpotent.
Qed.

(** [n] draws. *)
Fixpoint skip (n : nat) (g : ChannelRng) : ChannelRng :=
  match n with O => g | S n => skip n (next_u64 g).1 end.

(** The [n]-th draw of [next_unit], counted from 0. *)
Definition draw (n : nat) (g : ChannelRng) : float := (next_unit (skip n g)).2.

Lemma next_unit_fst g : (next_unit g).1 = (next_u64 g).1.
Proof. reflexivity. Qed.

Lemma skip_add a b g : skip (a + b) g = skip b (skip a g).
Proof. revert g. induction a as [|a IH]; intros g; cbn; auto. Qed.

Lemma skip_ok n g : u64 (state g) → state g ≠ 0 → u64 (state (skip n g)) ∧ state (skip n g) ≠ 0.
Proof.
  revert g. induction n as [|n IH]; intros g Hg H0; [done|]. cbn [skip]. apply IH.
  - by apply xorshift_uint.
  - intros E. by apply H0, xorshift_zero.
Qed.

Lemma skip_inj n g g' :
  u64 (state g) → u64 (state g') → state (skip n g) = state (skip n g') → g = g'.
Proof.
  revert g g'. induction n as [|n IH]; intros g g' Hg Hg' E.
  - destruct g, g'. cbn in *. by subst.
  - cbn [skip] in E. apply IH in E; [|by apply xorshift_uint..].
    destruct g, g'. cbn in *. injection E as E. f_equal. by apply xorshift_inj.
Qed.

(** ** Bit errors *)

(** Whether draw [n] flips its bit. *)
Definition flips (ber : float) (g : ChannelRng) (n : nat) : bool :=
  SFltb (f64.of_f32 (draw n g)) ber.

Lemma flip_testbit byte a (i : nat) :
  Z.testbit (Z.lxor byte (Z.shiftl 1 (Z.of_nat a))) (Z.of_nat i) =
  xorb (Z.testbit byte (Z.of_nat i)) (bool_decide (i = a)).
Proof.
  rewrite Z.lxor_spec, Z.shiftl_1_l. f_equal.
  case_bool_decide as D; [subst; apply Z.pow2_bits_true; lia|].
  apply Z.pow2_bits_false. lia.
Qed.

Lemma flips_S ber g n : flips ber (next_u64 g).1 n = flips ber g (S n).
Proof. reflexivity. Qed.

Lemma corrupt_byte_spec ber n : ∀ a g byte,
  (corrupt_byte ber (Z.of_nat <$> seq a n) g byte).1 = skip n g ∧
  ∀ i, Z.testbit (corrupt_byte ber (Z.of_nat <$> seq a n) g byte).2 (Z.of_nat i) =
       xorb (Z.testbit byte (Z.of_nat i))
         (bool_decide (a ≤ i < a + n)%nat && flips ber g (i - a)).
Proof.
  induction n as [|n IH]; intros a g byte.
  - split; [done|]. intros i. rewrite bool_decide_false by lia. by rewrite xorb_false_r.
  - cbn [seq fmap list_fmap corrupt_byte]. destruct (next_unit g) as [g' u] eqn:E.
    assert (g' = (next_u64 g).1) as -> by (rewrite <- next_unit_fst, E; done).
    assert (SFltb (f64.of_f32 u) ber = flips ber g 0) as Hf
      by (unfold flips, draw; cbn [skip]; rewrite E; done).
    rewrite Hf.
    destruct (IH (S a) (next_u64 g).1
      (if flips ber g 0 then Z.lxor byte (Z.shiftl 1 (Z.of_nat a)) else byte)) as [I1 I2].
    split; [exact I1|]. intros i. rewrite I2, flips_S.
    destruct (decide (i = a)) as [->|Hne].
    + rewrite bool_decide_false, xorb_false_r, bool_decide_true by lia.
      rewrite Nat.sub_diag. cbn [andb].
      destruct (flips ber g 0); [|by rewrite xorb_false_r].
      rewrite flip_testbit. by rewrite bool_decide_true.
    + replace (Z.testbit (if flips ber g 0 then Z.lxor byte (Z.shiftl 1 (Z.of_nat a)) else byte)
        (Z.of_nat i)) with (Z.testbit byte (Z.of_nat i)).
      * f_equal. destruct (decide (S a ≤ i < S a + n)%nat).
        -- rewrite !bool_decide_true by lia. do 2 f_equal. lia.
        -- by rewrite !bool_decide_false by lia.
      * destruct (flips ber g 0); [|done]. rewrite flip_testbit, bool_decide_false by done.
        by rewrite xorb_false_r.
Qed.

Lemma corrupt_byte_u8 ber bits g byte :
  Forall (λ b, 0 ≤ b < 8) bits → u8 byte → u8 (corrupt_byte ber bits g byte).2.
Proof.
  intros Hb. revert g byte. induction Hb as [|b bits Hb _ IH]; intros g byte Hy; [done|].
  cbn [corrupt_byte]. destruct (next_unit g) as [g' u]. apply IH. case_match; [|done].
  apply lxor_uint; [lia|done|]. rewrite Z.shiftl_1_l. split; [apply Z.pow_nonneg; lia|].
  apply Z.pow_lt_mono_r; lia.
Qed.

Lemma corrupt_payload_spec ber p : ∀ g,
  (corrupt_payload ber g p).1 = skip (8 * length p) g ∧
  length (corrupt_payload ber g p).2 = length p ∧
  (bytes_ok p → bytes_ok (corrupt_payload ber g p).2) ∧
  ∀ j i, (i < 8)%nat →
    Z.testbit (nth j (corrupt_payload ber g p).2 0) (Z.of_nat i) =
    xorb (Z.testbit (nth j p 0) (Z.of_nat i))
      (bool_decide (j < length p)%nat && flips ber g (8 * j + i)).
Proof.
  induction p as [|y p IH]; intros g.
  - split_and!; try done. intros j i _. rewrite bool_decide_false by (cbn; lia).
    cbn [andb]. by rewrite xorb_false_r.
  - cbn [corrupt_payload].
    destruct (corrupt_byte_spec ber 8 0 g y) as [B1 B2].
    change (Z.of_nat <$> seq 0 8) with BITS in B1, B2.
    destruct (corrupt_byte ber BITS g y) as [g1 y1] eqn:E1. cbn [fst snd] in *. subst g1.
    destruct (IH (skip 8 g)) as (I1 & I2 & I3 & I4).
    destruct (corrupt_payload ber (skip 8 g) p) as [g2 p2]. cbn [fst snd] in *. split_and!.
    + rewrite I1, <- skip_add. f_equal. cbn [length]. lia.
    + cbn [length]. by rewrite I2.
    + intros [Hy Hp]%Forall_cons. constructor; [|by apply I3].
      pose proof (corrupt_byte_u8 ber BITS g y) as U. rewrite E1 in U. apply U; [|done].
      repeat constructor; lia.
    + intros [|j] i Hi; cbn [nth].
      * rewrite B2, Nat.sub_0_r. by rewrite !bool_decide_true by (cbn [length]; lia).
      * rewrite I4 by done. f_equal. f_equal.
        -- apply bool_decide_ext. cbn [length]. lia.
        -- unfold flips, draw. do 4 f_equal. rewrite <- skip_add. f_equal. lia.
Qed.

(** The channel keeps the ranges of the Rust types, bit errors or not. *)
Lemma transmit_ok c t : Transient_ok t → Transient_ok (transmit c t).2.
Proof.
  intros (Hw & Ht & Ho & Hm & Hp). unfold transmit.
  destruct (corrupt_payload_spec (bit_error_rate c) (payload t) (rng c)) as (_ & _ & C & _).
  destruct (SFltb _ _); [destruct (corrupt_payload _ _ _)|]; cbn [snd] in *; split_and!; auto;
    unfold Trajectory_ok; done.
Qed.

(** ** Properties *)

(** The xorshift generator never reaches the stuck state 0 from a seeded
    state, and no two states ever step to the same state: from any seed,
    [next_u64] walks a permutation of the nonzero 64-bit words. *)
Theorem rng_never_stuck (seed : Z) (n : nat) :
  u64 seed →
  u64 (state (skip n (ChannelRng_new seed))) ∧ state (skip n (ChannelRng_new seed)) ≠ 0 ∧
  ∀ g, u64 (state g) → state (skip n g) = state (skip n (ChannelRng_new seed)) →
       g = ChannelRng_new seed.
Proof.
  intros Hs.
  assert (u64 (state (ChannelRng_new seed)) ∧ state (ChannelRng_new seed) ≠ 0) as [Hu Hn].
  { unfold ChannelRng_new. cbn [state]. destruct (Z.eqb_spec seed 0); [|done].
    unfold in_uint. lia. }
  split_and!; [by apply skip_ok..|]. intros g Hg E. by eapply skip_inj.
Qed.

Lemma rng_never_stuck_witness : state (skip 3 (ChannelRng_new 0)) ≠ 0.
Proof. exact (proj1 (proj2 (rng_never_stuck 0 3 ltac:(vm_compute; split; congruence)))). Defined.

(** What the channel does to a Transient.  Wavelength, OAM mode and
    microstructure arrive as sent, the payload keeps its length, and each of the
    16 samples is the rotated one.  With a bit error rate of zero or below (or
    NaN) the payload arrives as sent and no random number is drawn; otherwise
    bit [i] of byte [j] is flipped exactly when draw [8 j + i] is below the
    rate, and 8 draws per byte are consumed. *)
Theorem transmit_spec (c : Channel) (t : Transient) :
  let '(c', t') := transmit c t in
  wavelength t' = wavelength t ∧ oam t' = oam t ∧ micro t' = micro t ∧
  length (payload t') = length (payload t) ∧
  (bytes_ok (payload t) → bytes_ok (payload t')) ∧
  Trajectory_ok (polarization t') ∧
  (∀ i, (i < TRAJECTORY_SAMPLES)%nat →
     nth i (samples (polarization t')) Stokes_H =
     rotation_apply (pmd_rotation c) (nth i (samples (polarization t)) Stokes_H)) ∧
  if SFltb (S754_zero false) (bit_error_rate c) then
    rng c' = skip (8 * length (payload t)) (rng c) ∧
    ∀ j i, (i < 8)%nat →
      Z.testbit (nth j (payload t') 0) (Z.of_nat i) =
      xorb (Z.testbit (nth j (payload t) 0) (Z.of_nat i))
        (bool_decide (j < length (payload t))%nat && flips (bit_error_rate c) (rng c) (8 * j + i))
  else c' = c ∧ payload t' = payload t.
Proof.
  unfold transmit. destruct (corrupt_payload_spec (bit_error_rate c) (payload t) (rng c))
    as (C1 & C2 & C3 & C4).
  assert (∀ i, (i < TRAJECTORY_SAMPLES)%nat →
     nth i ((λ i, rotation_apply (pmd_rotation c) (nth i (samples (polarization t)) Stokes_H))
       <$> seq 0 TRAJECTORY_SAMPLES) Stokes_H =
     rotation_apply (pmd_rotation c) (nth i (samples (polarization t)) Stokes_H)) as Hs.
  { intros i Hi. by rewrite nth_lookup, list_lookup_fmap, lookup_seq_lt. }
  destruct (SFltb _ _).
  - destruct (corrupt_payload _ _ _) as [g p]. cbn [fst snd] in *. by split_and!.
  - split_and!; try done. by destruct c.
Qed.

(** the documentation of [next_unit] gives the range [0, 1), but the division
    by [u32::MAX as f32], which rounds to 2^32, reaches 1.0: this state of the
    generator returns it.  At a bit error rate of 1.0 such a draw flips no bit. *)
Theorem next_unit_reaches_one :
  (next_unit (ChannelRng_new 0xc08e044042dba5b4)).2 = f32.one ∧
  flips (f64.of_Z 1) (ChannelRng_new 0xc08e044042dba5b4) 0 = false.
Proof. split; vm_compute; reflexivity. Qed.

(** *** The winding number under a half turn about s1 *)

Definition Stokes_A : StokesVector := mkStokes f32.zero (f32.of_Z (-1)) f32.zero.

(** One counter-clockwise loop around the equator, four samples per axis. *)
Definition equator_loop : PolarizationTrajectory :=
  PolarizationTrajectory_new
    (replicate 4 Stokes_H ++ replicate 4 Stokes_D ++ replicate 4 Stokes_V ++ replicate 4 Stokes_A).

Definition rotate_trajectory (r : PoincareRotation) (t : PolarizationTrajectory)
    : PolarizationTrajectory :=
  PolarizationTrajectory_new (rotation_apply r <$> samples t).

Definition PI_2 : float := f32.div f32.PI (f32.of_Z 2).

(** The libm values on the axes, and the sine and cosine of the [f32] nearest to
    pi, each correctly rounded. *)
Class LibmAxes `{Libm} : Prop := {
  cos_pi : f32_cos f32.PI = f32.of_Z (-1);
  sin_pi : f32_sin f32.PI = S754_finite true 12303662 (-47);
  atan2_h : f32_atan2 f32.zero f32.one = f32.zero;
  atan2_d : f32_atan2 f32.one f32.zero = PI_2;
  atan2_v : f32_atan2 f32.zero (f32.of_Z (-1)) = f32.PI;
  atan2_a : f32_atan2 (f32.of_Z (-1)) f32.zero = f32.opp PI_2;
}.

#[export] Instance toy_libm_axes : @LibmAxes ToyLibm.toy_libm.
Proof. constructor; vm_compute; reflexivity. Qed.

(** The angle step as a function of the two angles. *)
Definition step_of (ta tb : float) : float :=
  wrap_below WRAP_FUEL (wrap_above WRAP_FUEL (f32.sub tb ta)).

Definition winding_of (angles : list float) : Z :=
  f32.to_i32 (f32.round (f32.div
    (fold_left (λ acc i, f32.add acc
       (step_of (nth i angles f32.zero) (nth ((i + 1) mod TRAJECTORY_SAMPLES)%nat angles f32.zero)))
       (seq 0 TRAJECTORY_SAMPLES) f32.zero) f32.TWO_PI)).

Lemma winding_angles `{Libm} l :
  length l = TRAJECTORY_SAMPLES →
  winding_number_s3 (mkTrajectory l) = winding_of ((λ v, f32_atan2 (s2 v) (s1 v)) <$> l).
Proof.
  intros Hl. unfold winding_number_s3, winding_of, total_angle. cbn [samples]. do 3 f_equal.
  set (g := λ v, f32_atan2 (s2 v) (s1 v)).
  assert (∀ i, (i < TRAJECTORY_SAMPLES)%nat → nth i (g <$> l) f32.zero = g (nth i l Stokes_H)) as Hg.
  { intros i Hi. rewrite !nth_lookup, list_lookup_fmap.
    destruct (lookup_lt_is_Some_2 l i ltac:(lia)) as [v ->]. done. }
  assert (∀ idx, Forall (λ i, (i < TRAJECTORY_SAMPLES)%nat) idx → ∀ acc,
    fold_left (λ acc i, f32.add acc (angle_step (nth i l Stokes_H)
      (nth ((i + 1) mod TRAJECTORY_SAMPLES)%nat l Stokes_H))) idx acc =
    fold_left (λ acc i, f32.add acc (step_of (nth i (g <$> l) f32.zero)
      (nth ((i + 1) mod TRAJECTORY_SAMPLES)%nat (g <$> l) f32.zero))) idx acc) as Hfold.
  { induction 1 as [|i idx Hi _ IH]; intros acc; [done|]. cbn [fold_left]. rewrite IH.
    rewrite (Hg i), (Hg ((i + 1) mod TRAJECTORY_SAMPLES)%nat);
      [done|apply Nat.mod_upper_bound; done|done]. }
  apply Hfold, Forall_forall. intros i Hi%elem_of_seq. lia.
Qed.

(** The rotated axes: D and A change places, up to the rounding error of the
    sine of pi in the third component. *)
Lemma half_turn_axes `{LibmAxes} v :
  (v = Stokes_H ∨ v = Stokes_D ∨ v = Stokes_V ∨ v = Stokes_A) →
  s1 (rotation_apply (about_s1 f32.PI) v) = s1 v ∧
  s2 (rotation_apply (about_s1 f32.PI) v) =
    (if SFeqb (s2 v) f32.zero then f32.zero else f32.opp (s2 v)).
Proof.
  intros Hv. unfold about_s1. rewrite cos_pi, sin_pi.
  destruct Hv as [-> | [-> | [-> | ->]]]; split; vm_compute; reflexivity.
Qed.

(** the winding number is not invariant under rotations of the Poincaré
    sphere, although the documentation of [winding_number_s3] and of the
    topological mode says so: the equatorial loop has winding number 1, and
    after a half turn about the s1 axis, a rotation the channel model builds,
    it has winding number -1. *)
Theorem winding_not_rotation_invariant `{LibmAxes} :
  winding_number_s3 equator_loop = 1 ∧
  winding_number_s3 (rotate_trajectory (about_s1 f32.PI) equator_loop) = -1.
Proof.
  pose proof (half_turn_axes Stokes_H ltac:(tauto)) as [H1 H2].
  pose proof (half_turn_axes Stokes_D ltac:(tauto)) as [D1 D2].
  pose proof (half_turn_axes Stokes_V ltac:(tauto)) as [V1 V2].
  pose proof (half_turn_axes Stokes_A ltac:(tauto)) as [A1 A2].
  unfold rotate_trajectory, equator_loop, PolarizationTrajectory_new.
  cbn [samples replicate app fmap list_fmap].
  rewrite !winding_angles by done. cbn [fmap list_fmap].
  rewrite H1, H2, D1, D2, V1, V2, A1, A2.
  change (SFeqb (s2 Stokes_H) f32.zero) with true.
  change (SFeqb (s2 Stokes_V) f32.zero) with true.
  change (SFeqb (s2 Stokes_D) f32.zero) with false.
  change (SFeqb (s2 Stokes_A) f32.zero) with false.
  cbn [s1 s2 Stokes_H Stokes_D Stokes_V Stokes_A].
  change (f32.opp f32.one) with (f32.of_Z (-1)). change (f32.opp (f32.of_Z (-1))) with f32.one.
  rewrite atan2_h, atan2_d, atan2_v, atan2_a. split; vm_compute; reflexivity.
Qed.

Lemma winding_not_rotation_invariant_witness :
  @winding_number_s3 ToyLibm.toy_libm equator_loop = 1.
Proof. exact (proj1 (@winding_not_rotation_invariant ToyLibm.toy_libm toy_libm_axes)). Defined.
