(* ===== verification/Obg.v ===== *)
(** * otap-obg: the bridge gateway's host library

    Models [src/crates/otap-obg/src/lib.rs]: work requests, the send and
    completion queues, the software driver built from a register file, and
    [arm_register_file]. *)

From S2P Require Import Prelude Float Core External Crypto Schema Codec Csr.
Local Open Scope Z_scope.

Inductive ObgError : Type :=
| SendQueueFull
| CompletionQueueEmpty
| PayloadSize (expected got : Z)
| ObgProtocol (e : ProtocolError)
| ObgCsr (e : CsrError)
| NotArmed (msg : string).

Abbreviation ObgResult A := (result A ObgError).

(** ** Work requests *)

Record WorkRequest : Type := mkWorkRequest {
  version : Z;
  wr_schema_id : SchemaId;
  wr_wavelength : Wavelength;
  payload_len : Z;
  wr_cookie : Z;
  flags : Z;
}.

Definition WorkRequest_new (id : SchemaId) (w : Wavelength) (payload_len cookie : Z)
    : WorkRequest :=
  mkWorkRequest 1 id w payload_len cookie 0.

Definition validate (wr : WorkRequest) : ObgResult unit :=
  let expected := Z.of_nat (payload_bytes (wr_schema_id wr)) in
  if negb (expected =? payload_len wr) then
    Err (ObgProtocol (SchemaMismatch 0 expected (payload_len wr)))
  else Ok ().

Record Completion : Type := mkCompletion {
  c_value : AnySchemaValue;
  c_auth_ok : bool;
  c_sequence : Z;
  c_cookie : Z;
}.

(** ** Queues *)

Record SendQueue : Type := mkSendQueue {
  requests : list (WorkRequest * bytes);
  sq_capacity : nat;
}.

Definition SendQueue_new (capacity : nat) : SendQueue := mkSendQueue [] capacity.
Definition SendQueue_len (q : SendQueue) : nat := length (requests q).
Definition SendQueue_is_empty (q : SendQueue) : bool := bool_decide (requests q = []).

Definition post (wr : WorkRequest) (payload : bytes) : state_result SendQueue unit ObgError :=
  λ q,
    match validate wr with
    | Err e => (q, Err e)
    | Ok _ =>
        if (sq_capacity q <=? length (requests q))%nat then (q, Err SendQueueFull)
        else (mkSendQueue (requests q ++ [(wr, payload)]) (sq_capacity q), Ok ())
    end.

Definition SendQueue_pop (q : SendQueue) : SendQueue * option (WorkRequest * bytes) :=
  match requests q with
  | [] => (q, None)
  | r :: rs => (mkSendQueue rs (sq_capacity q), Some r)
  end.

Record CompletionQueue : Type := mkCompletionQueue {
  completions : list Completion;
  cq_capacity : nat;
}.

Definition CompletionQueue_new (capacity : nat) : CompletionQueue := mkCompletionQueue [] capacity.
Definition CompletionQueue_len (q : CompletionQueue) : nat := length (completions q).
Definition CompletionQueue_is_empty (q : CompletionQueue) : bool := bool_decide (completions q = []).

Definition poll (q : CompletionQueue) : CompletionQueue * option Completion :=
  match completions q with
  | [] => (q, None)
  | c :: cs => (mkCompletionQueue cs (cq_capacity q), Some c)
  end.

(** A full queue drops its oldest completion first. *)
Definition push (c : Completion) (q : CompletionQueue) : CompletionQueue :=
  let cs :=
    if (cq_capacity q <=? length (completions q))%nat then tail (completions q)
    else completions q in
  mkCompletionQueue (cs ++ [c]) (cq_capacity q).

(** ** Driver *)

Record DriverConfig : Type := mkDriverConfig {
  drv_wavelength : Wavelength;
  drv_auth_mode : AuthMode;
}.

Record SoftDriver : Type := mkDriver {
  encoder : Encoder;
  decoder : Decoder;
  drv_config : DriverConfig;
}.

Definition from_csr (rf : RegisterFile) : ObgResult SoftDriver :=
  let? w := map_err ObgCsr (view_wavelength rf) in
  let? osecret := map_err ObgCsr (shared_secret rf) in
  let? secret := ok_or osecret (NotArmed "shared secret not loaded") in
  let? ctrl := map_err ObgCsr (view_ctrl rf) in
  let? tolerance := map_err ObgCsr (view_auth_tolerance rf) in
  let mode :=
    if negb (Z.land ctrl CTRL_AUTH_TOPOLOGICAL =? 0) then Topological
    else TrajectoryMatch (fmax tolerance (f32.lit 1 10000)) in
  Ok (mkDriver (Encoder_new secret w) (Decoder_new (mkDecoderConfig secret w mode))
        (mkDriverConfig w mode)).

Definition refresh_from_csr (rf : RegisterFile) : state_result SoftDriver unit ObgError :=
  λ d, match from_csr rf with Ok d' => (d', Ok ()) | Err e => (d, Err e) end.

Definition SoftDriver_wavelength (d : SoftDriver) : Wavelength := drv_wavelength (drv_config d).

Definition oam_for_schema (id : SchemaId) : OamMode :=
  match id with
  | IdEquityTradeOrder => OAM_MODE EquityTradeOrder
  | IdMarketTick => OAM_MODE MarketTick
  | IdHeartbeat => OAM_MODE Heartbeat
  end.

Section driver.
Context `{HmacSha256} `{Libm}.

(** [while let Some((wr, payload)) = send.pop()]: each round removes a request. *)
Fixpoint transmit_requests (e : Encoder) (rs : list (WorkRequest * bytes))
    : Encoder * list (Transient * Z) :=
  match rs with
  | [] => (e, [])
  | (wr, payload) :: rs =>
      let '(e, t) := encode_raw e (oam_for_schema (wr_schema_id wr)) payload in
      let '(e, out) := transmit_requests e rs in (e, (t, wr_cookie wr) :: out)
  end.

Definition transmit_pending (d : SoftDriver) (q : SendQueue)
    : SoftDriver * SendQueue * list (Transient * Z) :=
  let '(e, out) := transmit_requests (encoder d) (requests q) in
  (mkDriver e (decoder d) (drv_config d), mkSendQueue [] (sq_capacity q), out).

(** One round of the loop: [pop], encode, go on. *)
Lemma transmit_pending_round d q :
  transmit_pending d q =
  match SendQueue_pop q with
  | (q, None) => (d, q, [])
  | (q, Some (wr, payload)) =>
      let '(e, t) := encode_raw (encoder d) (oam_for_schema (wr_schema_id wr)) payload in
      let '(d, q, out) := transmit_pending (mkDriver e (decoder d) (drv_config d)) q in
      (d, q, (t, wr_cookie wr) :: out)
  end.
Proof.
  destruct d as [e dc c], q as [[|[wr p] rs] cap]; [done|].
  unfold transmit_pending. cbn [SendQueue_pop requests sq_capacity encoder decoder drv_config transmit_requests].
  destruct (encode_raw e _ p) as [e' t]. by destruct (transmit_requests e' rs).
Qed.

Definition receive (d : SoftDriver) (t : Transient) (cq : CompletionQueue) : CompletionQueue :=
  match Decoder_decode (decoder d) t with
  | Ok r => push (mkCompletion (rep_value r) (rep_auth_ok r) (sequence (rep_micro r)) 0) cq
  | Err _ => cq
  end.
End driver.

Definition csr_op (m : state_result RegisterFile unit CsrError)
    : state_result RegisterFile unit ObgError := sr_map_err ObgCsr m.

Definition arm_register_file (w : Wavelength) (secret : bytes) (topological_auth : bool)
    : state_result RegisterFile unit ObgError :=
  exec! csr_op (set_wavelength w);
  exec! csr_op (set_secret secret);
  let ctrl :=
    Z.lor (Z.lor CTRL_ENABLE_TX CTRL_ENABLE_RX)
      (if topological_auth then CTRL_AUTH_TOPOLOGICAL else 0) in
  exec! csr_op (set_ctrl ctrl);
  exec! csr_op (set_auth_tolerance (f32.lit 1 100));
  exec! csr_op (set_schema_payload 1 (wrap 16 (Z.of_nat (PAYLOAD_BYTES EquityTradeOrder))));
  exec! csr_op (set_schema_payload 2 (wrap 16 (Z.of_nat (PAYLOAD_BYTES MarketTick))));
  exec! csr_op (set_schema_payload 3 (wrap 16 (Z.of_nat (PAYLOAD_BYTES Heartbeat))));
  exec! csr_op (set_oam_to_schema (OAM_MODE EquityTradeOrder) 1);
  exec! csr_op (set_oam_to_schema (OAM_MODE MarketTick) 2);
  exec! csr_op (set_oam_to_schema (OAM_MODE Heartbeat) 3);
  sr_ret ().

(** ** Arming *)

(** The register writes of [arm_register_file], in order. *)
Definition base_writes (w : Wavelength) (secret : bytes) (topo : bool) : list CsrWrite :=
  [WriteWavelength w; WriteSecret secret;
   WriteCtrl (Z.lor (Z.lor CTRL_ENABLE_TX CTRL_ENABLE_RX)
                (if topo then CTRL_AUTH_TOPOLOGICAL else 0));
   WriteTolerance (f32.lit 1 100)].

Definition schema_writes : list CsrWrite :=
  [WritePayload 1 256; WritePayload 2 64; WritePayload 3 32;
   WriteOam ORDER_OAM 1; WriteOam TICK_OAM 2; WriteOam HEARTBEAT_OAM 3].

Definition arm_writes (w : Wavelength) (secret : bytes) (topo : bool) : list CsrWrite :=
  base_writes w secret topo ++ schema_writes.

Lemma csr_op_run op rf :
  CsrWrite_ok op → accepts op → RegisterFile_ok rf →
  csr_op (exec_write op) rf = (run_writes [op] rf, Ok ()).
Proof. intros. unfold csr_op, sr_map_err. by rewrite exec_write_run. Qed.

Lemma run_write_ok op rf :
  CsrWrite_ok op → RegisterFile_ok rf → RegisterFile_ok (run_writes [op] rf).
Proof. intros. apply run_writes_refines; [by constructor|done]. Qed.

Lemma bind_write op (k : state_result RegisterFile unit ObgError) rf :
  CsrWrite_ok op → accepts op → RegisterFile_ok rf →
  sr_bind (csr_op (exec_write op)) (λ _, k) rf = k (run_writes [op] rf).
Proof. intros. unfold sr_bind. by rewrite csr_op_run. Qed.

Lemma base_writes_ok w secret topo :
  Wavelength_ok w → array_ok 32 secret →
  Forall CsrWrite_ok (base_writes w secret topo) ∧ Forall accepts (base_writes w secret topo).
Proof.
  intros. split; [|repeat constructor].
  repeat (constructor; [first [done | destruct topo; vm_compute; split; congruence]|]).
  constructor.
Qed.

Lemma schema_writes_ok : Forall CsrWrite_ok schema_writes ∧ Forall accepts schema_writes.
Proof.
  split; repeat (constructor; [vm_compute; repeat split; congruence|]); constructor.
Qed.

(** Run a list of accepted writes as one sequence of calls. *)
Definition write_all (ops : list CsrWrite) : state_result RegisterFile unit ObgError :=
  sr_for ops (λ op, csr_op (exec_write op)).

Lemma write_all_run ops rf :
  Forall CsrWrite_ok ops → Forall accepts ops → RegisterFile_ok rf →
  write_all ops rf = (run_writes ops rf, Ok ()).
Proof.
  intros Hops. revert rf. induction Hops as [|op ops Hop Hops IH]; intros rf Ha Hrf; [done|].
  apply Forall_cons in Ha as [Ha Has]. unfold write_all. cbn [sr_for].
  rewrite bind_write by done. apply IH; [done|]. by apply run_write_ok.
Qed.

Lemma arm_write_all w secret topo :
  arm_register_file w secret topo = write_all (arm_writes w secret topo).
Proof. reflexivity. Qed.

Lemma arm_writes_ok w secret topo :
  Wavelength_ok w → array_ok 32 secret →
  Forall CsrWrite_ok (arm_writes w secret topo) ∧ Forall accepts (arm_writes w secret topo).
Proof.
  intros Hw Hs. destruct (base_writes_ok w secret topo Hw Hs), schema_writes_ok.
  split; by apply Forall_app.
Qed.

Lemma arm_run w secret topo rf :
  Wavelength_ok w → array_ok 32 secret → RegisterFile_ok rf →
  arm_register_file w secret topo rf = (run_writes (arm_writes w secret topo) rf, Ok ()).
Proof.
  intros Hw Hs Hrf. rewrite arm_write_all. by apply write_all_run; [apply arm_writes_ok..|].
Qed.

(** ** Latching a configuration *)

(** The driver [from_csr] builds from a wavelength, a secret and a mode. *)
Definition driver_for (w : Wavelength) (secret : SharedSecret) (mode : AuthMode) : SoftDriver :=
  mkDriver (Encoder_new secret w) (Decoder_new (mkDecoderConfig secret w mode))
    (mkDriverConfig w mode).

(** The mode a control word and a tolerance in milliradians select. *)
Definition latched_mode (ctrl mrad : Z) : AuthMode :=
  if Z.testbit ctrl 2 then Topological
  else TrajectoryMatch (fmax (f32.div (f32.of_Z mrad) (f32.of_Z 1000)) (f32.lit 1 10000)).

Lemma ctrl_topological_bit v : negb (Z.land v CTRL_AUTH_TOPOLOGICAL =? 0) = Z.testbit v 2.
Proof.
  change CTRL_AUTH_TOPOLOGICAL with (2 ^ 2). destruct (Z.eqb_spec (Z.land v (2 ^ 2)) 0) as [E|E].
  - apply (f_equal (λ z, Z.testbit z 2)) in E. rewrite Z.land_spec in E.
    change (Z.testbit (2 ^ 2) 2) with true in E. by rewrite andb_true_r, Z.bits_0 in E.
  - destruct (Z.testbit v 2) eqn:B; [done|]. exfalso. apply E. apply Z.bits_inj'. intros n Hn.
    rewrite Z.land_spec, Z.bits_0, Z.pow2_bits_eqb by lia.
    destruct (Z.eqb_spec 2 n) as [<-|]; [by rewrite B|by rewrite andb_false_r].
Qed.

Lemma from_csr_abs rf :
  from_csr rf =
  match Wavelength_new (cfg_wavelength (abs rf)), cfg_secret (abs rf) with
  | Err e, _ => Err (ObgCsr (CsrProtocol e))
  | Ok _, None => Err (NotArmed "shared secret not loaded")
  | Ok w, Some s =>
      Ok (driver_for w (SharedSecret_new s)
            (latched_mode (cfg_ctrl (abs rf)) (cfg_tolerance (abs rf))))
  end.
Proof.
  unfold from_csr. rewrite view_wavelength_abs. destruct (Wavelength_new _) as [w|e]; [|done].
  cbn [map_err rbind]. rewrite shared_secret_abs. destruct (cfg_secret (abs rf)) as [s|]; [|done].
  cbn [fmap option_fmap option_map map_err rbind ok_or].
  rewrite view_ctrl_abs, view_auth_tolerance_abs. cbn [map_err rbind].
  by rewrite ctrl_topological_bit.
Qed.

(** Opening a driver.  [from_csr] fails with the wavelength error when the
    wavelength register holds no C-band channel, whatever the secret; else with
    [NotArmed] exactly when no secret was ever loaded; else the driver encodes
    and decodes with the secret and wavelength of the register file, in
    topological mode exactly when bit 2 of the control word is set and otherwise
    with the programmed tolerance, never below 1e-4 rad.  [refresh_from_csr]
    replaces the whole driver, sequence counter included, or on an error keeps
    the old one. *)
Theorem from_csr_spec (rf : RegisterFile) (d : SoftDriver) :
  let c := abs rf in
  from_csr rf =
    match Wavelength_new (cfg_wavelength c), cfg_secret c with
    | Err e, _ => Err (ObgCsr (CsrProtocol e))
    | Ok _, None => Err (NotArmed "shared secret not loaded")
    | Ok w, Some s =>
        Ok (driver_for w (SharedSecret_new s) (latched_mode (cfg_ctrl c) (cfg_tolerance c)))
    end ∧
  refresh_from_csr rf d =
    match from_csr rf with Ok d' => (d', Ok ()) | Err e => (d, Err e) end.
Proof. split; [apply from_csr_abs|done]. Qed.

Lemma arm_config w secret topo c :
  let c' := spec_run (arm_writes w secret topo) c in
  cfg_wavelength c' = channel w ∧ cfg_secret c' = Some secret ∧
  cfg_ctrl c' = (if topo then 7 else 3) ∧ cfg_tolerance c' = 10 ∧
  cfg_payloads c' = <[3%nat := 32]> (<[2%nat := 64]> (<[1%nat := 256]> (cfg_payloads c))) ∧
  cfg_oams c' =
    <[Z.to_nat (charge HEARTBEAT_OAM + 16) := 3]>
      (<[Z.to_nat (charge TICK_OAM + 16) := 2]>
        (<[Z.to_nat (charge ORDER_OAM + 16) := 1]> (cfg_oams c))).
Proof. by destruct topo. Qed.

(** A configuration with these registers opens the driver for them. *)
Lemma from_csr_configured w secret (topo : bool) rf :
  Wavelength_ok w → cfg_wavelength (abs rf) = channel w → cfg_secret (abs rf) = Some secret →
  cfg_ctrl (abs rf) = (if topo then 7 else 3) → cfg_tolerance (abs rf) = 10 →
  from_csr rf =
  Ok (driver_for w (SharedSecret_new secret)
        (if topo then Topological else TrajectoryMatch (f32.div (f32.of_Z 10) (f32.of_Z 1000)))).
Proof.
  intros Hw Ew Es Ec Et. rewrite from_csr_abs, Ew, Es, Ec, Et, Wavelength_new_channel by done.
  by destruct topo.
Qed.

Lemma arm_from_csr w secret topo rf :
  Wavelength_ok w → array_ok 32 secret → RegisterFile_ok rf →
  from_csr (arm_register_file w secret topo rf).1 =
  Ok (driver_for w (SharedSecret_new secret)
        (if topo then Topological else TrajectoryMatch (f32.div (f32.of_Z 10) (f32.of_Z 1000)))).
Proof.
  intros Hw Hs Hrf. rewrite arm_run by done. cbn [fst].
  destruct (run_writes_refines _ _ (proj1 (arm_writes_ok w secret topo Hw Hs)) Hrf) as [_ Habs].
  destruct (arm_config w secret topo (abs rf)) as (Ew & Es & Ec & Et & _).
  apply from_csr_configured; rewrite ?Habs; done.
Qed.

(** Arming then opening.  On any register file, [arm_register_file] with a
    valid channel and a 32-byte secret succeeds, keeps every word in range, and
    [from_csr] then yields the driver for that channel, that secret and the
    requested mode (topological, or trajectory matching within 10 mrad); the
    payload and OAM tables gain the three canonical schemas under ids 1, 2, 3
    and keep every other entry. *)
Theorem arm_then_open (w : Wavelength) (secret : bytes) (topo : bool) (rf : RegisterFile) :
  Wavelength_ok w → array_ok 32 secret → RegisterFile_ok rf →
  ∃ rf', arm_register_file w secret topo rf = (rf', Ok ()) ∧ RegisterFile_ok rf' ∧
    from_csr rf' =
      Ok (driver_for w (SharedSecret_new secret)
            (if topo then Topological
             else TrajectoryMatch (f32.div (f32.of_Z 10) (f32.of_Z 1000)))) ∧
    cfg_payloads (abs rf') =
      <[3%nat := 32]> (<[2%nat := 64]> (<[1%nat := 256]> (cfg_payloads (abs rf)))) ∧
    cfg_oams (abs rf') =
      <[20%nat := 3]> (<[19%nat := 2]> (<[17%nat := 1]> (cfg_oams (abs rf)))).
Proof.
  intros Hw Hs Hrf. exists (run_writes (arm_writes w secret topo) rf).
  destruct (arm_writes_ok w secret topo Hw Hs) as [Hok _].
  destruct (run_writes_refines _ _ Hok Hrf) as [Hrf' Habs].
  destruct (arm_config w secret topo (abs rf)) as (Ew & Es & Ec & Et & Ep & Eo).
  split_and!; [by apply arm_run|done| |by rewrite Habs, Ep|by rewrite Habs, Eo].
  apply from_csr_configured; rewrite ?Habs; done.
Qed.

Definition demo_secret : bytes := replicate 32 0x42.

Lemma demo_secret_ok : array_ok 32 demo_secret.
Proof. split; [done|apply Forall_replicate; vm_compute; split; congruence]. Qed.

Lemma arm_then_open_witness :
  ∃ rf', arm_register_file (mkWavelength 40) demo_secret true RegisterFile_new = (rf', Ok ()) ∧
    from_csr rf' = Ok (driver_for (mkWavelength 40) (SharedSecret_new demo_secret) Topological).
Proof.
  destruct (arm_then_open (mkWavelength 40) demo_secret true RegisterFile_new
    ltac:(vm_compute; split; congruence) demo_secret_ok RegisterFile_new_ok)
    as (rf' & ? & _ & ? & _). by exists rf'.
Defined.

(** ** Queues *)

Definition push_all (cs : list Completion) (q : CompletionQueue) : CompletionQueue :=
  fold_left (λ q c, push c q) cs q.

(** A queue of capacity 0 still holds one completion. *)
Definition slots (q : CompletionQueue) : nat := Nat.max 1 (cq_capacity q).

Definition CompletionQueue_ok (q : CompletionQueue) : Prop :=
  (length (completions q) ≤ slots q)%nat.

Lemma push_newest c q :
  CompletionQueue_ok q →
  push c q = mkCompletionQueue (newest (slots q) (completions q ++ [c])) (cq_capacity q).
Proof.
  unfold CompletionQueue_ok, slots, push, newest. intros Hq. f_equal.
  rewrite length_app. cbn [length].
  destruct (Nat.leb_spec (cq_capacity q) (length (completions q))) as [Hle|Hlt].
  - destruct (completions q) as [|x l]; cbn [length tail app] in *.
    + by replace (0 + 1 - Nat.max 1 (cq_capacity q))%nat with 0%nat by lia.
    + by replace (S (length l) + 1 - Nat.max 1 (cq_capacity q))%nat with 1%nat by lia.
  - by replace (length (completions q) + 1 - Nat.max 1 (cq_capacity q))%nat with 0%nat by lia.
Qed.

Lemma push_ok c q : CompletionQueue_ok q → CompletionQueue_ok (push c q).
Proof.
  intros Hq. rewrite push_newest by done. unfold CompletionQueue_ok, newest, slots.
  cbn [completions cq_capacity]. rewrite length_drop. lia.
Qed.

Lemma push_all_newest cs : ∀ q,
  CompletionQueue_ok q →
  push_all cs q = mkCompletionQueue (newest (slots q) (completions q ++ cs)) (cq_capacity q).
Proof.
  induction cs as [|c cs IH] using rev_ind; intros q Hq; unfold push_all.
  - rewrite app_nil_r, newest_all by done. by destruct q.
  - rewrite fold_left_app. cbn [fold_left]. fold (push_all cs q). rewrite IH by done.
    rewrite push_newest; cycle 1.
    { unfold CompletionQueue_ok, newest, slots. cbn [completions cq_capacity].
      rewrite length_drop. lia. }
    cbn [completions cq_capacity]. f_equal. rewrite app_assoc. apply newest_snoc.
    unfold slots. lia.
Qed.

(** [n] calls of [poll]. *)
Fixpoint polls (n : nat) (q : CompletionQueue) : CompletionQueue * list Completion :=
  match n with
  | O => (q, [])
  | S n =>
      match poll q with
      | (q, None) => (q, [])
      | (q, Some c) => let '(q, cs) := polls n q in (q, c :: cs)
      end
  end.

Lemma polls_spec n : ∀ q,
  polls n q = (mkCompletionQueue (drop n (completions q)) (cq_capacity q), take n (completions q)).
Proof.
  induction n as [|n IH]; intros [cs cap]; [done|]. cbn [polls]. unfold poll.
  cbn [completions cq_capacity]. destruct cs as [|c cs]; [done|]. by rewrite IH.
Qed.

(** The completion queue is a bounded FIFO that keeps the newest completions:
    however many the driver pushes, polling returns the last [capacity] of them
    (the last one, for a queue of capacity 0), oldest first, each once; nothing
    is dropped while they fit. *)
Theorem completion_queue_keeps_newest (cap n : nat) (cs : list Completion) :
  let q := push_all cs (CompletionQueue_new cap) in
  CompletionQueue_len q = Nat.min (length cs) (Nat.max 1 cap) ∧
  (polls n q).2 = take n (newest (Nat.max 1 cap) cs) ∧
  CompletionQueue_len (polls n q).1 = (CompletionQueue_len q - n)%nat ∧
  (length cs ≤ cap → (polls n q).2 = take n cs)%nat.
Proof.
  cbv zeta. rewrite push_all_newest by (unfold CompletionQueue_ok, slots; cbn; lia).
  rewrite polls_spec. unfold CompletionQueue_len. unfold slots.
  cbn [fst snd CompletionQueue_new completions app cq_capacity]. split_and!.
  - unfold newest. rewrite length_drop. lia.
  - done.
  - apply length_drop.
  - intros. by rewrite newest_all by lia.
Qed.

(** A run of [post] calls, the errors dropped. *)
Definition post_all (rs : list (WorkRequest * bytes)) (q : SendQueue) : SendQueue :=
  fold_left (λ q r, (post r.1 r.2 q).1) rs q.

Definition valid_request (r : WorkRequest * bytes) : bool := is_ok (validate r.1).

Lemma post_all_requests rs : ∀ q,
  (length (requests q) ≤ sq_capacity q)%nat →
  post_all rs q =
  mkSendQueue (requests q ++ take (sq_capacity q - length (requests q))
                               (base.filter (λ r, valid_request r) rs)) (sq_capacity q).
Proof.
  induction rs as [|[wr p] rs IH]; intros q Hq; cbn [post_all fold_left].
  - cbn. rewrite take_nil, app_nil_r. by destruct q.
  - fold (post_all rs (post (wr, p).1 (wr, p).2 q).1). rewrite filter_cons.
    destruct (decide (valid_request (wr, p))) as [Hv|Hv]; unfold valid_request in Hv;
      unfold post; cbn [fst snd] in *; destruct (validate wr); try done; [|by apply IH].
    destruct (Nat.leb_spec (sq_capacity q) (length (requests q))).
    + cbn [fst]. rewrite IH by done.
      by replace (sq_capacity q - length (requests q))%nat with 0%nat by lia.
    + rewrite IH by (cbn [fst requests sq_capacity]; rewrite length_app; cbn; lia).
      cbn [fst requests sq_capacity]. rewrite length_app, <- app_assoc. cbn [length].
      by replace (sq_capacity q - length (requests q))%nat
        with (S (sq_capacity q - (length (requests q) + 1))) by lia.
Qed.

(** The send queue.  Of any run of posts into a new queue, the requests queued
    are the first [capacity] ones whose length field is the schema's payload
    size, in order; a further post reports the descriptor error if it has one,
    else [SendQueueFull] exactly when [capacity] requests are queued, and leaves
    the queue unchanged when it fails.  The payload itself is never looked at. *)
Theorem send_queue_bounded_fifo (cap : nat) (rs : list (WorkRequest * bytes))
    (wr : WorkRequest) (p : bytes) :
  let q := post_all rs (SendQueue_new cap) in
  requests q = take cap (base.filter (λ r, valid_request r) rs) ∧
  let '(q', r) := post wr p q in
  match r with
  | Ok _ =>
      payload_len wr = Z.of_nat (payload_bytes (wr_schema_id wr)) ∧
      (SendQueue_len q < cap)%nat ∧ requests q' = requests q ++ [(wr, p)]
  | Err e =>
      q' = q ∧
      (e = SendQueueFull ∧ SendQueue_len q = cap ∧
         payload_len wr = Z.of_nat (payload_bytes (wr_schema_id wr)) ∨
       e = ObgProtocol (SchemaMismatch 0 (Z.of_nat (payload_bytes (wr_schema_id wr)))
                          (payload_len wr)) ∧
         payload_len wr ≠ Z.of_nat (payload_bytes (wr_schema_id wr)))
  end.
Proof.
  cbv zeta. rewrite post_all_requests by (cbn [SendQueue_new requests length]; lia). cbn [SendQueue_new requests sq_capacity app].
  rewrite Nat.sub_0_r. split; [done|]. unfold post, validate, SendQueue_len.
  cbn [requests sq_capacity].
  pose proof (length_take_le (base.filter (λ r, valid_request r) rs) cap) as Hl.
  rewrite length_take in *.
  destruct (Z.eqb_spec (Z.of_nat (payload_bytes (wr_schema_id wr))) (payload_len wr)); cbn [negb].
  - destruct (Nat.leb_spec cap (cap `min` length (base.filter (λ r, valid_request r) rs))).
    + split; [done|]. left. split_and!; [done|lia|done].
    + split_and!; [done|lia|done].
  - split; [done|]. right. split; [done|congruence].
Qed.

(** ** Transmission and reception *)

Definition raw_message (r : WorkRequest * bytes) : OamMode * bytes :=
  (oam_for_schema (wr_schema_id r.1), r.2).

(** The request an application builds for a value. *)
Definition request_for (w : Wavelength) (m : AnySchemaValue * Z) : WorkRequest * bytes :=
  (WorkRequest_new (any_id m.1) w (wrap 32 (Z.of_nat (length (any_encode m.1)))) m.2,
   any_encode m.1).

Lemma request_for_valid w m : Any_ok m.1 → valid_request (request_for w m) = true.
Proof.
  intros Hm. unfold valid_request, validate, request_for.
  cbn [fst WorkRequest_new wr_schema_id payload_len]. rewrite any_encode_length by done.
  by destruct (any_id m.1).
Qed.

Lemma post_values w msgs cap :
  Forall (λ m, Any_ok m.1) msgs → (length msgs ≤ cap)%nat →
  requests (post_all (request_for w <$> msgs) (SendQueue_new cap)) = request_for w <$> msgs.
Proof.
  intros Hm Hc. rewrite post_all_requests by (cbn [SendQueue_new requests length]; lia).
  cbn [SendQueue_new requests sq_capacity app length]. rewrite Nat.sub_0_r.
  replace (base.filter (λ r, valid_request r) (request_for w <$> msgs))
    with (request_for w <$> msgs).
  - rewrite take_ge by (rewrite length_fmap; lia). done.
  - induction Hm as [|m msgs Hm _ IH]; [done|]. cbn [fmap list_fmap].
    rewrite filter_cons_True; [rewrite <- IH by (cbn in Hc; lia); done|].
    by rewrite request_for_valid.
Qed.

Section driver_lemmas.
Context `{HmacSha256} `{Libm}.

Lemma transmit_requests_encode rs : ∀ e,
  (transmit_requests e rs).1 = (encode_all e (raw_message <$> rs)).1 ∧
  (transmit_requests e rs).2.*1 = (encode_all e (raw_message <$> rs)).2 ∧
  (transmit_requests e rs).2.*2 = (λ r, wr_cookie r.1) <$> rs.
Proof.
  induction rs as [|[wr p] rs IH]; intros e; [done|]. rewrite !fmap_cons.
  change (raw_message (wr, p)) with (oam_for_schema (wr_schema_id wr), p).
  rewrite encode_all_cons. cbn [transmit_requests].
  destruct (encode_raw e (oam_for_schema (wr_schema_id wr)) p) as [e' t]. cbn [fst snd].
  destruct (IH e') as (I1 & I2 & I3). destruct (transmit_requests e' rs) as [e'' out].
  cbn [fst snd fmap list_fmap] in *. by rewrite I2, I3.
Qed.

(** Receiving a run of Transients. *)
Definition receive_all (d : SoftDriver) (ts : list Transient) (cq : CompletionQueue)
    : CompletionQueue :=
  fold_left (λ cq t, receive d t cq) ts cq.

Definition carries (d : SoftDriver) (t : Transient) (v : AnySchemaValue) : Prop :=
  wavelength t = expected_wavelength (config (decoder d)) ∧
  Any_decode (oam t) (payload t) = Ok v.

Definition completion_for (d : SoftDriver) (t : Transient) (v : AnySchemaValue) : Completion :=
  mkCompletion v
    (is_ok (verify_trajectory (dec_secret (config (decoder d))) (transient_context t)
              (polarization t) (auth_mode (config (decoder d)))))
    (sequence (micro t)) 0.

Lemma receive_carries d t v cq : carries d t v → receive d t cq = push (completion_for d t v) cq.
Proof. intros [Hw Hd]. unfold receive. by rewrite (Decoder_decode_ok _ _ v). Qed.

Lemma receive_all_carries d ts vs cq :
  Forall2 (carries d) ts vs →
  receive_all d ts cq = push_all (zip_with (completion_for d) ts vs) cq.
Proof.
  intros Hts. revert cq. induction Hts as [|t v ts vs Htv _ IH]; intros cq; [done|].
  cbn [receive_all fold_left zip_with push_all]. rewrite (receive_carries _ _ v) by done.
  apply IH.
Qed.

(** The Transient of the [i]-th value a driver sends. *)
Definition nth_transient (e : Encoder) (i : nat) (v : AnySchemaValue) : Transient :=
  (encode_raw (advance e i) (schema_oam (any_id v)) (any_encode v)).2.

Lemma transmitted_lookup e w msgs i m :
  u16 (next_sequence e) → msgs !! i = Some m →
  (transmit_requests e (request_for w <$> msgs)).2.*1 !! i = Some (nth_transient e i m.1).
Proof.
  intros He Hi. rewrite (proj1 (proj2 (transmit_requests_encode _ e))).
  apply encode_all_lookup; [done|]. rewrite !list_lookup_fmap, Hi.
  destruct m as [v c]; by destruct v.
Qed.

Lemma transmitted_length e rs : length (transmit_requests e rs).2 = length rs.
Proof.
  rewrite <- (length_fmap fst), (proj1 (proj2 (transmit_requests_encode _ e))).
  by rewrite encode_all_length, length_fmap.
Qed.

(** Whatever carries the same wavelength, mode, microstructure and payload is
    received as the same value. *)
Lemma nth_transient_carries d e i v t :
  Any_ok v → enc_wavelength e = expected_wavelength (config (decoder d)) →
  wavelength t = wavelength (nth_transient e i v) → oam t = oam (nth_transient e i v) →
  payload t = payload (nth_transient e i v) → carries d t v.
Proof.
  intros Hv Hw Et Eo Ep. split; [by rewrite Et|]. rewrite Eo, Ep. by apply any_decode_encode.
Qed.

Lemma nth_transient_auth e i v :
  is_ok (verify_trajectory (enc_secret e) (transient_context (nth_transient e i v))
           (polarization (nth_transient e i v)) Topological) = true.
Proof. exact (f_equal is_ok (verify_derived_topological (enc_secret e) _)). Qed.
End driver_lemmas.

(** The completions of a run of posted values, in posting order. *)
Definition delivered (seq : Z) (msgs : list (AnySchemaValue * Z)) : list Completion :=
  imap (λ i m, mkCompletion m.1 true ((seq + Z.of_nat i) mod 65536) 0) msgs.

Lemma delivered_length seq msgs : length (delivered seq msgs) = length msgs.
Proof. apply length_imap. Qed.

(** What the receiving queue holds once the transmitted Transients are in. *)
Lemma received_completions `{HmacSha256} `{Libm} (rx : SoftDriver) (e : Encoder)
    (w : Wavelength) (msgs : list (AnySchemaValue * Z)) (ccap : nat) :
  Forall (λ m, Any_ok m.1) msgs → (length msgs ≤ ccap)%nat → u16 (next_sequence e) →
  enc_wavelength e = expected_wavelength (config (decoder rx)) →
  enc_secret e = dec_secret (config (decoder rx)) →
  auth_mode (config (decoder rx)) = Topological →
  receive_all rx (transmit_requests e (request_for w <$> msgs)).2.*1 (CompletionQueue_new ccap) =
  mkCompletionQueue (delivered (next_sequence e) msgs) ccap.
Proof.
  intros Hm Hc He Hw Hk Hmode.
  pose proof (transmitted_length e (request_for w <$> msgs)) as Tl.
  pose proof (transmitted_lookup e w msgs) as Ti.
  destruct (transmit_requests e _) as [e' out]. cbn [fst snd] in *. rewrite length_fmap in Tl.
  assert (Forall2 (carries rx) out.*1 msgs.*1) as Hcar.
  { apply Forall2_same_length_lookup_2; [by rewrite !length_fmap|].
    intros i t v Ht Hv. rewrite list_lookup_fmap in Hv.
    destruct (msgs !! i) as [m|] eqn:Hi; [|done]. injection Hv as <-.
    rewrite (Ti i m He Hi) in Ht. injection Ht as <-.
    eapply (nth_transient_carries rx e i); try done. by eapply Forall_lookup_1 in Hm. }
  rewrite (receive_all_carries _ _ _ _ Hcar), push_all_newest
    by (unfold CompletionQueue_ok, slots; cbn; lia).
  unfold slots. cbn [CompletionQueue_new completions app cq_capacity]. f_equal.
  rewrite newest_all by (rewrite length_zip_with, !length_fmap; lia).
  apply list_eq. intros i. unfold delivered. rewrite lookup_zip_with, list_lookup_imap.
  rewrite (list_lookup_fmap fst msgs). destruct (msgs !! i) as [m|] eqn:Hi.
  - rewrite (Ti i m He Hi).
    cbn [fmap option_fmap option_map mbind option_bind]. unfold completion_for. do 2 f_equal.
    rewrite Hmode, <- Hk. apply nth_transient_auth.
  - by destruct (out.*1 !! i).
Qed.

(** C3: loopback delivery.  Values posted by an application, in any number the
    queues hold, reach a receiving driver bound to the same wavelength and
    secret: the send queue is drained, the cookies come back in posting order,
    and polling yields exactly the posted values, in order, each authenticated
    (topological mode) and numbered consecutively modulo 2^16 from the sender's
    counter: the first [k] calls of [poll] return the first [k] values and leave
    the rest, and once all are polled the queue is empty and [poll] returns
    nothing. *)
Theorem loopback_delivers `{HmacSha256} `{Libm} (tx rx : SoftDriver) (w : Wavelength)
    (msgs : list (AnySchemaValue * Z)) (scap ccap : nat) :
  Forall (λ m, Any_ok m.1) msgs → (length msgs ≤ scap)%nat → (length msgs ≤ ccap)%nat →
  u16 (next_sequence (encoder tx)) →
  enc_wavelength (encoder tx) = expected_wavelength (config (decoder rx)) →
  enc_secret (encoder tx) = dec_secret (config (decoder rx)) →
  auth_mode (config (decoder rx)) = Topological →
  let '(tx', q', out) :=
    transmit_pending tx (post_all (request_for w <$> msgs) (SendQueue_new scap)) in
  let cq := receive_all rx out.*1 (CompletionQueue_new ccap) in
  let values := delivered (next_sequence (encoder tx)) msgs in
  requests q' = [] ∧ out.*2 = msgs.*2 ∧
  next_sequence (encoder tx') = (next_sequence (encoder tx) + Z.of_nat (length msgs)) mod 65536 ∧
  completions cq = values ∧
  (∀ k, polls k cq = (mkCompletionQueue (drop k values) ccap, take k values)) ∧
  polls (length msgs) cq = (CompletionQueue_new ccap, values) ∧
  poll (polls (length msgs) cq).1 = (CompletionQueue_new ccap, None).
Proof.
  intros Hm Hs Hc He Hw Hk Hmode. unfold transmit_pending. rewrite post_values by done.
  pose proof (transmit_requests_encode (request_for w <$> msgs) (encoder tx)) as (T1 & _ & T3).
  pose proof (received_completions rx (encoder tx) w msgs ccap Hm Hc He Hw Hk Hmode) as Hr.
  destruct (transmit_requests (encoder tx) _) as [e' out]. cbn [fst snd] in *.
  cbv zeta. rewrite Hr. cbn [requests encoder completions].
  assert (polls (length msgs)
    (mkCompletionQueue (delivered (next_sequence (encoder tx)) msgs) ccap) =
    (CompletionQueue_new ccap, delivered (next_sequence (encoder tx)) msgs)) as Hall.
  { rewrite polls_spec. cbn [completions cq_capacity].
    rewrite drop_ge, take_ge by (rewrite delivered_length; lia). done. }
  split; [done|]. split; [|split; [|split; [done|split; [intros k; apply polls_spec|]]]].
  - rewrite T3, <- list_fmap_compose. by apply list_fmap_ext.
  - rewrite T1, encode_all_fst by done. by rewrite !length_fmap.
  - rewrite Hall. done.
Qed.

#[local] Existing Instances Toy.toy_hmac Toy.toy_hmac_spec ToyLibm.toy_libm ToyLibm.toy_libm_nan.

Definition demo_driver : SoftDriver :=
  driver_for (mkWavelength 40) (SharedSecret_new demo_secret) Topological.

Definition demo_msgs : list (AnySchemaValue * Z) :=
  [(AnyEquityTradeOrder demo_order, 7); (AnyEquityTradeOrder demo_order, 8)].

Lemma demo_msgs_ok : Forall (λ m, Any_ok m.1) demo_msgs.
Proof. do 2 (constructor; [exact demo_order_ok|]). constructor. Qed.

Lemma loopback_delivers_witness :
  polls 2 (receive_all demo_driver
    (transmit_pending demo_driver
       (post_all (request_for (mkWavelength 40) <$> demo_msgs) (SendQueue_new 4))).2.*1
    (CompletionQueue_new 2)) =
  (CompletionQueue_new 2,
   [mkCompletion (AnyEquityTradeOrder demo_order) true 0 0;
    mkCompletion (AnyEquityTradeOrder demo_order) true 1 0]).
Proof.
  pose proof (loopback_delivers demo_driver demo_driver (mkWavelength 40) demo_msgs 4 2
    demo_msgs_ok ltac:(cbn; lia) ltac:(cbn; lia) ltac:(vm_compute; split; congruence)
    eq_refl eq_refl eq_refl) as Hl.
  destruct (transmit_pending _ _) as [[tx' q'] out].
  exact (proj1 (proj2 (proj2 (proj2 (proj2 (proj2 Hl)))))).
Defined.

(** The receiver keeps no record of the sequence numbers it has seen: a
    captured Transient delivered again and again is decoded and authenticated
    every time, as one completion per delivery with the same sequence number. *)
Theorem receive_accepts_replay `{HmacSha256} `{Libm} (rx : SoftDriver) (e : Encoder)
    (i n cap : nat) (v : AnySchemaValue) :
  Any_ok v → enc_wavelength e = expected_wavelength (config (decoder rx)) →
  enc_secret e = dec_secret (config (decoder rx)) →
  auth_mode (config (decoder rx)) = Topological → (n ≤ cap)%nat →
  completions (receive_all rx (replicate n (nth_transient e i v)) (CompletionQueue_new cap)) =
  replicate n (mkCompletion v true ((next_sequence e + Z.of_nat i) mod 65536) 0).
Proof.
  intros Hv Hw Hk Hmode Hn.
  rewrite (receive_all_carries _ _ (replicate n v)); cycle 1.
  { apply Forall2_replicate. by eapply (nth_transient_carries rx e i). }
  rewrite push_all_newest by (unfold CompletionQueue_ok, slots; cbn; lia).
  unfold slots. cbn [CompletionQueue_new completions app cq_capacity].
  rewrite zip_with_replicate, newest_all by (rewrite ?length_replicate; lia).
  f_equal. unfold completion_for. f_equal. rewrite Hmode, <- Hk. apply nth_transient_auth.
Qed.

Lemma receive_accepts_replay_witness :
  completions (receive_all demo_driver
    (replicate 3 (nth_transient (encoder demo_driver) 5 (AnyEquityTradeOrder demo_order)))
    (CompletionQueue_new 8)) =
  replicate 3 (mkCompletion (AnyEquityTradeOrder demo_order) true 5 0).
Proof.
  exact (receive_accepts_replay demo_driver (encoder demo_driver) 5 3 8
    (AnyEquityTradeOrder demo_order) demo_order_ok eq_refl eq_refl eq_refl ltac:(lia)).
Defined.

(** a payload that does not have the length its descriptor announces is
    accepted by [post] all the same (the error [PayloadSize] is never raised):
    it is transmitted, uses up a sequence number, and every receiver drops it
    without a trace. *)
Theorem mismatched_payload_lost `{HmacSha256} `{Libm} (tx rx : SoftDriver)
    (wr : WorkRequest) (p : bytes) (cap : nat) (cq : CompletionQueue) :
  validate wr = Ok () → Z.of_nat (length p) ≠ payload_len wr → (1 ≤ cap)%nat →
  let '(q, r) := post wr p (SendQueue_new cap) in
  let '(tx', q', out) := transmit_pending tx q in
  r = Ok () ∧ length out = 1%nat ∧
  next_sequence (encoder tx') = (next_sequence (encoder tx) + 1) mod 65536 ∧
  receive_all rx out.*1 cq = cq.
Proof.
  intros Hv Hp Hc. unfold post. rewrite Hv. cbn [SendQueue_new sq_capacity requests length].
  destruct (Nat.leb_spec cap 0); [lia|].
  unfold transmit_pending. cbn [requests app transmit_requests encoder next_sequence encode_raw].
  split_and!; [done|done|done|]. cbn [fmap list_fmap receive_all fold_left fst].
  unfold receive, Decoder_decode. case_decide; [done|]. cbn [oam payload Transient_new].
  destruct (Any_decode _ p) as [v|] eqn:Hd; [|done]. exfalso. apply Hp.
  apply Any_decode_inv in Hd as (Hr & Hl & _).
  assert (any_id v = wr_schema_id wr) as Hid by (destruct (wr_schema_id wr); cbn in Hr; congruence).
  unfold validate in Hv. rewrite Hl, Hid.
  destruct (Z.eqb_spec (Z.of_nat (payload_bytes (wr_schema_id wr))) (payload_len wr)); done.
Qed.

Lemma mismatched_payload_lost_witness :
  let out := (transmit_pending demo_driver
    (post (WorkRequest_new IdHeartbeat (mkWavelength 40) 32 0) [1; 2; 3] (SendQueue_new 8)).1).2 in
  length out = 1%nat ∧
  receive_all demo_driver out.*1 (CompletionQueue_new 8) = CompletionQueue_new 8.
Proof.
  pose proof (mismatched_payload_lost demo_driver demo_driver
    (WorkRequest_new IdHeartbeat (mkWavelength 40) 32 0) [1; 2; 3] 8 (CompletionQueue_new 8)
    eq_refl ltac:(cbn; lia) ltac:(lia)) as Hm.
  destruct (post _ _ _) as [q r]. cbn [fst].
  destruct (transmit_pending _ _) as [[tx' q'] out].
  exact (conj (proj1 (proj2 Hm)) (proj2 (proj2 (proj2 Hm)))).
Defined.
