(* ===== verification/Fabric.v ===== *)
(** * otap-fabric: two drivers and the fiber between them

    Models [src/crates/otap-fabric/src/lib.rs]: the two channels and the pump
    functions, which move what one driver transmits through a channel into the
    other driver's completion queue. *)

From S2P Require Import Prelude Float Core External Crypto Schema Codec Csr Sim Obg.
Local Open Scope Z_scope.

Record Fabric : Type := mkFabric {
  a_to_b : Channel;
  b_to_a : Channel;
}.

Definition Fabric_new (a_to_b b_to_a : Channel) : Fabric := mkFabric a_to_b b_to_a.

Definition Fabric_perfect : Fabric := Fabric_new Channel_perfect Channel_perfect.

Definition with_random_pmd `{Libm} (seed_ab seed_ba : Z) : Fabric :=
  Fabric_new (Channel_random_pmd seed_ab) (Channel_random_pmd seed_ba).

Section fabric.
Context `{HmacSha256} `{Libm}.

(** The loop of a pump: send each Transient through the channel and hand it to
    the receiver. *)
Fixpoint deliver (c : Channel) (d : SoftDriver) (cq : CompletionQueue)
    (outgoing : list (Transient * Z)) : Channel * CompletionQueue :=
  match outgoing with
  | [] => (c, cq)
  | (t, _) :: outgoing =>
      let '(c, post_channel) := transmit c t in
      deliver c d (receive d post_channel cq) outgoing
  end.

Definition pump_a_to_b (f : Fabric) (a_driver : SoftDriver) (a_send : SendQueue)
    (b_driver : SoftDriver) (b_cq : CompletionQueue)
    : Fabric * SoftDriver * SendQueue * CompletionQueue * nat :=
  let '(a_driver, a_send, outgoing) := transmit_pending a_driver a_send in
  let n := length outgoing in
  let '(c, b_cq) := deliver (a_to_b f) b_driver b_cq outgoing in
  (mkFabric c (b_to_a f), a_driver, a_send, b_cq, n).

Definition pump_b_to_a (f : Fabric) (b_driver : SoftDriver) (b_send : SendQueue)
    (a_driver : SoftDriver) (a_cq : CompletionQueue)
    : Fabric * SoftDriver * SendQueue * CompletionQueue * nat :=
  let '(b_driver, b_send, outgoing) := transmit_pending b_driver b_send in
  let n := length outgoing in
  let '(c, a_cq) := deliver (b_to_a f) a_driver a_cq outgoing in
  (mkFabric (a_to_b f) c, b_driver, b_send, a_cq, n).

(** One endpoint's state. *)
Record Endpoint : Type := mkEndpoint {
  ep_driver : SoftDriver;
  ep_send : SendQueue;
  ep_cq : CompletionQueue;
}.

Definition pump_both (f : Fabric) (a b : Endpoint) : Fabric * Endpoint * Endpoint * (nat * nat) :=
  let '(f, a_driver, a_send, b_cq, ab) :=
    pump_a_to_b f (ep_driver a) (ep_send a) (ep_driver b) (ep_cq b) in
  let '(f, b_driver, b_send, a_cq, ba) :=
    pump_b_to_a f (ep_driver b) (ep_send b) a_driver (ep_cq a) in
  (f, mkEndpoint a_driver a_send a_cq, mkEndpoint b_driver b_send b_cq, (ab, ba)).

(** ** Lemmas *)

(** A channel with no bit errors, whatever its rotation. *)
Definition error_free (c : Channel) : Prop :=
  SFltb (S754_zero false) (bit_error_rate c) = false.

Definition rotate_transient (c : Channel) (t : Transient) : Transient := (transmit c t).2.

Lemma transmit_error_free c t :
  error_free c →
  transmit c t = (c, rotate_transient c t) ∧
  wavelength (rotate_transient c t) = wavelength t ∧ oam (rotate_transient c t) = oam t ∧
  micro (rotate_transient c t) = micro t ∧ payload (rotate_transient c t) = payload t.
Proof.
  unfold error_free, rotate_transient, transmit. intros ->. cbn [snd]. by destruct c.
Qed.

Lemma deliver_error_free c d cq out :
  error_free c → deliver c d cq out = (c, receive_all d (rotate_transient c <$> out.*1) cq).
Proof.
  intros Hc. revert cq. induction out as [|[t k] out IH]; intros cq; [done|].
  cbn [deliver]. rewrite (proj1 (transmit_error_free c t Hc)). by rewrite IH.
Qed.

(** Sender and receiver agree on the wavelength. *)
Definition linked (tx rx : SoftDriver) : Prop :=
  u16 (next_sequence (encoder tx)) ∧
  enc_wavelength (encoder tx) = expected_wavelength (config (decoder rx)).

(** The value and sequence number of a completion, without its [auth_ok]. *)
Definition received (c : Completion) : AnySchemaValue * Z := (c_value c, c_sequence c).

(** What a channel makes of the [i]-th value a driver sends. *)
Definition delivered (c : Channel) (tx : SoftDriver) (i : nat) (v : AnySchemaValue) : Transient :=
  rotate_transient c (nth_transient (encoder tx) i v).

Lemma deliver_completions c tx rx w msgs scap ccap :
  error_free c → linked tx rx → Forall (λ m, Any_ok m.1) msgs →
  (length msgs ≤ scap)%nat → (length msgs ≤ ccap)%nat →
  let '(tx', q', out) :=
    transmit_pending tx (post_all (request_for w <$> msgs) (SendQueue_new scap)) in
  requests q' = [] ∧ length out = length msgs ∧ decoder tx' = decoder tx ∧
  (deliver c rx (CompletionQueue_new ccap) out).1 = c ∧
  completions (deliver c rx (CompletionQueue_new ccap) out).2 =
  imap (λ i m, completion_for rx (delivered c tx i m.1) m.1) msgs.
Proof.
  intros Hc [He Hw] Hm Hs Hq. unfold transmit_pending, delivered. rewrite post_values by done.
  set (e := encoder tx) in *.
  pose proof (transmitted_length e (request_for w <$> msgs)) as Tl.
  pose proof (transmitted_lookup e w msgs) as Ti.
  destruct (transmit_requests e _) as [e' out]. cbn [fst snd requests decoder] in *.
  rewrite length_fmap in Tl. rewrite deliver_error_free by done. cbn [fst snd].
  split_and!; [done..|].
  assert (Forall2 (carries rx) (rotate_transient c <$> out.*1) msgs.*1) as Hcar.
  { apply Forall2_same_length_lookup_2; [by rewrite !length_fmap|].
    intros i t v Ht Hv. rewrite (list_lookup_fmap fst msgs) in Hv.
    destruct (msgs !! i) as [m|] eqn:Hi; [|done]. injection Hv as <-.
    rewrite (list_lookup_fmap (rotate_transient c)), (Ti i m He Hi) in Ht. injection Ht as <-.
    destruct (transmit_error_free c (nth_transient e i m.1) Hc) as (_ & ? & ? & _ & ?).
    eapply (nth_transient_carries rx e i); try done. by eapply Forall_lookup_1 in Hm. }
  rewrite (receive_all_carries _ _ _ _ Hcar), push_all_newest
    by (unfold CompletionQueue_ok, slots; cbn; lia).
  unfold slots. cbn [CompletionQueue_new completions app cq_capacity].
  rewrite newest_all by (rewrite length_zip_with, !length_fmap; lia).
  apply list_eq. intros i. rewrite lookup_zip_with, list_lookup_imap.
  rewrite (list_lookup_fmap fst msgs), (list_lookup_fmap (rotate_transient c)).
  destruct (msgs !! i) as [m|] eqn:Hi; [by rewrite (Ti i m He Hi)|by destruct (out.*1 !! i)].
Qed.

Lemma deliver_values c tx rx w msgs scap ccap :
  error_free c → linked tx rx → Forall (λ m, Any_ok m.1) msgs →
  (length msgs ≤ scap)%nat → (length msgs ≤ ccap)%nat →
  let '(tx', q', out) :=
    transmit_pending tx (post_all (request_for w <$> msgs) (SendQueue_new scap)) in
  requests q' = [] ∧ length out = length msgs ∧ decoder tx' = decoder tx ∧
  (deliver c rx (CompletionQueue_new ccap) out).1 = c ∧
  received <$> completions (deliver c rx (CompletionQueue_new ccap) out).2 =
  imap (λ i m, (m.1, (next_sequence (encoder tx) + Z.of_nat i) mod 65536)) msgs.
Proof.
  intros Hc Hl Hm Hs Hq.
  pose proof (deliver_completions c tx rx w msgs scap ccap Hc Hl Hm Hs Hq) as Hd.
  destruct (transmit_pending tx _) as [[tx' q'] out]. destruct Hd as (? & ? & ? & ? & ->).
  split_and!; [done..|]. rewrite fmap_imap. apply imap_ext. intros i m _. cbn.
  unfold received, completion_for, delivered. cbn [c_value c_sequence].
  by rewrite (proj1 (proj2 (proj2 (proj2 (transmit_error_free c _ Hc))))).
Qed.
(** One pump of posted values through fresh queues. *)
Lemma pump_completions f tx rx w msgs scap ccap :
  error_free (a_to_b f) → linked tx rx → Forall (λ m, Any_ok m.1) msgs →
  (length msgs ≤ scap)%nat → (length msgs ≤ ccap)%nat →
  let '(f', _, q', cq, n) :=
    pump_a_to_b f tx (post_all (request_for w <$> msgs) (SendQueue_new scap)) rx
      (CompletionQueue_new ccap) in
  f' = f ∧ requests q' = [] ∧ n = length msgs ∧
  completions cq = imap (λ i m, completion_for rx (delivered (a_to_b f) tx i m.1) m.1) msgs.
Proof.
  intros Hc Hl Hm Hs Hq. unfold pump_a_to_b.
  pose proof (deliver_completions (a_to_b f) tx rx w msgs scap ccap Hc Hl Hm Hs Hq) as Hd.
  destruct (transmit_pending tx _) as [[tx' q'] out]. destruct Hd as (? & ? & _ & Ec & Ecq).
  destruct (deliver (a_to_b f) rx _ out) as [c cq]. cbn [fst snd] in Ec, Ecq. subst c.
  split_and!; [by destruct f|done..].
Qed.

(** Whether the winding number of the [i]-th value survives the channel. *)
Definition winding_survives (c : Channel) (tx : SoftDriver) (i : nat) (v : AnySchemaValue) : bool :=
  winding_number_s3 (polarization (nth_transient (encoder tx) i v)) =?
  winding_number_s3 (polarization (delivered c tx i v)).

(** In topological mode the flag says exactly that. *)
Lemma delivered_completion c w secret i v :
  error_free c →
  let d := driver_for w secret Topological in
  completion_for d (delivered c d i v) v =
  mkCompletion v (winding_survives c d i v) (wrap 16 (Z.of_nat i)) 0.
Proof.
  intros Hc d. unfold completion_for, winding_survives, delivered.
  destruct (transmit_error_free c (nth_transient (encoder d) i v) Hc) as (_ & Ew & Eo & Em & Ep).
  unfold transient_context. rewrite Ew, Eo, Em, Ep. f_equal. cbn [verify_trajectory d driver_for
    decoder Decoder_new config dec_secret auth_mode encoder].
  set (a := winding_number_s3 (derive_trajectory _ _)).
  change (winding_number_s3 (polarization (nth_transient (Encoder_new secret w) i v))) with a.
  by destruct (a =? _).
Qed.

(** A pump between two drivers opened from the same topological configuration. *)
Lemma pump_topological f w secret msgs scap ccap :
  error_free (a_to_b f) → Forall (λ m, Any_ok m.1) msgs →
  (length msgs ≤ scap)%nat → (length msgs ≤ ccap)%nat →
  let d := driver_for w secret Topological in
  let '(f', _, q', cq, n) :=
    pump_a_to_b f d (post_all (request_for w <$> msgs) (SendQueue_new scap)) d
      (CompletionQueue_new ccap) in
  f' = f ∧ requests q' = [] ∧ n = length msgs ∧
  completions cq =
  imap (λ i m, mkCompletion m.1 (winding_survives (a_to_b f) d i m.1) (wrap 16 (Z.of_nat i)) 0) msgs.
Proof.
  intros Hc Hm Hs Hq d. assert (linked d d) as Hl by (split; [vm_compute; split; congruence|done]).
  pose proof (pump_completions f d d w msgs scap ccap Hc Hl Hm Hs Hq) as Hp.
  destruct (pump_a_to_b _ _ _ _ _) as [[[[f' a'] q'] cq] n]. destruct Hp as (? & ? & ? & ->).
  split_and!; [done..|]. apply imap_ext. intros i m _. by apply delivered_completion.
Qed.

(** ** Ranges *)

Definition request_ok (r : WorkRequest * bytes) : Prop := bytes_ok r.2.
Definition completion_ok (c : Completion) : Prop := Any_ok (c_value c) ∧ u16 (c_sequence c).

(** What the Rust types guarantee of an endpoint, and its completion queue's bound. *)
Record Endpoint_ok (ep : Endpoint) : Prop := {
  ep_encoder_ok : Encoder_ok (encoder (ep_driver ep));
  ep_requests_ok : Forall request_ok (requests (ep_send ep));
  ep_completions_ok : Forall completion_ok (completions (ep_cq ep));
  ep_bounded : CompletionQueue_ok (ep_cq ep);
}.

Lemma transmit_requests_ok rs : ∀ e,
  Encoder_ok e → Forall request_ok rs →
  Encoder_ok (transmit_requests e rs).1 ∧ Forall (λ o, Transient_ok o.1) (transmit_requests e rs).2.
Proof.
  induction rs as [|[wr p] rs IH]; intros e He Hrs; [by split|].
  apply Forall_cons in Hrs as [Hp Hrs]. cbn [transmit_requests].
  destruct (encode_raw_ok e (oam_for_schema (wr_schema_id wr)) p He) as [He' Ht];
    [by destruct (wr_schema_id wr); vm_compute; split; congruence|exact Hp|].
  destruct (encode_raw e _ p) as [e' t]. destruct (IH e' He' Hrs) as [I1 I2].
  destruct (transmit_requests e' rs) as [e'' out]. split; [done|by constructor].
Qed.

Lemma receive_ok d t cq :
  Transient_ok t → Forall completion_ok (completions cq) → CompletionQueue_ok cq →
  Forall completion_ok (completions (receive d t cq)) ∧ CompletionQueue_ok (receive d t cq).
Proof.
  intros (_ & _ & _ & Hm & Hp) Hcq Hb. unfold receive, Decoder_decode.
  destruct (decide _); [done|]. destruct (Any_decode (oam t) (payload t)) as [v|] eqn:Hd; [|done].
  cbn [rbind]. split; [|by apply push_ok]. unfold push. cbn [completions].
  apply Forall_app. split; [case_match; [by apply Forall_tail|done]|].
  apply Forall_singleton. split; [|exact Hm]. by apply (Any_decode_inv _ _ _ Hd).
Qed.

Lemma deliver_ok d out : ∀ c cq,
  Forall (λ o, Transient_ok o.1) out → Forall completion_ok (completions cq) → CompletionQueue_ok cq →
  Forall completion_ok (completions (deliver c d cq out).2) ∧ CompletionQueue_ok (deliver c d cq out).2.
Proof.
  induction out as [|[t k] out IH]; intros c cq Hout Hcq Hb; [done|].
  apply Forall_cons in Hout as [Ht Hout]. cbn [deliver]. pose proof (transmit_ok c t Ht) as Ht'.
  destruct (transmit c t) as [c' t']. destruct (receive_ok d t' cq Ht' Hcq Hb). by apply IH.
Qed.
End fabric.

(** ** Properties *)

(** C8: the fabric moves messages both ways.  Two endpoints bound to each other's
    wavelengths, joined by channels with any rotation and no bit errors, each
    with values posted: one [pump_both] drains both send queues, reports how many
    Transients went each way, leaves the channels as they were, and each side's
    completion queue then holds exactly the values the other side posted, in
    order, numbered consecutively modulo 2^16; neither direction disturbs the
    other. *)
Theorem pump_both_delivers `{HmacSha256} `{Libm} (f : Fabric) (da db : SoftDriver)
    (wa wb : Wavelength) (ma mb : list (AnySchemaValue * Z)) (cap : nat) :
  error_free (a_to_b f) → error_free (b_to_a f) → linked da db → linked db da →
  Forall (λ m, Any_ok m.1) ma → Forall (λ m, Any_ok m.1) mb →
  (length ma ≤ cap)%nat → (length mb ≤ cap)%nat →
  let endpoint d w msgs :=
    mkEndpoint d (post_all (request_for w <$> msgs) (SendQueue_new cap))
      (CompletionQueue_new cap) in
  let '(f', a', b', counts) := pump_both f (endpoint da wa ma) (endpoint db wb mb) in
  let numbered d := imap (λ i m, (m.1, (next_sequence (encoder d) + Z.of_nat i) mod 65536)) in
  f' = f ∧ counts = (length ma, length mb) ∧
  requests (ep_send a') = [] ∧ requests (ep_send b') = [] ∧
  received <$> completions (ep_cq b') = numbered da ma ∧
  received <$> completions (ep_cq a') = numbered db mb.
Proof.
  intros Hab Hba Lab Lba Ha Hb Ca Cb. cbv zeta. unfold pump_both, pump_a_to_b, pump_b_to_a.
  cbn [ep_driver ep_send ep_cq].
  pose proof (deliver_values (a_to_b f) da db wa ma cap cap Hab Lab Ha Ca Ca) as Dab.
  destruct (transmit_pending da _) as [[da' qa'] outa].
  destruct Dab as (Qa & Na & Eda & Ca' & Va).
  destruct (deliver (a_to_b f) db _ outa) as [ca cqb]. cbn [fst snd] in Ca', Va. subst ca.
  assert (linked db da') as Lba' by (unfold linked in *; by rewrite Eda).
  cbn [a_to_b b_to_a].
  pose proof (deliver_values (b_to_a f) db da' wb mb cap cap Hba Lba' Hb Cb Cb) as Dba.
  destruct (transmit_pending db _) as [[db' qb'] outb].
  destruct Dba as (Qb & Nb & _ & Cb' & Vb).
  destruct (deliver (b_to_a f) da' _ outb) as [cb cqa]. cbn [fst snd] in Cb', Vb. subst cb.
  cbn [a_to_b b_to_a ep_send ep_cq]. split_and!; try done; [by destruct f|congruence].
Qed.

#[local] Existing Instances Toy.toy_hmac Toy.toy_hmac_spec ToyLibm.toy_libm ToyLibm.toy_libm_nan.

Definition demo_fabric : Fabric := with_random_pmd 0xABCD 0x1234.

Lemma pump_both_delivers_witness :
  let endpoint msgs :=
    mkEndpoint demo_driver (post_all (request_for (mkWavelength 40) <$> msgs) (SendQueue_new 8))
      (CompletionQueue_new 8) in
  let '(_, a', b', _) := pump_both demo_fabric (endpoint demo_msgs) (endpoint []) in
  received <$> completions (ep_cq b') =
    [(AnyEquityTradeOrder demo_order, 0); (AnyEquityTradeOrder demo_order, 1)] ∧
  received <$> completions (ep_cq a') = [].
Proof.
  cbv zeta.
  assert (linked demo_driver demo_driver) as L by (split; [vm_compute; split; congruence|done]).
  pose proof (pump_both_delivers demo_fabric demo_driver demo_driver (mkWavelength 40)
    (mkWavelength 40) demo_msgs [] 8 eq_refl eq_refl L L demo_msgs_ok (Forall_nil_2 _)
    ltac:(cbn; lia) ltac:(cbn; lia)) as Hp.
  cbv zeta in Hp. destruct (pump_both _ _ _) as [[[f' a'] b'] counts].
  destruct Hp as (_ & _ & _ & _ & Hb & Ha). split; [exact Hb|exact Ha].
Defined.

(** C37: Types are preserved.  From endpoints whose sequence counters, secrets, wavelengths,
    queued payload bytes and completed values are in the ranges of their Rust types, one
    [pump_both] over any two channels, bit errors included, leaves endpoints of which the
    same holds: whatever arrives, every completion holds a well-formed value of its
    schema and a 16-bit sequence number, and the completion queues keep their bound. *)
Theorem pump_preserves_types `{HmacSha256} `{Libm} (f : Fabric) (a b : Endpoint) :
  Endpoint_ok a → Endpoint_ok b →
  let '(_, a', b', _) := pump_both f a b in Endpoint_ok a' ∧ Endpoint_ok b'.
Proof.
  intros [Ea Ra Ca Ba] [Eb Rb Cb Bb]. unfold pump_both, pump_a_to_b, pump_b_to_a, transmit_pending.
  destruct (transmit_requests_ok _ _ Ea Ra) as [Ea' Oa]. destruct (transmit_requests_ok _ _ Eb Rb) as [Eb' Ob].
  destruct (transmit_requests (encoder (ep_driver a)) _) as [ea outa].
  destruct (deliver_ok (ep_driver b) outa (a_to_b f) (ep_cq b) Oa Cb Bb) as [Cb' Bb'].
  destruct (deliver (a_to_b f) _ _ outa) as [c1 cqb]. cbn [a_to_b b_to_a decoder].
  destruct (transmit_requests (encoder (ep_driver b)) _) as [eb outb].
  set (da := mkDriver _ _ _). destruct (deliver_ok da outb (b_to_a f) (ep_cq a) Ob Ca Ba) as [Ca' Ba'].
  destruct (deliver (b_to_a f) da _ outb) as [c2 cqa]. by split; constructor.
Qed.

Definition demo_endpoint : Endpoint :=
  mkEndpoint demo_driver (post_all (request_for (mkWavelength 40) <$> demo_msgs) (SendQueue_new 8))
    (CompletionQueue_new 8).

(** A fibre with bit errors. *)
Definition noisy_fabric : Fabric :=
  mkFabric (mkChannel IDENTITY (f64.lit 1 2) (ChannelRng_new 7)) Channel_perfect.

Lemma pump_preserves_types_witness :
  Endpoint_ok (pump_both noisy_fabric demo_endpoint demo_endpoint).1.2.
Proof.
  assert (Endpoint_ok demo_endpoint) as He.
  { constructor; [| |constructor|vm_compute; lia].
    - vm_compute. repeat split; try congruence. repeat constructor; congruence.
    - unfold request_ok, bytes_ok. apply (bool_decide_unpack _). vm_compute. reflexivity. }
  pose proof (pump_preserves_types noisy_fabric demo_endpoint demo_endpoint He He) as Hp.
  destruct (pump_both noisy_fabric demo_endpoint demo_endpoint) as [[[f' a'] b'] n]. apply Hp.
Defined.
