(* ===== verification/FlrClient.v ===== *)
(** * otap-flr-client: programming a register file from the registry

    Models [src/crates/otap-flr-client/src/lib.rs].  A Rust [String] is here the
    list of its code points, since [urlencode] works on [char]s.  The HTTP client
    and the JSON parser are library code: the class [Registry] gives the answer
    to the [n]-th request and the result of parsing a body. *)

From S2P Require Import Prelude Float Core External Crypto Schema Codec Csr Obg.
From stdpp Require Import pretty sets.
Local Open Scope Z_scope.

(** ** Data *)

Record FieldDef : Type := mkFieldDef {
  fd_name : text;
  fd_offset : Z;
  fd_length : Z;
  type_code : Z;
  description : text;
}.

Record FieldLayout : Type := mkFieldLayout { fields : list FieldDef }.

Inductive SchemaStatus : Type := UNSPECIFIED | ACTIVE | DEPRECATED | REVOKED.

Record ApplicationSchema : Type := mkAppSchema {
  app_id : text;
  app_oam_mode : Z;
  app_payload_bytes : Z;
  app_name : text;
  app_version : Z;
  app_layout : FieldLayout;
  app_operator_id : text;
  app_status : option SchemaStatus;
  created_at : text;
  updated_at : text;
  app_signature : option text;
}.

(** The HTTP, JSON and hex libraries: their error types, the answer (status and
    body) to the [n]-th request, and the parsed bodies. *)
Class Registry := {
  HttpError : Type;
  JsonError : Type;
  FromHexError : Type;
  (** [Client::builder().timeout(t).build()] *)
  build_client : Z → result unit HttpError;
  http_get : nat → text → result (Z * text) HttpError;
  parse_list : text → result (list ApplicationSchema) JsonError;
  parse_schema : text → result ApplicationSchema JsonError;
}.

Inductive FlrClientError `{Registry} : Type :=
| Http (e : HttpError)
| Json (e : JsonError)
| BadResponse (status : Z) (body : text)
| NoActiveSchema (operator : text) (oam : Z)
| FlrCsr (e : CsrError)
| Hex (e : FromHexError)
| UnknownSchema (oam : Z).

(** ** Mapping registry schemas to local ones *)

Definition map_oam_to_schema_id (oam : Z) : option SchemaId :=
  if oam =? charge (OAM_MODE EquityTradeOrder) then Some IdEquityTradeOrder
  else if oam =? charge (OAM_MODE MarketTick) then Some IdMarketTick
  else if oam =? charge (OAM_MODE Heartbeat) then Some IdHeartbeat
  else None.

Definition csr_handle_for_schema_id (id : SchemaId) : Z :=
  match id with
  | IdEquityTradeOrder => 1
  | IdMarketTick => 2
  | IdHeartbeat => 3
  end.

(** ** URLs *)

Definition is_unreserved (c : Z) : bool :=
  ((97 <=? c) && (c <=? 122)) || ((65 <=? c) && (c <=? 90)) || ((48 <=? c) && (c <=? 57))
  || (c =? 45) || (c =? 95) || (c =? 46) || (c =? 126).

(** An upper-case hexadecimal digit. *)
Definition hex_digit (d : Z) : Z := if d <? 10 then 48 + d else 55 + d.

(** [{:X}]: the digits, most significant first; a [char] has at most six. *)
Fixpoint hex_digits (fuel : nat) (n : Z) : text :=
  match fuel with
  | O => []
  | S fuel => if n <? 16 then [hex_digit n] else hex_digits fuel (n / 16) ++ [hex_digit (n mod 16)]
  end.

(** [{:02X}]: padded with a zero to two digits. *)
Definition hex_02 (n : Z) : text :=
  let ds := hex_digits 6 n in if (length ds <? 2)%nat then 48 :: ds else ds.

Definition urlencode_char (c : Z) : text := if is_unreserved c then [c] else 37 :: hex_02 c.

Definition urlencode (s : text) : text := concat (urlencode_char <$> s).

Fixpoint drop_slashes (s : text) : text :=
  match s with c :: s' => if c =? 47 then drop_slashes s' else s | [] => [] end.

(** [trim_end_matches('/')]. *)
Definition trim_end_slashes (s : text) : text := reverse (drop_slashes (reverse s)).

(** ** The client *)

Record FlrClientConfig : Type := mkFlrConfig {
  base_url : text;
  operator_id : text;
  request_timeout : Z;  (* seconds *)
  refresh_interval : Z;
}.

Definition FlrClientConfig_local (operator_id : text) : FlrClientConfig :=
  mkFlrConfig (lit "http://localhost:8080") operator_id 5 15.

(** The client; the operations below take its [cfg]. *)
Record FlrClient : Type := mkFlrClient { flr_cfg : FlrClientConfig }.

Definition is_success (status : Z) : bool := (200 <=? status) && (status <? 300).

Section flr_client.
Context `{Registry}.

Definition FlrClient_new (cfg : FlrClientConfig) : result FlrClient FlrClientError :=
  let? _ := map_err Http (build_client (request_timeout cfg)) in
  Ok (mkFlrClient cfg).

Definition list_active_schemas (cfg : FlrClientConfig) (n : nat)
    : result (list ApplicationSchema) FlrClientError :=
  let url := trim_end_slashes (base_url cfg) ++ lit "/v1/schemas?operator_id="
    ++ urlencode (operator_id cfg) ++ lit "&status=ACTIVE" in
  let? resp := map_err Http (http_get n url) in
  let '(status, body) := resp in
  if negb (is_success status) then Err (BadResponse status body)
  else map_err Json (parse_list body).

Definition get_schema (cfg : FlrClientConfig) (id : text) (n : nat)
    : result ApplicationSchema FlrClientError :=
  let url := trim_end_slashes (base_url cfg) ++ lit "/v1/schemas/" ++ urlencode id in
  let? resp := map_err Http (http_get n url) in
  let '(status, body) := resp in
  if negb (is_success status) then Err (BadResponse status body)
  else map_err Json (parse_schema body).

Definition get_active_schema_for_oam (cfg : FlrClientConfig) (operator : text) (oam : Z)
    (n : nat) : result ApplicationSchema FlrClientError :=
  let url := trim_end_slashes (base_url cfg) ++ lit "/v1/schemas/active/"
    ++ urlencode operator ++ lit "/" ++ show oam in
  let? resp := map_err Http (http_get n url) in
  let '(status, body) := resp in
  if status =? 404 then Err (NoActiveSchema operator oam)
  else if negb (is_success status) then Err (BadResponse status body)
  else map_err Json (parse_schema body).

Definition csr (m : state_result RegisterFile unit CsrError)
    : state_result RegisterFile unit FlrClientError := sr_map_err FlrCsr m.

Definition size_mismatch (sch : ApplicationSchema) (local_bytes : Z) : FlrClientError :=
  BadResponse 0 (lit "schema " ++ app_id sch ++ lit " (oam " ++ show (app_oam_mode sch)
    ++ lit ") FLR says " ++ show (app_payload_bytes sch)
    ++ lit " bytes but local enum says " ++ show local_bytes).

(** The body of the loop over the schemas; the result is [mapped]. *)
Fixpoint program_schemas (schemas : list ApplicationSchema) (mapped : nat)
    : state_result RegisterFile nat FlrClientError :=
  match schemas with
  | [] => sr_ret mapped
  | sch :: schemas =>
      match map_oam_to_schema_id (app_oam_mode sch) with
      | None => program_schemas schemas mapped
      | Some local_id =>
          let handle := csr_handle_for_schema_id local_id in
          let local_bytes := Z.of_nat (payload_bytes local_id) in
          if negb (local_bytes =? wrap 64 (app_payload_bytes sch)) then
            sr_throw (size_mismatch sch local_bytes)
          else
            exec! csr (set_schema_payload handle (wrap 16 (app_payload_bytes sch)));
            let oam_mode :=
              match local_id with
              | IdEquityTradeOrder => OAM_MODE EquityTradeOrder
              | IdMarketTick => OAM_MODE MarketTick
              | IdHeartbeat => OAM_MODE Heartbeat
              end in
            exec! csr (set_oam_to_schema oam_mode handle);
            program_schemas schemas (mapped + 1)
      end
  end.

(** [n] numbers the request this call makes. *)
Definition program_register_file (cfg : FlrClientConfig) (w : Wavelength) (secret : bytes)
    (topological_auth : bool) (n : nat) : state_result RegisterFile nat FlrClientError :=
  exec! csr (set_wavelength w);
  exec! csr (set_secret secret);
  let ctrl := Z.lor CTRL_ENABLE_TX CTRL_ENABLE_RX in
  let ctrl := if topological_auth then Z.lor ctrl CTRL_AUTH_TOPOLOGICAL else ctrl in
  exec! csr (set_ctrl ctrl);
  exec! csr (set_auth_tolerance (f32.lit 1 100));
  do! schemas <- sr_read (λ _, list_active_schemas cfg n);
  program_schemas schemas 0.

(** The loop, for at most [fuel] rounds; [should_stop i] is the answer of the
    [i]-th call.  [None]: still running. *)
Fixpoint refresh_loop (fuel : nat) (cfg : FlrClientConfig) (w : Wavelength) (secret : bytes)
    (topological_auth : bool) (should_stop : nat → bool) (i : nat) (rf : RegisterFile)
    : option RegisterFile :=
  match fuel with
  | O => None
  | S fuel =>
      if should_stop i then Some rf
      else
        let '(rf, _) := program_register_file cfg w secret topological_auth i rf in
        refresh_loop fuel cfg w secret topological_auth should_stop (S i) rf
  end.
End flr_client.

(** ** Programming, as a list of register writes *)

(** A schema the loop programs: its mode is a local one. *)
Definition known (sch : ApplicationSchema) : bool :=
  match map_oam_to_schema_id (app_oam_mode sch) with Some _ => true | None => false end.

Definition size_ok (sch : ApplicationSchema) : Prop :=
  ∀ id, map_oam_to_schema_id (app_oam_mode sch) = Some id →
    Z.of_nat (payload_bytes id) = wrap 64 (app_payload_bytes sch).

Definition writes_for_id (id : SchemaId) : list CsrWrite :=
  [WritePayload (csr_handle_for_schema_id id) (Z.of_nat (payload_bytes id));
   WriteOam (schema_oam id) (csr_handle_for_schema_id id)].

Definition writes_for (sch : ApplicationSchema) : list CsrWrite :=
  match map_oam_to_schema_id (app_oam_mode sch) with
  | Some id => writes_for_id id
  | None => []
  end.

Definition writes_for_all (schemas : list ApplicationSchema) : list CsrWrite :=
  concat (writes_for <$> schemas).

Lemma writes_for_id_ok id :
  Forall CsrWrite_ok (writes_for_id id) ∧ Forall accepts (writes_for_id id).
Proof.
  destruct id; (split; repeat (constructor; [vm_compute; repeat split; congruence|]); constructor).
Qed.

Lemma writes_for_all_ok schemas :
  Forall CsrWrite_ok (writes_for_all schemas) ∧ Forall accepts (writes_for_all schemas).
Proof.
  unfold writes_for_all. induction schemas as [|sch schemas [IH1 IH2]]; [by split|].
  cbn [fmap list_fmap concat]. unfold writes_for at 1 3.
  destruct (map_oam_to_schema_id _) as [id|]; [|done].
  destruct (writes_for_id_ok id). split; by apply Forall_app.
Qed.

Lemma run_writes_app a b rf : run_writes (a ++ b) rf = run_writes b (run_writes a rf).
Proof. apply fold_left_app. Qed.

Section program.
Context `{Registry}.

Lemma csr_exec op rf :
  CsrWrite_ok op → accepts op → RegisterFile_ok rf →
  csr (exec_write op) rf = (run_writes [op] rf, Ok ()).
Proof. intros. unfold csr, sr_map_err. by rewrite exec_write_run. Qed.

Lemma bind_csr {A} op (k : state_result RegisterFile A FlrClientError) rf :
  CsrWrite_ok op → accepts op → RegisterFile_ok rf →
  sr_bind (csr (exec_write op)) (λ _, k) rf = k (run_writes [op] rf).
Proof. intros. by erewrite sr_bind_ok by (by apply csr_exec). Qed.

(** Two schema writes, then the rest. *)
Lemma program_known id n rf (k : state_result RegisterFile nat FlrClientError) :
  RegisterFile_ok rf → n = Z.of_nat (payload_bytes id) →
  sr_bind (csr (set_schema_payload (csr_handle_for_schema_id id) n)) (λ _,
    sr_bind (csr (set_oam_to_schema (schema_oam id) (csr_handle_for_schema_id id))) (λ _, k)) rf
  = k (run_writes (writes_for_id id) rf).
Proof.
  intros Hrf ->. destruct (writes_for_id_ok id) as [Hok Hacc].
  unfold writes_for_id in *. apply Forall_cons in Hok as [Ho1 [Ho2 _]%Forall_cons].
  apply Forall_cons in Hacc as [Ha1 [Ha2 _]%Forall_cons].
  etransitivity; [by apply (bind_csr (WritePayload _ _))|].
  etransitivity; [apply (bind_csr (WriteOam _ _)); [done..|by apply run_write_ok]|done].
Qed.

(** The loop over schemas of the right size, then the rest. *)
Lemma program_schemas_app pre rest : ∀ mapped rf,
  Forall size_ok pre → RegisterFile_ok rf →
  program_schemas (pre ++ rest) mapped rf =
  program_schemas rest (mapped + length (base.filter (λ s, known s) pre))
    (run_writes (writes_for_all pre) rf).
Proof.
  induction pre as [|sch pre IH]; intros mapped rf Hs Hrf.
  { cbn. by rewrite Nat.add_0_r. }
  apply Forall_cons in Hs as [Hsch Hs]. cbn [app program_schemas]. rewrite filter_cons.
  unfold writes_for_all. cbn [fmap list_fmap concat]. fold (writes_for_all pre).
  rewrite run_writes_app. unfold size_ok in Hsch. unfold writes_for.
  destruct (decide (known sch)) as [Hk|Hk]; unfold known in Hk;
    destruct (map_oam_to_schema_id (app_oam_mode sch)) as [id|]; try done; [|by apply IH].
  specialize (Hsch id eq_refl). rewrite <- Hsch, Z.eqb_refl. cbn [negb].
  etransitivity; [apply (program_known id); [done|]|].
  { unfold wrap in *. apply (f_equal (λ z, z mod 2 ^ 16)) in Hsch.
    rewrite Z.mod_mod_divide in Hsch by (by exists (2 ^ 48)).
    rewrite <- Hsch. by destruct id. }
  rewrite IH; [|done|by apply run_writes_refines; [apply writes_for_id_ok|]].
  cbn [length]. f_equal. lia.
Qed.

(** A registry answer splits at the first schema of the wrong size. *)
Definition bad_size (sch : ApplicationSchema) (id : SchemaId) : Prop :=
  map_oam_to_schema_id (app_oam_mode sch) = Some id ∧
  Z.of_nat (payload_bytes id) ≠ wrap 64 (app_payload_bytes sch).

Lemma program_schemas_stops pre sch rest id mapped rf :
  Forall size_ok pre → bad_size sch id → RegisterFile_ok rf →
  program_schemas (pre ++ sch :: rest) mapped rf =
  (run_writes (writes_for_all pre) rf, Err (size_mismatch sch (Z.of_nat (payload_bytes id)))).
Proof.
  intros Hpre [Hid Hne] Hrf. rewrite program_schemas_app by done.
  cbn [program_schemas]. rewrite Hid.
  by destruct (Z.eqb_spec (Z.of_nat (payload_bytes id)) (wrap 64 (app_payload_bytes sch))).
Qed.

Lemma program_base cfg w secret topo n rf :
  Wavelength_ok w → array_ok 32 secret → RegisterFile_ok rf →
  program_register_file cfg w secret topo n rf =
  let rf1 := run_writes (base_writes w secret topo) rf in
  match list_active_schemas cfg n with
  | Ok schemas => program_schemas schemas 0 rf1
  | Err e => (rf1, Err e)
  end.
Proof.
  intros Hw Hs Hrf. destruct (base_writes_ok w secret topo Hw Hs) as [Hok _].
  unfold base_writes in *.
  apply Forall_cons in Hok as [O1 [O2 [O3 [O4 _]%Forall_cons]%Forall_cons]%Forall_cons].
  assert (∀ v, (topo = false → v = 3) → (topo = true → v = 7) → CsrWrite_ok (WriteCtrl v)) as Oc.
  { intros v H0 H1. destruct topo; [rewrite H1 by done|rewrite H0 by done];
      vm_compute; split; congruence. }
  etransitivity; [by apply (bind_csr (WriteWavelength w))|].
  etransitivity; [apply (bind_csr (WriteSecret secret)); [done..|by apply run_write_ok]|].
  etransitivity; [apply (bind_csr (WriteCtrl _)); [by apply Oc; intros ->|done|]|].
  { by repeat (apply run_write_ok; [done|]). }
  etransitivity; [apply (bind_csr (WriteTolerance _)); [done..|]|].
  { apply run_write_ok; [by apply Oc; intros ->|]. by repeat (apply run_write_ok; [done|]). }
  cbv zeta. rewrite <- !run_writes_app. cbn [app]. unfold sr_bind, sr_read.
  destruct topo, (list_active_schemas cfg n); done.
Qed.
End program.

(** ** The tables after programming *)

(** The local schemas a registry answer names. *)
Definition served (schemas : list ApplicationSchema) : list SchemaId :=
  omap (λ s, map_oam_to_schema_id (app_oam_mode s)) schemas.

Lemma known_served schemas :
  length (base.filter (λ s, known s) schemas) = length (served schemas).
Proof.
  induction schemas as [|s l IH]; [done|]. rewrite filter_cons. unfold served.
  cbn [omap list_omap]. destruct (decide (known s)) as [Hk|Hk]; unfold known in Hk;
    destruct (map_oam_to_schema_id (app_oam_mode s)); try done. cbn. by rewrite IH.
Qed.

Definition bind_schema (c : Config) (id : SchemaId) : Config :=
  with_oam (with_payload c (csr_handle_for_schema_id id) (Z.of_nat (payload_bytes id)))
    (charge (schema_oam id)) (csr_handle_for_schema_id id).

Lemma spec_run_app a b c : spec_run (a ++ b) c = spec_run b (spec_run a c).
Proof. apply fold_left_app. Qed.

Lemma spec_run_schemas schemas : ∀ c,
  spec_run (writes_for_all schemas) c = fold_left bind_schema (served schemas) c.
Proof.
  induction schemas as [|sch schemas IH]; intros c; [done|].
  unfold writes_for_all, served. cbn [fmap list_fmap concat omap list_omap].
  fold (writes_for_all schemas). rewrite spec_run_app. unfold writes_for.
  destruct (map_oam_to_schema_id _) as [id|]; [|apply IH].
  cbn [fold_left]. rewrite IH. f_equal. by destruct id.
Qed.

(** Both tables have their full length. *)
Definition Config_ok (c : Config) : Prop :=
  length (cfg_payloads c) = 32%nat ∧ length (cfg_oams c) = 33%nat.

Lemma abs_Config_ok rf : Config_ok (abs rf).
Proof. split; cbn [abs cfg_payloads cfg_oams]; by rewrite length_fmap, length_seq. Qed.

Lemma bind_schema_ok c id : Config_ok c → Config_ok (bind_schema c id).
Proof. intros []. split; cbn; by rewrite length_insert. Qed.

(** The entry that a key of a table stands for. *)
Section table.
Context (f : Config → list Z) (key : SchemaId → nat) (val : SchemaId → Z) (n : nat).
Hypothesis bind_f : ∀ c id, f (bind_schema c id) = <[key id := val id]> (f c).
Hypothesis key_lt : ∀ id, (key id < n)%nat.
Hypothesis key_inj : ∀ id id', key id = key id' → id = id'.

Lemma table_length ids : ∀ c, length (f (fold_left bind_schema ids c)) = length (f c).
Proof.
  induction ids as [|id ids IH]; intros c; [done|]. cbn. by rewrite IH, bind_f, length_insert.
Qed.

Lemma table_other ids i : ∀ c,
  (∀ id, id ∈ ids → key id ≠ i) → f (fold_left bind_schema ids c) !! i = f c !! i.
Proof.
  induction ids as [|id ids IH]; intros c Hi; [done|]. cbn [fold_left].
  rewrite IH by (intros; apply Hi; by right). rewrite bind_f.
  apply list_lookup_insert_ne, Hi. by left.
Qed.

Lemma table_bound ids id : ∀ c,
  id ∈ ids → length (f c) = n → f (fold_left bind_schema ids c) !! key id = Some (val id).
Proof.
  induction ids as [|id' ids IH]; intros c Hid Hn; [by inversion Hid|].
  cbn [fold_left]. destruct (decide (id ∈ ids)) as [|Hni].
  { apply IH; [done|]. by rewrite bind_f, length_insert. }
  apply elem_of_cons in Hid as [->|]; [|done].
  rewrite table_other by (by intros ? ? ->%key_inj). rewrite bind_f.
  rewrite list_lookup_insert, decide_True; [done|]. by rewrite Hn.
Qed.

(** Two answers naming the same schemas leave the same table. *)
Lemma table_agree ids ids' c :
  length (f c) = n → (∀ id, id ∈ ids ↔ id ∈ ids') →
  f (fold_left bind_schema ids c) = f (fold_left bind_schema ids' c).
Proof.
  intros Hn He. apply list_eq. intros i.
  destruct (decide (Exists (λ id, key id = i) ids)) as [(id & Hid & <-)%Exists_exists|Hno].
  - by rewrite !table_bound by naive_solver.
  - rewrite Exists_exists in Hno. rewrite !table_other; naive_solver.
Qed.
End table.

Definition payload_key (id : SchemaId) : nat := Z.to_nat (csr_handle_for_schema_id id).
Definition oam_key (id : SchemaId) : nat := Z.to_nat (charge (schema_oam id) + 16).

Lemma payload_key_lt id : (payload_key id < 32)%nat.
Proof. destruct id; vm_compute; lia. Qed.
Lemma oam_key_lt id : (oam_key id < 33)%nat.
Proof. destruct id; vm_compute; lia. Qed.
Lemma payload_key_inj id id' : payload_key id = payload_key id' → id = id'.
Proof. by destruct id, id'. Qed.
Lemma oam_key_inj id id' : oam_key id = oam_key id' → id = id'.
Proof. by destruct id, id'. Qed.

(** Binding schemas touches the two tables only. *)
Lemma bind_schemas_rest ids : ∀ c,
  let c' := fold_left bind_schema ids c in
  cfg_wavelength c' = cfg_wavelength c ∧ cfg_ctrl c' = cfg_ctrl c ∧
  cfg_tolerance c' = cfg_tolerance c ∧ cfg_secret c' = cfg_secret c.
Proof. induction ids as [|id ids IH]; intros c; [done|]. exact (IH (bind_schema c id)). Qed.

Lemma bind_schemas_agree ids ids' c :
  Config_ok c → (∀ id, id ∈ ids ↔ id ∈ ids') →
  fold_left bind_schema ids c = fold_left bind_schema ids' c.
Proof.
  intros [Hp Ho] He.
  pose proof (table_agree cfg_payloads payload_key _ 32 (λ _ _, eq_refl) payload_key_lt
    payload_key_inj ids ids' c Hp He) as Tp.
  pose proof (table_agree cfg_oams oam_key _ 33 (λ _ _, eq_refl) oam_key_lt
    oam_key_inj ids ids' c Ho He) as To.
  pose proof (bind_schemas_rest ids c) as (R1 & R2 & R3 & R4).
  pose proof (bind_schemas_rest ids' c) as (S1 & S2 & S3 & S4).
  destruct (fold_left bind_schema ids c), (fold_left bind_schema ids' c). cbn in *. congruence.
Qed.

Lemma program_abs `{Registry} cfg w secret topo n rf schemas :
  Wavelength_ok w → array_ok 32 secret → RegisterFile_ok rf →
  list_active_schemas cfg n = Ok schemas → Forall size_ok schemas →
  abs (program_register_file cfg w secret topo n rf).1 =
  fold_left bind_schema (served schemas) (spec_run (base_writes w secret topo) (abs rf)).
Proof.
  intros Hw Hs Hrf Hl Hok. rewrite program_base by done. cbv zeta. rewrite Hl.
  destruct (base_writes_ok w secret topo Hw Hs) as [Hb _].
  destruct (run_writes_refines _ _ Hb Hrf) as [Hrf1 <-].
  replace schemas with (schemas ++ []) at 1 by apply app_nil_r.
  rewrite program_schemas_app by done. cbn [program_schemas]. unfold sr_ret. cbn [fst].
  rewrite (proj2 (run_writes_refines _ _ (proj1 (writes_for_all_ok schemas)) Hrf1)).
  apply spec_run_schemas.
Qed.

(** ** Properties *)

(** C28: one programming pass, on every path.  Wavelength, secret, control word and
    tolerance are written before the registry is asked, so they are in place even
    when the request, the status or the body fails and the call returns that
    error.  Otherwise schemas of unknown modes are skipped and the others are
    bound in order: all of them, returning their number, when every size agrees
    with the local one, and else those before the first that disagrees, which is
    reported. *)
Theorem program_register_file_spec `{Registry} (cfg : FlrClientConfig) (w : Wavelength)
    (secret : bytes) (topo : bool) (n : nat) (rf : RegisterFile) :
  Wavelength_ok w → array_ok 32 secret → RegisterFile_ok rf →
  let rf1 := run_writes (base_writes w secret topo) rf in
  match list_active_schemas cfg n with
  | Err e => program_register_file cfg w secret topo n rf = (rf1, Err e)
  | Ok schemas =>
      (Forall size_ok schemas →
       program_register_file cfg w secret topo n rf =
       (run_writes (writes_for_all schemas) rf1, Ok (length (served schemas)))) ∧
      (∀ pre sch rest id,
         schemas = pre ++ sch :: rest → Forall size_ok pre → bad_size sch id →
         program_register_file cfg w secret topo n rf =
         (run_writes (writes_for_all pre) rf1,
          Err (size_mismatch sch (Z.of_nat (payload_bytes id)))))
  end.
Proof.
  intros Hw Hs Hrf. cbv zeta. rewrite program_base by done. cbv zeta.
  assert (RegisterFile_ok (run_writes (base_writes w secret topo) rf)) as Hrf1
    by (by apply run_writes_refines; [apply base_writes_ok|]).
  destruct (list_active_schemas cfg n) as [schemas|e]; [|done]. split.
  - intros Hok. rewrite <- (app_nil_r schemas) at 1. rewrite program_schemas_app by done.
    cbn [program_schemas Nat.add]. unfold sr_ret. by rewrite known_served.
  - intros pre sch rest id -> Hpre Hbad. by apply program_schemas_stops.
Qed.

(** A registry that answers with the three canonical schemas and an unknown one. *)
Module Demo.

Definition schema (oam n : Z) : ApplicationSchema :=
mkAppSchema (lit "id") oam n (lit "name") 1 (mkFieldLayout []) (lit "op-alice") (Some ACTIVE)
  (lit "now") [] None.

Definition schemas : list ApplicationSchema := [schema 4 32; schema 9 7; schema 3 64; schema 1 256].

#[export] Instance demo_registry : Registry := {|
HttpError := unit;
JsonError := unit;
FromHexError := unit;
build_client _ := Ok ();
http_get _ _ := Ok (200, []);
parse_list _ := Ok schemas;
parse_schema _ := Ok (schema 1 256);
|}.

Definition cfg : FlrClientConfig := FlrClientConfig_local (lit "op-alice").

Lemma schemas_size_ok : Forall size_ok schemas.
Proof.
repeat (constructor; [by intros id [= <-]|]). constructor.
Qed.

Lemma wavelength_ok : Wavelength_ok (mkWavelength 40).
Proof. vm_compute. split; congruence. Qed.

End Demo.

#[local] Existing Instance Demo.demo_registry.

Lemma program_register_file_spec_witness :
  program_register_file Demo.cfg (mkWavelength 40) demo_secret true 0 RegisterFile_new =
  (run_writes (writes_for_all Demo.schemas)
     (run_writes (base_writes (mkWavelength 40) demo_secret true) RegisterFile_new), Ok 3%nat).
Proof.
  exact (proj1 (program_register_file_spec Demo.cfg (mkWavelength 40) demo_secret true 0
    RegisterFile_new Demo.wavelength_ok demo_secret_ok RegisterFile_new_ok)
    Demo.schemas_size_ok).
Defined.

(** What a successful pass leaves in the tables.  A schema the registry serves
    is bound under its handle with its size and its mode; the entries of a schema
    it no longer serves, and all others, stay as they were (a deprecation is not
    picked up); when all three local schemas are served, in whatever order, how
    often, and mixed with unknown ones, the configuration is the one
    [arm_register_file] writes. *)
Theorem program_tables `{Registry} (cfg : FlrClientConfig) (w : Wavelength) (secret : bytes)
    (topo : bool) (n : nat) (rf : RegisterFile) (schemas : list ApplicationSchema) :
  Wavelength_ok w → array_ok 32 secret → RegisterFile_ok rf →
  list_active_schemas cfg n = Ok schemas → Forall size_ok schemas →
  let rf' := (program_register_file cfg w secret topo n rf).1 in
  (∀ id,
     if decide (id ∈ served schemas) then
       cfg_payloads (abs rf') !! payload_key id = Some (Z.of_nat (payload_bytes id)) ∧
       cfg_oams (abs rf') !! oam_key id = Some (csr_handle_for_schema_id id)
     else
       cfg_payloads (abs rf') !! payload_key id = cfg_payloads (abs rf) !! payload_key id ∧
       cfg_oams (abs rf') !! oam_key id = cfg_oams (abs rf) !! oam_key id) ∧
  (∀ i, (∀ id, payload_key id ≠ i) → cfg_payloads (abs rf') !! i = cfg_payloads (abs rf) !! i) ∧
  (∀ i, (∀ id, oam_key id ≠ i) → cfg_oams (abs rf') !! i = cfg_oams (abs rf) !! i) ∧
  ((∀ id, id ∈ served schemas) → abs rf' = abs (arm_register_file w secret topo rf).1).
Proof.
  intros Hw Hs Hrf Hl Hok. cbv zeta. rewrite (program_abs cfg w secret topo n rf schemas) by done.
  set (c1 := spec_run (base_writes w secret topo) (abs rf)).
  destruct (abs_Config_ok rf) as [Lp Lo].
  pose proof (table_bound cfg_payloads payload_key _ 32 (λ _ _, eq_refl) payload_key_lt
    payload_key_inj (served schemas)) as Bp.
  pose proof (table_bound cfg_oams oam_key _ 33 (λ _ _, eq_refl) oam_key_lt
    oam_key_inj (served schemas)) as Bo.
  pose proof (table_other cfg_payloads payload_key _ (λ _ _, eq_refl) (served schemas)) as Op.
  pose proof (table_other cfg_oams oam_key _ (λ _ _, eq_refl) (served schemas)) as Oo.
  split_and!.
  - intros id. case_decide as D; split.
    + by apply Bp.
    + by apply Bo.
    + rewrite Op; [done|]. by intros ? ? ->%payload_key_inj.
    + rewrite Oo; [done|]. by intros ? ? ->%oam_key_inj.
  - intros i Hi. by rewrite Op.
  - intros i Hi. by rewrite Oo.
  - intros Hall. rewrite arm_run by done.
    destruct (arm_writes_ok w secret topo Hw Hs) as [Ha _].
    cbn [fst]. rewrite (proj2 (run_writes_refines _ _ Ha Hrf)).
    unfold arm_writes. rewrite spec_run_app. fold c1.
    transitivity (fold_left bind_schema [IdEquityTradeOrder; IdMarketTick; IdHeartbeat] c1);
      [|done].
    apply bind_schemas_agree; [by split|]. intros id. split; [intros _|done].
    destruct id; repeat constructor.
Qed.

Lemma program_tables_witness :
  abs (program_register_file Demo.cfg (mkWavelength 40) demo_secret true 0 RegisterFile_new).1 =
  abs (arm_register_file (mkWavelength 40) demo_secret true RegisterFile_new).1.
Proof.
  apply (program_tables (H := Demo.demo_registry) Demo.cfg (mkWavelength 40) demo_secret true 0 RegisterFile_new
    Demo.schemas Demo.wavelength_ok demo_secret_ok RegisterFile_new_ok eq_refl
    Demo.schemas_size_ok).
  intros id. apply (bool_decide_unpack _). by destruct id.
Defined.

(** ** The refresh loop *)

Lemma base_config w secret topo c :
  let c' := spec_run (base_writes w secret topo) c in
  cfg_wavelength c' = channel w ∧ cfg_secret c' = Some secret ∧
  cfg_ctrl c' = (if topo then 7 else 3) ∧ cfg_tolerance c' = 10.
Proof. by destruct topo. Qed.

Section refresh.
Context `{Registry} (cfg : FlrClientConfig) (w : Wavelength) (secret : bytes) (topo : bool).
Hypothesis w_ok : Wavelength_ok w.
Hypothesis secret_ok : array_ok 32 secret.

(** Whatever the registry answers, some prefix of the schemas is bound. *)
Lemma program_schemas_state schemas mapped rf :
  RegisterFile_ok rf →
  ∃ pre, (program_schemas schemas mapped rf).1 = run_writes (writes_for_all pre) rf.
Proof.
  revert mapped rf. induction schemas as [|sch schemas IH]; intros mapped rf Hrf;
    [by exists []|].
  destruct (map_oam_to_schema_id (app_oam_mode sch)) as [id|] eqn:Hid.
  - destruct (decide (Z.of_nat (payload_bytes id) = wrap 64 (app_payload_bytes sch))) as [E|E].
    + change (sch :: schemas) with ([sch] ++ schemas). rewrite program_schemas_app; [|..|done].
      2:{ constructor; [|done]. intros id' Hid'. by simplify_eq. }
      destruct (IH (mapped + length (base.filter (λ s, known s) [sch]))%nat
        (run_writes (writes_for_all [sch]) rf)) as [pre Hpre].
      { apply run_writes_refines; [apply writes_for_all_ok|done]. }
      exists (sch :: pre). rewrite Hpre, <- run_writes_app. f_equal.
      unfold writes_for_all. cbn. by rewrite app_nil_r.
    + exists []. by rewrite (program_schemas_stops [] sch schemas id).
  - cbn [program_schemas]. rewrite Hid. apply IH, Hrf.
Qed.

Lemma program_config n rf :
  RegisterFile_ok rf →
  let rf' := (program_register_file cfg w secret topo n rf).1 in
  RegisterFile_ok rf' ∧
  cfg_wavelength (abs rf') = channel w ∧ cfg_secret (abs rf') = Some secret ∧
  cfg_ctrl (abs rf') = (if topo then 7 else 3) ∧ cfg_tolerance (abs rf') = 10.
Proof.
  intros Hrf. cbv zeta. rewrite program_base by done. cbv zeta.
  destruct (base_writes_ok w secret topo w_ok secret_ok) as [Hb _].
  destruct (run_writes_refines _ _ Hb Hrf) as [Hrf1 Hab].
  set (rf1 := run_writes (base_writes w secret topo) rf) in *.
  assert (∃ pre, (match list_active_schemas cfg n with
    | Ok schemas => program_schemas schemas 0 rf1
    | Err e => (rf1, Err e) end).1 = run_writes (writes_for_all pre) rf1) as [pre ->].
  { destruct (list_active_schemas cfg n); [by apply program_schemas_state|by exists []]. }
  destruct (run_writes_refines _ _ (proj1 (writes_for_all_ok pre)) Hrf1) as [Hrf2 ->].
  rewrite spec_run_schemas, Hab. split; [done|].
  destruct (bind_schemas_rest (served pre) (spec_run (base_writes w secret topo) (abs rf)))
    as (-> & -> & -> & ->). apply base_config.
Qed.

Lemma program_from_csr n rf :
  RegisterFile_ok rf →
  from_csr (program_register_file cfg w secret topo n rf).1 =
  Ok (driver_for w (SharedSecret_new secret)
        (if topo then Topological else TrajectoryMatch (f32.div (f32.of_Z 10) (f32.of_Z 1000)))).
Proof.
  intros Hrf. destruct (program_config n rf Hrf) as (_ & Ew & Es & Ec & Et).
  by apply from_csr_configured.
Qed.

(** [k] rounds from request [i]. *)
Fixpoint rounds (k i : nat) (rf : RegisterFile) : RegisterFile :=
  match k with
  | O => rf
  | S k => rounds k (S i) (program_register_file cfg w secret topo i rf).1
  end.

Lemma refresh_loop_rounds should_stop k : ∀ fuel i rf,
  (k < fuel)%nat → (∀ j, (j < k)%nat → should_stop (i + j)%nat = false) →
  should_stop (i + k)%nat = true →
  refresh_loop fuel cfg w secret topo should_stop i rf = Some (rounds k i rf).
Proof.
  induction k as [|k IH]; intros fuel i rf Hf Hgo Hstop; destruct fuel as [|fuel]; try lia;
    cbn [refresh_loop rounds].
  - rewrite Nat.add_0_r in Hstop. by rewrite Hstop.
  - pose proof (Hgo 0%nat ltac:(lia)) as H0. rewrite Nat.add_0_r in H0. rewrite H0.
    rewrite <- (IH fuel (S i)); [|lia| |by replace (S i + k)%nat with (i + S k)%nat by lia].
    + by destruct (program_register_file cfg w secret topo i rf).
    + intros j Hj. replace (S i + j)%nat with (i + S j)%nat by lia. apply Hgo. lia.
Qed.

Lemma rounds_config k : ∀ i rf,
  RegisterFile_ok rf → (1 ≤ k)%nat →
  RegisterFile_ok (rounds k i rf) ∧
  from_csr (rounds k i rf) =
    Ok (driver_for w (SharedSecret_new secret) (latched_mode (if topo then 7 else 3) 10)).
Proof.
  induction k as [|k IH]; intros i rf Hrf Hk; [lia|]. cbn [rounds].
  destruct (program_config i rf Hrf) as (Hrf' & Ew & Es & Ec & Et).
  destruct k as [|k]; [|apply IH; [done|lia]]. cbn [rounds]. split; [done|].
  by rewrite from_csr_abs, Ew, Es, Ec, Et, Wavelength_new_channel.
Qed.
End refresh.

(** C27: the refresh loop.  It returns in the round in which [should_stop] first
    answers true, after exactly that many programming passes, and runs on while
    it answers false.  From the first pass on, whatever the registry answers or
    fails to answer in any round, the register file opens as a driver with the
    given wavelength, secret and mode. *)
Theorem refresh_loop_robust `{Registry} (cfg : FlrClientConfig) (w : Wavelength)
    (secret : bytes) (topo : bool) (should_stop : nat → bool) (k fuel : nat) (rf : RegisterFile) :
  Wavelength_ok w → array_ok 32 secret → RegisterFile_ok rf →
  (∀ j, (j < k)%nat → should_stop j = false) → (k < fuel)%nat →
  let loop fuel := refresh_loop fuel cfg w secret topo should_stop 0 rf in
  loop k = None ∧
  (should_stop k = true →
   ∃ rf', loop fuel = Some rf' ∧ rf' = rounds cfg w secret topo k 0 rf ∧
     ((1 ≤ k)%nat →
      RegisterFile_ok rf' ∧
      from_csr rf' =
        Ok (driver_for w (SharedSecret_new secret)
              (if topo then Topological
               else TrajectoryMatch (f32.div (f32.of_Z 10) (f32.of_Z 1000)))))).
Proof.
  intros Hw Hs Hrf Hgo Hfuel. cbv zeta. split.
  - assert (∀ k i rf, (∀ j, (i ≤ j < i + k)%nat → should_stop j = false) →
      refresh_loop k cfg w secret topo should_stop i rf = None) as Hrun.
    { clear. induction k as [|k IH]; intros i rf Hgo; [done|]. cbn [refresh_loop].
      rewrite Hgo by lia. destruct (program_register_file _ _ _ _ _ _).
      apply IH. intros j Hj. apply Hgo. lia. }
    apply Hrun. intros j Hj. apply Hgo. lia.
  - intros Hstop. exists (rounds cfg w secret topo k 0 rf).
    split_and!; [by apply refresh_loop_rounds|done|]. intros Hk.
    destruct (rounds_config cfg w secret topo Hw Hs k 0 rf Hrf Hk) as [? ->].
    split; [done|]. by destruct topo.
Qed.

Lemma refresh_loop_robust_witness :
  ∃ rf', refresh_loop 5 Demo.cfg (mkWavelength 40) demo_secret true (λ i, (2 <=? i)%nat) 0
    RegisterFile_new = Some rf' ∧
    from_csr rf' = Ok (driver_for (mkWavelength 40) (SharedSecret_new demo_secret) Topological).
Proof.
  destruct (proj2 (refresh_loop_robust Demo.cfg (mkWavelength 40) demo_secret true
    (λ i, (2 <=? i)%nat) 2 5 RegisterFile_new Demo.wavelength_ok demo_secret_ok
    RegisterFile_new_ok ltac:(intros [|[|j]] ?; [done|done|lia]) ltac:(lia)) eq_refl)
    as (rf' & Hl & _ & Hd). exists rf'. split; [exact Hl|]. apply Hd. lia.
Defined.

(** ** URL components *)

Definition unhex (d : Z) : Z := if d <? 58 then d - 48 else d - 55.

(** Percent-decoding of one-byte escapes. *)
Fixpoint percent_decode (s : text) : text :=
  match s with
  | 37 :: a :: b :: s => 16 * unhex a + unhex b :: percent_decode s
  | c :: s => c :: percent_decode s
  | [] => []
  end.

Definition url_char (c : Z) : bool := is_unreserved c || (c =? 37).

(** Check a decidable fact for every code point below 256. *)
Lemma forall_latin1 (P : Z → Prop) `{∀ c, Decision (P c)} :
  Forall P (Z.of_nat <$> seq 0 256) → ∀ c, 0 ≤ c < 256 → P c.
Proof.
  intros Hall c Hc. rewrite Forall_forall in Hall. apply Hall, list_elem_of_fmap.
  exists (Z.to_nat c). rewrite elem_of_seq. lia.
Qed.

Lemma urlencode_char_latin1 c :
  0 ≤ c < 256 →
  urlencode_char c = [c] ∧ c ≠ 37 ∨
  ∃ a b, urlencode_char c = [37; a; b] ∧ 16 * unhex a + unhex b = c.
Proof.
  intros Hc. unfold urlencode_char. destruct (is_unreserved c) eqn:E.
  - left. split; [done|]. by intros ->.
  - right. exists (nth 0 (hex_02 c) 0), (nth 1 (hex_02 c) 0). revert c Hc E.
    apply (forall_latin1 (λ c, is_unreserved c = false →
      37 :: hex_02 c = [37; nth 0 (hex_02 c) 0; nth 1 (hex_02 c) 0] ∧
      16 * unhex (nth 0 (hex_02 c) 0) + unhex (nth 1 (hex_02 c) 0) = c)).
    apply (bool_decide_unpack _). vm_compute. exact I.
Qed.

Lemma percent_decode_plain c s : c ≠ 37 → percent_decode (c :: s) = c :: percent_decode s.
Proof.
  intros Hc. cbn [percent_decode]. destruct c as [|p|p]; try done.
  do 6 (destruct p as [p|p|]; try done).
Qed.

Lemma percent_decode_app c s :
  0 ≤ c < 256 → percent_decode (urlencode_char c ++ s) = c :: percent_decode s.
Proof.
  intros Hc. destruct (urlencode_char_latin1 c Hc) as [[-> Hne]|(a & b & -> & E)].
  - by apply percent_decode_plain.
  - cbn [app percent_decode]. by rewrite E.
Qed.

Lemma hex_digit_url d : 0 ≤ d < 16 → url_char (hex_digit d) = true.
Proof.
  intros Hd.
  assert (Forall (λ d, url_char (hex_digit d) = true) (Z.of_nat <$> seq 0 16)) as Hall
    by (apply (bool_decide_unpack _); vm_compute; exact I).
  rewrite Forall_forall in Hall. apply Hall, list_elem_of_fmap.
  exists (Z.to_nat d). rewrite elem_of_seq. lia.
Qed.

Lemma hex_digits_url fuel : ∀ n, 0 ≤ n → Forall (λ c, url_char c = true) (hex_digits fuel n).
Proof.
  induction fuel as [|fuel IH]; intros n Hn; cbn [hex_digits]; [constructor|].
  destruct (Z.ltb_spec n 16).
  - constructor; [apply hex_digit_url; lia|constructor].
  - apply Forall_app. split; [apply IH, Z.div_pos; lia|].
    constructor; [apply hex_digit_url, Z.mod_pos_bound; lia|constructor].
Qed.

(** URL components.  Whatever the operator or schema id, its encoding consists
    of unreserved characters and percent signs only, so it can neither end the
    path segment nor add a query parameter.  For ids of code points below 256
    percent-decoding gives the id back, so distinct ids never share a URL.
    Beyond that they can: U+0100 and the two characters U+0010, '0' have the same
    encoding. *)
Theorem urlencode_faithful :
  (∀ s, Forall (λ c, 0 ≤ c) s → Forall (λ c, url_char c = true) (urlencode s)) ∧
  (∀ s, Forall (λ c, 0 ≤ c < 256) s → percent_decode (urlencode s) = s) ∧
  (∀ s s', Forall (λ c, 0 ≤ c < 256) s → Forall (λ c, 0 ≤ c < 256) s' →
     urlencode s = urlencode s' → s = s') ∧
  urlencode [0x100] = urlencode [0x10; 0x30].
Proof.
  assert (∀ s, Forall (λ c, 0 ≤ c < 256) s → percent_decode (urlencode s) = s) as Hrt.
  { induction 1 as [|c s Hc _ IH]; [done|]. unfold urlencode. cbn [fmap list_fmap concat].
    rewrite percent_decode_app by done. f_equal. apply IH. }
  split_and!; [|done| |done].
  - induction 1 as [|c s Hc _ IH]; [constructor|]. unfold urlencode. cbn [fmap list_fmap concat].
    apply Forall_app. split; [|exact IH]. unfold urlencode_char.
    destruct (is_unreserved c) eqn:E; [constructor; [unfold url_char; by rewrite E|constructor]|].
    constructor; [done|]. unfold hex_02. pose proof (hex_digits_url 6 c Hc).
    destruct (length _ <? 2)%nat; [by constructor|done].
  - intros s s' Hs Hs' E. apply (f_equal percent_decode) in E. by rewrite !Hrt in E.
Qed.
