(* ===== verification/FlrModels.v ===== *)
(** * flr: the schema model

    Models [src/flr/internal/models/schema.go], the part of the Go registry the OTAP
    client is programmed from: schema status, field types, field layouts and the
    structural validation of a schema.  A Go string is the list of its code points, an
    [int32] a [Z] whose sums wrap, a [time.Time] its nanoseconds, the zero time 0.  An
    error is a value with the data that is formatted into its message. *)

From S2P Require Import Prelude.
Local Open Scope Z_scope.

(** [a + b] on [int32]. *)
Definition i32_add (a b : Z) : Z := as_signed 32 (a + b).

Abbreviation i32 := (in_sint 32).

Module models.

(** ** Status and field types *)

Definition SchemaStatusUnspecified : Z := 0.
Definition SchemaStatusActive : Z := 1.
Definition SchemaStatusDeprecated : Z := 2.
Definition SchemaStatusRevoked : Z := 3.

(** [SchemaStatus.String] *)
Definition SchemaStatus_String (s : Z) : text :=
  if s =? SchemaStatusActive then lit "ACTIVE"
  else if s =? SchemaStatusDeprecated then lit "DEPRECATED"
  else if s =? SchemaStatusRevoked then lit "REVOKED"
  else lit "UNSPECIFIED".

(** [FieldType.SizeBytes]: -1 for the types of variable width. *)
Definition SizeBytes (f : Z) : Z :=
  if (f =? 1) || (f =? 5) || (f =? 13) then 1
  else if (f =? 2) || (f =? 6) then 2
  else if (f =? 3) || (f =? 7) || (f =? 9) then 4
  else if (f =? 4) || (f =? 8) || (f =? 10) then 8
  else -1.

Definition IsFixedWidth (f : Z) : bool := 0 <? SizeBytes f.

(** ** Fields *)

Record FieldDef : Type := mkFieldDef {
  Name : text;
  Offset : Z;
  Length : Z;
  Type_ : Z;
  Description : text;
}.

Inductive FieldError : Type :=
| EmptyName
| LengthNotPositive (name : text) (length : Z)
| OffsetNegative (name : text) (offset : Z)
| WrongLength (name : text) (type required got : Z).

Definition FieldDef_Validate (f : FieldDef) : result unit FieldError :=
  if bool_decide (Name f = []) then Err EmptyName
  else if Length f <=? 0 then Err (LengthNotPositive (Name f) (Length f))
  else if Offset f <? 0 then Err (OffsetNegative (Name f) (Offset f))
  else if IsFixedWidth (Type_ f) && negb (Length f =? SizeBytes (Type_ f)) then
    Err (WrongLength (Name f) (Type_ f) (SizeBytes (Type_ f)) (Length f))
  else Ok ().

(** ** Layouts *)

Record FieldLayout : Type := mkFieldLayout { Fields : list FieldDef }.

Definition field_end (f : FieldDef) : Z := i32_add (Offset f) (Length f).

Definition TotalBytes (l : FieldLayout) : Z :=
  fold_left (λ maxEnd f, let e := field_end f in if maxEnd <? e then e else maxEnd) (Fields l) 0.

Inductive LayoutError : Type :=
| NoFields
| BadField (i : nat) (e : FieldError)
| OutOfBounds (name : text) (b total : Z)
| Overlap (name : text) (b : Z)
| NotCovered (b : nat).

(** The first field that is not valid, with its index. *)
Fixpoint validate_fields (i : nat) (fs : list FieldDef) : result unit LayoutError :=
  match fs with
  | [] => Ok ()
  | f :: fs => let? _ := map_err (BadField i) (FieldDef_Validate f) in validate_fields (S i) fs
  end.

(** [for b := f.Offset; b < f.Offset+f.Length; b++]: [n] rounds from [b] on. *)
Fixpoint occupy (name : text) (total : Z) (n : nat) (b : Z) (occupied : list bool)
    : result (list bool) LayoutError :=
  match n with
  | O => Ok occupied
  | S n =>
      if (b <? 0) || (total <=? b) then Err (OutOfBounds name b total)
      else if nth (Z.to_nat b) occupied false then Err (Overlap name b)
      else occupy name total n (b + 1) (<[Z.to_nat b := true]> occupied)
  end.

Fixpoint occupy_all (total : Z) (fs : list FieldDef) (occupied : list bool)
    : result (list bool) LayoutError :=
  match fs with
  | [] => Ok occupied
  | f :: fs =>
      let? occupied := occupy (Name f) total (Z.to_nat (field_end f - Offset f)) (Offset f) occupied in
      occupy_all total fs occupied
  end.

(** The first byte no field covers. *)
Fixpoint find_gap (b : nat) (occupied : list bool) : result unit LayoutError :=
  match occupied with
  | [] => Ok ()
  | ok :: occupied => if negb ok then Err (NotCovered b) else find_gap (S b) occupied
  end.

Definition FieldLayout_Validate (l : FieldLayout) : result unit LayoutError :=
  if bool_decide (Fields l = []) then Err NoFields
  else
    let? _ := validate_fields 0 (Fields l) in
    let total := TotalBytes l in
    let occupied := replicate (Z.to_nat total) false in
    let? occupied := occupy_all total (Fields l) occupied in
    find_gap 0 occupied.

(** ** Schemas *)

Record ApplicationSchema : Type := mkSchema {
  ID : text;
  OamMode : Z;
  PayloadBytes : Z;
  SchemaName : text;
  Version : Z;
  Layout : option FieldLayout;
  OperatorID : text;
  Status : Z;
  CreatedAt : Z;
  UpdatedAt : Z;
  Signature : bytes;
}.

Inductive SchemaError : Type :=
| EmptyID
| EmptySchemaName
| EmptyOperator
| OamRange (oam : Z)
| PayloadNotPositive (n : Z)
| NilLayout
| LayoutInvalid (e : LayoutError)
| SizeMismatch (payload total : Z).

Definition Validate (s : ApplicationSchema) : result unit SchemaError :=
  if bool_decide (ID s = []) then Err EmptyID
  else if bool_decide (SchemaName s = []) then Err EmptySchemaName
  else if bool_decide (OperatorID s = []) then Err EmptyOperator
  else if (OamMode s <? -16) || (16 <? OamMode s) then Err (OamRange (OamMode s))
  else if PayloadBytes s <=? 0 then Err (PayloadNotPositive (PayloadBytes s))
  else
    match Layout s with
    | None => Err NilLayout
    | Some l =>
        let? _ := map_err LayoutInvalid (FieldLayout_Validate l) in
        if negb (TotalBytes l =? PayloadBytes s) then Err (SizeMismatch (PayloadBytes s) (TotalBytes l))
        else Ok ()
    end.

(** [ToKey]: [fmt.Sprintf("%s:%d:%d", ...)]. *)
Definition ToKey (s : ApplicationSchema) : text :=
  OperatorID s ++ lit ":" ++ show (OamMode s) ++ lit ":" ++ show (Version s).

End models.

Import models.

(** ** What validation accepts *)

(** Byte [b] lies in field [f]. *)
Definition covers (f : FieldDef) (b : Z) : Prop := Offset f ≤ b < Offset f + Length f.

#[export] Instance covers_dec f b : Decision (covers f b).
Proof. unfold covers. apply _. Defined.

(** How many fields byte [b] lies in. *)
Definition coverage (fs : list FieldDef) (b : Z) : nat := length (base.filter (λ f, covers f b) fs).

(** The fields tile the payload: every byte lies in exactly one field. *)
Definition tiles (fs : list FieldDef) (total : Z) : Prop := ∀ b, 0 ≤ b < total → coverage fs b = 1%nat.

(** What [FieldDef.Validate] asks of a field. *)
Definition field_ok (f : FieldDef) : Prop :=
  Name f ≠ [] ∧ 0 < Length f ∧ 0 ≤ Offset f ∧ (IsFixedWidth (Type_ f) = true → Length f = SizeBytes (Type_ f)).

(** The end of the field is an [int32]. *)
Definition end_fits (f : FieldDef) : Prop := Offset f + Length f < 2 ^ 31.

Lemma field_validate_ok f : FieldDef_Validate f = Ok () ↔ field_ok f.
Proof.
  unfold FieldDef_Validate, field_ok. case_bool_decide; [naive_solver|].
  destruct (Z.leb_spec (Length f) 0); [naive_solver lia|].
  destruct (Z.ltb_spec (Offset f) 0); [naive_solver lia|].
  destruct (IsFixedWidth (Type_ f)); cbn [andb]; [|naive_solver].
  destruct (Z.eqb_spec (Length f) (SizeBytes (Type_ f))); naive_solver.
Qed.

Lemma validate_fields_ok fs : ∀ i, validate_fields i fs = Ok () ↔ Forall field_ok fs.
Proof.
  induction fs as [|f fs IH]; intros i; cbn [validate_fields]; [by split|].
  rewrite Forall_cons, <- field_validate_ok, <- (IH (S i)).
  destruct (FieldDef_Validate f) as [[]|e]; cbn [map_err rbind]; naive_solver.
Qed.

Lemma field_end_fits f : field_ok f → end_fits f → field_end f = Offset f + Length f.
Proof.
  intros (_ & Hl & Ho & _) Hf. unfold end_fits in Hf. unfold field_end, i32_add, as_signed.
  rewrite Z.mod_small by lia. destruct (Z.ltb_spec (Offset f + Length f) (2 ^ (32 - 1))); lia.
Qed.

(** The running maximum of [TotalBytes]. *)
Lemma total_fold fs : ∀ m,
  let r := fold_left (λ maxEnd f, let e := field_end f in if maxEnd <? e then e else maxEnd) fs m in
  m ≤ r ∧ Forall (λ f, field_end f ≤ r) fs ∧ (r = m ∨ Exists (λ f, field_end f = r) fs).
Proof.
  induction fs as [|f fs IH]; intros m r; [by split_and!; [|constructor|left]|].
  unfold r. cbn [fold_left]. set (m' := if m <? field_end f then field_end f else m).
  destruct (IH m') as (Hm & Hall & Hex). set (r' := fold_left _ fs m') in *.
  assert (m ≤ m' ∧ field_end f ≤ m' ∧ (m' = m ∨ m' = field_end f)) as (? & ? & ?)
    by (unfold m'; destruct (Z.ltb_spec m (field_end f)); lia).
  split_and!; [lia|constructor; [lia|done]|].
  destruct Hex as [->|Hex]; [|right; by apply Exists_cons_tl].
  destruct (decide (m' = m)) as [->|]; [by left|right; apply Exists_cons_hd; lia].
Qed.

Lemma total_spec l :
  0 ≤ TotalBytes l ∧ Forall (λ f, field_end f ≤ TotalBytes l) (Fields l) ∧
  (TotalBytes l = 0 ∨ Exists (λ f, field_end f = TotalBytes l) (Fields l)).
Proof. exact (total_fold (Fields l) 0). Qed.

Lemma occupy_spec name total n : ∀ b occ,
  0 ≤ b → b + Z.of_nat n ≤ total → Z.of_nat (length occ) = total →
  match occupy name total n b occ with
  | Ok occ' =>
      length occ' = length occ ∧
      (∀ k, b ≤ k < b + Z.of_nat n → nth (Z.to_nat k) occ false = false) ∧
      ∀ k, 0 ≤ k < total →
        nth (Z.to_nat k) occ' false = bool_decide (b ≤ k < b + Z.of_nat n) || nth (Z.to_nat k) occ false
  | Err e => ∃ k, e = Overlap name k ∧ b ≤ k < b + Z.of_nat n ∧ nth (Z.to_nat k) occ false = true
  end.
Proof.
  induction n as [|n IH]; intros b occ Hb Hn Hl; cbn [occupy].
  { split_and!; [done|lia|]. intros k Hk. by rewrite bool_decide_false by lia. }
  destruct (Z.ltb_spec b 0), (Z.leb_spec total b); cbn [orb]; try lia.
  destruct (nth (Z.to_nat b) occ false) eqn:Eb; [exists b; split_and!; (done || lia)|].
  assert (∀ k, 0 ≤ k < total → nth (Z.to_nat k) (<[Z.to_nat b := true]> occ) false =
    bool_decide (k = b) || nth (Z.to_nat k) occ false) as Hins.
  { intros k Hk. rewrite !nth_lookup, list_lookup_insert. destruct (decide (k = b)) as [->|].
    - by rewrite decide_True, bool_decide_true by lia.
    - by rewrite decide_False, bool_decide_false by lia. }
  specialize (IH (b + 1) (<[Z.to_nat b := true]> occ) ltac:(lia) ltac:(lia)
    ltac:(rewrite length_insert; lia)).
  destruct (occupy _ _ _ _ _) as [occ'|e].
  - destruct IH as (Hlen & Hfree & Hset). rewrite length_insert in Hlen. split_and!; [done| |].
    + intros k Hk. destruct (decide (k = b)) as [->|]; [done|]. specialize (Hfree k ltac:(lia)).
      rewrite Hins in Hfree by lia. by apply orb_false_iff in Hfree as [_ ?].
    + intros k Hk. rewrite Hset, Hins by done. rewrite orb_assoc. f_equal.
      repeat case_bool_decide; try done; lia.
  - destruct IH as (k & -> & Hk & Hocc). rewrite Hins in Hocc by lia.
    rewrite bool_decide_false in Hocc by lia. exists k. split_and!; (done || lia).
Qed.

Lemma find_gap_ok occ : ∀ i, find_gap i occ = Ok () ↔ ∀ k, (k < length occ)%nat → nth k occ false = true.
Proof.
  induction occ as [|b occ IH]; intros i; cbn [find_gap length]; [split; [lia|done]|].
  destruct b; cbn [negb].
  - rewrite IH. split; intros H.
    + intros [|k] Hk; [done|]. apply (H k). lia.
    + intros k Hk. apply (H (S k)). lia.
  - split; [done|]. intros H. specialize (H 0%nat ltac:(lia)). done.
Qed.

Lemma coverage_cons f fs b :
  coverage (f :: fs) b = ((if bool_decide (covers f b) then 1 else 0) + coverage fs b)%nat.
Proof. unfold coverage. rewrite filter_cons. by case_bool_decide; case_decide. Qed.

(** A byte marked already counts as covered once. *)
Definition marked (occ : list bool) (k : Z) : nat := if nth (Z.to_nat k) occ false then 1 else 0.

Lemma occupy_all_spec total fs : ∀ occ,
  Z.of_nat (length occ) = total → Forall field_ok fs → Forall end_fits fs →
  Forall (λ f, field_end f ≤ total) fs →
  match occupy_all total fs occ with
  | Ok occ' =>
      length occ' = length occ ∧
      ∀ k, 0 ≤ k < total → marked occ' k = (marked occ k + coverage fs k)%nat
  | Err e => ∃ name k, e = Overlap name k ∧ 0 ≤ k < total ∧ (1 < marked occ k + coverage fs k)%nat
  end.
Proof.
  induction fs as [|f fs IH]; intros occ Hl Hok Hfit Hend; cbn [occupy_all].
  { split; [done|]. intros k _. unfold coverage. cbn. lia. }
  apply Forall_cons in Hok as [Hf Hok], Hfit as [Hff Hfit], Hend as [Hfe Hend].
  pose proof (field_end_fits f Hf Hff) as E. destruct Hf as (_ & Hlen & Hoff & _).
  pose proof (occupy_spec (Name f) total (Z.to_nat (field_end f - Offset f)) (Offset f) occ
    ltac:(lia) ltac:(lia) Hl) as Ho.
  replace (Offset f + Z.of_nat (Z.to_nat (field_end f - Offset f))) with (Offset f + Length f) in Ho by lia.
  destruct (occupy _ _ _ _ _) as [occ1|e]; cbn [rbind].
  - destruct Ho as (Hl1 & Hfree & Hset).
    assert (∀ k, 0 ≤ k < total → marked occ1 k = (marked occ k + if bool_decide (covers f k) then 1 else 0)%nat) as Hm.
    { intros k Hk. unfold marked. rewrite Hset by done. destruct (decide (covers f k)).
      - rewrite !bool_decide_true by done. by rewrite Hfree.
      - rewrite !bool_decide_false by done. cbn [orb]. lia. }
    specialize (IH occ1 ltac:(lia) Hok Hfit Hend). destruct (occupy_all _ _ _) as [occ2|e].
    + destruct IH as [Hl2 IH]. split; [lia|]. intros k Hk. rewrite coverage_cons, IH, Hm by done. lia.
    + destruct IH as (name & k & -> & Hk & Hgt). exists name, k. split_and!; try (done || lia).
      rewrite coverage_cons. rewrite Hm in Hgt by done. lia.
  - destruct Ho as (k & -> & Hk & Hocc). exists (Name f), k. split_and!; [done|lia|lia|].
    rewrite coverage_cons, bool_decide_true by done. unfold marked. rewrite Hocc. lia.
Qed.

Lemma layout_validate_ok l :
  Forall end_fits (Fields l) →
  FieldLayout_Validate l = Ok () ↔
  Fields l ≠ [] ∧ Forall field_ok (Fields l) ∧ tiles (Fields l) (TotalBytes l).
Proof.
  intros Hfit. unfold FieldLayout_Validate. case_bool_decide as Hne; [naive_solver|].
  pose proof (validate_fields_ok (Fields l) 0) as Hv.
  destruct (validate_fields 0 (Fields l)) as [[]|e]; cbn [rbind]; [|naive_solver].
  destruct (total_spec l) as (H0 & Hend & _).
  assert (Forall field_ok (Fields l)) as Hok by (by apply Hv).
  set (occ := replicate (Z.to_nat (TotalBytes l)) false).
  assert (length occ = Z.to_nat (TotalBytes l)) as Hl by apply length_replicate.
  assert (∀ k, 0 ≤ k < TotalBytes l → marked occ k = 0%nat) as Hz.
  { intros k Hk. unfold marked, occ. by rewrite nth_lookup, lookup_replicate_2 by lia. }
  pose proof (occupy_all_spec (TotalBytes l) (Fields l) occ ltac:(lia) Hok Hfit Hend) as Ho.
  destruct (occupy_all _ _ _) as [occ'|e]; cbn [rbind].
  - destruct Ho as [Hl' Ho]. rewrite find_gap_ok. split.
    + intros Hgap. split_and!; [done|done|]. intros b Hb. specialize (Ho b Hb). rewrite Hz in Ho by done.
      unfold marked in Ho. rewrite (Hgap (Z.to_nat b)) in Ho by lia. lia.
    + intros (_ & _ & Ht) k Hk. specialize (Ho (Z.of_nat k) ltac:(lia)).
      rewrite Hz, Ht in Ho by lia. unfold marked in Ho. rewrite Nat2Z.id in Ho.
      by destruct (nth k occ' false).
  - destruct Ho as (name & k & -> & Hk & Hgt). rewrite Hz in Hgt by done. split; [done|].
    intros (_ & _ & Ht). specialize (Ht k Hk). lia.
Qed.

(** Validation of the layout, then the comparison with [payload_bytes]. *)
Lemma layout_size_ok l n :
  Forall end_fits (Fields l) → 0 < n →
  rbind (map_err LayoutInvalid (FieldLayout_Validate l))
    (λ _, if negb (TotalBytes l =? n) then Err (SizeMismatch n (TotalBytes l)) else Ok ()) = Ok () ↔
  Fields l ≠ [] ∧ Forall field_ok (Fields l) ∧ tiles (Fields l) n ∧
  Forall (λ f, Offset f + Length f ≤ n) (Fields l) ∧ Exists (λ f, Offset f + Length f = n) (Fields l).
Proof.
  intros Hfit Hn. pose proof (layout_validate_ok l Hfit) as Hl.
  destruct (total_spec l) as (H0 & Hend & Hex).
  assert (Forall field_ok (Fields l) → ∀ f, f ∈ Fields l → field_end f = Offset f + Length f) as Hfe.
  { intros Hok f Hf. rewrite Forall_forall in Hok, Hfit. apply field_end_fits; auto. }
  rewrite Forall_forall in Hend. rewrite Exists_exists in Hex.
  assert (FieldLayout_Validate l = Ok () ∧ TotalBytes l = n ↔ Fields l ≠ [] ∧ Forall field_ok (Fields l) ∧
    tiles (Fields l) n ∧ Forall (λ f, Offset f + Length f ≤ n) (Fields l) ∧
    Exists (λ f, Offset f + Length f = n) (Fields l)) as <-.
  - rewrite Hl, Exists_exists. split.
    + intros [(Hne & Hok & Ht) <-]. split_and!; [done|done|done|..].
      * apply Forall_forall. intros f Hf. rewrite <- Hfe by done. by apply Hend.
      * destruct Hex as [?|(f & Hf & E)]; [lia|]. exists f. by rewrite <- Hfe.
    + intros (Hne & Hok & Ht & Hle & f & Hf & E).
      assert (TotalBytes l = n) as ->; [|done].
      pose proof (Hend f Hf) as Hf'. rewrite Hfe in Hf' by done.
      destruct Hex as [?|(g & Hg & Eg)]; [lia|]. rewrite Hfe in Eg by done.
      rewrite Forall_forall in Hle. specialize (Hle g Hg). lia.
  - destruct (FieldLayout_Validate l) as [[]|e]; cbn [map_err rbind]; [|naive_solver].
    destruct (Z.eqb_spec (TotalBytes l) n); naive_solver.
Qed.

(** ** Properties *)

(** C24: What the registry's validation accepts.  For a schema whose fields end within
    [int32], [Validate] succeeds exactly when id, name and operator are not empty, the
    OAM mode is between -16 and 16, there is a layout with at least one field, each field
    has a name, a non-negative offset and a positive length (its type's, for a type of
    fixed width), every byte of the payload lies in exactly one field, and
    [payload_bytes] is the positive end of the last field.  So a length of 0 for a type
    of fixed width, and a length other than 1 for [enum_u8], are refused, although the
    comments on [SizeBytes] and [FieldDef] allow the first and let the author choose the
    second; the two cases are findings. *)
Theorem schema_validate_exact (s : ApplicationSchema) :
  (∀ l, Layout s = Some l → Forall end_fits (Fields l)) →
  Validate s = Ok () ↔
  ID s ≠ [] ∧ SchemaName s ≠ [] ∧ OperatorID s ≠ [] ∧ -16 ≤ OamMode s ≤ 16 ∧ 0 < PayloadBytes s ∧
  ∃ l, Layout s = Some l ∧ Fields l ≠ [] ∧ Forall field_ok (Fields l) ∧
    tiles (Fields l) (PayloadBytes s) ∧
    Forall (λ f, Offset f + Length f ≤ PayloadBytes s) (Fields l) ∧
    Exists (λ f, Offset f + Length f = PayloadBytes s) (Fields l).
Proof.
  intros Hfit. unfold Validate.
  do 3 (case_bool_decide; [naive_solver|]).
  destruct (Z.ltb_spec (OamMode s) (-16)), (Z.ltb_spec 16 (OamMode s)); cbn [orb]; try naive_solver lia.
  destruct (Z.leb_spec (PayloadBytes s) 0); [naive_solver lia|].
  destruct (Layout s) as [l|] eqn:El; [|naive_solver]. specialize (Hfit l eq_refl).
  rewrite (layout_size_ok l (PayloadBytes s)) by done. naive_solver lia.
Qed.

Definition field (name : string) (off len ty : Z) : FieldDef := mkFieldDef (lit name) off len ty [].

(** The tick schema: symbol, reserved, price and the rest. *)
Definition tick_schema : ApplicationSchema :=
  mkSchema (lit "s-1") 3 64 (lit "MarketTick") 1
    (Some (mkFieldLayout [field "price" 8 8 10; field "symbol" 0 8 11; field "reserved" 16 48 12]))
    (lit "op-alice") 1 5 5 [].

Lemma schema_validate_exact_witness :
  Validate tick_schema = Ok () ∧ tiles (Fields (mkFieldLayout
    [field "price" 8 8 10; field "symbol" 0 8 11; field "reserved" 16 48 12])) 64.
Proof.
  assert (Validate tick_schema = Ok ()) as Hv by (vm_compute; reflexivity). split; [exact Hv|].
  apply (schema_validate_exact tick_schema) in Hv as (_ & _ & _ & _ & _ & l & El & _ & _ & Ht & _).
  - injection El as <-. exact Ht.
  - intros l El. injection El as <-. repeat constructor.
Defined.

(** A field whose end wraps past [int32] escapes the checks: it is counted neither for the
    total nor for overlap, so a layout of one proper byte and a field at the very end of
    the range is valid for a payload of one byte. *)
Theorem wrapped_field_accepted :
  FieldLayout_Validate (mkFieldLayout [field "a" 0 1 1; field "b" (2 ^ 31 - 1) 100 12]) = Ok () ∧
  TotalBytes (mkFieldLayout [field "a" 0 1 1; field "b" (2 ^ 31 - 1) 100 12]) = 1.
Proof. split; vm_compute; reflexivity. Qed.
