(* ===== verification/FlrStore.v ===== *)
(** * flr: the schema store

    Models [src/flr/internal/registry/schema_store.go].  The database (BadgerDB) is the
    class [Badger]: keys and values are texts, a transaction reads and writes one
    version of the contents; [BadgerSpec] states what the store relies on.  The text of a
    schema is that of [encoding/json], the class [GoJson].  The engine and the store hold
    their mutexes over whole operations, so an operation is one step.  Failures of the
    disk are not modelled. *)

From stdpp Require Import gmap.
From S2P Require Import Prelude Float FlrModels.
Local Open Scope Z_scope.

(** ** JSON *)

Inductive json : Type :=
| JNull
| JNum (z : Z)
| JFloat (x : float)
| JBool (b : bool)
| JStr (s : text)
| JArr (l : list json)
| JObj (l : list (text * json)).

(** The rendering of the standard library: JSON texts, times in RFC 3339 with nanoseconds,
    base64, and the decoding of a schema. *)
Class GoJson := {
  go_render : json → text;
  rfc3339 : Z → text;
  base64 : bytes → text;
  go_unmarshal_schema : text → option models.ApplicationSchema;
}.

Section marshal.
Context `{GoJson}.
Import models.

(** The fields in the order and under the names of the struct tags; [omitempty] leaves
    out an empty value. *)
Definition field_json (f : FieldDef) : json :=
  JObj ([(lit "name", JStr (Name f)); (lit "offset", JNum (Offset f)); (lit "length", JNum (Length f));
         (lit "type", JNum (Type_ f))] ++
        (if bool_decide (Description f = []) then [] else [(lit "description", JStr (Description f))])).

Definition layout_json (l : FieldLayout) : json :=
  JObj [(lit "fields", if bool_decide (Fields l = []) then JNull else JArr (field_json <$> Fields l))].

Definition schema_json (s : ApplicationSchema) : json :=
  JObj ([(lit "id", JStr (ID s)); (lit "oam_mode", JNum (OamMode s));
         (lit "payload_bytes", JNum (PayloadBytes s)); (lit "name", JStr (SchemaName s));
         (lit "version", JNum (Version s));
         (lit "layout", match Layout s with Some l => layout_json l | None => JNull end);
         (lit "operator_id", JStr (OperatorID s)); (lit "status", JNum (Status s));
         (lit "created_at", JStr (rfc3339 (CreatedAt s))); (lit "updated_at", JStr (rfc3339 (UpdatedAt s)))] ++
        (if bool_decide (Signature s = []) then [] else [(lit "signature", JStr (base64 (Signature s)))])).

(** [json.Marshal(sch)] *)
Definition marshal_schema (s : ApplicationSchema) : text := go_render (schema_json s).
End marshal.

(** What was marshalled is unmarshalled: the texts of a schema are UTF-8, its numbers those
    of their types and its times of years with four digits, as the values of a schema that
    was itself decoded from a request are. *)
Class GoJsonSpec `{GoJson} : Prop := {
  go_schema_roundtrip s : go_unmarshal_schema (marshal_schema s) = Some s;
  go_render_not_empty j : go_render j ≠ [];
}.

(** ** The database *)

Class Badger := {
  db : Type;
  (** [txn.Get]; [None]: [ErrKeyNotFound] *)
  db_get : text → db → option text;
  db_set : text → text → db → db;
  db_delete : text → db → db;
  (** the items whose key has the prefix, in the order of the iterator *)
  db_scan : text → db → list (text * text);
}.

Class BadgerSpec `{Badger} : Prop := {
  get_set k v d : db_get k (db_set k v d) = Some v;
  get_set_ne k k' v d : k ≠ k' → db_get k' (db_set k v d) = db_get k' d;
  get_delete k d : db_get k (db_delete k d) = None;
  get_delete_ne k k' d : k ≠ k' → db_get k' (db_delete k d) = db_get k' d;
  scan_get p d k v : (k, v) ∈ db_scan p d ↔ p `prefix_of` k ∧ db_get k d = Some v;
  scan_keys p d : NoDup (db_scan p d).*1;
}.

(** ** The store *)

Module registry.
Import models.

Definition prefixSchema : text := lit "schema:".
Definition prefixSchemaOamIdx : text := lit "schema_oam:".

Definition primaryKey (id : text) : text := prefixSchema ++ id.

(** [fmt.Sprintf("%s%s:%d", prefixSchemaOamIdx, op, oam)] *)
Definition oamIdxKey (op : text) (oam : Z) : text := prefixSchemaOamIdx ++ op ++ lit ":" ++ show oam.

Record SchemaFilter : Type := mkFilter {
  f_OperatorID : text;
  f_OamMode : option Z;
  f_Status : Z;
  f_NameLike : text;
}.

Inductive StoreError : Type :=
| StoreEmptyID
| SchemaExists (id : text)
| SchemaNotFound (id : text)
| AlreadyActive (operator existing : text) (oam : Z)
| StoreEmptyOperator
| NoActive (operator : text) (oam : Z)
| NotActive (id : text) (status : Z)
| MalformedSchema (id : text).

Section store.
Context `{GoJson, Badger}.

(** [loadSchema] *)
Definition loadSchema (id : text) (d : db) : result ApplicationSchema StoreError :=
  match db_get (primaryKey id) d with
  | None => Err (SchemaNotFound id)
  | Some v => match go_unmarshal_schema v with Some s => Ok s | None => Err (MalformedSchema id) end
  end.

(** The occupant of an OAM slot, when it is active. *)
Definition active_occupant (key : text) (d : db) : option ApplicationSchema :=
  match db_get key d with
  | None => None
  | Some existingID =>
      match loadSchema existingID d with
      | Ok existing => if Status existing =? SchemaStatusActive then Some existing else None
      | Err _ => None
      end
  end.

Definition CreateSchema (sch : ApplicationSchema) : state_result db unit StoreError := λ d,
  if bool_decide (ID sch = []) then (d, Err StoreEmptyID)
  else
    let key := oamIdxKey (OperatorID sch) (OamMode sch) in
    if bool_decide (is_Some (db_get (primaryKey (ID sch)) d)) then (d, Err (SchemaExists (ID sch)))
    else
      match (if Status sch =? SchemaStatusActive then active_occupant key d else None) with
      | Some existing => (d, Err (AlreadyActive (OperatorID sch) (ID existing) (OamMode sch)))
      | None =>
          let d := db_set (primaryKey (ID sch)) (marshal_schema sch) d in
          ((if Status sch =? SchemaStatusActive then db_set key (ID sch) d else d), Ok ())
      end.

Definition GetSchema (id : text) (d : db) : result ApplicationSchema StoreError :=
  if bool_decide (id = []) then Err StoreEmptyID else loadSchema id d.

Definition UpdateSchema (sch : ApplicationSchema) : state_result db unit StoreError := λ d,
  if bool_decide (ID sch = []) then (d, Err StoreEmptyID)
  else
    let key := oamIdxKey (OperatorID sch) (OamMode sch) in
    match loadSchema (ID sch) d with
    | Err _ => (d, Err (SchemaNotFound (ID sch)))
    | Ok existing =>
        let d' := db_set (primaryKey (ID sch)) (marshal_schema sch) d in
        let was := Status existing =? SchemaStatusActive in
        let now := Status sch =? SchemaStatusActive in
        if was && negb now then (db_delete key d', Ok ())
        else if negb was && now then
          let conflict :=
            match db_get key d' with
            | Some currentID =>
                if bool_decide (currentID = ID sch) then None
                else
                  match loadSchema currentID d' with
                  | Ok other => if Status other =? SchemaStatusActive then Some other else None
                  | Err _ => None
                  end
            | None => None
            end in
          match conflict with
          | Some other => (d, Err (AlreadyActive (OperatorID sch) (ID other) (OamMode sch)))
          | None => (db_set key (ID sch) d', Ok ())
          end
        else (d', Ok ())
    end.

Definition DeleteSchema (id : text) : state_result db unit StoreError := λ d,
  if bool_decide (id = []) then (d, Err StoreEmptyID)
  else
    match loadSchema id d with
    | Err _ => (d, Err (SchemaNotFound id))
    | Ok existing =>
        let key := oamIdxKey (OperatorID existing) (OamMode existing) in
        let d := db_delete (primaryKey id) d in
        (match db_get key d with
         | Some currentID => if bool_decide (currentID = id) then db_delete key d else d
         | None => d
         end, Ok ())
    end.

(** [strings.Contains] *)
Fixpoint contains (s sub : text) : bool :=
  bool_decide (sub `prefix_of` s) || match s with [] => false | _ :: s => contains s sub end.

Definition schemaMatches (s : ApplicationSchema) (f : SchemaFilter) : bool :=
  if negb (bool_decide (f_OperatorID f = [])) && negb (bool_decide (OperatorID s = f_OperatorID f)) then false
  else if match f_OamMode f with Some m => negb (OamMode s =? m) | None => false end then false
  else if negb (f_Status f =? SchemaStatusUnspecified) && negb (Status s =? f_Status f) then false
  else if negb (bool_decide (f_NameLike f = [])) && negb (contains (SchemaName s) (f_NameLike f)) then false
  else true.

(** Entries that do not unmarshal are skipped. *)
Definition ListSchemas (f : SchemaFilter) (d : db) : list ApplicationSchema :=
  omap (λ '(_, v), match go_unmarshal_schema v with
                   | Some s => if schemaMatches s f then Some s else None
                   | None => None
                   end) (db_scan prefixSchema d).

Definition GetActiveSchemaForOam (op : text) (oam : Z) (d : db) : result ApplicationSchema StoreError :=
  if bool_decide (op = []) then Err StoreEmptyOperator
  else
    match db_get (oamIdxKey op oam) d with
    | None => Err (NoActive op oam)
    | Some id =>
        let? sch := loadSchema id d in
        if negb (Status sch =? SchemaStatusActive) then Err (NotActive (ID sch) (Status sch)) else Ok sch
    end.
End store.
End registry.

(** ** Keys *)

Lemma str_bytes_cons c s : str_bytes (String c s) = Z.of_N (Ascii.N_of_ascii c) :: str_bytes s.
Proof. reflexivity. Qed.

Lemma str_bytes_inj s t : str_bytes s = str_bytes t → s = t.
Proof.
  revert t. induction s as [|c s IH]; intros [|c' t]; rewrite ?str_bytes_cons; try done.
  intros E. injection E as Ec Es. apply N2Z.inj, (f_equal Ascii.ascii_of_N) in Ec.
  rewrite !Ascii.ascii_N_embedding in Ec. by rewrite Ec, (IH t).
Qed.

(** The characters of a decimal number. *)
Definition decimal (c : Z) : Prop := c = 45 ∨ 48 ≤ c ≤ 57.

Lemma pretty_N_char_decimal n : decimal (Z.of_N (Ascii.N_of_ascii (pretty_N_char n))).
Proof. unfold pretty_N_char. repeat case_match; right; split; vm_compute; congruence. Qed.

Lemma pretty_N_go_decimal x : ∀ s, Forall decimal (str_bytes s) → Forall decimal (str_bytes (pretty_N_go x s)).
Proof.
  induction x as [x IH] using (well_founded_induction N.lt_wf_0). intros s Hs.
  destruct (decide (x = 0)%N) as [->|Hx]; [by rewrite pretty_N_go_0|].
  rewrite pretty_N_go_step by lia. apply IH; [apply N.div_lt; lia|].
  rewrite str_bytes_cons. constructor; [apply pretty_N_char_decimal|done].
Qed.

Lemma pretty_pos_decimal (p : positive) : Forall decimal (str_bytes (pretty p)).
Proof.
  change (pretty p) with (pretty (N.pos p)). unfold pretty, pretty_N. rewrite decide_False by done.
  apply pretty_N_go_decimal. constructor.
Qed.

Lemma show_decimal z : Forall decimal (show z).
Proof.
  unfold show, lit. destruct z as [|p|p].
  - constructor; [by right|constructor].
  - apply pretty_pos_decimal.
  - change (Forall decimal (45 :: str_bytes (pretty p))). constructor; [by left|apply pretty_pos_decimal].
Qed.

Lemma show_inj z z' : show z = show z' → z = z'.
Proof. intros E%str_bytes_inj. by apply pretty_Z_inj in E. Qed.

(** The last colon separates the operator from the number. *)
Lemma split_colon (a a' b b' : text) :
  Forall decimal b → Forall decimal b' → a ++ lit ":" ++ b = a' ++ lit ":" ++ b' → a = a' ∧ b = b'.
Proof.
  assert (∀ c, decimal c → c ≠ 58) as Hc by (unfold decimal; lia).
  assert (∀ x y u v, Forall decimal u → Forall decimal v → u ++ [58] ++ x = v ++ [58] ++ y → u = v ∧ x = y) as Hrev.
  { intros x y u. induction u as [|c u IH]; intros v Hu Hv E.
    - destruct v as [|d v]; cbn in E; [injection E as E; by split|]. injection E as E _. subst d.
      apply Forall_cons in Hv as [Hd _]. by apply Hc in Hd.
    - apply Forall_cons in Hu as [Hcu Hu]. destruct v as [|d v]; cbn in E.
      + injection E as E _. subst c. by apply Hc in Hcu.
      + injection E as -> E. apply Forall_cons in Hv as [_ Hv]. destruct (IH v Hu Hv E) as [-> ->]. done. }
  intros Hb Hb' E. apply (f_equal reverse) in E. rewrite !reverse_app in E. change (reverse (lit ":")) with [58] in E.
  rewrite <- !app_assoc in E. apply Hrev in E as [E1 E2]; [|by apply Forall_reverse..].
  by apply (inj reverse) in E1, E2.
Qed.

Import models registry.

Lemma primary_inj id id' : primaryKey id = primaryKey id' → id = id'.
Proof. by intros E%app_inv_head. Qed.

Lemma oamIdxKey_inj op op' oam oam' : oamIdxKey op oam = oamIdxKey op' oam' → op = op' ∧ oam = oam'.
Proof.
  intros E%app_inv_head. apply split_colon in E as [-> E%show_inj]; [done|apply show_decimal..].
Qed.

Lemma primary_not_oam id op oam : primaryKey id ≠ oamIdxKey op oam.
Proof. done. Qed.

Lemma primary_prefix k : prefixSchema `prefix_of` k ↔ ∃ id, k = primaryKey id.
Proof. done. Qed.

(** ** The store as a map *)

(** [s] is the active schema of an operator's OAM slot. *)
Definition active (s : ApplicationSchema) (op : text) (oam : Z) : Prop :=
  Status s = SchemaStatusActive ∧ OperatorID s = op ∧ OamMode s = oam.

#[export] Instance active_dec s op oam : Decision (active s op oam).
Proof. unfold active. apply _. Defined.

Section store_map.
Context `{GoJson, !GoJsonSpec, Badger, !BadgerSpec}.

(** The database holds the schemas [m], each under its id, and the index points to the
    active schema of every slot that has one.  The index being a function, there is at
    most one. *)
Record holds (d : db) (m : gmap text ApplicationSchema) : Prop := {
  h_primary id : db_get (primaryKey id) d = marshal_schema <$> (m !! id);
  h_id id s : m !! id = Some s → ID s = id;
  h_index op oam id :
    db_get (oamIdxKey op oam) d = Some id ↔ ∃ s, m !! id = Some s ∧ active s op oam;
}.

Lemma marshal_inj s s' : marshal_schema s = marshal_schema s' → s = s'.
Proof. intros E%(f_equal go_unmarshal_schema). rewrite !go_schema_roundtrip in E. by injection E. Qed.

Lemma load_holds d m id :
  holds d m → loadSchema id d = match m !! id with Some s => Ok s | None => Err (SchemaNotFound id) end.
Proof.
  intros Hd. unfold loadSchema. rewrite (h_primary d m Hd). destruct (m !! id); [|done].
  cbn. by rewrite go_schema_roundtrip.
Qed.

Lemma occupant_holds d m op oam :
  holds d m →
  match active_occupant (oamIdxKey op oam) d with
  | Some s => m !! ID s = Some s ∧ active s op oam
  | None => ∀ id s, m !! id = Some s → ¬ active s op oam
  end.
Proof.
  intros Hd. unfold active_occupant. destruct (db_get (oamIdxKey op oam) d) as [id|] eqn:E.
  - pose proof E as (s & Hs & Ha)%(h_index d m Hd). rewrite (load_holds d m) by done. rewrite Hs.
    pose proof Ha as (-> & _). rewrite Z.eqb_refl. split; [|done]. by rewrite (h_id d m Hd id s Hs).
  - intros id s Hs Ha. assert (db_get (oamIdxKey op oam) d = Some id) as E'; [|by rewrite E in E'].
    apply (h_index d m Hd). by exists s.
Qed.

(** Writing a schema under its id: the primary keys. *)
Lemma set_primary d m s id :
  holds d m → db_get (primaryKey id) (db_set (primaryKey (ID s)) (marshal_schema s) d) =
  marshal_schema <$> (<[ID s := s]> m) !! id.
Proof.
  intros Hd. destruct (decide (ID s = id)) as [<-|Hne].
  - by rewrite get_set, lookup_insert_eq.
  - rewrite get_set_ne, lookup_insert_ne, (h_primary d m Hd); [done|done|].
    by intros E%primary_inj.
Qed.

Lemma insert_ids (m : gmap text ApplicationSchema) s :
  (∀ id s, m !! id = Some s → ID s = id) → ∀ id s', (<[ID s := s]> m) !! id = Some s' → ID s' = id.
Proof. intros Hid id s' [[<- ->]|[_ ?]]%lookup_insert_Some; [done|by apply Hid]. Qed.

Lemma insert_other m (sch : ApplicationSchema) op oam id :
  (∀ old, m !! ID sch = Some old → active old op oam → False) → ¬ active sch op oam →
  (∃ s, (<[ID sch := sch]> m : gmap text ApplicationSchema) !! id = Some s ∧ active s op oam) ↔
  (∃ s, m !! id = Some s ∧ active s op oam).
Proof.
  intros Hold Hn. split; intros (s & Hs & Ha); exists s; (split; [|done]).
  - by apply lookup_insert_Some in Hs as [[_ <-]|[_ ?]].
  - rewrite lookup_insert_ne; [done|]. intros <-. by destruct (Hold s Hs).
Qed.

(** No schema but [sch] is active in its slot. *)
Definition sole (m : gmap text ApplicationSchema) (sch : ApplicationSchema) : Prop :=
  ∀ id s, m !! id = Some s → id ≠ ID sch → ¬ active s (OperatorID sch) (OamMode sch).

(** Putting [sch] into the map: it keeps the slot of a schema it replaces, no other schema
    is active in it when [sch] is, and the index of the slot is set or cleared to match. *)
Lemma put_holds d d' m sch :
  let key := oamIdxKey (OperatorID sch) (OamMode sch) in
  holds d m →
  (∀ old, m !! ID sch = Some old → OperatorID old = OperatorID sch ∧ OamMode old = OamMode sch) →
  (∀ id, db_get (primaryKey id) d' = marshal_schema <$> (<[ID sch := sch]> m) !! id) →
  (∀ op oam, oamIdxKey op oam ≠ key → db_get (oamIdxKey op oam) d' = db_get (oamIdxKey op oam) d) →
  (if decide (Status sch = SchemaStatusActive) then sole m sch ∧ db_get key d' = Some (ID sch)
   else (sole m sch ∧ db_get key d' = None) ∨
        (db_get key d' = db_get key d ∧ ∀ old, m !! ID sch = Some old → Status old ≠ SchemaStatusActive)) →
  holds d' (<[ID sch := sch]> m).
Proof.
  intros key Hd Hsame Hprim Hkeys Hkey. split; [done|by apply insert_ids, (h_id d m Hd)|].
  intros op oam id. destruct (decide (oamIdxKey op oam = key)) as [E|E].
  - rewrite E. apply oamIdxKey_inj in E as [-> ->]. case_decide as Ha.
    + destruct Hkey as [Hsole ->]. split.
      * intros [= <-]. exists sch. by rewrite lookup_insert_eq.
      * intros (s & [[<- _]|[? Hs]]%lookup_insert_Some & Has); [done|]. by destruct (Hsole id s Hs).
    + destruct Hkey as [[Hsole ->]|[-> Hold]].
      * split; [done|]. intros (s & [[_ <-]|[? Hs]]%lookup_insert_Some & Has); [by destruct Has|].
        by destruct (Hsole id s Hs).
      * rewrite insert_other; [apply (h_index d m Hd)| |by intros [? _]].
        intros old Ho [Has _]. by destruct (Hold old Ho).
  - rewrite Hkeys, (h_index d m Hd) by done. symmetry. apply insert_other.
    + intros old Ho (_ & <- & <-). destruct (Hsame old Ho) as [E1 E2]. by rewrite E1, E2 in E.
    + by intros (_ & <- & <-).
Qed.

Lemma create_schema_spec d m sch :
  holds d m →
  let '(d', r) := CreateSchema sch d in
  match r with
  | Ok _ =>
      ID sch ≠ [] ∧ m !! ID sch = None ∧ holds d' (<[ID sch := sch]> m) ∧
      (Status sch = SchemaStatusActive → ∀ id s, m !! id = Some s → ¬ active s (OperatorID sch) (OamMode sch))
  | Err StoreEmptyID => d' = d ∧ ID sch = []
  | Err (SchemaExists id) => d' = d ∧ id = ID sch ∧ is_Some (m !! id)
  | Err (AlreadyActive op ex oam) =>
      d' = d ∧ op = OperatorID sch ∧ oam = OamMode sch ∧ Status sch = SchemaStatusActive ∧
      ∃ s, m !! ex = Some s ∧ active s op oam
  | Err _ => False
  end.
Proof.
  intros Hd. unfold CreateSchema. case_bool_decide as Hne; [done|].
  rewrite (h_primary d m Hd). case_bool_decide as Hex.
  { split_and!; [done|done|]. destruct (m !! ID sch); [done|by destruct Hex]. }
  assert (m !! ID sch = None) as Hnew by (destruct (m !! ID sch); [by destruct Hex|done]).
  pose proof (occupant_holds d m (OperatorID sch) (OamMode sch) Hd) as Hocc.
  assert (∀ old, m !! ID sch = Some old → OperatorID old = OperatorID sch ∧ OamMode old = OamMode sch) as Hsame
    by (intros old; by rewrite Hnew).
  destruct (Z.eqb_spec (Status sch) SchemaStatusActive) as [Hact|Hact].
  - destruct (active_occupant _ d) as [s|].
    { destruct Hocc as [Hs Ha]. split_and!; [done..|]. by exists s. }
    split_and!; [done|done| |done]. apply (put_holds d); [done|done| | |].
    + intros id. rewrite get_set_ne by (apply not_eq_sym, primary_not_oam). by apply set_primary.
    + intros op oam E. by rewrite get_set_ne, get_set_ne by (apply primary_not_oam || by apply not_eq_sym).
    + rewrite decide_True, get_set by done. split; [|done]. intros id s Hs _. by apply Hocc with id.
  - split_and!; [done|done| |done]. apply (put_holds d); [done|done|by intros; apply set_primary| |].
    + intros op oam _. by rewrite get_set_ne by apply primary_not_oam.
    + rewrite decide_False by done. right. split; [by rewrite get_set_ne by apply primary_not_oam|].
      intros old. by rewrite Hnew.
Qed.

(** With one active schema in a slot, the others are not. *)
Lemma sole_active d m (sch old : ApplicationSchema) :
  holds d m → m !! ID sch = Some old → active old (OperatorID sch) (OamMode sch) → sole m sch.
Proof.
  intros Hd Ho Ha id s Hs Hid Has.
  assert (db_get (oamIdxKey (OperatorID sch) (OamMode sch)) d = Some id) as E1 by (apply (h_index d m Hd); eauto).
  assert (db_get (oamIdxKey (OperatorID sch) (OamMode sch)) d = Some (ID sch)) as E2
    by (apply (h_index d m Hd); eauto).
  rewrite E1 in E2. by injection E2.
Qed.

(** An update of a schema that keeps its operator and its mode. *)
Lemma update_schema_spec d m sch old :
  holds d m → m !! ID sch = Some old → ID sch ≠ [] →
  OperatorID sch = OperatorID old → OamMode sch = OamMode old →
  let '(d', r) := UpdateSchema sch d in
  match r with
  | Ok _ => holds d' (<[ID sch := sch]> m)
  | Err (AlreadyActive op ex oam) =>
      d' = d ∧ op = OperatorID sch ∧ oam = OamMode sch ∧ Status sch = SchemaStatusActive ∧
      Status old ≠ SchemaStatusActive ∧ ex ≠ ID sch ∧ ∃ s, m !! ex = Some s ∧ active s op oam
  | Err _ => False
  end.
Proof.
  intros Hd Hold Hne Eop Eoam. unfold UpdateSchema. rewrite bool_decide_false by done.
  rewrite (load_holds d m), Hold by done. set (d1 := db_set _ _ d).
  assert (∀ op oam, db_get (oamIdxKey op oam) d1 = db_get (oamIdxKey op oam) d) as Hidx
    by (intros; unfold d1; by rewrite get_set_ne by apply primary_not_oam).
  assert (∀ id, id ≠ ID sch → loadSchema id d1 = loadSchema id d) as Hload.
  { intros id Hid. unfold loadSchema, d1. rewrite get_set_ne; [done|]. by intros E%primary_inj. }
  assert (∀ old', m !! ID sch = Some old' → OperatorID old' = OperatorID sch ∧ OamMode old' = OamMode sch) as Hsame
    by (rewrite Hold; by intros old' [= <-]).
  destruct (Z.eqb_spec (Status old) SchemaStatusActive) as [Ho|Ho],
    (Z.eqb_spec (Status sch) SchemaStatusActive) as [Hs|Hs]; cbn [andb negb].
  - apply (put_holds d); [done|done|by intros; apply set_primary|by intros|].
    rewrite decide_True, Hidx by done. assert (active old (OperatorID sch) (OamMode sch)) as Ha by done.
    split; [by eapply sole_active|]. apply (h_index d m Hd). eauto.
  - apply (put_holds d); [done|done| | |].
    + intros id. rewrite get_delete_ne by (apply not_eq_sym, primary_not_oam). by apply set_primary.
    + intros op oam E. rewrite get_delete_ne by (by apply not_eq_sym). apply Hidx.
    + rewrite decide_False, get_delete by done. left. split; [|done]. by eapply sole_active.
  - rewrite Hidx. destruct (db_get _ d) as [cur|] eqn:Ek.
    + pose proof Ek as (s & Hcur & Ha)%(h_index d m Hd).
      assert (cur ≠ ID sch) as Hcne by (intros ->; rewrite Hold in Hcur; injection Hcur as <-; by destruct Ha).
      rewrite bool_decide_false by done. rewrite Hload, (load_holds d m), Hcur by done.
      pose proof Ha as (-> & _). rewrite Z.eqb_refl. rewrite (h_id d m Hd cur s Hcur).
      split_and!; try done. by exists s.
    + apply (put_holds d); [done|done| | |].
      * intros id. rewrite get_set_ne by (apply not_eq_sym, primary_not_oam). by apply set_primary.
      * intros op oam E. rewrite get_set_ne by (by apply not_eq_sym). apply Hidx.
      * rewrite decide_True, get_set by done. split; [|done]. intros id s Hs' _ Ha.
        assert (db_get (oamIdxKey (OperatorID sch) (OamMode sch)) d = Some id) as E by (apply (h_index d m Hd); eauto).
        by rewrite Ek in E.
  - apply (put_holds d); [done|done|by intros; apply set_primary|by intros|].
    rewrite decide_False by done. right. split; [apply Hidx|]. rewrite Hold. by intros old' [= <-].
Qed.

Lemma delete_schema_spec d m id old :
  holds d m → m !! id = Some old → id ≠ [] →
  ∃ d', DeleteSchema id d = (d', Ok ()) ∧ holds d' (delete id m).
Proof.
  intros Hd Hold Hne. unfold DeleteSchema. rewrite bool_decide_false by done.
  rewrite (load_holds d m), Hold by done. eexists. split; [reflexivity|].
  set (d1 := db_delete _ d). set (key := oamIdxKey _ _).
  assert (∀ op oam, db_get (oamIdxKey op oam) d1 = db_get (oamIdxKey op oam) d) as Hidx
    by (intros; unfold d1; by rewrite get_delete_ne by apply primary_not_oam).
  assert (∀ k, db_get (primaryKey k) d1 = marshal_schema <$> delete id m !! k) as Hprim.
  { intros k. unfold d1. destruct (decide (id = k)) as [<-|].
    - by rewrite get_delete, lookup_delete_eq.
    - rewrite get_delete_ne, lookup_delete_ne by (done || by intros E%primary_inj). apply (h_primary d m Hd). }
  assert (db_get key d1 = db_get key d) as Ek by apply Hidx.
  rewrite Ek. set (drop := match db_get key d with Some c => bool_decide (c = id) | None => false end).
  assert (∀ d2, d2 = (if drop then db_delete key d1 else d1) → holds d2 (delete id m)) as Hgoal.
  - intros d2 ->. split.
    + intros k. rewrite <- Hprim. destruct drop; [|done].
      by rewrite get_delete_ne by (apply not_eq_sym, primary_not_oam).
    + intros k s [_ ?]%lookup_delete_Some. by apply (h_id d m Hd).
    + intros op oam k.
      transitivity (k ≠ id ∧ db_get (oamIdxKey op oam) d = Some k);
        [|rewrite (h_index d m Hd); setoid_rewrite lookup_delete_Some; naive_solver].
      destruct (decide (oamIdxKey op oam = key)) as [E|E].
      * rewrite E. unfold drop. destruct (db_get key d) as [c|] eqn:Ec; [|rewrite Ek; naive_solver].
        case_bool_decide; [rewrite get_delete|rewrite Ek]; naive_solver.
      * assert (db_get (oamIdxKey op oam) (if drop then db_delete key d1 else d1) =
          db_get (oamIdxKey op oam) d) as -> by (destruct drop; [rewrite get_delete_ne by done|]; apply Hidx).
        split; [|naive_solver]. intros Hk. split; [|done]. intros ->.
        apply (h_index d m Hd) in Hk as (s & Hs & _ & <- & <-). rewrite Hold in Hs. by injection Hs as <-.
  - apply Hgoal. unfold drop. destruct (db_get key d); [|done]. by case_bool_decide.
Qed.

(** ** Queries *)

Lemma get_active_spec d m op oam :
  holds d m → op ≠ [] →
  match GetActiveSchemaForOam op oam d with
  | Ok s => m !! ID s = Some s ∧ active s op oam
  | Err e => e = NoActive op oam ∧ ∀ id s, m !! id = Some s → ¬ active s op oam
  end.
Proof.
  intros Hd Hop. unfold GetActiveSchemaForOam. rewrite bool_decide_false by done.
  destruct (db_get _ d) as [id|] eqn:E.
  - pose proof E as (s & Hs & Ha)%(h_index d m Hd). rewrite (load_holds d m), Hs by done. cbn [rbind].
    pose proof Ha as (-> & _). rewrite Z.eqb_refl. cbn [negb]. by rewrite (h_id d m Hd id s Hs).
  - split; [done|]. intros id s Hs Ha.
    assert (db_get (oamIdxKey op oam) d = Some id) as E' by (apply (h_index d m Hd); eauto). by rewrite E in E'.
Qed.

Lemma list_schemas_spec d m f s :
  holds d m → s ∈ ListSchemas f d ↔ m !! ID s = Some s ∧ schemaMatches s f = true.
Proof.
  intros Hd. unfold ListSchemas. rewrite list_elem_of_omap. split.
  - intros ([k v] & Hkv & E). apply scan_get in Hkv as [[id ->]%primary_prefix Hv].
    rewrite (h_primary d m Hd) in Hv. apply fmap_Some in Hv as (s' & Hs & ->).
    rewrite go_schema_roundtrip in E. destruct (schemaMatches s' f) eqn:Em; [|done]. injection E as ->.
    by rewrite (h_id d m Hd id s Hs).
  - intros [Hs Hm]. exists (primaryKey (ID s), marshal_schema s). split.
    + apply scan_get. split; [apply primary_prefix; eauto|]. by rewrite (h_primary d m Hd), Hs.
    + by rewrite go_schema_roundtrip, Hm.
Qed.

(** Each schema is listed once. *)
Lemma list_schemas_nodup d m f : holds d m → NoDup (ID <$> ListSchemas f d).
Proof.
  intros Hd. unfold ListSchemas. pose proof (scan_keys prefixSchema d) as Hnd.
  assert (∀ k v, (k, v) ∈ db_scan prefixSchema d → ∃ s, v = marshal_schema s ∧ k = primaryKey (ID s)) as Hall.
  { intros k v [[id ->]%primary_prefix Hv]%scan_get. rewrite (h_primary d m Hd) in Hv.
    apply fmap_Some in Hv as (s & Hs & ->). exists s. by rewrite (h_id d m Hd id s Hs). }
  induction (db_scan prefixSchema d) as [|[k v] l IH]; [constructor|].
  cbn [fmap list_fmap fst] in Hnd. apply NoDup_cons in Hnd as [Hk Hnd].
  destruct (Hall k v ltac:(by left)) as (s & -> & ->). cbn [omap list_omap]. rewrite go_schema_roundtrip.
  specialize (IH Hnd ltac:(intros; apply Hall; by right)). destruct (schemaMatches s f); [|done].
  cbn [fmap list_fmap]. constructor; [|done]. intros (s' & E & Hs')%list_elem_of_fmap. apply Hk.
  apply list_elem_of_omap in Hs' as ([k' v'] & Hin & E').
  destruct (Hall k' v' ltac:(by right)) as (s2 & -> & ->). rewrite go_schema_roundtrip in E'.
  destruct (schemaMatches s2 f); [|done]. injection E' as ->. rewrite E.
  apply list_elem_of_fmap. by exists (primaryKey (ID s'), marshal_schema s').
Qed.
End store_map.

(** ** Concrete instances

    A database that is a finite map, and a rendering that numbers JSON values: they show
    that the stated facts can hold, and let examples run. *)

Module ToyStore.

Lemma json_rec' (P : json → Prop) :
  P JNull → (∀ z, P (JNum z)) → (∀ x, P (JFloat x)) → (∀ b, P (JBool b)) → (∀ s, P (JStr s)) →
  (∀ l, Forall P l → P (JArr l)) → (∀ l, Forall (λ kv, P kv.2) l → P (JObj l)) → ∀ j, P j.
Proof.
  intros Hn Hz Hx Hb Hs Ha Ho. fix IH 1. intros [| | | | |l|l]; [done|done|done|done|done|apply Ha|apply Ho].
  - induction l; constructor; auto.
  - induction l as [|[k v] l IHl]; constructor; auto.
Qed.

Definition float_code (x : float) : list Z :=
  match x with
  | S754_zero s => [0; Z.b2z s]
  | S754_infinity s => [1; Z.b2z s]
  | S754_nan => [2]
  | S754_finite s m e => [3; Z.b2z s; Z.pos m; e]
  end.

Definition code_float (l : list Z) : float :=
  match l with
  | [0; s] => S754_zero (negb (s =? 0))
  | [1; s] => S754_infinity (negb (s =? 0))
  | [3; s; Z.pos m; e] => S754_finite (negb (s =? 0)) m e
  | _ => S754_nan
  end.

Lemma code_float_code x : code_float (float_code x) = x.
Proof. by destruct x as [[]|[]| |[]]. Qed.

Fixpoint to_tree (j : json) : gen_tree (Z + text) :=
  match j with
  | JNull => GenNode 0 []
  | JNum z => GenLeaf (inl z)
  | JFloat x => GenNode 4 [GenLeaf (inr (float_code x))]
  | JBool b => GenNode 5 [GenLeaf (inl (Z.b2z b))]
  | JStr s => GenLeaf (inr s)
  | JArr l => GenNode 1 (to_tree <$> l)
  | JObj l => GenNode 2 ((λ kv, GenNode 3 [GenLeaf (inr kv.1); to_tree kv.2]) <$> l)
  end.

Fixpoint of_tree (t : gen_tree (Z + text)) : json :=
  match t with
  | GenLeaf (inl z) => JNum z
  | GenLeaf (inr s) => JStr s
  | GenNode 1 l => JArr (of_tree <$> l)
  | GenNode 2 l =>
      JObj ((λ t, match t with GenNode 3 [GenLeaf (inr k); v] => (k, of_tree v) | _ => ([], JNull) end) <$> l)
  | GenNode 4 [GenLeaf (inr c)] => JFloat (code_float c)
  | GenNode 5 [GenLeaf (inl b)] => JBool (negb (b =? 0))
  | GenNode _ _ => JNull
  end.

Lemma of_to_tree j : of_tree (to_tree j) = j.
Proof.
  induction j as [| |x|[]| |l Hl|l Hl] using json_rec'; try done; cbn [to_tree of_tree];
    [by rewrite code_float_code|f_equal..];
    rewrite <- list_fmap_compose; rewrite <- (list_fmap_id l) at 2; apply list_fmap_ext; intros i x Hx;
    eapply Forall_lookup_1 in Hl; try exact Hx; [exact Hl|].
  destruct x as [k v]. unfold compose. cbn in *. by rewrite Hl.
Qed.

Definition render (j : json) : text := [Z.pos (encode (to_tree j))].

Definition parse (t : text) : option json :=
  match t with [Z.pos p] => of_tree <$> decode p | _ => None end.

Lemma parse_render j : parse (render j) = Some j.
Proof. unfold parse, render. rewrite decode_encode. cbn. by rewrite of_to_tree. Qed.

Definition field_of (j : json) : option FieldDef :=
  match j with
  | JObj [(_, JStr n); (_, JNum o); (_, JNum l); (_, JNum t)] => Some (mkFieldDef n o l t [])
  | JObj [(_, JStr n); (_, JNum o); (_, JNum l); (_, JNum t); (_, JStr d)] => Some (mkFieldDef n o l t d)
  | _ => None
  end.

Definition layout_of (j : json) : option (option FieldLayout) :=
  match j with
  | JNull => Some None
  | JObj [(_, JNull)] => Some (Some (mkFieldLayout []))
  | JObj [(_, JArr l)] => (λ fs, Some (mkFieldLayout fs)) <$> mapM field_of l
  | _ => None
  end.

Definition schema_of (j : json) : option ApplicationSchema :=
  match j with
  | JObj ((_, JStr id) :: (_, JNum oam) :: (_, JNum n) :: (_, JStr name) :: (_, JNum v) :: (_, lay) ::
          (_, JStr op) :: (_, JNum st) :: (_, JStr [c]) :: (_, JStr [u]) :: sig) =>
      lay ← layout_of lay;
      match sig with
      | [] => Some (mkSchema id oam n name v lay op st c u [])
      | [(_, JStr sig)] => Some (mkSchema id oam n name v lay op st c u sig)
      | _ => None
      end
  | _ => None
  end.

#[export] Instance toy_json : GoJson := {|
  go_render := render;
  rfc3339 t := [t];
  base64 b := b;
  go_unmarshal_schema t := parse t ≫= schema_of;
|}.

Lemma field_of_json f : field_of (field_json f) = Some f.
Proof. destruct f as [n o l t d]. unfold field_json. cbn. by case_bool_decide; cbn; subst. Qed.

Lemma layout_of_json l : layout_of (layout_json l) = Some (Some l).
Proof.
  destruct l as [fs]. unfold layout_json. cbn [Fields]. case_bool_decide as E; [by subst|]. cbn [layout_of].
  assert (mapM field_of (field_json <$> fs) = Some fs) as ->; [|done].
  apply mapM_Some_2. apply Forall2_fmap_l. clear E.
  induction fs as [|f fs IH]; constructor; [apply field_of_json|done].
Qed.

#[export] Instance toy_json_spec : GoJsonSpec.
Proof.
  constructor; [|done]. intros s. unfold marshal_schema. cbn [go_unmarshal_schema go_render toy_json].
  rewrite parse_render. destruct s as [id oam n name v lay op st c u sig]. cbn [mbind option_bind].
  unfold schema_json. cbn [Signature Layout]. case_bool_decide as E; cbn [app schema_of].
  - destruct lay as [l|]; [rewrite layout_of_json|]; cbn; by subst.
  - destruct lay as [l|]; [rewrite layout_of_json|]; cbn; done.
Qed.

#[export] Instance toy_badger : Badger := {|
  db := gmap text text;
  db_get k d := d !! k;
  db_set k v d := <[k := v]> d;
  db_delete k d := delete k d;
  db_scan p d := base.filter (λ kv, p `prefix_of` kv.1) (map_to_list d);
|}.

#[export] Instance toy_badger_spec : BadgerSpec.
Proof.
  constructor; intros; cbn [db_get db_set db_delete db_scan toy_badger].
  - apply lookup_insert_eq.
  - by apply lookup_insert_ne.
  - apply lookup_delete_eq.
  - by apply lookup_delete_ne.
  - rewrite list_elem_of_filter, elem_of_map_to_list. done.
  - eapply sublist_NoDup; [apply (NoDup_fst_map_to_list d)|]. apply fmap_sublist, sublist_filter.
Qed.

Lemma empty_holds : holds (∅ : db) ∅.
Proof.
  split.
  - done.
  - done.
  - intros op oam id. cbn. rewrite lookup_empty. split; [done|]. intros (s & Hs & _). by rewrite lookup_empty in Hs.
Qed.
End ToyStore.
