(* ===== verification/FlrEngine.v ===== *)
(** * flr: the schema engine

    Models [src/flr/internal/registry/schema_engine.go] over [src/flr/internal/crypto]:
    the canonical bytes of a schema, signing and verification ([schema.go],
    [signbytes.go], the signature helpers of [engine.go]), and registration, deprecation
    and revocation.  SHA3, ECDSA and the key formats are the class [GoCrypto].  The
    clock, fresh ids and the randomness of a signature are arguments.  [RegisterSchema]
    fills in the schema it is given; here it returns the filled-in one. *)

From stdpp Require Import gmap sorting.
From S2P Require Import Prelude FlrModels FlrStore.
Local Open Scope Z_scope.

(** ** Libraries *)

Class GoCrypto := {
  (** the UTF-8 bytes of a text *)
  utf8 : text → bytes;
  sha3_256 : bytes → bytes;
  ec_sk : Type;
  ec_pk : Type;
  ec_public : ec_sk → ec_pk;
  (** [ecdsa.Sign] with some randomness: [r] and [s], or an error *)
  ec_sign : Z → ec_sk → bytes → option (Z * Z);
  ec_verify : ec_pk → bytes → Z → Z → bool;
  (** [pem.EncodeToMemory] of the PKIX form, and [parsePublicKey] *)
  pem_encode : ec_pk → bytes;
  pem_parse : bytes → option ec_pk;
}.

Class GoCryptoSpec `{GoCrypto} : Prop := {
  utf8_not_empty t : t ≠ [] → utf8 t ≠ [];
  sha3_length b : length (sha3_256 b) = 32%nat;
  ec_sign_verify rnd sk h r s :
    ec_sign rnd sk h = Some (r, s) → ec_verify (ec_public sk) h r s = true ∧ in_uint 256 r ∧ in_uint 256 s;
  pem_roundtrip pk : pem_parse (pem_encode pk) = Some pk;
  pem_not_empty pk : pem_encode pk ≠ [];
}.

(** The order of [sort.Slice] in the canonical form. *)
Definition offset_le (f g : models.FieldDef) : Prop := models.Offset f ≤ models.Offset g.

#[export] Instance offset_le_dec f g : Decision (offset_le f g).
Proof. unfold offset_le. apply _. Defined.

Module crypto.
Import models.

Section canonical.
Context `{GoJson}.

Definition canonical_field (f : FieldDef) : json :=
  JObj [(lit "name", JStr (Name f)); (lit "offset", JNum (Offset f)); (lit "length", JNum (Length f));
        (lit "type", JNum (Type_ f))].

(** [None]: there is no layout.  Of fields at one offset [sort.Slice] promises no order;
    here they keep the order they had. *)
Definition canonicalSchemaBytes (s : ApplicationSchema) : option text :=
  match Layout s with
  | None => None
  | Some l =>
      let sorted := merge_sort offset_le (Fields l) in
      Some (go_render (JObj
        [(lit "id", JStr (ID s)); (lit "oam_mode", JNum (OamMode s));
         (lit "payload_bytes", JNum (PayloadBytes s)); (lit "name", JStr (SchemaName s));
         (lit "version", JNum (Version s)); (lit "fields", JArr (canonical_field <$> sorted));
         (lit "operator_id", JStr (OperatorID s)); (lit "created_at", JStr (rfc3339 (CreatedAt s)))]))
  end.
End canonical.

Inductive CryptoError : Type :=
| NotOwner (operator engine : text)
| Canonicalize
| EcdsaFailed
| NoSignature
| NoPublicKey
| BadPublicKey
| BadSignatureLength (n : nat)
| VerificationFailed.

Definition marshalSignature (r s : Z) : bytes := to_be_bytes 32 r ++ to_be_bytes 32 s.

Definition unmarshalSignature (sig : bytes) : result (Z * Z) CryptoError :=
  if negb (bool_decide (length sig = 64%nat)) then Err (BadSignatureLength (length sig))
  else Ok (from_be_bytes (take 32 sig), from_be_bytes (drop 32 sig)).

Section engine.
Context `{GoJson, GoCrypto}.

Record Engine : Type := mkEngine { operatorID : text; privateKey : ec_sk }.

Definition GetPublicKey (e : Engine) : bytes := pem_encode (ec_public (privateKey e)).

Definition GetSchemaHash (s : ApplicationSchema) : bytes :=
  match canonicalSchemaBytes s with
  | None => replicate 32 0
  | Some data => sha3_256 (utf8 data)
  end.

Definition SignSchema (e : Engine) (rnd : Z) (s : ApplicationSchema) : result bytes CryptoError :=
  if negb (bool_decide (OperatorID s = operatorID e)) then Err (NotOwner (OperatorID s) (operatorID e))
  else
    match canonicalSchemaBytes s with
    | None => Err Canonicalize
    | Some data =>
        match ec_sign rnd (privateKey e) (sha3_256 (utf8 data)) with
        | None => Err EcdsaFailed
        | Some (r, sgn) => Ok (marshalSignature r sgn)
        end
    end.

Definition VerifySchemaSignature (s : ApplicationSchema) (operatorPubKey : bytes) : result unit CryptoError :=
  if bool_decide (Signature s = []) then Err NoSignature
  else if bool_decide (operatorPubKey = []) then Err NoPublicKey
  else
    match pem_parse operatorPubKey with
    | None => Err BadPublicKey
    | Some pubKey =>
        match canonicalSchemaBytes s with
        | None => Err Canonicalize
        | Some data =>
            let? rs := unmarshalSignature (Signature s) in
            if negb (ec_verify pubKey (sha3_256 (utf8 data)) rs.1 rs.2) then Err VerificationFailed else Ok ()
        end
    end.
End engine.
End crypto.

(** ** The engine *)

Module engine.
Import models registry.

Inductive EngineError : Type :=
| WrongOperator (operator engine : text)
| InvalidSchema (e : SchemaError)
| SignFailed (e : crypto.CryptoError)
| StoreFailed (e : StoreError).

Section engine.
Context `{GoJson, GoCrypto, Badger}.

Record Engine : Type := mkEngine {
  store : db;
  crypto_engine : crypto.Engine;
  operatorID : text;
  blockHeight : Z;
}.

Definition with_store (e : Engine) (d : db) : Engine :=
  mkEngine d (crypto_engine e) (operatorID e) (blockHeight e).

Definition with_signature (s : ApplicationSchema) (sig : bytes) : ApplicationSchema :=
  mkSchema (ID s) (OamMode s) (PayloadBytes s) (SchemaName s) (Version s) (Layout s) (OperatorID s)
    (Status s) (CreatedAt s) (UpdatedAt s) sig.

Definition with_status (s : ApplicationSchema) (status now : Z) : ApplicationSchema :=
  mkSchema (ID s) (OamMode s) (PayloadBytes s) (SchemaName s) (Version s) (Layout s) (OperatorID s)
    status (CreatedAt s) now (Signature s).

(** The defaults: operator, id, creation time and status where they are missing. *)
Definition fill_in (e : Engine) (now : Z) (uuid : text) (s : ApplicationSchema) : ApplicationSchema :=
  mkSchema (if bool_decide (ID s = []) then uuid else ID s) (OamMode s) (PayloadBytes s) (SchemaName s)
    (Version s) (Layout s) (if bool_decide (OperatorID s = []) then operatorID e else OperatorID s)
    (if Status s =? SchemaStatusUnspecified then SchemaStatusActive else Status s)
    (if CreatedAt s =? 0 then now else CreatedAt s) now (Signature s).

Definition RegisterSchema (now : Z) (uuid : text) (rnd : Z) (s : ApplicationSchema)
    : state_result Engine ApplicationSchema EngineError := λ e,
  let op := if bool_decide (OperatorID s = []) then operatorID e else OperatorID s in
  if negb (bool_decide (op = operatorID e)) then (e, Err (WrongOperator op (operatorID e)))
  else
    let s := fill_in e now uuid s in
    match Validate s with
    | Err err => (e, Err (InvalidSchema err))
    | Ok _ =>
        match crypto.SignSchema (crypto_engine e) rnd s with
        | Err err => (e, Err (SignFailed err))
        | Ok sig =>
            let s := with_signature s sig in
            let '(d, r) := CreateSchema s (store e) in
            (with_store e d, match r with Ok _ => Ok s | Err err => Err (StoreFailed err) end)
        end
    end.

(** [DeprecateSchema] and [RevokeSchema]: the same but for the status. *)
Definition change_status (status now rnd : Z) (id : text)
    : state_result Engine ApplicationSchema EngineError := λ e,
  match GetSchema id (store e) with
  | Err err => (e, Err (StoreFailed err))
  | Ok sch =>
      if negb (bool_decide (OperatorID sch = operatorID e)) then
        (e, Err (WrongOperator (OperatorID sch) (operatorID e)))
      else
        let sch := with_status sch status now in
        match crypto.SignSchema (crypto_engine e) rnd sch with
        | Err err => (e, Err (SignFailed err))
        | Ok sig =>
            let sch := with_signature sch sig in
            let '(d, r) := UpdateSchema sch (store e) in
            (with_store e d, match r with Ok _ => Ok sch | Err err => Err (StoreFailed err) end)
        end
  end.

Definition DeprecateSchema (now rnd : Z) (id : text) : state_result Engine ApplicationSchema EngineError :=
  change_status SchemaStatusDeprecated now rnd id.

Definition RevokeSchema (now rnd : Z) (id : text) : state_result Engine ApplicationSchema EngineError :=
  change_status SchemaStatusRevoked now rnd id.

Inductive VerifyError : Type :=
| Structural (e : SchemaError)
| BadSignature (e : crypto.CryptoError).

Definition VerifySchema (s : ApplicationSchema) (operatorPubKey : bytes) : result unit VerifyError :=
  let? _ := map_err Structural (Validate s) in
  map_err BadSignature (crypto.VerifySchemaSignature s operatorPubKey).
End engine.
End engine.

(** ** Signatures *)

Import models registry.

Section signing.
Context `{GoJson, GoCrypto, !GoCryptoSpec}.

Lemma signature_roundtrip r s :
  in_uint 256 r → in_uint 256 s → crypto.unmarshalSignature (crypto.marshalSignature r s) = Ok (r, s).
Proof.
  intros Hr Hs. unfold crypto.unmarshalSignature, crypto.marshalSignature.
  rewrite bool_decide_true by (rewrite length_app, !to_be_bytes_length; done). cbn [negb].
  rewrite take_app_length', drop_app_length' by (by rewrite to_be_bytes_length).
  by rewrite !from_to_be_bytes_uint.
Qed.

Lemma sign_verifies e rnd s sig :
  crypto.SignSchema e rnd s = Ok sig →
  crypto.VerifySchemaSignature (engine.with_signature s sig) (crypto.GetPublicKey e) = Ok ().
Proof.
  unfold crypto.SignSchema. case_bool_decide; [|done]. cbn [negb].
  destruct (crypto.canonicalSchemaBytes s) as [data|] eqn:Ec; [|done].
  destruct (ec_sign _ _ _) as [[r sgn]|] eqn:Es; [|done]. intros [= <-].
  apply ec_sign_verify in Es as (Hv & Hr & Hs). unfold crypto.VerifySchemaSignature, crypto.GetPublicKey.
  rewrite bool_decide_false.
  - rewrite bool_decide_false by apply pem_not_empty. rewrite pem_roundtrip.
    change (crypto.canonicalSchemaBytes (engine.with_signature s (crypto.marshalSignature r sgn)))
      with (crypto.canonicalSchemaBytes s). rewrite Ec.
    cbn [engine.with_signature Signature]. rewrite signature_roundtrip by done. cbn [rbind fst snd]. by rewrite Hv.
  - cbn [engine.with_signature Signature]. intros E%(f_equal length).
    unfold crypto.marshalSignature in E. by rewrite length_app, to_be_bytes_length in E.
Qed.

Lemma sign_owner e rnd s sig : crypto.SignSchema e rnd s = Ok sig → OperatorID s = crypto.operatorID e.
Proof. unfold crypto.SignSchema. by case_bool_decide. Qed.
End signing.

(** ** The engine's invariant *)

Section invariant.
Context `{GoJson, !GoJsonSpec, GoCrypto, !GoCryptoSpec, Badger, !BadgerSpec}.

Abbreviation Engine := engine.Engine.

(** Status and times are not part of validation or of the signed bytes. *)
Lemma validate_same s s' :
  ID s' = ID s → SchemaName s' = SchemaName s → OperatorID s' = OperatorID s → OamMode s' = OamMode s →
  PayloadBytes s' = PayloadBytes s → Layout s' = Layout s → Validate s' = Validate s.
Proof. unfold Validate. by intros -> -> -> -> -> ->. Qed.

(** Everything stored is the operator's own, valid and signed. *)
Record engine_inv (e : Engine) (m : gmap text ApplicationSchema) : Prop := {
  ei_holds : holds (engine.store e) m;
  ei_owner : crypto.operatorID (engine.crypto_engine e) = engine.operatorID e;
  ei_schema id s : m !! id = Some s →
    OperatorID s = engine.operatorID e ∧ ID s ≠ [] ∧
    engine.VerifySchema s (crypto.GetPublicKey (engine.crypto_engine e)) = Ok ();
}.

Lemma verify_signed (e : Engine) rnd s sig :
  Validate s = Ok () → crypto.SignSchema (engine.crypto_engine e) rnd s = Ok sig →
  engine.VerifySchema (engine.with_signature s sig) (crypto.GetPublicKey (engine.crypto_engine e)) = Ok ().
Proof.
  intros Hv Hs. unfold engine.VerifySchema.
  rewrite (validate_same s) by done. rewrite Hv. cbn [map_err rbind]. by rewrite (sign_verifies _ rnd).
Qed.

Lemma verify_valid s pk : engine.VerifySchema s pk = Ok () → Validate s = Ok ().
Proof. unfold engine.VerifySchema. by destruct (Validate s) as [[]|]. Qed.

Lemma engine_inv_put (e : Engine) m s d :
  engine_inv e m → OperatorID s = engine.operatorID e → ID s ≠ [] →
  engine.VerifySchema s (crypto.GetPublicKey (engine.crypto_engine e)) = Ok () →
  holds d (<[ID s := s]> m) → engine_inv (engine.with_store e d) (<[ID s := s]> m).
Proof.
  intros He Hop Hne Hv Hd. split; [done|apply (ei_owner e m He)|].
  intros id s' [[<- <-]|[_ Hs]]%lookup_insert_Some; [done|exact (ei_schema e m He id s' Hs)].
Qed.

Lemma register_inv (e : Engine) m now uuid rnd s :
  engine_inv e m →
  let '(e', r) := engine.RegisterSchema now uuid rnd s e in
  match r with
  | Ok s' => engine_inv e' (<[ID s' := s']> m) ∧ m !! ID s' = None
  | Err _ => e' = e
  end.
Proof.
  intros He. unfold engine.RegisterSchema. case_bool_decide as Hop; [|done]. cbn [negb].
  set (s1 := engine.fill_in e now uuid s). destruct (Validate s1) as [[]|] eqn:Hv; [|done].
  destruct (crypto.SignSchema _ rnd s1) as [sig|] eqn:Hs; [|done].
  pose proof (create_schema_spec (engine.store e) m (engine.with_signature s1 sig) (ei_holds e m He)) as Hc.
  destruct (CreateSchema _ _) as [d [[]|err]].
  - destruct Hc as (Hne & Hnew & Hd & _). split; [|done].
    apply engine_inv_put; [done| |done| |done].
    + exact Hop.
    + by apply (verify_signed e rnd).
  - assert (d = engine.store e) as -> by (destruct err; naive_solver). by destruct e.
Qed.

Lemma change_status_inv (e : Engine) m status now rnd id :
  engine_inv e m → status ≠ SchemaStatusActive →
  let '(e', r) := engine.change_status status now rnd id e in
  match r with
  | Ok s' =>
      engine_inv e' (<[id := s']> m) ∧
      ∃ s sig, m !! id = Some s ∧ s' = engine.with_signature (engine.with_status s status now) sig
  | Err _ => e' = e
  end.
Proof.
  intros He Hst. unfold engine.change_status, GetSchema. case_bool_decide as Hid; [done|].
  rewrite (load_holds _ m) by apply (ei_holds e m He). destruct (m !! id) as [s|] eqn:Hs; [|done].
  case_bool_decide as Hop; [|done]. cbn [negb].
  destruct (crypto.SignSchema _ rnd _) as [sig|] eqn:Hsig; [|done].
  pose proof (h_id _ _ (ei_holds e m He) id s Hs) as HID.
  destruct (ei_schema e m He id s Hs) as (Hown & Hne & Hver).
  set (s' := engine.with_signature (engine.with_status s status now) sig).
  assert (ID s' = id) as HID' by exact HID.
  pose proof (update_schema_spec (engine.store e) m s' s (ei_holds e m He)
    ltac:(by rewrite HID') ltac:(by rewrite HID') eq_refl eq_refl) as Hu.
  destruct (UpdateSchema s' _) as [d [[]|err]].
  - rewrite <- HID' at 1. split; [|by exists s, sig]. apply engine_inv_put; [done|done|by rewrite HID'| |done].
    apply (verify_signed e rnd); [|done]. rewrite (validate_same s) by done. by eapply verify_valid.
  - destruct err; try done. destruct Hu as (_ & _ & _ & Hact & _). done.
Qed.

(** ** What an engine with the invariant shows *)

(** What the store of an engine holds: the schemas it lists without a filter. *)
Definition listed (e : Engine) (s : ApplicationSchema) : Prop :=
  s ∈ ListSchemas (mkFilter [] None SchemaStatusUnspecified []) (engine.store e).

Lemma listed_stored e m s : holds (engine.store e) m → listed e s ↔ m !! ID s = Some s.
Proof.
  intros Hd. unfold listed. rewrite (list_schemas_spec _ m) by done. split; [by intros [? _]|]. by split.
Qed.

Lemma engine_inv_facts (e : Engine) m :
  engine_inv e m →
  (∀ s, listed e s →
     OperatorID s = engine.operatorID e ∧
     engine.VerifySchema s (crypto.GetPublicKey (engine.crypto_engine e)) = Ok ()) ∧
  NoDup (ID <$> ListSchemas (mkFilter [] None SchemaStatusUnspecified []) (engine.store e)) ∧
  (∀ s s', listed e s → listed e s' → Status s = SchemaStatusActive → Status s' = SchemaStatusActive →
     OamMode s = OamMode s' → s = s') ∧
  (∀ op oam, op ≠ [] →
     match GetActiveSchemaForOam op oam (engine.store e) with
     | Ok s => listed e s ∧ active s op oam
     | Err err => err = NoActive op oam ∧ ∀ s, listed e s → ¬ active s op oam
     end).
Proof.
  intros He. pose proof (ei_holds e m He) as Hd. split_and!.
  - intros s Hs%(listed_stored e m s Hd). by destruct (ei_schema e m He _ s Hs) as (? & _ & ?).
  - by eapply list_schemas_nodup.
  - intros s s' Hs%(listed_stored e m s Hd) Hs'%(listed_stored e m s' Hd) Ha Ha' Eoam.
    destruct (ei_schema e m He _ s Hs) as (Hop & _), (ei_schema e m He _ s' Hs') as (Hop' & _).
    assert (ID s' = ID s) as E.
    { destruct (decide (ID s' = ID s)) as [|Hne]; [done|].
      assert (active s' (OperatorID s) (OamMode s)) as Hact by (repeat split; congruence).
      by destruct (sole_active _ m s s Hd Hs (conj Ha (conj eq_refl eq_refl)) (ID s') s' Hs' Hne). }
    rewrite E, Hs in Hs'. by injection Hs'.
  - intros op oam Hop. pose proof (get_active_spec (engine.store e) m op oam Hd Hop) as Hg.
    destruct (GetActiveSchemaForOam _ _ _) as [s|err].
    + destruct Hg as [Hs Ha]. split; [|done]. by apply (listed_stored e m s Hd).
    + destruct Hg as [-> Hg]. split; [done|]. intros s Hs%(listed_stored e m s Hd). by eapply Hg.
Qed.
End invariant.

(** ** Registration *)

Section register.
Context `{GoJson, !GoJsonSpec, GoCrypto, !GoCryptoSpec, Badger, !BadgerSpec}.

Lemma register_facts (e : engine.Engine) m (now rnd : Z) (uuid : text) (s : ApplicationSchema) :
  engine_inv e m → (∀ sk h, is_Some (ec_sign rnd sk h)) →
  let s1 := engine.fill_in e now uuid s in
  let '(e', r) := engine.RegisterSchema now uuid rnd s e in
  match r with
  | Ok s' =>
      OperatorID s' = engine.operatorID e ∧ Validate s1 = Ok () ∧
      (∃ sig, s' = engine.with_signature s1 sig) ∧
      engine.VerifySchema s' (crypto.GetPublicKey (engine.crypto_engine e)) = Ok () ∧
      (∀ x, listed e x → ID x ≠ ID s') ∧
      (∀ x, listed e' x ↔ x = s' ∨ listed e x) ∧
      (Status s' = SchemaStatusActive → ∀ x, listed e x → ¬ active x (OperatorID s') (OamMode s'))
  | Err (engine.WrongOperator op own) => e' = e ∧ op = OperatorID s1 ∧ own = engine.operatorID e ∧ op ≠ own
  | Err (engine.InvalidSchema err) => e' = e ∧ Validate s1 = Err err
  | Err (engine.StoreFailed (SchemaExists id)) => e' = e ∧ id = ID s1 ∧ ∃ x, listed e x ∧ ID x = id
  | Err (engine.StoreFailed (AlreadyActive op ex oam)) =>
      e' = e ∧ Status s1 = SchemaStatusActive ∧ oam = OamMode s1 ∧
      ∃ x, listed e x ∧ ID x = ex ∧ active x op oam
  | Err _ => False
  end.
Proof.
  intros He Hsign s1. pose proof (ei_holds e m He) as Hd.
  unfold engine.RegisterSchema. case_bool_decide as Hop; [|done]. cbn [negb]. fold s1.
  destruct (Validate s1) as [[]|err] eqn:Hv; [|done].
  destruct (crypto.SignSchema _ rnd s1) as [sig|err] eqn:Hs.
  - pose proof (create_schema_spec (engine.store e) m (engine.with_signature s1 sig) Hd) as Hc.
    destruct (CreateSchema _ _) as [d [[]|err]].
    + destruct Hc as (Hne & Hnew & Hd' & Hsole).
      assert (∀ x, listed e x → ID x ≠ ID s1) as Hfresh.
      { intros x Hx%(listed_stored e m x Hd) E. rewrite E in Hx. by rewrite (Hnew : m !! ID s1 = None) in Hx. }
      split_and!; [exact Hop|done|by exists sig|by apply (verify_signed e rnd)|exact Hfresh| |].
      * intros x. rewrite (listed_stored e m x Hd), (listed_stored (engine.with_store e d) _ x Hd').
        rewrite lookup_insert_Some. split.
        -- intros [[_ ->]|[_ ?]]; auto.
        -- intros [->|Hx]; [by left|right]. split; [|done]. intros E. rewrite <- E in Hx. by rewrite Hx in Hnew.
      * intros Ha x Hx%(listed_stored e m x Hd). by eapply Hsole.
    + assert (∀ d', d' = engine.store e → engine.with_store e d' = e) as Hsame by (intros ? ->; by destruct e).
      destruct err; try done.
      * destruct Hc as [_ E]. cbn in E. pose proof Hv as Hv'. unfold Validate in Hv'. by rewrite bool_decide_true in Hv'.
      * destruct Hc as (-> & -> & [x Hx]). split_and!; [by apply Hsame|done|].
        exists x. pose proof (h_id _ _ Hd _ x Hx) as E. split; [|done]. apply (listed_stored e m x Hd). by rewrite E.
      * destruct Hc as (-> & -> & -> & Ha & x & Hx & Hax). split_and!; [by apply Hsame|done|done|].
        exists x. pose proof (h_id _ _ Hd _ x Hx) as E. split_and!; [|done|done].
        apply (listed_stored e m x Hd). by rewrite E.
  - exfalso. unfold crypto.SignSchema in Hs. rewrite bool_decide_true in Hs by (rewrite (ei_owner e m He); exact Hop).
    cbn [negb] in Hs. destruct (crypto.canonicalSchemaBytes s1) as [data|] eqn:Ec.
    + destruct (Hsign (crypto.privateKey (engine.crypto_engine e)) (sha3_256 (utf8 data))) as [[r sg] E].
      by rewrite E in Hs.
    + unfold crypto.canonicalSchemaBytes in Ec. destruct (Layout s1) eqn:El; [done|].
      unfold Validate in Hv. rewrite El in Hv. repeat (case_bool_decide; [done|]).
      destruct (_ || _); [done|]. by destruct (_ <=? _).
Qed.
End register.

(** ** The canonical form *)

(** What is signed of a field. *)
Definition signed_part (f : FieldDef) : text * Z * Z * Z := (Name f, Offset f, Length f, Type_ f).

Definition part_offset (p : text * Z * Z * Z) : Z := p.1.1.2.
Definition part_le (p q : text * Z * Z * Z) : Prop := part_offset p ≤ part_offset q.

Lemma sorted_parts l : StronglySorted part_le (signed_part <$> merge_sort offset_le l).
Proof.
  assert (Transitive offset_le) by (intros a b c; unfold offset_le; lia).
  assert (Total offset_le) by (intros a b; unfold offset_le; lia).
  assert (StronglySorted offset_le (merge_sort offset_le l)) as Hs by (by apply StronglySorted_merge_sort).
  induction Hs as [|f fs Hs IH Hf]; constructor; [done|]. by apply Forall_fmap.
Qed.

Lemma canonical_parts l l' :
  signed_part <$> Fields l ≡ₚ signed_part <$> Fields l' → NoDup (Offset <$> Fields l) →
  signed_part <$> merge_sort offset_le (Fields l) = signed_part <$> merge_sort offset_le (Fields l').
Proof.
  intros Hp Hnd. apply (StronglySorted_unique_strong part_le); try apply sorted_parts.
  - intros p q Hp1 Hq1 Hle Hge. rewrite !merge_sort_Permutation in Hp1, Hq1. rewrite <- Hp in Hq1.
    apply list_elem_of_fmap in Hp1 as (f & -> & Hf), Hq1 as (g & -> & Hg).
    assert (Offset f = Offset g) as E by (unfold part_le, part_offset, signed_part in *; cbn in *; lia).
    apply list_elem_of_lookup in Hf as [i Hi], Hg as [j Hj].
    assert (i = j) as ->; [|by rewrite Hi in Hj; injection Hj as ->].
    eapply (NoDup_lookup (Offset <$> Fields l)); [done| |]; rewrite list_lookup_fmap, ?Hi, ?Hj; cbn; by rewrite ?E.
  - by rewrite !merge_sort_Permutation.
Qed.

(** The signed bytes do not depend on the order of the fields.  Of two schemas that
    agree in the signed attributes and whose layouts list the same fields in any order,
    with descriptions, status, update time and signature of any value, the canonical
    bytes are the same, provided the fields start at different offsets, as those of a
    valid layout do. *)
Theorem canonical_order_independent `{GoJson} (s s' : ApplicationSchema) (l l' : FieldLayout) :
  Layout s = Some l → Layout s' = Some l' →
  signed_part <$> Fields l ≡ₚ signed_part <$> Fields l' → NoDup (Offset <$> Fields l) →
  (ID s, OamMode s, PayloadBytes s, SchemaName s, Version s, OperatorID s, CreatedAt s) =
  (ID s', OamMode s', PayloadBytes s', SchemaName s', Version s', OperatorID s', CreatedAt s') →
  crypto.canonicalSchemaBytes s = crypto.canonicalSchemaBytes s'.
Proof.
  intros El El' Hp Hnd [= E1 E2 E3 E4 E5 E6 E7]. unfold crypto.canonicalSchemaBytes.
  rewrite El, El', E1, E2, E3, E4, E5, E6, E7.
  assert (crypto.canonical_field <$> merge_sort offset_le (Fields l) =
          crypto.canonical_field <$> merge_sort offset_le (Fields l')) as ->; [|done].
  set (enc := λ p : text * Z * Z * Z, let '(n, o, len, ty) := p in
    JObj [(lit "name", JStr n); (lit "offset", JNum o); (lit "length", JNum len); (lit "type", JNum ty)]).
  assert (∀ fs, crypto.canonical_field <$> fs = enc <$> (signed_part <$> fs)) as Henc
    by (intros fs; by rewrite <- list_fmap_compose).
  rewrite !Henc. f_equal. by apply canonical_parts.
Qed.

(** ** Witnesses

    A signature scheme that is a pair of the digest and the key: it shows that the stated
    facts can hold, and lets examples run. *)

Module ToyCrypto.

#[export] Instance toy_crypto : GoCrypto := {|
  utf8 t := t;
  sha3_256 b := take 32 (b ++ replicate 32 0);
  ec_sk := Z;
  ec_pk := Z;
  ec_public k := k;
  ec_sign _ k h := Some (from_be_bytes h mod (2 ^ 255 - 19), k mod 2 ^ 256);
  ec_verify k h r s := (r =? from_be_bytes h mod (2 ^ 255 - 19)) && (s =? k mod 2 ^ 256);
  pem_encode k := [k];
  pem_parse b := match b with [k] => Some k | _ => None end;
|}.

#[export] Instance toy_crypto_spec : GoCryptoSpec.
Proof.
  constructor; [done| | |done|done].
  { intros b. cbn [sha3_256 toy_crypto]. rewrite length_take, length_app, length_replicate. lia. }
  intros rnd k h r s [= <- <-]. cbn [ec_verify ec_public toy_crypto].
  rewrite !Z.eqb_refl. split; [done|]. split.
  - pose proof (Z.mod_pos_bound (from_be_bytes h) (2 ^ 255 - 19) ltac:(done)). unfold in_uint. lia.
  - by apply Z.mod_pos_bound.
Qed.
End ToyCrypto.

Module Examples.
Import ToyStore ToyCrypto.

Definition open_engine : engine.Engine := engine.mkEngine (∅ : db) (crypto.mkEngine (lit "op-alice") 7) (lit "op-alice") 0.

Definition e_tick : engine.Engine := (engine.RegisterSchema 9 (lit "u-1") 0 tick_schema open_engine).1.

Definition shuffled_schema : ApplicationSchema :=
  mkSchema (lit "s-1") 3 64 (lit "MarketTick") 1
    (Some (mkFieldLayout [field "reserved" 16 48 12; mkFieldDef (lit "symbol") 0 8 11 (lit "doc"); field "price" 8 8 10]))
    (lit "op-alice") 3 5 77 [1; 2].

Lemma canonical_order_independent_witness :
  crypto.canonicalSchemaBytes tick_schema = crypto.canonicalSchemaBytes shuffled_schema.
Proof.
  eapply (canonical_order_independent tick_schema shuffled_schema); [reflexivity|reflexivity| | |reflexivity].
  - apply (bool_decide_unpack _). vm_compute. exact I.
  - apply (bool_decide_unpack _). vm_compute. exact I.
Defined.

Definition stored (e : engine.Engine) : option ApplicationSchema :=
  match GetSchema (lit "s-1") (engine.store e) with Ok s => Some s | Err _ => None end.

(** Revocation is not final: deprecating a revoked schema makes it a deprecated one, which
    receivers may still decode. *)
Theorem deprecate_unrevokes :
  let e := (engine.RevokeSchema 10 0 (lit "s-1") e_tick).1 in
  (Status <$> stored e, Status <$> stored (engine.DeprecateSchema 11 0 (lit "s-1") e).1) =
  (Some SchemaStatusRevoked, Some SchemaStatusDeprecated).
Proof. vm_compute. reflexivity. Qed.
End Examples.
