(* ===== verification/FlrLease.v ===== *)
(** * flr: wavelength leases

    Models the lease half of the Go registry: [src/flr/internal/models/models.go]
    (wavelengths, leases, tokens), the lease tokens of [src/flr/internal/crypto/engine.go],
    the leases and the audit log of [src/flr/internal/registry/badger_store.go], and the
    lease operations of [src/flr/internal/registry/engine.go].  The engine is the one of
    the schemas, over the same database.  An operation reads the clock several times; the
    argument [t] gives the [i]-th reading of a call.  A nil wavelength that is dereferenced
    panics: [Panicked]. *)

From stdpp Require Import gmap.
From S2P Require Import Prelude Float FlrModels FlrStore FlrEngine.
Local Open Scope Z_scope.

(** ** Data *)

(** [n / d], rounded to nearest, ties to even; [d] is positive. *)
Definition div_half_even (n d : Z) : Z :=
  let q := n / d in
  let r := 2 * (n mod d) in
  if (d <? r) || ((r =? d) && Z.odd q) then q + 1 else q.

(** [%.<d>f] of [fmt] on a [float64]: the exact value rounded to [d] decimals. *)
Definition fmt_fixed (d : nat) (x : float) : text :=
  let digits n :=
    let f := show (n mod 10 ^ Z.of_nat d) in
    show (n / 10 ^ Z.of_nat d) ++ lit "." ++ replicate (d - length f) 48 ++ f in
  let sign (s : bool) := if s then lit "-" else [] in
  match x with
  | S754_nan => lit "NaN"
  | S754_infinity s => if s then lit "-Inf" else lit "+Inf"
  | S754_zero s => sign s ++ digits 0
  | S754_finite s m e =>
      let n := Z.pos m * 10 ^ Z.of_nat d in
      sign s ++ digits (if 0 <=? e then n * 2 ^ e else div_half_even n (2 ^ (- e)))
  end.

Module leases.

Record Wavelength : Type := mkWavelength {
  LambdaNm : float;
  ChannelNum : Z;
  Band : Z;
  GridGHz : float;
}.

Definition BandCBand : Z := 1.
Definition BandLBand : Z := 2.
Definition BandSBand : Z := 3.

Definition Band_String (b : Z) : text :=
  if b =? BandCBand then lit "C_BAND"
  else if b =? BandLBand then lit "L_BAND"
  else if b =? BandSBand then lit "S_BAND"
  else lit "UNSPECIFIED".

Definition ToKey (w : Wavelength) : text :=
  fmt_fixed 2 (LambdaNm w) ++ lit ":" ++ show (ChannelNum w) ++ lit ":" ++ Band_String (Band w)
    ++ lit ":" ++ fmt_fixed 1 (GridGHz w).

Definition LeaseStatusUnspecified : Z := 0.
Definition LeaseStatusActive : Z := 1.
Definition LeaseStatusExpired : Z := 2.
Definition LeaseStatusRevoked : Z := 3.
Definition LeaseStatusPending : Z := 4.

Record Lease : Type := mkLease {
  ID : text;
  wavelength : option Wavelength;
  EndpointID : text;
  OperatorID : text;
  Status : Z;
  StartTime : Z;
  EndTime : Z;
  CreatedAt : Z;
  UpdatedAt : Z;
  TokenHash : bytes;
  ParentHash : bytes;
}.

Record LeaseToken : Type := mkToken {
  t_Version : Z;
  t_LeaseID : text;
  t_OperatorID : text;
  t_Wavelength : option Wavelength;
  t_EndpointID : text;
  t_StartTime : Z;
  t_EndTime : Z;
  t_Nonce : bytes;
  t_Signature : bytes;
  t_IssuedAt : Z;
}.

Record AuditLogEntry : Type := mkAudit {
  a_Timestamp : Z;
  a_Operation : text;
  a_OperatorID : text;
  a_LeaseID : text;
  a_Details : bytes;
  a_Hash : bytes;
  a_PrevHash : bytes;
}.
End leases.

(** ** JSON *)

(** A number that is not finite makes [json.Marshal] fail. *)
Definition float_ok (x : float) : bool :=
  match x with S754_nan | S754_infinity _ => false | _ => true end.

Section lease_json.
Context `{GoJson}.
Import leases.

(** A nil slice is [null]. *)
Definition bytes_json (b : bytes) : json := if bool_decide (b = []) then JNull else JStr (base64 b).

Definition wavelength_json (w : option Wavelength) : json :=
  match w with
  | None => JNull
  | Some w =>
      JObj [(lit "lambda_nm", JFloat (LambdaNm w)); (lit "channel_num", JNum (ChannelNum w));
            (lit "band", JNum (Band w)); (lit "grid_ghz", JFloat (GridGHz w))]
  end.

Definition wavelength_ok (w : option Wavelength) : bool :=
  match w with None => true | Some w => float_ok (LambdaNm w) && float_ok (GridGHz w) end.

Definition lease_json (l : Lease) : json :=
  JObj [(lit "id", JStr (ID l)); (lit "wavelength", wavelength_json (wavelength l));
        (lit "endpoint_id", JStr (EndpointID l)); (lit "operator_id", JStr (OperatorID l));
        (lit "status", JNum (Status l)); (lit "start_time", JStr (rfc3339 (StartTime l)));
        (lit "end_time", JStr (rfc3339 (EndTime l))); (lit "created_at", JStr (rfc3339 (CreatedAt l)));
        (lit "updated_at", JStr (rfc3339 (UpdatedAt l))); (lit "token_hash", bytes_json (TokenHash l));
        (lit "parent_hash", bytes_json (ParentHash l))].

(** [json.Marshal(lease)]; [None]: an error. *)
Definition marshal_lease (l : Lease) : option text :=
  if wavelength_ok (wavelength l) then Some (go_render (lease_json l)) else None.

Definition audit_json (a : AuditLogEntry) : json :=
  JObj [(lit "timestamp", JStr (rfc3339 (a_Timestamp a))); (lit "operation", JStr (a_Operation a));
        (lit "operator_id", JStr (a_OperatorID a)); (lit "lease_id", JStr (a_LeaseID a));
        (lit "details", bytes_json (a_Details a)); (lit "hash", bytes_json (a_Hash a));
        (lit "prev_hash", bytes_json (a_PrevHash a))].
End lease_json.

(** Decoding of a lease, and that it undoes marshalling. *)
Class GoLeaseJson := { go_unmarshal_lease : text → option leases.Lease }.

Class GoLeaseJsonSpec `{GoJson, !GoLeaseJson} : Prop := {
  go_lease_roundtrip l s : marshal_lease l = Some s → go_unmarshal_lease s = Some l;
}.

(** ** Tokens *)

Module tokens.
Import leases crypto.

Section tokens.
Context `{GoJson, GoCrypto}.

(** The canonical form; [None]: marshalling fails. *)
Definition token_bytes (t : LeaseToken) : option bytes :=
  if wavelength_ok (t_Wavelength t) then
    Some (utf8 (go_render (JObj
      [(lit "version", JNum (t_Version t)); (lit "lease_id", JStr (t_LeaseID t));
       (lit "operator_id", JStr (t_OperatorID t)); (lit "wavelength", wavelength_json (t_Wavelength t));
       (lit "endpoint_id", JStr (t_EndpointID t)); (lit "start_time", JStr (rfc3339 (t_StartTime t)));
       (lit "end_time", JStr (rfc3339 (t_EndTime t))); (lit "nonce", bytes_json (t_Nonce t))])))
  else None.

Inductive TokenError : Type :=
| TokenMarshal
| TokenSign
| TokenNoKey
| TokenExpired
| TokenBadKey
| TokenBadSignature (e : CryptoError)
| TokenVerificationFailed.

Definition signToken (e : Engine) (rnd : Z) (t : LeaseToken) : result bytes TokenError :=
  match token_bytes t with
  | None => Err TokenMarshal
  | Some data =>
      match ec_sign rnd (privateKey e) (sha3_256 data) with
      | None => Err TokenSign
      | Some (r, s) => Ok (marshalSignature r s)
      end
  end.

Definition with_token_signature (t : LeaseToken) (sig : bytes) : LeaseToken :=
  mkToken (t_Version t) (t_LeaseID t) (t_OperatorID t) (t_Wavelength t) (t_EndpointID t) (t_StartTime t)
    (t_EndTime t) (t_Nonce t) sig (t_IssuedAt t).

Definition GenerateLeaseToken (e : Engine) (nonce : bytes) (rnd now : Z) (l : Lease) : result LeaseToken TokenError :=
  let t := mkToken 1 (ID l) (operatorID e) (wavelength l) (EndpointID l) (StartTime l) (EndTime l) nonce [] now in
  let? sig := signToken e rnd t in
  Ok (with_token_signature t sig).

Definition ValidateLeaseToken (now : Z) (t : LeaseToken) (operatorPubKey : bytes) : result unit TokenError :=
  if bool_decide (operatorPubKey = []) then Err TokenNoKey
  else if t_EndTime t <? now then Err TokenExpired
  else
    match pem_parse operatorPubKey with
    | None => Err TokenBadKey
    | Some pubKey =>
        match token_bytes t with
        | None => Err TokenMarshal
        | Some data =>
            let? rs := map_err TokenBadSignature (unmarshalSignature (t_Signature t)) in
            if negb (ec_verify pubKey (sha3_256 data) rs.1 rs.2) then Err TokenVerificationFailed else Ok ()
        end
    end.

(** The text that is hashed for the lease; [None]: the nil wavelength's key is taken. *)
Definition hashToken (t : LeaseToken) : option bytes :=
  match t_Wavelength t with
  | None => None
  | Some w =>
      Some (sha3_256 (utf8 (t_LeaseID t ++ lit ":" ++ t_OperatorID t ++ lit ":" ++ t_EndpointID t ++ lit ":"
        ++ ToKey w ++ lit ":" ++ show (t_Version t) ++ lit ":" ++ rfc3339 (t_StartTime t) ++ lit ":"
        ++ rfc3339 (t_EndTime t))))
  end.
End tokens.
End tokens.

(** ** The lease store *)

Module lease_store.
Import leases.

Definition prefixLease : text := lit "lease:".
Definition prefixAudit : text := lit "audit:".
Definition leaseKey (id : text) : text := prefixLease ++ id.

Record LeaseFilter : Type := mkLeaseFilter {
  lf_OperatorID : text;
  lf_EndpointID : text;
  lf_Status : Z;
}.

Inductive LeaseStoreError : Type :=
| LeaseEmptyID
| LeaseExists (id : text)
| LeaseNotFound (id : text)
| LeaseMarshal
| LeaseUnmarshal.

Section store.
Context `{GoJson, !GoLeaseJson, GoCrypto, Badger}.

Definition CreateLease (l : Lease) : state_result db unit LeaseStoreError := λ d,
  if bool_decide (ID l = []) then (d, Err LeaseEmptyID)
  else if bool_decide (is_Some (db_get (leaseKey (ID l)) d)) then (d, Err (LeaseExists (ID l)))
  else
    match marshal_lease l with
    | None => (d, Err LeaseMarshal)
    | Some data => (db_set (leaseKey (ID l)) data d, Ok ())
    end.

Definition GetLease (id : text) (d : db) : result Lease LeaseStoreError :=
  if bool_decide (id = []) then Err LeaseEmptyID
  else
    match db_get (leaseKey id) d with
    | None => Err (LeaseNotFound id)
    | Some v => match go_unmarshal_lease v with Some l => Ok l | None => Err LeaseUnmarshal end
    end.

Definition with_updated (l : Lease) (now : Z) : Lease :=
  mkLease (ID l) (wavelength l) (EndpointID l) (OperatorID l) (Status l) (StartTime l) (EndTime l)
    (CreatedAt l) now (TokenHash l) (ParentHash l).

Definition UpdateLease (now : Z) (l : Lease) : state_result db unit LeaseStoreError := λ d,
  if bool_decide (ID l = []) then (d, Err LeaseEmptyID)
  else if bool_decide (db_get (leaseKey (ID l)) d = None) then (d, Err (LeaseNotFound (ID l)))
  else
    match marshal_lease (with_updated l now) with
    | None => (d, Err LeaseMarshal)
    | Some data => (db_set (leaseKey (ID l)) data d, Ok ())
    end.

Definition DeleteLease (id : text) : state_result db unit LeaseStoreError := λ d,
  if bool_decide (id = []) then (d, Err LeaseEmptyID) else (db_delete (leaseKey id) d, Ok ()).

Definition leaseMatches (f : LeaseFilter) (l : Lease) : bool :=
  if negb (bool_decide (lf_OperatorID f = [])) && negb (bool_decide (OperatorID l = lf_OperatorID f)) then false
  else if negb (bool_decide (lf_EndpointID f = [])) && negb (bool_decide (EndpointID l = lf_EndpointID f)) then false
  else if negb (lf_Status f =? LeaseStatusUnspecified) && negb (Status l =? lf_Status f) then false
  else true.

(** A value that does not unmarshal fails the whole listing. *)
Definition ListLeases (f : LeaseFilter) (d : db) : result (list Lease) LeaseStoreError :=
  match mapM (λ kv, go_unmarshal_lease kv.2) (db_scan prefixLease d) with
  | None => Err LeaseUnmarshal
  | Some ls => Ok (base.filter (λ l, leaseMatches f l) ls)
  end.

(** The hash is that of the entry before it has one. *)
Definition AppendAuditLog (a : AuditLogEntry) (d : db) : db :=
  let h := sha3_256 (utf8 (go_render (audit_json a))) in
  let a := mkAudit (a_Timestamp a) (a_Operation a) (a_OperatorID a) (a_LeaseID a) (a_Details a) h (a_PrevHash a) in
  db_set (prefixAudit ++ rfc3339 (a_Timestamp a)) (go_render (audit_json a)) d.
End store.
End lease_store.

(** ** The lease engine *)

Module lease_engine.
Import leases tokens lease_store.

Inductive LeaseError : Type :=
| NilWavelength
| EmptyEndpoint
| DurationNotPositive
| EmptyLeaseID
| ConflictWith (id : text)
| NotActive (status : Z)
| AlreadyRevoked
| LeaseTokenFailed (e : TokenError)
| LeaseStoreFailed (e : LeaseStoreError)
| LeaseHasExpired
| HashMismatch
| Panicked.

Section engine.
Context `{GoJson, !GoLeaseJson, GoCrypto, Badger}.

Abbreviation Engine := engine.Engine.

Definition set_store (e : Engine) (d : db) : Engine := engine.with_store e d.

Definition active_filter (e : Engine) : LeaseFilter :=
  mkLeaseFilter (engine.operatorID e) [] LeaseStatusActive.

(** The loop's test on one lease. *)
Definition conflicts (now : Z) (wlKey excludeLeaseID : text) (l : Lease) : bool :=
  if bool_decide (ID l = excludeLeaseID) then false
  else
    match wavelength l with
    | Some w => bool_decide (ToKey w = wlKey) && (now <? EndTime l)
    | None => false
    end.

(** A listing that fails counts as no conflict. *)
Definition checkConflictLocked (now : Z) (w : option Wavelength) (excludeLeaseID : text) (e : Engine)
    : option Lease :=
  match w with
  | None => None
  | Some w =>
      match ListLeases (active_filter e) (engine.store e) with
      | Err _ => None
      | Ok ls => List.find (conflicts now (ToKey w) excludeLeaseID) ls
      end
  end.

Definition appendAuditLog (now : Z) (operation leaseID : text) (e : Engine) : Engine :=
  let details := utf8 ([123; 34] ++ lit "block_height" ++ [34; 58] ++ show (engine.blockHeight e) ++ [125]) in
  set_store e (AppendAuditLog (mkAudit now operation (engine.operatorID e) leaseID details [] []) (engine.store e)).

Definition with_hash (l : Lease) (h : bytes) : Lease :=
  mkLease (ID l) (wavelength l) (EndpointID l) (OperatorID l) (Status l) (StartTime l) (EndTime l)
    (CreatedAt l) (UpdatedAt l) h (ParentHash l).

(** Readings: the start, the conflict check, the token, the audit entry. *)
Definition AllocateLease (t : nat → Z) (uuid : text) (nonce : bytes) (rnd : Z)
    (w : option Wavelength) (endpointID : text) (duration : Z)
    : state_result Engine (Lease * LeaseToken) LeaseError := λ e,
  match w with
  | None => (e, Err NilWavelength)
  | Some _ =>
      if bool_decide (endpointID = []) then (e, Err EmptyEndpoint)
      else if duration <=? 0 then (e, Err DurationNotPositive)
      else
        let now := t 0%nat in
        match checkConflictLocked (t 1%nat) w [] e with
        | Some conflict => (e, Err (ConflictWith (ID conflict)))
        | None =>
            let lease := mkLease uuid w endpointID (engine.operatorID e) LeaseStatusActive now (now + duration)
              now now [] [] in
            match GenerateLeaseToken (engine.crypto_engine e) nonce rnd (t 2%nat) lease with
            | Err err => (e, Err (LeaseTokenFailed err))
            | Ok token =>
                match hashToken token with
                | None => (e, Err Panicked)
                | Some h =>
                    let lease := with_hash lease h in
                    match CreateLease lease (engine.store e) with
                    | (d, Err err) => (set_store e d, Err (LeaseStoreFailed err))
                    | (d, Ok _) =>
                        (appendAuditLog (t 3%nat) (lit "CREATE_LEASE") (ID lease) (set_store e d), Ok (lease, token))
                    end
                end
            end
        end
  end.

Definition extended (l : Lease) (extension now : Z) : Lease :=
  mkLease (ID l) (wavelength l) (EndpointID l) (OperatorID l) (Status l) (StartTime l) (EndTime l + extension)
    (CreatedAt l) now (TokenHash l) (ParentHash l).

(** Readings: the update, the token, the store's update, the audit entry. *)
Definition RenewLease (t : nat → Z) (nonce : bytes) (rnd : Z) (leaseID : text) (extension : Z)
    : state_result Engine (Lease * LeaseToken) LeaseError := λ e,
  if bool_decide (leaseID = []) then (e, Err EmptyLeaseID)
  else if extension <=? 0 then (e, Err DurationNotPositive)
  else
    match GetLease leaseID (engine.store e) with
    | Err err => (e, Err (LeaseStoreFailed err))
    | Ok lease =>
        if negb (Status lease =? LeaseStatusActive) then (e, Err (NotActive (Status lease)))
        else
          let lease := extended lease extension (t 0%nat) in
          match GenerateLeaseToken (engine.crypto_engine e) nonce rnd (t 1%nat) lease with
          | Err err => (e, Err (LeaseTokenFailed err))
          | Ok token =>
              match hashToken token with
              | None => (e, Err Panicked)
              | Some h =>
                  let lease := with_hash lease h in
                  match UpdateLease (t 2%nat) lease (engine.store e) with
                  | (d, Err err) => (set_store e d, Err (LeaseStoreFailed err))
                  | (d, Ok _) =>
                      (appendAuditLog (t 3%nat) (lit "RENEW_LEASE") (ID lease) (set_store e d),
                       Ok (with_updated lease (t 2%nat), token))
                  end
              end
          end
    end.

Definition with_lease_status (l : Lease) (status now : Z) : Lease :=
  mkLease (ID l) (wavelength l) (EndpointID l) (OperatorID l) status (StartTime l) (EndTime l)
    (CreatedAt l) now (TokenHash l) (ParentHash l).

(** Readings: the update, the store's update, the audit entry. *)
Definition RevokeLease (t : nat → Z) (leaseID : text) : state_result Engine unit LeaseError := λ e,
  if bool_decide (leaseID = []) then (e, Err EmptyLeaseID)
  else
    match GetLease leaseID (engine.store e) with
    | Err err => (e, Err (LeaseStoreFailed err))
    | Ok lease =>
        if Status lease =? LeaseStatusRevoked then (e, Err AlreadyRevoked)
        else
          let lease := with_lease_status lease LeaseStatusRevoked (t 0%nat) in
          match UpdateLease (t 1%nat) lease (engine.store e) with
          | (d, Err err) => (set_store e d, Err (LeaseStoreFailed err))
          | (d, Ok _) => (appendAuditLog (t 2%nat) (lit "REVOKE_LEASE") (ID lease) (set_store e d), Ok ())
          end
    end.

(** The loop over the active leases at [now]; the readings from [i] on are those of the
    store and of the audit log. *)
Fixpoint expire_all (t : nat → Z) (now : Z) (i : nat) (ls : list Lease) (expiredCount : nat) (e : Engine)
    : Engine * result nat LeaseError :=
  match ls with
  | [] => (e, Ok expiredCount)
  | lease :: ls =>
      if EndTime lease <? now then
        let lease := with_lease_status lease LeaseStatusExpired now in
        match UpdateLease (t i) lease (engine.store e) with
        | (d, Err err) => (set_store e d, Err (LeaseStoreFailed err))
        | (d, Ok _) =>
            expire_all t now (S (S i)) ls (S expiredCount)
              (appendAuditLog (t (S i)) (lit "EXPIRE_LEASE") (ID lease) (set_store e d))
        end
      else expire_all t now i ls expiredCount e
  end.

Definition ExpireLeases (t : nat → Z) : state_result Engine nat LeaseError := λ e,
  match ListLeases (active_filter e) (engine.store e) with
  | Err err => (e, Err (LeaseStoreFailed err))
  | Ok ls => expire_all t (t 0%nat) 1 ls 0 e
  end.

(** Readings: the lease's expiry, the token's. *)
Definition VerifyLease (t : nat → Z) (token : LeaseToken) (e : Engine) : result unit LeaseError :=
  let? lease := map_err LeaseStoreFailed (GetLease (t_LeaseID token) (engine.store e)) in
  if negb (Status lease =? LeaseStatusActive) then Err (NotActive (Status lease))
  else if EndTime lease <? t 0%nat then Err LeaseHasExpired
  else
    let pubKey := crypto.GetPublicKey (engine.crypto_engine e) in
    let? _ := map_err LeaseTokenFailed (ValidateLeaseToken (t 1%nat) token pubKey) in
    match hashToken token with
    | None => Err Panicked
    | Some computedHash =>
        if negb (bool_decide (computedHash = TokenHash lease)) then Err HashMismatch else Ok ()
    end.
End engine.
End lease_engine.
