(* ===== verification/FlrMerkle.v ===== *)
(** * flr: Merkle trees and commitments

    Models the Merkle trees of [src/flr/internal/crypto]: over schemas ([schema.go]) and
    over leases ([engine.go]), the proofs of membership, the signed commitments, and the
    engine operations that commit ([src/flr/internal/registry/engine.go] and
    [schema_engine.go]).  [None] as the result of building a tree is the panic on an odd
    level, or a loop that does not end: neither happens. *)

From stdpp Require Import gmap sorting.
From S2P Require Import Prelude Float FlrModels FlrStore FlrEngine FlrLease.
Local Open Scope Z_scope.

(** ** Trees *)

(** [MerkleNode]: a leaf ([IsLeaf]) or an inner node, with its hash. *)
Inductive MerkleNode : Type :=
| MLeaf (hash : bytes) (leaseID : text)
| MNode (hash : bytes) (left right : MerkleNode).

Definition Hash (n : MerkleNode) : bytes := match n with MLeaf h _ => h | MNode h _ _ => h end.

Definition zero_hash : bytes := replicate 32 0.

(** [<=] of two Go strings: byte by byte. *)
Fixpoint bytes_le (a b : bytes) : bool :=
  match a, b with
  | [], _ => true
  | _ :: _, [] => false
  | x :: a, y :: b => if x <? y then true else if x =? y then bytes_le a b else false
  end.

Definition id_le (a b : text) : Prop := bytes_le a b = true.

#[export] Instance id_le_dec a b : Decision (id_le a b).
Proof. unfold id_le. apply _. Defined.

Module merkle.

(** One level up; a level of odd length is out of range. *)
Fixpoint pair_up (combine : bytes → bytes → bytes) (nodes : list MerkleNode) : option (list MerkleNode) :=
  match nodes with
  | [] => Some []
  | [_] => None
  | l :: r :: nodes =>
      next ← pair_up combine nodes;
      Some (MNode (combine (Hash l) (Hash r)) l r :: next)
  end.

(** Up to the root. *)
Fixpoint fold_levels (fuel : nat) (combine : bytes → bytes → bytes) (nodes : list MerkleNode)
    : option MerkleNode :=
  match nodes with
  | [root] => Some root
  | _ =>
      match fuel with
      | O => None
      | S fuel => next ← pair_up combine nodes; fold_levels fuel combine next
      end
  end.

(** [for n < len { n <<= 1 }] *)
Fixpoint target_count (fuel n len : nat) : nat :=
  match fuel with
  | O => n
  | S fuel => if (n <? len)%nat then target_count fuel (n * 2) len else n
  end.

Definition pad_leaves (leaves : list MerkleNode) : list MerkleNode :=
  leaves ++ replicate (target_count (length leaves) 1 (length leaves) - length leaves) (MLeaf zero_hash []).

(** The tree over padded leaves; the fuel is their number, and a tree has fewer levels. *)
Definition build (combine : bytes → bytes → bytes) (leaves : list MerkleNode) : option MerkleNode :=
  fold_levels (length leaves) combine (pad_leaves leaves).

Section crypto.
Context `{GoJson, GoCrypto}.

(** Schemas: left, then right. *)
Definition combine_ordered (l r : bytes) : bytes := sha3_256 (l ++ r).

(** Leases: the smaller hash first. *)
Definition combine_sorted (l r : bytes) : bytes :=
  if bytes_le l r then sha3_256 (l ++ r) else sha3_256 (r ++ l).

Definition schema_le (a b : models.ApplicationSchema) : Prop := id_le (models.ID a) (models.ID b).

#[global] Instance schema_le_dec a b : Decision (schema_le a b).
Proof. unfold schema_le. apply _. Defined.

Definition BuildSchemaMerkleTree (schemas : list models.ApplicationSchema) : option MerkleNode :=
  if bool_decide (schemas = []) then Some (MLeaf zero_hash [])
  else build combine_ordered ((λ s, MLeaf (crypto.GetSchemaHash s) []) <$> merge_sort schema_le schemas).

Definition lease_le (a b : leases.Lease) : Prop := id_le (leases.ID a) (leases.ID b).

#[global] Instance lease_le_dec a b : Decision (lease_le a b).
Proof. unfold lease_le. apply _. Defined.

(** The canonical form of a lease holds the wavelength's key, a string: it always
    marshals. *)
Definition GetLeaseHash (l : leases.Lease) : bytes :=
  let wlKey := match leases.wavelength l with Some w => leases.ToKey w | None => [] end in
  sha3_256 (utf8 (go_render (JObj
    [(lit "id", JStr (leases.ID l)); (lit "wavelength_key", JStr wlKey);
     (lit "endpoint_id", JStr (leases.EndpointID l)); (lit "operator_id", JStr (leases.OperatorID l));
     (lit "start_time", JStr (rfc3339 (leases.StartTime l)));
     (lit "end_time", JStr (rfc3339 (leases.EndTime l)))]))).

Definition BuildMerkleTree (ls : list leases.Lease) : option MerkleNode :=
  if bool_decide (ls = []) then Some (MLeaf zero_hash [])
  else build combine_sorted ((λ l, MLeaf (GetLeaseHash l) (leases.ID l)) <$> merge_sort lease_le ls).

(** ** Proofs of membership *)

(** The path from the leaf up; [None] is the nil slice. *)
Fixpoint findMerkleProof (root : MerkleNode) (leafHash : bytes) : option (list bytes) :=
  match root with
  | MLeaf h _ => if bool_decide (h = leafHash) then Some [] else None
  | MNode _ l r =>
      match findMerkleProof l leafHash with
      | Some p => Some (p ++ [Hash r])
      | None =>
          match findMerkleProof r leafHash with
          | Some p => Some (p ++ [Hash l])
          | None => None
          end
      end
  end.

Fixpoint climb (hash : bytes) (proof : list bytes) : option bytes :=
  match proof with
  | [] => Some hash
  | sibling :: proof =>
      if bool_decide (sibling = []) then None
      else
        (* [hash < sibling] *)
        let h := if negb (bytes_le sibling hash) then sha3_256 (hash ++ sibling) else sha3_256 (sibling ++ hash) in
        climb h proof
  end.

Definition VerifyMerkleProof (leafHash rootHash : bytes) (proof : list bytes) : bool :=
  if bool_decide (leafHash = []) || bool_decide (rootHash = []) then false
  else match climb leafHash proof with Some h => bool_decide (h = rootHash) | None => false end.
End crypto.
End merkle.

(** ** Commitments *)

Record MerkleCommitment : Type := mkCommitment {
  c_OperatorID : text;
  c_RootHash : bytes;
  c_Timestamp : Z;
  c_Signature : bytes;
  c_LeaseCount : Z;
  c_BlockHeight : Z;
}.

Record ProofOfInvalidity : Type := mkPoi {
  p_Type : Z;
  p_LeaseA : option leases.Lease;
  p_LeaseB : option leases.Lease;
  p_Commitment : option MerkleCommitment;
  p_MerkleProof : option (list bytes);
  p_Timestamp : Z;
}.

Definition commitment_json `{GoJson} (c : MerkleCommitment) : json :=
  JObj [(lit "operator_id", JStr (c_OperatorID c)); (lit "root_hash", bytes_json (c_RootHash c));
        (lit "timestamp", JStr (rfc3339 (c_Timestamp c))); (lit "signature", bytes_json (c_Signature c));
        (lit "lease_count", JNum (c_LeaseCount c)); (lit "block_height", JNum (c_BlockHeight c))].

(** Decoding of a commitment, and that it undoes marshalling. *)
Class GoCommitJson := { go_unmarshal_commitment : text → option MerkleCommitment }.

Class GoCommitJsonSpec `{GoJson, !GoCommitJson} : Prop := {
  go_commitment_roundtrip c : go_unmarshal_commitment (go_render (commitment_json c)) = Some c;
}.

Module commitments.
Import crypto merkle.

Inductive CommitError : Type :=
| EmptyData
| SigningFailed
| EmptyKey
| EmptySignature
| BadKey
| BadSignatureFormat (e : CryptoError)
| SignatureInvalid
| EmptyRoot
| EmptyOperator
| InvalidityUnspecified
| ListingFailed (e : lease_store.LeaseStoreError)
| NoCommitment
| CommitUnmarshal
| MerklePanicked.

Section crypto.
Context `{GoJson, GoCrypto}.

(** [Sign], and [SignBytes], which is the same. *)
Definition Sign (e : Engine) (rnd : Z) (data : bytes) : result bytes CommitError :=
  if bool_decide (data = []) then Err EmptyData
  else
    match ec_sign rnd (privateKey e) (sha3_256 data) with
    | None => Err SigningFailed
    | Some (r, s) => Ok (marshalSignature r s)
    end.

Definition SignBytes (e : Engine) (rnd : Z) (b : bytes) : result bytes CommitError := Sign e rnd b.

Definition Verify (pubKey data sig : bytes) : result unit CommitError :=
  if bool_decide (pubKey = []) then Err EmptyKey
  else if bool_decide (data = []) then Err EmptyData
  else if bool_decide (sig = []) then Err EmptySignature
  else
    match pem_parse pubKey with
    | None => Err BadKey
    | Some key =>
        let? rs := map_err BadSignatureFormat (unmarshalSignature sig) in
        if negb (ec_verify key (sha3_256 data) rs.1 rs.2) then Err SignatureInvalid else Ok ()
    end.

(** [parsePublicKey] refuses an empty key. *)
Definition VerifyBytes (b sig operatorPubKey : bytes) : result unit CommitError :=
  match (if bool_decide (operatorPubKey = []) then None else pem_parse operatorPubKey) with
  | None => Err BadKey
  | Some pub =>
      let? rs := map_err BadSignatureFormat (unmarshalSignature sig) in
      if negb (ec_verify pub (sha3_256 b) rs.1 rs.2) then Err SignatureInvalid else Ok ()
  end.

(** What is signed of a commitment. *)
Definition commitment_bytes (c : MerkleCommitment) : bytes :=
  utf8 (go_render (JObj
    [(lit "operator_id", JStr (c_OperatorID c)); (lit "root_hash", bytes_json (c_RootHash c));
     (lit "timestamp", JStr (rfc3339 (c_Timestamp c))); (lit "block_height", JNum (c_BlockHeight c));
     (lit "lease_count", JNum (c_LeaseCount c))])).

Definition with_commit_signature (c : MerkleCommitment) (sig : bytes) : MerkleCommitment :=
  mkCommitment (c_OperatorID c) (c_RootHash c) (c_Timestamp c) sig (c_LeaseCount c) (c_BlockHeight c).

Definition SignMerkleCommitment (e : Engine) (rnd now : Z) (root : bytes) (blockHeight : Z)
    : result MerkleCommitment CommitError :=
  if bool_decide (root = []) then Err EmptyRoot
  else
    let c := mkCommitment (operatorID e) root now [] 0 blockHeight in
    let? sig := Sign e rnd (commitment_bytes c) in
    Ok (with_commit_signature c sig).

Definition VerifyMerkleCommitment (c : MerkleCommitment) (pubKey : bytes) : result unit CommitError :=
  if bool_decide (pubKey = []) then Err EmptyKey
  else if bool_decide (c_RootHash c = []) then Err EmptyRoot
  else Verify pubKey (commitment_bytes c) (c_Signature c).

(** Readings: the commitment's time, the proof's. *)
Definition GenerateProofOfInvalidity (e : Engine) (t : nat → Z) (rnd : Z) (invType : Z)
    (leaseA : leases.Lease) (leaseB : option leases.Lease) (tree : MerkleNode)
    : result ProofOfInvalidity CommitError :=
  if invType =? 0 then Err InvalidityUnspecified
  else
    let proof := findMerkleProof tree (GetLeaseHash leaseA) in
    let? commitment := SignMerkleCommitment e rnd (t 0%nat) (Hash tree) 0 in
    Ok (mkPoi invType (Some leaseA) leaseB (Some commitment) proof (t 1%nat)).

Definition VerifyProofOfInvalidity (poi : ProofOfInvalidity) (rootHash : bytes) : bool :=
  if bool_decide (p_Commitment poi = None) then false
  else
    let leafHash := match p_LeaseA poi with Some l => GetLeaseHash l | None => zero_hash end in
    if bool_decide (leafHash = []) then false
    else VerifyMerkleProof leafHash rootHash (default [] (p_MerkleProof poi)).

(** What is signed of a schema commitment: a tag, the operator, the height, the root. *)
Definition commitmentSignableBytes (c : MerkleCommitment) : bytes :=
  str_bytes "OTAP-SCHEMA-COMMIT-v1" ++ [0] ++ utf8 (c_OperatorID c) ++ to_be_bytes 8 (wrap 64 (c_BlockHeight c))
    ++ c_RootHash c.
End crypto.

Definition prefixCommitment : text := lit "commitment:".
Definition heightKey (op : text) (height : Z) : text := prefixCommitment ++ op ++ lit ":" ++ show height.
Definition latestKey (op : text) : text := prefixCommitment ++ op ++ lit ":latest".

Section engine.
Context `{GoJson, !GoLeaseJson, !GoCommitJson, GoCrypto, Badger}.
Import lease_store lease_engine.

Definition SaveCommitment (c : MerkleCommitment) : state_result db unit CommitError := λ d,
  if bool_decide (c_OperatorID c = []) then (d, Err EmptyOperator)
  else
    let data := go_render (commitment_json c) in
    let d := db_set (heightKey (c_OperatorID c) (c_BlockHeight c)) data d in
    (db_set (latestKey (c_OperatorID c)) data d, Ok ()).

Definition read_commitment (key : text) (d : db) : result MerkleCommitment CommitError :=
  match db_get key d with
  | None => Err NoCommitment
  | Some v => match go_unmarshal_commitment v with Some c => Ok c | None => Err CommitUnmarshal end
  end.

Definition GetCommitment (op : text) (height : Z) (d : db) : result MerkleCommitment CommitError :=
  if bool_decide (op = []) then Err EmptyOperator else read_commitment (heightKey op height) d.

Definition GetLatestCommitment (op : text) (d : db) : result MerkleCommitment CommitError :=
  if bool_decide (op = []) then Err EmptyOperator else read_commitment (latestKey op) d.

Definition with_height (e : engine.Engine) (h : Z) : engine.Engine :=
  engine.mkEngine (engine.store e) (engine.crypto_engine e) (engine.operatorID e) h.

Definition with_lease_count (c : MerkleCommitment) (n : Z) : MerkleCommitment :=
  mkCommitment (c_OperatorID c) (c_RootHash c) (c_Timestamp c) (c_Signature c) n (c_BlockHeight c).

(** Readings: the commitment's time, the audit entry. *)
Definition CommitMerkleTree (t : nat → Z) (rnd : Z) : state_result engine.Engine MerkleCommitment CommitError := λ e,
  match ListLeases (active_filter e) (engine.store e) with
  | Err err => (e, Err (ListingFailed err))
  | Ok ls =>
      match BuildMerkleTree ls with
      | None => (e, Err MerklePanicked)
      | Some tree =>
          let e := with_height e (as_signed 64 (engine.blockHeight e + 1)) in
          match SignMerkleCommitment (engine.crypto_engine e) rnd (t 0%nat) (Hash tree) (engine.blockHeight e) with
          | Err err => (e, Err err)
          | Ok c =>
              let c := with_lease_count c (as_signed 32 (Z.of_nat (length ls))) in
              match SaveCommitment c (engine.store e) with
              | (d, Err err) => (engine.with_store e d, Err err)
              | (d, Ok _) => (appendAuditLog (t 1%nat) (lit "COMMIT_MERKLE") [] (engine.with_store e d), Ok c)
              end
          end
      end
  end.

(** A schema commitment changes nothing. *)
Definition BuildSchemaCommitment (now rnd : Z) (e : engine.Engine) : result MerkleCommitment CommitError :=
  let schemas := registry.ListSchemas
    (registry.mkFilter (engine.operatorID e) None models.SchemaStatusActive []) (engine.store e) in
  match BuildSchemaMerkleTree schemas with
  | None => Err MerklePanicked
  | Some root =>
      let c := mkCommitment (engine.operatorID e) (Hash root) now [] (as_signed 32 (Z.of_nat (length schemas)))
        (as_signed 64 (engine.blockHeight e + 1)) in
      let? sig := SignBytes (engine.crypto_engine e) rnd (commitmentSignableBytes c) in
      Ok (with_commit_signature c sig)
  end.
End engine.
End commitments.

(** ** The shape of a tree *)

Import merkle.

Lemma bytes_le_refl a : bytes_le a a = true.
Proof. induction a as [|x a IH]; cbn; [done|]. by rewrite Z.ltb_irrefl, Z.eqb_refl. Qed.

Lemma bytes_le_total a b : bytes_le a b = false → bytes_le b a = true.
Proof.
  revert b. induction a as [|x a IH]; intros [|y b]; cbn; try done.
  destruct (Z.ltb_spec x y), (Z.eqb_spec x y), (Z.ltb_spec y x), (Z.eqb_spec y x); try lia; auto; done.
Qed.

Lemma bytes_le_antisym a b : bytes_le a b = true → bytes_le b a = true → a = b.
Proof.
  revert b. induction a as [|x a IH]; intros [|y b]; cbn; try done.
  destruct (Z.ltb_spec x y), (Z.eqb_spec x y), (Z.ltb_spec y x), (Z.eqb_spec y x); try lia; try done.
  intros. f_equal; auto.
Qed.

Lemma bytes_le_trans a b c : bytes_le a b = true → bytes_le b c = true → bytes_le a c = true.
Proof.
  revert b c. induction a as [|x a IH]; intros [|y b] [|z c]; cbn; try done.
  destruct (Z.ltb_spec x y), (Z.eqb_spec x y), (Z.ltb_spec y z), (Z.eqb_spec y z), (Z.ltb_spec x z), (Z.eqb_spec x z);
    try lia; try done. intros. eauto.
Qed.

Section shape.
Context (combine : bytes → bytes → bytes).

(** A tree of depth [k] in which every hash is that of the children. *)
Inductive perfect : nat → MerkleNode → Prop :=
| perfect_leaf h id : perfect 0 (MLeaf h id)
| perfect_node k l r :
    perfect k l → perfect k r → perfect (S k) (MNode (combine (Hash l) (Hash r)) l r).

Fixpoint leaf_hashes (t : MerkleNode) : list bytes :=
  match t with MLeaf h _ => [h] | MNode _ l r => leaf_hashes l ++ leaf_hashes r end.

Lemma pair_up_perfect j n : ∀ nodes,
  length nodes = (2 * n)%nat → Forall (perfect j) nodes →
  ∃ next, pair_up combine nodes = Some next ∧ length next = n ∧ Forall (perfect (S j)) next ∧
    concat (leaf_hashes <$> next) = concat (leaf_hashes <$> nodes).
Proof.
  induction n as [|n IH]; intros nodes Hlen Hp.
  - destruct nodes; [|done]. exists []. by split_and!.
  - destruct nodes as [|l [|r nodes]]; cbn in Hlen; try lia.
    apply Forall_cons in Hp as [Hl [Hr Hp]%Forall_cons].
    destruct (IH nodes ltac:(lia) Hp) as (next & E & Hn & Hf & Ec). cbn [pair_up]. rewrite E.
    eexists. split; [reflexivity|]. split_and!; [cbn; lia|by repeat constructor|].
    cbn [fmap list_fmap concat leaf_hashes]. by rewrite Ec, app_assoc.
Qed.

Lemma fold_levels_perfect k : ∀ fuel j nodes,
  length nodes = (2 ^ k)%nat → (k ≤ fuel)%nat → Forall (perfect j) nodes →
  ∃ t, fold_levels fuel combine nodes = Some t ∧ perfect (j + k) t ∧
    leaf_hashes t = concat (leaf_hashes <$> nodes).
Proof.
  induction k as [|k IH]; intros fuel j nodes Hlen Hf Hp.
  - destruct nodes as [|t [|? ?]]; cbn in Hlen; try lia. apply Forall_cons in Hp as [Ht _].
    exists t. rewrite Nat.add_0_r. split_and!; [by destruct fuel|done|]. cbn. by rewrite app_nil_r.
  - destruct fuel as [|fuel]; [lia|]. rewrite Nat.pow_succ_r' in Hlen.
    destruct (pair_up_perfect j (2 ^ k) nodes Hlen Hp) as (next & E & Hn & Hp' & Ec).
    destruct (IH fuel (S j) next Hn ltac:(lia) Hp') as (t & Et & Ht & El).
    exists t. rewrite <- Nat.add_succ_comm. split_and!; [|done|congruence].
    assert (2 ^ k ≠ 0)%nat by (by apply Nat.pow_nonzero).
    destruct nodes as [|a [|b nodes]]; cbn in Hlen; try lia. cbn [fold_levels]. rewrite E. exact Et.
Qed.

Lemma target_count_pow fuel : ∀ j len,
  (len ≤ 2 ^ (j + fuel))%nat →
  ∃ k, target_count fuel (2 ^ j) len = (2 ^ k)%nat ∧ (len ≤ 2 ^ k)%nat ∧ (k ≤ j + fuel)%nat.
Proof.
  induction fuel as [|fuel IH]; intros j len Hlen; cbn [target_count].
  - exists j. rewrite Nat.add_0_r in *. split_and!; [done|done|lia].
  - destruct (Nat.ltb_spec (2 ^ j) len).
    + destruct (IH (S j) len) as (k & E & Hk & Hkf); [by rewrite Nat.add_succ_comm|].
      rewrite Nat.mul_comm, <- Nat.pow_succ_r'. exists k. split_and!; [done|done|lia].
    + exists j. split_and!; [done|done|lia].
Qed.

(** Building always succeeds: a perfect tree over the leaves and the padding. *)
Lemma build_perfect (leaves : list MerkleNode) :
  Forall (perfect 0) leaves →
  ∃ t k n, build combine leaves = Some t ∧ perfect k t ∧ (k ≤ length leaves)%nat ∧
    leaf_hashes t = concat (leaf_hashes <$> leaves) ++ replicate n zero_hash.
Proof.
  intros Hl. unfold build, pad_leaves. set (len := length leaves).
  destruct (target_count_pow len 0 len) as (k & E & Hk & Hkf).
  { cbn. pose proof (Nat.pow_gt_lin_r 2 len). lia. }
  change (2 ^ 0)%nat with 1%nat in E. rewrite E. set (n := (2 ^ k - len)%nat).
  destruct (fold_levels_perfect k len 0 (leaves ++ replicate n (MLeaf zero_hash []))) as (t & Et & Ht & El).
  - rewrite length_app, length_replicate. fold len. lia.
  - done.
  - apply Forall_app. split; [done|]. apply Forall_replicate. constructor.
  - exists t, k, n. split_and!; [done|done|lia|]. rewrite El, fmap_app, concat_app. f_equal.
    clear. induction n; cbn; [done|]. by f_equal.
Qed.
End shape.

(** ** Membership *)

Section membership.
Context `{GoJson, GoCrypto, !GoCryptoSpec}.

(** What is hashed for two children. *)
Definition preimage (l r : bytes) : bytes := if bytes_le l r then l ++ r else r ++ l.

Lemma combine_sorted_preimage l r : combine_sorted l r = sha3_256 (preimage l r).
Proof. unfold combine_sorted, preimage. by destruct (bytes_le l r). Qed.

Lemma preimage_comm l r : preimage l r = preimage r l.
Proof.
  unfold preimage. destruct (bytes_le l r) eqn:E1, (bytes_le r l) eqn:E2; try done.
  - by rewrite (bytes_le_antisym l r E1 E2).
  - apply bytes_le_total in E1. congruence.
Qed.

(** Of two hashes of one length the pair is determined up to the order. *)
Lemma preimage_inj a b l r :
  length a = length l → length l = length r → preimage a b = preimage l r → (a = l ∧ b = r) ∨ (a = r ∧ b = l).
Proof.
  intros Hl Hr E. assert (length b = length r) as Hb.
  { apply (f_equal length) in E. unfold preimage in E.
    destruct (bytes_le a b), (bytes_le l r); rewrite !length_app in E; lia. }
  unfold preimage in E.
  destruct (bytes_le a b), (bytes_le l r); apply app_inj_1 in E as [-> ->]; auto; congruence.
Qed.

Lemma climb_step hash sibling :
  (if negb (bytes_le sibling hash) then sha3_256 (hash ++ sibling) else sha3_256 (sibling ++ hash)) =
  sha3_256 (preimage hash sibling).
Proof. rewrite preimage_comm. unfold preimage. by destruct (bytes_le sibling hash). Qed.

Lemma climb_snoc hash proof s :
  climb hash (proof ++ [s]) =
  h ← climb hash proof; if bool_decide (s = []) then None else Some (sha3_256 (preimage h s)).
Proof.
  revert hash. induction proof as [|s' proof IH]; intros hash; cbn [app climb].
  - rewrite climb_step. cbn. by case_bool_decide.
  - destruct (bool_decide (s' = [])); [done|apply IH].
Qed.

Lemma climb_length hash proof h : length hash = 32%nat → climb hash proof = Some h → length h = 32%nat.
Proof.
  revert hash. induction proof as [|s proof IH]; intros hash Hh; cbn [climb]; [by intros [= <-]|].
  case_bool_decide; [done|]. rewrite climb_step. apply IH. apply sha3_length.
Qed.

Lemma perfect_hash_length k t :
  perfect combine_sorted k t → Forall (λ h, length h = 32%nat) (leaf_hashes t) → length (Hash t) = 32%nat.
Proof.
  destruct 1; cbn [leaf_hashes Hash]; [by intros [? _]%Forall_cons|].
  intros _. rewrite combine_sorted_preimage. apply sha3_length.
Qed.

(** *** Completeness *)

Lemma find_proof_some t leaf : leaf ∈ leaf_hashes t → is_Some (findMerkleProof t leaf).
Proof.
  induction t as [h id|h l IHl r IHr]; cbn [leaf_hashes findMerkleProof].
  - intros ->%list_elem_of_singleton. rewrite bool_decide_true by done. by eexists.
  - intros [Hin|Hin]%elem_of_app.
    + destruct (IHl Hin) as [p ->]. by eexists.
    + destruct (findMerkleProof l leaf); [by eexists|]. destruct (IHr Hin) as [p ->]. by eexists.
Qed.

Lemma find_proof_climbs k t leaf proof :
  perfect combine_sorted k t → Forall (λ h, length h = 32%nat) (leaf_hashes t) →
  findMerkleProof t leaf = Some proof → climb leaf proof = Some (Hash t) ∧ length proof = k.
Proof.
  intros Ht. revert proof. induction Ht as [h id|k l r Hl IHl Hr IHr]; intros proof H32; cbn [findMerkleProof].
  { case_bool_decide; [|done]. intros [= <-]. by subst. }
  cbn [leaf_hashes] in H32. apply Forall_app in H32 as [H32l H32r].
  pose proof (perfect_hash_length k l Hl H32l) as Hhl. pose proof (perfect_hash_length k r Hr H32r) as Hhr.
  destruct (findMerkleProof l leaf) as [p|]; [|destruct (findMerkleProof r leaf) as [p|]; [|done]].
  - intros [= <-]. destruct (IHl p H32l eq_refl) as [E <-]. rewrite climb_snoc, E, length_app. cbn [mbind option_bind].
    rewrite bool_decide_false by (intros Hr'; by rewrite Hr' in Hhr). cbn [Hash].
    rewrite combine_sorted_preimage. split; [done|cbn; lia].
  - intros [= <-]. destruct (IHr p H32r eq_refl) as [E <-]. rewrite climb_snoc, E, length_app. cbn [mbind option_bind].
    rewrite bool_decide_false by (intros Hl'; by rewrite Hl' in Hhl). cbn [Hash].
    rewrite combine_sorted_preimage, preimage_comm. split; [done|cbn; lia].
Qed.

(** *** Soundness *)

(** Walking down from the root with the hashes of the proof: the first pair that hashes to
    the same value and is another pair. *)
Fixpoint extract (t : MerkleNode) (leaf : bytes) (proof : list bytes) : option (bytes * bytes) :=
  match t with
  | MLeaf _ _ => None
  | MNode _ l r =>
      s ← last proof;
      h ← climb leaf (removelast proof);
      let x := preimage h s in
      let y := preimage (Hash l) (Hash r) in
      if bool_decide (x = y) then
        extract (if bool_decide (h = Hash l) then l else r) leaf (removelast proof)
      else Some (x, y)
  end.

Lemma extract_sound k t leaf proof :
  perfect combine_sorted k t → Forall (λ h, length h = 32%nat) (leaf_hashes t) → length leaf = 32%nat →
  length proof = k → climb leaf proof = Some (Hash t) →
  leaf ∈ leaf_hashes t ∨ ∃ x y, extract t leaf proof = Some (x, y) ∧ x ≠ y ∧ sha3_256 x = sha3_256 y.
Proof.
  intros Ht. revert proof. induction Ht as [h id|k l r Hl IHl Hr IHr]; intros proof H32 Hleaf Hlen Hc.
  { destruct proof; [|done]. injection Hc as ->. left. by left. }
  cbn [leaf_hashes] in H32. apply Forall_app in H32 as [H32l H32r].
  pose proof (perfect_hash_length k l Hl H32l) as Hhl. pose proof (perfect_hash_length k r Hr H32r) as Hhr.
  destruct proof as [|s proof _] using rev_ind; [done|]. rewrite length_app in Hlen. cbn in Hlen.
  rewrite climb_snoc in Hc. destruct (climb leaf proof) as [h|] eqn:Eh; [|done]. cbn [mbind option_bind] in Hc.
  case_bool_decide; [done|]. injection Hc as Hc. cbn [Hash] in Hc. rewrite combine_sorted_preimage in Hc.
  pose proof (climb_length leaf proof h Hleaf Eh) as Hh.
  cbn [extract leaf_hashes]. rewrite last_snoc, removelast_last. cbn [mbind option_bind]. rewrite Eh.
  cbn [mbind option_bind]. case_bool_decide as Ex; [|right; eauto].
  assert (h = Hash l ∨ (h ≠ Hash l ∧ h = Hash r)) as Hside.
  { destruct (preimage_inj h s (Hash l) (Hash r)) as [[? _]|[? _]]; [lia|lia|done|by left|].
    destruct (decide (h = Hash l)); auto. }
  destruct Hside as [Hside|[Hne Hside]].
  - rewrite bool_decide_true by done. destruct (IHl proof H32l Hleaf ltac:(lia)) as [?|?]; [by rewrite Eh, Hside| |by right].
    left. apply elem_of_app. by left.
  - rewrite bool_decide_false by done. destruct (IHr proof H32r Hleaf ltac:(lia)) as [?|?]; [by rewrite Eh, Hside| |by right].
    left. apply elem_of_app. by right.
Qed.

Lemma verify_climb leaf root proof :
  length leaf = 32%nat → length root = 32%nat → VerifyMerkleProof leaf root proof = true ↔ climb leaf proof = Some root.
Proof.
  intros Hl Hr. unfold VerifyMerkleProof.
  rewrite (bool_decide_false (leaf = [])), (bool_decide_false (root = [])) by (by intros ->). cbn [orb].
  destruct (climb leaf proof) as [h|]; [|done]. rewrite bool_decide_eq_true. split; [by intros ->|by intros [= ->]].
Qed.

Lemma lease_tree ls :
  ls ≠ [] →
  ∃ t k n, BuildMerkleTree ls = Some t ∧ perfect combine_sorted k t ∧
    leaf_hashes t = (GetLeaseHash <$> merge_sort lease_le ls) ++ replicate n zero_hash ∧
    Forall (λ h, length h = 32%nat) (leaf_hashes t).
Proof.
  intros Hne. unfold BuildMerkleTree. rewrite bool_decide_false by done.
  edestruct (build_perfect combine_sorted) as (t & k & n & E & Ht & _ & El);
    [|exists t, k, n; split_and!; [exact E|done| |]].
  - apply Forall_fmap, Forall_forall. intros l _. constructor.
  - rewrite El. f_equal. clear. induction (merge_sort lease_le ls); cbn; [done|]. by f_equal.
  - rewrite El. apply Forall_app. split; [|apply Forall_replicate; by cbn].
    clear Hne E El. induction (merge_sort lease_le ls); cbn; constructor; [apply sha3_length|done].
Qed.

(** C19: The Merkle tree over the leases commits to exactly them.  Building never fails.
    For every lease of the list the registry finds a proof of membership, as long as the
    tree is deep, and the verifier accepts it against the root.  Conversely, a proof of
    that length the verifier accepts for a hash of 32 bytes means that the hash is that of
    one of the leases or the padding, or else the tree and the proof together contain two
    different inputs of SHA3 with the same digest. *)
Theorem merkle_membership (ls : list leases.Lease) :
  ls ≠ [] →
  ∃ t k, BuildMerkleTree ls = Some t ∧
    (∀ l, l ∈ ls → ∃ proof, findMerkleProof t (GetLeaseHash l) = Some proof ∧ length proof = k ∧
       VerifyMerkleProof (GetLeaseHash l) (Hash t) proof = true) ∧
    (∀ leaf proof, length leaf = 32%nat → length proof = k → VerifyMerkleProof leaf (Hash t) proof = true →
       leaf = zero_hash ∨ (∃ l, l ∈ ls ∧ leaf = GetLeaseHash l) ∨
       ∃ x y, extract t leaf proof = Some (x, y) ∧ x ≠ y ∧ sha3_256 x = sha3_256 y).
Proof.
  intros Hne. destruct (lease_tree ls Hne) as (t & k & n & E & Ht & El & H32). exists t, k.
  pose proof (perfect_hash_length k t Ht H32) as Hroot. split_and!; [done| |].
  - intros l Hl. destruct (find_proof_some t (GetLeaseHash l)) as [proof Ep].
    { rewrite El. apply elem_of_app. left. apply list_elem_of_fmap. exists l. by rewrite merge_sort_Permutation. }
    destruct (find_proof_climbs k t _ proof Ht H32 Ep) as [Hc Hlen]. exists proof. split_and!; [done|done|].
    apply verify_climb; [apply sha3_length|done|done].
  - intros leaf proof Hleaf Hlen Hv%verify_climb; [|done|done].
    destruct (extract_sound k t leaf proof Ht H32 Hleaf Hlen Hv) as [Hin|Hcoll]; [|by right; right].
    rewrite El in Hin. apply elem_of_app in Hin as [(l & -> & Hl)%list_elem_of_fmap|[-> _]%elem_of_replicate]; [|by left].
    right; left. exists l. by rewrite merge_sort_Permutation in Hl.
Qed.
End membership.

(** ** Determinism *)

Section determinism.
Context {A : Type} (f : A → text).

Let R (a b : A) : Prop := id_le (f a) (f b).

#[local] Instance R_dec a b : Decision (R a b).
Proof. unfold R. apply _. Defined.

(** Sorting by unique ids forgets the order. *)
Lemma sort_by_id (l l' : list A) : l ≡ₚ l' → NoDup (f <$> l) → merge_sort R l = merge_sort R l'.
Proof.
  assert (Transitive R) by (intros a b c; apply bytes_le_trans).
  assert (Total R) as Htot.
  { intros a b. unfold R, id_le. destruct (bytes_le (f a) (f b)) eqn:E; [by left|right]. by apply bytes_le_total. }
  intros Hp Hnd. apply (StronglySorted_unique_strong R); try by apply StronglySorted_merge_sort.
  - intros a b Ha Hb Hab Hba. rewrite merge_sort_Permutation in Ha, Hb. rewrite <- Hp in Hb.
    assert (f a = f b) as E by (by apply bytes_le_antisym).
    apply list_elem_of_lookup in Ha as [i Hi], Hb as [j Hj].
    assert (i = j) as ->; [|by rewrite Hi in Hj; injection Hj].
    eapply (NoDup_lookup (f <$> l)); [done| |]; rewrite list_lookup_fmap, ?Hi, ?Hj; cbn; by rewrite ?E.
  - by rewrite !merge_sort_Permutation.
Qed.
End determinism.

Section commit.
Context `{GoJson, !GoLeaseJson, !GoCommitJson, !GoCommitJsonSpec, GoCrypto, !GoCryptoSpec, Badger, !BadgerSpec}.
Import commitments.

(** The roots depend on the sets of schemas and of leases, not on the order in which the
    database lists them. *)
Lemma schema_tree_perm ss ss' :
  ss ≡ₚ ss' → NoDup (models.ID <$> ss) → BuildSchemaMerkleTree ss = BuildSchemaMerkleTree ss'.
Proof.
  intros Hp Hnd. unfold BuildSchemaMerkleTree. case_bool_decide as E.
  - subst. apply Permutation_nil_l in Hp as <-. done.
  - rewrite bool_decide_false by (intros ->; by apply Permutation_nil_r in Hp).
    do 2 f_equal. by apply (sort_by_id models.ID).
Qed.

Lemma lease_tree_perm ls ls' :
  ls ≡ₚ ls' → NoDup (leases.ID <$> ls) → BuildMerkleTree ls = BuildMerkleTree ls'.
Proof.
  intros Hp Hnd. unfold BuildMerkleTree. case_bool_decide as E.
  - subst. apply Permutation_nil_l in Hp as <-. done.
  - rewrite bool_decide_false by (intros ->; by apply Permutation_nil_r in Hp).
    do 2 f_equal. by apply (sort_by_id leases.ID).
Qed.

(** What a signature made by the engine is worth for any text. *)
Lemma verify_marshalled (e : crypto.Engine) rnd h data r s :
  ec_sign rnd (crypto.privateKey e) h = Some (r, s) → data ≠ [] →
  Verify (crypto.GetPublicKey e) data (crypto.marshalSignature r s) =
  if ec_verify (ec_public (crypto.privateKey e)) (sha3_256 data) r s then Ok () else Err SignatureInvalid.
Proof.
  intros (_ & Hr & Hs)%ec_sign_verify Hd. unfold Verify, crypto.GetPublicKey.
  rewrite (bool_decide_false (pem_encode _ = [])) by apply pem_not_empty. rewrite bool_decide_false by done.
  rewrite bool_decide_false.
  - rewrite pem_roundtrip, signature_roundtrip by done. cbn. by destruct (ec_verify _ _ _ _).
  - intros E%(f_equal length). unfold crypto.marshalSignature in E. by rewrite length_app, to_be_bytes_length in E.
Qed.

Lemma heightKey_not_latest op height : heightKey op height ≠ latestKey op.
Proof.
  intros E%app_inv_head%app_inv_head. change (lit ":latest") with (lit ":" ++ lit "latest") in E.
  apply app_inv_head in E. pose proof (show_decimal height) as Hd. rewrite E in Hd.
  apply Forall_cons in Hd as [Hd _]. unfold decimal in Hd. cbn in Hd. lia.
Qed.

Lemma read_saved key c d :
  read_commitment key (db_set key (go_render (commitment_json c)) d) = Ok c.
Proof. unfold read_commitment. by rewrite get_set, go_commitment_roundtrip. Qed.

Lemma read_other key key' v d : key ≠ key' → read_commitment key' (db_set key v d) = read_commitment key' d.
Proof. intros. unfold read_commitment. by rewrite get_set_ne. Qed.

Lemma commitment_bytes_not_empty `{!GoJsonSpec} c : commitment_bytes c ≠ [].
Proof. apply utf8_not_empty, go_render_not_empty. Qed.

(** C31: Committing the leases, on success: the commitment holds the Merkle root of the
    active leases, their number and the next block height, and from then on it is the
    latest and the one at its height.  Its signature was made over the commitment with a
    count of zero, and verification checks it against the commitment with the real count:
    so a commitment to no leases verifies, and one to some leases verifies only if a
    signature for one text is valid for another. *)
Theorem commit_merkle_tree_spec `{!GoJsonSpec} (t : nat → Z) (rnd : Z) (e e' : engine.Engine) (c : MerkleCommitment) :
  CommitMerkleTree t rnd e = (e', Ok c) → crypto.operatorID (engine.crypto_engine e) = engine.operatorID e →
  let op := engine.operatorID e in
  let sk := crypto.privateKey (engine.crypto_engine e) in
  (∃ ls tree, lease_store.ListLeases (lease_engine.active_filter e) (engine.store e) = Ok ls ∧
     BuildMerkleTree ls = Some tree ∧ c_RootHash c = Hash tree ∧
     c_LeaseCount c = as_signed 32 (Z.of_nat (length ls))) ∧
  engine.blockHeight e' = c_BlockHeight c ∧ c_BlockHeight c = as_signed 64 (engine.blockHeight e + 1) ∧
  GetLatestCommitment op (engine.store e') = Ok c ∧ GetCommitment op (c_BlockHeight c) (engine.store e') = Ok c ∧
  ∃ r s, ec_sign rnd sk (sha3_256 (commitment_bytes (with_lease_count c 0))) = Some (r, s) ∧
    VerifyMerkleCommitment c (crypto.GetPublicKey (engine.crypto_engine e)) =
      (if ec_verify (ec_public sk) (sha3_256 (commitment_bytes c)) r s then Ok () else Err SignatureInvalid) ∧
    (c_LeaseCount c = 0 → VerifyMerkleCommitment c (crypto.GetPublicKey (engine.crypto_engine e)) = Ok ()).
Proof.
  intros HC Hop op sk. unfold CommitMerkleTree in HC. destruct (lease_store.ListLeases _ _) as [ls|] eqn:El; [|done].
  destruct (BuildMerkleTree ls) as [tree|] eqn:Et; [|done].
  destruct (SignMerkleCommitment _ _ _ _ _) as [c0|] eqn:Es; [|done].
  unfold SaveCommitment in HC. case_bool_decide as Hne; [done|]. injection HC as <- <-.
  unfold SignMerkleCommitment in Es. case_bool_decide as Hroot; [done|]. unfold Sign in Es.
  rewrite bool_decide_false in Es by apply commitment_bytes_not_empty.
  destruct (ec_sign _ _ _) as [[r s]|] eqn:Ec; [|done]. injection Es as <-.
  cbn [with_height engine.crypto_engine] in *. set (h := engine.blockHeight (with_height e _)) in *.
  cbn [with_lease_count with_commit_signature c_OperatorID c_BlockHeight c_RootHash c_LeaseCount c_Signature] in *.
  rewrite Hop in *. fold op in Hne |- *.
  assert (∀ k, lease_store.prefixAudit ++ rfc3339 (t 1%nat) ≠ prefixCommitment ++ k) as Haudit by done.
  split_and!; [by exists ls, tree|done|done| | |].
  - unfold GetLatestCommitment. rewrite bool_decide_false by done.
    cbn [lease_engine.appendAuditLog lease_engine.set_store engine.with_store engine.store].
    unfold lease_store.AppendAuditLog. rewrite read_other by apply Haudit. apply read_saved.
  - unfold GetCommitment. rewrite bool_decide_false by done.
    cbn [lease_engine.appendAuditLog lease_engine.set_store engine.with_store engine.store].
    unfold lease_store.AppendAuditLog. rewrite read_other by apply Haudit.
    rewrite read_other by (apply not_eq_sym, heightKey_not_latest). apply read_saved.
  - exists r, s. split; [exact Ec|]. set (n := as_signed 32 (Z.of_nat (length ls))).
    set (c := mkCommitment op (Hash tree) (t 0%nat) (crypto.marshalSignature r s) n h).
    assert (VerifyMerkleCommitment c (crypto.GetPublicKey (engine.crypto_engine e)) =
      (if ec_verify (ec_public sk) (sha3_256 (commitment_bytes c)) r s then Ok () else Err SignatureInvalid)) as Hv.
    { unfold VerifyMerkleCommitment. rewrite bool_decide_false by apply pem_not_empty. rewrite bool_decide_false by done.
      by apply (verify_marshalled _ rnd _ _ _ _ Ec), commitment_bytes_not_empty. }
    split; [exact Hv|]. intros Hz. etransitivity; [exact Hv|]. apply ec_sign_verify in Ec as [Ec _].
    unfold c. rewrite (Hz : n = 0).
    change (commitment_bytes _) with (commitment_bytes (mkCommitment op (Hash tree) (t 0%nat) [] 0 h)).
    fold op sk in Ec. by rewrite Ec.
Qed.
End commit.
