(* ===== verification/FlrDirectory.v ===== *)
(** * flr: endpoints and operators

    Models the endpoints and operators of [src/flr/internal/models/models.go] and of
    [src/flr/internal/registry/badger_store.go], and the engine's access to them
    ([src/flr/internal/registry/engine.go]).  Both are tables of the same kind: a record is
    created once, under its id, and never changed. *)

From stdpp Require Import gmap.
From S2P Require Import Prelude Float FlrModels FlrStore FlrEngine FlrLease.
Local Open Scope Z_scope.

(** ** Data *)

Record GeoCoordinates : Type := mkGeo { Lat : float; Long : float }.

Record Endpoint : Type := mkEndpoint {
  ep_ID : text;
  ep_NodeID : text;
  ep_OperatorID : text;
  ep_Address : text;
  ep_AWGPort : Z;
  ep_Coordinates : option GeoCoordinates;
  ep_Status : Z;
  ep_CreatedAt : Z;
}.

Definition EndpointStatusUnspecified : Z := 0.

Record Operator : Type := mkOperator {
  o_ID : text;
  o_Name : text;
  o_PublicKey : bytes;
  o_Endpoint : text;
  o_Status : Z;
  o_JoinedAt : Z;
  o_LastSeen : Z;
}.

Definition OperatorStatusActive : Z := 1.

Record EndpointFilter : Type := mkEndpointFilter { ef_OperatorID : text; ef_Status : Z }.

(** ** JSON *)

Section json.
Context `{GoJson}.

(** [omitempty]: nil coordinates are left out. *)
Definition endpoint_json (ep : Endpoint) : json :=
  JObj ([(lit "id", JStr (ep_ID ep)); (lit "node_id", JStr (ep_NodeID ep)); (lit "operator_id", JStr (ep_OperatorID ep));
         (lit "address", JStr (ep_Address ep)); (lit "awg_port", JNum (ep_AWGPort ep))] ++
        match ep_Coordinates ep with
        | Some g => [(lit "coordinates", JObj [(lit "lat", JFloat (Lat g)); (lit "long", JFloat (Long g))])]
        | None => []
        end ++
        [(lit "status", JNum (ep_Status ep)); (lit "created_at", JStr (rfc3339 (ep_CreatedAt ep)))]).

Definition marshal_endpoint (ep : Endpoint) : option text :=
  if match ep_Coordinates ep with Some g => float_ok (Lat g) && float_ok (Long g) | None => true end
  then Some (go_render (endpoint_json ep)) else None.

Definition operator_json (op : Operator) : json :=
  JObj [(lit "id", JStr (o_ID op)); (lit "name", JStr (o_Name op)); (lit "public_key", bytes_json (o_PublicKey op));
        (lit "endpoint", JStr (o_Endpoint op)); (lit "status", JNum (o_Status op));
        (lit "joined_at", JStr (rfc3339 (o_JoinedAt op))); (lit "last_seen", JStr (rfc3339 (o_LastSeen op)))].

Definition marshal_operator (op : Operator) : option text := Some (go_render (operator_json op)).
End json.

Class GoDirJson := {
  go_unmarshal_endpoint : text → option Endpoint;
  go_unmarshal_operator : text → option Operator;
}.

Class GoDirJsonSpec `{GoJson, !GoDirJson} : Prop := {
  go_endpoint_roundtrip ep s : marshal_endpoint ep = Some s → go_unmarshal_endpoint s = Some ep;
  go_operator_roundtrip op s : marshal_operator op = Some s → go_unmarshal_operator s = Some op;
}.

(** ** Tables *)

Inductive RowError : Type :=
| RowEmptyID
| RowExists (id : text)
| RowMarshal
| RowNotFound (id : text)
| RowUnmarshal.

Section table.
Context `{Badger} {A : Type}.
Context (prefix : text) (id_of : A → text) (marshal : A → option text) (unmarshal : text → option A).

(** [CreateEndpoint], [CreateOperator] *)
Definition create_row (a : A) : state_result db unit RowError := λ d,
  if bool_decide (id_of a = []) then (d, Err RowEmptyID)
  else if bool_decide (is_Some (db_get (prefix ++ id_of a) d)) then (d, Err (RowExists (id_of a)))
  else
    match marshal a with
    | None => (d, Err RowMarshal)
    | Some data => (db_set (prefix ++ id_of a) data d, Ok ())
    end.

(** [GetEndpoint], [GetOperator] *)
Definition get_row (id : text) (d : db) : result A RowError :=
  if bool_decide (id = []) then Err RowEmptyID
  else
    match db_get (prefix ++ id) d with
    | None => Err (RowNotFound id)
    | Some v => match unmarshal v with Some a => Ok a | None => Err RowUnmarshal end
    end.

(** [ListEndpoints], [ListOperators]: a value that does not unmarshal fails the listing. *)
Definition list_rows (keep : A → bool) (d : db) : result (list A) RowError :=
  match mapM (λ kv, unmarshal kv.2) (db_scan prefix d) with
  | None => Err RowUnmarshal
  | Some l => Ok (base.filter (λ a, keep a) l)
  end.

(** The table as a map. *)
Record rows (d : db) (m : gmap text A) : Prop := {
  row_get id : db_get (prefix ++ id) d = m !! id ≫= marshal;
  row_ok id a : m !! id = Some a → id_of a = id ∧ id ≠ [] ∧ is_Some (marshal a);
}.

Context `{!BadgerSpec} (roundtrip : ∀ a s, marshal a = Some s → unmarshal s = Some a).

Lemma rows_frame d d' m : (∀ id, db_get (prefix ++ id) d' = db_get (prefix ++ id) d) → rows d m → rows d' m.
Proof. intros Hf Hd. split; [|apply (row_ok d m Hd)]. intros id. rewrite Hf. apply (row_get d m Hd). Qed.

Lemma row_unmarshal d m id a : rows d m → m !! id = Some a → ∃ s, marshal a = Some s ∧ unmarshal s = Some a.
Proof. intros Hd Ha. destruct (row_ok d m Hd id a Ha) as (_ & _ & s & Hs). exists s. split; [done|by apply roundtrip]. Qed.

Lemma create_row_spec d m a : rows d m →
  match create_row a d with
  | (d', Ok _) => id_of a ≠ [] ∧ m !! id_of a = None ∧ rows d' (<[id_of a := a]> m)
  | (d', Err RowEmptyID) => d' = d ∧ id_of a = []
  | (d', Err (RowExists id)) => d' = d ∧ id = id_of a ∧ is_Some (m !! id)
  | (d', Err RowMarshal) => d' = d ∧ marshal a = None
  | _ => False
  end.
Proof.
  intros Hd. unfold create_row. case_bool_decide as E0; [done|]. rewrite (row_get d m Hd).
  destruct (m !! id_of a) as [b|] eqn:Eb; cbn [mbind option_bind].
  - destruct (row_ok d m Hd _ b Eb) as (_ & _ & s & ->). rewrite bool_decide_eq_true_2 by by eexists.
    split; [done|]. split; [done|]. by rewrite Eb.
  - rewrite bool_decide_eq_false_2 by by intros [? [=]]. destruct (marshal a) as [s|] eqn:Es; [|done].
    split; [done|]. split; [done|]. split.
    + intros id. destruct (decide (id = id_of a)) as [->|Hne].
      * by rewrite get_set, lookup_insert_eq.
      * rewrite get_set_ne by by intros E%(inj (app _)). rewrite lookup_insert_ne by done. apply (row_get d m Hd).
    + intros id b [[<- <-]|[_ Hb]]%lookup_insert_Some; [by rewrite Es|by apply (row_ok d m Hd)].
Qed.

Lemma get_row_spec d m id : rows d m → id ≠ [] →
  get_row id d = match m !! id with Some a => Ok a | None => Err (RowNotFound id) end.
Proof.
  intros Hd Hne. unfold get_row. rewrite bool_decide_eq_false_2 by done. rewrite (row_get d m Hd).
  destruct (m !! id) as [a|] eqn:Ea; [|done]. destruct (row_unmarshal d m id a Hd Ea) as (s & Hs & Hu).
  cbn. by rewrite Hs, Hu.
Qed.

Lemma list_rows_spec d m keep : rows d m →
  ∃ l, list_rows keep d = Ok l ∧ ∀ a, a ∈ l ↔ m !! id_of a = Some a ∧ keep a = true.
Proof.
  intros Hd. unfold list_rows.
  assert (∀ k v, (k, v) ∈ db_scan prefix d → ∃ a, unmarshal v = Some a ∧ m !! id_of a = Some a) as Hall.
  { intros k v [[id ->] Hv]%scan_get. rewrite (row_get d m Hd) in Hv. apply bind_Some in Hv as (a & Ha & Hs).
    exists a. destruct (row_ok d m Hd id a Ha) as (-> & _). split; [by apply roundtrip|done]. }
  destruct (mapM _ (db_scan prefix d)) as [l|] eqn:E.
  - eexists. split; [done|]. intros a. rewrite list_elem_of_filter, Is_true_true. apply mapM_Some_1 in E. split.
    + intros [Hk Ha]. split; [|done]. apply list_elem_of_lookup in Ha as [i Hi].
      destruct (Forall2_lookup_r _ _ _ i a E Hi) as ([k v] & Hkv & Hu). cbn in Hu.
      destruct (Hall k v) as (a' & Hu' & Hm); [by eapply list_elem_of_lookup_2|]. congruence.
    + intros [Hm Hk]. split; [done|]. destruct (row_unmarshal d m _ a Hd Hm) as (s & Hs & Hu).
      assert ((prefix ++ id_of a, s) ∈ db_scan prefix d) as Hin.
      { apply scan_get. split; [by apply prefix_app_r|]. rewrite (row_get d m Hd), Hm. done. }
      apply list_elem_of_lookup in Hin as [i Hi]. destruct (Forall2_lookup_l _ _ _ i _ E Hi) as (b & Hb & Hub).
      cbn in Hub. assert (b = a) as -> by congruence. by eapply list_elem_of_lookup_2.
  - apply mapM_None_1 in E. apply Exists_exists in E as ([k v] & Hin & Hu). destruct (Hall k v Hin) as (a & Ha & _).
    cbn in Hu. congruence.
Qed.
End table.

(** ** The two tables *)

Module directory.

Definition prefixEndpoint : text := lit "endpoint:".
Definition prefixOperator : text := lit "operator:".

Section store.
Context `{GoJson, !GoDirJson, Badger}.

Definition CreateEndpoint : Endpoint → state_result db unit RowError := create_row prefixEndpoint ep_ID marshal_endpoint.
Definition GetEndpoint : text → db → result Endpoint RowError := get_row prefixEndpoint go_unmarshal_endpoint.

Definition endpointMatches (f : EndpointFilter) (ep : Endpoint) : bool :=
  if negb (bool_decide (ef_OperatorID f = [])) && negb (bool_decide (ep_OperatorID ep = ef_OperatorID f)) then false
  else if negb (ef_Status f =? EndpointStatusUnspecified) && negb (ep_Status ep =? ef_Status f) then false
  else true.

Definition ListEndpoints (f : EndpointFilter) : db → result (list Endpoint) RowError :=
  list_rows prefixEndpoint go_unmarshal_endpoint (endpointMatches f).

Definition CreateOperator : Operator → state_result db unit RowError := create_row prefixOperator o_ID marshal_operator.
Definition GetOperator : text → db → result Operator RowError := get_row prefixOperator go_unmarshal_operator.
Definition ListOperators : db → result (list Operator) RowError :=
  list_rows prefixOperator go_unmarshal_operator (λ _, true).
End store.
End directory.
