(* ===== verification/FlrLedger.v ===== *)
(** * flr: the registry as a whole

    The schema half and the lease half of the registry share one engine and one database.
    This file states what the two halves keep of each other's keys, what the leases in the
    database are, and the invariant of a registry after any sequence of operations
    ([src/flr/internal/registry]): everything of [FlrEngine] on schemas, and that no
    wavelength has two holders. *)

From stdpp Require Import gmap sorting.
From S2P Require Import Prelude Float FlrModels FlrStore FlrEngine FlrLease FlrMerkle FlrDirectory.
Local Open Scope Z_scope.

Import leases tokens lease_store lease_engine.

(** ** Keys

    The kinds of entries differ in the first letter of the key. *)

Definition schema_key (k : text) : Prop := head k = Some 115.
Definition lease_key (k : text) : Prop := head k = Some 108.

Section frames.
Context `{GoJson, !GoLeaseJson, !GoCommitJson, GoCrypto, Badger, !BadgerSpec}.

Lemma set_frame k k' v d : head k ≠ head k' → db_get k' (db_set k v d) = db_get k' d.
Proof. intros Hne. apply get_set_ne. by intros ->. Qed.

Lemma delete_frame k k' d : head k ≠ head k' → db_get k' (db_delete k d) = db_get k' d.
Proof. intros Hne. apply get_delete_ne. by intros ->. Qed.

(** Schema operations leave the other keys alone. *)
Lemma create_schema_frame s d k :
  ¬ schema_key k → db_get k (registry.CreateSchema s d).1 = db_get k d.
Proof.
  intros Hk. unfold registry.CreateSchema. case_bool_decide; [done|]. case_bool_decide; [done|].
  destruct (if _ =? _ then _ else None); [done|]. cbn [fst].
  destruct (_ =? _); rewrite ?set_frame; try done; by apply not_eq_sym.
Qed.

Lemma update_schema_frame s d k :
  ¬ schema_key k → db_get k (registry.UpdateSchema s d).1 = db_get k d.
Proof.
  intros Hk. unfold registry.UpdateSchema. case_bool_decide; [done|].
  destruct (registry.loadSchema _ d) as [old|]; [|done].
  assert (∀ k', schema_key k' → head k' ≠ head k) as Hne by (intros k' Hk'; rewrite Hk'; by apply not_eq_sym).
  destruct (_ =? _), (_ =? _); cbn [andb negb fst];
    [|rewrite delete_frame by by apply Hne|case_match; [done|]; cbn [fst]; rewrite set_frame by by apply Hne|];
    apply set_frame; by apply Hne.
Qed.

Lemma register_frame now uuid rnd s e k :
  ¬ schema_key k → db_get k (engine.store (engine.RegisterSchema now uuid rnd s e).1) = db_get k (engine.store e).
Proof.
  intros Hk. unfold engine.RegisterSchema. case_bool_decide; [|done]. cbn [negb].
  destruct (models.Validate _) as [[]|]; [|done]. destruct (crypto.SignSchema _ _ _) as [sig|]; [|done].
  match goal with |- context [registry.CreateSchema ?s ?d] =>
    pose proof (create_schema_frame s d k Hk) as E; destruct (registry.CreateSchema s d) as [d' r] end.
  exact E.
Qed.

Lemma change_status_frame status now rnd id e k :
  ¬ schema_key k → db_get k (engine.store (engine.change_status status now rnd id e).1) = db_get k (engine.store e).
Proof.
  intros Hk. unfold engine.change_status. destruct (registry.GetSchema _ _) as [s|]; [|done].
  case_bool_decide; [|done]. cbn [negb]. destruct (crypto.SignSchema _ _ _) as [sig|]; [|done].
  match goal with |- context [registry.UpdateSchema ?s ?d] =>
    pose proof (update_schema_frame s d k Hk) as E; destruct (registry.UpdateSchema s d) as [d' r] end.
  exact E.
Qed.

(** Audit entries and commitments have their own keys. *)
Lemma audit_frame a d k : schema_key k ∨ lease_key k → db_get k (AppendAuditLog a d) = db_get k d.
Proof. intros Hk. apply set_frame. intros E. destruct Hk as [Hk|Hk]; by rewrite Hk in E. Qed.

Lemma append_audit_frame now op id e k :
  schema_key k ∨ lease_key k →
  db_get k (engine.store (appendAuditLog now op id e)) = db_get k (engine.store e).
Proof. apply audit_frame. Qed.

Lemma save_frame c d k :
  schema_key k ∨ lease_key k → db_get k (commitments.SaveCommitment c d).1 = db_get k d.
Proof.
  intros Hk. unfold commitments.SaveCommitment. case_bool_decide; [done|]. cbn [fst].
  rewrite !set_frame; try done; intros E; destruct Hk as [Hk|Hk]; by rewrite Hk in E.
Qed.

(** So have endpoints and operators. *)
Lemma create_row_frame {A} prefix (id_of : A → text) marshal a d k :
  head prefix = Some 101 ∨ head prefix = Some 111 → schema_key k ∨ lease_key k →
  db_get k (create_row prefix id_of marshal a d).1 = db_get k d.
Proof.
  intros Hp Hk. unfold create_row. case_bool_decide; [done|]. case_bool_decide; [done|]. destruct (marshal a); [|done].
  apply set_frame. unfold schema_key, lease_key in Hk. destruct prefix as [|c p]; [by destruct Hp|]. cbn in *.
  intros E. rewrite <- E in Hk. destruct Hp as [[= ->]|[= ->]], Hk; done.
Qed.

Lemma commit_frame t rnd e k :
  schema_key k ∨ lease_key k →
  db_get k (engine.store (commitments.CommitMerkleTree t rnd e).1) = db_get k (engine.store e).
Proof.
  intros Hk. unfold commitments.CommitMerkleTree. destruct (ListLeases _ _) as [ls|]; [|done].
  destruct (merkle.BuildMerkleTree ls) as [tree|]; [|done].
  destruct (commitments.SignMerkleCommitment _ _ _ _ _) as [c|]; [|done].
  match goal with |- context [commitments.SaveCommitment ?c ?d] =>
    pose proof (save_frame c d k Hk) as E; destruct (commitments.SaveCommitment c d) as [d' [[]|err]] end; cbn [fst].
  - rewrite append_audit_frame by done. exact E.
  - exact E.
Qed.

(** Lease operations leave the schemas alone. *)
Lemma create_lease_frame l d k : schema_key k → db_get k (CreateLease l d).1 = db_get k d.
Proof.
  intros Hk. unfold CreateLease. case_bool_decide; [done|]. case_bool_decide; [done|].
  destruct (marshal_lease l); [|done]. apply set_frame. intros E. by rewrite Hk in E.
Qed.

Lemma update_lease_frame now l d k : schema_key k → db_get k (UpdateLease now l d).1 = db_get k d.
Proof.
  intros Hk. unfold UpdateLease. case_bool_decide; [done|]. case_bool_decide; [done|].
  destruct (marshal_lease _); [|done]. apply set_frame. intros E. by rewrite Hk in E.
Qed.

Lemma allocate_frame t uuid nonce rnd w ep dur e k :
  schema_key k → db_get k (engine.store (AllocateLease t uuid nonce rnd w ep dur e).1) = db_get k (engine.store e).
Proof.
  intros Hk. unfold AllocateLease. destruct w as [w|]; [|done]. case_bool_decide; [done|].
  destruct (_ <=? _); [done|]. destruct (checkConflictLocked _ _ _ _); [done|].
  destruct (GenerateLeaseToken _ _ _ _ _) as [tok|]; [|done]. destruct (hashToken tok) as [h|]; [|done].
  match goal with |- context [CreateLease ?l ?d] =>
    pose proof (create_lease_frame l d k Hk) as E; destruct (CreateLease l d) as [d' [[]|err]] end.
  - cbn [fst]. rewrite append_audit_frame by auto. exact E.
  - exact E.
Qed.

(** A step that updates one lease. *)
Lemma update_frame now l e k {A} (r : A) op id t' :
  schema_key k →
  db_get k (engine.store
    (match UpdateLease now l (engine.store e) with
     | (d, Err err) => (set_store e d, Err (LeaseStoreFailed err))
     | (d, Ok _) => (appendAuditLog t' op id (set_store e d), Ok r)
     end).1) = db_get k (engine.store e).
Proof.
  intros Hk. pose proof (update_lease_frame now l (engine.store e) k Hk) as E.
  destruct (UpdateLease _ _ _) as [d' [[]|err]]; cbn [fst]; [rewrite append_audit_frame by auto|]; exact E.
Qed.

Lemma renew_frame t nonce rnd id ext e k :
  schema_key k → db_get k (engine.store (RenewLease t nonce rnd id ext e).1) = db_get k (engine.store e).
Proof.
  intros Hk. unfold RenewLease. case_bool_decide; [done|]. destruct (_ <=? _); [done|].
  destruct (GetLease _ _) as [l|]; [|done]. destruct (negb _); [done|].
  destruct (GenerateLeaseToken _ _ _ _ _) as [tok|]; [|done]. destruct (hashToken tok) as [h|]; [|done].
  by apply update_frame.
Qed.

Lemma revoke_frame t id e k :
  schema_key k → db_get k (engine.store (RevokeLease t id e).1) = db_get k (engine.store e).
Proof.
  intros Hk. unfold RevokeLease. case_bool_decide; [done|]. destruct (GetLease _ _) as [l|]; [|done].
  destruct (_ =? _); [done|]. by apply update_frame.
Qed.

Lemma expire_all_frame t now k : schema_key k → ∀ ls i n e,
  db_get k (engine.store (expire_all t now i ls n e).1) = db_get k (engine.store e).
Proof.
  intros Hk. induction ls as [|l ls IH]; intros i n e; cbn [expire_all]; [done|].
  destruct (_ <? _); [|apply IH].
  pose proof (update_lease_frame (t i) (with_lease_status l LeaseStatusExpired now) (engine.store e) k Hk) as E.
  destruct (UpdateLease _ _ _) as [d [[]|err]]; cbn [fst] in *; [|exact E].
  rewrite IH, append_audit_frame by auto. exact E.
Qed.

Lemma expire_frame t e k :
  schema_key k → db_get k (engine.store (ExpireLeases t e).1) = db_get k (engine.store e).
Proof.
  intros Hk. unfold ExpireLeases. destruct (ListLeases _ _) as [ls|]; [|done]. by apply expire_all_frame.
Qed.
End frames.

(** ** The leases as a map *)

Section lease_map.
Context `{GoJson, !GoLeaseJson, !GoLeaseJsonSpec, GoCrypto, Badger, !BadgerSpec}.

(** The database holds the leases [m], each under its id. *)
Record lholds (d : db) (m : gmap text Lease) : Prop := {
  lh_get id : db_get (leaseKey id) d = (λ l, go_render (lease_json l)) <$> m !! id;
  lh_lease id l : m !! id = Some l → ID l = id ∧ id ≠ [] ∧ wavelength_ok (wavelength l) = true;
}.

Lemma lholds_frame d d' m :
  (∀ k, lease_key k → db_get k d' = db_get k d) → lholds d m → lholds d' m.
Proof. intros Hf Hd. split; [|apply (lh_lease d m Hd)]. intros id. rewrite Hf by done. apply (lh_get d m Hd). Qed.

Lemma leaseKey_inj id id' : leaseKey id = leaseKey id' → id = id'.
Proof. by intros E%app_inv_head. Qed.

Lemma lease_unmarshal l :
  wavelength_ok (wavelength l) = true → go_unmarshal_lease (go_render (lease_json l)) = Some l.
Proof. intros Hw. apply go_lease_roundtrip. unfold marshal_lease. by rewrite Hw. Qed.

Lemma lholds_put d m l :
  lholds d m → ID l ≠ [] → wavelength_ok (wavelength l) = true →
  lholds (db_set (leaseKey (ID l)) (go_render (lease_json l)) d) (<[ID l := l]> m).
Proof.
  intros Hd Hne Hw. split.
  - intros id. destruct (decide (ID l = id)) as [<-|Hid].
    + by rewrite get_set, lookup_insert_eq.
    + rewrite get_set_ne, lookup_insert_ne by (done || by intros E%leaseKey_inj). apply (lh_get d m Hd).
  - intros id l' [[<- <-]|[_ ?]]%lookup_insert_Some; [done|by apply (lh_lease d m Hd)].
Qed.

Lemma get_lease_spec d m id :
  lholds d m →
  GetLease id d =
  if bool_decide (id = []) then Err LeaseEmptyID
  else match m !! id with Some l => Ok l | None => Err (LeaseNotFound id) end.
Proof.
  intros Hd. unfold GetLease. case_bool_decide; [done|]. rewrite (lh_get d m Hd).
  destruct (m !! id) as [l|] eqn:E; [|done]. cbn. by rewrite lease_unmarshal by (by eapply (lh_lease d m Hd)).
Qed.

Lemma list_leases_spec d m f :
  lholds d m → ∃ ls, ListLeases f d = Ok ls ∧ ∀ l, l ∈ ls ↔ m !! ID l = Some l ∧ leaseMatches f l = true.
Proof.
  intros Hd. unfold ListLeases.
  assert (∀ k v, (k, v) ∈ db_scan prefixLease d → ∃ l, go_unmarshal_lease v = Some l ∧ m !! ID l = Some l) as Hall.
  { intros k v [[id ->] Hv]%scan_get. change (prefixLease ++ id) with (leaseKey id) in Hv.
    rewrite (lh_get d m Hd) in Hv. apply fmap_Some in Hv as (l & Hl & ->). destruct (lh_lease d m Hd id l Hl) as (E & _ & Hw).
    exists l. by rewrite E, lease_unmarshal. }
  destruct (mapM (λ kv, go_unmarshal_lease kv.2) (db_scan prefixLease d)) as [ls|] eqn:E.
  - eexists. split; [done|]. intros l. rewrite list_elem_of_filter. apply mapM_Some_1 in E. split.
    + intros [Hf%Is_true_true Hl]. split; [|done]. apply list_elem_of_lookup in Hl as [i Hi].
      destruct (Forall2_lookup_r _ _ _ i l E Hi) as ([k v] & Hkv & Hu). cbn in Hu.
      destruct (Hall k v) as (l' & Hl' & Hm); [by eapply list_elem_of_lookup_2|]. congruence.
    + intros [Hm Hf]. split; [by apply Is_true_true|].
      assert ((leaseKey (ID l), go_render (lease_json l)) ∈ db_scan prefixLease d) as Hin.
      { apply scan_get. split; [by exists (ID l)|]. by rewrite (lh_get d m Hd), Hm. }
      apply list_elem_of_lookup in Hin as [i Hi]. destruct (Forall2_lookup_l _ _ _ i _ E Hi) as (l' & Hl' & Hu).
      cbn in Hu. rewrite lease_unmarshal in Hu by (by eapply (lh_lease d m Hd)). injection Hu as <-.
      by eapply list_elem_of_lookup_2.
  - exfalso. apply mapM_None_1 in E. apply Exists_exists in E as ([k v] & Hkv & Hn).
    destruct (Hall k v Hkv) as (l & Hl & _). cbn in Hn. congruence.
Qed.

(** Each lease is listed once. *)
Lemma list_leases_nodup d m f ls : lholds d m → ListLeases f d = Ok ls → NoDup (ID <$> ls).
Proof.
  intros Hd. unfold ListLeases. destruct (mapM _ _) as [all|] eqn:E; [|done]. intros [= <-].
  enough (NoDup (ID <$> all)) as Hnd.
  { eapply sublist_NoDup; [exact Hnd|]. apply fmap_sublist, sublist_filter. }
  apply mapM_Some_1 in E. pose proof (scan_keys prefixLease d) as Hnd.
  assert (∀ k v, (k, v) ∈ db_scan prefixLease d → ∃ l, go_unmarshal_lease v = Some l ∧ k = leaseKey (ID l)) as Hall.
  { intros k v [[id ->] Hv]%scan_get. change (prefixLease ++ id) with (leaseKey id) in *.
    rewrite (lh_get d m Hd) in Hv. apply fmap_Some in Hv as (l & Hl & ->).
    destruct (lh_lease d m Hd id l Hl) as (<- & _ & Hw). exists l. by rewrite lease_unmarshal. }
  assert ((db_scan prefixLease d).*1 = leaseKey <$> (ID <$> all)) as Ek.
  { clear Hnd. induction E as [|[k v] l kvs ls Hu E IH]; [done|]. cbn [fmap list_fmap fst].
    destruct (Hall k v) as (l' & Hl' & ->); [by left|]. cbn in Hu. rewrite Hl' in Hu. injection Hu as <-.
    f_equal. apply IH. intros. apply Hall. by right. }
  rewrite Ek in Hnd. by apply NoDup_fmap_1 in Hnd.
Qed.

(** ** Conflicts *)

(** [l] holds the wavelength [key] for the operator at time [t]. *)
Definition holder (op : text) (t : Z) (key : text) (l : Lease) : Prop :=
  OperatorID l = op ∧ Status l = LeaseStatusActive ∧ t < EndTime l ∧
  ∃ w, wavelength l = Some w ∧ ToKey w = key.

Lemma active_filter_spec (e : engine.Engine) l :
  engine.operatorID e ≠ [] →
  leaseMatches (active_filter e) l = true ↔ OperatorID l = engine.operatorID e ∧ Status l = LeaseStatusActive.
Proof.
  intros Hop. unfold leaseMatches, active_filter. cbn [lf_OperatorID lf_EndpointID lf_Status].
  rewrite (bool_decide_false (engine.operatorID e = [])) by done. rewrite (bool_decide_true ([] = [])) by done.
  cbn [negb andb]. case_bool_decide; cbn [negb]; [|naive_solver].
  change (LeaseStatusActive =? LeaseStatusUnspecified) with false. cbn [negb andb].
  destruct (Z.eqb_spec (Status l) LeaseStatusActive); cbn [negb]; naive_solver.
Qed.

Lemma conflicts_spec t key excl l :
  conflicts t key excl l = true ↔ ID l ≠ excl ∧ t < EndTime l ∧ ∃ w, wavelength l = Some w ∧ ToKey w = key.
Proof.
  unfold conflicts. case_bool_decide; [naive_solver|]. destruct (wavelength l) as [w|]; [|naive_solver].
  rewrite andb_true_iff, bool_decide_eq_true, Z.ltb_lt. naive_solver.
Qed.

(** The check returns a holder if and only if there is one, other than the lease it leaves
    out. *)
Lemma check_conflict_spec (e : engine.Engine) m t w excl :
  lholds (engine.store e) m → engine.operatorID e ≠ [] →
  match checkConflictLocked t (Some w) excl e with
  | Some l => m !! ID l = Some l ∧ ID l ≠ excl ∧ holder (engine.operatorID e) t (ToKey w) l
  | None => ∀ id l, m !! id = Some l → id ≠ excl → ¬ holder (engine.operatorID e) t (ToKey w) l
  end.
Proof.
  intros Hd Hop. unfold checkConflictLocked.
  destruct (list_leases_spec _ m (active_filter e) Hd) as (ls & -> & Hls).
  destruct (List.find _ ls) as [l|] eqn:E.
  - apply List.find_some in E as [Hin%list_elem_of_In (Hne & Ht & Hk)%conflicts_spec].
    apply Hls in Hin as [Hm [Ho Hs]%active_filter_spec]; [|done]. done.
  - intros id l Hl Hid (Ho & Hs & Ht & Hk). destruct (lh_lease _ m Hd id l Hl) as (<- & _ & _).
    assert (conflicts t (ToKey w) excl l = false) as Hc.
    { apply (List.find_none _ _ E). apply list_elem_of_In, Hls. split; [done|]. by apply active_filter_spec. }
    enough (conflicts t (ToKey w) excl l = true) by congruence. by apply conflicts_spec.
Qed.
End lease_map.

(** ** Operations on the map *)

Section operations.
Context `{GoJson, !GoLeaseJson, !GoLeaseJsonSpec, GoCrypto, Badger, !BadgerSpec}.

(** The rest of the engine. *)
Definition same_engine (e e' : engine.Engine) : Prop :=
  engine.crypto_engine e' = engine.crypto_engine e ∧ engine.operatorID e' = engine.operatorID e ∧
  engine.blockHeight e' = engine.blockHeight e.

Lemma same_engine_refl e : same_engine e e.
Proof. done. Qed.

Lemma same_engine_trans e1 e2 e3 : same_engine e1 e2 → same_engine e2 e3 → same_engine e1 e3.
Proof. intros (? & ? & ?) (? & ? & ?). split_and!; congruence. Qed.

Lemma audit_same now op id e d : same_engine e (appendAuditLog now op id (set_store e d)).
Proof. done. Qed.

Lemma audit_lholds now op id (e : engine.Engine) d m :
  lholds d m → lholds (engine.store (appendAuditLog now op id (set_store e d))) m.
Proof. apply lholds_frame. intros k Hk. apply append_audit_frame. by right. Qed.

Lemma set_store_same (e : engine.Engine) : set_store e (engine.store e) = e.
Proof. by destruct e. Qed.

Lemma token_marshals (ce : crypto.Engine) nonce rnd now l tok :
  GenerateLeaseToken ce nonce rnd now l = Ok tok → wavelength_ok (wavelength l) = true ∧ t_Wavelength tok = wavelength l.
Proof.
  unfold GenerateLeaseToken, signToken, token_bytes. cbn [t_Wavelength].
  destruct (wavelength_ok (wavelength l)); [|done]. destruct (ec_sign _ _ _) as [[r s]|]; [|done]. by intros [= <-].
Qed.

(** The lease an allocation makes, before its token's hash is known. *)
Definition new_lease (e : engine.Engine) (uuid : text) (w : Wavelength) (ep : text) (now dur : Z) : Lease :=
  mkLease uuid (Some w) ep (engine.operatorID e) LeaseStatusActive now (now + dur) now now [] [].

Lemma allocate_spec t uuid nonce rnd w ep dur (e : engine.Engine) m :
  lholds (engine.store e) m → engine.operatorID e ≠ [] →
  let '(e', r) := AllocateLease t uuid nonce rnd w ep dur e in
  match r with
  | Ok (l, tok) =>
      ∃ wl h, w = Some wl ∧ ep ≠ [] ∧ 0 < dur ∧ l = with_hash (new_lease e uuid wl ep (t 0%nat) dur) h ∧
        GenerateLeaseToken (engine.crypto_engine e) nonce rnd (t 2%nat) (new_lease e uuid wl ep (t 0%nat) dur) = Ok tok ∧
        hashToken tok = Some h ∧ m !! uuid = None ∧ same_engine e e' ∧
        lholds (engine.store e') (<[uuid := l]> m) ∧
        ∀ id l', m !! id = Some l' → ¬ holder (engine.operatorID e) (t 1%nat) (ToKey wl) l'
  | Err err =>
      e' = e ∧
      match err with
      | NilWavelength => w = None
      | EmptyEndpoint => ep = []
      | DurationNotPositive => dur ≤ 0
      | ConflictWith id => ∃ wl l, w = Some wl ∧ m !! id = Some l ∧ holder (engine.operatorID e) (t 1%nat) (ToKey wl) l
      | LeaseTokenFailed TokenMarshal => wavelength_ok w = false
      | LeaseTokenFailed TokenSign => ∃ data, ec_sign rnd (crypto.privateKey (engine.crypto_engine e)) data = None
      | LeaseStoreFailed LeaseEmptyID => uuid = []
      | LeaseStoreFailed (LeaseExists id) => id = uuid ∧ is_Some (m !! uuid)
      | _ => False
      end
  end.
Proof.
  intros Hd Hop. unfold AllocateLease. destruct w as [wl|]; [|done].
  case_bool_decide as Hep; [done|]. destruct (Z.leb_spec dur 0) as [Hdur|Hdur]; [done|].
  pose proof (check_conflict_spec e m (t 1%nat) wl [] Hd Hop) as Hc.
  destruct (checkConflictLocked _ _ _ _) as [l|]; [naive_solver|]. fold (new_lease e uuid wl ep (t 0%nat) dur).
  set (l0 := new_lease e uuid wl ep (t 0%nat) dur).
  destruct (GenerateLeaseToken _ nonce rnd _ l0) as [tok|err] eqn:Et.
  - pose proof (token_marshals _ _ _ _ _ _ Et) as [Hw Etw]. destruct (hashToken tok) as [h|] eqn:Eh.
    2: { unfold hashToken in Eh. by rewrite Etw in Eh. }
    unfold CreateLease, marshal_lease. cbn [with_hash ID wavelength]. change (ID l0) with uuid.
    case_bool_decide as Hne; [by rewrite set_store_same|]. rewrite (lh_get _ m Hd).
    case_bool_decide as Hex; [rewrite set_store_same, fmap_is_Some in *; done|].
    rewrite Hw. exists wl, h. split_and!; try done.
    + destruct (m !! uuid); [|done]. by destruct Hex.
    + apply audit_lholds. change uuid with (ID (with_hash l0 h)). by apply lholds_put.
    + intros id l' Hl'. apply (Hc id); [done|]. by apply (lh_lease _ m Hd id l').
  - split; [done|]. unfold GenerateLeaseToken, signToken, token_bytes in Et. cbn [t_Wavelength] in Et.
    change (wavelength l0) with (Some wl) in Et. destruct (wavelength_ok (Some wl)) eqn:Hw; [|by injection Et as <-].
    destruct (ec_sign _ _ _) as [[]|] eqn:Es; [done|]. injection Et as <-. eauto.
Qed.

Lemma update_lease_spec now l d m :
  lholds d m → is_Some (m !! ID l) → wavelength_ok (wavelength l) = true →
  ∃ d', UpdateLease now l d = (d', Ok ()) ∧ lholds d' (<[ID l := with_updated l now]> m).
Proof.
  intros Hd [old Ho] Hw. destruct (lh_lease d m Hd _ old Ho) as (_ & Hne & _). unfold UpdateLease, marshal_lease.
  rewrite bool_decide_false by done. rewrite (lh_get d m Hd), Ho. cbn [fmap option_fmap option_map with_updated wavelength].
  rewrite bool_decide_false by done. rewrite Hw. eexists. split; [done|].
  change (ID l) with (ID (with_updated l now)). by apply lholds_put.
Qed.

Definition renewed (l : Lease) (t : nat → Z) (ext : Z) (h : bytes) : Lease :=
  with_updated (with_hash (extended l ext (t 0%nat)) h) (t 2%nat).

Lemma renew_spec t nonce rnd id ext (e : engine.Engine) m :
  lholds (engine.store e) m →
  let '(e', r) := RenewLease t nonce rnd id ext e in
  match r with
  | Ok (l', tok) =>
      ∃ l h, m !! id = Some l ∧ 0 < ext ∧ Status l = LeaseStatusActive ∧ l' = renewed l t ext h ∧
        GenerateLeaseToken (engine.crypto_engine e) nonce rnd (t 1%nat) (extended l ext (t 0%nat)) = Ok tok ∧
        hashToken tok = Some h ∧ same_engine e e' ∧ lholds (engine.store e') (<[id := l']> m)
  | Err _ => e' = e
  end.
Proof.
  intros Hd. unfold RenewLease. case_bool_decide as Hid; [done|]. destruct (Z.leb_spec ext 0); [done|].
  rewrite (get_lease_spec _ m) by done. rewrite bool_decide_false by done. destruct (m !! id) as [l|] eqn:El; [|done].
  destruct (Z.eqb_spec (Status l) LeaseStatusActive); [|done]. cbn [negb].
  destruct (GenerateLeaseToken _ _ _ _ _) as [tok|] eqn:Et; [|done]. destruct (hashToken tok) as [h|] eqn:Eh; [|done].
  destruct (lh_lease _ m Hd id l El) as (HID & _ & Hw).
  set (l1 := with_hash (extended l ext (t 0%nat)) h).
  destruct (update_lease_spec (t 2%nat) l1 (engine.store e) m Hd) as (d' & Eu & Hd').
  { by rewrite (HID : ID l1 = id), El. }
  { exact Hw. }
  rewrite Eu. exists l, h. split_and!; try done. apply audit_lholds. by rewrite (HID : ID l1 = id) in Hd'.
Qed.

Lemma revoke_spec t id (e : engine.Engine) m :
  lholds (engine.store e) m →
  let '(e', r) := RevokeLease t id e in
  match r with
  | Ok _ =>
      ∃ l, m !! id = Some l ∧ Status l ≠ LeaseStatusRevoked ∧ same_engine e e' ∧
        lholds (engine.store e')
          (<[id := with_updated (with_lease_status l LeaseStatusRevoked (t 0%nat)) (t 1%nat)]> m)
  | Err _ => e' = e
  end.
Proof.
  intros Hd. unfold RevokeLease. case_bool_decide as Hid; [done|].
  rewrite (get_lease_spec _ m) by done. rewrite bool_decide_false by done. destruct (m !! id) as [l|] eqn:El; [|done].
  destruct (Z.eqb_spec (Status l) LeaseStatusRevoked); [done|].
  destruct (lh_lease _ m Hd id l El) as (HID & _ & Hw).
  set (l1 := with_lease_status l LeaseStatusRevoked (t 0%nat)).
  destruct (update_lease_spec (t 1%nat) l1 (engine.store e) m Hd) as (d' & Eu & Hd').
  { by rewrite (HID : ID l1 = id), El. }
  { exact Hw. }
  rewrite Eu. exists l. split_and!; try done. apply audit_lholds. by rewrite (HID : ID l1 = id) in Hd'.
Qed.

Definition expired (l : Lease) (now u : Z) : Lease := with_updated (with_lease_status l LeaseStatusExpired now) u.

Lemma expire_all_spec t now : ∀ (ls : list Lease) i n (e : engine.Engine) m,
  lholds (engine.store e) m → NoDup (ID <$> ls) → (∀ l, l ∈ ls → m !! ID l = Some l) →
  ∃ e' m', expire_all t now i ls n e = (e', Ok (n + length (base.filter (λ l, (EndTime l < now)%Z) ls))%nat) ∧
    same_engine e e' ∧ lholds (engine.store e') m' ∧
    (∀ l, l ∈ ls → EndTime l < now → ∃ u, m' !! ID l = Some (expired l now u)) ∧
    (∀ id, (∀ l, l ∈ ls → EndTime l < now → ID l ≠ id) → m' !! id = m !! id).
Proof.
  induction ls as [|l ls IH]; intros i n e m Hd Hnd Hm.
  { exists e, m. cbn. rewrite Nat.add_0_r. split_and!; try done. intros l Hl. by apply not_elem_of_nil in Hl. }
  cbn [fmap list_fmap] in Hnd. apply NoDup_cons in Hnd as [Hl Hnd]. cbn [expire_all]. rewrite filter_cons.
  pose proof (Hm l ltac:(by left)) as Hml. destruct (Z.ltb_spec (EndTime l) now) as [Hexp|Hexp].
  - rewrite decide_True by done. destruct (lh_lease _ m Hd _ l Hml) as (_ & _ & Hw).
    destruct (update_lease_spec (t i) (with_lease_status l LeaseStatusExpired now) (engine.store e) m Hd) as (d & -> & Hd');
      [by cbn; rewrite Hml|exact Hw|].
    destruct (IH (S (S i)) (S n) (appendAuditLog (t (S i)) (lit "EXPIRE_LEASE") (ID l) (set_store e d))
      (<[ID l := expired l now (t i)]> m)) as (e' & m' & E & Hs & Hd2 & Hin & Hout);
      [by apply audit_lholds|done| |].
    { intros l' Hl'. rewrite lookup_insert_ne; [apply Hm; by right|]. intros Eid. apply Hl. rewrite Eid.
      by apply list_elem_of_fmap_2. }
    exists e', m'. split_and!; [etransitivity; [exact E|]; do 2 f_equal; cbn; lia|by eapply same_engine_trans; [apply audit_same|]|done| |].
    + intros l' [->|Hl']%elem_of_cons Hexp'; [|by apply Hin]. exists (t i). rewrite Hout, lookup_insert_eq; [done|].
      intros l2 Hl2 _ Eid. apply Hl. rewrite <- Eid. by apply list_elem_of_fmap_2.
    + intros id Hid. rewrite Hout; [|intros; apply Hid; [by right|done]].
      apply lookup_insert_ne. by apply Hid; [left|].
  - rewrite decide_False by lia. destruct (IH i n e m Hd Hnd) as (e' & m' & E & Hs & Hd2 & Hin & Hout);
      [intros; apply Hm; by right|]. exists e', m'. split_and!; [done|done|done| |].
    + intros l' [->|Hl']%elem_of_cons Hexp'; [lia|by apply Hin].
    + intros id Hid. apply Hout. intros; apply Hid; [by right|done].
Qed.

(** Expiry marks exactly the active leases of the operator whose end has passed. *)
Lemma expire_spec t (e : engine.Engine) m :
  lholds (engine.store e) m → engine.operatorID e ≠ [] →
  ∃ n e' m', ExpireLeases t e = (e', Ok n) ∧ same_engine e e' ∧ lholds (engine.store e') m' ∧
    ∀ id, match m !! id with
          | Some l =>
              if bool_decide (OperatorID l = engine.operatorID e ∧ Status l = LeaseStatusActive ∧ EndTime l < t 0%nat)
              then ∃ u, m' !! id = Some (expired l (t 0%nat) u) else m' !! id = Some l
          | None => m' !! id = None
          end.
Proof.
  intros Hd Hop. unfold ExpireLeases. destruct (list_leases_spec _ m (active_filter e) Hd) as (ls & El & Hls). rewrite El.
  destruct (expire_all_spec t (t 0%nat) ls 1 0 e m Hd) as (e' & m' & E & Hs & Hd' & Hin & Hout).
  { by eapply list_leases_nodup. }
  { intros l Hl. by apply Hls in Hl as [? _]. }
  eexists _, e', m'. split_and!; [exact E|done|done|]. intros id.
  assert (∀ l, l ∈ ls ↔ m !! ID l = Some l ∧ OperatorID l = engine.operatorID e ∧ Status l = LeaseStatusActive) as Hls'.
  { intros l. rewrite Hls. by rewrite active_filter_spec. }
  destruct (m !! id) as [l|] eqn:Hl.
  - destruct (lh_lease _ m Hd id l Hl) as (HID & _ & _). case_bool_decide as Hc.
    + rewrite <- HID. apply Hin; [|by destruct Hc as (_ & _ & ?)]. apply Hls'. rewrite HID. naive_solver.
    + rewrite Hout; [done|]. intros l' (Hm' & ? & ?)%Hls' Hexp Eid. rewrite Eid, Hl in Hm'. injection Hm' as <-. naive_solver.
  - rewrite Hout; [done|]. intros l' (Hm' & _)%Hls' _ Eid. congruence.
Qed.
End operations.

(** ** The registry *)

Section registry.
Context `{GoJson, !GoJsonSpec, !GoLeaseJson, !GoLeaseJsonSpec, !GoCommitJson, GoCrypto, !GoCryptoSpec,
          Badger, !BadgerSpec}.

(** No two leases hold one wavelength at time [T]. *)
Definition exclusive (T : Z) (op : text) (m : gmap text Lease) : Prop :=
  ∀ key id id' l l', m !! id = Some l → m !! id' = Some l' →
    holder op T key l → holder op T key l' → id = id'.

Lemma holder_later op T T' key l : T ≤ T' → holder op T' key l → holder op T key l.
Proof. intros HT (? & ? & ? & ?). split_and!; [done|done|lia|done]. Qed.

Lemma exclusive_later T T' op m : T ≤ T' → exclusive T op m → exclusive T' op m.
Proof. intros HT Hx key id id' l l' Hl Hl' Ha Hb. by eapply Hx; [exact Hl|exact Hl'|eapply holder_later..]. Qed.

Lemma exclusive_insert T op m id l :
  exclusive T op m →
  (∀ key id' l', holder op T key l → m !! id' = Some l' → id' ≠ id → ¬ holder op T key l') →
  exclusive T op (<[id := l]> m).
Proof.
  intros Hx Hnew key i i' k k' [[<- <-]|[Hi Hk]]%lookup_insert_Some [[<- <-]|[Hi' Hk']]%lookup_insert_Some Ha Hb;
    [done| | |by eapply Hx].
  - by destruct (Hnew key i' k' Ha Hk' (not_eq_sym Hi')).
  - by destruct (Hnew key i k Hb Hk (not_eq_sym Hi)).
Qed.

(** Taking leases out of use. *)
Lemma exclusive_shrink T op m m' :
  exclusive T op m →
  (∀ id l key, m' !! id = Some l → holder op T key l → m !! id = Some l) → exclusive T op m'.
Proof.
  intros Hx Hs key id id' l l' Hl Hl' Ha Hb. eapply Hx; [by eapply Hs|by eapply Hs|done..].
Qed.

(** A registry opened on an empty database at some time, and any operations after that,
    in any order: those of the engine, and what the federation stores directly, commitments
    of peers and audit entries.  [T] is a time not before any reading of the clock so far.
    A lease is renewed while it runs. *)
Inductive registry_reachable : Z → engine.Engine → Prop :=
| reg_open T d key op height :
    holds d ∅ → lholds d ∅ → op ≠ [] →
    registry_reachable T (engine.mkEngine d (crypto.mkEngine op key) op height)
| reg_register T e now uuid rnd s :
    registry_reachable T e → registry_reachable T (engine.RegisterSchema now uuid rnd s e).1
| reg_deprecate T e now rnd id :
    registry_reachable T e → registry_reachable T (engine.DeprecateSchema now rnd id e).1
| reg_revoke_schema T e now rnd id :
    registry_reachable T e → registry_reachable T (engine.RevokeSchema now rnd id e).1
| reg_allocate T T' e t uuid nonce rnd w ep dur :
    registry_reachable T e → (∀ i, T ≤ t i ≤ T') →
    registry_reachable T' (AllocateLease t uuid nonce rnd w ep dur e).1
| reg_renew T T' e t nonce rnd id ext :
    registry_reachable T e → (∀ i, T ≤ t i ≤ T') →
    (∀ l, GetLease id (engine.store e) = Ok l → t 0%nat < EndTime l) →
    registry_reachable T' (RenewLease t nonce rnd id ext e).1
| reg_revoke T T' e t id :
    registry_reachable T e → (∀ i, T ≤ t i ≤ T') → registry_reachable T' (RevokeLease t id e).1
| reg_expire T T' e t :
    registry_reachable T e → (∀ i, T ≤ t i ≤ T') → registry_reachable T' (ExpireLeases t e).1
| reg_commit T T' e t rnd :
    registry_reachable T e → (∀ i, T ≤ t i ≤ T') →
    registry_reachable T' (commitments.CommitMerkleTree t rnd e).1
| reg_endpoint T e ep :
    registry_reachable T e → registry_reachable T (set_store e (directory.CreateEndpoint ep (engine.store e)).1)
| reg_operator T e op :
    registry_reachable T e → registry_reachable T (set_store e (directory.CreateOperator op (engine.store e)).1)
| reg_save T e c :
    registry_reachable T e → registry_reachable T (set_store e (commitments.SaveCommitment c (engine.store e)).1)
| reg_audit T e a :
    registry_reachable T e → registry_reachable T (set_store e (AppendAuditLog a (engine.store e))).

(** Time may pass. *)
Lemma registry_reachable_later T T' e : registry_reachable T e → T ≤ T' → registry_reachable T' e.
Proof.
  intros Hr. revert T'. induction Hr; intros T'' HT; try (by constructor; auto);
    econstructor; try done; intros i; match goal with Ht : ∀ _, _ ≤ _ ≤ _ |- _ => specialize (Ht i); lia end.
Qed.

Record registry_inv (T : Z) (e : engine.Engine) (sm : gmap text models.ApplicationSchema) (lm : gmap text Lease)
    : Prop := {
  ri_schemas : engine_inv e sm;
  ri_leases : lholds (engine.store e) lm;
  ri_operator : engine.operatorID e ≠ [];
  ri_exclusive : exclusive T (engine.operatorID e) lm;
}.

Lemma holds_frame d d' m : (∀ k, schema_key k → db_get k d' = db_get k d) → holds d m → holds d' m.
Proof.
  intros Hf Hd. split; [|apply (h_id d m Hd)|].
  - intros id. rewrite Hf by done. apply (h_primary d m Hd).
  - intros op oam id. rewrite Hf by done. apply (h_index d m Hd).
Qed.

Lemma engine_inv_frame (e e' : engine.Engine) sm :
  engine_inv e sm → engine.crypto_engine e' = engine.crypto_engine e → engine.operatorID e' = engine.operatorID e →
  (∀ k, schema_key k → db_get k (engine.store e') = db_get k (engine.store e)) → engine_inv e' sm.
Proof.
  intros He Ec Eo Hf. split.
  - eapply holds_frame; [exact Hf|]. apply (ei_holds e sm He).
  - rewrite Ec, Eo. apply (ei_owner e sm He).
  - rewrite Ec, Eo. apply (ei_schema e sm He).
Qed.

(** What remains to show of a lease operation. *)
Lemma lease_step_inv T T' (e e' : engine.Engine) sm lm lm' :
  registry_inv T e sm lm → T ≤ T' → same_engine e e' →
  (∀ k, schema_key k → db_get k (engine.store e') = db_get k (engine.store e)) →
  lholds (engine.store e') lm' →
  (exclusive T' (engine.operatorID e) lm → exclusive T' (engine.operatorID e) lm') →
  registry_inv T' e' sm lm'.
Proof.
  intros He HT (Ec & Eo & Eh) Hf Hl Hx. split; [|done|by rewrite Eo; apply (ri_operator T e sm lm He)|].
  - eapply engine_inv_frame; [apply (ri_schemas T e sm lm He)|done..].
  - rewrite Eo. apply Hx. eapply exclusive_later; [exact HT|]. apply (ri_exclusive T e sm lm He).
Qed.

Lemma registry_inv_later T T' e sm lm : registry_inv T e sm lm → T ≤ T' → registry_inv T' e sm lm.
Proof. intros He HT. by apply (lease_step_inv T T' e e sm lm lm He HT); [| |apply (ri_leases T e sm lm He)|]. Qed.

Lemma schema_step_inv T (e e' : engine.Engine) sm sm' lm :
  registry_inv T e sm lm → engine_inv e' sm' → engine.operatorID e' = engine.operatorID e →
  (∀ k, ¬ schema_key k → db_get k (engine.store e') = db_get k (engine.store e)) → registry_inv T e' sm' lm.
Proof.
  intros He He' Eo Hf. split; [done| |rewrite Eo; apply (ri_operator T e sm lm He)|rewrite Eo; apply (ri_exclusive T e sm lm He)].
  eapply lholds_frame; [|apply (ri_leases T e sm lm He)]. intros k Hk. apply Hf. unfold schema_key. by rewrite Hk.
Qed.

Lemma change_status_operator status now rnd id e :
  engine.operatorID (engine.change_status status now rnd id e).1 = engine.operatorID e.
Proof.
  unfold engine.change_status. destruct (registry.GetSchema _ _); [|done]. case_bool_decide; [|done]. cbn [negb].
  destruct (crypto.SignSchema _ _ _); [|done]. by destruct (registry.UpdateSchema _ _) as [? [[]|]].
Qed.

Lemma register_operator now uuid rnd s e :
  engine.operatorID (engine.RegisterSchema now uuid rnd s e).1 = engine.operatorID e.
Proof.
  unfold engine.RegisterSchema. case_bool_decide; [|done]. cbn [negb]. destruct (models.Validate _) as [[]|]; [|done].
  destruct (crypto.SignSchema _ _ _); [|done]. by destruct (registry.CreateSchema _ _) as [? [[]|]].
Qed.

Lemma change_status_keeps T e sm lm status now rnd id :
  registry_inv T e sm lm → status ≠ models.SchemaStatusActive →
  ∃ sm', registry_inv T (engine.change_status status now rnd id e).1 sm' lm.
Proof.
  intros He Hst. pose proof (change_status_inv e sm status now rnd id (ri_schemas T e sm lm He) Hst) as Hr.
  pose proof (change_status_frame status now rnd id e) as Hf. pose proof (change_status_operator status now rnd id e) as Ho.
  destruct (engine.change_status _ _ _ _ _) as [e' [s'|]]; [|subst; eauto].
  destruct Hr as [Hr _]. eexists. by eapply schema_step_inv.
Qed.

Lemma allocate_keeps T T' e sm lm t uuid nonce rnd w ep dur :
  registry_inv T e sm lm → (∀ i, T ≤ t i ≤ T') →
  ∃ lm', registry_inv T' (AllocateLease t uuid nonce rnd w ep dur e).1 sm lm'.
Proof.
  intros He Ht. assert (T ≤ T') as HT by (pose proof (Ht 0%nat); lia).
  pose proof (allocate_spec t uuid nonce rnd w ep dur e lm (ri_leases T e sm lm He) (ri_operator T e sm lm He)) as Hr.
  pose proof (allocate_frame t uuid nonce rnd w ep dur e) as Hf.
  destruct (AllocateLease _ _ _ _ _ _ _ _) as [e' [[l tok]|err]].
  - destruct Hr as (wl & h & -> & _ & _ & -> & _ & _ & _ & Hs & Hl & Hc). eexists.
    eapply lease_step_inv; [done|done|done|done|exact Hl|]. intros Hx. apply exclusive_insert; [done|].
    intros key id' l' (_ & _ & _ & w & [= <-] & <-) Hl' _ Hh. apply (Hc id' l' Hl').
    eapply holder_later; [|exact Hh]. apply Ht.
  - destruct Hr as [-> _]. exists lm. by eapply registry_inv_later.
Qed.

Lemma renew_keeps T T' e sm lm t nonce rnd id ext :
  registry_inv T e sm lm → (∀ i, T ≤ t i ≤ T') →
  (∀ l, GetLease id (engine.store e) = Ok l → t 0%nat < EndTime l) →
  ∃ lm', registry_inv T' (RenewLease t nonce rnd id ext e).1 sm lm'.
Proof.
  intros He Ht Hend. assert (T ≤ T') as HT by (pose proof (Ht 0%nat); lia).
  pose proof (ri_leases T e sm lm He) as Hd. pose proof (renew_spec t nonce rnd id ext e lm Hd) as Hr.
  pose proof (renew_frame t nonce rnd id ext e) as Hf.
  destruct (RenewLease _ _ _ _ _ _) as [e' [[l' tok]|err]]; [|subst; exists lm; by eapply registry_inv_later].
  destruct Hr as (l & h & Hml & Hext & Hact & -> & _ & _ & Hs & Hl).
  assert (t 0%nat < EndTime l) as Hrun.
  { apply Hend. rewrite (get_lease_spec _ lm), Hml by done. rewrite bool_decide_false; [done|]. by apply (lh_lease _ lm Hd id l). }
  eexists. eapply lease_step_inv; [done|done|done|done|exact Hl|]. intros Hx. apply exclusive_insert; [done|].
  intros key id' k (Ho & _ & _ & Hk) Hk' Hne Hh. apply Hne.
  eapply (ri_exclusive T e sm lm He key id' id k l Hk' Hml); [by eapply holder_later|].
  split_and!; [exact Ho|exact Hact| |exact Hk]. pose proof (Ht 0%nat). lia.
Qed.

Lemma revoke_keeps T T' e sm lm t id :
  registry_inv T e sm lm → (∀ i, T ≤ t i ≤ T') → ∃ lm', registry_inv T' (RevokeLease t id e).1 sm lm'.
Proof.
  intros He Ht. assert (T ≤ T') as HT by (pose proof (Ht 0%nat); lia).
  pose proof (revoke_spec t id e lm (ri_leases T e sm lm He)) as Hr. pose proof (revoke_frame t id e) as Hf.
  destruct (RevokeLease _ _ _) as [e' [[]|err]]; [|subst; exists lm; by eapply registry_inv_later].
  destruct Hr as (l & Hml & _ & Hs & Hl). eexists. eapply lease_step_inv; [done|done|done|done|exact Hl|].
  intros Hx. apply exclusive_insert; [done|]. by intros key id' l' (_ & ? & _).
Qed.

Lemma expire_keeps T T' e sm lm t :
  registry_inv T e sm lm → (∀ i, T ≤ t i ≤ T') → ∃ lm', registry_inv T' (ExpireLeases t e).1 sm lm'.
Proof.
  intros He Ht. assert (T ≤ T') as HT by (pose proof (Ht 0%nat); lia). pose proof (expire_frame t e) as Hf.
  destruct (expire_spec t e lm (ri_leases T e sm lm He) (ri_operator T e sm lm He)) as (n & e' & lm' & E & Hs & Hl & Hm).
  rewrite E in Hf |- *. exists lm'. eapply lease_step_inv; [done|done|done|done|exact Hl|].
  intros Hx. apply (exclusive_shrink _ _ lm lm' Hx). intros id l key Hl' (_ & Hact & _).
  specialize (Hm id). destruct (lm !! id) as [l0|]; [|congruence]. case_bool_decide; [|congruence].
  destruct Hm as [u Hm]. rewrite Hl' in Hm. injection Hm as ->. done.
Qed.

Lemma commit_keeps T T' e sm lm t rnd :
  registry_inv T e sm lm → (∀ i, T ≤ t i ≤ T') →
  registry_inv T' (commitments.CommitMerkleTree t rnd e).1 sm lm.
Proof.
  intros He Ht. assert (T ≤ T') as HT by (pose proof (Ht 0%nat); lia). pose proof (commit_frame t rnd e) as Hf.
  assert (engine.crypto_engine (commitments.CommitMerkleTree t rnd e).1 = engine.crypto_engine e ∧
    engine.operatorID (commitments.CommitMerkleTree t rnd e).1 = engine.operatorID e) as [Ec Eo].
  { unfold commitments.CommitMerkleTree. destruct (ListLeases _ _); [|done]. destruct (merkle.BuildMerkleTree _); [|done].
    destruct (commitments.SignMerkleCommitment _ _ _ _ _); [|done]. by destruct (commitments.SaveCommitment _ _) as [? [[]|]]. }
  split.
  - eapply engine_inv_frame; [apply (ri_schemas T e sm lm He)|done|done|]. intros k Hk. apply Hf. by left.
  - eapply lholds_frame; [|apply (ri_leases T e sm lm He)]. intros k Hk. apply Hf. by right.
  - rewrite Eo. apply (ri_operator T e sm lm He).
  - rewrite Eo. eapply exclusive_later; [exact HT|]. apply (ri_exclusive T e sm lm He).
Qed.

(** Other keys of the database may change. *)
Lemma store_keeps T e sm lm d :
  registry_inv T e sm lm → (∀ k, schema_key k ∨ lease_key k → db_get k d = db_get k (engine.store e)) →
  registry_inv T (set_store e d) sm lm.
Proof.
  intros He Hf. apply (lease_step_inv T T e (set_store e d) sm lm lm He); [lia|done|by auto| |done].
  eapply lholds_frame; [|apply (ri_leases T e sm lm He)]. auto.
Qed.

Lemma registry_reachable_inv T e : registry_reachable T e → ∃ sm lm, registry_inv T e sm lm.
Proof.
  induction 1 as [T d key op height Hd Hl Hop|T e now uuid rnd s _ (sm & lm & He)|T e now rnd id _ (sm & lm & He)
    |T e now rnd id _ (sm & lm & He)|T T' e t uuid nonce rnd w ep dur _ (sm & lm & He) Ht
    |T T' e t nonce rnd id ext _ (sm & lm & He) Ht Hend|T T' e t id _ (sm & lm & He) Ht|T T' e t _ (sm & lm & He) Ht
    |T T' e t rnd _ (sm & lm & He) Ht|T e ep _ (sm & lm & He)|T e op _ (sm & lm & He)|T e c _ (sm & lm & He)
    |T e a _ (sm & lm & He)].
  - exists ∅, ∅. split; [|done|done|]; [|intros key' id id' l l' Hml; by rewrite lookup_empty in Hml].
    split; [done|done|]. intros id s. by rewrite lookup_empty.
  - pose proof (register_inv e sm now uuid rnd s (ri_schemas T e sm lm He)) as Hr.
    pose proof (register_frame now uuid rnd s e) as Hf. pose proof (register_operator now uuid rnd s e) as Ho.
    destruct (engine.RegisterSchema _ _ _ _ _) as [e' [s'|]]; [|subst; eauto].
    destruct Hr as [Hr _]. eexists _, lm. by eapply schema_step_inv.
  - destruct (change_status_keeps T e sm lm models.SchemaStatusDeprecated now rnd id He) as [sm' ?]; [done|eauto].
  - destruct (change_status_keeps T e sm lm models.SchemaStatusRevoked now rnd id He) as [sm' ?]; [done|eauto].
  - destruct (allocate_keeps T T' e sm lm t uuid nonce rnd w ep dur He Ht) as [lm' ?]. eauto.
  - destruct (renew_keeps T T' e sm lm t nonce rnd id ext He Ht Hend) as [lm' ?]. eauto.
  - destruct (revoke_keeps T T' e sm lm t id He Ht) as [lm' ?]. eauto.
  - destruct (expire_keeps T T' e sm lm t He Ht) as [lm' ?]. eauto.
  - exists sm, lm. by eapply commit_keeps.
  - exists sm, lm. apply store_keeps; [done|]. intros k Hk. apply create_row_frame; [by left|done].
  - exists sm, lm. apply store_keeps; [done|]. intros k Hk. apply create_row_frame; [by right|done].
  - exists sm, lm. apply store_keeps; [done|]. intros k Hk. by apply save_frame.
  - exists sm, lm. apply store_keeps; [done|]. intros k Hk. by apply audit_frame.
Qed.

(** ** Schemas *)

(** C11: The schema registry's invariant.  However schemas were registered, deprecated and
    revoked, between whatever other operations of the registry: every schema the registry
    lists is the operator's own, passes validation and carries a signature that verifies
    under the operator's public key; ids are unique; each OAM mode has at most one active
    schema; and the query for the active schema of a mode, which reads the index and not
    the schemas, returns exactly that schema, or reports that there is none. *)
Theorem schema_registry_invariant (T : Z) (e : engine.Engine) :
  registry_reachable T e →
  (∀ s, listed e s →
     models.OperatorID s = engine.operatorID e ∧
     engine.VerifySchema s (crypto.GetPublicKey (engine.crypto_engine e)) = Ok ()) ∧
  NoDup (models.ID <$>
    registry.ListSchemas (registry.mkFilter [] None models.SchemaStatusUnspecified []) (engine.store e)) ∧
  (∀ s s', listed e s → listed e s' → models.Status s = models.SchemaStatusActive →
     models.Status s' = models.SchemaStatusActive → models.OamMode s = models.OamMode s' → s = s') ∧
  (∀ op oam, op ≠ [] →
     match registry.GetActiveSchemaForOam op oam (engine.store e) with
     | Ok s => listed e s ∧ active s op oam
     | Err err => err = registry.NoActive op oam ∧ ∀ s, listed e s → ¬ active s op oam
     end).
Proof. intros (sm & lm & He)%registry_reachable_inv. apply (engine_inv_facts e sm), He. Qed.

(** C23: Registration, on every path.  On a reachable registry whose signer works, a schema
    is refused, with nothing stored, exactly when it names another operator, when it is
    not valid once operator, id, status and times are filled in, when its id is taken, or
    when it is active and its OAM mode has an active schema, which the error names.
    Otherwise the registry returns the filled-in schema with a signature that verifies,
    lists it from then on, and lists all others as before. *)
Theorem register_schema_spec (T : Z) (e : engine.Engine) (now rnd : Z) (uuid : text) (s : models.ApplicationSchema) :
  registry_reachable T e → (∀ sk h, is_Some (ec_sign rnd sk h)) →
  let s1 := engine.fill_in e now uuid s in
  let '(e', r) := engine.RegisterSchema now uuid rnd s e in
  match r with
  | Ok s' =>
      models.OperatorID s' = engine.operatorID e ∧ models.Validate s1 = Ok () ∧
      (∃ sig, s' = engine.with_signature s1 sig) ∧
      engine.VerifySchema s' (crypto.GetPublicKey (engine.crypto_engine e)) = Ok () ∧
      (∀ x, listed e x → models.ID x ≠ models.ID s') ∧
      (∀ x, listed e' x ↔ x = s' ∨ listed e x) ∧
      (models.Status s' = models.SchemaStatusActive →
       ∀ x, listed e x → ¬ active x (models.OperatorID s') (models.OamMode s'))
  | Err (engine.WrongOperator op own) =>
      e' = e ∧ op = models.OperatorID s1 ∧ own = engine.operatorID e ∧ op ≠ own
  | Err (engine.InvalidSchema err) => e' = e ∧ models.Validate s1 = Err err
  | Err (engine.StoreFailed (registry.SchemaExists id)) =>
      e' = e ∧ id = models.ID s1 ∧ ∃ x, listed e x ∧ models.ID x = id
  | Err (engine.StoreFailed (registry.AlreadyActive op ex oam)) =>
      e' = e ∧ models.Status s1 = models.SchemaStatusActive ∧ oam = models.OamMode s1 ∧
      ∃ x, listed e x ∧ models.ID x = ex ∧ active x op oam
  | Err _ => False
  end.
Proof. intros (sm & lm & He)%registry_reachable_inv Hs. apply (register_facts e sm); [apply He|done]. Qed.

(** ** Leases *)

(** The leases of the registry: what it lists without a filter. *)
Definition lease_listed (e : engine.Engine) (l : Lease) : Prop :=
  ∃ ls, ListLeases (mkLeaseFilter [] [] LeaseStatusUnspecified) (engine.store e) = Ok ls ∧ l ∈ ls.

Lemma lease_listed_stored e m l : lholds (engine.store e) m → lease_listed e l ↔ m !! ID l = Some l.
Proof.
  intros Hd. unfold lease_listed.
  destruct (list_leases_spec _ m (mkLeaseFilter [] [] LeaseStatusUnspecified) Hd) as (ls & -> & Hls). split.
  - intros (ls' & [= <-] & Hl). by apply Hls in Hl as [? _].
  - intros Hm. exists ls. split; [done|]. by apply Hls.
Qed.

(** C10: No wavelength is allocated twice.  After any operations of the registry, in which
    leases were renewed only while they ran, and at any time from then on: of the leases
    of the operator, at most one is active, has not reached its end and is for a
    wavelength of a given key. *)
Theorem no_double_allocation (T t : Z) (e : engine.Engine) (key : text) (a b : Lease) :
  registry_reachable T e → T ≤ t → lease_listed e a → lease_listed e b →
  holder (engine.operatorID e) t key a → holder (engine.operatorID e) t key b → a = b.
Proof.
  intros (sm & lm & He)%registry_reachable_inv HT Ha Hb Hka Hkb. pose proof (ri_leases T e sm lm He) as Hd.
  apply (lease_listed_stored e lm _ Hd) in Ha, Hb.
  assert (ID a = ID b) as E.
  { eapply (ri_exclusive T e sm lm He key); [done|done|by eapply holder_later..]. }
  rewrite E, Hb in Ha. by injection Ha.
Qed.


End registry.

(** ** Witnesses *)

Module LedgerExamples.
Import ToyStore ToyCrypto.

Definition bytes_of (j : json) : option bytes :=
  match j with JNull => Some [] | JStr b => Some b | _ => None end.

Definition wavelength_of (j : json) : option (option Wavelength) :=
  match j with
  | JNull => Some None
  | JObj [(_, JFloat l); (_, JNum c); (_, JNum b); (_, JFloat g)] => Some (Some (mkWavelength l c b g))
  | _ => None
  end.

Definition lease_of (j : json) : option Lease :=
  match j with
  | JObj [(_, JStr id); (_, w); (_, JStr ep); (_, JStr op); (_, JNum st); (_, JStr [s]); (_, JStr [e]);
          (_, JStr [c]); (_, JStr [u]); (_, th); (_, ph)] =>
      w ← wavelength_of w; th ← bytes_of th; ph ← bytes_of ph;
      Some (mkLease id w ep op st s e c u th ph)
  | _ => None
  end.

Definition commitment_of (j : json) : option MerkleCommitment :=
  match j with
  | JObj [(_, JStr op); (_, root); (_, JStr [t]); (_, sig); (_, JNum n); (_, JNum h)] =>
      root ← bytes_of root; sig ← bytes_of sig; Some (mkCommitment op root t sig n h)
  | _ => None
  end.

#[export] Instance toy_lease_json : GoLeaseJson := {| go_unmarshal_lease t := parse t ≫= lease_of |}.

#[export] Instance toy_commit_json : GoCommitJson := {| go_unmarshal_commitment t := parse t ≫= commitment_of |}.

Lemma bytes_of_json b : bytes_of (bytes_json b) = Some b.
Proof. unfold bytes_json. by case_bool_decide; subst. Qed.

#[export] Instance toy_lease_json_spec : GoLeaseJsonSpec.
Proof.
  constructor. intros l s. unfold marshal_lease. destruct (wavelength_ok _); [|done]. intros [= <-].
  cbn [go_unmarshal_lease toy_lease_json go_render toy_json]. rewrite parse_render.
  destruct l as [id w ep op st s e c u th ph]. cbn [mbind option_bind lease_json lease_of rfc3339 toy_json].
  cbn [ID wavelength EndpointID OperatorID Status StartTime EndTime CreatedAt UpdatedAt TokenHash ParentHash].
  by destruct w as [[]|]; cbn [wavelength_json wavelength_of mbind option_bind]; rewrite !bytes_of_json.
Qed.

#[export] Instance toy_commit_json_spec : GoCommitJsonSpec.
Proof.
  constructor. intros [op root t sig n h]. cbn [go_unmarshal_commitment toy_commit_json go_render toy_json].
  rewrite parse_render. cbn [mbind option_bind commitment_json commitment_of rfc3339 toy_json].
  cbn [c_OperatorID c_RootHash c_Timestamp c_Signature c_LeaseCount c_BlockHeight]. by rewrite !bytes_of_json.
Qed.

Lemma empty_lholds : lholds (∅ : db) ∅.
Proof. split; [done|]. intros id l. by rewrite lookup_empty. Qed.

Definition open_engine : engine.Engine := FlrEngine.Examples.open_engine.

Lemma open_reachable T : registry_reachable T open_engine.
Proof. apply (reg_open T (∅ : db)); [apply empty_holds|apply empty_lholds|discriminate]. Defined.

Definition e_tick : engine.Engine :=
  (engine.RegisterSchema 9 (lit "u-1") 0 FlrModels.tick_schema open_engine).1.

Lemma schema_registry_invariant_witness :
  registry_reachable 0 e_tick ∧
  match registry.GetActiveSchemaForOam (lit "op-alice") 3 (engine.store e_tick) with
  | Ok s => listed e_tick s ∧ active s (lit "op-alice") 3
  | Err err =>
      err = registry.NoActive (lit "op-alice") 3 ∧ ∀ s, listed e_tick s → ¬ active s (lit "op-alice") 3
  end.
Proof.
  assert (registry_reachable 0 e_tick) as Hr by (apply reg_register, open_reachable). split; [exact Hr|].
  destruct (schema_registry_invariant 0 e_tick Hr) as (_ & _ & _ & Hq). apply Hq. discriminate.
Defined.

Lemma register_schema_spec_witness :
  ∃ e' s', engine.RegisterSchema 9 (lit "u-1") 0 FlrModels.tick_schema open_engine = (e', Ok s') ∧ listed e' s'.
Proof.
  pose proof (register_schema_spec 0 open_engine 9 0 (lit "u-1") FlrModels.tick_schema (open_reachable 0)
    ltac:(intros; by eexists)) as Hr.
  assert (∃ s', (engine.RegisterSchema 9 (lit "u-1") 0 FlrModels.tick_schema open_engine).2 = Ok s') as [s' Es]
    by (eexists; vm_compute; reflexivity).
  destruct (engine.RegisterSchema 9 (lit "u-1") 0 FlrModels.tick_schema open_engine) as [e' r]. cbn in Es. subst r.
  exists e', s'. split; [reflexivity|]. destruct Hr as (_ & _ & _ & _ & _ & Hl & _). apply Hl. by left.
Defined.

Definition c35 : Wavelength := mkWavelength (f64.lit 154923 100) 35 BandCBand (f64.of_Z 50).

Example c35_key : ToKey c35 = lit "1549.23:35:C_BAND:50.0".
Proof. vm_compute. reflexivity. Qed.

Definition allocate (now : Z) (id : String.string) (dur : Z) (e : engine.Engine) :=
  AllocateLease (λ _, now) (lit id) [1] 0 (Some c35) (lit "ep-1") dur e.

Definition e1 : engine.Engine := (allocate 0 "l-1" 10 open_engine).1.

Lemma no_double_allocation_witness :
  registry_reachable 0 e1 ∧
  ∀ a b, lease_listed e1 a → lease_listed e1 b →
    holder (lit "op-alice") 5 (ToKey c35) a → holder (lit "op-alice") 5 (ToKey c35) b → a = b.
Proof.
  assert (registry_reachable 0 e1) as Hr by (apply (reg_allocate 0 0); [apply open_reachable|intros; lia]).
  split; [exact Hr|]. intros a b Ha Hb Hka Hkb.
  apply (no_double_allocation 0 5 e1 (ToKey c35) a b Hr); [lia|exact Ha|exact Hb|exact Hka|exact Hkb].
Defined.


(** The restriction on renewals is needed.  Renewal checks neither the end nor the other
    leases: a lease that ran out at 10, renewed at 25 after another got the wavelength at
    20, holds it again, beside the other. *)
Theorem renew_double_allocates :
  let e2 := (allocate 20 "l-2" 100 e1).1 in
  let e3 := (RenewLease (λ _, 25) [2] 0 (lit "l-1") 100 e2).1 in
  ∃ a b, GetLease (lit "l-1") (engine.store e3) = Ok a ∧ GetLease (lit "l-2") (engine.store e3) = Ok b ∧
    holder (lit "op-alice") 30 (ToKey c35) a ∧ holder (lit "op-alice") 30 (ToKey c35) b ∧ ID a ≠ ID b.
Proof.
  cbv zeta. eexists _, _. split; [vm_compute; reflexivity|]. split; [vm_compute; reflexivity|].
  split; [|split; [|discriminate]]; (split_and!; [reflexivity|reflexivity|vm_compute; reflexivity|]);
    eexists; (split; [reflexivity|vm_compute; reflexivity]).
Qed.

Definition commit_one := commitments.CommitMerkleTree (λ _, 1) 0 e1.

Lemma commit_merkle_tree_spec_witness :
  ∃ e' c, commit_one = (e', Ok c) ∧ commitments.GetLatestCommitment (lit "op-alice") (engine.store e') = Ok c ∧
    c_LeaseCount c = 1.
Proof.
  assert (∃ c, commit_one.2 = Ok c ∧ c_LeaseCount c = 1) as (c & Ec & Hn)
    by (eexists; split; [vm_compute; reflexivity|reflexivity]).
  destruct commit_one as [e' r] eqn:E. cbn in Ec. subst r. exists e', c. split; [reflexivity|]. split; [|exact Hn].
  apply (commit_merkle_tree_spec (λ _, 1) 0 e1 e' c E). reflexivity.
Defined.

(** A commitment to one lease is refused by the verifier. *)
Theorem commitment_with_lease_refused :
  ∃ c, commit_one.2 = Ok c ∧
    commitments.VerifyMerkleCommitment c (crypto.GetPublicKey (engine.crypto_engine e1)) =
    Err commitments.SignatureInvalid.
Proof. eexists. split; vm_compute; reflexivity. Qed.

Lemma merkle_membership_witness :
  ∃ l t proof, merkle.BuildMerkleTree [l] = Some t ∧
    merkle.VerifyMerkleProof (merkle.GetLeaseHash l) (Hash t) proof = true.
Proof.
  set (l := mkLease (lit "l-1") (Some c35) (lit "ep") (lit "op") 1 0 10 0 0 [] []).
  destruct (merkle_membership [l] ltac:(discriminate)) as (t & k & E & Hc & _).
  destruct (Hc l ltac:(by left)) as (proof & _ & _ & Hv). exists l, t, proof. split; [exact E|exact Hv].
Defined.
End LedgerExamples.
