(* ===== verification/FlrConflict.v ===== *)
(** * flr: the conflict engine

    Models [src/flr/internal/bitweave/adapter.go]: the engine that indexes leases by the
    attributes of their wavelength and operator, over the bit-woven index ([Bitweave]).
    Its answers are compared with the linear check of the registry ([FlrLease]), which it
    is meant to replace.  The mutex is held over whole operations. *)

From stdpp Require Import gmap.
From S2P Require Import Prelude Float FlrModels FlrStore FlrEngine FlrLease BitPlane Bitweave.
Local Open Scope Z_scope.

(** ** The engine *)

Record ConflictEngine : Type := mkConflictEngine {
  index : LeaseIndex;
  slots : gmap text nat;
}.

Definition NewConflictEngine : ConflictEngine := mkConflictEngine NewLeaseIndex ∅.

Definition leaseChannelNum (l : leases.Lease) : Z :=
  match leases.wavelength l with None => 0 | Some w => wrap 32 (leases.ChannelNum w) end.

Definition leaseAwgID (l : leases.Lease) : Z :=
  match leases.wavelength l with None => 0 | Some w => wrap 16 (leases.Band w) end.

Definition leaseAwgPort (l : leases.Lease) : Z :=
  match leases.wavelength l with None => 0 | Some w => wrap 16 (leases.ChannelNum w) end.

(** A hash of the operator's name, over its characters. *)
Definition leaseTenantID (l : leases.Lease) : Z :=
  if bool_decide (leases.OperatorID l = []) then 0
  else fold_left (λ h c, wrap 16 (h * 31 + wrap 16 c)) (leases.OperatorID l) 0.

Definition leaseExclusive (l : leases.Lease) : bool := true.

(** The arguments of [Insert] and [CheckConflicts]. *)
Definition lease_attrs (l : leases.Lease) : Attrs :=
  mkAttrs (leaseChannelNum l) (leaseAwgID l) (leaseTenantID l) (leaseAwgPort l) (leaseExclusive l).

(** [false]: the index is full. *)
Definition IndexLease (l : leases.Lease) (ce : ConflictEngine) : ConflictEngine * bool :=
  match slots ce !! leases.ID l with
  | Some _ => (ce, true)
  | None =>
      match Insert (index ce) (leases.ID l) (lease_attrs l) with
      | None => (ce, false)
      | Some (idx, slot) => (mkConflictEngine idx (<[leases.ID l := slot]> (slots ce)), true)
      end
  end.

Definition RemoveLease (leaseID : text) (ce : ConflictEngine) : ConflictEngine :=
  match slots ce !! leaseID with
  | None => ce
  | Some slot => mkConflictEngine (Remove (index ce) (Z.of_nat slot)) (delete leaseID (slots ce))
  end.

Definition CheckLeaseConflicts (proposed : leases.Lease) (renewLeaseID : text) (ce : ConflictEngine) : list Conflict :=
  let excludeSlot :=
    if bool_decide (renewLeaseID = []) then -1
    else match slots ce !! renewLeaseID with Some s => Z.of_nat s | None => -1 end in
  CheckConflicts (index ce) (lease_attrs proposed) excludeSlot.

(** The loop of [RebuildFrom]: a lease listed twice takes two slots. *)
Fixpoint rebuild (ls : list leases.Lease) (ce : ConflictEngine) : ConflictEngine * bool :=
  match ls with
  | [] => (ce, true)
  | l :: ls =>
      match Insert (index ce) (leases.ID l) (lease_attrs l) with
      | None => (ce, false)
      | Some (idx, slot) => rebuild ls (mkConflictEngine idx (<[leases.ID l := slot]> (slots ce)))
      end
  end.

Definition RebuildFrom (ls : list leases.Lease) (ce : ConflictEngine) : ConflictEngine * bool :=
  rebuild ls NewConflictEngine.

Definition LeaseCount (ce : ConflictEngine) : nat := Count (index ce).

(** ** What the engine holds *)

Lemma lease_attrs_ok l : Attrs_ok (lease_attrs l).
Proof.
  assert (∀ w z, 0 ≤ w → in_uint w (wrap w z)) as Hw by (intros; by apply wrap_range).
  assert (∀ w, 0 < w → in_uint w 0) as H0 by (intros; unfold in_uint; pose proof (Z.pow_pos_nonneg 2 w); lia).
  unfold lease_attrs, leaseChannelNum, leaseAwgID, leaseAwgPort, leaseTenantID.
  refine (conj _ (conj _ (conj _ _))); cbn [at_channel at_awg at_tenant at_port].
  1,2,4: destruct (leases.wavelength l); [apply Hw|apply H0]; lia.
  case_bool_decide; [apply H0; lia|].
  assert (∀ s h, in_uint 16 h → in_uint 16 (fold_left (λ h c, wrap 16 (h * 31 + wrap 16 c)) s h)) as Hf
    by (induction s as [|c s IH]; intros h Hh; [done|]; apply IH, Hw; lia).
  apply Hf, H0. lia.
Qed.

(** Its slots hold the leases [m], each once, and the map of slots points at them. *)
Record indexes (ce : ConflictEngine) (sl : list (option entry)) (m : gmap text leases.Lease) : Prop := {
  ix_slots : represents (index ce) sl;
  ix_map id k : slots ce !! id = Some k ↔ ∃ a, sl !! k = Some (Some (id, a));
  ix_lease id a : (∃ k, sl !! k = Some (Some (id, a))) ↔ ∃ l, m !! id = Some l ∧ a = lease_attrs l;
}.

Lemma new_indexes : indexes NewConflictEngine [] ∅.
Proof. split; [apply new_represents|..]; cbn; setoid_rewrite lookup_empty; naive_solver. Qed.

Lemma indexed_slot ce sl m id : indexes ce sl m → is_Some (slots ce !! id) ↔ is_Some (m !! id).
Proof.
  intros Hi. split.
  - intros [k (a & Ha)%(ix_map ce sl m Hi)].
    destruct (proj1 (ix_lease ce sl m Hi id a) (ex_intro _ k Ha)) as (l & -> & _). by eexists.
  - intros [l Hl]. destruct (proj2 (ix_lease ce sl m Hi id (lease_attrs l))) as [k Hk]; [by exists l|].
    exists k. apply (ix_map ce sl m Hi). by eexists.
Qed.

Lemma index_indexes ce sl m l :
  indexes ce sl m →
  match IndexLease l ce with
  | (ce', true) =>
      if decide (is_Some (m !! leases.ID l)) then ce' = ce
      else indexes ce' (sl ++ [Some (leases.ID l, lease_attrs l)]) (<[leases.ID l := l]> m)
  | (ce', false) => ce' = ce ∧ m !! leases.ID l = None ∧ LeaseCount ce = MaxLeases
  end.
Proof.
  intros Hi. unfold IndexLease. pose proof (indexed_slot ce sl m (leases.ID l) Hi) as Hin.
  destruct (slots ce !! leases.ID l) as [k|] eqn:Ek; [by rewrite decide_True by (apply Hin; by eexists)|].
  assert (m !! leases.ID l = None) as Hm by (apply eq_None_not_Some; rewrite <- Hin; by intros [? ?]).
  pose proof (ix_slots ce sl m Hi) as Hr. pose proof (rp_max _ _ Hr).
  destruct (decide (length sl < MaxLeases)%nat) as [Hlt|Hge].
  - destruct (bw_insert_represents _ sl (leases.ID l) (lease_attrs l) Hr (lease_attrs_ok l) Hlt) as (idx' & -> & Hr').
    rewrite decide_False by (rewrite Hm; by intros [? ?]). split; [done| |]; cbn [slots].
    + intros id k. rewrite lookup_insert_Some, (ix_map ce sl m Hi). setoid_rewrite lookup_app_Some.
      setoid_rewrite list_lookup_singleton_Some. split; [|].
      * intros [[<- <-]|[Hne [a Ha]]]; [|by exists a; left]. eexists. right. split; [done|]. split; [lia|done].
      * intros [a [Ha|(Hk & E & [= <- <-])]]; [|left; split; [done|lia]].
        right. split; [|by exists a]. intros <-.
        assert (slots ce !! leases.ID l = Some k) as Ek' by (apply (ix_map ce sl m Hi); by exists a). congruence.
    + intros id a. setoid_rewrite lookup_app_Some. setoid_rewrite list_lookup_singleton_Some.
      setoid_rewrite lookup_insert_Some. split.
      * intros [k [Ha|(_ & _ & [= <- <-])]]; [|by exists l; split; [left|]].
        destruct (proj1 (ix_lease ce sl m Hi id a) (ex_intro _ k Ha)) as (l' & Hl' & ->). exists l'. split; [|done].
        right. split; [|done]. congruence.
      * intros (l' & [[<- <-]|[Hne Hl']] & ->); [exists (length sl); right; split_and!; [done|lia|done]|].
        destruct (proj2 (ix_lease ce sl m Hi id (lease_attrs l'))) as [k Hk]; [by exists l'|]. exists k. by left.
  - rewrite (insert_full _ sl) by (done || lia). split_and!; [done|done|].
    unfold LeaseCount. rewrite (rp_count _ _ Hr). lia.
Qed.

Lemma remove_indexes ce sl m id :
  indexes ce sl m →
  ∃ sl', indexes (RemoveLease id ce) sl' (delete id m) ∧ length sl' = length sl.
Proof.
  intros Hi. unfold RemoveLease. pose proof (indexed_slot ce sl m id Hi) as Hin.
  destruct (slots ce !! id) as [k|] eqn:Ek.
  2: { exists sl. rewrite delete_id; [done|]. apply eq_None_not_Some. rewrite <- Hin. by intros [? ?]. }
  pose proof (proj1 (ix_map ce sl m Hi id k) Ek) as [a Ha]. pose proof (lookup_lt_Some _ _ _ Ha) as Hk.
  exists (<[k := None]> sl). split; [|by rewrite length_insert].
  pose proof (remove_represents (index ce) sl (Z.of_nat k) (ix_slots ce sl m Hi)) as Hr.
  rewrite decide_True, Nat2Z.id in Hr by lia.
  assert (∀ j x, <[k := None]> sl !! j = Some (Some x) ↔ j ≠ k ∧ sl !! j = Some (Some x)) as Hsl.
  { intros j x. rewrite list_lookup_insert_Some. naive_solver. }
  assert (∀ j b, sl !! j = Some (Some (id, b)) → j = k) as Huniq.
  { intros j b Hj. assert (slots ce !! id = Some j) as E by (apply (ix_map ce sl m Hi); by exists b). congruence. }
  split; [done| |]; cbn [slots].
  - intros id' j. rewrite lookup_delete_Some, (ix_map ce sl m Hi). setoid_rewrite Hsl. split.
    + intros [Hne [b Hb]]. exists b. split; [|done]. intros ->. congruence.
    + intros [b [Hj Hb]]. split; [|by exists b]. intros <-. by apply Hj, (Huniq j b).
  - intros id' b. setoid_rewrite Hsl. setoid_rewrite lookup_delete_Some. split.
    + intros [j [Hj Hb]]. destruct (proj1 (ix_lease ce sl m Hi id' b) (ex_intro _ j Hb)) as (l & Hl & ->).
      exists l. split; [|done]. split; [|done]. intros <-. by apply Hj, (Huniq j _ Hb).
    + intros (l & [Hne Hl] & ->). destruct (proj2 (ix_lease ce sl m Hi id' (lease_attrs l))) as [j Hj]; [by exists l|].
      exists j. split; [|done]. intros ->. congruence.
Qed.

(** The conflicts a walk reports. *)
Lemma elem_of_scan sl a ex t id k :
  (length sl ≤ MaxLeases)%nat →
  mkConflict t id k ∈ scan sl a ex ↔
  ∃ e, sl !! k = Some (Some (id, e)) ∧ collides t e a = true ∧ Z.of_nat k ≠ ex.
Proof.
  intros Hmax. unfold scan.
  assert (∀ t', (scan_slot sl a ex t' k = Some (mkConflict t id k)) ↔
    t' = t ∧ ∃ e, sl !! k = Some (Some (id, e)) ∧ collides t e a = true ∧ Z.of_nat k ≠ ex) as Hslot.
  { intros t'. unfold scan_slot. destruct (sl !! k) as [[[id' e]|]|] eqn:E; cbn; [|naive_solver..].
    destruct (collides t' e a) eqn:Ec, (Z.eqb_spec (Z.of_nat k) ex); cbn [andb negb]; naive_solver congruence. }
  rewrite list_elem_of_In, in_concat. setoid_rewrite <- list_elem_of_In. setoid_rewrite list_elem_of_fmap. split.
  - intros (x & (w & -> & Hw) & Hx). rewrite list_elem_of_In, in_concat in Hx. setoid_rewrite <- list_elem_of_In in Hx.
    destruct Hx as (y & (t' & -> & Ht)%list_elem_of_fmap & Hy). apply list_elem_of_omap in Hy as (k' & Hk' & E).
    assert (k' = k) as ->.
    { unfold scan_slot in E. destruct (mjoin (sl !! k')) as [[]|]; [|done]. destruct (_ && _); [|done]. by injection E. }
    by apply Hslot in E as [_ ?].
  - intros He. pose proof He as (e & Hk & _). apply lookup_lt_Some in Hk. eexists. split.
    + exists (k / 64)%nat. split; [done|]. apply elem_of_seq. lia.
    + rewrite list_elem_of_In, in_concat. setoid_rewrite <- list_elem_of_In. eexists. split.
      * apply list_elem_of_fmap. exists t. split; [done|]. destruct t; set_solver.
      * apply list_elem_of_omap. exists k. split; [apply elem_of_seq; lia|]. by apply Hslot.
Qed.

(** ** Exactness *)

Inductive EngineOp : Type :=
| OpIndex (l : leases.Lease)
| OpDrop (id : text).

Definition run_op (ce : ConflictEngine) (op : EngineOp) : ConflictEngine :=
  match op with OpIndex l => (IndexLease l ce).1 | OpDrop id => RemoveLease id ce end.

Definition run_ops (ops : list EngineOp) : ConflictEngine := fold_left run_op ops NewConflictEngine.

(** The leases that are indexed: the first indexing of an id counts until it is dropped.
    Every indexing takes one of 1024 slots for good; without one the lease is left out. *)
Definition spec_run_op (s : gmap text leases.Lease * nat) (op : EngineOp) : gmap text leases.Lease * nat :=
  match op with
  | OpIndex l =>
      if decide (is_Some (s.1 !! leases.ID l)) then s
      else if decide (s.2 < MaxLeases)%nat then (<[leases.ID l := l]> s.1, S s.2) else s
  | OpDrop id => (delete id s.1, s.2)
  end.

Definition spec_run_ops (ops : list EngineOp) : gmap text leases.Lease * nat := fold_left spec_run_op ops (∅, 0%nat).

Lemma run_op_indexes ce sl s op :
  indexes ce sl s.1 → length sl = s.2 →
  ∃ sl', indexes (run_op ce op) sl' (spec_run_op s op).1 ∧ length sl' = (spec_run_op s op).2.
Proof.
  intros Hi Hl. destruct op as [l|id]; cbn [run_op spec_run_op].
  - pose proof (index_indexes ce sl s.1 l Hi) as Hx. pose proof (rp_count _ _ (ix_slots ce sl _ Hi)) as Hc.
    pose proof (rp_max _ _ (ix_slots ce sl _ Hi)) as Hm.
    destruct (IndexLease l ce) as [ce' [|]] eqn:E; cbn [fst].
    + case_decide; [subst; eauto|]. rewrite decide_True.
      * eexists. split; [exact Hx|]. rewrite length_app. cbn. lia.
      * destruct (decide (s.2 < MaxLeases)%nat); [done|]. exfalso.
        pose proof (ix_slots _ _ _ Hx) as Hr. pose proof (rp_max _ _ Hr) as Hm'. rewrite length_app in Hm'. cbn in Hm'. lia.
    + destruct Hx as (-> & Hn & Hfull). unfold LeaseCount in Hfull.
      rewrite decide_False by (rewrite Hn; by intros [? ?]). rewrite decide_False by lia. eauto.
  - destruct (remove_indexes ce sl s.1 id Hi) as (sl' & Hi' & Hl'). exists sl'. split; [done|]. cbn. lia.
Qed.

Lemma run_ops_indexes ops : ∃ sl, indexes (run_ops ops) sl (spec_run_ops ops).1.
Proof.
  unfold run_ops, spec_run_ops.
  assert (∀ ce sl s, indexes ce sl s.1 → length sl = s.2 →
    ∃ sl', indexes (fold_left run_op ops ce) sl' (fold_left spec_run_op ops s).1) as Hgen.
  { induction ops as [|op ops IH]; intros ce sl s Hi Hl; [by exists sl|]. cbn [fold_left].
    destruct (run_op_indexes ce sl s op Hi Hl) as (sl' & Hi' & Hl'). by eapply IH. }
  by apply (Hgen NewConflictEngine [] (∅, 0%nat)); [apply new_indexes|].
Qed.

(** Rebuilding from leases of different ids is indexing them one after the other. *)
Lemma rebuild_runs ls : ∀ ce, NoDup (leases.ID <$> ls) → (∀ l, l ∈ ls → slots ce !! leases.ID l = None) →
  (rebuild ls ce).2 = true → (rebuild ls ce).1 = fold_left run_op (OpIndex <$> ls) ce.
Proof.
  induction ls as [|l ls IH]; intros ce Hnd Hnew; [done|]. cbn [fmap list_fmap] in Hnd. apply NoDup_cons in Hnd as [Hl Hnd].
  cbn [rebuild fmap list_fmap fold_left run_op]. unfold IndexLease. rewrite (Hnew l) by (by left).
  destruct (Insert (index ce) (leases.ID l) (lease_attrs l)) as [[idx slot]|]; [|done]. cbn [fst]. apply IH; [done|].
  intros l' Hl'. cbn [slots]. rewrite lookup_insert_ne; [apply Hnew; by right|]. intros E. apply Hl. rewrite E.
  by apply list_elem_of_fmap_2.
Qed.

(** The conflict engine is exact.  After any leases were indexed and dropped, for any
    proposal: a conflict with a lease id is reported if and only if a lease is indexed
    under that id, is not the one being renewed, and collides with the proposal in the
    attributes taken from wavelength and operator. *)
Theorem conflict_engine_exact (ops : list EngineOp) (p : leases.Lease) (renew id : text) (t : ConflictType) :
  (∃ k, mkConflict t id k ∈ CheckLeaseConflicts p renew (run_ops ops)) ↔
  (renew = [] ∨ id ≠ renew) ∧
  ∃ l, (spec_run_ops ops).1 !! id = Some l ∧ collides t (lease_attrs l) (lease_attrs p) = true.
Proof.
  destruct (run_ops_indexes ops) as [sl Hi]. set (ce := run_ops ops) in *. set (m := (spec_run_ops ops).1) in *.
  pose proof (ix_slots ce sl m Hi) as Hr. unfold CheckLeaseConflicts. set (ex := if bool_decide _ then _ else _).
  rewrite (check_scan _ sl _ Hr (lease_attrs_ok p)).
  setoid_rewrite (λ k, elem_of_scan sl (lease_attrs p) ex t id k (rp_max _ _ Hr)).
  assert (∀ k e, sl !! k = Some (Some (id, e)) → Z.of_nat k ≠ ex ↔ renew = [] ∨ id ≠ renew) as Hex.
  { intros k e Hk. assert (slots ce !! id = Some k) as Ek by (apply (ix_map ce sl m Hi); by exists e).
    unfold ex. case_bool_decide as Hren; [split; [by left|lia]|].
    destruct (slots ce !! renew) as [j|] eqn:Ej.
    - split.
      + intros Hne. right. intros ->. rewrite Ek in Ej. injection Ej as ->. lia.
      + intros [?|Hne]; [done|]. intros E. apply Nat2Z.inj in E as ->.
        apply (ix_map ce sl m Hi) in Ej as [b Hb]. rewrite Hk in Hb. congruence.
    - split; [intros _; right; congruence|lia]. }
  split.
  - intros (k & e & Hk & Hc & Hne). split; [by apply (Hex k e)|].
    destruct (proj1 (ix_lease ce sl m Hi id e) (ex_intro _ k Hk)) as (l & Hl & ->). by exists l.
  - intros (Hren & l & Hl & Hc). destruct (proj2 (ix_lease ce sl m Hi id (lease_attrs l))) as [k Hk]; [by exists l|].
    exists k, (lease_attrs l). split_and!; [done|done|]. by apply (Hex k (lease_attrs l)).
Qed.

(** ** Against the linear check *)

Lemma fmt_fixed_no_colon d x : 58 ∉ fmt_fixed d x.
Proof.
  assert (∀ z, 58 ∉ show z) as Hshow.
  { intros z Hin. pose proof (show_decimal z) as Hd. rewrite Forall_forall in Hd. specialize (Hd 58 Hin).
    unfold decimal in Hd. lia. }
  assert (∀ s : bool, 58 ∉ (if s then lit "-" else [])) as Hsign by (intros []; vm_compute; set_solver).
  assert (∀ n, 58 ∉ show (n / 10 ^ Z.of_nat d) ++ lit "." ++
    replicate (d - length (show (n mod 10 ^ Z.of_nat d))) 48 ++ show (n mod 10 ^ Z.of_nat d)) as Hdig.
  { intros n. rewrite !elem_of_app. intros [?|[Hin|[[? _]%elem_of_replicate|?]]]; try done; [by eapply Hshow| |by eapply Hshow].
    revert Hin. vm_compute. set_solver. }
  destruct x as [s|s| |s m e]; cbn [fmt_fixed].
  - rewrite elem_of_app. intros [?|?]; [by eapply Hsign|by eapply Hdig].
  - destruct s; vm_compute; set_solver.
  - vm_compute; set_solver.
  - rewrite elem_of_app. intros [?|?]; [by eapply Hsign|by eapply Hdig].
Qed.

Lemma split_first_colon (a a' b b' : text) :
  58 ∉ a → 58 ∉ a' → a ++ lit ":" ++ b = a' ++ lit ":" ++ b' → a = a' ∧ b = b'.
Proof.
  change (lit ":") with [58]. revert a'. induction a as [|c a IH]; intros a' Ha Ha' E.
  - destruct a' as [|d a']; cbn in E; [by injection E as ->|]. injection E as E _. subst d. destruct Ha'. by left.
  - apply not_elem_of_cons in Ha as [Hc Ha]. destruct a' as [|d a']; cbn in E; [injection E as E _; by subst c|].
    apply not_elem_of_cons in Ha' as [Hd Ha']. injection E as -> E. destruct (IH a' Ha Ha' E) as [-> ->]. done.
Qed.

(** Equal keys: the same channel and, among the named bands, the same band. *)
Lemma key_determines w w' :
  leases.ToKey w = leases.ToKey w' →
  leases.ChannelNum w = leases.ChannelNum w' ∧ leases.Band_String (leases.Band w) = leases.Band_String (leases.Band w').
Proof.
  unfold leases.ToKey. intros E. apply split_first_colon in E as [_ E]; [|apply fmt_fixed_no_colon..].
  assert (∀ z, 58 ∉ show z) as Hshow.
  { intros z Hin. pose proof (show_decimal z) as Hd. rewrite Forall_forall in Hd. specialize (Hd 58 Hin).
    unfold decimal in Hd. lia. }
  apply split_first_colon in E as [Ec E]; [|apply Hshow..].
  assert (∀ b, 58 ∉ leases.Band_String b) as Hb.
  { intros b. unfold leases.Band_String. repeat case_match; vm_compute; set_solver. }
  apply split_first_colon in E as [Eb _]; [|apply Hb..]. split; [by apply show_inj|done].
Qed.

Definition named_band (w : leases.Wavelength) : Prop := 1 ≤ leases.Band w ≤ 3.

Lemma band_string_inj w w' :
  named_band w → named_band w' → leases.Band_String (leases.Band w) = leases.Band_String (leases.Band w') →
  leases.Band w = leases.Band w'.
Proof.
  unfold named_band. intros Hb Hb' E.
  assert (leases.Band w = 1 ∨ leases.Band w = 2 ∨ leases.Band w = 3) as H1 by lia.
  assert (leases.Band w' = 1 ∨ leases.Band w' = 2 ∨ leases.Band w' = 3) as H2 by lia.
  destruct H1 as [H1|[H1|H1]], H2 as [H2|[H2|H2]]; rewrite H1, H2 in *; vm_compute in E; congruence.
Qed.

(** The conflict engine misses nothing that the registry's own check finds.  When the
    check over a list of indexed leases names one as holding the proposal's wavelength at
    some time, and both wavelengths are of a named band, the conflict engine reports a
    wavelength collision with that lease, too.  (It also reports expired leases and other
    wavelengths of the same channel and band, which the check does not.) *)
Theorem conflict_engine_covers_check (ops : list EngineOp) (p l : leases.Lease) (w : leases.Wavelength)
    (now : Z) (renew : text) :
  (spec_run_ops ops).1 !! leases.ID l = Some l → leases.wavelength p = Some w →
  lease_engine.conflicts now (leases.ToKey w) renew l = true →
  named_band w → (∀ w', leases.wavelength l = Some w' → named_band w') →
  ∃ k, mkConflict LambdaCollision (leases.ID l) k ∈ CheckLeaseConflicts p renew (run_ops ops).
Proof.
  intros Hl Hp Hc Hb Hb'. destruct (run_ops_indexes ops) as [sl Hi].
  unfold lease_engine.conflicts in Hc. case_bool_decide as Hren; [done|].
  destruct (leases.wavelength l) as [w'|] eqn:Ew; [|done].
  apply andb_true_iff in Hc as [Hk%bool_decide_eq_true _]. apply key_determines in Hk as [Ech Eb].
  apply band_string_inj in Eb; [|by apply Hb'|done].
  pose proof (ix_slots _ sl _ Hi) as Hr. unfold CheckLeaseConflicts. set (ex := if bool_decide _ then _ else _).
  rewrite (check_scan _ sl _ Hr (lease_attrs_ok p)).
  setoid_rewrite (λ k, elem_of_scan sl (lease_attrs p) ex LambdaCollision (leases.ID l) k (rp_max _ _ Hr)).
  destruct (proj2 (ix_lease _ sl _ Hi (leases.ID l) (lease_attrs l))) as [k Hsl]; [by exists l|].
  exists k, (lease_attrs l). split_and!; [done| |].
  - cbn [collides lease_attrs at_channel at_awg at_exclusive leaseExclusive orb].
    unfold leaseChannelNum, leaseAwgID. rewrite Ew, Hp, Ech, Eb, !Z.eqb_refl. done.
  - assert (slots (run_ops ops) !! leases.ID l = Some k) as Ek by (apply (ix_map _ sl _ Hi); by eexists).
    unfold ex. case_bool_decide; [lia|]. destruct (slots (run_ops ops) !! renew) as [j|] eqn:Ej; [|lia].
    intros E. apply Nat2Z.inj in E as ->. apply (ix_map _ sl _ Hi) in Ej as [b Hj]. rewrite Hsl in Hj. congruence.
Qed.

Section examples.

Definition c35 (nm : Z) : leases.Wavelength := leases.mkWavelength (f64.lit nm 100) 35 1 (f64.of_Z 50).

Definition on (id : String.string) (nm end_ : Z) : leases.Lease :=
  leases.mkLease (lit id) (Some (c35 nm)) (lit "ep") (lit "op-alice") 1 0 end_ 0 0 [] [].

Lemma conflict_engine_covers_check_witness :
  ∃ k, mkConflict LambdaCollision (lit "l-1") k ∈
    CheckLeaseConflicts (on "l-2" 154923 100) [] (run_ops [OpIndex (on "l-1" 154923 50)]).
Proof.
  apply (conflict_engine_covers_check [OpIndex (on "l-1" 154923 50)] (on "l-2" 154923 100) (on "l-1" 154923 50)
    (c35 154923) 10 []).
  - vm_compute. reflexivity.
  - reflexivity.
  - vm_compute. reflexivity.
  - split; vm_compute; congruence.
  - intros w' [= <-]. split; vm_compute; congruence.
Defined.

(** An expired lease on another wavelength of the channel is a conflict for the engine and
    none for the registry's check. *)
Theorem conflict_engine_differs :
  lease_engine.conflicts 100 (leases.ToKey (c35 154923)) [] (on "l-1" 154900 50) = false ∧
  ∃ k, mkConflict LambdaCollision (lit "l-1") k ∈
    CheckLeaseConflicts (on "l-2" 154923 200) [] (run_ops [OpIndex (on "l-1" 154900 50)]).
Proof.
  split; [vm_compute; reflexivity|]. exists 0%nat.
  assert (CheckLeaseConflicts (on "l-2" 154923 200) [] (run_ops [OpIndex (on "l-1" 154900 50)]) =
    [mkConflict LambdaCollision (lit "l-1") 0; mkConflict AwgPortCollision (lit "l-1") 0]) as -> by (vm_compute; reflexivity).
  by left.
Qed.
End examples.
