(* ===== verification/FlrTime.v ===== *)
(** * flr: times as text

    The registry writes times in Go's [time.RFC3339Nano]: into JSON, into what it signs, and
    into the keys of the audit log ([src/flr/internal/registry/badger_store.go]), where the
    order of the texts decides what a query finds.  A time is its nanoseconds since the zero
    time, the first instant of the year 1.  This file has the format, that it can be read
    back, and how texts are ordered against times. *)

From S2P Require Import Prelude.
Local Open Scope Z_scope.

(** ** Order of texts

    Go compares strings, and the database its keys, byte by byte; on UTF-8 this is the order
    by code points. *)

Fixpoint text_cmp (a b : text) : comparison :=
  match a, b with
  | [], [] => Eq
  | [], _ :: _ => Lt
  | _ :: _, [] => Gt
  | x :: a, y :: b => match x ?= y with Eq => text_cmp a b | c => c end
  end.

Definition text_le (a b : text) : Prop := text_cmp a b ≠ Gt.

#[export] Instance text_le_dec : RelDecision text_le.
Proof. intros a b. unfold text_le. apply _. Defined.

Lemma text_cmp_refl a : text_cmp a a = Eq.
Proof. induction a as [|x a IH]; [done|]. cbn. by rewrite Z.compare_refl. Qed.

Lemma text_cmp_eq a : ∀ b, text_cmp a b = Eq → a = b.
Proof.
  induction a as [|x a IH]; intros [|y b]; cbn; try done.
  destruct (x ?= y) eqn:E; try done. apply Z.compare_eq in E. subst. intros Hc. by rewrite (IH b Hc).
Qed.

Lemma text_cmp_antisym a : ∀ b, text_cmp b a = CompOpp (text_cmp a b).
Proof.
  induction a as [|x a IH]; intros [|y b]; cbn; try done.
  rewrite (Z.compare_antisym x y), (IH b). by destruct (x ?= y).
Qed.

Lemma text_cmp_app a b : ∀ a' b', length a = length a' →
  text_cmp (a ++ b) (a' ++ b') = match text_cmp a a' with Eq => text_cmp b b' | c => c end.
Proof.
  induction a as [|x a IH]; intros [|y a'] b' Hl; cbn in *; try done.
  destruct (x ?= y); [|done..]. apply IH. lia.
Qed.

Lemma text_lt_trans a : ∀ b c, text_cmp a b = Lt → text_cmp b c = Lt → text_cmp a c = Lt.
Proof.
  induction a as [|x a IH]; intros [|y b] [|z c]; cbn; try done.
  destruct (Z.compare_spec x y) as [->|?|?], (Z.compare_spec y z) as [->|?|?]; try done;
    [apply IH|rewrite (proj2 (Z.compare_lt_iff x z)) by lia; done..].
Qed.

#[export] Instance text_le_trans : Transitive text_le.
Proof.
  intros a b c Hab Hbc. unfold text_le in *.
  destruct (text_cmp a b) eqn:E1, (text_cmp b c) eqn:E2; try done;
    repeat match goal with H : text_cmp _ _ = Eq |- _ => apply text_cmp_eq in H; subst end;
    rewrite ?text_cmp_refl, ?E1, ?E2; try done. by rewrite (text_lt_trans a b c).
Qed.

#[export] Instance text_le_total : Total text_le.
Proof. intros a b. unfold text_le. rewrite (text_cmp_antisym a b). destruct (text_cmp a b); cbn; auto. Qed.

(** ** Decimal fields *)

(** [w] digits, most significant first. *)
Fixpoint digits (w : nat) (n : Z) : text :=
  match w with O => [] | S w => digits w (n / 10) ++ [48 + n mod 10] end.

(** [appendInt(b, x, width)] of package [time]. *)
Definition appendInt (x : Z) (width : nat) : text :=
  if x <? 0 then 45 :: (if - x <? 10 ^ Z.of_nat width then digits width (- x) else show (- x))
  else if x <? 10 ^ Z.of_nat width then digits width x else show x.

Definition value (t : text) : Z := fold_left (λ n c, 10 * n + (c - 48)) t 0.

Lemma length_digits w : ∀ n, length (digits w n) = w.
Proof. induction w as [|w IH]; intros n; [done|]. cbn. rewrite length_app, IH. cbn. lia. Qed.

Lemma pow10_S w : 10 ^ Z.of_nat (S w) = 10 * 10 ^ Z.of_nat w.
Proof. rewrite Nat2Z.inj_succ, Z.pow_succ_r; lia. Qed.

Lemma div10_range w n : 0 ≤ n < 10 ^ Z.of_nat (S w) → 0 ≤ n / 10 < 10 ^ Z.of_nat w.
Proof. rewrite pow10_S. intros Hn. split; [apply Z.div_pos|apply Z.div_lt_upper_bound]; lia. Qed.

Lemma appendInt_digits w n : 0 ≤ n < 10 ^ Z.of_nat w → appendInt n w = digits w n.
Proof. intros Hn. unfold appendInt. by rewrite (proj2 (Z.ltb_ge n 0)), (proj2 (Z.ltb_lt _ _)) by lia. Qed.

Lemma value_digits w : ∀ n, 0 ≤ n < 10 ^ Z.of_nat w → value (digits w n) = n.
Proof.
  induction w as [|w IH]; intros n Hn; [cbn in *; lia|].
  unfold value in *. cbn [digits]. rewrite fold_left_app. cbn [fold_left]. rewrite IH by by apply div10_range.
  pose proof (Z.div_mod n 10). lia.
Qed.

(** Comparison in two steps: by [a], then by [b] below [B]. *)
Lemma compare_split B a b a' b' : 0 ≤ b < B → 0 ≤ b' < B →
  (a * B + b ?= a' * B + b') = match a ?= a' with Eq => b ?= b' | c => c end.
Proof.
  intros Hb Hb'. destruct (Z.compare_spec a a') as [->|?|?].
  - destruct (Z.compare_spec b b'); [apply Z.compare_eq_iff|apply Z.compare_lt_iff|apply Z.compare_gt_iff]; lia.
  - apply Z.compare_lt_iff. nia.
  - apply Z.compare_gt_iff. nia.
Qed.

Lemma digits_cmp w : ∀ n m, 0 ≤ n < 10 ^ Z.of_nat w → 0 ≤ m < 10 ^ Z.of_nat w →
  text_cmp (digits w n) (digits w m) = (n ?= m).
Proof.
  induction w as [|w IH]; intros n m Hn Hm.
  { cbn in *. assert (n = 0) as -> by lia. by assert (m = 0) as -> by lia. }
  cbn [digits]. rewrite text_cmp_app by by rewrite !length_digits.
  rewrite IH by by apply div10_range.
  pose proof (Z.mod_pos_bound n 10). pose proof (Z.mod_pos_bound m 10).
  assert (∀ x, x = x / 10 * 10 + x mod 10) as Hx by (intros x; pose proof (Z.div_mod x 10); lia).
  rewrite (Hx n) at 3. rewrite (Hx m) at 3. rewrite compare_split by lia. cbn. destruct (n / 10 ?= m / 10); try done.
  destruct (Z.compare_spec (n mod 10) (m mod 10)) as [->|?|?].
  - by rewrite Z.compare_refl.
  - by rewrite (proj2 (Z.compare_lt_iff (48 + _) (48 + _))) by lia.
  - by rewrite (proj2 (Z.compare_gt_iff (48 + _) (48 + _))) by lia.
Qed.

(** ** The calendar

    [absDate] of package [time], from the days since the first day of the year 1. *)

Definition daysPer400Years : Z := 365 * 400 + 97.
Definition daysPer100Years : Z := 365 * 100 + 24.
Definition daysPer4Years : Z := 365 * 4 + 1.

Definition daysBefore : list Z := [0; 31; 59; 90; 120; 151; 181; 212; 243; 273; 304; 334; 365].

Definition isLeap (year : Z) : bool :=
  (year mod 4 =? 0) && (negb (year mod 100 =? 0) || (year mod 400 =? 0)).

Record Date : Type := mkDate { d_year : Z; d_month : Z; d_day : Z }.

(** The day of a year, its month and its day; both count from 1. *)
Definition month_day (leap : bool) (yday : Z) : Z * Z :=
  if leap && (yday =? 59) then (2, 29)
  else
    let day := if leap && (59 <? yday) then yday - 1 else yday in
    let month := Z.to_nat (day / 31) in
    let last := nth (S month) daysBefore 0 in
    if last <=? day then (Z.of_nat month + 2, day - last + 1)
    else (Z.of_nat month + 1, day - nth month daysBefore 0 + 1).

Definition absDate (days : Z) : Date :=
  let n400 := days / daysPer400Years in
  let d := days - daysPer400Years * n400 in
  (* the last day of a cycle belongs to its last century, that of four years to the fourth *)
  let n := d / daysPer100Years in
  let n100 := n - Z.shiftr n 2 in
  let d := d - daysPer100Years * n100 in
  let n4 := d / daysPer4Years in
  let d := d - daysPer4Years * n4 in
  let n := d / 365 in
  let n1 := n - Z.shiftr n 2 in
  let yday := d - 365 * n1 in
  let year := 400 * n400 + 100 * n100 + 4 * n4 + n1 + 1 in
  let md := month_day (isLeap year) yday in
  mkDate year md.1 md.2.

(** A date as one number, and the days before it. *)
Definition date_number (x : Date) : Z := (d_year x * 100 + d_month x) * 100 + d_day x.

Definition days_of (x : Date) : Z :=
  let y := d_year x - 1 in
  365 * y + y / 4 - y / 100 + y / 400 + nth (Z.to_nat (d_month x - 1)) daysBefore 0
    + (if isLeap (d_year x) && (2 <? d_month x) then 1 else 0) + d_day x - 1.

(** The days before the year [y + 1]. *)
Definition year_start (y : Z) : Z := 365 * y + y / 4 - y / 100 + y / 400.

Lemma year_start_split a b c e : 0 ≤ b ≤ 3 → 0 ≤ c ≤ 24 → 0 ≤ e ≤ 3 →
  let y := 400 * a + 100 * b + 4 * c + e in
  year_start y = 365 * y + (100 * a + 25 * b + c) - (4 * a + b) + a ∧
  isLeap (y + 1) = (e =? 3) && (negb (c =? 24) || (b =? 3)).
Proof.
  intros Hb Hc He y. split.
  - unfold year_start. rewrite <- (Z.div_unique y 4 (100 * a + 25 * b + c) e), <- (Z.div_unique y 100 (4 * a + b) (4 * c + e)),
      <- (Z.div_unique y 400 a (100 * b + 4 * c + e)); unfold y; lia.
  - unfold isLeap.
    assert ((y + 1) mod 4 = (e + 1) mod 4) as ->
      by (replace (y + 1) with (e + 1 + (100 * a + 25 * b + c) * 4) by (unfold y; lia); apply Z_mod_plus_full).
    assert ((y + 1) mod 100 = (4 * c + e + 1) mod 100) as ->
      by (replace (y + 1) with (4 * c + e + 1 + (4 * a + b) * 100) by (unfold y; lia); apply Z_mod_plus_full).
    assert ((y + 1) mod 400 = (100 * b + 4 * c + e + 1) mod 400) as ->
      by (replace (y + 1) with (100 * b + 4 * c + e + 1 + a * 400) by (unfold y; lia); apply Z_mod_plus_full).
    destruct (Z.eqb_spec e 3) as [->|].
    + change ((3 + 1) mod 4 =? 0) with true. cbn [andb]. destruct (Z.eqb_spec c 24) as [->|].
      * change ((4 * 24 + 3 + 1) mod 100 =? 0) with true. cbn [negb orb].
        destruct (Z.eqb_spec b 3) as [->|]; [done|]. rewrite Z.mod_small by lia. apply Z.eqb_neq. lia.
      * rewrite (Z.mod_small (4 * c + 3 + 1)) by lia. by rewrite (proj2 (Z.eqb_neq (4 * c + 3 + 1) 0)) by lia.
    + rewrite Z.mod_small by lia. by rewrite (proj2 (Z.eqb_neq (e + 1) 0)) by lia.
Qed.

(** The count of a division whose last bucket is one larger. *)
Lemma capped_count n : 0 ≤ n ≤ 4 → n - Z.shiftr n 2 = Z.min n 3.
Proof. intros Hn. rewrite Z.shiftr_div_pow2 by lia. change (2 ^ 2) with 4.
  destruct (decide (n = 4)) as [->|]; [done|]. rewrite Z.div_small; lia. Qed.

(** The year and the day in it. *)
Lemma absDate_split days : ∃ y yday,
  absDate days = mkDate (y + 1) (month_day (isLeap (y + 1)) yday).1 (month_day (isLeap (y + 1)) yday).2 ∧
  days = year_start y + yday ∧ 0 ≤ yday < (if isLeap (y + 1) then 366 else 365).
Proof.
  unfold absDate. set (a := days / daysPer400Years).
  assert (0 ≤ days - daysPer400Years * a < 146097) as Hr
    by (pose proof (Z.div_mod days daysPer400Years); pose proof (Z.mod_pos_bound days daysPer400Years); unfold a, daysPer400Years in *; lia).
  set (r := days - _) in *. assert (days = 146097 * a + r) as Hd by (unfold r, daysPer400Years; lia). clearbody a r.
  assert (0 ≤ r / daysPer100Years ≤ 4) as Hn.
  { split; [apply Z.div_pos; [lia|done]|]. apply Z.lt_succ_r, Z.div_lt_upper_bound; unfold daysPer100Years; lia. }
  rewrite (capped_count _ Hn). set (b := Z.min _ 3).
  assert (0 ≤ b ≤ 3 ∧ 0 ≤ r - daysPer100Years * b < (if b =? 3 then 36525 else 36524)) as [Hb Hr1].
  { pose proof (Z.div_mod r daysPer100Years). pose proof (Z.mod_pos_bound r daysPer100Years).
    unfold daysPer100Years in *. split; [lia|]. destruct (Z.eqb_spec b 3); lia. }
  set (r1 := r - _) in *. assert (r = 36524 * b + r1) as Hr' by (unfold r1, daysPer100Years; lia). clearbody b r1.
  set (c := r1 / daysPer4Years). assert (0 ≤ c ≤ 24 ∧ 0 ≤ r1 - daysPer4Years * c < (if (c =? 24) && negb (b =? 3) then 1460 else 1461)) as [Hc Hr4].
  { pose proof (Z.div_mod r1 daysPer4Years). pose proof (Z.mod_pos_bound r1 daysPer4Years).
    unfold daysPer4Years in *. destruct (Z.eqb_spec b 3), (Z.eqb_spec c 24); cbn [andb negb]; lia. }
  set (r4 := r1 - _) in *. assert (r1 = 1461 * c + r4) as Hr1' by (unfold r4, daysPer4Years; lia). clearbody c r4.
  assert (0 ≤ r4 < 1461) as Hr4' by (destruct ((c =? 24) && _); lia).
  assert (0 ≤ r4 / 365 ≤ 4) as Hn' by (split; [apply Z.div_pos; lia|apply Z.lt_succ_r, Z.div_lt_upper_bound; lia]).
  rewrite (capped_count _ Hn'). set (e := Z.min _ 3).
  assert (0 ≤ e ≤ 3 ∧ 0 ≤ r4 - 365 * e < (if e =? 3 then 366 else 365)) as [He Hy].
  { pose proof (Z.div_mod r4 365). pose proof (Z.mod_pos_bound r4 365). split; [lia|]. destruct (Z.eqb_spec e 3); lia. }
  set (yday := r4 - 365 * e) in *. assert (r4 = 365 * e + yday) as Hy' by lia. clearbody e yday.
  destruct (year_start_split a b c e Hb Hc He) as [Hs Hl]. exists (400 * a + 100 * b + 4 * c + e), yday.
  rewrite Hl, Hs. split; [done|]. split; [lia|].
  destruct (Z.eqb_spec e 3), (Z.eqb_spec c 24), (Z.eqb_spec b 3); cbn [andb orb negb] in *; lia.
Qed.

Lemma year_start_mono y y' : y ≤ y' → year_start y ≤ year_start y'.
Proof.
  intros Hy. unfold year_start.
  assert (y / 4 - y / 100 ≤ y' / 4 - y' / 100).
  { rewrite <- !(Z.div_div _ 4 25) by lia. pose proof (Z.div_le_mono y y' 4 ltac:(lia) Hy).
    set (u := y / 4) in *. set (v := y' / 4) in *.
    pose proof (Z.div_mod u 25). pose proof (Z.div_mod v 25). pose proof (Z.mod_pos_bound u 25). pose proof (Z.mod_pos_bound v 25). lia. }
  pose proof (Z.div_le_mono y y' 400 ltac:(lia) Hy). lia.
Qed.

Lemma year_start_next y : year_start (y + 1) = year_start y + (if isLeap (y + 1) then 366 else 365).
Proof.
  set (a := y / 400). set (r := y mod 400). set (b := r / 100). set (s := r mod 100). set (c := s / 4). set (e := s mod 4).
  assert (y = 400 * a + 100 * b + 4 * c + e ∧ 0 ≤ b ≤ 3 ∧ 0 ≤ c ≤ 24 ∧ 0 ≤ e ≤ 3) as (Ey & Hb & Hc & He).
  { pose proof (Z.div_mod y 400). pose proof (Z.mod_pos_bound y 400). pose proof (Z.div_mod r 100). pose proof (Z.mod_pos_bound r 100).
    pose proof (Z.div_mod s 4). pose proof (Z.mod_pos_bound s 4). unfold a, b, c, e, s, r in *. lia. }
  clearbody a b c e. clear r s. subst y. destruct (year_start_split a b c e Hb Hc He) as [-> ->].
  destruct (decide (e < 3)).
  { destruct (year_start_split a b c (e + 1)) as [Hs _]; [lia..|].
    replace (400 * a + 100 * b + 4 * c + e + 1) with (400 * a + 100 * b + 4 * c + (e + 1)) by lia.
    rewrite Hs, (proj2 (Z.eqb_neq e 3)) by lia. cbn [andb]. lia. }
  assert (e = 3) as -> by lia. cbn [Z.eqb Pos.eqb andb]. destruct (decide (c < 24)).
  { destruct (year_start_split a b (c + 1) 0) as [Hs _]; [lia..|].
    replace (400 * a + 100 * b + 4 * c + 3 + 1) with (400 * a + 100 * b + 4 * (c + 1) + 0) by lia.
    rewrite Hs, (proj2 (Z.eqb_neq c 24)) by lia. cbn [negb orb]. lia. }
  assert (c = 24) as -> by lia. cbn [Z.eqb Pos.eqb negb orb]. destruct (decide (b < 3)).
  { destruct (year_start_split a (b + 1) 0 0) as [Hs _]; [lia..|].
    replace (400 * a + 100 * b + 4 * 24 + 3 + 1) with (400 * a + 100 * (b + 1) + 4 * 0 + 0) by lia.
    rewrite Hs, (proj2 (Z.eqb_neq b 3)) by lia. lia. }
  assert (b = 3) as -> by lia. destruct (year_start_split (a + 1) 0 0 0) as [Hs _]; [lia..|].
  replace (400 * a + 100 * 3 + 4 * 24 + 3 + 1) with (400 * (a + 1) + 100 * 0 + 4 * 0 + 0) by lia. rewrite Hs. cbn [Z.eqb Pos.eqb]. lia.
Qed.

(** ** Months

    The days of a year are few enough to go through them. *)

Definition day_number (leap : bool) (yday : Z) : Z :=
  let md := month_day leap yday in md.1 * 100 + md.2.

Definition yday_ok (leap : bool) (yday : Z) : bool :=
  let md := month_day leap yday in
  (1 <=? md.1) && (md.1 <=? 12) && (1 <=? md.2) && (md.2 <=? 31) &&
  (nth (Z.to_nat (md.1 - 1)) daysBefore 0 + (if leap && (2 <? md.1) then 1 else 0) + md.2 - 1 =? yday) &&
  ((yday =? 0) || (day_number leap (yday - 1) <? day_number leap yday)).

Lemma month_day_ok leap yday : 0 ≤ yday < (if leap : bool then 366 else 365) → yday_ok leap yday = true.
Proof.
  intros Hy. assert (forallb (yday_ok leap) (Z.of_nat <$> seq 0 (if leap then 366 else 365)) = true) as Hall
    by (destruct leap; vm_compute; reflexivity).
  rewrite forallb_forall in Hall. apply Hall, list_elem_of_In, list_elem_of_fmap. exists (Z.to_nat yday).
  split; [lia|]. apply elem_of_seq. destruct leap; lia.
Qed.

Lemma day_number_mono leap yday yday' :
  0 ≤ yday → yday < yday' → yday' < (if leap : bool then 366 else 365) → day_number leap yday < day_number leap yday'.
Proof.
  intros H0 Hlt H1.
  assert (∀ k, 0 < k → k < (if leap then 366 else 365) → day_number leap (k - 1) < day_number leap k) as Hstep.
  { intros k Hk Hl. pose proof (month_day_ok leap k ltac:(lia)) as Hok. unfold yday_ok in Hok. lia. }
  revert H1. replace yday' with (yday + 1 + Z.of_nat (Z.to_nat (yday' - yday - 1))) by lia.
  induction (Z.to_nat (yday' - yday - 1)) as [|n IH]; intros H1.
  - pose proof (Hstep (yday + 1) ltac:(lia) ltac:(lia)) as Hs. replace (yday + 1 - 1) with yday in Hs by lia.
    by rewrite Z.add_0_r.
  - pose proof (Hstep (yday + 1 + Z.of_nat (S n)) ltac:(lia) H1) as Hs.
    replace (yday + 1 + Z.of_nat (S n) - 1) with (yday + 1 + Z.of_nat n) in Hs by lia. specialize (IH ltac:(lia)). lia.
Qed.

Lemma absDate_range days : let x := absDate days in 1 ≤ d_month x ≤ 12 ∧ 1 ≤ d_day x ≤ 31.
Proof.
  destruct (absDate_split days) as (y & yday & -> & _ & Hy). apply month_day_ok in Hy. unfold yday_ok in Hy.
  cbn [d_month d_day]. lia.
Qed.

(** Later days have greater dates. *)
Lemma date_number_mono days days' : days < days' → date_number (absDate days) < date_number (absDate days').
Proof.
  intros Hlt. pose proof (absDate_range days) as Hx. pose proof (absDate_range days') as Hx'.
  destruct (absDate_split days) as (y & yday & E & Hd & Hy). destruct (absDate_split days') as (y' & yday' & E' & Hd' & Hy').
  destruct (Z.lt_trichotomy y y') as [Hlt'|[->|Hgt]].
  - rewrite E, E' in *. unfold date_number. cbn [d_year d_month d_day] in *. lia.
  - assert (yday < yday') as Hyy by lia. pose proof (day_number_mono (isLeap (y' + 1)) yday yday' ltac:(lia) Hyy ltac:(lia)) as Hn.
    rewrite E, E'. unfold date_number, day_number in *. cbn [d_year d_month d_day]. lia.
  - pose proof (year_start_mono (y' + 1) y ltac:(lia)). rewrite year_start_next in *. lia.
Qed.

(** The date gives the day back. *)
Lemma days_of_absDate days : days_of (absDate days) = days.
Proof.
  destruct (absDate_split days) as (y & yday & -> & -> & Hy). pose proof (month_day_ok _ _ Hy) as Hok.
  unfold yday_ok, days_of, year_start in *. cbn [d_year d_month d_day]. replace (y + 1 - 1) with y by lia. lia.
Qed.

(** ** The format [2006-01-02T15:04:05.999999999Z07:00], in UTC *)

Definition ns : Z := 10 ^ 9.

(** Digits without the zeros at the end. *)
Fixpoint trim_zeros (t : text) : text :=
  match t with
  | [] => []
  | c :: t => match trim_zeros t with [] => if c =? 48 then [] else [c] | t => c :: t end
  end.

(** Date and time of day, from the seconds. *)
Definition stamp (s : Z) : text :=
  let x := absDate (s / 86400) in
  let r := s mod 86400 in
  appendInt (d_year x) 4 ++ [45] ++ appendInt (d_month x) 2 ++ [45] ++ appendInt (d_day x) 2 ++ [84] ++
  appendInt (r / 3600) 2 ++ [58] ++ appendInt (r mod 3600 / 60) 2 ++ [58] ++ appendInt (r mod 60) 2.

(** The fraction, left out when it is 0. *)
Definition fraction (n : Z) : text := if n =? 0 then [] else 46 :: trim_zeros (digits 9 n).

Definition rfc3339nano (t : Z) : text := stamp (t / ns) ++ fraction (t mod ns) ++ [90].

(** The times of the years 1 to 9999. *)
Definition time_ok (t : Z) : Prop := 0 ≤ t < 3652059 * 86400 * ns.

Example rfc3339nano_seconds : rfc3339nano (63835596800 * ns) = lit "2023-11-14T22:13:20Z".
Proof. vm_compute. reflexivity. Qed.

Example rfc3339nano_fraction : rfc3339nano (63835596800 * ns + 120000000) = lit "2023-11-14T22:13:20.12Z".
Proof. vm_compute. reflexivity. Qed.

(** ** Order of stamps *)

Lemma mono_compare (f : Z → Z) : (∀ a b, a < b → f a < f b) → ∀ a b, (f a ?= f b) = (a ?= b).
Proof.
  intros Hf a b. destruct (Z.compare_spec a b) as [->|Hlt|Hgt]; [apply Z.compare_refl| |].
  - apply Z.compare_lt_iff, Hf, Hlt.
  - apply Z.compare_gt_iff, Hf, Hgt.
Qed.

Definition seconds_ok (s : Z) : Prop := 0 ≤ s < 3652059 * 86400.

Lemma time_seconds_ok t : time_ok t → seconds_ok (t / ns).
Proof. intros Ht. split; [apply Z.div_pos|apply Z.div_lt_upper_bound]; unfold time_ok, ns in *; lia. Qed.

Lemma year_ok s : seconds_ok s → 1 ≤ d_year (absDate (s / 86400)) < 10000.
Proof.
  intros Hs. assert (0 ≤ s / 86400 ≤ 3652058) as [H0 H1].
  { unfold seconds_ok in Hs. split; [apply Z.div_pos|apply Z.lt_succ_r, Z.div_lt_upper_bound]; lia. }
  pose proof (absDate_range (s / 86400)) as [Hm Hd].
  assert (date_number (absDate 0) ≤ date_number (absDate (s / 86400)) ≤ date_number (absDate 3652058)) as Hn.
  { split; (destruct (Z.lt_total (s / 86400) 0) as [|[E|]], (Z.lt_total (s / 86400) 3652058) as [|[E'|]]);
      rewrite ?E, ?E'; try lia; apply Z.lt_le_incl, date_number_mono; lia. }
  change (date_number (absDate 0)) with 10101 in Hn. change (date_number (absDate 3652058)) with 99991231 in Hn.
  unfold date_number in Hn. lia.
Qed.

Lemma day_time_ok s : let r := s mod 86400 in
  0 ≤ r / 3600 < 24 ∧ 0 ≤ r mod 3600 / 60 < 60 ∧ 0 ≤ r mod 60 < 60 ∧
  r = r / 3600 * 3600 + (r mod 3600 / 60 * 60 + r mod 60).
Proof.
  intros r. pose proof (Z.mod_pos_bound s 86400 ltac:(lia)). fold r in H.
  pose proof (Z.mod_pos_bound r 3600 ltac:(lia)). pose proof (Z.mod_pos_bound r 60 ltac:(lia)).
  assert ((r mod 3600) mod 60 = r mod 60) as E by (symmetry; apply (Znumtheory.Zmod_div_mod 60 3600); [lia|lia|by exists 60]).
  pose proof (Z.div_mod r 3600 ltac:(lia)). pose proof (Z.div_mod (r mod 3600) 60 ltac:(lia)).
  split_and!; try (apply Z.div_pos || apply Z.div_lt_upper_bound); lia.
Qed.

Lemma stamp_digits s : seconds_ok s →
  let x := absDate (s / 86400) in let r := s mod 86400 in
  stamp s = digits 4 (d_year x) ++ [45] ++ digits 2 (d_month x) ++ [45] ++ digits 2 (d_day x) ++ [84] ++
    digits 2 (r / 3600) ++ [58] ++ digits 2 (r mod 3600 / 60) ++ [58] ++ digits 2 (r mod 60).
Proof.
  intros Hs x r. unfold stamp. fold x r. pose proof (year_ok s Hs) as Hy. pose proof (absDate_range (s / 86400)) as [Hm Hd].
  pose proof (day_time_ok s) as (Hh & Hmi & Hse & _). fold x in Hy, Hm, Hd. fold r in Hh, Hmi, Hse.
  change (10 ^ Z.of_nat 4) with 10000 in *. rewrite !appendInt_digits by lia. done.
Qed.

Lemma length_stamp s : seconds_ok s → length (stamp s) = 19%nat.
Proof. intros Hs. rewrite stamp_digits by done. rewrite !length_app, !length_digits. done. Qed.

(** Stamps are ordered as the seconds they stand for. *)
Lemma stamp_cmp s s' : seconds_ok s → seconds_ok s' → text_cmp (stamp s) (stamp s') = (s ?= s').
Proof.
  intros Hs Hs'. rewrite !stamp_digits by done.
  pose proof (year_ok s Hs) as Hy. pose proof (absDate_range (s / 86400)) as [Hm Hd]. pose proof (day_time_ok s) as (Hh & Hmi & Hse & Er).
  pose proof (year_ok s' Hs') as Hy'. pose proof (absDate_range (s' / 86400)) as [Hm' Hd']. pose proof (day_time_ok s') as (Hh' & Hmi' & Hse' & Er').
  assert ((s ?= s') = match s / 86400 ?= s' / 86400 with Eq => s mod 86400 ?= s' mod 86400 | c => c end) as ->.
  { rewrite (Z.div_mod s 86400) at 1 by lia. rewrite (Z.div_mod s' 86400) at 1 by lia.
    rewrite !(Z.mul_comm 86400). apply compare_split; by apply Z.mod_pos_bound. }
  rewrite <- (mono_compare (λ d, date_number (absDate d)) date_number_mono). unfold date_number.
  rewrite (f_equal2 Z.compare Er Er'), !compare_split by lia.
  rewrite !text_cmp_app by by rewrite ?length_digits. change (10 ^ Z.of_nat 4) with 10000.
  rewrite !digits_cmp by lia. cbn [text_cmp Z.compare Pos.compare Pos.compare_cont].
  repeat match goal with |- context [?a ?= ?b] => destruct (a ?= b) end; reflexivity.
Qed.

(** Times in different seconds are ordered as their texts; within one second the fractions
    decide, and a whole second comes after all its fractions. *)
Lemma rfc3339nano_cmp t t' : time_ok t → time_ok t' →
  text_cmp (rfc3339nano t) (rfc3339nano t') =
  match t / ns ?= t' / ns with Eq => text_cmp (fraction (t mod ns) ++ [90]) (fraction (t' mod ns) ++ [90]) | c => c end.
Proof.
  intros Ht%time_seconds_ok Ht'%time_seconds_ok. unfold rfc3339nano.
  rewrite text_cmp_app by by rewrite !length_stamp. by rewrite stamp_cmp.
Qed.

(** ** Reading a time back *)

Definition parse_fraction (t : text) : Z :=
  match t with
  | 46 :: t => let ds := removelast t in value ds * 10 ^ Z.of_nat (9 - length ds)
  | _ => 0
  end.

Definition parse_rfc3339nano (t : text) : Z :=
  let field i w := value (take w (drop i t)) in
  let days := days_of (mkDate (field 0%nat 4%nat) (field 5%nat 2%nat) (field 8%nat 2%nat)) in
  (days * 86400 + field 11%nat 2%nat * 3600 + field 14%nat 2%nat * 60 + field 17%nat 2%nat) * ns
    + parse_fraction (drop 19 t).

Lemma trim_zeros_split t : ∃ k, t = trim_zeros t ++ replicate k 48.
Proof.
  induction t as [|c t [k IH]]; [by exists 0%nat|]. cbn. destruct (trim_zeros t) as [|c' t'].
  - destruct (Z.eqb_spec c 48) as [->|]; [exists (S k)|exists k]; cbn; by rewrite IH at 1.
  - exists k. cbn. by rewrite IH at 1.
Qed.

Lemma value_replicate t k : value (t ++ replicate k 48) = value t * 10 ^ Z.of_nat k.
Proof.
  unfold value. rewrite fold_left_app. generalize (fold_left (λ n c, 10 * n + (c - 48)) t 0). intros n.
  revert n. induction k as [|k IH]; intros n; [cbn; lia|]. cbn [replicate fold_left]. rewrite IH, pow10_S. lia.
Qed.

Lemma parse_fraction_ok n : 0 ≤ n < ns → parse_fraction (fraction n ++ [90]) = n.
Proof.
  intros Hn. unfold fraction. destruct (Z.eqb_spec n 0) as [->|]; [done|]. cbn [app parse_fraction].
  rewrite removelast_last. destruct (trim_zeros_split (digits 9 n)) as [k Hk].
  pose proof (f_equal length Hk) as Hl. rewrite length_app, length_replicate, length_digits in Hl.
  replace (9 - length (trim_zeros (digits 9 n)))%nat with k by lia.
  rewrite <- value_replicate, <- Hk. by apply value_digits.
Qed.

Lemma stamp_fields y m d h mi se rest :
  let t := (digits 4 y ++ [45] ++ digits 2 m ++ [45] ++ digits 2 d ++ [84] ++ digits 2 h ++ [58] ++ digits 2 mi
    ++ [58] ++ digits 2 se) ++ rest in
  take 4 (drop 0 t) = digits 4 y ∧ take 2 (drop 5 t) = digits 2 m ∧ take 2 (drop 8 t) = digits 2 d ∧
  take 2 (drop 11 t) = digits 2 h ∧ take 2 (drop 14 t) = digits 2 mi ∧ take 2 (drop 17 t) = digits 2 se ∧
  drop 19 t = rest.
Proof. repeat split. Qed.

Lemma parse_rfc3339nano_ok t : time_ok t → parse_rfc3339nano (rfc3339nano t) = t.
Proof.
  intros Ht. pose proof (time_seconds_ok t Ht) as Hs. unfold rfc3339nano. set (s := t / ns) in *.
  pose proof (year_ok s Hs) as Hy. pose proof (absDate_range (s / 86400)) as [Hm Hd].
  pose proof (day_time_ok s) as (Hh & Hmi & Hse & Er). rewrite stamp_digits by done. unfold parse_rfc3339nano.
  destruct (stamp_fields (d_year (absDate (s / 86400))) (d_month (absDate (s / 86400))) (d_day (absDate (s / 86400)))
    (s mod 86400 / 3600) (s mod 86400 mod 3600 / 60) (s mod 86400 mod 60) (fraction (t mod ns) ++ [90]))
    as (-> & -> & -> & -> & -> & -> & ->).
  rewrite parse_fraction_ok by by apply Z.mod_pos_bound. change (10 ^ Z.of_nat 4) with 10000 in *.
  rewrite !value_digits by lia.
  replace (mkDate _ _ _) with (absDate (s / 86400)) by by destruct (absDate (s / 86400)).
  rewrite days_of_absDate. pose proof (Z.div_mod s 86400). pose proof (Z.div_mod t ns). unfold ns in *. lia.
Qed.

Lemma rfc3339nano_inj t t' : time_ok t → time_ok t' → rfc3339nano t = rfc3339nano t' → t = t'.
Proof. intros Ht Ht' E. rewrite <- (parse_rfc3339nano_ok t Ht), E. by apply parse_rfc3339nano_ok. Qed.

(** ** Whole seconds as bounds

    Against a whole second, a text is ordered by its seconds; of the same second, only the
    bound itself is not before it. *)
Lemma whole_second_cmp t q : time_ok t → time_ok (q * ns) →
  text_cmp (rfc3339nano t) (rfc3339nano (q * ns)) =
  if t =? q * ns then Eq else if t <? (q + 1) * ns then Lt else Gt.
Proof.
  intros Ht Hq. rewrite rfc3339nano_cmp by done. rewrite Z.div_mul, Z.mod_mul by done.
  pose proof (Z.div_mod t ns ltac:(done)) as E. pose proof (Z.mod_pos_bound t ns ltac:(done)) as Hr.
  destruct (Z.compare_spec (t / ns) q) as [Hc|Hc|Hc].
  - unfold fraction. cbn [Z.eqb app]. destruct (Z.eqb_spec (t mod ns) 0) as [E0|E0].
    + rewrite text_cmp_refl. by rewrite (proj2 (Z.eqb_eq t (q * ns))) by lia.
    + rewrite (proj2 (Z.eqb_neq t (q * ns))), (proj2 (Z.ltb_lt t ((q + 1) * ns))) by lia. reflexivity.
  - rewrite (proj2 (Z.eqb_neq t (q * ns))), (proj2 (Z.ltb_lt t ((q + 1) * ns))); [done|nia|nia].
  - rewrite (proj2 (Z.eqb_neq t (q * ns))), (proj2 (Z.ltb_ge t ((q + 1) * ns))); [done|nia|nia].
Qed.
