(* ===== verification/FlrAuditLog.v ===== *)
(** * flr: the audit log

    Models [AppendAuditLog] and [GetAuditLog] of [src/flr/internal/registry/badger_store.go]
    as a log: entries are stored under the text of their time, and a query walks the keys
    between the texts of its bounds.  The iterator of the database visits the keys in
    order ([BadgerIter]); times are written in the format of [FlrTime] ([GoTimeFormat]). *)

From stdpp Require Import gmap sorting.
From S2P Require Import Prelude Float FlrModels FlrStore FlrEngine FlrLease FlrTime.
Local Open Scope Z_scope.

Import leases lease_store.

(** An iterator without a prefix visits all keys, in ascending order. *)
Class BadgerIter `{Badger} : Prop := {
  scan_sorted d : StronglySorted text_le (db_scan [] d).*1;
}.

Class GoTimeFormat `{GoJson} : Prop := {
  rfc3339_format t : rfc3339 t = rfc3339nano t;
}.

(** Decoding of an entry, and that it undoes marshalling. *)
Class GoAuditJson := { go_unmarshal_audit : text → option AuditLogEntry }.

Class GoAuditJsonSpec `{GoJson, !GoAuditJson} : Prop := {
  go_audit_roundtrip a : time_ok (a_Timestamp a) → go_unmarshal_audit (go_render (audit_json a)) = Some a;
}.

Module audit_log.

Section log.
Context `{GoJson, !GoAuditJson, GoCrypto, Badger}.

Definition auditKey (t : Z) : text := prefixAudit ++ rfc3339 t.

(** [it.Seek(key)] *)
Fixpoint seek (key : text) (items : list (text * text)) : list (text * text) :=
  match items with
  | [] => []
  | kv :: items => match text_cmp kv.1 key with Lt => seek key items | _ => kv :: items end
  end.

(** The loop from the item sought on; [None]: an entry does not unmarshal. *)
Fixpoint collect (toKey : text) (items : list (text * text)) : option (list AuditLogEntry) :=
  match items with
  | [] => Some []
  | (key, val) :: items =>
      if negb (bool_decide (prefixAudit `prefix_of` key)) then Some []
      else match text_cmp key toKey with
           | Gt => Some []
           | _ => entry ← go_unmarshal_audit val; entries ← collect toKey items; Some (entry :: entries)
           end
  end.

Definition GetAuditLog (from to : Z) (d : db) : option (list AuditLogEntry) :=
  collect (auditKey to) (seek (auditKey from) (db_scan [] d)).

(** What is stored of an entry. *)
Definition hashed (a : AuditLogEntry) : AuditLogEntry :=
  mkAudit (a_Timestamp a) (a_Operation a) (a_OperatorID a) (a_LeaseID a) (a_Details a)
    (sha3_256 (utf8 (go_render (audit_json a)))) (a_PrevHash a).

Lemma append_hashed a d :
  AppendAuditLog a d = db_set (auditKey (a_Timestamp a)) (go_render (audit_json (hashed a))) d.
Proof. reflexivity. Qed.
End log.
End audit_log.

Import audit_log.

Section spec.
Context `{GoJson, !GoTimeFormat, !GoAuditJson, !GoAuditJsonSpec, GoCrypto, Badger, !BadgerSpec, !BadgerIter}.

(** ** The log as a map from times to entries *)

Definition log_of (d : db) (m : gmap Z AuditLogEntry) : Prop :=
  (∀ t a, m !! t = Some a → a_Timestamp a = t ∧ time_ok t) ∧
  ∀ k v, prefixAudit `prefix_of` k →
    db_get k d = Some v ↔ ∃ t a, m !! t = Some a ∧ k = auditKey t ∧ v = go_render (audit_json a).

Definition append_all (l : list AuditLogEntry) (d : db) : db := fold_left (λ d a, AppendAuditLog a d) l d.

(** Of entries with the same time the last one stays. *)
Definition newest (l : list AuditLogEntry) : gmap Z AuditLogEntry :=
  fold_left (λ m a, <[a_Timestamp a := hashed a]> m) l ∅.

Lemma auditKey_inj t t' : time_ok t → time_ok t' → auditKey t = auditKey t' → t = t'.
Proof. unfold auditKey. rewrite !rfc3339_format. intros Ht Ht' E%(inj (app _)). by apply rfc3339nano_inj. Qed.

Lemma append_log a d m : log_of d m → time_ok (a_Timestamp a) →
  log_of (AppendAuditLog a d) (<[a_Timestamp a := hashed a]> m).
Proof.
  intros [Ht Hd] Ha. split.
  - intros t x. rewrite lookup_insert_Some. intros [[<- <-]|[_ Hx]]; [done|by apply Ht].
  - intros k v Hk. rewrite append_hashed. destruct (decide (k = auditKey (a_Timestamp a))) as [->|Hne].
    + rewrite get_set. split.
      * intros [= <-]. exists (a_Timestamp a), (hashed a). by rewrite lookup_insert_eq.
      * intros (t & x & Hx & Hkt & ->). destruct (decide (t = a_Timestamp a)) as [->|Hn].
        { rewrite lookup_insert_eq in Hx. by injection Hx as <-. }
        rewrite lookup_insert_ne in Hx by done. destruct (Ht t x Hx) as [_ Ht'].
        by apply auditKey_inj in Hkt.
    + rewrite get_set_ne by done. rewrite Hd by done. split; intros (t & x & Hx & -> & ->); exists t, x; split; try done.
      * rewrite lookup_insert_ne; [done|]. by intros <-.
      * rewrite lookup_insert_ne in Hx; [done|]. by intros <-.
Qed.

Lemma append_all_log l : ∀ d m, log_of d m → Forall (λ a, time_ok (a_Timestamp a)) l →
  log_of (append_all l d) (fold_left (λ m a, <[a_Timestamp a := hashed a]> m) l m).
Proof.
  induction l as [|a l IH]; intros d m Hd Hl; [done|]. inversion Hl; subst. cbn. apply IH; [|done]. by apply append_log.
Qed.

(** ** The walk over sorted keys *)

Lemma sorted_map {A B} (R : relation B) (f : A → B) l :
  StronglySorted R (f <$> l) → StronglySorted (λ a b, R (f a) (f b)) l.
Proof.
  induction l as [|a l IH]; cbn; [constructor|]. intros [Hs Hall]%StronglySorted_inv.
  constructor; [by apply IH|]. rewrite Forall_fmap in Hall. exact Hall.
Qed.

Lemma sorted_impl {A} (R S : relation A) l :
  (∀ a b, a ∈ l → b ∈ l → R a b → S a b) → StronglySorted R l → StronglySorted S l.
Proof.
  induction l as [|a l IH]; intros HRS Hs; constructor; apply StronglySorted_inv in Hs as [Hs Hall].
  - apply IH; [|done]. intros x y Hx Hy. apply HRS; by right.
  - apply Forall_forall. intros b Hb. rewrite Forall_forall in Hall. apply HRS; [left|by right|by apply Hall].
Qed.

Lemma sorted_take {A} (R : relation A) n l : StronglySorted R l → StronglySorted R (take n l).
Proof.
  revert n. induction l as [|a l IH]; intros [|n] Hs; cbn; try constructor; apply StronglySorted_inv in Hs as [Hs Hall].
  - by apply IH.
  - by apply Forall_take.
Qed.

Lemma seek_spec key items k v : StronglySorted text_le items.*1 →
  (k, v) ∈ seek key items ↔ (k, v) ∈ items ∧ text_cmp k key ≠ Lt.
Proof.
  induction items as [|[k' v'] items IH]; intros Hs; cbn [seek fst].
  { split; [by intros Hin%not_elem_of_nil|]. intros [Hin _]. by apply not_elem_of_nil in Hin. }
  cbn in Hs. apply StronglySorted_inv in Hs as [Hs Hall]. specialize (IH Hs).
  rewrite Forall_fmap, Forall_forall in Hall.
  destruct (text_cmp k' key) eqn:E.
  2: { rewrite IH, elem_of_cons. split; [naive_solver|]. intros [[[= -> ->]|Hin] Hn]; [by rewrite E in Hn|done]. }
  all: split; [|naive_solver]; intros Hin; split; [done|];
    apply elem_of_cons in Hin as [[= -> ->]|Hin]; [by rewrite E|];
    specialize (Hall _ Hin); cbn in Hall; intros El; apply Hall;
    rewrite (text_cmp_antisym k k').
  all: assert (text_cmp k k' = Lt) as ->; [|done].
  - apply text_cmp_eq in E. by subst.
  - apply (text_lt_trans k key k'); [done|]. by rewrite text_cmp_antisym, E.
Qed.

Lemma seek_sorted key items : StronglySorted text_le items.*1 → StronglySorted text_le (seek key items).*1.
Proof.
  induction items as [|kv items IH]; intros Hs; [done|]. cbn [seek]. destruct (text_cmp kv.1 key); try done.
  apply IH. cbn in Hs. by apply StronglySorted_inv in Hs as [Hs _].
Qed.

(** The keys with a prefix are neighbours. *)
Lemma prefix_convex p x : ∀ k y, text_le (p ++ x) k → text_le k (p ++ y) → p `prefix_of` k.
Proof.
  induction p as [|c p IH]; intros k y Hlo Hhi; [by exists k|]. destruct k as [|c' k]; [done|].
  unfold text_le in Hlo, Hhi. cbn in Hlo, Hhi. rewrite (Z.compare_antisym c' c) in Hlo.
  destruct (Z.compare_spec c' c) as [->|?|?]; cbn in Hlo; [|done|done].
  apply prefix_cons. by apply (IH k y).
Qed.

Lemma collect_spec x toKey items :
  StronglySorted text_le items.*1 → (∀ k v, (k, v) ∈ items → text_le (prefixAudit ++ x) k) →
  (∀ k v, (k, v) ∈ items → prefixAudit `prefix_of` k → is_Some (go_unmarshal_audit v)) →
  ∃ es, collect toKey items = Some es ∧
    (∀ a, a ∈ es ↔ ∃ k v, (k, v) ∈ items ∧ prefixAudit `prefix_of` k ∧ text_cmp k toKey ≠ Gt ∧ go_unmarshal_audit v = Some a) ∧
    Forall2 (λ a kv, prefixAudit `prefix_of` kv.1 ∧ go_unmarshal_audit kv.2 = Some a) es (take (length es) items).
Proof.
  assert (∀ P : text → text → AuditLogEntry → Prop, ∀ items : list (text * text),
    (∀ k v a, (k, v) ∈ items → P k v a → False) → ∀ a, a ∈ [] ↔ ∃ k v, (k, v) ∈ items ∧ P k v a) as Hnone.
  { intros P l Hl a. split; [by intros Hin%not_elem_of_nil|]. intros (k & v & Hin & HP). by destruct (Hl k v a). }
  induction items as [|[k v] items IH]; intros Hs Hfrom Hval.
  { exists []. split; [done|]. split; [|constructor]. apply Hnone. by intros k v a Hin%not_elem_of_nil. }
  cbn in Hs. apply StronglySorted_inv in Hs as [Hs Hall]. rewrite Forall_fmap, Forall_forall in Hall.
  cbn [collect]. destruct (decide (prefixAudit `prefix_of` k)) as [Hp|Hp].
  2: { rewrite bool_decide_eq_false_2 by done. exists []. split; [done|]. split; [|constructor].
       apply Hnone. intros k' v' a Hin (Hp' & _). destruct Hp' as [y ->]. apply Hp.
       apply elem_of_cons in Hin as [[= <- <-]|Hin]; [by exists y|].
       apply (prefix_convex _ x k y); [apply (Hfrom k v); left|]. apply (Hall _ Hin). }
  rewrite bool_decide_eq_true_2 by done. cbn [negb].
  destruct (IH Hs) as (es & Ec & Hes & Hf); [intros; eapply Hfrom; by right|intros; eapply Hval; [by right|done]|].
  destruct (Hval k v) as [a Ea]; [left|done|].
  destruct (text_cmp k toKey) eqn:E.
  3: { exists []. split; [done|]. split; [|constructor]. apply Hnone. intros k' v' a' Hin (_ & Hle & _).
       apply Hle. apply elem_of_cons in Hin as [[= -> ->]|Hin]; [done|].
       specialize (Hall _ Hin). unfold text_le in Hall. cbn in Hall.
       rewrite (text_cmp_antisym toKey k'). rewrite (text_cmp_antisym toKey k) in E.
       destruct (text_cmp toKey k) eqn:E1; try done. destruct (text_cmp k k') eqn:E2; try done.
       - apply text_cmp_eq in E2. subst. by rewrite E1.
       - by rewrite (text_lt_trans toKey k k'). }
  all: rewrite Ea, Ec; cbn [mbind option_bind]; exists (a :: es); (split; [done|]); (split; [|by constructor]);
    intros b; rewrite elem_of_cons, Hes; split;
    [intros [->|(k' & v' & Hin & Hr)]; [exists k, v|exists k', v']; (split; [by constructor|]); [by rewrite E|done]
    |intros (k' & v' & Hin & Hp' & Hr & Hu); apply elem_of_cons in Hin as [[= -> ->]|Hin];
      [left; congruence|right; by exists k', v']].
Qed.

(** ** Queries *)

Lemma auditKey_cmp t t' : text_cmp (auditKey t) (auditKey t') = text_cmp (rfc3339nano t) (rfc3339nano t').
Proof. unfold auditKey. rewrite !rfc3339_format, text_cmp_app by done. by rewrite text_cmp_refl. Qed.

Lemma query_spec d m from to : log_of d m →
  ∃ es, GetAuditLog from to d = Some es ∧
    (∀ a, a ∈ es ↔ m !! a_Timestamp a = Some a ∧ text_cmp (auditKey (a_Timestamp a)) (auditKey from) ≠ Lt ∧
       text_cmp (auditKey (a_Timestamp a)) (auditKey to) ≠ Gt) ∧
    StronglySorted (λ a b, text_le (auditKey (a_Timestamp a)) (auditKey (a_Timestamp b))) es.
Proof.
  intros [Ht Hd]. unfold GetAuditLog.
  assert (∀ k v, (k, v) ∈ db_scan [] d ↔ db_get k d = Some v) as Hscan
    by (intros k v; rewrite scan_get; split; [by intros [_ ?]|intros ?; split; [apply prefix_nil|done]]).
  assert (∀ t a, m !! t = Some a → go_unmarshal_audit (go_render (audit_json a)) = Some a) as Hu
    by (intros t a Hm; destruct (Ht t a Hm) as [<- ?]; by apply go_audit_roundtrip).
  pose proof (λ k v, seek_spec (auditKey from) (db_scan [] d) k v (scan_sorted d)) as Hseek.
  pose proof (seek_sorted (auditKey from) _ (scan_sorted d)) as Hsort.
  destruct (collect_spec (rfc3339 from) (auditKey to) (seek (auditKey from) (db_scan [] d))) as (es & Ec & Hes & Hf).
  - done.
  - intros k v [_ Hn]%Hseek. fold (auditKey from). unfold text_le. rewrite (text_cmp_antisym k). by destruct (text_cmp k _).
  - intros k v [Hin _]%Hseek Hp. apply Hscan, (Hd k v Hp) in Hin as (t & a & Hm & _ & ->). rewrite (Hu t a Hm). by eexists.
  - exists es. split; [done|]. split.
    + intros a. rewrite Hes. split.
      * intros (k & v & [Hin Hge]%Hseek & Hp & Hle & Ha). apply Hscan, (Hd k v Hp) in Hin as (t & b & Hm & -> & ->).
        rewrite (Hu t b Hm) in Ha. injection Ha as <-. destruct (Ht t b Hm) as [-> _]. done.
      * intros (Hm & Hge & Hle). exists (auditKey (a_Timestamp a)), (go_render (audit_json a)).
        assert (prefixAudit `prefix_of` auditKey (a_Timestamp a)) as Hp by by apply prefix_app_r.
        split; [apply Hseek; split; [|done]|by rewrite (Hu _ a Hm)].
        apply Hscan, (Hd _ _ Hp). by exists (a_Timestamp a), a.
    + apply (sorted_map text_le (auditKey ∘ a_Timestamp)). assert ((auditKey ∘ a_Timestamp) <$> es = (take (length es) (seek (auditKey from) (db_scan [] d))).*1) as ->.
      { apply list_eq_Forall2, Forall2_fmap. apply Forall2_same_length_lookup. split; [by eapply Forall2_length|].
        intros i a [k v] Hl Hi. destruct (Forall2_lookup_lr _ _ _ _ _ _ Hf Hl Hi) as [Hp Ha]. cbn in *.
        apply lookup_take_Some in Hi as [Hi _]. apply list_elem_of_lookup_2, Hseek in Hi as [Hi _].
        apply Hscan, (Hd k v Hp) in Hi as (t & b & Hm & -> & ->). rewrite (Hu t b Hm) in Ha. injection Ha as <-.
        by destruct (Ht t b Hm) as [-> _]. }
      rewrite fmap_take. by apply sorted_take.
Qed.

(** Whole seconds [from] and [to]: the entries at [from] exactly, and all from the next
    second on to the end of the second [to]. *)
Definition in_window (from to t : Z) : Prop :=
  (t = from * ns ∧ from ≤ to) ∨ (from + 1) * ns ≤ t < (to + 1) * ns.

Lemma window_cmp from to t : time_ok t → time_ok (from * ns) → time_ok (to * ns) →
  text_cmp (auditKey t) (auditKey (from * ns)) ≠ Lt ∧ text_cmp (auditKey t) (auditKey (to * ns)) ≠ Gt ↔ in_window from to t.
Proof.
  intros Ht Hf Hto. rewrite !auditKey_cmp, !whole_second_cmp by done. unfold in_window, ns.
  destruct (Z.eqb_spec t (from * 10 ^ 9)), (Z.eqb_spec t (to * 10 ^ 9)), (Z.ltb_spec t ((from + 1) * 10 ^ 9)),
    (Z.ltb_spec t ((to + 1) * 10 ^ 9)); split; intros; try (intuition discriminate); try (split; congruence); try lia.
Qed.

(** C20: The audit log, queried between two whole seconds.  After any entries were appended,
    between whatever else the registry stored: the query returns, by seconds, the entries
    whose time is the lower bound exactly or lies from the next second on up to the end of
    the second of the upper bound; of entries with one time only the last.  So it leaves
    out what was logged within the first second after the lower bound, and includes what was
    logged within the second after the upper one. *)
Theorem audit_log_window (l : list AuditLogEntry) (d0 d : db) (from to : Z) :
  (∀ k, prefixAudit `prefix_of` k → db_get k d0 = None) → Forall (λ a, time_ok (a_Timestamp a)) l →
  (∀ k, prefixAudit `prefix_of` k → db_get k d = db_get k (append_all l d0)) →
  time_ok (from * ns) → time_ok (to * ns) →
  ∃ es, GetAuditLog (from * ns) (to * ns) d = Some es ∧
    (∀ a, a ∈ es ↔ newest l !! a_Timestamp a = Some a ∧ in_window from to (a_Timestamp a)) ∧
    StronglySorted (λ a b, a_Timestamp a / ns ≤ a_Timestamp b / ns) es.
Proof.
  intros Hempty Hl Hd Hf Ht. assert (log_of d (newest l)) as Hlog.
  { destruct (append_all_log l d0 ∅) as [Hok Hget]; [|done|].
    - split; [done|]. intros k v Hk. rewrite Hempty by done. split; [done|]. by intros (t & a & Hm & _).
    - split; [done|]. intros k v Hk. rewrite Hd by done. by apply Hget. }
  destruct (query_spec d _ (from * ns) (to * ns) Hlog) as (es & E & Hes & Hs). exists es. split; [done|].
  assert (∀ a, a ∈ es → time_ok (a_Timestamp a)) as Hok by (intros a [Ha _]%Hes; by apply (proj1 Hlog _ a)).
  split.
  - intros a. rewrite Hes. split; intros [Hm Hw]; (split; [done|]); apply window_cmp; try done; by apply (proj1 Hlog _ a).
  - eapply sorted_impl; [|exact Hs]. intros a b Ha Hb Hle. unfold text_le in Hle.
    rewrite auditKey_cmp, rfc3339nano_cmp in Hle by auto. apply Z.compare_le_iff. by intros E'; rewrite E' in Hle.
Qed.
End spec.

(** ** Witnesses *)

Module AuditExamples.
Import ToyStore ToyCrypto.

Definition key_le (a b : text * text) : Prop := text_le a.1 b.1.

#[export] Instance key_le_dec : RelDecision key_le.
Proof. intros a b. unfold key_le. apply _. Defined.

#[export] Instance key_le_total : Total key_le.
Proof. intros a b. apply text_le_total. Qed.

#[export] Instance key_le_trans : Transitive key_le.
Proof. intros a b c. apply text_le_trans. Qed.

#[local] Instance ordered_badger : Badger := {|
  db := gmap text text;
  db_get k d := d !! k;
  db_set k v d := <[k := v]> d;
  db_delete k d := delete k d;
  db_scan p d := merge_sort key_le (base.filter (λ kv, p `prefix_of` kv.1) (map_to_list d));
|}.

#[local] Instance ordered_badger_spec : BadgerSpec.
Proof.
  destruct toy_badger_spec as [Hg Hgn Hd Hdn Hs Hk]. constructor; [exact Hg|exact Hgn|exact Hd|exact Hdn|..].
  - intros p d k v. cbn. rewrite merge_sort_Permutation. apply Hs.
  - intros p d. cbn. rewrite merge_sort_Permutation. apply Hk.
Qed.

#[local] Instance ordered_badger_iter : BadgerIter.
Proof.
  constructor. intros d. cbn. set (l := base.filter _ _).
  assert (StronglySorted key_le (merge_sort key_le l)) as Hs by apply (StronglySorted_merge_sort key_le).
  induction Hs as [|x xs Hs IH Hall]; cbn; constructor; [done|]. by apply Forall_fmap.
Qed.

#[local] Instance nano_json : GoJson := {|
  go_render := render;
  rfc3339 := rfc3339nano;
  base64 b := b;
  go_unmarshal_schema _ := None;
|}.

#[local] Instance nano_format : GoTimeFormat.
Proof. by constructor. Qed.

Definition json_bytes (j : json) : option bytes :=
  match j with JNull => Some [] | JStr b => Some b | _ => None end.

Definition audit_of (j : json) : option AuditLogEntry :=
  match j with
  | JObj [(_, JStr t); (_, JStr op); (_, JStr o); (_, JStr l); (_, de); (_, h); (_, ph)] =>
      de ← json_bytes de; h ← json_bytes h; ph ← json_bytes ph;
      Some (mkAudit (parse_rfc3339nano t) op o l de h ph)
  | _ => None
  end.

#[local] Instance nano_audit : GoAuditJson := {| go_unmarshal_audit t := parse t ≫= audit_of |}.

#[local] Instance nano_audit_spec : GoAuditJsonSpec.
Proof.
  constructor. intros [t op o l de h ph] Ht. cbn [go_unmarshal_audit nano_audit go_render nano_json].
  rewrite parse_render. cbn [mbind option_bind audit_json audit_of rfc3339 nano_json a_Timestamp a_Operation a_OperatorID
    a_LeaseID a_Details a_Hash a_PrevHash] in *.
  assert (∀ b, json_bytes (bytes_json b) = Some b) as Hb by (intros b; unfold bytes_json; by case_bool_decide; subst).
  rewrite !Hb. cbn [mbind option_bind]. by rewrite parse_rfc3339nano_ok.
Qed.

(** Half a second and two seconds and a half after ten o'clock. *)
Definition ten : Z := 63835596000.
Definition entry (t : Z) : AuditLogEntry := mkAudit t (lit "CREATE_LEASE") (lit "op-alice") (lit "l-1") [] [] [].
Definition early : AuditLogEntry := entry (ten * ns + 500000000).
Definition empty_db : @db ordered_badger := (∅ : gmap text text).
Definition late : AuditLogEntry := entry (ten * ns + 2500000000).

Lemma audit_log_window_witness :
  ∃ es, GetAuditLog (ten * ns) ((ten + 2) * ns) (append_all [early; late] empty_db) = Some es ∧
    hashed late ∈ es ∧ hashed early ∉ es.
Proof.
  destruct (audit_log_window [early; late] empty_db (append_all [early; late] empty_db) ten (ten + 2)) as (es & E & Hes & _).
  - intros k _. exact (lookup_empty k).
  - repeat constructor; vm_compute; congruence.
  - done.
  - vm_compute. split; congruence.
  - vm_compute. split; congruence.
  - exists es. split; [exact E|]. split.
    + apply Hes. split; [reflexivity|]. right. vm_compute. split; congruence.
    + intros [_ Hw]%Hes. vm_compute in Hw. destruct Hw as [[[=] _]|[Hw _]]. by apply Hw.
Defined.
End AuditExamples.
