(* ===== verification/FlrXlat.v ===== *)
(** * flr: translation between operators

    Models [src/flr/internal/xlat/manager.go]: translations of a wavelength at the border of
    two operators, their validation against the leases of both, the routing table of a
    junction and its hash.  Translations are not kept anywhere yet: a lookup finds none and
    a table has no entries.  The manager's store is the registry's database, or nil. *)

From stdpp Require Import gmap.
From S2P Require Import Prelude Float External FlrModels FlrStore FlrEngine FlrLease FlrMerkle FlrLedger.
Local Open Scope Z_scope.

Import leases lease_store.

Record TranslationEntry : Type := mkTranslation {
  tr_ID : text;
  tr_FromOperator : text;
  tr_ToOperator : text;
  tr_FromWavelength : option Wavelength;
  tr_ToWavelength : option Wavelength;
  tr_FromAWGPort : Z;
  tr_ToAWGPort : Z;
  tr_Status : Z;
  tr_EffectiveTime : Z;
  tr_ExpiryTime : Z;
}.

Definition TranslationStatusActive : Z := 1.

Record TranslationFilter : Type := mkTranslationFilter {
  tf_FromOperator : text;
  tf_ToOperator : text;
  tf_Status : Z;
}.

Record AWGRoutingEntry : Type := mkRoute {
  r_InputPort : Z;
  r_InputLambda : float;
  r_OutputPort : Z;
  r_OutputLambda : float;
  r_DestinationOp : text;
  r_Active : bool;
}.

Record AWGRoutingTable : Type := mkTable {
  rt_JunctionID : text;
  rt_GeneratedAt : Z;
  rt_OperatorID : text;
  rt_Entries : list AWGRoutingEntry;
  rt_MerkleRoot : bytes;
}.

Module xlat.

Inductive XlatError : Type :=
| OperatorsRequired
| WavelengthsRequired
| XlatDurationNotPositive
| PortsNotPositive
| ExpiresBeforeEffective
| AlreadyExpired
| XlatListing (e : LeaseStoreError)
| FromConflict (lease : text)
| ToConflict (lease : text)
| IDRequired
| TranslationNotFound (id : text)
| JunctionRequired
| OperatorRequired.

(** [==] on floats: not even itself for NaN *)
Definition wavelengthsEqual (a b : Wavelength) : bool :=
  SFeqb (LambdaNm a) (LambdaNm b) && (ChannelNum a =? ChannelNum b) && (Band a =? Band b).

Section manager.
Context `{GoJson, !GoLeaseJson, Badger}.

(** A lease of the operator on the wavelength. *)
Definition leased (op : text) (w : Wavelength) (d : db) : result (option Lease) XlatError :=
  match ListLeases (mkLeaseFilter op [] LeaseStatusActive) d with
  | Err e => Err (XlatListing e)
  | Ok ls =>
      Ok (List.find (λ l, match wavelength l with Some w' => wavelengthsEqual w' w | None => false end) ls)
  end.

Definition ValidateTranslation (now : Z) (store : option db) (entry : TranslationEntry) : result unit XlatError :=
  match tr_FromWavelength entry, tr_ToWavelength entry with
  | Some fw, Some tw =>
      if (tr_FromAWGPort entry <=? 0) || (tr_ToAWGPort entry <=? 0) then Err PortsNotPositive
      else if tr_ExpiryTime entry <? tr_EffectiveTime entry then Err ExpiresBeforeEffective
      else if tr_ExpiryTime entry <? now then Err AlreadyExpired
      else
        match store with
        | None => Ok ()
        | Some d =>
            let? l := leased (tr_FromOperator entry) fw d in
            match l with
            | Some l => Err (FromConflict (ID l))
            | None =>
                let? l := leased (tr_ToOperator entry) tw d in
                match l with
                | Some l => Err (ToConflict (ID l))
                | None => Ok ()
                end
            end
        end
  | _, _ => Err WavelengthsRequired
  end.

(** Readings: the effective time, the validation's. *)
Definition CreateTranslation (t : nat → Z) (id : text) (store : option db) (fromOp toOp : text)
    (fromWL toWL : option Wavelength) (fromPort toPort duration : Z) : result TranslationEntry XlatError :=
  if bool_decide (fromOp = []) || bool_decide (toOp = []) then Err OperatorsRequired
  else if bool_decide (fromWL = None) || bool_decide (toWL = None) then Err WavelengthsRequired
  else if duration <=? 0 then Err XlatDurationNotPositive
  else if (fromPort <=? 0) || (toPort <=? 0) then Err PortsNotPositive
  else
    let now := t 0%nat in
    let entry := mkTranslation id fromOp toOp fromWL toWL fromPort toPort TranslationStatusActive now (now + duration) in
    let? _ := ValidateTranslation (t 1%nat) store entry in
    Ok entry.

Definition GetTranslation (id : text) : result TranslationEntry XlatError :=
  if bool_decide (id = []) then Err IDRequired else Err (TranslationNotFound id).

Definition ListTranslations (f : TranslationFilter) : result (list TranslationEntry) XlatError := Ok [].

(** [json.Marshal(e)]; its error is ignored, which leaves no bytes. *)
Definition route_bytes `{GoCrypto} (e : AWGRoutingEntry) : bytes :=
  if float_ok (r_InputLambda e) && float_ok (r_OutputLambda e) then
    utf8 (go_render (JObj [(lit "input_port", JNum (r_InputPort e)); (lit "input_lambda", JFloat (r_InputLambda e));
      (lit "output_port", JNum (r_OutputPort e)); (lit "output_lambda", JFloat (r_OutputLambda e));
      (lit "destination_op", JStr (r_DestinationOp e)); (lit "active", JBool (r_Active e))]))
  else [].

(** One level; an odd one out is taken over. *)
Fixpoint hash_pairs `{Sha256} (hashes : list bytes) : list bytes :=
  match hashes with
  | a :: b :: rest => sha256 (a ++ b) :: hash_pairs rest
  | l => l
  end.

Fixpoint fold_hashes `{Sha256} (fuel : nat) (hashes : list bytes) : option bytes :=
  match hashes with
  | [] => None
  | [h] => Some h
  | _ => match fuel with O => None | S fuel => fold_hashes fuel (hash_pairs hashes) end
  end.

(** [None]: no entries, or the loop does not end. *)
Definition computeMerkleRoot `{GoCrypto, Sha256} (entries : list AWGRoutingEntry) : option bytes :=
  fold_hashes (length entries) ((λ e, sha256 (route_bytes e)) <$> entries).

Definition route_of (now : Z) (tr : TranslationEntry) : option AWGRoutingEntry :=
  if tr_ExpiryTime tr <? now then None
  else
    match tr_FromWavelength tr, tr_ToWavelength tr with
    | Some fw, Some tw =>
        Some (mkRoute (tr_FromAWGPort tr) (LambdaNm fw) (tr_ToAWGPort tr) (LambdaNm tw) (tr_ToOperator tr)
                (tr_Status tr =? TranslationStatusActive))
    | _, _ => None
    end.

Definition GenerateAWGTable `{GoCrypto, Sha256} (now : Z) (junctionID operatorID : text)
    : result AWGRoutingTable XlatError :=
  if bool_decide (junctionID = []) then Err JunctionRequired
  else if bool_decide (operatorID = []) then Err OperatorRequired
  else
    let? translations := ListTranslations (mkTranslationFilter operatorID [] TranslationStatusActive) in
    let entries := omap (route_of now) translations in
    let root := if bool_decide (entries = []) then [] else default [] (computeMerkleRoot entries) in
    Ok (mkTable junctionID now operatorID entries root).
End manager.
End xlat.

Import xlat.

(** ** The hash of a table *)

Lemma hash_pairs_length `{Sha256} hashes :
  (length hashes ≤ 2 * length (hash_pairs hashes) ≤ length hashes + 1)%nat.
Proof.
  assert (∀ n (l : list bytes), (length l ≤ n)%nat → (length l ≤ 2 * length (hash_pairs l) ≤ length l + 1)%nat) as Hn.
  { induction n as [|n IH]; intros [|a [|b l]] Hl; cbn in *; try lia. specialize (IH l). lia. }
  by apply (Hn (length hashes)).
Qed.

Lemma fold_hashes_ends `{Sha256} fuel : ∀ hashes,
  hashes ≠ [] → (length hashes ≤ fuel)%nat → is_Some (fold_hashes fuel hashes).
Proof.
  induction fuel as [|fuel IH]; intros hashes Hne Hl; [by destruct hashes; cbn in Hl; [|lia]|].
  destruct hashes as [|a [|b l]]; [done|by eexists|]. cbn [fold_hashes].
  pose proof (hash_pairs_length (a :: b :: l)) as Hp. apply IH; [done|]. cbn [length] in *. lia.
Qed.

(** The loop over the levels ends, and a table with entries has a root. *)
Theorem merkle_root_ends `{GoJson, GoCrypto, Sha256} (entries : list AWGRoutingEntry) :
  is_Some (computeMerkleRoot entries) ↔ entries ≠ [].
Proof.
  unfold computeMerkleRoot. split.
  - intros [h Hh] ->. done.
  - intros Hne. apply fold_hashes_ends; [|by rewrite length_fmap]. by destruct entries.
Qed.

(** ** Validation *)

Section spec.
Context `{GoJson, !GoLeaseJson, !GoLeaseJsonSpec, Badger, !BadgerSpec}.

(** The lease is an active one of the operator on the wavelength. *)
Definition on_wavelength (op : text) (w : Wavelength) (l : Lease) : Prop :=
  OperatorID l = op ∧ Status l = LeaseStatusActive ∧ ∃ w', wavelength l = Some w' ∧ wavelengthsEqual w' w = true.

Lemma leased_spec d m op w : lholds d m → op ≠ [] →
  match leased op w d with
  | Ok (Some l) => m !! ID l = Some l ∧ on_wavelength op w l
  | Ok None => ∀ id l, m !! id = Some l → ¬ on_wavelength op w l
  | Err _ => False
  end.
Proof.
  intros Hd Hop. unfold leased. destruct (list_leases_spec d m (mkLeaseFilter op [] LeaseStatusActive) Hd) as (ls & -> & Hls).
  assert (∀ l, leaseMatches (mkLeaseFilter op [] LeaseStatusActive) l = true ↔ OperatorID l = op ∧ Status l = LeaseStatusActive) as Hm.
  { intros l. unfold leaseMatches. cbn [lf_OperatorID lf_EndpointID lf_Status]. rewrite (bool_decide_eq_false_2 (op = [])) by done.
    change (bool_decide (([] : text) = [])) with true. change (LeaseStatusActive =? LeaseStatusUnspecified) with false.
    cbn [negb andb]. destruct (decide (OperatorID l = op)); [rewrite bool_decide_eq_true_2 by done|rewrite bool_decide_eq_false_2 by done];
      cbn [negb]; [|naive_solver]. unfold LeaseStatusActive.
    destruct (Z.eqb_spec (Status l) 1); cbn; naive_solver. }
  destruct (List.find _ ls) as [l|] eqn:E.
  - apply List.find_some in E as [Hin%list_elem_of_In Hw]. apply Hls in Hin as [Hl [Ho Hs]%Hm]. split; [done|].
    split; [done|]. split; [done|]. destruct (wavelength l) as [w'|]; [by exists w'|done].
  - intros id l Hl (Ho & Hs & w' & Hw & Heq). destruct (lh_lease d m Hd id l Hl) as (<- & _).
    assert (l ∈ ls) as Hin by by apply Hls; rewrite Hm.
    apply list_elem_of_In in Hin. pose proof (List.find_none _ _ E l Hin) as Hn. cbn in Hn. rewrite Hw, Heq in Hn. done.
Qed.

(** A translation is created exactly when its operators, wavelengths, ports and duration
    are given, it has not run out by the second reading of the clock, and neither side has an active lease on its
    wavelength; an error about a lease names one. *)
Theorem create_translation_spec (t : nat → Z) id d m fromOp toOp fw tw fromPort toPort duration :
  lholds d m →
  match CreateTranslation t id (Some d) fromOp toOp (Some fw) (Some tw) fromPort toPort duration with
  | Ok e =>
      e = mkTranslation id fromOp toOp (Some fw) (Some tw) fromPort toPort TranslationStatusActive (t 0%nat) (t 0%nat + duration) ∧
      fromOp ≠ [] ∧ toOp ≠ [] ∧ 0 < fromPort ∧ 0 < toPort ∧ 0 < duration ∧ t 1%nat ≤ t 0%nat + duration ∧
      ∀ i l, m !! i = Some l → ¬ on_wavelength fromOp fw l ∧ ¬ on_wavelength toOp tw l
  | Err OperatorsRequired => fromOp = [] ∨ toOp = []
  | Err XlatDurationNotPositive => duration ≤ 0
  | Err PortsNotPositive => fromPort ≤ 0 ∨ toPort ≤ 0
  | Err AlreadyExpired => t 0%nat + duration < t 1%nat
  | Err (FromConflict i) => ∃ l, m !! i = Some l ∧ on_wavelength fromOp fw l
  | Err (ToConflict i) => ∃ l, m !! i = Some l ∧ on_wavelength toOp tw l
  | Err _ => False
  end.
Proof.
  intros Hd. unfold CreateTranslation. case_bool_decide as E1; [by left|]. case_bool_decide as E2; [by right|]. cbn [orb].
  rewrite !bool_decide_eq_false_2 by done. cbn [orb]. destruct (Z.leb_spec duration 0) as [|Hdur]; [done|].
  destruct (Z.leb_spec fromPort 0) as [|Hfp]; [by left|]. destruct (Z.leb_spec toPort 0) as [|Htp]; [by right|]. cbn [orb].
  unfold ValidateTranslation. cbn [tr_FromWavelength tr_ToWavelength tr_FromAWGPort tr_ToAWGPort tr_ExpiryTime tr_EffectiveTime
    tr_FromOperator tr_ToOperator].
  rewrite (proj2 (Z.leb_gt fromPort 0)), (proj2 (Z.leb_gt toPort 0)), (proj2 (Z.ltb_ge (t 0%nat + duration) (t 0%nat))) by lia.
  cbn [orb]. destruct (Z.ltb_spec (t 0%nat + duration) (t 1%nat)) as [|Hexp]; [done|].
  pose proof (leased_spec d m fromOp fw Hd E1) as Hf. destruct (leased fromOp fw d) as [[l|]|]; cbn [rbind]; [|  |done].
  - by exists l.
  - pose proof (leased_spec d m toOp tw Hd E2) as Ht. destruct (leased toOp tw d) as [[l|]|]; cbn [rbind]; [|  |done].
    + by exists l.
    + split_and!; try done. intros i l Hl. split; [by eapply Hf|by eapply Ht].
Qed.

(** The table of a junction never has an entry, and no translation is ever found. *)
Theorem awg_table_empty `{GoCrypto, Sha256} (now : Z) (junction op id : text) :
  (∀ e, GetTranslation id ≠ Ok e) ∧
  ∀ table, GenerateAWGTable now junction op = Ok table → rt_Entries table = [] ∧ rt_MerkleRoot table = [].
Proof.
  split.
  - intros e. unfold GetTranslation. by case_bool_decide.
  - intros table. unfold GenerateAWGTable. case_bool_decide; [done|]. case_bool_decide; [done|]. cbn. by intros [= <-].
Qed.
End spec.
