(* ===== verification/FlrFederation.v ===== *)
(** * flr: federation of registries

    Models [src/flr/internal/federation]: the HTTP client of [client.go] (its stream of
    updates apart), conflict detection of [conflict.go], the manager of [manager.go] and a
    gossip round of [gossip.go].  The network is the list of requests sent so far and a
    function that answers the next one (a request whose address is malformed counts as sent
    and not answered).  The client is built with no [CheckRedirect], so it follows
    redirects as [net/http] does by default: [http_do] is that loop.  Decoding of answers is the class [GoPeerJson].  A
    decoded list may hold nil pointers ([None]).  Each check that reads the clock has a
    reading [clk i] of its own.  [range] is the order in which Go walks a map, which may be
    any.  The peers of a round are synchronised concurrently in the code; what they write is
    written in whole transactions, so the model has them one after the other, in the order
    of [range]. *)

From stdpp Require Import gmap.
From S2P Require Import Prelude Float FlrModels FlrStore FlrEngine FlrLease FlrMerkle FlrLedger FlrDirectory FlrXlat.
Local Open Scope Z_scope.

Import leases lease_store.

(** ** The network *)

Record PeerRequest : Type := mkRequest {
  rq_method : text;
  rq_url : text;
  rq_query : list (text * text);
  rq_body : text;
}.

(** The [Location] of an answer, resolved against the address it answers for. *)
Inductive Location : Type :=
| NoLocation
| BadLocation
| ToLocation (url : text).

Record HttpAnswer : Type := mkAnswer {
  a_code : Z;
  a_location : Location;
  a_body : text;
}.

Record Net : Type := mkNet {
  sent : list PeerRequest;
  (** the answer to the next request; [None]: no answer *)
  answer : nat → PeerRequest → option HttpAnswer;
}.

(** What the client does after an answer. *)
Inductive Hop : Type :=
| Final
| Broken
| Follow (r : PeerRequest).

(** 301, 302 and 303 become a GET (a HEAD stays one) without a body; 307 and 308 repeat the
    request.  A body that one hop drops is not sent again (older releases of Go send it
    again on a later 307 or 308). *)
Definition next_hop (r : PeerRequest) (a : HttpAnswer) : Hop :=
  let follow method body :=
    match a_location a with
    | NoLocation => Final
    | BadLocation => Broken
    | ToLocation url => Follow (mkRequest method url [] body)
    end in
  if bool_decide (a_code a ∈ [301; 302; 303]) then
    follow (if bool_decide (rq_method r = lit "GET") || bool_decide (rq_method r = lit "HEAD")
            then rq_method r else lit "GET") []
  else if bool_decide (a_code a ∈ [307; 308]) then follow (rq_method r) (rq_body r)
  else Final.

(** [hops] more requests may follow; the client then gives up. *)
Fixpoint http_send (hops : nat) (r : PeerRequest) (n : Net) : Net * option HttpAnswer :=
  let res := answer n (length (sent n)) r in
  let n := mkNet (sent n ++ [r]) (answer n) in
  match res with
  | None => (n, None)
  | Some a =>
      match next_hop r a with
      | Final => (n, Some a)
      | Broken => (n, None)
      | Follow r => match hops with O => (n, None) | S hops => http_send hops r n end
      end
  end.

(** [httpClient.Do]: ten requests at most, the first included. *)
Definition http_do : PeerRequest → Net → Net * option HttpAnswer := http_send 9.

Class GoPeerJson := {
  go_decode_commitment : text → option MerkleCommitment;
  go_decode_leases : text → option (list (option Lease));
  go_decode_operator : text → option Operator;
  go_decode_translations : text → option (list (option TranslationEntry));
}.

(** [omitempty]: a nil second lease is left out. *)
Definition poi_json `{GoJson} (p : ProofOfInvalidity) : json :=
  let lease o := match o with Some l => lease_json l | None => JNull end in
  JObj ([(lit "type", JNum (p_Type p)); (lit "lease_a", lease (p_LeaseA p))] ++
        match p_LeaseB p with Some l => [(lit "lease_b", lease_json l)] | None => [] end ++
        [(lit "commitment", match p_Commitment p with Some c => commitment_json c | None => JNull end);
         (lit "merkle_proof", match p_MerkleProof p with Some l => JArr (bytes_json <$> l) | None => JNull end);
         (lit "timestamp", JStr (rfc3339 (p_Timestamp p)))]).

Definition marshal_poi `{GoJson} (p : ProofOfInvalidity) : option text :=
  let ok o := match o with Some l => wavelength_ok (wavelength l) | None => true end in
  if ok (p_LeaseA p) && ok (p_LeaseB p) then Some (go_render (poi_json p)) else None.

Inductive ClientError : Type :=
| MarshalFailed
| HttpFailed
| BadStatus (code : Z) (body : text)
| DecodeFailed.

Module client.

Section client.
Context `{GoJson, !GoPeerJson}.

(** A request whose answer, after any redirects, with one of the codes is decoded. *)
Definition request {A} (r : PeerRequest) (codes : list Z) (decode : text → option A) : state_result Net A ClientError := λ n,
  match http_do r n with
  | (n, None) => (n, Err HttpFailed)
  | (n, Some (mkAnswer code _ body)) =>
      (n, if bool_decide (code ∈ codes) then ok_or (decode body) DecodeFailed else Err (BadStatus code body))
  end.

Definition get (url : text) (query : list (text * text)) : PeerRequest := mkRequest (lit "GET") url query [].
Definition post_json (url body : text) : PeerRequest := mkRequest (lit "POST") url [] body.
Definition no_body (body : text) : option unit := Some ().

Definition GetCommitment (peerEndpoint operatorID : text) (blockHeight : Z) : state_result Net MerkleCommitment ClientError :=
  request (get (peerEndpoint ++ lit "/v1/commitments/" ++ operatorID ++ lit "/" ++ show blockHeight) [])
    [200] go_decode_commitment.

Definition leases_query (f : LeaseFilter) : list (text * text) :=
  (if bool_decide (lf_EndpointID f = []) then [] else [(lit "endpoint_id", lf_EndpointID f)]) ++
  (if bool_decide (lf_OperatorID f = []) then [] else [(lit "operator_id", lf_OperatorID f)]) ++
  (if lf_Status f =? 0 then [] else [(lit "status", show (lf_Status f))]).

Definition GetLeases (peerEndpoint : text) (f : LeaseFilter) : state_result Net (list (option Lease)) ClientError :=
  request (get (peerEndpoint ++ lit "/v1/leases") (leases_query f)) [200] go_decode_leases.

Definition PushCommitment (peerEndpoint : text) (c : MerkleCommitment) : state_result Net unit ClientError :=
  request (post_json (peerEndpoint ++ lit "/v1/commitments") (go_render (commitment_json c))) [200; 201] no_body.

Definition SubmitProofOfInvalidity (peerEndpoint : text) (poi : ProofOfInvalidity) : state_result Net unit ClientError := λ n,
  match marshal_poi poi with
  | None => (n, Err MarshalFailed)
  | Some body => request (post_json (peerEndpoint ++ lit "/v1/invalidity") body) [200; 201; 202] no_body n
  end.

Definition RegisterOperator (peerEndpoint : text) (op : Operator) : state_result Net unit ClientError :=
  request (post_json (peerEndpoint ++ lit "/v1/operators") (go_render (operator_json op))) [200; 201] no_body.

Definition GetOperator (peerEndpoint operatorID : text) : state_result Net Operator ClientError :=
  request (get (peerEndpoint ++ lit "/v1/operators/" ++ operatorID) []) [200] go_decode_operator.

Definition GetTranslationTable (peerEndpoint operatorID : text) : state_result Net (list (option TranslationEntry)) ClientError :=
  request (get (peerEndpoint ++ lit "/v1/translations?operator_id=" ++ operatorID) []) [200] go_decode_translations.

Definition HealthCheck (peerEndpoint : text) : state_result Net unit ClientError :=
  request (get (peerEndpoint ++ lit "/health") []) [200] no_body.
End client.
End client.

(** ** Conflicts *)

Definition InvalidityDoubleAllocation : Z := 1.
Definition InvalidityExpiredLease : Z := 2.
Definition InvalidityInvalidSignature : Z := 3.
Definition InvalidityUnauthorizedOp : Z := 4.

Record conflictPair : Type := mkPair {
  cp_Local : option Lease;
  cp_Remote : option Lease;
  cp_Type : Z;
}.

Definition checkDoubleAllocation (now : Z) (a b : Lease) : bool :=
  match wavelength a, wavelength b with
  | Some wa, Some wb =>
      if negb (SFeqb (LambdaNm wa) (LambdaNm wb)) then false
      else if negb (ChannelNum wa =? ChannelNum wb) then false
      else if negb (Band wa =? Band wb) then false
      else if negb (StartTime a <? now) || negb (StartTime b <? now) then false
      else if (EndTime a <? now) || (EndTime b <? now) then false
      else if (EndTime a <? StartTime b) || (EndTime b <? StartTime a) then false
      else true
  | _, _ => false
  end.

Definition checkExpiredLease (now : Z) (l : Lease) : bool := (EndTime l <? now) && (Status l =? LeaseStatusActive).

(** The leases of one side that have run out; the readings from [i] on. *)
Fixpoint expired_local (clk : nat → Z) (i : nat) (ls : list Lease) : list conflictPair :=
  match ls with
  | [] => []
  | l :: ls =>
      (if checkExpiredLease (clk i) l then [mkPair (Some l) None InvalidityExpiredLease] else []) ++ expired_local clk (S i) ls
  end.

Fixpoint expired_remote (clk : nat → Z) (i : nat) (rs : list (option Lease)) : list conflictPair :=
  match rs with
  | [] => []
  | None :: rs => expired_remote clk (S i) rs
  | Some r :: rs =>
      (if checkExpiredLease (clk i) r then [mkPair None (Some r) InvalidityExpiredLease] else []) ++ expired_remote clk (S i) rs
  end.

(** What the loops skip at [now]. *)
Definition considered (now : Z) (l : Lease) : bool :=
  match wavelength l with
  | None => false
  | Some _ => (Status l =? LeaseStatusActive) && negb (EndTime l <? now)
  end.

(** The inner loop; [None]: a nil lease is dereferenced. *)
Fixpoint pairs_of (clk : nat → Z) (now : Z) (i : nat) (l : Lease) (rs : list (option Lease)) : option (list conflictPair) :=
  match rs with
  | [] => Some []
  | None :: _ => None
  | Some r :: rs =>
      rest ← pairs_of clk now (S i) l rs;
      Some ((if considered now r && checkDoubleAllocation (clk i) l r
             then [mkPair (Some l) (Some r) InvalidityDoubleAllocation] else []) ++ rest)
  end.

Fixpoint all_pairs (clk : nat → Z) (now : Z) (i : nat) (ls : list Lease) (rs : list (option Lease)) : option (list conflictPair) :=
  match ls with
  | [] => Some []
  | l :: ls =>
      here ← (if considered now l then pairs_of clk now i l rs else Some []);
      rest ← all_pairs clk now (i + length rs) ls rs;
      Some (here ++ rest)
  end.

(** The first reading is [now]. *)
Definition findConflicts (clk : nat → Z) (local : list Lease) (remote : list (option Lease)) : option (list conflictPair) :=
  let i := (1 + length local)%nat in
  pairs ← all_pairs clk (clk 0%nat) (i + length remote) local remote;
  Some (expired_local clk 1 local ++ expired_remote clk i remote ++ pairs).

(** ** The manager *)

Definition InvalidityType_String (t : Z) : text :=
  if t =? InvalidityDoubleAllocation then lit "DOUBLE_ALLOCATION"
  else if t =? InvalidityExpiredLease then lit "EXPIRED_LEASE"
  else if t =? InvalidityInvalidSignature then lit "INVALID_SIGNATURE"
  else if t =? InvalidityUnauthorizedOp then lit "UNAUTHORIZED_OPERATION"
  else lit "UNSPECIFIED".

Module federation.
Import commitments.

Inductive FedError : Type :=
| IdRequired
| EndpointRequired
| AlreadyRegistered (id : text)
| PersistFailed (e : RowError)
| OperatorUnknown (id : text)
| CannotRemoveSelf
| FetchCommitmentFailed (e : ClientError)
| SaveFailed (e : CommitError)
| FetchLeasesFailed (e : ClientError)
| ListLocalFailed (e : LeaseStoreError)
| FetchTranslationsFailed (e : ClientError)
| PushFailed (failed total : nat)
| NilProof
| NeedsBothLeases
| NotDoubleAllocation
| NeedsLease
| NotExpired
| NeedsCommitment
| UnknownInvalidity (type : text)
| AllSyncsFailed (n : nat)
| FedPanicked.

(** The order in which a [range] over the operators visits them. *)
Definition Order : Type := gmap text Operator → list (text * Operator).

Section manager.
Context `{GoJson, !GoLeaseJson, !GoCommitJson, !GoDirJson, !GoPeerJson, GoCrypto, Badger}.

(** The manager, the registry it works on, and the network. *)
Record Manager : Type := mkManager {
  reg : engine.Engine;
  operators : gmap text Operator;
  m_operatorID : text;
  net : Net;
}.

Definition with_db (m : Manager) (d : db) : Manager :=
  mkManager (engine.with_store (reg m) d) (operators m) (m_operatorID m) (net m).
Definition with_operators (m : Manager) (ops : gmap text Operator) : Manager :=
  mkManager (reg m) ops (m_operatorID m) (net m).
Definition with_net (m : Manager) (n : Net) : Manager :=
  mkManager (reg m) (operators m) (m_operatorID m) n.

(** The client's requests. *)
Definition over_net {A E} (f : ClientError → E) (r : state_result Net A ClientError) : state_result Manager A E := λ m,
  let '(n, res) := r (net m) in (with_net m n, map_err f res).

Definition NewManager (e : engine.Engine) (operatorID : text) (n : Net) : Manager := mkManager e ∅ operatorID n.

(** Readings: when it joined, when it was last seen. *)
Definition joined (t : nat → Z) (op : Operator) : Operator :=
  mkOperator (o_ID op) (o_Name op) (o_PublicKey op) (o_Endpoint op) OperatorStatusActive (t 0%nat) (t 1%nat).

Definition RegisterOperator (t : nat → Z) (op : Operator) : state_result Manager unit FedError := λ m,
  if bool_decide (o_ID op = []) then (m, Err IdRequired)
  else if bool_decide (o_Endpoint op = []) then (m, Err EndpointRequired)
  else if bool_decide (is_Some (operators m !! o_ID op)) then (m, Err (AlreadyRegistered (o_ID op)))
  else
    let op := joined t op in
    match directory.CreateOperator op (engine.store (reg m)) with
    | (d, Err e) => (with_db m d, Err (PersistFailed e))
    | (d, Ok _) => (with_operators (with_db m d) (<[o_ID op := op]> (operators m)), Ok ())
    end.

Definition GetOperator (id : text) (m : Manager) : result Operator FedError :=
  ok_or (operators m !! id) (OperatorUnknown id).

Definition ListOperators (order : Order) (m : Manager) : list Operator := (order (operators m)).*2.

(** The record stays in the store. *)
Definition RemoveOperator (id : text) : state_result Manager unit FedError := λ m,
  if bool_decide (id = m_operatorID m) then (m, Err CannotRemoveSelf)
  else if bool_decide (operators m !! id = None) then (m, Err (OperatorUnknown id))
  else (with_operators m (delete id (operators m)), Ok ()).

Definition active_leases_of (id : text) : LeaseFilter := mkLeaseFilter id [] LeaseStatusActive.

Definition seen_at (now : Z) (op : Operator) : Operator :=
  mkOperator (o_ID op) (o_Name op) (o_PublicKey op) (o_Endpoint op) (o_Status op) (o_JoinedAt op) now.

(** [clk] is read by the conflict check, whose result is dropped; [now] last. *)
Definition SyncWithOperator (clk : nat → Z) (now : Z) (id : text) : state_result Manager unit FedError := λ m,
  match operators m !! id with
  | None => (m, Err (OperatorUnknown id))
  | Some op =>
      match over_net FetchCommitmentFailed (client.GetCommitment (o_Endpoint op) id 0) m with
      | (m, Err e) => (m, Err e)
      | (m, Ok commitment) =>
          match SaveCommitment commitment (engine.store (reg m)) with
          | (d, Err e) => (with_db m d, Err (SaveFailed e))
          | (d, Ok _) =>
              match over_net FetchLeasesFailed (client.GetLeases (o_Endpoint op) (active_leases_of id)) (with_db m d) with
              | (m, Err e) => (m, Err e)
              | (m, Ok peerLeases) =>
                  match ListLeases (active_leases_of (m_operatorID m)) (engine.store (reg m)) with
                  | Err e => (m, Err (ListLocalFailed e))
                  | Ok localLeases =>
                      match findConflicts clk localLeases peerLeases with
                      | None => (m, Err FedPanicked)
                      | Some _ => (with_operators m (alter (seen_at now) id (operators m)), Ok ())
                      end
                  end
              end
          end
      end
  end.

Definition active_ops (order : Order) (m : Manager) : list (text * Operator) :=
  base.filter (λ p, o_Status p.2 = OperatorStatusActive) (order (operators m)).

(** The failures, one per peer that does not take the commitment. *)
Fixpoint push_all (c : MerkleCommitment) (ops : list (text * Operator)) (n : Net) : Net * nat :=
  match ops with
  | [] => (n, 0%nat)
  | p :: ops =>
      let '(n, r) := client.PushCommitment (o_Endpoint p.2) c n in
      let '(n, failed) := push_all c ops n in
      (n, match r with Ok _ => failed | Err _ => S failed end)
  end.

Definition PushCommitmentToAll (order : Order) (c : MerkleCommitment) : state_result Manager unit FedError := λ m,
  let ops := active_ops order m in
  let '(n, failed) := push_all c ops (net m) in
  (with_net m n, if (0 <? failed)%nat then Err (PushFailed failed (length ops)) else Ok ()).

(** The conflicts with the peers in turn; a peer that does not answer is passed over. *)
Fixpoint conflicts_with (clk : nat → nat → Z) (i : nat) (local : list Lease) (ops : list (text * Operator)) (n : Net)
    : Net * option (list conflictPair) :=
  match ops with
  | [] => (n, Some [])
  | p :: ops =>
      let '(n, r) := client.GetLeases (o_Endpoint p.2) (active_leases_of (o_ID p.2)) n in
      match r with
      | Err _ => conflicts_with clk (S i) local ops n
      | Ok peerLeases =>
          match findConflicts (clk i) local peerLeases with
          | None => (n, None)
          | Some here =>
              let '(n, rest) := conflicts_with clk (S i) local ops n in
              (n, (here ++.) <$> rest)
          end
      end
  end.

Definition proof_of (now : Z) (c : conflictPair) : ProofOfInvalidity :=
  mkPoi (cp_Type c) (cp_Local c) (cp_Remote c) None None now.

Definition DetectConflicts (order : Order) (clk : nat → nat → Z) (t : nat → Z)
    : state_result Manager (list ProofOfInvalidity) FedError := λ m,
  match ListLeases (active_leases_of (m_operatorID m)) (engine.store (reg m)) with
  | Err e => (m, Err (ListLocalFailed e))
  | Ok localLeases =>
      let '(n, r) := conflicts_with clk 0 localLeases (active_ops order m) (net m) in
      (with_net m n,
       match r with
       | None => Err FedPanicked
       | Some cs => Ok (imap (λ i c, proof_of (t i) c) (base.filter (λ c, cp_Type c = InvalidityDoubleAllocation) cs))
       end)
  end.

(** What is checked of a proof, by its type; the commitment and the membership proof are
    not looked at. *)
Definition check_poi (now : Z) (poi : ProofOfInvalidity) : result unit FedError :=
  if p_Type poi =? InvalidityDoubleAllocation then
    match p_LeaseA poi, p_LeaseB poi with
    | Some a, Some b => if negb (checkDoubleAllocation now a b) then Err NotDoubleAllocation else Ok ()
    | _, _ => Err NeedsBothLeases
    end
  else if p_Type poi =? InvalidityExpiredLease then
    match p_LeaseA poi with
    | Some a => if negb (checkExpiredLease now a) then Err NotExpired else Ok ()
    | None => Err NeedsLease
    end
  else if p_Type poi =? InvalidityInvalidSignature then
    if bool_decide (p_Commitment poi = None) then Err NeedsCommitment else Ok ()
  else if p_Type poi =? InvalidityUnauthorizedOp then
    if bool_decide (p_LeaseA poi = None) then Err NeedsLease else Ok ()
  else Err (UnknownInvalidity (InvalidityType_String (p_Type poi))).

(** Readings: the check, the audit entry. *)
Definition HandleProofOfInvalidity (t : nat → Z) (poi : option ProofOfInvalidity) : state_result Manager unit FedError := λ m,
  match poi with
  | None => (m, Err NilProof)
  | Some poi =>
      match check_poi (t 0%nat) poi with
      | Err e => (m, Err e)
      | Ok _ =>
          let entry := mkAudit (t 1%nat) (lit "PROOF_OF_INVALIDITY_" ++ InvalidityType_String (p_Type poi)) (m_operatorID m)
            (match p_LeaseA poi with Some a => ID a | None => [] end) [] [] [] in
          (with_db m (AppendAuditLog entry (engine.store (reg m))), Ok ())
      end
  end.

Definition GetTranslationTable (id : text) : state_result Manager (list (option TranslationEntry)) FedError := λ m,
  match operators m !! id with
  | None => (m, Err (OperatorUnknown id))
  | Some op => over_net FetchTranslationsFailed (client.GetTranslationTable (o_Endpoint op) id) m
  end.

(** ** A round of gossip *)

(** The number of syncs that fail; a panic ends the process. *)
Fixpoint sync_all (clk : nat → nat → Z) (now : nat → Z) (i : nat) (ops : list (text * Operator)) (m : Manager)
    : Manager * result nat FedError :=
  match ops with
  | [] => (m, Ok 0%nat)
  | p :: ops =>
      match SyncWithOperator (clk i) (now i) p.1 m with
      | (m, Err FedPanicked) => (m, Err FedPanicked)
      | (m, r) =>
          let '(m, rest) := sync_all clk now (S i) ops m in
          (m, let? failed := rest in Ok (match r with Ok _ => failed | Err _ => S failed end))
      end
  end.

(** The orders of its three walks over the operators; what is only logged is dropped. *)
Definition gossipRound (order : nat → Order) (clk : nat → nat → nat → Z) (t : nat → nat → Z) : state_result Manager unit FedError := λ m,
  let ops := active_ops (order 0%nat) m in
  if bool_decide (ops = []) then (m, Ok ())
  else
    match sync_all (clk 0%nat) (t 0%nat) 0 ops m with
    | (m, Err e) => (m, Err e)
    | (m, Ok failed) =>
        match DetectConflicts (order 1%nat) (clk 1%nat) (t 1%nat) m with
        | (m, Err FedPanicked) => (m, Err FedPanicked)
        | (m, _) =>
            let m :=
              match GetLatestCommitment (engine.operatorID (reg m)) (engine.store (reg m)) with
              | Err _ => m
              | Ok c => (PushCommitmentToAll (order 2%nat) c m).1
              end in
            (m, if (failed =? length ops)%nat then Err (AllSyncsFailed (length ops)) else Ok ())
        end
    end.
End manager.
End federation.

(** ** What the conflict check finds *)

Definition same_wavelength (a b : Lease) : Prop :=
  ∃ wa wb, wavelength a = Some wa ∧ wavelength b = Some wb ∧
    SFeqb (LambdaNm wa) (LambdaNm wb) = true ∧ ChannelNum wa = ChannelNum wb ∧ Band wa = Band wb.

Definition running (t : Z) (l : Lease) : Prop := StartTime l < t ≤ EndTime l.

(** Two active leases run at [t] on one wavelength. *)
Definition clash (t : Z) (a b : Lease) : Prop :=
  Status a = LeaseStatusActive ∧ Status b = LeaseStatusActive ∧ same_wavelength a b ∧ running t a ∧ running t b.

Definition ran_out (t : Z) (l : Lease) : Prop := EndTime l < t ∧ Status l = LeaseStatusActive.

(** That the terms overlap follows from both running: the last test never decides. *)
Lemma check_double_spec now a b :
  checkDoubleAllocation now a b = true ↔ same_wavelength a b ∧ running now a ∧ running now b.
Proof.
  unfold checkDoubleAllocation, same_wavelength, running.
  destruct (wavelength a) as [wa|]; [|naive_solver]. destruct (wavelength b) as [wb|]; [|naive_solver].
  destruct (SFeqb _ _) eqn:El; cbn [negb]; [|naive_solver].
  destruct (Z.eqb_spec (ChannelNum wa) (ChannelNum wb)), (Z.eqb_spec (Band wa) (Band wb)); cbn [negb]; [|naive_solver..].
  destruct (Z.ltb_spec (StartTime a) now), (Z.ltb_spec (StartTime b) now); cbn [negb orb]; [|split; [done|lia]..].
  destruct (Z.ltb_spec (EndTime a) now), (Z.ltb_spec (EndTime b) now); cbn [orb]; [split; [done|lia]..|].
  destruct (Z.ltb_spec (EndTime a) (StartTime b)), (Z.ltb_spec (EndTime b) (StartTime a)); cbn [orb]; [lia..|].
  split; [|done]. intros _. split; [by exists wa, wb|lia].
Qed.

Lemma check_expired_spec now l : checkExpiredLease now l = true ↔ ran_out now l.
Proof. unfold checkExpiredLease, ran_out. rewrite andb_true_iff, Z.ltb_lt, Z.eqb_eq. done. Qed.

Lemma considered_spec now l :
  considered now l = true ↔ is_Some (wavelength l) ∧ Status l = LeaseStatusActive ∧ now ≤ EndTime l.
Proof.
  unfold considered. destruct (wavelength l) as [w|]; [|split; [done|by intros [[? [=]] _]]].
  rewrite andb_true_iff, negb_true_iff, Z.eqb_eq, Z.ltb_ge. split; [intros [? ?]; by eauto|by intros (_ & ? & ?)].
Qed.

(** A pair in a result: of leases of the two sides, found at some reading. *)
Definition sound (clk : nat → Z) (local : list Lease) (remote : list (option Lease)) (c : conflictPair) : Prop :=
  match c with
  | mkPair (Some l) None ty => ty = InvalidityExpiredLease ∧ l ∈ local ∧ ∃ i, ran_out (clk i) l
  | mkPair None (Some r) ty => ty = InvalidityExpiredLease ∧ Some r ∈ remote ∧ ∃ i, ran_out (clk i) r
  | mkPair (Some l) (Some r) ty =>
      ty = InvalidityDoubleAllocation ∧ l ∈ local ∧ Some r ∈ remote ∧ ∃ i, clash (clk i) l r
  | mkPair None None _ => False
  end.

Section exact.
Context (clk : nat → Z).

Lemma expired_local_in ls : ∀ i c, c ∈ expired_local clk i ls ↔
  ∃ j l, ls !! j = Some l ∧ ran_out (clk (i + j)%nat) l ∧ c = mkPair (Some l) None InvalidityExpiredLease.
Proof.
  induction ls as [|l ls IH]; intros i c; cbn [expired_local].
  { split; [by intros ?%not_elem_of_nil|by intros (j & l & ? & _)]. }
  rewrite elem_of_app, IH. split.
  - intros [Hc|(j & l' & Hj & Hr & ->)].
    + destruct (checkExpiredLease _ _) eqn:E; [|by apply not_elem_of_nil in Hc]. apply list_elem_of_singleton in Hc as ->.
      exists 0%nat, l. rewrite Nat.add_0_r. split_and!; [done|by apply check_expired_spec|done].
    + exists (S j), l'. rewrite Nat.add_succ_r. done.
  - intros ([|j] & l' & Hj & Hr & ->); cbn in Hj.
    + injection Hj as ->. left. rewrite Nat.add_0_r in Hr. apply check_expired_spec in Hr as ->. by left.
    + right. exists j, l'. rewrite Nat.add_succ_r in Hr. done.
Qed.

Lemma expired_remote_in rs : ∀ i c, c ∈ expired_remote clk i rs ↔
  ∃ j r, rs !! j = Some (Some r) ∧ ran_out (clk (i + j)%nat) r ∧ c = mkPair None (Some r) InvalidityExpiredLease.
Proof.
  induction rs as [|o rs IH]; intros i c.
  { split; [by intros ?%not_elem_of_nil|by intros (j & l & ? & _)]. }
  assert (c ∈ expired_remote clk (S i) rs ↔ ∃ j r, (o :: rs) !! S j = Some (Some r) ∧ ran_out (clk (i + S j)%nat) r ∧
    c = mkPair None (Some r) InvalidityExpiredLease) as IH' by (rewrite IH; by setoid_rewrite Nat.add_succ_r).
  destruct o as [r|]; cbn [expired_remote].
  - rewrite elem_of_app, IH'. split.
    + intros [Hc|(j & r' & Hr)]; [|by exists (S j), r'].
      destruct (checkExpiredLease _ _) eqn:E; [|by apply not_elem_of_nil in Hc]. apply list_elem_of_singleton in Hc as ->.
      exists 0%nat, r. rewrite Nat.add_0_r. split_and!; [done|by apply check_expired_spec|done].
    + intros ([|j] & r' & Hj & Hr & ->); [|right; by exists j, r']. injection Hj as ->. left.
      rewrite Nat.add_0_r in Hr. apply check_expired_spec in Hr as ->. by left.
  - rewrite IH'. split; [intros (j & r & Hr); by exists (S j), r|]. intros ([|j] & r & Hj & Hr); [done|]. by exists j, r.
Qed.

(** The inner loop. *)
Lemma pairs_of_none now l rs : ∀ i, pairs_of clk now i l rs = None ↔ None ∈ rs.
Proof.
  induction rs as [|[r|] rs IH]; intros i; cbn [pairs_of].
  - split; [done|by intros ?%not_elem_of_nil].
  - rewrite elem_of_cons, <- (IH (S i)). destruct (pairs_of clk now (S i) l rs); cbn; naive_solver.
  - split; [by left|done].
Qed.

Lemma pairs_of_in now l rs : ∀ i cs, pairs_of clk now i l rs = Some cs → ∀ c, c ∈ cs ↔
  ∃ j r, rs !! j = Some (Some r) ∧ considered now r = true ∧ checkDoubleAllocation (clk (i + j)%nat) l r = true ∧
    c = mkPair (Some l) (Some r) InvalidityDoubleAllocation.
Proof.
  induction rs as [|[r|] rs IH]; intros i cs; cbn [pairs_of]; [..|done].
  { intros [= <-] c. split; [by intros ?%not_elem_of_nil|by intros (j & r & ? & _)]. }
  destruct (pairs_of clk now (S i) l rs) as [rest|] eqn:E; [|done]. intros [= <-] c.
  rewrite elem_of_app, (IH _ _ E). split.
  - intros [Hc|(j & r' & Hj & Hr)]; [|exists (S j), r'; by rewrite Nat.add_succ_r].
    destruct (considered now r) eqn:Er, (checkDoubleAllocation (clk i) l r) eqn:Ed; cbn [andb] in Hc;
      [|by apply not_elem_of_nil in Hc..]. apply list_elem_of_singleton in Hc as ->.
    exists 0%nat, r. by rewrite Nat.add_0_r.
  - intros ([|j] & r' & Hj & Hr & Hd & ->); [|right; exists j, r'; by rewrite Nat.add_succ_r in Hd].
    injection Hj as ->. left. rewrite Nat.add_0_r in Hd. rewrite Hr, Hd. by left.
Qed.

(** The outer loop. *)
Lemma all_pairs_none now rs ls : ∀ i,
  all_pairs clk now i ls rs = None ↔ None ∈ rs ∧ ∃ l, l ∈ ls ∧ considered now l = true.
Proof.
  induction ls as [|l ls IH]; intros i; cbn [all_pairs].
  { split; [done|]. by intros (_ & l & ?%not_elem_of_nil & _). }
  setoid_rewrite elem_of_cons. destruct (considered now l) eqn:Ec.
  - destruct (pairs_of clk now i l rs) as [here|] eqn:E; cbn [mbind option_bind].
    + assert (None ∉ rs) as Hn by (rewrite <- (pairs_of_none now l rs i), E; done).
      destruct (all_pairs _ _ _ ls rs) eqn:Ea; cbn; [by split; [|intros [? _]]|]. apply IH in Ea as [? _]. done.
    + apply pairs_of_none in E. split; [|done]. intros _. split; [done|]. exists l. by split; [left|].
  - cbn [mbind option_bind]. destruct (all_pairs _ _ _ ls rs) eqn:Ea; cbn.
    + split; [done|]. intros (Hn & l' & [->|Hl'] & Hc); [congruence|].
      assert (all_pairs clk now (i + length rs) ls rs = None) by (apply IH; eauto). congruence.
    + split; [|done]. intros _. apply IH in Ea as (Hn & l' & ? & ?). split; [done|]. exists l'. by split; [right|].
Qed.

Lemma all_pairs_in now rs ls : ∀ i cs, all_pairs clk now i ls rs = Some cs → ∀ c,
  (c ∈ cs → ∃ l r k, l ∈ ls ∧ Some r ∈ rs ∧ considered now l = true ∧ considered now r = true ∧
     checkDoubleAllocation (clk k) l r = true ∧ c = mkPair (Some l) (Some r) InvalidityDoubleAllocation) ∧
  (∀ l r, l ∈ ls → Some r ∈ rs → considered now l = true → considered now r = true →
     (∀ k, checkDoubleAllocation (clk k) l r = true) → c = mkPair (Some l) (Some r) InvalidityDoubleAllocation → c ∈ cs).
Proof.
  induction ls as [|l ls IH]; intros i cs; cbn [all_pairs].
  { intros [= <-] c. split; [by intros ?%not_elem_of_nil|]. by intros l r ?%not_elem_of_nil. }
  destruct (if considered now l then _ else _) as [here|] eqn:Eh; [|done]. cbn [mbind option_bind].
  destruct (all_pairs _ _ _ ls rs) as [rest|] eqn:Ea; [|done]. intros [= <-] c. destruct (IH _ _ Ea c) as [Hs Hc].
  rewrite elem_of_app. split.
  - intros [Hin|Hin].
    + destruct (considered now l) eqn:El; [|injection Eh as <-; by apply not_elem_of_nil in Hin].
      apply (pairs_of_in _ _ _ _ _ Eh) in Hin as (j & r & Hj & Hr & Hd & ->). exists l, r, (i + j)%nat.
      split_and!; [by left|by eapply list_elem_of_lookup_2|done..].
    + destruct (Hs Hin) as (l' & r & k & Hl' & Hr). exists l', r, k. split; [by right|done].
  - intros l' r [->|Hl']%elem_of_cons Hr Hcl Hcr Hd ->; apply elem_of_app.
    + left. rewrite Hcl in Eh. apply (pairs_of_in _ _ _ _ _ Eh). apply list_elem_of_lookup in Hr as [j Hj].
      exists j, r. split_and!; [done..|apply Hd|done].
    + right. by eapply Hc.
Qed.
End exact.

(** C15: The conflict check between our leases and a peer's.  If the clock reads between [lo]
    and [hi] throughout, every pair reported is a lease of ours or of the peer's that is
    active although it ran out before a reading, or a lease of each that both are active
    and run, at a reading, on one wavelength; whatever is so from [lo] to [hi] is reported;
    and the check fails, dereferencing nil, exactly when the peer's list holds a null and
    some lease of ours is active, has a wavelength and has not ended at the first
    reading.  Both leases must have started, the peer's expired leases count too, and the
    wavelengths are compared by wavelength, channel and band: section 7.2 of DESIGN.md says
    otherwise on all three, which are findings. *)
Theorem find_conflicts_exact (clk : nat → Z) (lo hi : Z) (local : list Lease) (remote : list (option Lease)) :
  (∀ i, lo ≤ clk i ≤ hi) →
  match findConflicts clk local remote with
  | None => None ∈ remote ∧ ∃ l, l ∈ local ∧ considered (clk 0%nat) l = true
  | Some cs =>
      ¬ (None ∈ remote ∧ ∃ l, l ∈ local ∧ considered (clk 0%nat) l = true) ∧
      Forall (sound clk local remote) cs ∧
      (∀ l, l ∈ local → ran_out lo l → mkPair (Some l) None InvalidityExpiredLease ∈ cs) ∧
      (∀ r, Some r ∈ remote → ran_out lo r → mkPair None (Some r) InvalidityExpiredLease ∈ cs) ∧
      (∀ l r, l ∈ local → Some r ∈ remote → clash lo l r → clash hi l r →
         mkPair (Some l) (Some r) InvalidityDoubleAllocation ∈ cs)
  end.
Proof.
  intros Hclk. unfold findConflicts. set (i0 := (1 + length local + length remote)%nat).
  pose proof (all_pairs_none clk (clk 0%nat) remote local i0) as Hn.
  destruct (all_pairs clk (clk 0%nat) i0 local remote) as [ps|] eqn:E; cbn [mbind option_bind]; [|by apply Hn].
  assert (∀ t t' l, t ≤ t' → ran_out t l → ran_out t' l) as Hmono by (unfold ran_out; intros; lia).
  split_and!.
  - by intros ?%Hn.
  - apply Forall_forall. intros c. rewrite !elem_of_app. intros [Hc|[Hc|Hc]].
    + apply expired_local_in in Hc as (j & l & Hj & Hr & ->). split_and!; [done|by eapply list_elem_of_lookup_2|eauto].
    + apply expired_remote_in in Hc as (j & r & Hj & Hr & ->). split_and!; [done|by eapply list_elem_of_lookup_2|eauto].
    + destruct (all_pairs_in clk _ _ _ _ _ E c) as [Hs _]. destruct (Hs Hc) as (l & r & k & Hl & Hr & Cl & Cr & Hd & ->).
      apply considered_spec in Cl as (_ & Sl & _), Cr as (_ & Sr & _). apply check_double_spec in Hd.
      split_and!; [done..|]. by exists k.
  - intros l [j Hj]%list_elem_of_lookup Hr. apply elem_of_app. left. apply expired_local_in. exists j, l.
    split_and!; [done| |done]. eapply Hmono; [apply Hclk|done].
  - intros r [j Hj]%list_elem_of_lookup Hr. rewrite !elem_of_app. right. left. apply expired_remote_in. exists j, r.
    split_and!; [done| |done]. eapply Hmono; [apply Hclk|done].
  - intros l r Hl Hr (Sl & Sr & Hw & Rl & Rr) (_ & _ & _ & Rl' & Rr'). rewrite !elem_of_app. right. right.
    destruct (all_pairs_in clk _ _ _ _ _ E (mkPair (Some l) (Some r) InvalidityDoubleAllocation)) as [_ Hc].
    pose proof (Hclk 0%nat) as H0. unfold running in *. destruct Hw as (wl & wr & Wl & Wr & Heq).
    apply (Hc l r Hl Hr); [..|done].
    + apply considered_spec. rewrite Wl. split_and!; [by eexists|done|lia].
    + apply considered_spec. rewrite Wr. split_and!; [by eexists|done|lia].
    + intros k. pose proof (Hclk k). apply check_double_spec. unfold running. split; [by exists wl, wr|lia].
Qed.

(** Where the check departs from the design document: leases that have not started are
    never reported, however they overlap, and the grid, a part of the wavelength's key, is
    not compared. *)
Definition with_grid (g : float) (l : Lease) : Lease :=
  mkLease (ID l) ((λ w, mkWavelength (LambdaNm w) (ChannelNum w) (Band w) g) <$> wavelength l) (EndpointID l)
    (OperatorID l) (Status l) (StartTime l) (EndTime l) (CreatedAt l) (UpdatedAt l) (TokenHash l) (ParentHash l).

Theorem double_allocation_not_design (now : Z) (g : float) (a b : Lease) :
  (now ≤ StartTime a ∨ now ≤ StartTime b → checkDoubleAllocation now a b = false) ∧
  checkDoubleAllocation now (with_grid g a) b = checkDoubleAllocation now a b.
Proof.
  unfold checkDoubleAllocation, with_grid. cbn [wavelength StartTime EndTime]. split.
  - intros Hst. destruct (wavelength a), (wavelength b); try done. repeat (case_match; [done|]).
    destruct (Z.ltb_spec (StartTime a) now), (Z.ltb_spec (StartTime b) now); cbn in *; done || lia.
  - by destruct (wavelength a).
Qed.

(** ** What a peer can do *)

Section trust.
Context `{GoJson, !GoLeaseJson, !GoCommitJson, !GoDirJson, !GoPeerJson, GoCrypto, Badger, !BadgerSpec}.
Import commitments federation.

Definition commitment_request (op : Operator) (id : text) : PeerRequest :=
  client.get (o_Endpoint op ++ lit "/v1/commitments/" ++ id ++ lit "/" ++ show 0) [].

Definition leases_request (op : Operator) (id : text) : PeerRequest :=
  client.get (o_Endpoint op ++ lit "/v1/leases") (client.leases_query (active_leases_of id)).

(** The commitment a peer answers with next, after any redirects. *)
Definition answered (op : Operator) (id : text) (n : Net) : option MerkleCommitment :=
  match (http_do (commitment_request op id) n).2 with
  | Some (mkAnswer code _ body) => if code =? 200 then go_decode_commitment body else None
  | None => None
  end.

(** The requests one call sends: the first is the client's own, each further one is where
    the answer to the one before it redirects. *)
Record trail (n : Net) (q : PeerRequest) (l : list PeerRequest) : Prop := {
  trail_head : head l = Some q;
  trail_length : (length l ≤ 10)%nat;
  trail_hop i q1 q2 : l !! i = Some q1 → l !! S i = Some q2 →
    ∃ a, answer n (length (sent n) + i) q1 = Some a ∧ next_hop q1 a = Follow q2;
}.

(** Without a redirect the call sends one request. *)
Lemma trail_direct n q l :
  trail n q l → (∀ a q', answer n (length (sent n)) q = Some a → next_hop q a ≠ Follow q') → l = [q].
Proof.
  intros [Hh _ Hhop] Hno. destruct l as [|q0 [|q1 l]]; [done|by injection Hh as ->|]. injection Hh as ->.
  destruct (Hhop 0%nat q q1) as (a & Ha & Hf); [done..|]. rewrite Nat.add_0_r in Ha. by destruct (Hno a q1 Ha).
Qed.

Lemma http_send_trail hops : ∀ q n,
  ∃ l, (http_send hops q n).1 = mkNet (sent n ++ l) (answer n) ∧ head l = Some q ∧ (length l ≤ S hops)%nat ∧
    ∀ i q1 q2, l !! i = Some q1 → l !! S i = Some q2 →
      ∃ a, answer n (length (sent n) + i) q1 = Some a ∧ next_hop q1 a = Follow q2.
Proof.
  induction hops as [|hops IH]; intros q n; cbn [http_send];
    (destruct (answer n (length (sent n)) q) as [a|] eqn:Ea; [destruct (next_hop q a) as [| |q'] eqn:Eh|]);
    try (exists [q]; split_and!; [done|done|cbn; lia|by intros [|[]]]).
  destruct (IH q' (mkNet (sent n ++ [q]) (answer n))) as (l & -> & Hl & Hlen & Hhop). cbn [sent answer] in *.
  exists (q :: l). split_and!; [by rewrite <- app_assoc|done|cbn; lia|].
  intros [|i] q1 q2 E1 E2; cbn in E1, E2.
  - injection E1 as <-. destruct l as [|q0 l]; [done|]. cbn in E2, Hl. exists a. rewrite Nat.add_0_r. split; [done|congruence].
  - destruct (Hhop i q1 q2 E1 E2) as (a' & Ha' & Hf). exists a'. split; [|done]. rewrite length_app in Ha'. cbn in Ha'.
    by replace (length (sent n) + S i)%nat with (length (sent n) + 1 + i)%nat by lia.
Qed.

Lemma http_do_trail q n : ∃ l, (http_do q n).1 = mkNet (sent n ++ l) (answer n) ∧ trail n q l.
Proof. destruct (http_send_trail 9 q n) as (l & Hs & Hh & Hl & Hhop). exists l. split; [done|]. by split. Qed.

Lemma request_sends {A} q codes (dec : text → option A) n :
  ∃ l, (client.request q codes dec n).1 = mkNet (sent n ++ l) (answer n) ∧ trail n q l.
Proof.
  destruct (http_do_trail q n) as (l & Hs & Ht). exists l. split; [|done]. unfold client.request.
  destruct (http_do q n) as [n' [[code loc body]|]]; done.
Qed.

Lemma get_commitment_spec op id n :
  ∃ e l, client.GetCommitment (o_Endpoint op) id 0 n =
    (mkNet (sent n ++ l) (answer n), match answered op id n with Some c => Ok c | None => Err e end) ∧
    trail n (commitment_request op id) l.
Proof.
  unfold client.GetCommitment, client.request, answered. fold (commitment_request op id).
  destruct (http_do_trail (commitment_request op id) n) as (l & Hs & Ht).
  destruct (http_do _ n) as [n' [[code loc body]|]]; cbn [fst snd] in *; subst n'; [|by eexists _, l].
  destruct (Z.eqb_spec code 200) as [->|Hne].
  - rewrite bool_decide_eq_true_2 by set_solver. destruct (go_decode_commitment body); by exists DecodeFailed, l.
  - rewrite bool_decide_eq_false_2 by set_solver. by eexists _, l.
Qed.

(** The rest of a synchronisation stores nothing. *)
Definition after_commitment (clk : nat → Z) (now : Z) (id : text) (op : Operator) (m : Manager) : Manager * result unit FedError :=
  match over_net FetchLeasesFailed (client.GetLeases (o_Endpoint op) (active_leases_of id)) m with
  | (m, Err e) => (m, Err e)
  | (m, Ok peerLeases) =>
      match ListLeases (active_leases_of (m_operatorID m)) (engine.store (reg m)) with
      | Err e => (m, Err (ListLocalFailed e))
      | Ok localLeases =>
          match findConflicts clk localLeases peerLeases with
          | None => (m, Err FedPanicked)
          | Some _ => (with_operators m (alter (seen_at now) id (operators m)), Ok ())
          end
      end
  end.

Lemma after_commitment_spec clk now id op m :
  let '(m', r) := after_commitment clk now id op m in
  reg m' = reg m ∧ m_operatorID m' = m_operatorID m ∧
  (∃ l, sent (net m') = sent (net m) ++ l ∧ trail (net m) (leases_request op id) l) ∧
  answer (net m') = answer (net m) ∧
  operators m' = if is_ok r then alter (seen_at now) id (operators m) else operators m.
Proof.
  unfold after_commitment, over_net, client.GetLeases. fold (leases_request op id).
  destruct (request_sends (leases_request op id) [200] go_decode_leases (net m)) as (l & Hs & Ht).
  destruct (client.request _ _ _ (net m)) as [n [ls|e]]; cbn in Hs |- *; subst n.
  - destruct (ListLeases _ _) as [local|e]; [|by eauto 10]. destruct (findConflicts clk local ls); by eauto 10.
  - by eauto 10.
Qed.

Context `{!GoCommitJsonSpec}.

Lemma save_commitment_spec c d : c_OperatorID c ≠ [] →
  let d' := (SaveCommitment c d).1 in
  (SaveCommitment c d).2 = Ok () ∧ GetLatestCommitment (c_OperatorID c) d' = Ok c ∧
  GetCommitment (c_OperatorID c) (c_BlockHeight c) d' = Ok c ∧
  ∀ k, k ≠ latestKey (c_OperatorID c) → k ≠ heightKey (c_OperatorID c) (c_BlockHeight c) → db_get k d' = db_get k d.
Proof.
  intros Hop. cbv zeta. unfold SaveCommitment, GetLatestCommitment, GetCommitment, read_commitment.
  rewrite !(bool_decide_eq_false_2 (c_OperatorID c = [])) by done. cbn [fst snd].
  split; [done|]. split; [by rewrite get_set, go_commitment_roundtrip|]. split.
  - destruct (decide (latestKey (c_OperatorID c) = heightKey (c_OperatorID c) (c_BlockHeight c))) as [<-|Hne].
    + by rewrite get_set, go_commitment_roundtrip.
    + by rewrite get_set_ne, get_set, go_commitment_roundtrip by done.
  - intros k Hk1 Hk2. by rewrite !get_set_ne by done.
Qed.

(** C13: What a synchronisation believes.  If the peer, or whoever it redirects to, answers
    the first request with a commitment that names any operator, be it the peer, another one or the registry itself,
    that commitment is then the latest of that operator, whatever its signature, height and
    root, and whatever becomes of the rest of the synchronisation; no other key of the
    database changes, and the requests sent are the one for the commitment and the one for
    the leases, each followed by its redirects.  If it does not, or names none, the database is left as it is and the
    synchronisation fails.  Only a synchronisation that succeeds marks the peer as seen. *)
Theorem sync_trusts_peer (clk : nat → Z) (now : Z) (id : text) (op : Operator) (m : Manager) :
  operators m !! id = Some op →
  let '(m', r) := SyncWithOperator clk now id m in
  let d := engine.store (reg m) in
  let d' := engine.store (reg m') in
  match answered op id (net m) with
  | Some c =>
      if bool_decide (c_OperatorID c = []) then d' = d ∧ r = Err (SaveFailed EmptyOperator)
      else
        GetLatestCommitment (c_OperatorID c) d' = Ok c ∧ GetCommitment (c_OperatorID c) (c_BlockHeight c) d' = Ok c ∧
        (∀ k, k ≠ latestKey (c_OperatorID c) → k ≠ heightKey (c_OperatorID c) (c_BlockHeight c) → db_get k d' = db_get k d) ∧
        ∃ l1 l2, sent (net m') = sent (net m) ++ l1 ++ l2 ∧ trail (net m) (commitment_request op id) l1 ∧
          trail (mkNet (sent (net m) ++ l1) (answer (net m))) (leases_request op id) l2
  | None => d' = d ∧ ∃ e, r = Err (FetchCommitmentFailed e)
  end ∧
  operators m' = if is_ok r then alter (seen_at now) id (operators m) else operators m.
Proof.
  intros Hop. unfold SyncWithOperator. rewrite Hop. unfold over_net at 1.
  destruct (get_commitment_spec op id (net m)) as (e & l1 & -> & Ht1).
  destruct (answered op id (net m)) as [c|]; cbn [map_err].
  - case_bool_decide as Ec.
    + unfold SaveCommitment. rewrite Ec. rewrite bool_decide_eq_true_2 by done. done.
    + destruct (save_commitment_spec c (engine.store (reg m)) Ec) as (Hr & Hl & Hh & Hk).
      cbn [with_net reg]. destruct (SaveCommitment c (engine.store (reg m))) as [d rs]. cbn in Hr, Hl, Hh, Hk. subst rs.
      match goal with |- context [with_db ?m0 d] => pose proof (after_commitment_spec clk now id op (with_db m0 d)) as Ha end.
      unfold after_commitment in Ha. case_match; destruct Ha as (Hreg & _ & (l2 & Hsent & Ht2) & _ & Hops).
      rewrite Hreg, Hsent. cbn in Hops, Ht2 |- *. rewrite <- app_assoc. split_and!; [done..| |done]. by exists l1, l2.
  - split; [|done]. split; [done|by eexists].
Qed.

(** A registration that succeeds, and one that the store refuses. *)
Lemma register_operator_ok t op m : (RegisterOperator t op m).2 = Ok () →
  let m' := (RegisterOperator t op m).1 in
  operators m' = <[o_ID op := joined t op]> (operators m) ∧ m_operatorID m' = m_operatorID m ∧ o_ID op ≠ [] ∧
  is_Some (db_get (directory.prefixOperator ++ o_ID op) (engine.store (reg m'))).
Proof.
  unfold RegisterOperator, directory.CreateOperator, create_row. case_bool_decide; [done|]. case_bool_decide; [done|].
  case_bool_decide; [done|]. case_bool_decide; [done|]. case_bool_decide; [done|]. intros _. cbn.
  split_and!; [done..|]. rewrite get_set. by eexists.
Qed.

Lemma register_operator_exists t op m :
  operators m !! o_ID op = None → o_ID op ≠ [] → o_Endpoint op ≠ [] →
  is_Some (db_get (directory.prefixOperator ++ o_ID op) (engine.store (reg m))) →
  RegisterOperator t op m = (with_db m (engine.store (reg m)), Err (PersistFailed (RowExists (o_ID op)))).
Proof.
  intros Hn Hid Hep Hs. unfold RegisterOperator, directory.CreateOperator, create_row. cbn [joined o_ID].
  rewrite !(bool_decide_eq_false_2 (o_ID op = [])), (bool_decide_eq_false_2 (o_Endpoint op = [])) by done.
  rewrite bool_decide_eq_false_2 by (rewrite Hn; by intros [? [=]]). by rewrite bool_decide_eq_true_2 by done.
Qed.

(** An operator that was removed cannot register again: its record stays in the store. *)
Theorem removed_operator_cannot_return (t t' : nat → Z) (op op' : Operator) (m : Manager) :
  (RegisterOperator t op m).2 = Ok () → o_ID op ≠ m_operatorID m → o_ID op' = o_ID op → o_Endpoint op' ≠ [] →
  let m' := (RegisterOperator t op m).1 in
  (RemoveOperator (o_ID op) m').2 = Ok () ∧
  (RegisterOperator t' op' (RemoveOperator (o_ID op) m').1).2 = Err (PersistFailed (RowExists (o_ID op))).
Proof.
  intros Hok Hself Heq Hep m'. destruct (register_operator_ok t op m Hok) as (Ho & Hi & Hid & Hs). fold m' in Ho, Hi, Hs.
  unfold RemoveOperator. rewrite Hi, bool_decide_eq_false_2 by done.
  rewrite bool_decide_eq_false_2 by by rewrite Ho, lookup_insert_eq. split; [done|].
  rewrite register_operator_exists; rewrite ?Heq; try done. apply lookup_delete_eq.
Qed.

(** Whoever a commitment is pushed to can have it delivered anywhere else: an answer 307 or
    308 makes the client post the same body to the address the answer names. *)
Theorem redirects_followed (ep url : text) (c : MerkleCommitment) (code : Z) (body : text) (n : Net) :
  let push := client.post_json (ep ++ lit "/v1/commitments") (go_render (commitment_json c)) in
  code = 307 ∨ code = 308 → answer n (length (sent n)) push = Some (mkAnswer code (ToLocation url) body) →
  ∃ rest, sent (client.PushCommitment ep c n).1 =
    sent n ++ push :: client.post_json url (go_render (commitment_json c)) :: rest.
Proof.
  cbv zeta. intros Hcode Ha. unfold client.PushCommitment, client.request, http_do. set (push := client.post_json _ _) in *.
  assert (http_send 9 push n = http_send 8 (client.post_json url (rq_body push)) (mkNet (sent n ++ [push]) (answer n))) as ->
    by (cbn [http_send]; rewrite Ha; unfold next_hop; cbn [a_code]; by destruct Hcode as [-> | ->]).
  match goal with |- context [http_send 8 ?q0 ?n0] =>
    destruct (http_send_trail 8 q0 n0) as (l & Hs & Hh & _); destruct (http_send 8 q0 n0) as [n' [[]|]] end;
    cbn [fst sent answer] in Hs; subst n'; destruct l as [|q l]; try done; injection Hh as ->;
    exists l; cbn [fst sent]; by rewrite <- app_assoc.
Qed.

(** ** What gossip can touch *)

(** A run that only sends: each request is one of ours, with [P], or is where the answer to
    an earlier request of the run redirects. *)
Record sends (P : PeerRequest → Prop) (n n' : Net) : Prop := {
  sends_prefix : sent n `prefix_of` sent n';
  sends_answer : answer n' = answer n;
  sends_new k q : (length (sent n) ≤ k)%nat → sent n' !! k = Some q →
    P q ∨ ∃ k' q' a, (length (sent n) ≤ k' < k)%nat ∧ sent n' !! k' = Some q' ∧
            answer n k' q' = Some a ∧ next_hop q' a = Follow q;
}.

#[local] Instance sends_preorder P : PreOrder (sends P).
Proof.
  split.
  - intros n. split; [done|done|]. intros k q Hk Hq%lookup_lt_Some. lia.
  - intros n1 n2 n3 [P1 A1 F1] [P2 A2 F2]. split; [by etrans|by rewrite A2|]. intros k q Hk Hq.
    pose proof (prefix_length _ _ P1) as L1. destruct (decide (k < length (sent n2))%nat) as [Hlt|Hge].
    + assert (∀ j x, sent n2 !! j = Some x → sent n3 !! j = Some x) as Hin by (intros j x Hj; by eapply prefix_lookup_Some).
      destruct (lookup_lt_is_Some_2 _ _ Hlt) as [q0 Hq0]. pose proof (Hin _ _ Hq0) as Hq0'. rewrite Hq in Hq0'.
      injection Hq0' as <-. destruct (F1 k q Hk Hq0) as [?|(k' & q' & a & ? & Hk' & ? & ?)]; [by left|right].
      exists k', q', a. split_and!; [lia..|by apply Hin|done|done].
    + destruct (F2 k q ltac:(lia) Hq) as [?|(k' & q' & a & ? & ? & Ha & ?)]; [by left|right].
      exists k', q', a. rewrite A1 in Ha. split_and!; [lia..|done|done|done].
Qed.

Lemma sends_mono (P Q : PeerRequest → Prop) n n' : (∀ q, P q → Q q) → sends P n n' → sends Q n n'.
Proof. intros HPQ [Hp Ha Hn]. split; [done|done|]. intros k q Hk Hq. destruct (Hn k q Hk Hq); [left|right]; auto. Qed.

Lemma sends_request {A} (P : PeerRequest → Prop) q codes (dec : text → option A) n :
  P q → sends P n (client.request q codes dec n).1.
Proof.
  intros Hq. destruct (request_sends q codes dec n) as (l & -> & [Hh _ Hhop]).
  split; cbn [sent answer]; [by apply prefix_app_r|done|]. intros k q2 Hk Hq2. rewrite lookup_app_r in Hq2 by done.
  destruct (k - length (sent n))%nat as [|i] eqn:E.
  - left. destruct l; [done|]. cbn in Hq2, Hh. congruence.
  - right. destruct (lookup_lt_is_Some_2 l i) as [q1 Hq1]; [apply lookup_lt_Some in Hq2; lia|].
    destruct (Hhop i q1 q2 Hq1 Hq2) as (a & Ha & Hf). exists (length (sent n) + i)%nat, q1, a.
    split_and!; [lia..| |done|done]. rewrite lookup_app_r by lia.
    by replace (length (sent n) + i - length (sent n))%nat with i by lia.
Qed.

(** A request to the address of a registered peer. *)
Definition to_peer (m : Manager) (q : PeerRequest) : Prop :=
  ∃ id op, operators m !! id = Some op ∧ o_Endpoint op `prefix_of` rq_url q.

(** What the peers can change: no lease and no schema, neither who the peers are nor where
    they are; and requests go to peers, or to where they redirect. *)
Record confined (m m' : Manager) : Prop := {
  cf_store k : schema_key k ∨ lease_key k → db_get k (engine.store (reg m')) = db_get k (engine.store (reg m));
  cf_peers id : o_Endpoint <$> operators m' !! id = o_Endpoint <$> operators m !! id;
  cf_sent : sends (to_peer m) (net m) (net m');
}.

#[local] Instance confined_preorder : PreOrder confined.
Proof.
  split.
  - intros m. by split.
  - intros m1 m2 m3 [S1 P1 N1] [S2 P2 N2]. split.
    + intros k Hk. by rewrite S2, S1.
    + intros id. by rewrite P2, P1.
    + etransitivity; [exact N1|]. eapply sends_mono; [|exact N2]. intros q (id & op & Hop & Hq). specialize (P1 id).
      rewrite Hop in P1. destruct (operators m1 !! id) as [op'|] eqn:E; [|done]. cbn in P1. injection P1 as P1.
      exists id, op'. by rewrite <- P1.
Qed.

(** A call that has its effect on the network only. *)
Lemma confined_net m n : sends (to_peer m) (net m) n → confined m (with_net m n).
Proof. by split. Qed.

Lemma confined_store m d :
  (∀ k, schema_key k ∨ lease_key k → db_get k d = db_get k (engine.store (reg m))) → confined m (with_db m d).
Proof. intros Hd. by split. Qed.

Lemma confined_seen m now id : confined m (with_operators m (alter (seen_at now) id (operators m))).
Proof.
  split; [done| |done]. intros id'. cbn. destruct (decide (id = id')) as [->|Hne].
  - rewrite lookup_alter_eq. by destruct (operators m !! id').
  - by rewrite lookup_alter_ne.
Qed.

Lemma sync_confined clk now id m : confined m (SyncWithOperator clk now id m).1.
Proof.
  unfold SyncWithOperator. destruct (operators m !! id) as [op|] eqn:Hop; [|done]. unfold over_net at 1, client.GetCommitment.
  match goal with |- context [client.request ?q ?cs ?f (net m)] =>
    assert (sends (to_peer m) (net m) (client.request q cs f (net m)).1) as Hs
      by (apply sends_request; exists id, op; split; [done|]; by apply prefix_app_r);
    destruct (client.request q cs f (net m)) as [n r] end. cbn [fst] in Hs. apply confined_net in Hs as Hc1.
  destruct r as [c|]; cbn [map_err]; [|exact Hc1]. cbn [with_net reg].
  pose proof (save_frame c (engine.store (reg m))) as Hf.
  destruct (commitments.SaveCommitment c (engine.store (reg m))) as [d [[]|e]]; cbn in Hf;
    (assert (confined m (with_db (with_net m n) d)) as Hc2 by (etransitivity; [exact Hc1|by apply confined_store])); [|exact Hc2].
  unfold over_net, client.GetLeases.
  match goal with |- context [client.request ?q ?cs ?f ?n0] =>
    assert (sends (to_peer m) n0 (client.request q cs f n0).1) as Hs2
      by (apply sends_request; exists id, op; split; [done|]; by apply prefix_app_r);
    destruct (client.request q cs f n0) as [n2 r2] end. cbn [fst] in Hs2.
  assert (confined m (with_net (with_db (with_net m n) d) n2)) as Hc3.
  { etransitivity; [exact Hc2|]. by apply confined_net. }
  destruct r2 as [ls|]; cbn [map_err]; [|exact Hc3].
  destruct (ListLeases _ _) as [local|]; [|exact Hc3]. destruct (findConflicts clk local ls); [|exact Hc3].
  etransitivity; [exact Hc3|]. apply confined_seen.
Qed.

Lemma sync_all_confined clk now ops : ∀ i m, confined m (sync_all clk now i ops m).1.
Proof.
  induction ops as [|p ops IH]; intros i m; cbn [sync_all]; [done|].
  pose proof (sync_confined (clk i) (now i) p.1 m) as Hs. destruct (SyncWithOperator _ _ _ m) as [m' r]. cbn in Hs.
  assert (confined m (sync_all clk now (S i) ops m').1) as Hall by (etransitivity; [exact Hs|apply IH]).
  destruct (sync_all clk now (S i) ops m') as [m'' r']. destruct r as [|e]; [exact Hall|]. destruct e; try exact Hall. exact Hs.
Qed.

(** A request to one of the peers of a walk. *)
Definition to_one_of (ops : list (text * Operator)) (q : PeerRequest) : Prop :=
  ∃ p, p ∈ ops ∧ o_Endpoint p.2 `prefix_of` rq_url q.

Lemma to_one_of_cons p ops q : to_one_of ops q → to_one_of (p :: ops) q.
Proof. intros (p' & Hp & Hq). exists p'. by split; [right|]. Qed.

Lemma sends_next {A} p ops q codes (dec : text → option A) n n'' :
  o_Endpoint p.2 `prefix_of` rq_url q → sends (to_one_of ops) (client.request q codes dec n).1 n'' →
  sends (to_one_of (p :: ops)) n n''.
Proof.
  intros Hq Hs. etransitivity; [apply (sends_request _ q codes dec)|eapply sends_mono; [|exact Hs]].
  - exists p. by split; [left|].
  - apply to_one_of_cons.
Qed.

Lemma push_all_sends c ops : ∀ n, sends (to_one_of ops) n (push_all c ops n).1.
Proof.
  induction ops as [|p ops IH]; intros n; cbn [push_all]; [done|]. unfold client.PushCommitment.
  match goal with |- context [client.request ?q ?cs ?f n] =>
    pose proof (sends_next p ops q cs f n) as Hs; destruct (client.request q cs f n) as [n' r] end. cbn [fst] in Hs.
  specialize (IH n'). destruct (push_all c ops n') as [n'' failed]. cbn [fst] in *.
  apply Hs; [by apply prefix_app_r|done].
Qed.

Lemma conflicts_with_sends clk local ops : ∀ i n, sends (to_one_of ops) n (conflicts_with clk i local ops n).1.
Proof.
  induction ops as [|p ops IH]; intros i n; cbn [conflicts_with]; [done|]. unfold client.GetLeases.
  match goal with |- context [client.request ?q ?cs ?f n] =>
    pose proof (λ n'', sends_next p ops q cs f n n'' ltac:(by apply prefix_app_r)) as Hs;
    destruct (client.request q cs f n) as [n' r] end. cbn [fst] in Hs.
  specialize (IH (S i) n'). destruct r as [ls|]; [|by apply Hs].
  destruct (findConflicts (clk i) local ls); [|by apply Hs].
  destruct (conflicts_with clk (S i) local ops n') as [n'' rest]. by apply Hs.
Qed.

Lemma confined_walk (order : Order) m n :
  (∀ ops, order ops ≡ₚ map_to_list ops) → sends (to_one_of (active_ops order m)) (net m) n → confined m (with_net m n).
Proof.
  intros Hord Hs. apply confined_net. eapply sends_mono; [|exact Hs].
  intros r ([id op] & [_ Hp]%list_elem_of_filter & Hr). exists id, op. split; [|done].
  rewrite (Hord (operators m)) in Hp. by apply elem_of_map_to_list in Hp.
Qed.

(** C14: What a round of gossip can touch.  Whatever the peers answer, in whatever orders Go
    walks the operators, and also if the round fails or panics: no lease and no schema of
    the registry changes, the peers and their addresses stay as they are, and every request
    sent goes to the address of a registered peer or to where the answer to an earlier
    request of the round redirects it (301, 302, 303, 307 or 308).  So the first request of
    every chain goes to a registered peer; where a peer sends the client from there is not
    restricted ([redirects_followed]). *)
Theorem gossip_confined (order : nat → Order) (clk : nat → nat → nat → Z) (t : nat → nat → Z) (m : Manager) :
  (∀ i ops, order i ops ≡ₚ map_to_list ops) → confined m (gossipRound order clk t m).1.
Proof.
  intros Hord. unfold gossipRound. case_bool_decide; [done|].
  match goal with |- context [sync_all ?a ?b ?c ?d m] =>
    pose proof (sync_all_confined a b d c m) as Hc1; destruct (sync_all a b c d m) as [m1 [failed|e]] end; [|exact Hc1]. cbn in Hc1.
  assert (confined m (DetectConflicts (order 1%nat) (clk 1%nat) (t 1%nat) m1).1) as Hc2.
  { etransitivity; [exact Hc1|]. unfold DetectConflicts. destruct (ListLeases _ _) as [local|]; [|done].
    pose proof (conflicts_with_sends (clk 1%nat) local (active_ops (order 1%nat) m1) 0 (net m1)) as Hs.
    destruct (conflicts_with _ _ _ _ _) as [n r]. by apply (confined_walk (order 1%nat)). }
  destruct (DetectConflicts _ _ _ m1) as [m2 r]. cbn in Hc2.
  assert (∀ m3, confined m2 m3 → confined m m3) as Hc3 by (intros m3 Hc3; by etransitivity).
  assert (confined m2 (match GetLatestCommitment (engine.operatorID (reg m2)) (engine.store (reg m2)) with
                       | Err _ => m2
                       | Ok c => (PushCommitmentToAll (order 2%nat) c m2).1
                       end)) as Hc4.
  { destruct (GetLatestCommitment _ _) as [c|]; [|done]. unfold PushCommitmentToAll.
    pose proof (push_all_sends c (active_ops (order 2%nat) m2) (net m2)) as Hs.
    destruct (push_all _ _ _) as [n f]. by apply (confined_walk (order 2%nat)). }
  destruct r as [|e]; [by apply Hc3|]. destruct e; by apply Hc3.
Qed.
End trust.

(** ** Witnesses *)

Module FederationExamples.
Import ToyStore ToyCrypto LedgerExamples commitments federation.

Definition operator_of (j : json) : option Operator :=
  match j with
  | JObj [(_, JStr id); (_, JStr name); (_, pk); (_, JStr ep); (_, JNum st); (_, JStr [ja]); (_, JStr [ls])] =>
      pk ← bytes_of pk; Some (mkOperator id name pk ep st ja ls)
  | _ => None
  end.

#[export] Instance toy_dir_json : GoDirJson := {|
  go_unmarshal_endpoint _ := None;
  go_unmarshal_operator t := parse t ≫= operator_of;
|}.

Definition leases_of (j : json) : option (list (option Lease)) :=
  match j with
  | JArr l => Some ((λ j, match j with JNull => None | _ => lease_of j end) <$> l)
  | _ => None
  end.

#[export] Instance toy_peer_json : GoPeerJson := {|
  go_decode_commitment t := parse t ≫= commitment_of;
  go_decode_leases t := parse t ≫= leases_of;
  go_decode_operator t := parse t ≫= operator_of;
  go_decode_translations _ := None;
|}.

(** A peer that answers with a commitment to nothing in the registry's own name, unsigned,
    and with no leases. *)
Definition forged : MerkleCommitment := mkCommitment (lit "op-alice") (replicate 32 7) 5 [] 0 99.

Definition mallory : Operator := mkOperator (lit "op-mallory") (lit "Mallory") [1] (lit "http://m") 1 0 0.

Definition lies (i : nat) (r : PeerRequest) : option HttpAnswer :=
  Some (mkAnswer 200 NoLocation
          (if bool_decide (rq_url r = lit "http://m/v1/leases") then render (JArr []) else render (commitment_json forged))).

Definition m0 : Manager := (RegisterOperator (λ _, 1) mallory (NewManager e1 (lit "op-alice") (mkNet [] lies))).1.

(** The same peer, which sends the push on to an address of its choice. *)
Definition diverts (i : nat) (r : PeerRequest) : option HttpAnswer :=
  if bool_decide (rq_url r = lit "http://m/v1/commitments")
  then Some (mkAnswer 307 (ToLocation (lit "http://victim/")) []) else lies i r.

Definition m1 : Manager := (RegisterOperator (λ _, 1) mallory (NewManager e1 (lit "op-alice") (mkNet [] diverts))).1.

Lemma sync_trusts_peer_witness :
  operators m0 !! lit "op-mallory" = Some (joined (λ _, 1) mallory) ∧
  GetLatestCommitment (lit "op-alice") (engine.store (reg (SyncWithOperator (λ _, 3) 3 (lit "op-mallory") m0).1)) = Ok forged ∧
  VerifyMerkleCommitment forged (crypto.GetPublicKey (engine.crypto_engine e1)) ≠ Ok ().
Proof.
  assert (operators m0 !! lit "op-mallory" = Some (joined (λ _, 1) mallory)) as Hop by (vm_compute; reflexivity).
  split; [exact Hop|]. split; [|vm_compute; discriminate].
  pose proof (sync_trusts_peer (λ _, 3) 3 (lit "op-mallory") _ m0 Hop) as Hs.
  assert (answered (joined (λ _, 1) mallory) (lit "op-mallory") (net m0) = Some forged) as Ha by (vm_compute; reflexivity).
  destruct (SyncWithOperator _ _ _ m0) as [m' r]. destruct Hs as [Hs _]. rewrite Ha in Hs.
  rewrite bool_decide_eq_false_2 in Hs by discriminate. destruct Hs as [Hs _]. exact Hs.
Defined.

(** One round of gossip later the registry sends it out as its own. *)
Theorem gossip_forwards_forged :
  let m' := (gossipRound (λ _, map_to_list) (λ _ _ _, 3) (λ _ _, 3) m0).1 in
  last (sent (net m')) = Some (client.post_json (lit "http://m/v1/commitments") (render (commitment_json forged))).
Proof. vm_compute. reflexivity. Qed.

Lemma gossip_confined_witness :
  let m' := (gossipRound (λ _, map_to_list) (λ _ _ _, 3) (λ _ _, 3) m1).1 in
  confined m1 m' ∧ rq_url <$> sent (net m') =
    [lit "http://m/v1/commitments/op-mallory/0"; lit "http://m/v1/leases"; lit "http://m/v1/leases";
     lit "http://m/v1/commitments"; lit "http://victim/"].
Proof.
  split; [|vm_compute; reflexivity]. apply (gossip_confined (λ _, map_to_list) (λ _ _ _, 3) (λ _ _, 3) m1). intros. reflexivity.
Defined.

(** Two leases of one wavelength, and a peer's list with a null. *)
Definition lease_at (id : String.string) (op : String.string) : Lease :=
  mkLease (lit id) (Some c35) (lit "ep") (lit op) LeaseStatusActive 0 10 0 0 [] [].

Lemma find_conflicts_exact_witness :
  ∃ cs, findConflicts (λ _, 5) [lease_at "l-1" "op-alice"] [Some (lease_at "l-2" "op-bob")] = Some cs ∧
    mkPair (Some (lease_at "l-1" "op-alice")) (Some (lease_at "l-2" "op-bob")) InvalidityDoubleAllocation ∈ cs ∧
    findConflicts (λ _, 5) [lease_at "l-1" "op-alice"] [None] = None.
Proof.
  pose proof (find_conflicts_exact (λ _, 5) 5 5 [lease_at "l-1" "op-alice"] [Some (lease_at "l-2" "op-bob")] ltac:(intros; lia)) as Hx.
  destruct (findConflicts _ _ [Some _]) as [cs|] eqn:E; [|vm_compute in E; discriminate].
  destruct Hx as (_ & _ & _ & _ & Hx). exists cs. split; [reflexivity|]. split; [|vm_compute; reflexivity].
  assert (clash 5 (lease_at "l-1" "op-alice") (lease_at "l-2" "op-bob")) as Hc.
  { split; [reflexivity|]. split; [reflexivity|]. split; [|split; vm_compute; split; congruence]. exists c35, c35.
    split; [reflexivity|]. split; [reflexivity|]. split; [vm_compute; reflexivity|]. split; reflexivity. }
  apply Hx; [by left|by left|exact Hc|exact Hc].
Defined.
End FederationExamples.
