(* ===== verification/FlrRest.v ===== *)
(** * flr: the schema REST interface

    Models [src/flr/internal/api/schema_rest.go]: routing, the handlers over the schema
    engine, and the responses.  A request is its method, its decoded path, its query
    parameters and its body; a response a status code and a JSON body, or a status code
    and the error whose message is the body.  A handler reads the clock, a fresh id and
    randomness from [Env].  The paths are those the multiplexer passes on unchanged. *)

From stdpp Require Import gmap.
From S2P Require Import Prelude Float FlrModels FlrStore FlrEngine FlrLease FlrMerkle FlrLedger.
Local Open Scope Z_scope.

(** ** Strings of the standard library *)

(** [strings.Split(s, "/")] *)
Fixpoint split_slash (s : text) : list text :=
  match s with
  | [] => [[]]
  | c :: s =>
      match split_slash s with
      | p :: ps => if c =? 47 then [] :: p :: ps else (c :: p) :: ps
      | [] => []
      end
  end.

(** [strings.TrimPrefix] *)
Definition trim_prefix (p s : text) : text :=
  if bool_decide (p `prefix_of` s) then drop (length p) s else s.

(** [strings.ToUpper], as far as an upper-case ASCII word can tell: two letters outside
    ASCII have an ASCII capital. *)
Definition upper_char (c : Z) : Z :=
  if (97 <=? c) && (c <=? 122) then c - 32
  else if c =? 0x131 then 73
  else if c =? 0x17F then 83
  else c.

Definition to_upper (s : text) : text := upper_char <$> s.

Fixpoint digits_value (acc : Z) (s : text) : option Z :=
  match s with
  | [] => Some acc
  | c :: s => if (48 <=? c) && (c <=? 57) then digits_value (acc * 10 + (c - 48)) s else None
  end.

(** [strconv.ParseInt(s, 10, 32)] *)
Definition parse_int32 (s : text) : option Z :=
  let '(neg, ds) :=
    match s with
    | c :: ds => if c =? 43 then (false, ds) else if c =? 45 then (true, ds) else (false, s)
    | [] => (false, s)
    end in
  if bool_decide (ds = []) then None
  else
    match digits_value 0 ds with
    | None => None
    | Some v =>
        let v := if neg : bool then - v else v in
        if (- 2 ^ 31 <=? v) && (v <? 2 ^ 31) then Some v else None
    end.

Module api.
Import models registry engine.

Record Request : Type := mkRequest {
  Method : text;
  Path : text;
  Query : list (text * text);
  Body : text;
}.

(** [r.URL.Query().Get(key)]: the first value, or the empty string. *)
Definition query_get (key : text) (q : list (text * text)) : text :=
  match List.find (λ kv, bool_decide (kv.1 = key)) q with Some kv => kv.2 | None => [] end.

Inductive RestError : Type :=
| MethodNotAllowed
| InvalidOam
| RouteNotFound
| InvalidJSON
| EngineFailed (e : EngineError)
| StoreRefused (e : StoreError)
| CommitFailed (e : commitments.CommitError).

(** [writeJSON] and [writeError]. *)
Inductive Response : Type :=
| writeJSON (code : Z) (body : json)
| writeError (code : Z) (e : RestError).

Definition response_code (r : Response) : Z :=
  match r with writeJSON code _ => code | writeError code _ => code end.

Record Env : Type := mkEnv { env_now : Z; env_uuid : text; env_rnd : Z }.

Definition parseSchemaStatus (v : text) : Z :=
  let u := to_upper v in
  if bool_decide (u = lit "ACTIVE") then SchemaStatusActive
  else if bool_decide (u = lit "DEPRECATED") then SchemaStatusDeprecated
  else if bool_decide (u = lit "REVOKED") then SchemaStatusRevoked
  else SchemaStatusUnspecified.

(** The list's wrapper; a nil slice is [null]. *)
Definition list_json `{GoJson} (out : list ApplicationSchema) : json :=
  JObj [(lit "schemas", if bool_decide (out = []) then JNull else JArr (schema_json <$> out))].

(** [Decode] on the request's body: the first JSON value, as a schema. *)
Class GoDecode := { go_decode_schema : text → option ApplicationSchema }.

Section handlers.
Context `{GoJson, !GoDecode, GoCrypto, Badger}.

Definition createSchema (env : Env) (r : Request) (e : Engine) : Engine * Response :=
  match go_decode_schema (Body r) with
  | None => (e, writeError 400 InvalidJSON)
  | Some sch =>
      match RegisterSchema (env_now env) (env_uuid env) (env_rnd env) sch e with
      | (e, Err err) => (e, writeError 400 (EngineFailed err))
      | (e, Ok out) => (e, writeJSON 201 (schema_json out))
      end
  end.

Definition getSchema (id : text) (e : Engine) : Response :=
  match GetSchema id (store e) with
  | Err err => writeError 404 (StoreRefused err)
  | Ok sch => writeJSON 200 (schema_json sch)
  end.

Definition listSchemas (r : Request) (e : Engine) : Response :=
  let q := Query r in
  let status :=
    let v := query_get (lit "status") q in
    if bool_decide (v = []) then SchemaStatusUnspecified else parseSchemaStatus v in
  let answer oam :=
    let filter := mkFilter (query_get (lit "operator_id") q) oam status (query_get (lit "name_like") q) in
    writeJSON 200 (list_json (ListSchemas filter (store e))) in
  let v := query_get (lit "oam_mode") q in
  if bool_decide (v = []) then answer None
  else match parse_int32 v with None => writeError 400 InvalidOam | Some n => answer (Some n) end.

Definition statusSchema (op : state_result Engine ApplicationSchema EngineError) (e : Engine) : Engine * Response :=
  match op e with
  | (e, Err err) => (e, writeError 400 (EngineFailed err))
  | (e, Ok out) => (e, writeJSON 200 (schema_json out))
  end.

Definition deprecateSchema (env : Env) (id : text) (e : Engine) : Engine * Response :=
  statusSchema (DeprecateSchema (env_now env) (env_rnd env) id) e.

Definition revokeSchema (env : Env) (id : text) (e : Engine) : Engine * Response :=
  statusSchema (RevokeSchema (env_now env) (env_rnd env) id) e.

Definition getActiveSchemaForOam (op : text) (oam : Z) (e : Engine) : Response :=
  match GetActiveSchemaForOam op oam (store e) with
  | Err err => writeError 404 (StoreRefused err)
  | Ok sch => writeJSON 200 (schema_json sch)
  end.

Definition getSchemaCommitment (env : Env) (e : Engine) : Response :=
  match commitments.BuildSchemaCommitment (env_now env) (env_rnd env) e with
  | Err err => writeError 500 (CommitFailed err)
  | Ok c => writeJSON 200 (commitment_json c)
  end.

Definition handleSchemas (env : Env) (r : Request) (e : Engine) : Engine * Response :=
  if bool_decide (Method r = lit "POST") then createSchema env r e
  else if bool_decide (Method r = lit "GET") then (e, listSchemas r e)
  else (e, writeError 405 MethodNotAllowed).

(** The cases in order; a guard on the method in each. *)
Definition handleSchemaByPath (env : Env) (r : Request) (e : Engine) : Engine * Response :=
  let parts := split_slash (trim_prefix (lit "/v1/schemas/") (Path r)) in
  let only m (k : Engine * Response) :=
    if negb (bool_decide (Method r = m)) then (e, writeError 405 MethodNotAllowed) else k in
  match parts with
  | [id] =>
      if negb (bool_decide (id = [])) then only (lit "GET") (e, getSchema id e)
      else if bool_decide (id = lit "commitment") then only (lit "GET") (e, getSchemaCommitment env e)
      else (e, writeError 404 RouteNotFound)
  | [id; verb] =>
      if bool_decide (verb = lit "deprecate") then only (lit "POST") (deprecateSchema env id e)
      else if bool_decide (verb = lit "revoke") then only (lit "POST") (revokeSchema env id e)
      else (e, writeError 404 RouteNotFound)
  | [first; op; oam] =>
      if bool_decide (first = lit "active") then
        only (lit "GET")
          (match parse_int32 oam with
           | None => (e, writeError 400 InvalidOam)
           | Some n => (e, getActiveSchemaForOam op n e)
           end)
      else (e, writeError 404 RouteNotFound)
  | _ => (e, writeError 404 RouteNotFound)
  end.

(** [RegisterSchemaRoutes]: the two patterns; other paths go to the gateway ([None]). *)
Definition serve (env : Env) (r : Request) (e : Engine) : Engine * option Response :=
  if bool_decide (Path r = lit "/v1/schemas") then
    let '(e, a) := handleSchemas env r e in (e, Some a)
  else if bool_decide (lit "/v1/schemas/" `prefix_of` Path r) then
    let '(e, a) := handleSchemaByPath env r e in (e, Some a)
  else (e, None).
End handlers.
End api.

(** ** Requests and the registry *)

Section rest.
Context `{GoJson, !GoJsonSpec, !GoLeaseJson, !GoLeaseJsonSpec, !GoCommitJson, !api.GoDecode, GoCrypto, !GoCryptoSpec,
          Badger, !BadgerSpec}.
Import api.

Abbreviation GET := (lit "GET").
Abbreviation POST := (lit "POST").

(** What a response to a request for data is. *)
Definition data_response (r : Response) : Prop :=
  match r with
  | writeJSON code j => code = 200 ∧ ((∃ s, j = schema_json s) ∨ ∃ ss, j = list_json ss)
  | writeError code _ => code ≠ 200 ∧ 400 ≤ code
  end.

Lemma get_schema_data id e : data_response (getSchema id e).
Proof. unfold getSchema. destruct (registry.GetSchema _ _); [split; eauto|by split]. Qed.

Lemma get_active_data op oam e : data_response (getActiveSchemaForOam op oam e).
Proof. unfold getActiveSchemaForOam. destruct (registry.GetActiveSchemaForOam _ _ _); [split; eauto|by split]. Qed.

Lemma list_data r e : data_response (listSchemas r e).
Proof.
  unfold listSchemas. case_bool_decide; [split; eauto|]. destruct (parse_int32 _); [split; eauto|by split].
Qed.

(** A GET request changes nothing, and answers with a schema, a list of schemas or an
    error.  In particular it never answers with a commitment. *)
Lemma get_request env r e :
  Method r = GET → (serve env r e).1 = e ∧ match (serve env r e).2 with Some a => data_response a | None => True end.
Proof.
  intros Hm. unfold serve. case_bool_decide.
  { unfold handleSchemas. rewrite Hm. rewrite bool_decide_false by done. rewrite bool_decide_true by done.
    split; [done|apply list_data]. }
  case_bool_decide; [|done]. unfold handleSchemaByPath. rewrite Hm.
  rewrite (bool_decide_true (GET = GET)), (bool_decide_false (GET = POST)) by done. cbn [negb].
  destruct (split_slash _) as [|id [|verb [|oam [|? ?]]]]; try done.
  - case_bool_decide as Hid; cbn [negb]; [|split; [done|apply get_schema_data]]. by subst.
  - do 2 (case_bool_decide; [done|]). done.
  - case_bool_decide; [|done]. destruct (parse_int32 oam); [split; [done|apply get_active_data]|done].
Qed.

(** Every request leaves a registry that its operations can reach. *)
Lemma serve_reachable T env r e : registry_reachable T e → registry_reachable T (serve env r e).1.
Proof.
  intros He.
  assert (registry_reachable T (createSchema env r e).1) as Hc.
  { unfold createSchema. destruct (go_decode_schema _) as [s|]; [|done].
    pose proof (reg_register T e (env_now env) (env_uuid env) (env_rnd env) s He) as Hr.
    by destruct (engine.RegisterSchema _ _ _ _ _) as [e' []]. }
  assert (∀ id, registry_reachable T (deprecateSchema env id e).1) as Hd.
  { intros id. unfold deprecateSchema, statusSchema. pose proof (reg_deprecate T e (env_now env) (env_rnd env) id He) as Hr.
    by destruct (engine.DeprecateSchema _ _ _ _) as [e' []]. }
  assert (∀ id, registry_reachable T (revokeSchema env id e).1) as Hv.
  { intros id. unfold revokeSchema, statusSchema. pose proof (reg_revoke_schema T e (env_now env) (env_rnd env) id He) as Hr.
    by destruct (engine.RevokeSchema _ _ _ _) as [e' []]. }
  unfold serve. case_bool_decide.
  { unfold handleSchemas. case_bool_decide; [by destruct (createSchema env r e)|]. by case_bool_decide. }
  case_bool_decide; [|done]. unfold handleSchemaByPath.
  destruct (split_slash _) as [|id [|verb [|oam [|? ?]]]]; try done; repeat case_bool_decide; cbn [negb]; try done.
  - specialize (Hd id). by destruct (deprecateSchema env id e).
  - specialize (Hv id). by destruct (revokeSchema env id e).
  - by destruct (parse_int32 oam).
Qed.

(** ** Routes *)

Lemma split_slash_plain s : 47 ∉ s → split_slash s = [s].
Proof.
  induction s as [|c s IH]; [done|]. intros [Hc Hs]%not_elem_of_cons. cbn [split_slash]. rewrite IH by done.
  by destruct (Z.eqb_spec c 47); [subst|].
Qed.

Lemma split_slash_not_nil s : split_slash s ≠ [].
Proof. induction s as [|c s IH]; [done|]. cbn. destruct (split_slash s); [done|]. by destruct (c =? 47). Qed.

Lemma split_slash_app a b : 47 ∉ a → split_slash (a ++ [47] ++ b) = a :: split_slash b.
Proof.
  induction a as [|c a IH]; cbn [app split_slash].
  - intros _. destruct (split_slash b) as [|p ps] eqn:E; [|done].
    by destruct (split_slash_not_nil b).
  - intros [Hc Ha]%not_elem_of_cons. change (a ++ 47 :: b) with (a ++ [47] ++ b). rewrite IH by done.
    by destruct (Z.eqb_spec c 47); [subst|].
Qed.

Lemma digits_value_go x : ∀ s, digits_value 0 (str_bytes (pretty_N_go x s)) = digits_value (Z.of_N x) (str_bytes s).
Proof.
  induction x as [x IH] using (well_founded_induction N.lt_wf_0). intros s.
  destruct (decide (x = 0)%N) as [->|Hx]; [by rewrite pretty_N_go_0|].
  rewrite pretty_N_go_step by lia. rewrite IH by (apply N.div_lt; lia). rewrite str_bytes_cons. cbn [digits_value].
  assert (Z.of_N (Ascii.N_of_ascii (pretty_N_char (x mod 10))) = 48 + Z.of_N (x mod 10)) as ->.
  { pose proof (N.mod_lt x 10 ltac:(done)) as Hm. set (y := (x mod 10)%N) in *. clearbody y.
    assert (y = 0 ∨ y = 1 ∨ y = 2 ∨ y = 3 ∨ y = 4 ∨ y = 5 ∨ y = 6 ∨ y = 7 ∨ y = 8 ∨ y = 9)%N as Hy by lia.
    destruct_or! Hy; by subst y. }
  pose proof (N.mod_lt x 10 ltac:(done)) as Hm. pose proof (N.div_mod x 10 ltac:(done)) as Hdm.
  set (y := (x mod 10)%N) in *. set (q := (x `div` 10)%N) in *. clearbody y q.
  rewrite (proj2 (Z.leb_le 48 _)), (proj2 (Z.leb_le _ 57)) by lia. cbn [andb]. f_equal. lia.
Qed.

Lemma digits_value_pos (p : positive) : digits_value 0 (str_bytes (pretty p)) = Some (Z.pos p) ∧ str_bytes (pretty p) ≠ [].
Proof.
  assert (digits_value 0 (str_bytes (pretty p)) = Some (Z.pos p)) as E.
  { change (pretty p) with (pretty (N.pos p)). unfold pretty, pretty_N. rewrite decide_False by done.
    rewrite digits_value_go. done. }
  split; [done|]. intros E'. by rewrite E' in E.
Qed.

Lemma parse_show n : in_sint 32 n → parse_int32 (show n) = Some n.
Proof.
  unfold in_sint. intros Hn. unfold show, lit. destruct n as [|p|p]; [done| |]; destruct (digits_value_pos p) as [E Hne].
  - change (pretty (Z.pos p)) with (pretty p). unfold parse_int32.
    destruct (str_bytes (pretty p)) as [|c ds] eqn:Es; [done|].
    assert (48 ≤ c) as Hc by (cbn [digits_value] in E; destruct (Z.leb_spec 48 c); [done|discriminate]).
    rewrite (proj2 (Z.eqb_neq c 43)), (proj2 (Z.eqb_neq c 45)), bool_decide_false, E by (done || lia).
    by rewrite (proj2 (Z.leb_le _ _)), (proj2 (Z.ltb_lt _ _)) by lia.
  - change (str_bytes (pretty (Z.neg p))) with (45 :: str_bytes (pretty p)). cbn [parse_int32 Z.eqb Pos.eqb].
    unfold parse_int32. cbn [Z.eqb Pos.eqb]. rewrite bool_decide_false, E by done.
    change (- Z.pos p) with (Z.neg p). by rewrite (proj2 (Z.leb_le _ _)), (proj2 (Z.ltb_lt _ _)) by lia.
Qed.

(** The documented routes: what a request for each of them does. *)
Definition route (method path : text) : Request := mkRequest method (lit "/v1/schemas" ++ path) [] [].

Lemma serve_path env e method path :
  path ≠ [] → head path = Some 47 →
  serve env (route method path) e =
  let '(e', a) := handleSchemaByPath env (route method path) e in (e', Some a).
Proof.
  intros Hp Hh. unfold serve, route. cbn [Path]. rewrite bool_decide_false.
  2: { intros E%(f_equal length). rewrite length_app in E. destruct path; [done|cbn in E; lia]. }
  rewrite bool_decide_true; [done|]. destruct path as [|c path]; [done|]. injection Hh as ->.
  by exists path.
Qed.

Lemma trim_route path : trim_prefix (lit "/v1/schemas/") (lit "/v1/schemas" ++ 47 :: path) = path.
Proof.
  unfold trim_prefix. rewrite bool_decide_true by (by exists path).
  change (lit "/v1/schemas" ++ 47 :: path) with (lit "/v1/schemas/" ++ path). by rewrite drop_app_length.
Qed.

(** The routes.  For ids and operators without slashes: the schema of an id, its
    deprecation and its revocation, and the active schema of an operator and mode are
    reached under their documented paths and methods, and only a GET or POST as documented
    is accepted.  The commitment is not reached: its path is taken for that of a schema
    with the id [commitment]. *)
Theorem schema_routes (env : Env) (e : engine.Engine) (id op : text) (oam : Z) :
  id ≠ [] → 47 ∉ id → 47 ∉ op → in_sint 32 oam →
  serve env (route GET (lit "/" ++ id)) e = (e, Some (getSchema id e)) ∧
  serve env (route POST (lit "/" ++ id ++ lit "/deprecate")) e =
    (let '(e', a) := deprecateSchema env id e in (e', Some a)) ∧
  serve env (route POST (lit "/" ++ id ++ lit "/revoke")) e =
    (let '(e', a) := revokeSchema env id e in (e', Some a)) ∧
  serve env (route GET (lit "/active/" ++ op ++ lit "/" ++ show oam)) e = (e, Some (getActiveSchemaForOam op oam e)) ∧
  serve env (route GET (lit "/commitment")) e = (e, Some (getSchema (lit "commitment") e)) ∧
  serve env (route POST (lit "/" ++ id)) e = (e, Some (writeError 405 MethodNotAllowed)).
Proof.
  intros Hid Hslash Hop Hoam.
  assert (∀ z, 47 ∉ show z) as Hshow.
  { intros z Hin. pose proof (show_decimal z) as Hd. rewrite Forall_forall in Hd. specialize (Hd 47 Hin).
    unfold decimal in Hd. lia. }
  assert (∀ m p, serve env (route m (lit "/" ++ p)) e =
    let '(e', a) := handleSchemaByPath env (route m (47 :: p)) e in (e', Some a)) as Hserve
    by (intros; by apply serve_path).
  assert (∀ m p, split_slash (trim_prefix (lit "/v1/schemas/") (Path (route m (47 :: p)))) = split_slash p) as Hparts
    by (intros; unfold route; cbn [Path]; by rewrite trim_route).
  assert (∀ m i, i ≠ [] → 47 ∉ i → handleSchemaByPath env (route m (47 :: i)) e =
    if bool_decide (m = GET) then (e, getSchema i e) else (e, writeError 405 MethodNotAllowed)) as Hone.
  { intros m i Hi Hs. unfold handleSchemaByPath. rewrite Hparts, split_slash_plain by done.
    rewrite (bool_decide_false (i = [])) by done. cbn [negb route Method]. by destruct (bool_decide (m = GET)). }
  assert (∀ verb, 47 ∉ verb → split_slash (id ++ [47] ++ verb) = [id; verb]) as Htwo.
  { intros verb Hv. rewrite split_slash_app by done. by rewrite split_slash_plain. }
  split_and!.
  - by rewrite Hserve, Hone by done.
  - rewrite Hserve. unfold handleSchemaByPath. rewrite Hparts.
    change (lit "/deprecate") with ([47] ++ lit "deprecate"). by rewrite Htwo by (by vm_compute; set_solver).
  - rewrite Hserve. unfold handleSchemaByPath. rewrite Hparts.
    change (lit "/revoke") with ([47] ++ lit "revoke"). by rewrite Htwo by (by vm_compute; set_solver).
  - change (lit "/active/" ++ op ++ lit "/" ++ show oam) with (lit "/" ++ lit "active" ++ [47] ++ op ++ [47] ++ show oam).
    rewrite Hserve. unfold handleSchemaByPath. rewrite Hparts.
    rewrite !split_slash_app, split_slash_plain by (done || by vm_compute; set_solver).
    cbn [route Method]. by rewrite parse_show.
  - etransitivity; [apply (Hserve GET (lit "commitment"))|]. rewrite Hone; [done|done|by vm_compute; set_solver].
  - by rewrite Hserve, Hone by done.
Qed.
End rest.

(** ** Witnesses *)

Module RestExamples.
Import ToyStore ToyCrypto LedgerExamples api.

#[export] Instance toy_decode : GoDecode := {| go_decode_schema := go_unmarshal_schema |}.

Definition env0 : Env := mkEnv 9 (lit "u-1") 0.

Lemma schema_routes_witness :
  serve env0 (route (lit "GET") (lit "/commitment")) e_tick =
  (e_tick, Some (writeError 404 (StoreRefused (registry.SchemaNotFound (lit "commitment"))))).
Proof.
  destruct (schema_routes env0 e_tick (lit "s-1") (lit "op-alice") 3) as (_ & _ & _ & _ & Hc & _);
    [discriminate|vm_compute; set_solver|vm_compute; set_solver|split; vm_compute; congruence|].
  assert (getSchema (lit "commitment") e_tick =
    writeError 404 (StoreRefused (registry.SchemaNotFound (lit "commitment")))) as E by (vm_compute; reflexivity).
  rewrite Hc, E. reflexivity.
Defined.
End RestExamples.
