(* ===== verification/FlrApi.v ===== *)
(** * flr: the service

    Models [src/flr/internal/api/server.go]: the handlers of the gRPC service (the same ones
    behind the REST gateway) over the registry, the federation and the translations, and the
    service as [src/flr/cmd/flrd/main.go] puts it together.  The message types are generated
    from a file that is not in the repository: a request is what its getters return, a nil
    message being [None] and the getters of a nil message returning zeros; a response is the
    record of the fields the converter sets.  The stream of updates, which sends heartbeats,
    is left out, as are the interceptors and the listeners.  A time is counted from Go's zero
    time. *)

From stdpp Require Import gmap.
From S2P Require Import Prelude Float FlrModels FlrStore FlrEngine FlrLease FlrMerkle FlrDirectory FlrLedger FlrXlat FlrFederation FlrRest.
Local Open Scope Z_scope.

Import leases tokens lease_store.

(** ** Messages *)

(** [flrv1.Lease], as [leaseToProto] fills it: without the endpoint. *)
Record pbLease : Type := mkPbLease {
  pl_Id : text;
  pl_Wavelength : option Wavelength;
  pl_OperatorId : text;
  pl_Status : Z;
  pl_StartTime : Z;
  pl_EndTime : Z;
  pl_CreatedAt : Z;
  pl_UpdatedAt : Z;
  pl_TokenHash : bytes;
  pl_ParentHash : bytes;
}.

(** [flrv1.LeaseToken], as far as [leaseTokenFromProto] reads it. *)
Record pbToken : Type := mkPbToken {
  pt_Version : Z;
  pt_LeaseId : text;
  pt_OperatorId : text;
  pt_Wavelength : option Wavelength;
  pt_EndpointId : text;
  pt_Nonce : bytes;
  pt_Signature : bytes;
}.

Record VerificationResult : Type := mkVerification { Valid : bool; Reason : option lease_engine.LeaseError }.

Inductive Cause : Type :=
| LeaseCause (e : lease_engine.LeaseError)
| LeaseStoreCause (e : LeaseStoreError)
| CommitCause (e : commitments.CommitError)
| RowCause (e : RowError)
| FedCause (e : federation.FedError)
| XlatCause (e : xlat.XlatError).

(** [status.Error]: the code, and what its message says. *)
Inductive RpcError : Type :=
| InvalidArgument (missing : text)
| NotFound (c : Cause)
| Internal (c : Cause).

Module server.
Import federation commitments.

Definition leaseToProto (l : Lease) : pbLease :=
  mkPbLease (ID l) (wavelength l) (OperatorID l) (Status l) (StartTime l) (EndTime l) (CreatedAt l) (UpdatedAt l)
    (TokenHash l) (ParentHash l).

(** The wavelength of a message, or zeros. *)
Definition wavelength_or_zero (w : option Wavelength) : Wavelength :=
  default (mkWavelength (f64.of_Z 0) 0 0 (f64.of_Z 0)) w.

(** Neither the term nor the time of issue is taken over: they are Go's zero time. *)
Definition leaseTokenFromProto (t : pbToken) : LeaseToken :=
  mkToken (pt_Version t) (pt_LeaseId t) (pt_OperatorId t) (Some (wavelength_or_zero (pt_Wavelength t))) (pt_EndpointId t)
    0 0 (pt_Nonce t) (pt_Signature t) 0.

Definition default_duration : Z := 24 * 3600 * 10 ^ 9.

Section server.
Context `{GoJson, !GoLeaseJson, !GoCommitJson, !GoDirJson, !GoPeerJson, GoCrypto, Badger}.

(** The server: the federation manager, whose registry is the server's, and the
    configuration's node id. *)
Record Server : Type := mkServer { fed : Manager; node_id : text }.

Definition registry_of (s : Server) : engine.Engine := reg (fed s).
Definition with_registry (s : Server) (e : engine.Engine) : Server :=
  mkServer (mkManager e (operators (fed s)) (m_operatorID (fed s)) (net (fed s))) (node_id s).
Definition with_fed (s : Server) (m : Manager) : Server := mkServer m (node_id s).

(** An operation of the registry. *)
Definition on_registry {A E} (f : E → RpcError) (op : state_result engine.Engine A E) : state_result Server A RpcError := λ s,
  let '(e, r) := op (registry_of s) in (with_registry s e, map_err f r).

(** ** Leases *)

(** The token is dropped. *)
Definition CreateLease (t : nat → Z) (uuid : text) (nonce : bytes) (rnd : Z)
    (w : option Wavelength) (endpoint_id : text) (duration : option Z) : state_result Server pbLease RpcError := λ s,
  if bool_decide (w = None) then (s, Err (InvalidArgument (lit "wavelength")))
  else if bool_decide (endpoint_id = []) then (s, Err (InvalidArgument (lit "endpoint_id")))
  else
    let '(s, r) := on_registry (Internal ∘ LeaseCause)
      (lease_engine.AllocateLease t uuid nonce rnd w endpoint_id (default default_duration duration)) s in
    (s, let? lt := r in Ok (leaseToProto lt.1)).

Definition GetLease (lease_id : text) (s : Server) : result pbLease RpcError :=
  if bool_decide (lease_id = []) then Err (InvalidArgument (lit "lease_id"))
  else
    let? l := map_err (NotFound ∘ LeaseStoreCause) (lease_store.GetLease lease_id (engine.store (registry_of s))) in
    Ok (leaseToProto l).

Definition RenewLease (t : nat → Z) (nonce : bytes) (rnd : Z) (lease_id : text) (extension : option Z)
    : state_result Server pbLease RpcError := λ s,
  if bool_decide (lease_id = []) then (s, Err (InvalidArgument (lit "lease_id")))
  else
    let '(s, r) := on_registry (Internal ∘ LeaseCause)
      (lease_engine.RenewLease t nonce rnd lease_id (default default_duration extension)) s in
    (s, let? lt := r in Ok (leaseToProto lt.1)).

(** The answer is the lease read before, with its status and time put right; [now] is read
    last. *)
Definition RevokeLease (t : nat → Z) (now : Z) (lease_id : text) : state_result Server pbLease RpcError := λ s,
  if bool_decide (lease_id = []) then (s, Err (InvalidArgument (lit "lease_id")))
  else
    match lease_store.GetLease lease_id (engine.store (registry_of s)) with
    | Err e => (s, Err (NotFound (LeaseStoreCause e)))
    | Ok l =>
        let '(s, r) := on_registry (Internal ∘ LeaseCause) (lease_engine.RevokeLease t lease_id) s in
        (s, let? _ := r in Ok (leaseToProto (lease_engine.with_lease_status l LeaseStatusRevoked now)))
    end.

Definition ListLeases (operator_id endpoint_id : text) (status : Z) (s : Server) : result (list pbLease * Z) RpcError :=
  let? ls := map_err (Internal ∘ LeaseStoreCause)
    (lease_store.ListLeases (mkLeaseFilter operator_id endpoint_id status) (engine.store (registry_of s))) in
  Ok (leaseToProto <$> ls, as_signed 32 (Z.of_nat (length ls))).

(** ** Commitments and proofs *)

(** Without a height, the registry's own latest commitment, whatever the operator. *)
Definition GetMerkleCommitment (operator_id : text) (height : Z) (s : Server) : result MerkleCommitment RpcError :=
  let operatorID := if bool_decide (operator_id = []) then node_id s else operator_id in
  let e := registry_of s in
  map_err (NotFound ∘ CommitCause)
    (if 0 <? height then commitments.GetCommitment operatorID height (engine.store e)
     else GetLatestCommitment (engine.operatorID e) (engine.store e)).

Definition VerifyLease (t : nat → Z) (token : option pbToken) (s : Server) : result VerificationResult RpcError :=
  match token with
  | None => Err (InvalidArgument (lit "token"))
  | Some token =>
      Ok match lease_engine.VerifyLease t (leaseTokenFromProto token) (registry_of s) with
         | Err e => mkVerification false (Some e)
         | Ok _ => mkVerification true None
         end
  end.

Definition invalidity_of (type : text) : Z :=
  if bool_decide (type = lit "double_allocation") then InvalidityDoubleAllocation
  else if bool_decide (type = lit "expired_lease") then InvalidityExpiredLease
  else if bool_decide (type = lit "invalid_signature") then InvalidityInvalidSignature
  else if bool_decide (type = lit "unauthorized_op") then InvalidityUnauthorizedOp
  else 0.

(** Neither leases nor a commitment are attached; [now] is the proof's time.  The answer is
    the type accepted. *)
Definition SubmitProofOfInvalidity (now : Z) (t : nat → Z) (type : text) (merkle_proof : list bytes)
    : state_result Server text RpcError := λ s,
  let invType := invalidity_of type in
  let poi := mkPoi invType None None None (Some merkle_proof) now in
  let '(m, r) := HandleProofOfInvalidity t (Some poi) (fed s) in
  (with_fed s m, match r with Ok _ => Ok (InvalidityType_String invType) | Err e => Err (Internal (FedCause e)) end).

(** ** Operators *)

(** Readings: when it joined, when it was seen; then those of the federation. *)
Definition RegisterOperator (t t' : nat → Z) (id name : text) (public_key : bytes) (endpoint : text)
    : state_result Server Operator RpcError := λ s,
  if bool_decide (id = []) then (s, Err (InvalidArgument (lit "id")))
  else if bool_decide (name = []) then (s, Err (InvalidArgument (lit "name")))
  else
    let op := mkOperator id name public_key endpoint OperatorStatusActive (t 0%nat) (t 1%nat) in
    let e := registry_of s in
    match directory.CreateOperator op (engine.store e) with
    | (d, Err err) => (with_registry s (engine.with_store e d), Err (Internal (RowCause err)))
    | (d, Ok _) =>
        let s := with_registry s (engine.with_store e d) in
        match federation.RegisterOperator t' op (fed s) with
        | (m, Err err) => (with_fed s m, Err (Internal (FedCause err)))
        | (m, Ok _) => (with_fed s m, Ok (joined t' op))
        end
    end.

Definition GetOperator (operator_id : text) (s : Server) : result Operator RpcError :=
  if bool_decide (operator_id = []) then Err (InvalidArgument (lit "operator_id"))
  else map_err (NotFound ∘ RowCause) (directory.GetOperator operator_id (engine.store (registry_of s))).

Definition ListOperators (status : Z) (s : Server) : result (list Operator) RpcError :=
  let? ops := map_err (Internal ∘ RowCause) (directory.ListOperators (engine.store (registry_of s))) in
  Ok (base.filter (λ op, (negb (status =? 0) && negb (o_Status op =? status)) = false) ops).

(** ** Translations *)

Definition CreateTranslation (t : nat → Z) (id from_operator to_operator : text) (from_wavelength to_wavelength : option Wavelength)
    (from_port to_port : Z) (duration : option Z) (s : Server) : result TranslationEntry RpcError :=
  if bool_decide (from_operator = []) || bool_decide (to_operator = []) then
    Err (InvalidArgument (lit "from_operator and to_operator"))
  else
    map_err (Internal ∘ XlatCause)
      (xlat.CreateTranslation t id (Some (engine.store (registry_of s))) from_operator to_operator
        (Some (wavelength_or_zero from_wavelength)) (Some (wavelength_or_zero to_wavelength)) from_port to_port
        (default default_duration duration)).

Definition GetTranslation (translation_id : text) : result TranslationEntry RpcError :=
  if bool_decide (translation_id = []) then Err (InvalidArgument (lit "translation_id"))
  else map_err (NotFound ∘ XlatCause) (xlat.GetTranslation translation_id).

Definition ListTranslations (f : TranslationFilter) : result (list TranslationEntry * Z) RpcError :=
  let? l := map_err (Internal ∘ XlatCause) (xlat.ListTranslations f) in
  Ok (l, as_signed 32 (Z.of_nat (length l))).
End server.
End server.

(** ** The running service *)

Section service.
Context `{GoJson, !GoJsonSpec, !GoLeaseJson, !GoLeaseJsonSpec, !GoCommitJson, !GoDirJson, !GoPeerJson, !api.GoDecode,
          GoCrypto, !GoCryptoSpec, Badger, !BadgerSpec}.
Import federation commitments server.

(** What flrd serves: started on a registry, with no peers and nothing sent, then any calls
    that change state, and schema routes, in any order.  It starts neither gossip nor a
    loop that expires leases or commits.  [T] as for [registry_reachable]. *)
Inductive service_reachable : Z → Server → Prop :=
| srv_start T e ans node :
    registry_reachable T e →
    service_reachable T (mkServer (NewManager e (engine.operatorID e) (mkNet [] ans)) node)
| srv_create T T' s t uuid nonce rnd w ep dur :
    service_reachable T s → (∀ i, T ≤ t i ≤ T') → service_reachable T' (CreateLease t uuid nonce rnd w ep dur s).1
| srv_renew T T' s t nonce rnd id ext :
    service_reachable T s → (∀ i, T ≤ t i ≤ T') →
    (∀ l, lease_store.GetLease id (engine.store (registry_of s)) = Ok l → t 0%nat < EndTime l) →
    service_reachable T' (RenewLease t nonce rnd id ext s).1
| srv_revoke T T' s t now id :
    service_reachable T s → (∀ i, T ≤ t i ≤ T') → service_reachable T' (RevokeLease t now id s).1
| srv_submit T s now t type proof :
    service_reachable T s → service_reachable T (SubmitProofOfInvalidity now t type proof s).1
| srv_register T s t t' id name pk ep :
    service_reachable T s → service_reachable T (RegisterOperator t t' id name pk ep s).1
| srv_schema T s env r :
    service_reachable T s → service_reachable T (with_registry s (api.serve env r (registry_of s)).1).

Lemma with_registry_same s : with_registry s (registry_of s) = s.
Proof. by destruct s as [[]]. Qed.

(** An operation of the registry changes the registry only. *)
Lemma on_registry_spec {A E} f (op : state_result engine.Engine A E) s :
  on_registry f op s = (with_registry s (op (registry_of s)).1, map_err f (op (registry_of s)).2).
Proof. unfold on_registry. by destruct (op (registry_of s)). Qed.

Lemma create_lease_state t uuid nonce rnd w ep dur s :
  (CreateLease t uuid nonce rnd w ep dur s).1 = s ∨
  ∃ dur', (CreateLease t uuid nonce rnd w ep dur s).1 =
    with_registry s (lease_engine.AllocateLease t uuid nonce rnd w ep dur' (registry_of s)).1.
Proof.
  unfold CreateLease. case_bool_decide; [by left|]. case_bool_decide; [by left|]. right. eexists.
  by rewrite on_registry_spec.
Qed.

Lemma renew_lease_state t nonce rnd id ext s :
  (RenewLease t nonce rnd id ext s).1 = s ∨
  ∃ ext', (RenewLease t nonce rnd id ext s).1 =
    with_registry s (lease_engine.RenewLease t nonce rnd id ext' (registry_of s)).1.
Proof. unfold RenewLease. case_bool_decide; [by left|]. right. eexists. by rewrite on_registry_spec. Qed.

Lemma revoke_lease_state t now id s :
  (RevokeLease t now id s).1 = s ∨
  (RevokeLease t now id s).1 = with_registry s (lease_engine.RevokeLease t id (registry_of s)).1.
Proof.
  unfold RevokeLease. case_bool_decide; [by left|]. destruct (lease_store.GetLease _ _); [|by left]. right.
  by rewrite on_registry_spec.
Qed.

(** No proof is accepted: each type needs what the handler does not attach. *)
Lemma submit_rejected now t type proof s :
  ∃ e, SubmitProofOfInvalidity now t type proof s = (s, Err (Internal (FedCause e))).
Proof.
  destruct s as [m n]. unfold SubmitProofOfInvalidity, HandleProofOfInvalidity, check_poi. cbn [p_Type p_LeaseA p_LeaseB p_Commitment].
  destruct (_ =? _); [by eexists|]. destruct (_ =? _); [by eexists|]. destruct (_ =? _); [by eexists|].
  destruct (_ =? _); by eexists.
Qed.

(** No operator gets into the federation: the first of the two records keeps out the
    second. *)
Lemma register_rejected t t' id name pk ep s :
  is_ok (RegisterOperator t t' id name pk ep s).2 = false ∧
  ∃ op, (RegisterOperator t t' id name pk ep s).1 = s ∨
    (RegisterOperator t t' id name pk ep s).1 =
      with_registry s (lease_engine.set_store (registry_of s) (directory.CreateOperator op (engine.store (registry_of s))).1).
Proof.
  unfold RegisterOperator. set (op := mkOperator id name pk ep _ _ _). case_bool_decide; [split; [done|exists op; by left]|].
  case_bool_decide; [split; [done|exists op; by left]|].
  assert (∀ d, directory.CreateOperator op (engine.store (registry_of s)) = (d, Ok ()) →
    is_Some (db_get (directory.prefixOperator ++ id) d)) as Hrow.
  { intros d. unfold directory.CreateOperator, create_row. case_bool_decide; [done|]. case_bool_decide; [done|]. cbn.
    intros [= <-]. rewrite get_set. by eexists. }
  destruct (directory.CreateOperator op (engine.store (registry_of s))) as [d [[]|err]] eqn:E.
  2:{ split; [done|]. exists op. right. by rewrite E. }
  specialize (Hrow d eq_refl). set (s1 := with_registry s (engine.with_store (registry_of s) d)).
  destruct (operators (fed s) !! id) as [op0|] eqn:Eo.
  { unfold federation.RegisterOperator. case_bool_decide; [done|].
    case_bool_decide; [split; [done|exists op; right; by rewrite E]|].
    rewrite bool_decide_eq_true_2 by (cbn; rewrite Eo; by eexists). split; [done|exists op; right; by rewrite E]. }
  destruct (decide (ep = [])) as [->|Hep].
  { unfold federation.RegisterOperator. case_bool_decide; [done|]. rewrite bool_decide_eq_true_2 by done.
    split; [done|exists op; right; by rewrite E]. }
  rewrite register_operator_exists by done. split; [done|]. exists op. right. by rewrite E.
Qed.

Lemma service_inv T s : service_reachable T s →
  registry_reachable T (registry_of s) ∧ operators (fed s) = ∅ ∧ sent (net (fed s)) = [].
Proof.
  assert (∀ T T' (t : nat → Z), (∀ i, T ≤ t i ≤ T') → T ≤ T') as HT by (intros ? ? t Ht; specialize (Ht 0%nat); lia).
  induction 1 as [T e ans node He|T T' s t uuid nonce rnd w ep dur _ (He & Ho & Hs) Ht
    |T T' s t nonce rnd id ext _ (He & Ho & Hs) Ht Hend|T T' s t now id _ (He & Ho & Hs) Ht|T s now t type proof _ IH
    |T s t t' id name pk ep _ (He & Ho & Hs)|T s env r _ (He & Ho & Hs)].
  - done.
  - destruct (create_lease_state t uuid nonce rnd w ep dur s) as [->|[dur' ->]].
    + split; [|done]. by eapply registry_reachable_later; [|eapply HT].
    + split; [|done]. by eapply reg_allocate.
  - destruct (renew_lease_state t nonce rnd id ext s) as [->|[ext' ->]].
    + split; [|done]. by eapply registry_reachable_later; [|eapply HT].
    + split; [|done]. by eapply reg_renew.
  - destruct (revoke_lease_state t now id s) as [->| ->].
    + split; [|done]. by eapply registry_reachable_later; [|eapply HT].
    + split; [|done]. by eapply reg_revoke.
  - by destruct (submit_rejected now t type proof s) as [e ->].
  - destruct (register_rejected t t' id name pk ep s) as [_ [op [->| ->]]]; [done|]. split; [|done]. by apply reg_operator.
  - split; [|done]. by apply serve_reachable.
Qed.

(** C12: The service as a whole.  However it is called, leases being renewed only while they
    run, the service shows its callers, among its own active leases, at most one of a
    wavelength that has not reached its end; it has no peer and has sent no request; and a
    call to register a peer fails, although it may leave a record of the operator, so that a
    round of gossip would do nothing. *)
Theorem service_invariant (T : Z) (s : Server) :
  service_reachable T s →
  let op := engine.operatorID (registry_of s) in
  (∀ ls n a b w w', ListLeases op [] LeaseStatusActive s = Ok (ls, n) → a ∈ ls → b ∈ ls →
     pl_Wavelength a = Some w → pl_Wavelength b = Some w' → ToKey w = ToKey w' → T < pl_EndTime a → T < pl_EndTime b → a = b) ∧
  operators (fed s) = ∅ ∧ sent (net (fed s)) = [] ∧
  (∀ t t' id name pk ep, is_ok (RegisterOperator t t' id name pk ep s).2 = false) ∧
  (∀ order clk t, (∀ i ops, order i ops ≡ₚ map_to_list ops) → gossipRound order clk t (fed s) = (fed s, Ok ())).
Proof.
  intros (He & Ho & Hs)%service_inv op. destruct (registry_reachable_inv T _ He) as (sm & lm & Hi).
  split; [|split; [done|split; [done|split]]].
  - intros ls n a b w w' Hls Ha Hb Hw Hw' Hk Ta Tb. unfold ListLeases in Hls.
    destruct (list_leases_spec _ lm (mkLeaseFilter op [] LeaseStatusActive) (ri_leases _ _ _ _ Hi)) as (l & El & Hl).
    rewrite El in Hls. cbn in Hls. injection Hls as <- _.
    apply list_elem_of_fmap in Ha as (x & -> & [Mx Fx]%Hl), Hb as (y & -> & [My Fy]%Hl). cbn in *.
    apply (active_filter_spec (registry_of s)) in Fx as [Ox Sx], Fy as [Oy Sy]; try apply (ri_operator _ _ _ _ Hi).
    assert (ID x = ID y) as E.
    { apply (ri_exclusive _ _ _ _ Hi (ToKey w) _ _ x y Mx My); (split_and!; [done|done|done|]);
        [by exists w|exists w'; by split]. }
    rewrite E, My in Mx. by injection Mx as ->.
  - intros. apply register_rejected.
  - intros order clk t Hord. unfold gossipRound, active_ops. rewrite bool_decide_eq_true_2; [done|].
    rewrite Ho. assert (order 0%nat ∅ = []) as -> by (apply Permutation_nil_r; rewrite Hord; by rewrite map_to_list_empty). done.
Qed.

(** What the service's check of a token is worth.  For every token, and at every time
    after Go's zero time, the answer is "invalid", also for the token of a lease that the
    registry itself has just issued: the token's end does not reach the check. *)
Theorem verify_lease_rejects (t : nat → Z) (token : pbToken) (s : Server) :
  0 < t 1%nat → ∃ e, VerifyLease t (Some token) s = Ok (mkVerification false (Some e)).
Proof.
  intros Ht. unfold VerifyLease, lease_engine.VerifyLease.
  destruct (lease_store.GetLease _ _) as [l|e]; cbn [map_err rbind]; [|by eexists].
  destruct (negb _); [by eexists|]. destruct (EndTime l <? t 0%nat); [by eexists|].
  unfold ValidateLeaseToken. cbn [leaseTokenFromProto t_EndTime]. destruct (Z.ltb_spec 0 (t 1%nat)); [|lia].
  case_bool_decide; by eexists.
Qed.
End service.

(** ** Witnesses *)

Module ServiceExamples.
Import ToyStore ToyCrypto LedgerExamples FederationExamples RestExamples federation server.

Definition flrd : Server := mkServer (NewManager open_engine (lit "op-alice") (mkNet [] lies)) [].

Lemma flrd_reachable : service_reachable 0 flrd.
Proof. apply (srv_start 0 open_engine lies []). apply open_reachable. Defined.

(** A lease is created, then an operator registered. *)
Definition leased : Server := (CreateLease (λ _, 0) (lit "l-1") [1] 0 (Some c35) (lit "ep-1") None flrd).1.
Definition s1 : Server := (RegisterOperator (λ _, 1) (λ _, 1) (lit "op-bob") (lit "Bob") [1] (lit "http://b") leased).1.

Lemma service_invariant_witness :
  service_reachable 0 s1 ∧ operators (fed s1) = ∅ ∧
  is_ok (GetOperator (lit "op-bob") s1) = true ∧
  ∃ l n, ListLeases (lit "op-alice") [] LeaseStatusActive s1 = Ok ([l], n).
Proof.
  assert (service_reachable 0 s1) as Hr.
  { apply srv_register, (srv_create 0 0); [apply flrd_reachable|intros; lia]. }
  split; [exact Hr|]. destruct (service_invariant 0 s1 Hr) as (_ & Ho & _). split; [exact Ho|].
  split; [vm_compute; reflexivity|]. eexists _, _. vm_compute. reflexivity.
Defined.

(** The token of the lease, as a client sends it. *)
Definition issued : pbToken :=
  match (lease_engine.AllocateLease (λ _, 0) (lit "l-1") [1] 0 (Some c35) (lit "ep-1") default_duration open_engine).2 with
  | Ok (_, tok) =>
      mkPbToken (t_Version tok) (t_LeaseID tok) (t_OperatorID tok) (t_Wavelength tok) (t_EndpointID tok) (t_Nonce tok) (t_Signature tok)
  | Err _ => mkPbToken 0 [] [] None [] [] []
  end.

Lemma verify_lease_rejects_witness :
  VerifyLease (λ _, 1) (Some issued) leased =
    Ok (mkVerification false (Some (lease_engine.LeaseTokenFailed TokenExpired))).
Proof.
  destruct (verify_lease_rejects (λ _, 1) issued leased ltac:(lia)) as [e E]. rewrite E.
  vm_compute in E. injection E as <-. reflexivity.
Defined.
End ServiceExamples.
