(* ===== verification/FlrCompliance.v ===== *)
(** * flr: audits

    Models [src/flr/internal/audit]: the arithmetic of the ITU-T grid and the checks of
    [compliance.go], and the auditor of [auditor.go].  Floats are IEEE doubles, each operation
    rounded on its own (no fused multiply-add).  What [int32(x)] is for an [x] out of range
    depends on the machine: it is the argument [out_of_range].  [sort.Slice] may order leases
    with one creation time in any way: it is the class [GoSort]. *)

From stdpp Require Import gmap sorting.
From S2P Require Import Prelude Float FlrModels FlrStore FlrEngine FlrLease FlrMerkle FlrDirectory FlrLedger FlrTime FlrAuditLog.
Local Open Scope Z_scope.

Import leases lease_store.

(** ** The grid *)

Module compliance.

Definition CBandStartNm : float := f64.of_Z 1530.
Definition CBandEndNm : float := f64.of_Z 1565.
Definition LBandStartNm : float := f64.of_Z 1565.
Definition LBandEndNm : float := f64.of_Z 1625.
Definition SBandStartNm : float := f64.of_Z 1460.
Definition SBandEndNm : float := f64.of_Z 1530.

Definition SpeedOfLightNm : float := f64.of_Z 299792458000000000.
Definition ReferenceWavelengthNm : float := f64.lit 1552524 1000.
Definition ReferenceFrequencyTHz : float := f64.lit 1931 10.
Definition e12 : float := f64.of_Z (10 ^ 12).

Definition FrequencyFromWavelength (lambdaNm : float) : float := f64.div SpeedOfLightNm (f64.mul lambdaNm e12).
Definition WavelengthFromFrequency (freqTHz : float) : float := f64.div SpeedOfLightNm (f64.mul freqTHz e12).

Definition grid_THz (gridGHz : float) : float := f64.div gridGHz (f64.of_Z 1000).

Definition IsOnGrid (lambdaNm gridGHz referenceNm : float) : bool :=
  let refFreq := FrequencyFromWavelength referenceNm in
  let freq := FrequencyFromWavelength lambdaNm in
  let diff := f64.abs (f64.sub freq refFreq) in
  let slot := f64.div diff (grid_THz gridGHz) in
  let nearest := f64.mul (f64.round slot) (grid_THz gridGHz) in
  SFltb (f64.abs (f64.sub diff nearest)) (f64.lit 1 1000).

(** [int32(x)] *)
Definition to_int32 (out_of_range : float → Z) (x : float) : Z :=
  match x with
  | S754_zero _ => 0
  | S754_finite s m e =>
      let z := cond_Zopp s (trunc_mag m e) in
      if (- 2 ^ 31 <=? z) && (z <? 2 ^ 31) then z else out_of_range x
  | _ => out_of_range x
  end.

Definition ChannelNumberFromWavelength (out_of_range : float → Z) (lambdaNm gridGHz : float) : Z :=
  let refFreq := FrequencyFromWavelength ReferenceWavelengthNm in
  let freq := FrequencyFromWavelength lambdaNm in
  let diff := f64.sub freq refFreq in
  let ratio := f64.div diff (grid_THz gridGHz) in
  to_int32 out_of_range (f64.round ratio).

Definition WavelengthFromChannelNumber (chNum : Z) (gridGHz : float) : float :=
  let freq := f64.add ReferenceFrequencyTHz (f64.mul (f64.of_Z chNum) (grid_THz gridGHz)) in
  WavelengthFromFrequency freq.

Inductive ComplianceError : Type :=
| NotInBand (lambdaNm : float) (band : Z)
| UnsupportedBand (band : Z)
| NilWavelength
| InvalidSpacing (gridGHz : float)
| ChannelMismatch (expected got : Z).

Definition band_range (band : Z) : option (float * float) :=
  if band =? BandCBand then Some (CBandStartNm, CBandEndNm)
  else if band =? BandLBand then Some (LBandStartNm, LBandEndNm)
  else if band =? BandSBand then Some (SBandStartNm, SBandEndNm)
  else None.

Definition ValidateBand (lambdaNm : float) (band : Z) : result unit ComplianceError :=
  match band_range band with
  | Some (lo, hi) => if SFltb lambdaNm lo || SFltb hi lambdaNm then Err (NotInBand lambdaNm band) else Ok ()
  | None => Err (UnsupportedBand band)
  end.

Definition GridSpacings : list float := [f64.lit 125 10; f64.of_Z 25; f64.of_Z 50; f64.of_Z 100].
End compliance.

(** ** The auditor *)

Definition LeaseStatus_String (s : Z) : text :=
  if s =? LeaseStatusActive then lit "ACTIVE"
  else if s =? LeaseStatusExpired then lit "EXPIRED"
  else if s =? LeaseStatusRevoked then lit "REVOKED"
  else if s =? LeaseStatusPending then lit "PENDING"
  else lit "UNSPECIFIED".

Class GoSort := { sort_by_creation : list Lease → list Lease }.

Definition created_le (a b : Lease) : Prop := CreatedAt a ≤ CreatedAt b.

Class GoSortSpec `{GoSort} : Prop := {
  sort_permutation ls : sort_by_creation ls ≡ₚ ls;
  sort_sorted ls : StronglySorted created_le (sort_by_creation ls);
}.

Module auditor.
Import compliance.

(** What the checks report, by lease. *)
Inductive ChainError : Type :=
| NoTokenHash (id : text)
| ChainBroken (id : text).

Inductive Violation : Type :=
| ExpiredLeaseActive (id : text) (timestamp : Z)
| ItuCompliance (e : ComplianceError) (id : text) (timestamp : Z)
| HashChainBroken (e : ChainError) (timestamp : Z).

Record AuditReport : Type := mkReport {
  GeneratedAt : Z;
  PeriodStart : Z;
  PeriodEnd : Z;
  TotalLeases : Z;
  ActiveLeases : Z;
  ExpiredLeases : Z;
  RevokedLeases : Z;
  TotalOperators : Z;
  ActiveOperators : Z;
  CommitmentCount : Z;
  Violations : list Violation;
  HashChainValid : bool;
}.

Inductive AuditError : Type :=
| ListLeasesFailed (e : LeaseStoreError)
| ListOperatorsFailed (e : RowError)
| GetLogFailed
| AuditPanicked.

Inductive ConsistencyError : Type :=
| ListFor (op : text) (e : LeaseStoreError)
| CountMismatch (op : text) (committed actual : Z).

Definition count_if {A} (f : A → bool) (l : list A) : Z := Z.of_nat (length (base.filter (λ a, f a) l)).

Section auditor.
Context `{GoJson, !GoLeaseJson, !GoCommitJson, !GoDirJson, !GoAuditJson, GoCrypto, Badger, GoSort}.
Context (out_of_range : float → Z).

Definition LogOperation (now : Z) (op operatorID leaseID : text) (details : bytes) (d : db) : db :=
  let hash := sha3_256 (utf8 op ++ utf8 operatorID ++ utf8 leaseID ++ details) in
  AppendAuditLog (mkAudit now op operatorID leaseID details hash []) d.

Definition ValidateITUCompliance (w : option Wavelength) : result unit ComplianceError :=
  match w with
  | None => Err NilWavelength
  | Some w =>
      let? _ := ValidateBand (LambdaNm w) (Band w) in
      if negb (existsb (λ spacing, SFltb (f64.abs (f64.sub spacing (GridGHz w))) (f64.lit 1 100)) GridSpacings) then
        Err (InvalidSpacing (GridGHz w))
      else
        let expectedChannel := ChannelNumberFromWavelength out_of_range (LambdaNm w) (GridGHz w) in
        if negb (expectedChannel =? ChannelNum w) then Err (ChannelMismatch expectedChannel (ChannelNum w)) else Ok ()
  end.

Definition ValidateDWDMGrid (lambdaNm gridGHz : float) : bool * Z :=
  (IsOnGrid lambdaNm gridGHz ReferenceWavelengthNm, ChannelNumberFromWavelength out_of_range lambdaNm gridGHz).

(** [None]: the key of a nil wavelength is taken. *)
Definition computeLeaseHash (l : Lease) : option bytes :=
  w ← wavelength l;
  Some (sha3_256 (utf8 (go_render (JObj
    [(lit "id", JStr (ID l)); (lit "operator_id", JStr (OperatorID l)); (lit "wavelength_key", JStr (ToKey w));
     (lit "status", JStr (LeaseStatus_String (Status l))); (lit "token_hash", bytes_json (TokenHash l));
     (lit "start_time", JStr (rfc3339 (StartTime l))); (lit "end_time", JStr (rfc3339 (EndTime l)))])))).

(** The loop; [prev] is the lease before, if any. *)
Fixpoint check_chain (prev : option Lease) (ls : list Lease) : option (list ChainError) :=
  match ls with
  | [] => Some []
  | l :: ls =>
      broken ← match prev with
               | Some p =>
                   if negb (bool_decide (ParentHash l = [])) then
                     h ← computeLeaseHash p;
                     Some (if negb (bool_decide (ParentHash l = h)) then [ChainBroken (ID l)] else [])
                   else Some []
               | None => Some []
               end;
      rest ← check_chain (Some l) ls;
      Some ((if (Status l =? LeaseStatusActive) && bool_decide (TokenHash l = []) then [NoTokenHash (ID l)] else []) ++ broken ++ rest)
  end.

Definition CheckLeaseChainIntegrity (d : db) : result (bool * list ChainError) AuditError :=
  let? ls := map_err ListLeasesFailed (ListLeases (mkLeaseFilter [] [] LeaseStatusUnspecified) d) in
  match check_chain None (sort_by_creation ls) with
  | None => Err AuditPanicked
  | Some errors => Ok (bool_decide (length errors = 0%nat), errors)
  end.

(** One operator's latest commitment against its leases. *)
Definition consistency_of (d : db) (op : Operator) : list ConsistencyError :=
  match commitments.GetLatestCommitment (o_ID op) d with
  | Err _ => []
  | Ok c =>
      match ListLeases (mkLeaseFilter (o_ID op) [] LeaseStatusUnspecified) d with
      | Err e => [ListFor (o_ID op) e]
      | Ok ls =>
          let activeCount := as_signed 32 (count_if (λ l, Status l =? LeaseStatusActive) ls) in
          if negb (activeCount =? c_LeaseCount c) then [CountMismatch (o_ID op) (c_LeaseCount c) activeCount] else []
      end
  end.

Definition VerifyMerkleConsistency (d : db) : result (bool * list ConsistencyError) AuditError :=
  let? ops := map_err ListOperatorsFailed (directory.ListOperators d) in
  let errors := mjoin (consistency_of d <$> ops) in
  Ok (bool_decide (length errors = 0%nat), errors).

(** One lease's violations; readings: the check, and one for each violation. *)
Definition lease_violations (t : nat → Z) (l : Lease) : list Violation :=
  (if (Status l =? LeaseStatusActive) && (EndTime l <? t 0%nat) then [ExpiredLeaseActive (ID l) (t 1%nat)] else []) ++
  match wavelength l with
  | None => []
  | Some w =>
      match ValidateITUCompliance (Some w) with
      | Ok _ => []
      | Err e => [ItuCompliance e (ID l) (t 2%nat)]
      end
  end.

(** Readings: [now]; [t i] for the lease [i]; [u i] for the error [i] of the chain. *)
Definition GenerateAuditReport (now : Z) (t : nat → nat → Z) (u : nat → Z) (from to : Z) (d : db) : result AuditReport AuditError :=
  let? ls := map_err ListLeasesFailed (ListLeases (mkLeaseFilter [] [] LeaseStatusUnspecified) d) in
  let violations := mjoin (imap (λ i l, lease_violations (t i) l) ls) in
  let? ops := map_err ListOperatorsFailed (directory.ListOperators d) in
  let? chain := CheckLeaseChainIntegrity d in
  let? entries := ok_or (audit_log.GetAuditLog from to d) GetLogFailed in
  Ok (mkReport now from to (Z.of_nat (length ls))
    (count_if (λ l, Status l =? LeaseStatusActive) ls) (count_if (λ l, Status l =? LeaseStatusExpired) ls)
    (count_if (λ l, Status l =? LeaseStatusRevoked) ls) (Z.of_nat (length ops))
    (count_if (λ o, o_Status o =? OperatorStatusActive) ops)
    (count_if (λ a, bool_decide (a_Operation a = lit "COMMIT_MERKLE")) entries)
    (violations ++ imap (λ i e, HashChainBroken e (u i)) chain.2) chain.1).
End auditor.
End auditor.

(** ** The chain of leases *)

Section chain.
Context `{GoJson, !GoJsonSpec, !GoLeaseJson, !GoLeaseJsonSpec, !GoCommitJson, !GoDirJson, !GoAuditJson,
          GoCrypto, !GoCryptoSpec, Badger, !BadgerSpec, GoSort, !GoSortSpec}.
Import lease_engine auditor compliance.

(** A lease as the engine leaves it: its token's hash is set, its parent's is not. *)
Definition unchained (l : Lease) : Prop := ParentHash l = [] ∧ TokenHash l ≠ [].

Definition all_unchained (m : gmap text Lease) : Prop := ∀ id l, m !! id = Some l → unchained l.

Lemma lholds_unique d m m' : lholds d m → lholds d m' → m = m'.
Proof.
  intros Hm Hm'. apply map_eq. intros id. pose proof (lh_get d m Hm id) as E. rewrite (lh_get d m' Hm' id) in E.
  destruct (m !! id) as [l|] eqn:El, (m' !! id) as [l'|] eqn:El'; try done. cbn in E. injection E as E.
  pose proof (lease_unmarshal l ltac:(by eapply (lh_lease d m Hm))) as U.
  pose proof (lease_unmarshal l' ltac:(by eapply (lh_lease d m' Hm'))) as U'. rewrite E in U'. congruence.
Qed.

Lemma unchained_insert m id l : all_unchained m → unchained l → all_unchained (<[id := l]> m).
Proof. intros Hm Hl id' l' [[_ <-]|[_ ?]]%lookup_insert_Some; [done|by eapply Hm]. Qed.

Lemma hash_token_nonempty tok h : tokens.hashToken tok = Some h → h ≠ [].
Proof.
  unfold tokens.hashToken. destruct (t_Wavelength tok); [|done]. intros [= <-] E%(f_equal length). by rewrite sha3_length in E.
Qed.

(** A step that leaves the leases' keys alone. *)
Lemma unchained_frame (d d' : db) :
  (∀ k, lease_key k → db_get k d' = db_get k d) → (∀ m, lholds d m → all_unchained m) →
  ∀ m, lholds d' m → all_unchained m.
Proof. intros Hf Hd m Hm. apply Hd. eapply lholds_frame; [|exact Hm]. intros k Hk. by rewrite Hf. Qed.

(** A step to a database that holds such leases. *)
Lemma unchained_step (d : db) m' : lholds d m' → all_unchained m' → ∀ m, lholds d m → all_unchained m.
Proof. intros Hd' Hu m Hm. by rewrite (lholds_unique d m m'). Qed.

Lemma not_schema k : lease_key k → ¬ schema_key k.
Proof. unfold lease_key, schema_key. by intros ->. Qed.

Lemma reachable_unchained T e : registry_reachable T e → ∀ m, lholds (engine.store e) m → all_unchained m.
Proof.
  induction 1 as [T d key op height _ Hl _|T e now uuid rnd s _ IH|T e now rnd id _ IH|T e now rnd id _ IH
    |T T' e t uuid nonce rnd w ep dur Hr IH _|T T' e t nonce rnd id ext Hr IH _ _|T T' e t id Hr IH _|T T' e t Hr IH _
    |T T' e t rnd _ IH _|T e ep _ IH|T e op _ IH|T e c _ IH|T e a _ IH].
  - apply (unchained_step _ ∅ Hl). intros id l. by rewrite lookup_empty.
  - eapply unchained_frame; [|exact IH]. intros k Hk. by apply register_frame, not_schema.
  - eapply unchained_frame; [|exact IH]. intros k Hk. by apply change_status_frame, not_schema.
  - eapply unchained_frame; [|exact IH]. intros k Hk. by apply change_status_frame, not_schema.
  - destruct (registry_reachable_inv _ _ Hr) as (sm & lm & He). pose proof (ri_leases _ _ _ _ He) as Hd.
    pose proof (allocate_spec t uuid nonce rnd w ep dur e lm Hd (ri_operator _ _ _ _ He)) as Ha.
    destruct (AllocateLease _ _ _ _ _ _ _ _) as [e' [[l tok]|err]]; [|by destruct Ha as [-> _]].
    destruct Ha as (wl & h & _ & _ & _ & -> & _ & Hh & _ & _ & Hl & _). apply (unchained_step _ _ Hl).
    apply unchained_insert; [by apply IH|]. split; [done|by eapply hash_token_nonempty].
  - destruct (registry_reachable_inv _ _ Hr) as (sm & lm & He). pose proof (ri_leases _ _ _ _ He) as Hd.
    pose proof (renew_spec t nonce rnd id ext e lm Hd) as Ha.
    destruct (RenewLease _ _ _ _ _ _) as [e' [[l tok]|err]]; [|by subst].
    destruct Ha as (l0 & h & Hl0 & _ & _ & -> & _ & Hh & _ & Hl). apply (unchained_step _ _ Hl).
    apply unchained_insert; [by apply IH|]. split; [by apply (IH lm Hd id l0)|by eapply hash_token_nonempty].
  - destruct (registry_reachable_inv _ _ Hr) as (sm & lm & He). pose proof (ri_leases _ _ _ _ He) as Hd.
    pose proof (revoke_spec t id e lm Hd) as Ha. destruct (RevokeLease _ _ _) as [e' [[]|err]]; [|by subst].
    destruct Ha as (l0 & Hl0 & _ & _ & Hl). apply (unchained_step _ _ Hl).
    apply unchained_insert; [by apply IH|]. by apply (IH lm Hd id l0).
  - destruct (registry_reachable_inv _ _ Hr) as (sm & lm & He). pose proof (ri_leases _ _ _ _ He) as Hd.
    destruct (expire_spec t e lm Hd (ri_operator _ _ _ _ He)) as (n & e' & lm' & E & _ & Hl & Hm). rewrite E.
    apply (unchained_step _ _ Hl). intros id l Hid. specialize (Hm id). destruct (lm !! id) as [l0|] eqn:E0; [|congruence].
    case_bool_decide; [|assert (l = l0) as -> by congruence; by eapply IH].
    destruct Hm as [u Hm]. assert (l = expired l0 (t 0%nat) u) as -> by congruence. by apply (IH lm Hd id l0).
  - eapply unchained_frame; [|exact IH]. intros k Hk. apply commit_frame. by right.
  - eapply unchained_frame; [|exact IH]. intros k Hk. apply create_row_frame; [by left|by right].
  - eapply unchained_frame; [|exact IH]. intros k Hk. apply create_row_frame; [by right|by right].
  - eapply unchained_frame; [|exact IH]. intros k Hk. apply save_frame. by right.
  - eapply unchained_frame; [|exact IH]. intros k Hk. apply audit_frame. by right.
Qed.

(** The listing of all leases. *)
Lemma list_all_spec d m : lholds d m →
  ∃ ls, ListLeases (mkLeaseFilter [] [] LeaseStatusUnspecified) d = Ok ls ∧ ls ≡ₚ (map_to_list m).*2.
Proof.
  intros Hd. destruct (list_leases_spec d m (mkLeaseFilter [] [] LeaseStatusUnspecified) Hd) as (ls & E & Hls).
  exists ls. split; [done|]. apply NoDup_Permutation.
  - eapply (NoDup_fmap_1 ID), list_leases_nodup; [exact Hd|exact E].
  - apply (NoDup_fmap_1 ID). rewrite <- list_fmap_compose. rewrite (list_fmap_ext (ID ∘ snd) fst); [apply NoDup_fst_map_to_list|].
    intros i [k l] Hi. apply list_elem_of_lookup_2, elem_of_map_to_list in Hi. cbn. by destruct (lh_lease d m Hd k l Hi).
  - intros l. rewrite Hls, list_elem_of_fmap. split.
    + intros [Hl _]. exists (ID l, l). split; [done|]. by apply elem_of_map_to_list.
    + intros ([k l'] & -> & Hl%elem_of_map_to_list). cbn. by destruct (lh_lease d m Hd k l' Hl) as (-> & _).
Qed.

Lemma count_if_permutation {A} (f : A → bool) l l' : l ≡ₚ l' → count_if f l = count_if f l'.
Proof. intros Hp. unfold count_if. by rewrite Hp. Qed.

Lemma check_unchained ls : ∀ prev, Forall unchained ls → check_chain prev ls = Some [].
Proof.
  induction ls as [|l ls IH]; intros prev Hls; [done|]. apply Forall_cons in Hls as [[Hp Ht] Hls]. cbn [check_chain].
  rewrite (bool_decide_eq_true_2 (ParentHash l = [])), (bool_decide_eq_false_2 (TokenHash l = [])) by done.
  rewrite andb_false_r. cbn [negb]. rewrite IH by done. by destruct prev.
Qed.

(** The check of the chain passes on every registry the engine can produce: no lease has a
    parent's hash, so nothing is chained. *)
Lemma chain_check_vacuous T e : registry_reachable T e → CheckLeaseChainIntegrity (engine.store e) = Ok (true, []).
Proof.
  intros Hr. destruct (registry_reachable_inv _ _ Hr) as (sm & lm & He). pose proof (ri_leases _ _ _ _ He) as Hd.
  unfold CheckLeaseChainIntegrity. destruct (list_leases_spec _ lm (mkLeaseFilter [] [] LeaseStatusUnspecified) Hd) as (ls & -> & Hls).
  cbn [map_err rbind]. rewrite check_unchained; [done|]. rewrite sort_permutation. apply Forall_forall.
  intros l [Hl _]%Hls. by eapply (reachable_unchained T e Hr lm Hd).
Qed.
(** What a violation in a report on the leases [m] says; [t] are the readings. *)
Definition justified (oor : float → Z) (t : nat → nat → Z) (m : gmap text Lease) (v : Violation) : Prop :=
  match v with
  | ExpiredLeaseActive id _ => ∃ l i, m !! id = Some l ∧ Status l = LeaseStatusActive ∧ EndTime l < t i 0%nat
  | ItuCompliance err id _ => ∃ l, m !! id = Some l ∧ wavelength l ≠ None ∧ ValidateITUCompliance oor (wavelength l) = Err err
  | HashChainBroken _ _ => False
  end.

(** C21: The audit report of a registry.  On every registry that can be reached, if the
    operators and the log can be read, a report is made for the given period; it counts the
    stored leases, all and by status, whatever the period, the operators and the active
    ones, and the COMMIT_MERKLE entries among those [GetAuditLog] returns for the bounds of
    the period.  These are not the commitments of the period: for bounds in whole seconds
    they are those of the window that drops the first second and adds the one after the
    last ([commitment_count_window], a finding).  The report calls the chain valid; each
    violation it names is of a stored lease, either active past its end or off the ITU-T
    rules; and no lease that is active past its end, or against the rules, goes unnamed. *)
Theorem audit_report_exact (oor : float → Z) (T now : Z) (t : nat → nat → Z) (u : nat → Z) (from to : Z)
    (e : engine.Engine) (ops : list Operator) (log : list AuditLogEntry) :
  registry_reachable T e → directory.ListOperators (engine.store e) = Ok ops →
  audit_log.GetAuditLog from to (engine.store e) = Some log →
  ∃ r m, GenerateAuditReport oor now t u from to (engine.store e) = Ok r ∧ lholds (engine.store e) m ∧
    let leases := (map_to_list m).*2 in
    PeriodStart r = from ∧ PeriodEnd r = to ∧
    TotalLeases r = Z.of_nat (size m) ∧ ActiveLeases r = count_if (λ l, Status l =? LeaseStatusActive) leases ∧
    ExpiredLeases r = count_if (λ l, Status l =? LeaseStatusExpired) leases ∧
    RevokedLeases r = count_if (λ l, Status l =? LeaseStatusRevoked) leases ∧
    TotalOperators r = Z.of_nat (length ops) ∧
    ActiveOperators r = count_if (λ o, o_Status o =? OperatorStatusActive) ops ∧
    CommitmentCount r = count_if (λ a, bool_decide (a_Operation a = lit "COMMIT_MERKLE")) log ∧
    HashChainValid r = true ∧ Forall (justified oor t m) (Violations r) ∧
    ∀ id l, m !! id = Some l →
      (Status l = LeaseStatusActive → (∀ i, EndTime l < t i 0%nat) → ∃ ts, ExpiredLeaseActive id ts ∈ Violations r) ∧
      (∀ err, wavelength l ≠ None → ValidateITUCompliance oor (wavelength l) = Err err →
         ∃ ts, ItuCompliance err id ts ∈ Violations r).
Proof.
  intros Hr Hops Hlog. destruct (registry_reachable_inv _ _ Hr) as (sm & m & He). pose proof (ri_leases _ _ _ _ He) as Hd.
  destruct (list_all_spec _ m Hd) as (ls & El & Hls).
  assert (∀ i l, ls !! i = Some l → m !! ID l = Some l) as Hm.
  { intros i l Hi%list_elem_of_lookup_2. rewrite Hls in Hi. apply list_elem_of_fmap in Hi as ([k l'] & -> & Hk%elem_of_map_to_list).
    cbn. by destruct (lh_lease _ m Hd k l' Hk) as (-> & _). }
  eexists _, m. split; [unfold GenerateAuditReport; rewrite El, Hops, Hlog, (chain_check_vacuous T e Hr); reflexivity|].
  split; [done|]. cbn [PeriodStart PeriodEnd ActiveOperators TotalLeases ActiveLeases ExpiredLeases RevokedLeases TotalOperators CommitmentCount HashChainValid
    Violations fst snd imap]. rewrite app_nil_r. split_and!; try done; try (by apply count_if_permutation).
  - by rewrite Hls, length_fmap, length_map_to_list.
  - apply Forall_forall. intros v (vs & Hv & Hvs)%list_elem_of_join.
    apply list_elem_of_lookup in Hvs as [i Hi]. rewrite list_lookup_imap in Hi. apply fmap_Some in Hi as (l & Hi & ->).
    apply Hm in Hi as Hl. unfold lease_violations in Hv. apply elem_of_app in Hv as [Hv|Hv].
    + destruct (Z.eqb_spec (Status l) LeaseStatusActive), (Z.ltb_spec (EndTime l) (t i 0%nat)); cbn [andb] in Hv;
        try by apply not_elem_of_nil in Hv. apply list_elem_of_singleton in Hv as ->. by exists l, i.
    + destruct (wavelength l) as [w|] eqn:Ew; [|by apply not_elem_of_nil in Hv].
      destruct (ValidateITUCompliance oor (Some w)) as [|err] eqn:Ei; [by apply not_elem_of_nil in Hv|].
      apply list_elem_of_singleton in Hv as ->. exists l. by rewrite Ew.
  - intros id l Hl. assert (∃ i, ls !! i = Some l) as [i Hi].
    { apply list_elem_of_lookup. rewrite Hls. apply list_elem_of_fmap. exists (id, l). split; [done|]. by apply elem_of_map_to_list. }
    destruct (lh_lease _ m Hd id l Hl) as (HID & _ & _).
    assert (∀ v, v ∈ lease_violations oor (t i) l → v ∈ mjoin (imap (λ i l, lease_violations oor (t i) l) ls)) as Hin.
    { intros v Hv. apply list_elem_of_join. eexists. split; [exact Hv|]. apply list_elem_of_lookup. exists i.
      by rewrite list_lookup_imap, Hi. }
    split.
    + intros Hs Hend. exists (t i 1%nat). apply Hin, elem_of_app. left. rewrite Hs, Z.eqb_refl.
      rewrite (proj2 (Z.ltb_lt _ _) (Hend i)). rewrite HID. by left.
    + intros err Hw Hv. exists (t i 2%nat). apply Hin, elem_of_app. right. destruct (wavelength l) as [w|]; [|done].
      rewrite Hv, HID. by left.
Qed.
End chain.

(** The commitments a report counts, for a period in whole seconds: those the log holds at
    its first instant exactly, or from a second later on up to the end of the second after
    its last instant. *)
Theorem commitment_count_window `{GoJson, !GoTimeFormat, !GoLeaseJson, !GoCommitJson, !GoDirJson, !GoAuditJson,
    !GoAuditJsonSpec, GoCrypto, Badger, !BadgerSpec, !BadgerIter, GoSort} (oor : float → Z) (now : Z)
    (t : nat → nat → Z) (u : nat → Z) (from to : Z) (d : db) (lm : gmap Z AuditLogEntry) (r : auditor.AuditReport) :
  log_of d lm → time_ok (from * ns) → time_ok (to * ns) →
  auditor.GenerateAuditReport oor now t u (from * ns) (to * ns) d = Ok r →
  ∃ es, auditor.CommitmentCount r = auditor.count_if (λ a, bool_decide (a_Operation a = lit "COMMIT_MERKLE")) es ∧
    ∀ a, a ∈ es ↔ lm !! a_Timestamp a = Some a ∧ in_window from to (a_Timestamp a).
Proof.
  intros Hlog Hf Ht. destruct (query_spec d lm (from * ns) (to * ns) Hlog) as (es & E & Hes & _).
  unfold auditor.GenerateAuditReport. rewrite E.
  destruct (ListLeases _ d) as [ls|]; [|done]. cbn [map_err rbind].
  destruct (directory.ListOperators d) as [ops|]; [|done]. cbn [map_err rbind].
  destruct (auditor.CheckLeaseChainIntegrity d) as [chain|]; [|done]. cbn [rbind ok_or]. intros [= <-].
  exists es. split; [done|]. intros a. rewrite Hes.
  split; intros [Hm Hw]; (split; [done|]); apply window_cmp; try done; by apply (proj1 Hlog _ a).
Qed.

(** ** Channels *)

Section channels.
Context (oor : float → Z).
Import compliance auditor.

(** The channels of the C band on the two grids in use. *)
Definition c_band_channel (grid ch : Z) : Prop := (grid = 100 ∧ -15 ≤ ch ≤ 28) ∨ (grid = 50 ∧ -30 ≤ ch ≤ 56).

Definition channel_ok (grid ch : Z) : bool :=
  let lambda := WavelengthFromChannelNumber ch (f64.of_Z grid) in
  is_ok (ValidateITUCompliance oor (Some (mkWavelength lambda ch BandCBand (f64.of_Z grid)))) &&
  IsOnGrid lambda (f64.of_Z grid) ReferenceWavelengthNm.

Lemma channels_100 : forallb (channel_ok 100) (seqZ (-15) 44) = true.
Proof. vm_compute. reflexivity. Qed.

Lemma channels_50 : forallb (channel_ok 50) (seqZ (-30) 87) = true.
Proof. vm_compute. reflexivity. Qed.

Lemma channel_checked grid ch : c_band_channel grid ch → channel_ok grid ch = true.
Proof.
  intros [[-> Hc]|[-> Hc]]; [pose proof channels_100 as Hf|pose proof channels_50 as Hf];
    rewrite List.forallb_forall in Hf; apply Hf, list_elem_of_In, elem_of_seqZ; lia.
Qed.

(** C32: Channel numbers and wavelengths.  For every channel of the C band on the grids of 50
    and 100 GHz, in double arithmetic with all its rounding: the wavelength computed from
    the channel number lies in the band and on the grid, the channel number computed from it
    is the one it came from, and a lease of it complies with the ITU-T rules. *)
Theorem itu_channel_round_trip (grid ch : Z) :
  c_band_channel grid ch →
  let lambda := WavelengthFromChannelNumber ch (f64.of_Z grid) in
  ValidateBand lambda BandCBand = Ok () ∧
  ValidateDWDMGrid oor lambda (f64.of_Z grid) = (true, ch) ∧
  ValidateITUCompliance oor (Some (mkWavelength lambda ch BandCBand (f64.of_Z grid))) = Ok ().
Proof.
  intros Hc lambda. pose proof (channel_checked grid ch Hc) as Hok. unfold channel_ok in Hok. fold lambda in Hok.
  apply andb_true_iff in Hok as [Hv Hg]. unfold ValidateDWDMGrid. rewrite Hg.
  destruct (ValidateITUCompliance _ _) as [[]|] eqn:E; [|done]. unfold ValidateITUCompliance in E. cbn [LambdaNm Band GridGHz ChannelNum] in E.
  destruct (ValidateBand lambda BandCBand) as [[]|] eqn:Eb; cbn [rbind] in E; [|done]. split; [done|]. split; [|done].
  destruct (negb _); [done|]. destruct (Z.eqb_spec (ChannelNumberFromWavelength oor lambda (f64.of_Z grid)) ch) as [->|]; [done|done].
Qed.
End channels.

(** ** Witnesses *)

Module ComplianceExamples.
Import ToyStore ToyCrypto LedgerExamples compliance auditor.

#[export] Instance created_dec : RelDecision created_le.
Proof. intros a b. unfold created_le. apply _. Defined.

#[export] Instance toy_sort : GoSort := {| sort_by_creation := merge_sort created_le |}.

#[local] Instance created_total : Total created_le.
Proof. intros a b. unfold created_le. lia. Qed.

#[local] Instance created_trans : Transitive created_le.
Proof. intros a b c. unfold created_le. lia. Qed.

#[export] Instance toy_sort_spec : GoSortSpec.
Proof. constructor; intros ls; [apply merge_sort_Permutation|apply (StronglySorted_merge_sort created_le)]. Qed.

#[export] Instance toy_dir_json : GoDirJson := {| go_unmarshal_endpoint _ := None; go_unmarshal_operator _ := None |}.

#[export] Instance toy_audit_json : GoAuditJson := {|
  go_unmarshal_audit s :=
    match parse s with
    | Some (JObj [(_, JStr [t]); (_, JStr op); (_, JStr o); (_, JStr l); (_, de); (_, h); (_, ph)]) =>
        de ← bytes_of de; h ← bytes_of h; ph ← bytes_of ph; Some (mkAudit t op o l de h ph)
    | _ => None
    end;
|}.

(** The registry with one lease, which ended at 10, audited at 20: its channel is not that
    of its wavelength either. *)
Lemma audit_report_exact_witness :
  ∃ r, GenerateAuditReport (λ _, 0) 20 (λ _ _, 20) (λ _, 20) 0 20 (engine.store e1) = Ok r ∧ TotalLeases r = 1 ∧
    HashChainValid r = true ∧ ∃ ts, ExpiredLeaseActive (lit "l-1") ts ∈ Violations r.
Proof.
  assert (registry_reachable 0 e1) as Hr by (apply (reg_allocate 0 0); [apply open_reachable|intros; lia]).
  assert (∃ log, audit_log.GetAuditLog 0 20 (engine.store e1) = Some log) as [log Hlog] by (eexists; vm_compute; reflexivity).
  destruct (audit_report_exact (λ _, 0) 0 20 (λ _ _, 20) (λ _, 20) 0 20 e1 [] log Hr ltac:(vm_compute; reflexivity) Hlog)
    as (r & m & E & _ & _ & _ & _ & _ & _ & _ & _ & _ & _ & Hc & _ & _).
  exists r. split; [exact E|]. vm_compute in E. injection E as <-.
  split; [reflexivity|]. split; [exact Hc|]. exists 20. left.
Defined.

(** An in-band wavelength about halfway between two grid lines passes the check of compliance:
    that it lies on the grid is not tested. *)
Theorem off_grid_complies :
  let w := mkWavelength (f64.lit 15503 10) 6 BandCBand (f64.of_Z 50) in
  ValidateITUCompliance (λ _, 0) (Some w) = Ok () ∧ IsOnGrid (LambdaNm w) (GridGHz w) ReferenceWavelengthNm = false.
Proof. vm_compute. split; reflexivity. Qed.

Lemma itu_channel_round_trip_witness :
  c_band_channel 50 6 ∧
  ValidateDWDMGrid (λ _, 0) (WavelengthFromChannelNumber 6 (f64.of_Z 50)) (f64.of_Z 50) = (true, 6).
Proof.
  assert (c_band_channel 50 6) as Hc by (right; split; [reflexivity|lia]). split; [exact Hc|].
  apply (itu_channel_round_trip (λ _, 0) 50 6 Hc).
Defined.
End ComplianceExamples.
