(* ===== verification/Cli.v ===== *)
(** * otap-cli: the demonstrations

    Models [src/crates/otap-cli/src/main.rs] and [bin/otap-local.rs],
    [bin/otap-fullstack.rs].  A program is a computation on the lines it has printed; a
    line carries the values that are formatted into it, and [Text] a line without
    values.  A panic is an error of [main.rs], which returns nothing else. *)

From S2P Require Import Prelude Float Core External Crypto Schema Codec Csr Sim Obg Fabric FlrClient.
From stdpp Require Import pretty.
Local Open Scope Z_scope.

(** ** Output *)

Inductive Line : Type :=
| Text (s : string)
(** [main.rs] *)
| WavelengthLine (channel : Z) (nm : float)
| OrderLine (label : string) (symbol : bytes) (side : Side) (quantity : Z) (dollars : float) (id : Z)
| DimensionLines (channel oam sequence : Z) (auth_ok : bool)
| LatencyLines (encode_ns decode_ns : Z)
| PmdLines (intact match_ok topo_ok : bool)
| TamperLine (before after : Z)
| TamperAuth (auth_ok : bool)
(** [otap-local] *)
| Provisioned (channel : Z) (nm : float)
| Pumped (n : nat)
| GotOrder (count : Z) (side : Side) (quantity : Z) (symbol : bytes) (price : float) (seq : Z) (auth_ok : bool)
| GotTick (count : Z) (symbol : bytes) (bid ask last : float) (auth_ok : bool)
| GotHeartbeat (count node offset seq : Z) (auth_ok : bool)
| Summary (count : Z)
(** [otap-fullstack] *)
| UrlLine (url : text)
| OperatorLine (operator : text)
| FetchedLine (n : nat)
| SchemaLine (name : text) (oam payload : Z) (status : option SchemaStatus)
| ProgrammedLine (alice bob : nat)
| FullSummary (count : Z).

Abbreviation program A E := (state_result (list Line) A E).

Definition say {E} (l : Line) : program unit E := λ out, (out ++ [l], Ok ()).

(** The [?] on a call that prints nothing. *)
Definition try {A E F} (f : E → F) (r : result A E) : program A F := λ out, (out, map_err f r).

(** Several lines, and lines without values. *)
Definition say_lines {E} (ls : list Line) : program unit E := λ out, (out ++ ls, Ok ()).
Definition say_all {E} (ls : list string) : program unit E := say_lines (Text <$> ls).

Lemma bind_say {A E} l (k : program A E) out : sr_bind (say l) (λ _, k) out = k (out ++ [l]).
Proof. reflexivity. Qed.

Lemma bind_say_lines {A E} ls (k : program A E) out :
  sr_bind (say_lines ls) (λ _, k) out = k (out ++ ls).
Proof. reflexivity. Qed.

Lemma bind_say_all {A E} ls (k : program A E) out :
  sr_bind (say_all ls) (λ _, k) out = k (out ++ (Text <$> ls)).
Proof. reflexivity. Qed.

Lemma bind_try {A B E F} (f : E → F) a (k : A → program B F) out r :
  r = Ok a → sr_bind (try f r) k out = k a out.
Proof. by intros ->. Qed.

Lemma bind_try_err {A B E F} (f : E → F) e (k : A → program B F) out r :
  r = Err e → sr_bind (try f r) k out = (out, Err (f e)).
Proof. by intros ->. Qed.

(** ** [str::trim] on UTF-8 bytes

    The encodings of the characters with the property White_Space. *)
Definition WHITE_SPACE : list bytes :=
  [[9]; [10]; [11]; [12]; [13]; [32]; [0xC2; 0x85]; [0xC2; 0xA0]; [0xE1; 0x9A; 0x80]]
  ++ ((λ b, [0xE2; 0x80; b]) <$> [0x80; 0x81; 0x82; 0x83; 0x84; 0x85; 0x86; 0x87; 0x88; 0x89; 0x8A])
  ++ [[0xE2; 0x80; 0xA8]; [0xE2; 0x80; 0xA9]; [0xE2; 0x80; 0xAF]; [0xE2; 0x81; 0x9F]; [0xE3; 0x80; 0x80]].

(** Strip any of [cs] from the front, as often as possible. *)
Fixpoint strip_front (fuel : nat) (cs : list bytes) (s : bytes) : bytes :=
  match fuel with
  | O => s
  | S fuel =>
      match base.filter (λ c, take (length c) s = c) cs with
      | c :: _ => strip_front fuel cs (drop (length c) s)
      | [] => s
      end
  end.

Definition trim_start (s : bytes) : bytes := strip_front (length s) WHITE_SPACE s.
Definition trim_end (cs : list bytes) (s : bytes) : bytes :=
  reverse (strip_front (length s) (reverse <$> cs) (reverse s)).
Definition trim (s : bytes) : bytes := trim_end WHITE_SPACE (trim_start s).

(** ** [otap-local] *)

Inductive LocalError : Type :=
| LocalProtocol (e : ProtocolError)
| LocalObg (e : ObgError).

Definition price (d : float) : Z := f64.to_bits d.

Definition AAPL : bytes := str_bytes "AAPL".

Definition local_order : EquityTradeOrder :=
  EquityTradeOrder_new AAPL Buy 1000 (price (f64.lit 19550 100)) 1700000000000 42
    (str_bytes "firm-uuid-16byte").

Definition local_tick : MarketTick :=
  mkTick (splice (replicate 8 0) 0 AAPL) (price (f64.lit 19549 100)) (price (f64.lit 19551 100))
    (price (f64.lit 19550 100)) 12500 1700000000500 (replicate 16 0).

Definition local_heartbeat : Heartbeat := mkHeartbeat 0xA11CE (-240) 7 (replicate 8 0).

(** [WorkRequest::new(id, wavelength, v.encode().len() as u32, cookie)] and [v.encode()] *)
Definition post_value {S} `{Schema S} (id : SchemaId) (w : Wavelength) (v : S) (cookie : Z)
    : state_result SendQueue unit ObgError :=
  post (WorkRequest_new id w (wrap 32 (Z.of_nat (length (encode v)))) cookie) (encode v).

(** The body of the [while let Some(c) = bob_cq.poll()] loop. *)
Definition local_lines (count : Z) (c : Completion) : list Line :=
  match c_value c with
  | AnyEquityTradeOrder o =>
      [GotOrder count (side o) (quantity o) (symbol_str o) (f64.from_bits (price_cents o))
         (c_sequence c) (c_auth_ok c)]
  | AnyMarketTick t =>
      let sym := if is_utf8 (tick_symbol t) then tick_symbol t else str_bytes "?" in
      [GotTick count (trim (trim_end [[0]] sym)) (f64.from_bits (bid_cents t))
         (f64.from_bits (ask_cents t)) (f64.from_bits (last_cents t)) (c_auth_ok c)]
  | AnyHeartbeat h =>
      [GotHeartbeat count (node_id h) (clock_offset_ns h) (heartbeat_seq h) (c_auth_ok c)]
  end.

(** The loop; [line] is what its body prints in its [count]-th round.  Each round removes
    a completion, so the queue's length is enough fuel. *)
Fixpoint drain {E} (line : Z → Completion → list Line) (fuel : nat) (cq : CompletionQueue)
    (count : Z) : program (CompletionQueue * Z) E :=
  match fuel, poll cq with
  | S fuel, (cq, Some c) =>
      exec! say_lines (line (count + 1) c); drain line fuel cq (count + 1)
  | _, _ => sr_ret (cq, count)
  end.

(** ** [otap-demo] ([main.rs]) *)

Inductive DemoPanic : Type :=
| ExpectFailed (msg : string)
| UnwrapFailed
| IndexOutOfBounds.

Definition expect {A E} (msg : string) (r : result A E) : program A DemoPanic :=
  try (λ _, ExpectFailed msg) r.
Definition unwrap {A E} (r : result A E) : program A DemoPanic := try (λ _, UnwrapFailed) r.

Definition RULE : string := "-------------------------------------------------------------------".

Definition banner {E} (title : string) : program unit E := say_all [""; RULE; title; RULE]%string.

Definition print_order (label : string) (o : EquityTradeOrder) : Line :=
  OrderLine label (symbol_str o) (side o) (quantity o)
    (f64.div (f64.from_bits (price_cents o)) (f64.of_Z 100)) (client_order_id o).

Definition original_order : EquityTradeOrder :=
  EquityTradeOrder_new AAPL Buy 1000 (price (f64.of_Z 19850)) 1716649200000000001
    0xDEADBEEFCAFEF00D (replicate 16 0x11).

(** [payload[8] ^= 0xFF] *)
Definition tamper (t : Transient) : program (Transient * Z * Z) DemoPanic :=
  match payload t !! 8%nat with
  | None => sr_throw IndexOutOfBounds
  | Some b =>
      sr_ret (mkTransient (wavelength t) (polarization t) (oam t) (micro t)
                (<[8%nat := Z.lxor b 0xFF]> (payload t)), b, Z.lxor b 0xFF)
  end.

Definition READING_PMD : list string :=
  [""; "  Reading: A receiver without realtime PMD compensation cannot";
   "  verify the sample-by-sample trajectory, but it CAN verify the";
   "  topological winding number - which is preserved under any";
   "  unitary transform of the Poincare sphere. This is the";
   "  patent-targetable property of OTAP-4D's D3 channel."]%string.

Definition READING_TAMPER : list string :=
  [""; "  Reading: The polarization trajectory is bound to the payload";
   "  via HMAC. Tampering produces a trajectory mismatch with";
   "  overwhelming probability - even though the payload itself";
   "  decodes to a syntactically valid order."]%string.

Definition DEMO_SUMMARY : list string :=
  ["  * Parallel decode of all 5 dimensions: structurally enforced";
   "  * Schema dispatch via OAM mode (no header parsing): yes";
   "  * Polarization-bound integrity: yes";
   "  * Topological auth survives PMD: yes";
   "  * All round-trip invariants hold under impairment"; "";
   "  Next steps:";
   "    1. Bit-exact RTL implementation of Decoder against this reference";
   "    2. Cosim harness: feed identical inputs to RTL and Rust, diff outputs";
   "    3. OBG host-side driver: this codec linked as a static library"; ""]%string.

(** ** [otap-fullstack] *)

Record Args : Type := mkArgs { flr_url : text; operator : text }.

(** The [while let Some(arg) = argv.next()] loop: an option at the end of the line
    keeps the value it has. *)
Fixpoint parse_loop (argv : list text) (args : Args) : Args :=
  match argv with
  | [] => args
  | arg :: argv =>
      if decide (arg = lit "--flr") then
        match argv with
        | [] => args
        | v :: argv => parse_loop argv (mkArgs v (operator args))
        end
      else if decide (arg = lit "--operator") then
        match argv with
        | [] => args
        | v :: argv => parse_loop argv (mkArgs (flr_url args) v)
        end
      else parse_loop argv args
  end.

(** [argv] without the program's name. *)
Definition parse_args (argv : list text) : Args :=
  parse_loop argv (mkArgs (lit "http://localhost:8080") (lit "op-alice")).

Inductive FullError `{Registry} : Type :=
| FullProtocol (e : ProtocolError)
| FullObg (e : ObgError)
| FullFlr (context : option string) (e : FlrClientError)
| Bail (msg : text).

(** The contexts of [anyhow]. *)
Definition CREATE_CLIENT : string := "create FLR client".
Definition LIST_SCHEMAS : string := "list_active_schemas - is flrd running and seeded?".

Definition fullstack_config (args : Args) : FlrClientConfig :=
  mkFlrConfig (flr_url args) (operator args) 5 15.

(** The order of round [i]. *)
Definition fullstack_order (i : Z) : EquityTradeOrder :=
  EquityTradeOrder_new AAPL (if i mod 2 =? 0 then Buy else Sell) (100 + i * 50)
    (price (f64.add (f64.lit 19550 100) (f64.mul (f64.of_Z i) (f64.lit 25 100))))
    (1700000000000 + i * 1000000) (42 + i) (str_bytes "firm-uuid-16byte").

Definition schema_line (s : ApplicationSchema) : Line :=
  SchemaLine (app_name s) (app_oam_mode s) (app_payload_bytes s) (app_status s).

(** [bail!("no active schemas; ...")] *)
Definition no_schemas (args : Args) : text :=
  lit "no active schemas; run `flr-seed -operator " ++ operator args ++ lit "`".

(** Other values are counted and not printed. *)
Definition full_lines (count : Z) (c : Completion) : list Line :=
  match c_value c with
  | AnyEquityTradeOrder o =>
      [GotOrder count (side o) (quantity o) (symbol_str o) (f64.from_bits (price_cents o))
         (c_sequence c) (c_auth_ok c)]
  | _ => []
  end.

Section programs.
Context `{HmacSha256} `{Libm}.

Definition otap_local : program unit LocalError :=
  exec! say (Text "== otap-local: pure-software OTAP demo (no FPGA, no FLR) ==");
  do! wavelength <- try LocalProtocol (Wavelength_new 40);
  let session_key := replicate 32 0x9B in
  let '(alice_rf, r) := arm_register_file wavelength session_key true RegisterFile_new in
  exec! try LocalObg r;
  let '(bob_rf, r) := arm_register_file wavelength session_key true RegisterFile_new in
  exec! try LocalObg r;
  exec! say (Provisioned (channel wavelength) (wavelength_nm wavelength));
  do! alice <- try LocalObg (from_csr alice_rf);
  do! bob <- try LocalObg (from_csr bob_rf);
  exec! say (Text "Drivers armed from CSR.");
  let fabric := with_random_pmd 0x1234DEAD 0xCAFEBABE in
  exec! say (Text "Fabric: random PMD on both directions.");
  let alice_send := SendQueue_new 64 in
  let bob_cq := CompletionQueue_new 64 in
  let '(alice_send, r) :=
    post_value IdEquityTradeOrder wavelength local_order 0xAA01 alice_send in
  exec! try LocalObg r;
  let '(alice_send, r) := post_value IdMarketTick wavelength local_tick 0xAA02 alice_send in
  exec! try LocalObg r;
  let '(alice_send, r) := post_value IdHeartbeat wavelength local_heartbeat 0xAA03 alice_send in
  exec! try LocalObg r;
  let '(_, _, _, bob_cq, delivered) := pump_a_to_b fabric alice alice_send bob bob_cq in
  exec! say (Pumped delivered);
  do! drained <- drain local_lines (CompletionQueue_len bob_cq) bob_cq 0;
  exec! say (Summary (snd drained));
  exec! say (Text "== This is the no-FPGA, no-FLR proof. ==");
  sr_ret ().

(** The rotation of scenario 2. *)
Definition demo_pmd : PoincareRotation :=
  rotation_then
    (rotation_then (about_s1 (f32.lit 7 10)) (about_s2 (f32.lit 13 10)))
    (about_s3 (f32.opp (f32.lit 4 10))).

(** [dt_encode] and [dt_decode] are the elapsed nanoseconds the clock reports. *)
Definition otap_demo `{Sha256} (dt_encode dt_decode : Z) : program unit DemoPanic :=
  exec! say_all ["OTAP Reference Codec Demo"; "========================="; "Protocol: OTAP v0.2 (reference model)"]%string;
  let alice_bob_key := test_from_label (str_bytes "alice-bob") in
  do! w <- unwrap (Wavelength_new 40);
  exec! say (WavelengthLine (channel w) (wavelength_nm w));
  exec! say (Text "  Shared key:  HMAC-SHA256 derived (test only)");
  exec! banner "Scenario 1: Clean channel (no impairment)";
  let encoder := Encoder_new alice_bob_key w in
  let decoder_match :=
    Decoder_new (mkDecoderConfig alice_bob_key w (TrajectoryMatch (f32.lit 1 100))) in
  exec! say (print_order "transmit" original_order);
  let '(encoder, transient) := Encoder_encode encoder original_order in
  let '(_, received) := transmit Channel_perfect transient in
  do! report <- expect "decode should succeed" (Decoder_decode decoder_match received);
  do! decoded <- expect "must be an order" (ok_or (as_equity_order (rep_value report)) ());
  exec! say (print_order "receive" decoded);
  exec! say (Text "");
  exec! say (DimensionLines (channel (rep_wavelength report)) (charge (rep_oam report))
               (sequence (rep_micro report)) (rep_auth_ok report));
  exec! say (Text "");
  exec! say (LatencyLines dt_encode dt_decode);
  exec! say (Text "  Target on FPGA:  < 65 ns encode, < 20 ns decode (see spec 5.2, 6.2)");
  exec! banner "Scenario 2: Long-haul PMD rotation (the topological-auth payoff)";
  let '(encoder, transient) := Encoder_encode encoder original_order in
  let '(_, received) := transmit (Channel_with_pmd demo_pmd) transient in
  let decoder_topo := Decoder_new (mkDecoderConfig alice_bob_key w Topological) in
  do! report_match <- unwrap (Decoder_decode decoder_match received);
  do! report_topo <- unwrap (Decoder_decode decoder_topo received);
  exec! say (PmdLines (Any_eqb (rep_value report_match) (rep_value report_topo))
               (rep_auth_ok report_match) (rep_auth_ok report_topo));
  exec! say_all READING_PMD;
  exec! banner "Scenario 3: Adversarial payload modification";
  let '(_, transient) := Encoder_encode encoder original_order in
  let '(_, received) := transmit Channel_perfect transient in
  do! tampered <- tamper received;
  let '(received, original_byte, new_byte) := tampered in
  exec! say (TamperLine original_byte new_byte);
  do! report <- unwrap (Decoder_decode decoder_match received);
  do! order <- unwrap (ok_or (as_equity_order (rep_value report)) ());
  exec! say (print_order "(tampered)" order);
  exec! say (Text "");
  exec! say (TamperAuth (rep_auth_ok report));
  exec! say_all READING_TAMPER;
  exec! banner "Reference-model summary";
  exec! say_all DEMO_SUMMARY;
  sr_ret ().

(** The registry's answers are numbered: 0 for the list, 1 and 2 for the two register
    files. *)
Definition otap_fullstack `{Registry} (argv : list text) : program unit FullError :=
  let args := parse_args argv in
  exec! say (Text "== otap-fullstack: live FLR-driven OTAP demo ==");
  exec! say (UrlLine (flr_url args));
  exec! say (OperatorLine (operator args));
  do! flr <- try (FullFlr (Some CREATE_CLIENT)) (FlrClient_new (fullstack_config args));
  do! schemas <- try (FullFlr (Some LIST_SCHEMAS)) (list_active_schemas (flr_cfg flr) 0);
  exec! say (FetchedLine (length schemas));
  exec! say_lines (schema_line <$> schemas);
  if bool_decide (schemas = []) then sr_throw (Bail (no_schemas args))
  else
    do! w <- try FullProtocol (Wavelength_new 40);
    let session_key := replicate 32 0xBE in
    let '(alice_rf, r) := program_register_file (flr_cfg flr) w session_key true 1 RegisterFile_new in
    do! mapped_a <- try (FullFlr None) r;
    let '(bob_rf, r) := program_register_file (flr_cfg flr) w session_key true 2 RegisterFile_new in
    do! mapped_b <- try (FullFlr None) r;
    exec! say (ProgrammedLine mapped_a mapped_b);
    do! alice <- try FullObg (from_csr alice_rf);
    do! bob <- try FullObg (from_csr bob_rf);
    let fabric := with_random_pmd 0xDEADBEEF 0xFEEDFACE in
    let '(alice_send, r) :=
      sr_for [0; 1; 2; 3; 4] (λ i,
        post_value IdEquityTradeOrder w (fullstack_order i) (Z.lor 0xABCD0000 i))
        (SendQueue_new 64) in
    exec! try FullObg r;
    let '(_, _, _, bob_cq, delivered) :=
      pump_a_to_b fabric alice alice_send bob (CompletionQueue_new 64) in
    exec! say (Pumped delivered);
    do! drained <- drain full_lines (CompletionQueue_len bob_cq) bob_cq 0;
    exec! say (FullSummary (snd drained));
    sr_ret ().
End programs.

(** ** Draining *)

(** The whole queue is printed, oldest first, and the queue is empty after it. *)
Lemma drain_all {E} line cs : ∀ cap count (out : list Line),
  drain (E := E) line (length cs) (mkCompletionQueue cs cap) count out =
  (out ++ concat (imap (λ i c, line (count + 1 + Z.of_nat i) c) cs),
   Ok (mkCompletionQueue [] cap, count + Z.of_nat (length cs))).
Proof.
  induction cs as [|c cs IH]; intros cap count out.
  { cbn. by rewrite app_nil_r, Z.add_0_r. }
  cbn [length drain poll completions cq_capacity].
  rewrite bind_say_lines, IH, imap_cons, <- app_assoc. cbn [concat].
  rewrite Z.add_0_r. replace (count + 1 + Z.of_nat (length cs)) with (count + Z.of_nat (S (length cs))) by lia.
  do 4 f_equal. apply imap_ext. intros i c' _. unfold compose.
  by replace (count + 1 + 1 + Z.of_nat i) with (count + 1 + Z.of_nat (S i)) by lia.
Qed.

Definition CHANNEL_40 : Wavelength := mkWavelength 40.

Lemma channel_40_ok : Wavelength_ok CHANNEL_40.
Proof. vm_compute. split; congruence. Qed.

Lemma replicate_key b : u8 b → array_ok 32 (replicate 32 b).
Proof. intros. split; [done|]. by apply Forall_replicate. Qed.

Definition local_messages : list (AnySchemaValue * Z) :=
  [(AnyEquityTradeOrder local_order, 0xAA01); (AnyMarketTick local_tick, 0xAA02);
   (AnyHeartbeat local_heartbeat, 0xAA03)].

Lemma local_messages_ok : Forall (λ m, Any_ok m.1) local_messages.
Proof.
  repeat (constructor; [vm_compute; repeat split; try congruence; repeat constructor; congruence|]).
  constructor.
Qed.

Lemma local_posts :
  let q0 := SendQueue_new 64 in
  let q1 := post_all (request_for CHANNEL_40 <$> take 1 local_messages) q0 in
  let q2 := post_all (request_for CHANNEL_40 <$> take 2 local_messages) q0 in
  let q3 := post_all (request_for CHANNEL_40 <$> local_messages) q0 in
  post_value IdEquityTradeOrder CHANNEL_40 local_order 0xAA01 q0 = (q1, Ok ()) ∧
  post_value IdMarketTick CHANNEL_40 local_tick 0xAA02 q1 = (q2, Ok ()) ∧
  post_value IdHeartbeat CHANNEL_40 local_heartbeat 0xAA03 q2 = (q3, Ok ()).
Proof. split_and!; vm_compute; reflexivity. Qed.

(** Steps of a run: print, or go on with the value of a call that succeeds. *)
Ltac step_say := rewrite bind_say.
Ltac step_ok H := rewrite (bind_try _ _ _ _ _ H).

(** ** Properties *)

(** [otap-local], whole program.  For every MAC and every libm it returns [Ok], and
    prints exactly this: both register files armed on channel 40, three Transients
    pumped, then the order, the tick and the heartbeat Alice posted, unchanged and in
    order, the order with sequence number 0.  The fibre's rotation touches only the
    authentication flags, which say whether each winding number came through; the
    closing line claims that authentication survived whatever the flags are. *)
Theorem otap_local_output `{HmacSha256} `{Libm} :
  let alice := driver_for CHANNEL_40 (SharedSecret_new (replicate 32 0x9B)) Topological in
  let fibre := Channel_random_pmd 0x1234DEAD in
  otap_local [] =
  ([Text "== otap-local: pure-software OTAP demo (no FPGA, no FLR) ==";
    Provisioned 40 (wavelength_nm CHANNEL_40);
    Text "Drivers armed from CSR.";
    Text "Fabric: random PMD on both directions.";
    Pumped 3;
    GotOrder 1 Buy 1000 AAPL (f64.lit 19550 100) 0
      (winding_survives fibre alice 0 (AnyEquityTradeOrder local_order));
    GotTick 2 AAPL (f64.lit 19549 100) (f64.lit 19551 100) (f64.lit 19550 100)
      (winding_survives fibre alice 1 (AnyMarketTick local_tick));
    GotHeartbeat 3 0xA11CE (-240) 7
      (winding_survives fibre alice 2 (AnyHeartbeat local_heartbeat));
    Summary 3;
    Text "== This is the no-FPGA, no-FLR proof. =="], Ok ()).
Proof.
  intros alice fibre. set (key := replicate 32 0x9B).
  assert (array_ok 32 key) as Hkey by (apply replicate_key; vm_compute; split; congruence).
  pose proof (arm_from_csr CHANNEL_40 key true _ channel_40_ok Hkey RegisterFile_new_ok) as Hopen.
  pose proof (arm_run CHANNEL_40 key true _ channel_40_ok Hkey RegisterFile_new_ok) as Harm.
  rewrite Harm in Hopen. cbn [fst] in Hopen. destruct local_posts as (P1 & P2 & P3).
  pose proof (pump_topological (with_random_pmd 0x1234DEAD 0xCAFEBABE) CHANNEL_40
    (SharedSecret_new key) local_messages 64 64 eq_refl local_messages_ok
    ltac:(cbn; lia) ltac:(cbn; lia)) as Hp. cbv zeta in Hp. fold alice in Hp.
  unfold otap_local. step_say. change (Wavelength_new 40) with (Ok (E := ProtocolError) CHANNEL_40).
  rewrite (bind_try _ CHANNEL_40) by done. fold key. rewrite Harm.
  rewrite !(bind_try _ ()) by done. step_say. rewrite !(bind_try _ alice) by exact Hopen.
  do 2 step_say. rewrite P1, (bind_try _ ()), P2, (bind_try _ ()), P3, (bind_try _ ()) by done.
  destruct (pump_a_to_b _ _ _ _ _) as [[[[f' a'] q'] [cs cap]] n]. destruct Hp as (_ & _ & -> & Hcs).
  cbn [completions] in Hcs. subst cs. step_say.
  cbv zeta. erewrite sr_bind_ok by (apply (drain_all (E := LocalError))).
  cbn [a_to_b with_random_pmd Fabric_new imap local_messages fst snd]. fold fibre.
  do 2 step_say. reflexivity.
Qed.

(** ** [otap-demo] *)

Section demo.
Context `{HmacSha256} `{Libm} `{Sha256}.

Definition demo_key : SharedSecret := test_from_label (str_bytes "alice-bob").
Definition cli_encoder : Encoder := Encoder_new demo_key CHANNEL_40.
Definition the_order : AnySchemaValue := AnyEquityTradeOrder original_order.

(** The [i]-th Transient of the demonstration, behind channel [c]. *)
Definition demo_received (c : Channel) (i : nat) : Transient :=
  rotate_transient c (nth_transient cli_encoder i the_order).

(** Byte 8 of the payload is the high byte of the quantity, 0. *)
Definition demo_tampered (i : nat) : Transient :=
  let t := demo_received Channel_perfect i in
  mkTransient (wavelength t) (polarization t) (oam t) (micro t) (<[8%nat := 0xFF]> (payload t)).

Definition tampered_order : EquityTradeOrder :=
  EquityTradeOrder_new AAPL Buy 0xFF0003E8 (price (f64.of_Z 19850)) 1716649200000000001
    0xDEADBEEFCAFEF00D (replicate 16 0x11).

Definition demo_auth (mode : AuthMode) (t : Transient) : bool :=
  is_ok (verify_trajectory demo_key (transient_context t) (polarization t) mode).

Lemma original_order_ok : Order_ok original_order.
Proof. vm_compute. repeat split; try congruence; repeat constructor; congruence. Qed.

Lemma demo_encodes i :
  Encoder_encode (advance cli_encoder i) original_order =
  (advance cli_encoder (S i), nth_transient cli_encoder i the_order).
Proof.
  change (Encoder_encode _ original_order) with
    (encode_raw (advance cli_encoder i) (schema_oam (any_id the_order)) (any_encode the_order)).
  rewrite (surjective_pairing (encode_raw _ _ _)). f_equal.
  rewrite <- (advance_0 (encode_raw _ _ _).1) by (by apply wrap_range).
  rewrite advance_S. unfold advance. cbn [enc_secret enc_wavelength next_sequence]. f_equal.
  unfold wrap. rewrite Zplus_mod_idemp_l. f_equal. lia.
Qed.

Lemma demo_transmit c i :
  error_free c → transmit c (nth_transient cli_encoder i the_order) = (c, demo_received c i).
Proof. intros Hc. apply (transmit_error_free c _ Hc). Qed.

(** A decoder of the demonstration on a Transient with the fields of the [i]-th one. *)
Lemma demo_decodes mode t i o :
  wavelength t = CHANNEL_40 → oam t = ORDER_OAM → micro t = mkMicro (wrap 16 (Z.of_nat i)) Nominal →
  Order_decode (payload t) = Ok o →
  Decoder_decode (Decoder_new (mkDecoderConfig demo_key CHANNEL_40 mode)) t =
  Ok (mkReport (AnyEquityTradeOrder o) CHANNEL_40 ORDER_OAM (mkMicro (wrap 16 (Z.of_nat i)) Nominal)
        (demo_auth mode t)).
Proof.
  intros Hw Ho Hm Hd. rewrite (Decoder_decode_ok _ t (AnyEquityTradeOrder o)), Hw, Ho, Hm; [done|done|].
  rewrite Ho. cbn. by rewrite Hd.
Qed.

Lemma received_fields c i :
  error_free c →
  let t := demo_received c i in
  wavelength t = CHANNEL_40 ∧ oam t = ORDER_OAM ∧ micro t = mkMicro (wrap 16 (Z.of_nat i)) Nominal ∧
  payload t = Order_encode original_order.
Proof.
  intros Hc. destruct (transmit_error_free c (nth_transient cli_encoder i the_order) Hc)
    as (_ & Ew & Eo & Em & Ep). cbv zeta. unfold demo_received. by rewrite Ew, Eo, Em, Ep.
Qed.

Lemma received_decodes mode c i :
  error_free c →
  Decoder_decode (Decoder_new (mkDecoderConfig demo_key CHANNEL_40 mode)) (demo_received c i) =
  Ok (mkReport the_order CHANNEL_40 ORDER_OAM (mkMicro (wrap 16 (Z.of_nat i)) Nominal)
        (demo_auth mode (demo_received c i))).
Proof.
  intros Hc. destruct (received_fields c i Hc) as (Ew & Eo & Em & Ep).
  apply demo_decodes; [done..|]. rewrite Ep. exact (decode_encode original_order original_order_ok).
Qed.

Lemma tamper_received i out :
  tamper (demo_received Channel_perfect i) out = (out, Ok (demo_tampered i, 0, 0xFF)).
Proof.
  unfold tamper, demo_tampered. destruct (received_fields Channel_perfect i eq_refl) as (_ & _ & _ & ->).
  reflexivity.
Qed.

Lemma tampered_decodes mode i :
  Decoder_decode (Decoder_new (mkDecoderConfig demo_key CHANNEL_40 mode)) (demo_tampered i) =
  Ok (mkReport (AnyEquityTradeOrder tampered_order) CHANNEL_40 ORDER_OAM
        (mkMicro (wrap 16 (Z.of_nat i)) Nominal) (demo_auth mode (demo_tampered i))).
Proof.
  destruct (received_fields Channel_perfect i eq_refl) as (Ew & Eo & Em & Ep).
  apply demo_decodes; [done..|]. unfold demo_tampered. cbn [payload]. rewrite Ep.
  vm_compute. reflexivity.
Qed.
End demo.

(** [otap-demo], whole program.  For every hash, MAC and libm none of its [expect],
    [unwrap] and index operations panics, and the printed values are these: the order
    comes back unchanged on channel 40, mode 1, sequence number 0; behind the rotation
    both decoders still agree on the value, each with its own verdict; and the tampered
    Transient decodes, the quantity now 0xFF0003E8 (the byte changed is the high byte of
    the big-endian quantity).  Each verdict is that of [verify_trajectory] on the
    Transient as received. *)
Theorem otap_demo_output `{HmacSha256} `{Libm} `{Sha256} (dt_encode dt_decode : Z) :
  let tolerance := TrajectoryMatch (f32.lit 1 100) in
  let t1 := demo_received Channel_perfect 0 in
  let t2 := demo_received (Channel_with_pmd demo_pmd) 1 in
  let t3 := demo_tampered 2 in
  let heading title := [Text ""; Text RULE; Text title; Text RULE] in
  otap_demo dt_encode dt_decode [] =
  ([Text "OTAP Reference Codec Demo"; Text "========================="; 
    Text "Protocol: OTAP v0.2 (reference model)";
    WavelengthLine 40 (wavelength_nm CHANNEL_40);
    Text "  Shared key:  HMAC-SHA256 derived (test only)"] ++
   heading "Scenario 1: Clean channel (no impairment)" ++
   [OrderLine "transmit" AAPL Buy 1000 (f64.lit 19850 100) 0xDEADBEEFCAFEF00D;
    OrderLine "receive" AAPL Buy 1000 (f64.lit 19850 100) 0xDEADBEEFCAFEF00D;
    Text ""; DimensionLines 40 1 0 (demo_auth tolerance t1); Text "";
    LatencyLines dt_encode dt_decode;
    Text "  Target on FPGA:  < 65 ns encode, < 20 ns decode (see spec 5.2, 6.2)"] ++
   heading "Scenario 2: Long-haul PMD rotation (the topological-auth payoff)" ++
   [PmdLines true (demo_auth tolerance t2) (demo_auth Topological t2)] ++ (Text <$> READING_PMD) ++
   heading "Scenario 3: Adversarial payload modification" ++
   [TamperLine 0 0xFF;
    OrderLine "(tampered)" AAPL Buy 0xFF0003E8 (f64.lit 19850 100) 0xDEADBEEFCAFEF00D;
    Text ""; TamperAuth (demo_auth tolerance t3)] ++ (Text <$> READING_TAMPER) ++
   heading "Reference-model summary" ++ (Text <$> DEMO_SUMMARY), Ok ()).
Proof.
  intros tolerance t1 t2 t3 heading. unfold otap_demo, unwrap, expect, banner.
  rewrite bind_say_all. change (Wavelength_new 40) with (Ok (E := ProtocolError) CHANNEL_40).
  rewrite (bind_try _ CHANNEL_40) by done. do 2 step_say. rewrite bind_say_all. step_say.
  fold demo_key cli_encoder. rewrite <- (advance_0 cli_encoder) by (vm_compute; split; congruence).
  rewrite demo_encodes, demo_transmit by done.
  rewrite (bind_try _ _ _ _ _ (received_decodes _ Channel_perfect 0 eq_refl)), (bind_try _ original_order) by done.
  do 6 step_say. rewrite bind_say_all, demo_encodes, demo_transmit by done.
  rewrite !(bind_try _ _ _ _ _ (received_decodes _ (Channel_with_pmd demo_pmd) 1 eq_refl)). step_say. rewrite !bind_say_all.
  rewrite demo_encodes, demo_transmit by done.
  rewrite (sr_bind_ok _ _ _ _ _ (tamper_received 2 _)). step_say.
  rewrite (bind_try _ _ _ _ _ (tampered_decodes _ 2)), (bind_try _ tampered_order) by done.
  do 3 step_say. rewrite !bind_say_all. reflexivity.
Qed.

(** ** [otap-fullstack] *)

Definition full_messages : list (AnySchemaValue * Z) :=
  (λ i, (AnyEquityTradeOrder (fullstack_order i), Z.lor 0xABCD0000 i)) <$> [0; 1; 2; 3; 4].

Lemma full_messages_ok : Forall (λ m, Any_ok m.1) full_messages.
Proof.
  repeat (constructor; [vm_compute; repeat split; try congruence; repeat constructor; congruence|]).
  constructor.
Qed.

Lemma full_posts :
  sr_for [0; 1; 2; 3; 4] (λ i,
    post_value IdEquityTradeOrder CHANNEL_40 (fullstack_order i) (Z.lor 0xABCD0000 i))
    (SendQueue_new 64) =
  (post_all (request_for CHANNEL_40 <$> full_messages) (SendQueue_new 64), Ok ()).
Proof. vm_compute. reflexivity. Qed.

(** [otap-fullstack], whole program, for every command line, registry, MAC and libm.
    The first of these stops it with its error: the client cannot be built, the list
    request fails, the list is empty (with the message that names the operator), one of
    the two programming passes fails.  Otherwise it succeeds, and whatever schemas the
    registry served, even none that the drivers know, the five orders reach Bob unchanged
    and in order, numbered from 0, each with the verdict on its winding number. *)
Theorem otap_fullstack_output `{HmacSha256} `{Libm} `{Registry} (argv : list text) :
  let args := parse_args argv in
  let cfg := fullstack_config args in
  let key := replicate 32 0xBE in
  let program n := (program_register_file cfg CHANNEL_40 key true n RegisterFile_new).2 in
  let alice := driver_for CHANNEL_40 (SharedSecret_new key) Topological in
  let auth i := winding_survives (Channel_random_pmd 0xDEADBEEF) alice (Z.to_nat i)
                  (AnyEquityTradeOrder (fullstack_order i)) in
  let out := [Text "== otap-fullstack: live FLR-driven OTAP demo ==";
              UrlLine (flr_url args); OperatorLine (operator args)] in
  otap_fullstack argv [] =
  match FlrClient_new cfg, list_active_schemas cfg 0 with
  | Err e, _ => (out, Err (FullFlr (Some CREATE_CLIENT) e))
  | Ok _, Err e => (out, Err (FullFlr (Some LIST_SCHEMAS) e))
  | Ok _, Ok schemas =>
      let out := out ++ FetchedLine (length schemas) :: (schema_line <$> schemas) in
      match schemas, program 1%nat, program 2%nat with
      | [], _, _ => (out, Err (Bail (no_schemas args)))
      | _, Err e, _ => (out, Err (FullFlr None e))
      | _, Ok _, Err e => (out, Err (FullFlr None e))
      | _, Ok a, Ok b =>
          (out ++
           [ProgrammedLine a b; Pumped 5;
            GotOrder 1 Buy 100 AAPL (f64.lit 19550 100) 0 (auth 0);
            GotOrder 2 Sell 150 AAPL (f64.lit 19575 100) 1 (auth 1);
            GotOrder 3 Buy 200 AAPL (f64.lit 19600 100) 2 (auth 2);
            GotOrder 4 Sell 250 AAPL (f64.lit 19625 100) 3 (auth 3);
            GotOrder 5 Buy 300 AAPL (f64.lit 19650 100) 4 (auth 4);
            FullSummary 5], Ok ())
      end
  end.
Proof.
  intros args cfg key prog alice auth out. unfold otap_fullstack. fold args cfg. do 3 step_say.
  assert (array_ok 32 key) as Hkey by (apply replicate_key; vm_compute; split; congruence).
  destruct (FlrClient_new cfg) as [flr|e] eqn:Ef; [|done].
  assert (flr_cfg flr = cfg) as Ecfg.
  { unfold FlrClient_new in Ef. destruct (build_client _); [by injection Ef as <-|done]. }
  rewrite (bind_try _ flr) by done. rewrite Ecfg.
  destruct (list_active_schemas cfg 0) as [schemas|e]; [|done]. rewrite (bind_try _ schemas) by done.
  step_say. rewrite bind_say_lines, <- app_assoc.
  destruct schemas as [|s schemas]; [done|]. rewrite bool_decide_false by done.
  change (Wavelength_new 40) with (Ok (E := ProtocolError) CHANNEL_40).
  rewrite (bind_try _ CHANNEL_40) by done. fold key.
  pose proof (λ n, program_from_csr cfg CHANNEL_40 key true channel_40_ok Hkey n
    RegisterFile_new RegisterFile_new_ok) as Hopen.
  pose proof (Hopen 1%nat) as Ha. pose proof (Hopen 2%nat) as Hb. unfold prog. clear Hopen.
  destruct (program_register_file cfg CHANNEL_40 key true 1 _) as [rfa [a|e]]; [|done].
  destruct (program_register_file cfg CHANNEL_40 key true 2 _) as [rfb [b|e]]; [|done].
  cbn [fst snd] in *. rewrite (bind_try _ a), (bind_try _ b) by done. step_say.
  rewrite (bind_try _ _ _ _ _ Ha), (bind_try _ _ _ _ _ Hb), full_posts, (bind_try _ ()) by done.
  pose proof (pump_topological (with_random_pmd 0xDEADBEEF 0xFEEDFACE) CHANNEL_40
    (SharedSecret_new key) full_messages 64 64 eq_refl full_messages_ok
    ltac:(cbn; lia) ltac:(cbn; lia)) as Hp. cbv zeta in Hp.
  destruct (pump_a_to_b _ _ _ _ _) as [[[[f' a'] q'] [cs cap]] n]. destruct Hp as (_ & _ & -> & Hcs).
  cbn [completions] in Hcs. subst cs. step_say.
  erewrite sr_bind_ok by (apply (drain_all (E := FullError))). step_say.
  unfold sr_ret. f_equal. rewrite <- !app_assoc. reflexivity.
Qed.
