(* ===== verification/FlrInterop.v ===== *)
(** * The registry and its client

    Joins the two ends of the schema interface: the Go registry's REST responses
    ([src/flr/internal/api/schema_rest.go], model [FlrRest]) and the Rust client
    ([src/crates/otap-flr-client/src/lib.rs], model [FlrClient]).  The client's requests
    travel as URLs, which Go's [net/url] takes apart; the responses as JSON texts, which
    the client's derived [Deserialize] implementations read over serde_json's primitives,
    the class [Serde]. *)

From stdpp Require Import gmap.
From S2P Require Import Prelude Float FlrModels FlrStore FlrEngine FlrLease FlrMerkle FlrLedger FlrRest.
From S2P Require Import Core External Crypto Schema Codec Csr Obg FlrClient Cli.
Local Open Scope Z_scope.

(** ** URLs *)

(** [strings.Cut]: before and after the first [c]. *)
Fixpoint cut (c : Z) (s : text) : text * text :=
  match s with
  | [] => ([], [])
  | x :: s => if x =? c then ([], s) else let '(a, b) := cut c s in (x :: a, b)
  end.

(** The pieces between the separators. *)
Fixpoint split_on (c : Z) (s : text) : list text :=
  match s with
  | [] => [[]]
  | x :: s =>
      match split_on c s with
      | p :: ps => if x =? c then [] :: p :: ps else (x :: p) :: ps
      | [] => []
      end
  end.

Definition from_hex (c : Z) : option Z :=
  if (48 <=? c) && (c <=? 57) then Some (c - 48)
  else if (97 <=? c) && (c <=? 102) then Some (c - 87)
  else if (65 <=? c) && (c <=? 70) then Some (c - 55)
  else None.

(** [url.unescape]: the bytes; in a query a plus sign is a space. *)
Fixpoint unescape (query : bool) (s : text) : option bytes :=
  match s with
  | [] => Some []
  | c :: s =>
      if c =? 37 then
        match s with
        | a :: b :: s => x ← from_hex a; y ← from_hex b; r ← unescape query s; Some (16 * x + y :: r)
        | _ => None
        end
      else r ← unescape query s; Some ((if query && (c =? 43) then 32 else c) :: r)
  end.

(** Go's strings are their bytes; those of ASCII characters are the characters. *)
Class GoUtf8 := { utf8_decode : bytes → text }.
Class GoUtf8Spec `{GoUtf8} : Prop := {
  utf8_ascii b : Forall (λ c, 0 ≤ c < 128) b → utf8_decode b = b;
}.

Section urls.
Context `{GoUtf8}.

(** One setting of [url.ParseQuery]; those that are malformed are left out. *)
Definition parse_setting (s : text) : option (text * text) :=
  if bool_decide (s = []) || bool_decide (59 ∈ s) then None
  else
    let '(k, v) := cut 61 s in
    k ← unescape true k; v ← unescape true v; Some (utf8_decode k, utf8_decode v).

Definition parse_query (q : text) : list (text * text) := omap parse_setting (split_on 38 q).

(** The GET request for a target; [None]: the path does not unescape. *)
Definition request_of (target : text) : option api.Request :=
  let '(p, q) := cut 63 target in
  p ← unescape false p; Some (api.mkRequest (lit "GET") (utf8_decode p) (parse_query q) []).
End urls.

(** ** The client's deserialization *)

(** serde_json: the value a text denotes, and what the basic types accept. *)
Class Serde := {
  serde_parse : text → option json;
  de_string : json → option text;
  de_i32 : json → option Z;
  de_seq : json → option (list json);
  de_map : json → option (list (text * json));
  de_is_null : json → bool;
  (** an enum without data: the index of the variant *)
  de_unit_variant : list text → json → option nat;
}.

Section de.
Context `{Serde}.

(** The entry of a field: [None] if it is there twice, which is an error. *)
Definition de_entry (k : text) (m : list (text * json)) : option (option json) :=
  match List.filter (λ kv, bool_decide (kv.1 = k)) m with
  | [] => Some None
  | [kv] => Some (Some kv.2)
  | _ => None
  end.

Definition de_field {A} (k : text) (de : json → option A) (m : list (text * json)) : option A :=
  match de_entry k m with Some (Some v) => de v | _ => None end.

(** [#[serde(default)]] *)
Definition de_default {A} (k : text) (d : A) (de : json → option A) (m : list (text * json)) : option A :=
  match de_entry k m with Some (Some v) => de v | Some None => Some d | None => None end.

Definition de_option {A} (de : json → option A) (j : json) : option (option A) :=
  if de_is_null j then Some None else Some <$> de j.

Definition de_FieldDef (j : json) : option FieldDef :=
  m ← de_map j;
  name ← de_field (lit "name") de_string m;
  offset ← de_field (lit "offset") de_i32 m;
  length ← de_field (lit "length") de_i32 m;
  type ← de_field (lit "type") de_i32 m;
  desc ← de_default (lit "description") [] de_string m;
  Some (mkFieldDef name offset length type desc).

Definition de_FieldLayout (j : json) : option FieldLayout :=
  m ← de_map j;
  fs ← de_field (lit "fields") (λ j, l ← de_seq j; mapM de_FieldDef l) m;
  Some (mkFieldLayout fs).

Definition de_SchemaStatus (j : json) : option SchemaStatus :=
  n ← de_unit_variant [lit "UNSPECIFIED"; lit "ACTIVE"; lit "DEPRECATED"; lit "REVOKED"] j;
  [UNSPECIFIED; ACTIVE; DEPRECATED; REVOKED] !! n.

Definition de_ApplicationSchema (j : json) : option ApplicationSchema :=
  m ← de_map j;
  id ← de_field (lit "id") de_string m;
  oam ← de_field (lit "oam_mode") de_i32 m;
  n ← de_field (lit "payload_bytes") de_i32 m;
  name ← de_field (lit "name") de_string m;
  version ← de_default (lit "version") 0 de_i32 m;
  layout ← de_field (lit "layout") de_FieldLayout m;
  op ← de_field (lit "operator_id") de_string m;
  status ← de_default (lit "status") None (de_option de_SchemaStatus) m;
  created ← de_field (lit "created_at") de_string m;
  updated ← de_default (lit "updated_at") [] de_string m;
  sig ← de_default (lit "signature") None (de_option de_string) m;
  Some (mkAppSchema id oam n name version layout op status created updated sig).

Definition de_ListSchemasResponse (j : json) : option (list ApplicationSchema) :=
  m ← de_map j; de_default (lit "schemas") [] (λ j, l ← de_seq j; mapM de_ApplicationSchema l) m.
End de.

(** JSON without fractions. *)
Fixpoint plain (j : json) : bool :=
  match j with
  | JFloat _ => false
  | JArr l => forallb plain l
  | JObj l => forallb (λ kv, plain kv.2) l
  | _ => true
  end.

(** What the client relies on: serde_json reads what Go writes, and a number, a string,
    an array and [null] are what they are. *)
Class SerdeSpec `{GoJson, Serde} : Prop := {
  serde_reads_go j : plain j = true → serde_parse (go_render j ++ [10]) = Some j;
  de_string_str s : de_string (JStr s) = Some s;
  de_i32_num z : in_sint 32 z → de_i32 (JNum z) = Some z;
  de_seq_arr l : de_seq (JArr l) = Some l;
  de_seq_null : de_seq JNull = None;
  de_map_obj m : de_map (JObj m) = Some m;
  de_null : de_is_null JNull = true;
  de_not_null_num z : de_is_null (JNum z) = false;
  de_not_null_str s : de_is_null (JStr s) = false;
  de_variant_num vs z : de_unit_variant vs (JNum z) = None;
  de_variant_str vs s i : NoDup vs → vs !! i = Some s → de_unit_variant vs (JStr s) = Some i;
}.

(** ** The wire *)

Section wire.
Context `{GoJson, GoUtf8, Serde, GoCrypto, Badger, !api.GoDecode}.
Context (error_text : api.RestError → text).

(** The body of a response: [Encode] ends it with a newline. *)
Definition body_of (a : api.Response) : text :=
  match a with
  | api.writeJSON _ j => go_render j ++ [10]
  | api.writeError _ err => go_render (JObj [(lit "error", JStr (error_text err))]) ++ [10]
  end.

(** The registry [reg i] at the [i]-th request, served under [base]: what the client's
    libraries return.  A path that is not a schema path is an HTTP error here. *)
Definition registry_at (base : text) (env : api.Env) (reg : nat → engine.Engine) : Registry := {|
  HttpError := unit;
  JsonError := unit;
  FromHexError := unit;
  build_client _ := Ok ();
  http_get i url :=
    match request_of (trim_prefix base url) with
    | None => Err ()
    | Some r =>
        match (api.serve env r (reg i)).2 with
        | Some a => Ok (api.response_code a, body_of a)
        | None => Err ()
        end
    end;
  parse_list body := ok_or (serde_parse body ≫= de_ListSchemasResponse) ();
  parse_schema body := ok_or (serde_parse body ≫= de_ApplicationSchema) ();
|}.
End wire.

(** ** Escaped text *)

(** A character that separates nothing in a query. *)
Definition inert (c : Z) : bool := negb ((c =? 38) || (c =? 59) || (c =? 61) || (c =? 63)).

Definition ascii (s : text) : Prop := Forall (λ c, 0 ≤ c < 128) s.

Definition escape_ok (c : Z) : bool :=
  match urlencode_char c with
  | [x] => (x =? c) && negb (x =? 37) && negb (x =? 43) && inert x
  | [p; a; b] =>
      match from_hex a, from_hex b with
      | Some x, Some y => (p =? 37) && (16 * x + y =? c) && inert a && inert b
      | _, _ => false
      end
  | _ => false
  end.

Lemma escape_ok_ascii c : 0 ≤ c < 128 → escape_ok c = true.
Proof.
  intros Hc. assert (Forall (λ c, escape_ok c = true) (Z.of_nat <$> seq 0 128)) as Hall
    by (apply (bool_decide_unpack _); vm_compute; exact I).
  rewrite Forall_forall in Hall. apply Hall. apply list_elem_of_fmap. exists (Z.to_nat c).
  rewrite elem_of_seq. lia.
Qed.

Lemma unescape_char q c rest :
  0 ≤ c < 128 → unescape q (urlencode_char c ++ rest) = (cons c) <$> unescape q rest.
Proof.
  intros Hc%escape_ok_ascii. unfold escape_ok in Hc. destruct (urlencode_char c) as [|x [|a [|b [|? ?]]]]; try done.
  - apply andb_true_iff in Hc as [[[->%Z.eqb_eq Hx%negb_true_iff]%andb_true_iff Hp%negb_true_iff]%andb_true_iff _].
    cbn [app unescape]. rewrite Hx, Hp, andb_false_r. by destruct (unescape q rest).
  - destruct (from_hex a) as [u|] eqn:Ea, (from_hex b) as [v|] eqn:Eb; try done.
    apply andb_true_iff in Hc as [[[->%Z.eqb_eq E%Z.eqb_eq]%andb_true_iff _]%andb_true_iff _].
    cbn [app unescape]. rewrite Z.eqb_refl, Ea, Eb. cbn [mbind option_bind]. rewrite E. by destruct (unescape q rest).
Qed.

Lemma unescape_urlencode q s : ascii s → unescape q (urlencode s) = Some s.
Proof.
  induction 1 as [|c s Hc Hs IH]; [done|]. unfold urlencode. cbn [fmap list_fmap concat].
  rewrite unescape_char by done. fold (urlencode s). by rewrite IH.
Qed.

Lemma urlencode_inert s : ascii s → Forall (λ c, inert c = true) (urlencode s).
Proof.
  induction 1 as [|c s Hc Hs IH]; [constructor|]. unfold urlencode. cbn [fmap list_fmap concat].
  apply Forall_app. split; [|exact IH]. apply escape_ok_ascii in Hc. unfold escape_ok in Hc.
  destruct (urlencode_char c) as [|x [|a [|b [|? ?]]]]; try done.
  - apply andb_true_iff in Hc as [_ Hi]. by constructor.
  - destruct (from_hex a) as [u|], (from_hex b) as [v|]; try done.
    apply andb_true_iff in Hc as [[[->%Z.eqb_eq _]%andb_true_iff Ha]%andb_true_iff Hb]. by repeat constructor.
Qed.

Lemma cut_app c a b : c ∉ a → cut c (a ++ c :: b) = (a, b).
Proof.
  induction a as [|x a IH]; cbn [app cut]; [by rewrite Z.eqb_refl|].
  intros [Hx Ha]%not_elem_of_cons. destruct (Z.eqb_spec x c); [by subst|]. by rewrite IH.
Qed.

Lemma split_on_plain c s : c ∉ s → split_on c s = [s].
Proof.
  induction s as [|x s IH]; [done|]. intros [Hx Hs]%not_elem_of_cons. cbn [split_on]. rewrite IH by done.
  by destruct (Z.eqb_spec x c); [subst|].
Qed.

Lemma split_on_not_nil c s : split_on c s ≠ [].
Proof. induction s as [|x s IH]; [done|]. cbn. destruct (split_on c s); [done|]. by destruct (x =? c). Qed.

Lemma split_on_app c a b : c ∉ a → split_on c (a ++ c :: b) = a :: split_on c b.
Proof.
  induction a as [|x a IH]; cbn [app split_on].
  - intros _. rewrite Z.eqb_refl. destruct (split_on c b) eqn:E; [|done]. by destruct (split_on_not_nil c b).
  - intros [Hx Ha]%not_elem_of_cons. rewrite IH by done. by destruct (Z.eqb_spec x c); [subst|].
Qed.

Section requests.
Context `{GoUtf8, !GoUtf8Spec}.

Lemma lit_ascii s : forallb (λ c, (0 <=? c) && (c <? 128)) (lit s) = true → ascii (lit s).
Proof.
  unfold ascii. induction (lit s) as [|c l IH]; intros Hl; constructor; apply andb_true_iff in Hl as [Hc Hl]; [lia|auto].
Qed.

(** What the registry reads of the client's request for the active schemas. *)
Lemma list_request op :
  ascii op →
  request_of (lit "/v1/schemas?operator_id=" ++ urlencode op ++ lit "&status=ACTIVE") =
  Some (api.mkRequest (lit "GET") (lit "/v1/schemas") [(lit "operator_id", op); (lit "status", lit "ACTIVE")] []).
Proof.
  intros Hop. pose proof (urlencode_inert op Hop) as Hi. rewrite Forall_forall in Hi.
  assert (∀ c, inert c = false → c ∉ urlencode op) as Hno by (intros c Hc Hin; by rewrite (Hi c Hin) in Hc).
  unfold request_of. change (lit "/v1/schemas?operator_id=") with (lit "/v1/schemas" ++ 63 :: lit "operator_id=").
  rewrite <- app_assoc, <- app_comm_cons, cut_app by (by vm_compute; set_solver).
  change (unescape false (lit "/v1/schemas")) with (Some (lit "/v1/schemas")). cbn [mbind option_bind].
  rewrite utf8_ascii by (by apply lit_ascii). unfold parse_query.
  change (lit "&status=ACTIVE") with (38 :: lit "status=ACTIVE"). rewrite app_assoc.
  assert (∀ c, inert c = false → c ≠ 61 → c ∉ lit "operator_id=" ++ urlencode op) as Hno'.
  { intros c Hc H61 [Hin|Hin]%elem_of_app; [|by apply (Hno c Hc)]. revert Hin Hc H61. clear.
    intros Hin. assert (Forall (λ c, inert c = true ∨ c = 61) (lit "operator_id=")) as Hall
      by (apply (bool_decide_unpack _); vm_compute; exact I).
    rewrite Forall_forall in Hall. destruct (Hall c Hin); congruence. }
  rewrite split_on_app by (by apply Hno'). rewrite split_on_plain by (by vm_compute; set_solver).
  cbn [omap list_omap]. assert (parse_setting (lit "operator_id=" ++ urlencode op) = Some (lit "operator_id", op)) as ->.
  - unfold parse_setting. rewrite bool_decide_false by done. rewrite bool_decide_false by (by apply Hno'). cbn [orb].
    change (lit "operator_id=" ++ urlencode op) with (lit "operator_id" ++ 61 :: urlencode op).
    rewrite cut_app by (by vm_compute; set_solver).
    change (unescape true (lit "operator_id")) with (Some (lit "operator_id")). cbn [mbind option_bind].
    rewrite unescape_urlencode by done. cbn [mbind option_bind]. by rewrite !utf8_ascii by (done || by apply lit_ascii).
  - unfold parse_setting.
    change (bool_decide (lit "status=ACTIVE" = []) || bool_decide (59 ∈ lit "status=ACTIVE")) with false.
    cbn [orb]. change (cut 61 (lit "status=ACTIVE")) with (lit "status", lit "ACTIVE"). cbv beta iota.
    change (unescape true (lit "status")) with (Some (lit "status")).
    change (unescape true (lit "ACTIVE")) with (Some (lit "ACTIVE")). cbn [mbind option_bind].
    by rewrite !utf8_ascii by (by apply lit_ascii).
Qed.
End requests.

(** ** Responses *)

Section responses.
Context `{GoJson, Serde, !SerdeSpec}.

Lemma bind_none {A B} (o : option A) (f : A → option B) : (∀ a, f a = None) → (o ≫= f) = None.
Proof. intros Hf. destruct o as [a|]; [apply Hf|done]. Qed.

Lemma plain_field f : plain (field_json f) = true.
Proof. unfold field_json. by case_bool_decide. Qed.

Lemma plain_schema s : plain (schema_json s) = true.
Proof.
  assert (∀ l, plain (layout_json l) = true) as Hl.
  { intros l. unfold layout_json. cbn. rewrite andb_true_r. case_bool_decide; [done|]. cbn. apply forallb_forall.
    intros j Hj%list_elem_of_In. apply list_elem_of_fmap in Hj as (f & -> & _). apply plain_field. }
  unfold schema_json. cbn [plain forallb app snd]. destruct (models.Layout s) as [l|]; [rewrite Hl|]; by case_bool_decide.
Qed.

Lemma plain_list ss : plain (api.list_json ss) = true.
Proof.
  unfold api.list_json. cbn. rewrite andb_true_r. case_bool_decide; [done|]. cbn. apply forallb_forall.
  intros j Hj%list_elem_of_In. apply list_elem_of_fmap in Hj as (s & -> & _). apply plain_schema.
Qed.

(** The entries of a schema's JSON. *)
Definition schema_entries (s : models.ApplicationSchema) (status : json) : list (text * json) :=
  [(lit "id", JStr (models.ID s)); (lit "oam_mode", JNum (models.OamMode s));
   (lit "payload_bytes", JNum (models.PayloadBytes s)); (lit "name", JStr (models.SchemaName s));
   (lit "version", JNum (models.Version s));
   (lit "layout", match models.Layout s with Some l => layout_json l | None => JNull end);
   (lit "operator_id", JStr (models.OperatorID s)); (lit "status", status);
   (lit "created_at", JStr (rfc3339 (models.CreatedAt s))); (lit "updated_at", JStr (rfc3339 (models.UpdatedAt s)))] ++
  (if bool_decide (models.Signature s = []) then []
   else [(lit "signature", JStr (base64 (models.Signature s)))]).

Lemma schema_json_entries s : schema_json s = JObj (schema_entries s (JNum (models.Status s))).
Proof. done. Qed.

(** An entry of the list, with or without the signature at its end. *)
Ltac find_entry := unfold schema_entries; by case_bool_decide.

Lemma status_entry s st : de_entry (lit "status") (schema_entries s st) = Some (Some st).
Proof. find_entry. Qed.

(** A schema as the registry writes it is not one the client reads. *)
Lemma schema_refused s : de_ApplicationSchema (schema_json s) = None.
Proof.
  rewrite schema_json_entries. unfold de_ApplicationSchema. rewrite de_map_obj. cbn [mbind option_bind].
  assert (de_default (lit "status") None (de_option de_SchemaStatus) (schema_entries s (JNum (models.Status s))) = None) as E.
  { unfold de_default. rewrite status_entry. unfold de_option. rewrite de_not_null_num. unfold de_SchemaStatus.
    by rewrite de_variant_num. }
  do 7 (apply bind_none; intros ?). by rewrite E.
Qed.

Lemma list_not_schema ss : de_ApplicationSchema (api.list_json ss) = None.
Proof. unfold de_ApplicationSchema, api.list_json. by rewrite de_map_obj. Qed.

Lemma list_refused ss : de_ListSchemasResponse (api.list_json ss) = None.
Proof.
  unfold de_ListSchemasResponse, api.list_json. rewrite de_map_obj. cbn [mbind option_bind].
  change (de_default (lit "schemas") [] ?f [(lit "schemas", ?j)]) with (f j). cbv beta.
  destruct ss as [|s ss]; [by rewrite de_seq_null|]. rewrite bool_decide_false by done. rewrite de_seq_arr.
  cbn [mbind option_bind fmap list_fmap mapM]. by rewrite schema_refused.
Qed.

(** *** The same, with the status by its name *)

Definition named_json (s : models.ApplicationSchema) : json :=
  JObj (schema_entries s (JStr (models.SchemaStatus_String (models.Status s)))).

Definition status_of (z : Z) : SchemaStatus :=
  if z =? 1 then ACTIVE else if z =? 2 then DEPRECATED else if z =? 3 then REVOKED else UNSPECIFIED.

Definition view_field (f : models.FieldDef) : FieldDef :=
  mkFieldDef (models.Name f) (models.Offset f) (models.Length f) (models.Type_ f) (models.Description f).

(** What the client should see of a schema. *)
Definition view (s : models.ApplicationSchema) (l : models.FieldLayout) : ApplicationSchema :=
  mkAppSchema (models.ID s) (models.OamMode s) (models.PayloadBytes s) (models.SchemaName s) (models.Version s)
    (mkFieldLayout (view_field <$> models.Fields l)) (models.OperatorID s) (Some (status_of (models.Status s)))
    (rfc3339 (models.CreatedAt s)) (rfc3339 (models.UpdatedAt s))
    (if bool_decide (models.Signature s = []) then None else Some (base64 (models.Signature s))).

Definition field_i32 (f : models.FieldDef) : Prop :=
  in_sint 32 (models.Offset f) ∧ in_sint 32 (models.Length f) ∧ in_sint 32 (models.Type_ f).

Lemma read_field f : field_i32 f → de_FieldDef (field_json f) = Some (view_field f).
Proof.
  intros (Ho & Hl & Ht). unfold de_FieldDef, field_json. rewrite de_map_obj. cbn [mbind option_bind].
  destruct f as [n o l t d]. cbn in Ho, Hl, Ht. cbn [models.Name models.Offset models.Length models.Type_ models.Description].
  unfold de_field, de_default.
  case_bool_decide as E; cbn [app].
  - change (de_entry (lit "name") _) with (Some (Some (JStr n))).
    change (de_entry (lit "offset") _) with (Some (Some (JNum o))).
    change (de_entry (lit "length") _) with (Some (Some (JNum l))).
    change (de_entry (lit "type") _) with (Some (Some (JNum t))).
    change (de_entry (lit "description") _) with (@Some (option json) None). cbv beta iota.
    rewrite de_string_str, !de_i32_num by done. by subst.
  - change (de_entry (lit "name") _) with (Some (Some (JStr n))).
    change (de_entry (lit "offset") _) with (Some (Some (JNum o))).
    change (de_entry (lit "length") _) with (Some (Some (JNum l))).
    change (de_entry (lit "type") _) with (Some (Some (JNum t))).
    change (de_entry (lit "description") _) with (Some (Some (JStr d))). cbv beta iota.
    by rewrite !de_string_str, !de_i32_num by done.
Qed.

Lemma read_layout l :
  models.Fields l ≠ [] → Forall field_i32 (models.Fields l) →
  de_FieldLayout (layout_json l) = Some (mkFieldLayout (view_field <$> models.Fields l)).
Proof.
  intros Hne Hf. unfold de_FieldLayout, layout_json. rewrite bool_decide_false, de_map_obj by done. cbn [mbind option_bind].
  change (de_field (lit "fields") ?f [(lit "fields", ?j)]) with (f j). cbv beta. rewrite de_seq_arr. cbn [mbind option_bind].
  assert (mapM de_FieldDef (field_json <$> models.Fields l) = Some (view_field <$> models.Fields l)) as ->; [|done].
  apply mapM_Some_2, Forall2_fmap, Forall_Forall2_diag. eapply Forall_impl; [exact Hf|]. apply read_field.
Qed.

Lemma read_status z :
  de_option de_SchemaStatus (JStr (models.SchemaStatus_String z)) = Some (Some (status_of z)).
Proof.
  unfold de_option. rewrite de_not_null_str. unfold de_SchemaStatus.
  set (vs := [lit "UNSPECIFIED"; lit "ACTIVE"; lit "DEPRECATED"; lit "REVOKED"]).
  assert (NoDup vs) as Hnd by (apply (bool_decide_unpack _); vm_compute; exact I).
  unfold models.SchemaStatus_String, status_of, models.SchemaStatusActive, models.SchemaStatusDeprecated,
    models.SchemaStatusRevoked.
  destruct (z =? 1); [by rewrite (de_variant_str vs _ 1)|]. destruct (z =? 2); [by rewrite (de_variant_str vs _ 2)|].
  destruct (z =? 3); [by rewrite (de_variant_str vs _ 3)|by rewrite (de_variant_str vs _ 0)].
Qed.

(** The status is all that separates the two ends.  Of every schema with a layout, its
    numbers in the range of [int32], the client's deserialization refuses the JSON the
    registry writes, in which the status is a number; with the status by its name in its
    place, it reads every attribute and every field as the registry has them. *)
Theorem status_encoding_mismatch (s : models.ApplicationSchema) (l : models.FieldLayout) :
  models.Layout s = Some l → models.Fields l ≠ [] → Forall field_i32 (models.Fields l) →
  in_sint 32 (models.OamMode s) → in_sint 32 (models.PayloadBytes s) → in_sint 32 (models.Version s) →
  de_ApplicationSchema (schema_json s) = None ∧ de_ApplicationSchema (named_json s) = Some (view s l).
Proof.
  intros El Hne Hf Ho Hp Hv. split; [apply schema_refused|].
  unfold de_ApplicationSchema, named_json. rewrite de_map_obj. cbn [mbind option_bind].
  set (m := schema_entries s _).
  assert (de_entry (lit "id") m = Some (Some (JStr (models.ID s)))) as E1 by (unfold m; find_entry).
  assert (de_entry (lit "oam_mode") m = Some (Some (JNum (models.OamMode s)))) as E2 by (unfold m; find_entry).
  assert (de_entry (lit "payload_bytes") m = Some (Some (JNum (models.PayloadBytes s)))) as E3 by (unfold m; find_entry).
  assert (de_entry (lit "name") m = Some (Some (JStr (models.SchemaName s)))) as E4 by (unfold m; find_entry).
  assert (de_entry (lit "version") m = Some (Some (JNum (models.Version s)))) as E5 by (unfold m; find_entry).
  assert (de_entry (lit "layout") m = Some (Some (layout_json l))) as E6
    by (unfold m, schema_entries; rewrite El; by case_bool_decide).
  assert (de_entry (lit "operator_id") m = Some (Some (JStr (models.OperatorID s)))) as E7 by (unfold m; find_entry).
  pose proof (status_entry s (JStr (models.SchemaStatus_String (models.Status s))) : de_entry _ m = _) as E8.
  assert (de_entry (lit "created_at") m = Some (Some (JStr (rfc3339 (models.CreatedAt s))))) as E9 by (unfold m; find_entry).
  assert (de_entry (lit "updated_at") m = Some (Some (JStr (rfc3339 (models.UpdatedAt s))))) as E10 by (unfold m; find_entry).
  unfold de_field, de_default. rewrite E1, E2, E3, E4, E5, E6, E7, E8, E9, E10.
  rewrite !de_string_str, !de_i32_num, read_layout, read_status by done. cbn [mbind option_bind].
  unfold view, m, schema_entries. case_bool_decide; [done|].
  change (de_entry (lit "signature") _) with (Some (Some (JStr (base64 (models.Signature s))))).
  unfold de_option. by rewrite de_not_null_str, de_string_str.
Qed.
End responses.

(** ** The client against the registry *)

Section interop.
Context `{GoJson, GoUtf8, !GoUtf8Spec, Serde, !SerdeSpec, GoCrypto, Badger, !api.GoDecode}.
Context (error_text : api.RestError → text).

Lemma trim_prefix_app p s : trim_prefix p (p ++ s) = s.
Proof. unfold trim_prefix. rewrite bool_decide_true by (by exists s). by rewrite drop_app_length. Qed.

(** A response to a GET request is never a schema for the client. *)
Lemma data_refused a :
  data_response a → is_success (api.response_code a) = true →
  (serde_parse (body_of error_text a) ≫= de_ApplicationSchema) = None.
Proof.
  destruct a as [code j|code err]; cbn [data_response api.response_code body_of].
  - intros [-> [[s ->]|[ss ->]]] _.
    + rewrite serde_reads_go by apply plain_schema. apply schema_refused.
    + rewrite serde_reads_go by apply plain_list. apply list_not_schema.
  - intros [_ Hc] Hs. unfold is_success in Hs. apply andb_true_iff in Hs as [_ Hs%Z.ltb_lt]. lia.
Qed.

Section against.
Context (cfg : FlrClientConfig) (env : api.Env) (reg : nat → engine.Engine).

Let R : Registry := registry_at error_text (trim_end_slashes (base_url cfg)) env reg.
#[local] Existing Instance R.

(** Whatever a GET returns, the client's schema query ends in an error. *)
Lemma query_refused i url :
  match http_get i url with
  | Ok (status, body) => is_success status = true → parse_schema body = Err ()
  | Err _ => True
  end.
Proof.
  cbn [http_get R registry_at]. destruct (request_of _) as [r|] eqn:Er; [|done].
  assert (api.Method r = lit "GET") as Hm.
  { unfold request_of in Er. destruct (cut _ _) as [p q]. destruct (unescape false p); [|done]. by injection Er as <-. }
  destruct (get_request env r (reg i) Hm) as [_ Hg]. destruct (api.serve env r (reg i)).2 as [a|]; [|done].
  intros Hs. cbn [parse_schema R registry_at]. by rewrite data_refused.
Qed.

Definition list_url : text :=
  trim_end_slashes (base_url cfg) ++ lit "/v1/schemas?operator_id=" ++ urlencode (operator_id cfg)
    ++ lit "&status=ACTIVE".

(** What the registry answers to the list request. *)
Definition active_list (i : nat) : list models.ApplicationSchema :=
  registry.ListSchemas (registry.mkFilter (operator_id cfg) None models.SchemaStatusActive []) (engine.store (reg i)).

Lemma list_answer i :
  ascii (operator_id cfg) →
  http_get i list_url = Ok (200, go_render (api.list_json (active_list i)) ++ [10]).
Proof.
  intros Hop. cbn [http_get R registry_at]. unfold list_url. rewrite trim_prefix_app, list_request by done. reflexivity.
Qed.

Lemma list_fails i : ascii (operator_id cfg) → list_active_schemas cfg i = Err (Json ()).
Proof.
  intros Hop. unfold list_active_schemas. fold list_url. rewrite list_answer by done.
  cbn [map_err rbind parse_list R registry_at]. rewrite serde_reads_go by apply plain_list. cbn [mbind option_bind].
  by rewrite list_refused.
Qed.

(** C17: The client cannot be programmed from the registry.  For an operator with an ASCII
    id, the registry understands the client's request and answers 200 with its active
    schemas of that operator; the client refuses the answer as JSON, whatever schemas there
    are, and even if there are none.  Programming a register file so always stops after the
    wavelength, the secret, the control bits and the tolerance, with no schema bound.  The
    other two queries of the client never return a schema either. *)
Theorem client_refuses_registry (i : nat) (w : Wavelength) (secret : bytes) (topo : bool) (rf : RegisterFile) :
  ascii (operator_id cfg) → Wavelength_ok w → array_ok 32 secret → RegisterFile_ok rf →
  http_get i list_url = Ok (200, go_render (api.list_json (active_list i)) ++ [10]) ∧
  list_active_schemas cfg i = Err (Json ()) ∧
  program_register_file cfg w secret topo i rf = (run_writes (base_writes w secret topo) rf, Err (Json ())) ∧
  (∀ id, ∃ err, get_schema cfg id i = Err err) ∧
  (∀ op oam, ∃ err, get_active_schema_for_oam cfg op oam i = Err err).
Proof.
  intros Hop Hw Hs Hrf. pose proof (list_fails i Hop) as Hlist.
  split_and!; [by apply list_answer|exact Hlist| | |].
  - rewrite program_base by done. by rewrite Hlist.
  - intros id. unfold get_schema. set (u := _ ++ lit "/v1/schemas/" ++ _). pose proof (query_refused i u) as Hq.
    destruct (http_get i u) as [[status body]|]; [|by eexists]. cbn [map_err rbind].
    destruct (is_success status); [|by eexists]. cbn [negb]. rewrite Hq by done. by eexists.
  - intros op oam. unfold get_active_schema_for_oam. set (u := _ ++ lit "/v1/schemas/active/" ++ _).
    pose proof (query_refused i u) as Hq. destruct (http_get i u) as [[status body]|]; [|by eexists].
    cbn [map_err rbind]. destruct (status =? 404); [by eexists|].
    destruct (is_success status); [|by eexists]. cbn [negb]. rewrite Hq by done. by eexists.
Qed.
End against.

(** The whole program against the whole registry.  [otap-fullstack], started with any
    command line whose operator is ASCII and served by the registry in any states, prints
    its three header lines and stops with a JSON error at the list of schemas. *)
Theorem fullstack_refuses_registry `{HmacSha256} `{Libm} (argv : list text) (env : api.Env)
    (reg : nat → engine.Engine) :
  let args := parse_args argv in
  let cfg := fullstack_config args in
  let R := registry_at error_text (trim_end_slashes (base_url cfg)) env reg in
  ascii (operator_id cfg) →
  @otap_fullstack _ _ R argv [] =
  ([Text "== otap-fullstack: live FLR-driven OTAP demo =="; UrlLine (flr_url args); OperatorLine (operator args)],
   Err (@FullFlr R (Some LIST_SCHEMAS) (@Json R ()))).
Proof.
  intros args cfg R Hop. pose proof (list_fails cfg env reg 0 Hop : @list_active_schemas R cfg 0 = _) as Hlist.
  unfold otap_fullstack. fold args cfg. do 3 step_say.
  change (@FlrClient_new R cfg) with (@Ok FlrClient (@FlrClientError R) (mkFlrClient cfg)).
  rewrite (bind_try _ (mkFlrClient cfg)) by done. cbn [flr_cfg]. by rewrite Hlist.
Qed.
End interop.

(** ** Witnesses *)

Module InteropExamples.
Import ToyStore ToyCrypto LedgerExamples RestExamples.

#[export] Instance toy_utf8 : GoUtf8 := {| utf8_decode b := b |}.
#[export] Instance toy_utf8_spec : GoUtf8Spec.
Proof. by constructor. Qed.

Fixpoint index_of (s : text) (vs : list text) : option nat :=
  match vs with
  | [] => None
  | v :: vs => if bool_decide (v = s) then Some 0%nat else S <$> index_of s vs
  end.

#[export] Instance toy_serde : Serde := {|
  serde_parse t := match t with [p; 10] => parse [p] | _ => None end;
  de_string j := match j with JStr s => Some s | _ => None end;
  de_i32 j := match j with JNum z => if bool_decide (in_sint 32 z) then Some z else None | _ => None end;
  de_seq j := match j with JArr l => Some l | _ => None end;
  de_map j := match j with JObj m => Some m | _ => None end;
  de_is_null j := match j with JNull => true | _ => false end;
  de_unit_variant vs j := match j with JStr s => index_of s vs | _ => None end;
|}.

Lemma index_of_lookup s vs i : NoDup vs → vs !! i = Some s → index_of s vs = Some i.
Proof.
  intros Hnd. revert i. induction Hnd as [|v vs Hv Hnd IH]; intros i Hi; [done|]. cbn [index_of].
  destruct i as [|i]; cbn in Hi.
  - injection Hi as ->. by rewrite bool_decide_true.
  - rewrite bool_decide_false by (intros ->; by apply Hv, (list_elem_of_lookup_2 _ i)). by rewrite (IH i Hi).
Qed.

#[export] Instance toy_serde_spec : SerdeSpec.
Proof.
  constructor; try done.
  - intros j _. cbn [serde_parse toy_serde go_render toy_json]. unfold render. cbn [app]. apply parse_render.
  - intros z Hz. cbn [de_i32 toy_serde]. by rewrite bool_decide_true.
  - intros vs s i. apply index_of_lookup.
Qed.

Definition local_cfg : FlrClientConfig := FlrClientConfig_local (lit "op-alice").

Definition local_registry : Registry :=
  registry_at (λ _, []) (trim_end_slashes (base_url local_cfg)) env0 (λ _, e_tick).

Lemma client_refuses_registry_witness :
  @list_active_schemas local_registry local_cfg 0 = Err (@Json local_registry ()).
Proof.
  apply (client_refuses_registry (λ _, []) local_cfg env0 (λ _, e_tick) 0 (mkWavelength 40) demo_secret false
    RegisterFile_new);
    [apply lit_ascii; reflexivity|exact Demo.wavelength_ok|exact demo_secret_ok|exact RegisterFile_new_ok].
Defined.

#[local] Existing Instances Toy.toy_hmac ToyLibm.toy_libm.

Lemma fullstack_refuses_registry_witness :
  let cfg := fullstack_config (parse_args []) in
  let R := registry_at (λ _, []) (trim_end_slashes (base_url cfg)) env0 (λ _, e_tick) in
  (@otap_fullstack _ _ R [] []).2 = Err (@FullFlr R (Some LIST_SCHEMAS) (@Json R ())).
Proof.
  intros cfg R. assert (ascii (operator_id cfg)) as Hop by (apply lit_ascii; reflexivity).
  pose proof (fullstack_refuses_registry (λ _, []) [] env0 (λ _, e_tick) Hop) as E.
  exact (f_equal snd E).
Defined.

Lemma status_encoding_mismatch_witness :
  de_ApplicationSchema (schema_json FlrModels.tick_schema) = None ∧
  is_Some (de_ApplicationSchema (named_json FlrModels.tick_schema)).
Proof.
  destruct (status_encoding_mismatch FlrModels.tick_schema _ eq_refl) as [H1 H2];
    [discriminate|repeat constructor; vm_compute; congruence|split; vm_compute; congruence..|].
  split; [exact H1|]. rewrite H2. by eexists.
Defined.
End InteropExamples.
