(* ===== verification/D3Rpc.v ===== *)
(** * luxstream-otap-d3: the rolling photon checksum

    Models [src/crates/luxstream-otap-d3/src/rpc.rs]. *)

From S2P Require Import Prelude.
From Stdlib Require Import Permutation.
Local Open Scope Z_scope.

Inductive Polarization : Type := PolH | PolV | PolD | PolA.

(** [pol as u64] *)
Definition pol_weight (p : Polarization) : Z :=
  match p with PolH => 1 | PolV => 2 | PolD => 3 | PolA => 5 end.

Record Symbol : Type := mkSymbol {
  value : Z;
  lambda : Z;
  pol : Polarization;
}.

Inductive RpcDomain : Type := LinkData | ControlPlane.

(** [domain as u32] *)
Definition domain_tag (d : RpcDomain) : Z :=
  match d with LinkData => 0 | ControlPlane => 1 end.

Definition PRIME : Z := 7919.

(** The loop over the symbols. *)
Definition rpc_step (acc : Z) (s : Symbol) : Z :=
  let w_i := wrapping_mul 64 (lambda s) PRIME in
  let p_i := pol_weight (pol s) in
  let term := wrapping_mul 64 (wrapping_mul 64 (value s) w_i) p_i in
  wrapping_add 64 acc term.

Definition calculate_rpc (symbols : list Symbol) (domain epoch_nonce : Z) : Z :=
  let acc := wrapping_add 64 epoch_nonce (wrapping_mul 64 domain 31) in
  let acc := fold_left rpc_step symbols acc in
  wrap 32 (Z.land acc 0xFFFFFFFF).

(** The ranges of the Rust types. *)
Definition Symbol_ok (s : Symbol) : Prop := u16 (value s) ∧ u8 (lambda s).

(** The ranges the documentation of [Symbol] gives. *)
Definition Symbol_valid (s : Symbol) : Prop := 0 ≤ value s < 1024 ∧ 1 ≤ lambda s ≤ 96.

(** ** The closed form *)

Definition weight (s : Symbol) : Z := value s * lambda s * pol_weight (pol s).

Definition total_weight (symbols : list Symbol) : Z := foldr (λ s z, weight s + z) 0 symbols.

Lemma rpc_step_mod acc s : rpc_step acc s mod 2 ^ 32 = (acc + PRIME * weight s) mod 2 ^ 32.
Proof.
  unfold rpc_step, wrapping_add, wrapping_mul, wrap, weight. cbv zeta.
  rewrite !(Z.mod_eq _ (2 ^ 64)) by lia.
  set (q1 := lambda s * PRIME / 2 ^ 64). set (q2 := _ * (_ - 2 ^ 64 * q1) / 2 ^ 64).
  set (q3 := _ * pol_weight _ / 2 ^ 64). set (q4 := (acc + _) / 2 ^ 64).
  rewrite <- (Z_mod_plus_full (acc + _)
    (- 2 ^ 32 * (value s * q1 * pol_weight (pol s) + q2 * pol_weight (pol s) + q3 + q4)) (2 ^ 32)).
  f_equal. change (2 ^ 64) with (2 ^ 32 * 2 ^ 32). ring.
Qed.

Lemma rpc_fold_mod symbols : ∀ acc,
  fold_left rpc_step symbols acc mod 2 ^ 32 = (acc + PRIME * total_weight symbols) mod 2 ^ 32.
Proof.
  induction symbols as [|s l IH]; intros acc; cbn [fold_left total_weight foldr].
  { by rewrite Z.mul_0_r, Z.add_0_r. }
  rewrite IH, Zplus_mod, rpc_step_mod, <- Zplus_mod. f_equal.
  unfold total_weight. ring.
Qed.

Lemma rpc_closed_form symbols domain epoch :
  calculate_rpc symbols domain epoch =
  (epoch + 31 * domain + PRIME * total_weight symbols) mod 2 ^ 32.
Proof.
  unfold calculate_rpc, wrap. change 0xFFFFFFFF with (Z.ones 32).
  rewrite Z.land_ones, Z.mod_mod, rpc_fold_mod by lia.
  unfold wrapping_add, wrapping_mul, wrap.
  rewrite !(Z.mod_eq _ (2 ^ 64)) by lia. set (q1 := domain * 31 / 2 ^ 64).
  set (q2 := (epoch + _) / 2 ^ 64).
  rewrite <- (Z_mod_plus_full (epoch + _ + _) (- 2 ^ 32 * (q1 + q2)) (2 ^ 32)).
  f_equal. change (2 ^ 64) with (2 ^ 32 * 2 ^ 32). ring.
Qed.

Lemma total_weight_app a b : total_weight (a ++ b) = total_weight a + total_weight b.
Proof.
  unfold total_weight. induction a as [|s a IH]; cbn [app foldr]; [done|]. rewrite IH. ring.
Qed.

Lemma total_weight_perm a b : Permutation a b → total_weight a = total_weight b.
Proof. unfold total_weight. induction 1; cbn [foldr]; lia. Qed.

(** Two valid symbols differ by too little for the prime multiple to wrap. *)
Lemma weight_valid s : Symbol_valid s → 0 ≤ weight s ≤ 491040.
Proof.
  intros [Hv Hl]. unfold weight. assert (1 ≤ pol_weight (pol s) ≤ 5) by (destruct (pol s); cbn; lia).
  assert (0 ≤ value s * lambda s ≤ 1023 * 96) by nia. nia.
Qed.

Lemma prime_mod_inj x y :
  - 491040 ≤ x - y ≤ 491040 → (PRIME * x) mod 2 ^ 32 = (PRIME * y) mod 2 ^ 32 → x = y.
Proof.
  intros Hxy E. apply Z.cong_iff_0 in E.
  rewrite <- Z.mul_sub_distr_l in E. apply Z.mod_divide in E as [k E]; [|lia].
  unfold PRIME in E. assert (k = 0) by lia. lia.
Qed.

Lemma mod_add_cancel a x y n : (a + x) mod n = (a + y) mod n ↔ x mod n = y mod n.
Proof.
  rewrite !Z.cong_iff_0. by replace (a + x - (a + y)) with (x - y) by ring.
Qed.

(** ** Properties *)

(** The checksum is the documented formula.  The 64-bit wrapping arithmetic computes
    [(epoch_nonce + domain * 31) + sum of S_i * W_lambda * P_i] modulo 2^32, as over the
    integers, with [W_lambda] = 7919 lambda; so a frame can be summed in parts. *)
Theorem rpc_is_documented_sum (symbols more : list Symbol) (domain epoch : Z) :
  let S s := value s in let W s := lambda s * 7919 in let P s := pol_weight (pol s) in
  let sum l := foldr Z.add 0 ((λ s, S s * W s * P s) <$> l) in
  calculate_rpc symbols domain epoch = (epoch + domain * 31 + sum symbols) mod 2 ^ 32 ∧
  u32 (calculate_rpc symbols domain epoch) ∧
  calculate_rpc (symbols ++ more) domain epoch = (calculate_rpc symbols domain epoch + sum more) mod 2 ^ 32.
Proof.
  cbv beta zeta. assert (∀ l, foldr Z.add 0 ((λ s, value s * (lambda s * 7919) * pol_weight (pol s)) <$> l) =
    PRIME * total_weight l) as E.
  { induction l as [|s l IH]; [done|]. cbn [fmap list_fmap foldr]. rewrite IH.
    change (total_weight (s :: l)) with (weight s + total_weight l). unfold weight, PRIME. ring. }
  rewrite !E, !rpc_closed_form, total_weight_app, Zplus_mod_idemp_l. split_and!.
  - f_equal. ring.
  - by apply (wrap_range 32).
  - f_equal. ring.
Qed.

(** One corrupted symbol.  When a single symbol of a frame is replaced by
    another, both in the documented ranges, the checksum changes exactly when the
    product value * lambda * polarization weight does: a changed value is always
    caught, and a changed channel or polarization is caught unless the value is
    0. *)
Theorem rpc_detects_single_symbol (pre post : list Symbol) (s s' : Symbol) (domain epoch : Z) :
  Symbol_valid s → Symbol_valid s' →
  let same := calculate_rpc (pre ++ s :: post) domain epoch =
              calculate_rpc (pre ++ s' :: post) domain epoch in
  (same ↔ weight s = weight s') ∧
  (lambda s = lambda s' → pol s = pol s' → value s ≠ value s' → ¬ same) ∧
  (value s = value s' → pol s = pol s' → lambda s ≠ lambda s' → (same ↔ value s = 0)) ∧
  (value s = value s' → lambda s = lambda s' → pol s ≠ pol s' → (same ↔ value s = 0)).
Proof.
  intros Hs Hs'. cbv zeta.
  assert (calculate_rpc (pre ++ s :: post) domain epoch =
          calculate_rpc (pre ++ s' :: post) domain epoch ↔ weight s = weight s') as E.
  { rewrite !rpc_closed_form, mod_add_cancel, !total_weight_app.
    cbn [total_weight foldr]. fold (total_weight post).
    rewrite !Z.mul_add_distr_l, mod_add_cancel, !(Z.add_comm (PRIME * weight _)), mod_add_cancel.
    split; [|congruence]. pose proof (weight_valid s Hs). pose proof (weight_valid s' Hs').
    apply prime_mod_inj. lia. }
  unfold Symbol_valid in *. split; [done|]. rewrite E. unfold weight. split_and!.
  - intros -> -> Hv E'. apply Z.mul_reg_r, Z.mul_reg_r in E'; try lia.
    destruct (pol s'); done.
  - intros -> -> Hl. split; [|by intros ->].
    intros E'%Z.mul_reg_r; [|by destruct (pol s')].
    destruct (Z.eq_dec (value s') 0) as [|Hv]; [done|]. by apply Z.mul_reg_l in E'.
  - intros -> -> Hp. split; [|by intros ->]. intros E'.
    destruct (Z.eq_dec (value s') 0) as [|Hv]; [done|]. apply Z.mul_reg_l in E'; [|nia].
    by destruct (pol s), (pol s').
Qed.

Lemma rpc_detects_single_symbol_witness :
  calculate_rpc [mkSymbol 500 10 PolH; mkSymbol 7 3 PolD] 0 42 ≠
  calculate_rpc [mkSymbol 500 10 PolH; mkSymbol 6 3 PolD] 0 42.
Proof.
  apply (rpc_detects_single_symbol [mkSymbol 500 10 PolH] [] (mkSymbol 7 3 PolD)
    (mkSymbol 6 3 PolD) 0 42); unfold Symbol_valid; cbn; lia || done.
Defined.

(** Domains and epochs.  The same symbols under the two domain tags always
    have different checksums, and under two epoch nonces exactly when the nonces
    differ in their low 32 bits: sessions whose nonces agree there have the same
    checksums for all frames. *)
Theorem rpc_isolation (symbols : list Symbol) (epoch epoch' domain : Z) :
  calculate_rpc symbols (domain_tag LinkData) epoch ≠
    calculate_rpc symbols (domain_tag ControlPlane) epoch ∧
  (calculate_rpc symbols domain epoch = calculate_rpc symbols domain epoch' ↔
   epoch mod 2 ^ 32 = epoch' mod 2 ^ 32).
Proof.
  rewrite !rpc_closed_form. split.
  - cbn [domain_tag]. rewrite <- !Z.add_assoc, mod_add_cancel.
    rewrite !(Z.add_comm (31 * _)), mod_add_cancel. done.
  - replace (epoch + 31 * domain + PRIME * total_weight symbols)
      with (31 * domain + PRIME * total_weight symbols + epoch) by ring.
    replace (epoch' + 31 * domain + PRIME * total_weight symbols)
      with (31 * domain + PRIME * total_weight symbols + epoch') by ring.
    apply mod_add_cancel.
Qed.

(** what the checksum cannot see.  It is a plain sum, so reordering the symbols
    of a frame, dropping or inserting symbols of value 0, and replacing a symbol
    by several of the same total weight leave it unchanged. *)
Theorem rpc_blind_spots (pre post l l' : list Symbol) (domain epoch : Z) :
  (Permutation l l' → calculate_rpc l domain epoch = calculate_rpc l' domain epoch) ∧
  (Forall (λ s, value s = 0) l →
   calculate_rpc (pre ++ l ++ post) domain epoch = calculate_rpc (pre ++ post) domain epoch) ∧
  (total_weight l = total_weight l' →
   calculate_rpc (pre ++ l ++ post) domain epoch = calculate_rpc (pre ++ l' ++ post) domain epoch).
Proof.
  rewrite !rpc_closed_form, !total_weight_app. split_and!.
  - by intros ->%total_weight_perm.
  - intros Hl. assert (total_weight l = 0) as ->; [|done].
    unfold total_weight. induction Hl as [|s l Hs _ IH]; cbn [foldr]; [done|].
    rewrite IH. unfold weight. by rewrite Hs.
  - by intros ->.
Qed.
