(* ===== verification/D3Handshake.v ===== *)
(** * luxstream-otap-d3: keys and the three-way handshake

    Models [src/crates/luxstream-otap-d3/src/key_domain.rs] (both key domains) and
    [src/crates/luxstream-otap-d3/src/handshake.rs]: the wire messages and the
    typed state machines of initiator and responder.  The nonce a side draws from
    the operating system's generator is an argument. *)

From S2P Require Import Prelude External.
Local Open Scope Z_scope.

(** ** Keys *)

Definition PUBKEY_LEN : nat := 32.
Definition NONCE_LEN : nat := 32.
Definition SIG_LEN : nat := 64.

Section keys.
Context `{Ed25519}.

Record D3SigningKey : Type := mkD3SigningKey { d3_sk : ed_sk }.
Record D3VerifyingKey : Type := mkD3VerifyingKey { d3_vk : ed_vk }.

Definition D3SigningKey_from_bytes (b : bytes) : D3SigningKey :=
  mkD3SigningKey (ed_sk_from_bytes b).

Definition verifying_key (k : D3SigningKey) : D3VerifyingKey :=
  mkD3VerifyingKey (ed_verifying_key (d3_sk k)).

Definition sign_raw (k : D3SigningKey) (msg : bytes) : bytes := ed_sign (d3_sk k) msg.

Definition D3VerifyingKey_from_bytes (b : bytes) : result D3VerifyingKey string :=
  match ed_vk_from_bytes b with
  | Some vk => Ok (mkD3VerifyingKey vk)
  | None => Err "Invalid Ed25519 D3 public key"
  end.

Definition vk_as_bytes (k : D3VerifyingKey) : bytes := ed_vk_to_bytes (d3_vk k).

Definition verify_raw (k : D3VerifyingKey) (msg sig : bytes) : result unit string :=
  if ed_verify (d3_vk k) msg sig then Ok () else Err "D3 Ed25519 verification failed".
End keys.

(** The FLR domain: its keys are of their own types, with [sign_schema] and
    [verify_schema] in place of [sign_raw] and [verify_raw]. *)
Section flr_keys.
Context `{P256}.

Record FlrSigningKey : Type := mkFlrSigningKey { flr_sk : p256_sk }.
Record FlrVerifyingKey : Type := mkFlrVerifyingKey { flr_vk : p256_vk }.

Definition FlrSigningKey_from_bytes (b : bytes) : result FlrSigningKey string :=
  match p256_sk_from_slice b with
  | Some sk => Ok (mkFlrSigningKey sk)
  | None => Err "Invalid P-256 FLR secret key"
  end.

Definition flr_verifying_key (k : FlrSigningKey) : FlrVerifyingKey :=
  mkFlrVerifyingKey (p256_verifying_key (flr_sk k)).

Definition sign_schema (k : FlrSigningKey) (schema_hash : bytes) : p256_sig :=
  p256_sign (flr_sk k) schema_hash.

Definition verify_schema (k : FlrVerifyingKey) (schema_hash : bytes) (sig : p256_sig)
    : result unit string :=
  if p256_verify (flr_vk k) schema_hash sig then Ok () else Err "FLR P-256 verification failed".

(** A schema hash signed with a key verifies under the key derived from it. *)
Lemma sign_schema_verifies `{!P256Spec} k schema_hash :
  verify_schema (flr_verifying_key k) schema_hash (sign_schema k schema_hash) = Ok ().
Proof.
  unfold verify_schema, flr_verifying_key, sign_schema. cbn [flr_vk].
  by rewrite p256_sign_verify.
Qed.
End flr_keys.

(** ** Errors and messages *)

Inductive HsError : Type :=
| Malformed (expected got : Z)
| BadServerSig
| BadClientSig
| NotAuthorized
| Transport (msg : string).

(** [ClientAcl::is_authorized] *)
Definition ClientAcl : Type := bytes → bool.
Definition AllowAll : ClientAcl := λ _, true.

Record HsMsg1 : Type := mkMsg1 { m1_client_pk : bytes; m1_nonce_i : bytes }.
Record HsMsg2 : Type := mkMsg2 { m2_server_pk : bytes; m2_nonce_r : bytes; m2_sig_r : bytes }.
Record HsMsg3 : Type := mkMsg3 { m3_client_pk : bytes; m3_sig_i : bytes }.

Definition MSG1_LEN : nat := PUBKEY_LEN + NONCE_LEN.
Definition MSG2_LEN : nat := PUBKEY_LEN + NONCE_LEN + SIG_LEN.
Definition MSG3_LEN : nat := PUBKEY_LEN + SIG_LEN.

Definition HsMsg1_encode (m : HsMsg1) : bytes :=
  let buf := replicate MSG1_LEN 0 in
  let buf := splice buf 0 (m1_client_pk m) in
  splice buf PUBKEY_LEN (m1_nonce_i m).

Definition HsMsg1_decode (buf : bytes) : result HsMsg1 HsError :=
  Ok (mkMsg1 (slice buf 0 PUBKEY_LEN) (slice buf PUBKEY_LEN MSG1_LEN)).

Definition HsMsg2_encode (m : HsMsg2) : bytes :=
  let buf := replicate MSG2_LEN 0 in
  let buf := splice buf 0 (m2_server_pk m) in
  let buf := splice buf PUBKEY_LEN (m2_nonce_r m) in
  splice buf (PUBKEY_LEN + NONCE_LEN) (m2_sig_r m).

Definition HsMsg2_decode (buf : bytes) : result HsMsg2 HsError :=
  Ok (mkMsg2 (slice buf 0 PUBKEY_LEN) (slice buf PUBKEY_LEN (PUBKEY_LEN + NONCE_LEN))
        (slice buf (PUBKEY_LEN + NONCE_LEN) MSG2_LEN)).

Definition HsMsg3_encode (m : HsMsg3) : bytes :=
  let buf := replicate MSG3_LEN 0 in
  let buf := splice buf 0 (m3_client_pk m) in
  splice buf PUBKEY_LEN (m3_sig_i m).

Definition HsMsg3_decode (buf : bytes) : result HsMsg3 HsError :=
  Ok (mkMsg3 (slice buf 0 PUBKEY_LEN) (slice buf PUBKEY_LEN MSG3_LEN)).

Definition HsMsg1_ok (m : HsMsg1) : Prop :=
  array_ok PUBKEY_LEN (m1_client_pk m) ∧ array_ok NONCE_LEN (m1_nonce_i m).
Definition HsMsg2_ok (m : HsMsg2) : Prop :=
  array_ok PUBKEY_LEN (m2_server_pk m) ∧ array_ok NONCE_LEN (m2_nonce_r m) ∧
  array_ok SIG_LEN (m2_sig_r m).
Definition HsMsg3_ok (m : HsMsg3) : Prop :=
  array_ok PUBKEY_LEN (m3_client_pk m) ∧ array_ok SIG_LEN (m3_sig_i m).

(** ** The state machines *)

Section handshake.
Context `{Sha256} `{Ed25519}.

Definition hash_nonces (prefix n1 n2 : bytes) : bytes := sha256 (prefix ++ n1 ++ n2).

Definition derive_epoch_nonce (n_i n_r : bytes) : Z :=
  let digest := hash_nonces (str_bytes "OTAP-EPOCH-v1") n_i n_r in
  from_be_bytes (slice digest 0 8).

Record Initiator : Type := mkInitiator {
  init_sk : D3SigningKey;
  init_peer_pk : D3VerifyingKey;
}.

Record InitiatorWaitMsg2 : Type := mkWaitMsg2 {
  w2_sk : D3SigningKey;
  w2_peer_pk : D3VerifyingKey;
  w2_nonce_i : bytes;
}.

Record EstablishedInitiator : Type := mkEstI {
  ei_epoch_nonce : Z;
  ei_peer_pk : D3VerifyingKey;
}.

Definition Initiator_start (i : Initiator) (nonce_i : bytes) : InitiatorWaitMsg2 * HsMsg1 :=
  let msg1 := mkMsg1 (vk_as_bytes (verifying_key (init_sk i))) nonce_i in
  (mkWaitMsg2 (init_sk i) (init_peer_pk i) nonce_i, msg1).

Definition Initiator_finish (s : InitiatorWaitMsg2) (msg2 : HsMsg2)
    : result (EstablishedInitiator * HsMsg3) HsError :=
  let digest := hash_nonces (str_bytes "HELLO-R") (w2_nonce_i s) (m2_nonce_r msg2) in
  let? _ := map_err (λ _, BadServerSig) (verify_raw (w2_peer_pk s) digest (m2_sig_r msg2)) in
  let our_digest := hash_nonces (str_bytes "HELLO-I") (m2_nonce_r msg2) (w2_nonce_i s) in
  let sig_i := sign_raw (w2_sk s) our_digest in
  let epoch_nonce := derive_epoch_nonce (w2_nonce_i s) (m2_nonce_r msg2) in
  let established := mkEstI epoch_nonce (w2_peer_pk s) in
  let msg3 := mkMsg3 (vk_as_bytes (verifying_key (w2_sk s))) sig_i in
  Ok (established, msg3).

Record Responder : Type := mkResponder {
  resp_sk : D3SigningKey;
  resp_acl : ClientAcl;
}.

Record ResponderWaitMsg3 : Type := mkWaitMsg3 {
  w3_sk : D3SigningKey;
  w3_client_pk : D3VerifyingKey;
  w3_nonce_i : bytes;
  w3_nonce_r : bytes;
}.

Record EstablishedResponder : Type := mkEstR {
  er_epoch_nonce : Z;
  er_peer_pk : D3VerifyingKey;
}.

Definition Responder_handle_msg1 (r : Responder) (msg1 : HsMsg1) (nonce_r : bytes)
    : result (ResponderWaitMsg3 * HsMsg2) HsError :=
  if negb (resp_acl r (m1_client_pk msg1)) then Err NotAuthorized
  else
    let? client_pk :=
      map_err (λ _, BadClientSig) (D3VerifyingKey_from_bytes (m1_client_pk msg1)) in
    let digest := hash_nonces (str_bytes "HELLO-R") (m1_nonce_i msg1) nonce_r in
    let sig_r := sign_raw (resp_sk r) digest in
    let msg2 := mkMsg2 (vk_as_bytes (verifying_key (resp_sk r))) nonce_r sig_r in
    Ok (mkWaitMsg3 (resp_sk r) client_pk (m1_nonce_i msg1) nonce_r, msg2).

Definition Responder_handle_msg3 (s : ResponderWaitMsg3) (msg3 : HsMsg3)
    : result EstablishedResponder HsError :=
  let digest := hash_nonces (str_bytes "HELLO-I") (w3_nonce_r s) (w3_nonce_i s) in
  let? _ := map_err (λ _, BadClientSig) (verify_raw (w3_client_pk s) digest (m3_sig_i msg3)) in
  let epoch_nonce := derive_epoch_nonce (w3_nonce_i s) (w3_nonce_r s) in
  Ok (mkEstR epoch_nonce (w3_client_pk s)).
End handshake.

(** ** Wire format *)

Lemma HsMsg1_layout m : HsMsg1_ok m → HsMsg1_encode m = m1_client_pk m ++ m1_nonce_i m.
Proof.
  intros [[H1 _] [H2 _]]. unfold HsMsg1_encode, MSG1_LEN, PUBKEY_LEN, NONCE_LEN in *.
  rewrite <- (app_nil_l (replicate _ 0)). do 2 fill 0%nat. rewrite <- !app_assoc. len_norm.
  by rewrite app_nil_r.
Qed.

Lemma HsMsg2_layout m :
  HsMsg2_ok m → HsMsg2_encode m = m2_server_pk m ++ m2_nonce_r m ++ m2_sig_r m.
Proof.
  intros ([H1 _] & [H2 _] & [H3 _]).
  unfold HsMsg2_encode, MSG2_LEN, PUBKEY_LEN, NONCE_LEN, SIG_LEN in *.
  rewrite <- (app_nil_l (replicate _ 0)). do 3 fill 0%nat. rewrite <- !app_assoc. len_norm.
  by rewrite app_nil_r.
Qed.

Lemma HsMsg3_layout m : HsMsg3_ok m → HsMsg3_encode m = m3_client_pk m ++ m3_sig_i m.
Proof.
  intros [[H1 _] [H2 _]]. unfold HsMsg3_encode, MSG3_LEN, PUBKEY_LEN, SIG_LEN in *.
  rewrite <- (app_nil_l (replicate _ 0)). do 2 fill 0%nat. rewrite <- !app_assoc. len_norm.
  by rewrite app_nil_r.
Qed.

Ltac hs_lens := unfold MSG1_LEN, MSG2_LEN, MSG3_LEN, PUBKEY_LEN, NONCE_LEN, SIG_LEN in *.

Lemma HsMsg1_round_trip m :
  HsMsg1_ok m → HsMsg1_decode (HsMsg1_encode m) = Ok m ∧ array_ok MSG1_LEN (HsMsg1_encode m).
Proof.
  intros Hm. rewrite HsMsg1_layout by done. destruct Hm as [[H1 B1] [H2 B2]], m as [pk n].
  cbn in *. hs_lens. split; [|split; [len|by apply bytes_ok_app]].
  unfold HsMsg1_decode. hs_lens. do 2 f_equal; read; done.
Qed.

Lemma HsMsg2_round_trip m :
  HsMsg2_ok m → HsMsg2_decode (HsMsg2_encode m) = Ok m ∧ array_ok MSG2_LEN (HsMsg2_encode m).
Proof.
  intros Hm. rewrite HsMsg2_layout by done.
  destruct Hm as ([H1 B1] & [H2 B2] & [H3 B3]), m as [pk n s].
  cbn in *. hs_lens. split; [|split; [len|by rewrite !bytes_ok_app]].
  unfold HsMsg2_decode. hs_lens. do 2 f_equal; read; done.
Qed.

Lemma HsMsg3_round_trip m :
  HsMsg3_ok m → HsMsg3_decode (HsMsg3_encode m) = Ok m ∧ array_ok MSG3_LEN (HsMsg3_encode m).
Proof.
  intros Hm. rewrite HsMsg3_layout by done. destruct Hm as [[H1 B1] [H2 B2]], m as [pk s].
  cbn in *. hs_lens. split; [|split; [len|by apply bytes_ok_app]].
  unfold HsMsg3_decode. hs_lens. do 2 f_equal; read; done.
Qed.
