(* ===== verification/D3Session.v ===== *)
(** * luxstream-otap-d3: sessions and frames

    Models [src/crates/luxstream-otap-d3/src/session.rs]: a session made from a
    completed handshake seals frames with its own key and opens the peer's. *)

From S2P Require Import Prelude External D3Rpc D3Handshake.
Local Open Scope Z_scope.

(** The bytes hashed for one symbol. *)
Definition symbol_bytes (s : Symbol) : bytes :=
  let val_bytes := to_be_bytes 2 (value s) in
  [nth 0 val_bytes 0; nth 1 val_bytes 0; lambda s; pol_weight (pol s)].

(** The input of the hash, piece by piece as the [update] calls feed it. *)
Definition frame_preimage (domain : RpcDomain) (epoch_nonce : Z) (symbols : list Symbol)
    (rpc_tag : Z) : bytes :=
  str_bytes "LUXSTREAM-OTAP-D3-v1" ++ to_be_bytes 4 (domain_tag domain) ++
  to_be_bytes 8 epoch_nonce ++ to_be_bytes 4 (wrap 32 (Z.of_nat (length symbols))) ++
  concat (symbol_bytes <$> symbols) ++ to_be_bytes 4 rpc_tag.

Section session.
Context `{Sha256} `{Ed25519}.

Record D3Session : Type := mkSession {
  epoch_nonce : Z;
  signing_key : D3SigningKey;
  peer_key : D3VerifyingKey;
}.

Record AuthenticatedFrame : Type := mkFrame {
  frame_symbols : list Symbol;
  rpc_tag : Z;
  d3_sig : bytes;
}.

Definition from_client_handshake (established : EstablishedInitiator) (our_sk : D3SigningKey)
    : D3Session :=
  mkSession (ei_epoch_nonce established) our_sk (ei_peer_pk established).

Definition from_server_handshake (established : EstablishedResponder) (our_sk : D3SigningKey)
    : D3Session :=
  mkSession (er_epoch_nonce established) our_sk (er_peer_pk established).

Definition canonical_preimage (domain : RpcDomain) (epoch_nonce : Z) (symbols : list Symbol)
    (rpc_tag : Z) : bytes :=
  sha256 (frame_preimage domain epoch_nonce symbols rpc_tag).

Definition seal (s : D3Session) (domain : RpcDomain) (symbols : list Symbol)
    : AuthenticatedFrame :=
  let rpc_tag := calculate_rpc symbols (domain_tag domain) (epoch_nonce s) in
  let preimage := canonical_preimage domain (epoch_nonce s) symbols rpc_tag in
  let sig := sign_raw (signing_key s) preimage in
  mkFrame symbols rpc_tag sig.

Definition open (s : D3Session) (domain : RpcDomain) (frame : AuthenticatedFrame)
    : result (list Symbol) string :=
  let preimage :=
    canonical_preimage domain (epoch_nonce s) (frame_symbols frame) (rpc_tag frame) in
  let? _ := map_err (λ _, "D3: signature verification failed"%string)
              (verify_raw (peer_key s) preimage (d3_sig frame)) in
  let recomputed := calculate_rpc (frame_symbols frame) (domain_tag domain) (epoch_nonce s) in
  if negb (recomputed =? rpc_tag frame) then
    Err "RPC: re-verification failed — sender bug or fault injection"%string
  else Ok (frame_symbols frame).

(** A frame opens when its signature verifies and its checksum is the computed
    one. *)
Lemma open_ok s domain f l :
  open s domain f = Ok l ↔
  l = frame_symbols f ∧
  rpc_tag f = calculate_rpc (frame_symbols f) (domain_tag domain) (epoch_nonce s) ∧
  ed_verify (d3_vk (peer_key s))
    (canonical_preimage domain (epoch_nonce s) (frame_symbols f) (rpc_tag f)) (d3_sig f) = true.
Proof.
  unfold open, verify_raw. destruct (ed_verify _ _ _); cbn [map_err rbind].
  - destruct (Z.eqb_spec (calculate_rpc (frame_symbols f) (domain_tag domain) (epoch_nonce s))
      (rpc_tag f)); naive_solver.
  - naive_solver.
Qed.
End session.

(** ** The preimage determines the frame *)

Lemma symbol_bytes_length s : length (symbol_bytes s) = 4%nat.
Proof. done. Qed.

Lemma symbols_bytes_length l : length (concat (symbol_bytes <$> l)) = (4 * length l)%nat.
Proof.
  induction l as [|s l IH]; [done|]. cbn [fmap list_fmap concat length].
  rewrite length_app, symbol_bytes_length, IH. lia.
Qed.

Lemma pol_weight_inj p q : pol_weight p = pol_weight q → p = q.
Proof. by destruct p, q. Qed.

Lemma domain_tag_inj d e : domain_tag d = domain_tag e → d = e.
Proof. by destruct d, e. Qed.

Lemma symbol_bytes_inj s s' : Symbol_ok s → Symbol_ok s' → symbol_bytes s = symbol_bytes s' → s = s'.
Proof.
  intros [Hv Hl] [Hv' Hl'] E. destruct s as [v l p], s' as [v' l' p']. cbn [value lambda] in *.
  unfold symbol_bytes in E. cbn [value lambda pol] in E.
  assert (to_be_bytes 2 v = to_be_bytes 2 v') as Ev.
  { pose proof (to_be_bytes_length 2 v). pose proof (to_be_bytes_length 2 v').
    destruct (to_be_bytes 2 v) as [|? [|? []]], (to_be_bytes 2 v') as [|? [|? []]]; try done.
    cbn in E. congruence. }
  apply (to_be_bytes_inj 2) in Ev; [|done..]. injection E as _ _ -> E%pol_weight_inj.
  by subst.
Qed.

Lemma symbols_bytes_inj l l' :
  Forall Symbol_ok l → Forall Symbol_ok l' → length l = length l' →
  concat (symbol_bytes <$> l) = concat (symbol_bytes <$> l') → l = l'.
Proof.
  intros Hl. revert l'. induction Hl as [|s l Hs _ IH]; intros [|s' l'] Hl' E; try done.
  apply Forall_cons in Hl' as [Hs' Hl']. cbn [fmap list_fmap concat].
  intros [E1 E2]%app_inj_length; [|done]. apply symbol_bytes_inj in E1; [|done..].
  cbn in E. rewrite (IH l') by (done || lia). by subst.
Qed.

Lemma frame_preimage_inj d d' e e' l l' r r' :
  u64 e → u64 e' → u32 r → u32 r' → Forall Symbol_ok l → Forall Symbol_ok l' →
  frame_preimage d e l r = frame_preimage d' e' l' r' → d = d' ∧ e = e' ∧ l = l' ∧ r = r'.
Proof.
  intros He He' Hr Hr' Hl Hl' E. unfold frame_preimage in E.
  assert (length l = length l') as Hlen.
  { apply (f_equal length) in E. rewrite !length_app, !symbols_bytes_length, !to_be_bytes_length in E.
    lia. }
  apply app_inj_length in E as [_ E]; [|done].
  apply app_inj_length in E as [Ed E]; [|by rewrite !to_be_bytes_length].
  apply app_inj_length in E as [Ee E]; [|by rewrite !to_be_bytes_length].
  apply app_inj_length in E as [_ E]; [|by rewrite !to_be_bytes_length].
  apply app_inj_length in E as [El Er]; [|by rewrite !symbols_bytes_length, Hlen].
  apply (to_be_bytes_inj 8) in Ee; [|done..]. apply (to_be_bytes_inj 4) in Er; [|done..].
  apply (to_be_bytes_inj 4) in Ed; [|by destruct d|by destruct d'].
  apply domain_tag_inj in Ed. apply symbols_bytes_inj in El; done.
Qed.

Lemma calculate_rpc_u32 l d e : u32 (calculate_rpc l d e).
Proof. unfold calculate_rpc. by apply wrap_range. Qed.

(** ** Properties *)

(** Frames round trip.  A frame sealed in a session opens in the peer's session
    (same epoch nonce, the sealer's key as peer key) under the same domain, and
    yields the symbols; any change to the checksum tag alone is refused whatever
    the signature, since the tag is recomputed. *)
Theorem seal_open_round_trip `{Ed25519Spec} `{Sha256} (a b : D3Session) (domain : RpcDomain)
    (symbols : list Symbol) :
  epoch_nonce a = epoch_nonce b → peer_key b = verifying_key (signing_key a) →
  open b domain (seal a domain symbols) = Ok symbols ∧
  (∀ tag sig l, tag ≠ rpc_tag (seal a domain symbols) →
     open b domain (mkFrame symbols tag sig) ≠ Ok l).
Proof.
  intros He Hk. split.
  - apply open_ok. unfold seal. cbn [frame_symbols rpc_tag d3_sig]. rewrite He, Hk.
    split_and!; [done..|]. apply ed_sign_verify.
  - intros tag sig l Hne Ho. apply open_ok in Ho as (_ & Ht & _). apply Hne. rewrite <- He in Ht.
    exact Ht.
Qed.

#[local] Existing Instances Toy.toy_sha256 Toy.toy_ed25519 Toy.toy_ed25519_spec.

Definition demo_key (n : Z) : D3SigningKey := D3SigningKey_from_bytes (replicate 32 n).

Definition demo_symbols : list Symbol := [mkSymbol 1023 34 PolH; mkSymbol 500 34 PolV].

Lemma seal_open_round_trip_witness :
  open (mkSession 7 (demo_key 2) (verifying_key (demo_key 1))) LinkData
    (seal (mkSession 7 (demo_key 1) (verifying_key (demo_key 2))) LinkData demo_symbols) =
  Ok demo_symbols.
Proof.
  exact (proj1 (seal_open_round_trip (mkSession 7 (demo_key 1) (verifying_key (demo_key 2)))
    (mkSession 7 (demo_key 2) (verifying_key (demo_key 1))) LinkData demo_symbols eq_refl eq_refl)).
Defined.

(** What a signature binds.  The string hashed for a frame determines its
    domain, its epoch nonce, its symbols (number and order included) and its
    checksum tag: no two different frames share it. *)
Theorem frame_preimage_binds (d d' : RpcDomain) (e e' r r' : Z) (l l' : list Symbol) :
  u64 e → u64 e' → u32 r → u32 r' → Forall Symbol_ok l → Forall Symbol_ok l' →
  frame_preimage d e l r = frame_preimage d' e' l' r' ↔ d = d' ∧ e = e' ∧ l = l' ∧ r = r'.
Proof. intros. split; [by apply frame_preimage_inj|by intros (-> & -> & -> & ->)]. Qed.

Lemma demo_symbols_ok : Forall Symbol_ok demo_symbols.
Proof. do 2 (constructor; [split; vm_compute; split; congruence|]). constructor. Qed.

Lemma frame_preimage_binds_witness :
  frame_preimage LinkData 7 demo_symbols 1 ≠ frame_preimage LinkData 7 (reverse demo_symbols) 1.
Proof.
  intros (_ & _ & El & _)%(frame_preimage_binds LinkData LinkData 7 7 1 1 demo_symbols
    (reverse demo_symbols) ltac:(vm_compute; split; congruence) ltac:(vm_compute; split; congruence)
    ltac:(vm_compute; split; congruence) ltac:(vm_compute; split; congruence) demo_symbols_ok
    (proj2 (Forall_reverse _ _) demo_symbols_ok)).
  discriminate El.
Defined.
