(* ===== verification/D3Protocol.v ===== *)
(** * luxstream-otap-d3: the protocol on a hostile network

    Any number of honest parties run the initiator, the responder and the session
    code of [handshake.rs] and [session.rs] in any interleaving; the network
    delivers whatever it likes.  Two idealisations, both premises of the steps: a
    delivered signature that verifies under an honest key was made by it
    ([unforged]), and the strings hashed in the run do not collide
    ([collision_free]).  The state logs what each honest key has signed together
    with the signature the code put on the wire; that this is the signature of
    the logged string is part of the invariant, not of the log. *)

From stdpp Require Import sets.
From S2P Require Import Prelude External D3Rpc D3Handshake D3Session.
Local Open Scope Z_scope.

(** ** What a D3 key signs *)

Inductive Signed : Type :=
| HelloR (nonce_i nonce_r : bytes)
| HelloI (nonce_r nonce_i : bytes)
| SealedFrame (domain : RpcDomain) (epoch : Z) (symbols : list Symbol) (tag : Z).

Definition preimage_of (x : Signed) : bytes :=
  match x with
  | HelloR ni nr => str_bytes "HELLO-R" ++ ni ++ nr
  | HelloI nr ni => str_bytes "HELLO-I" ++ nr ++ ni
  | SealedFrame d e l r => frame_preimage d e l r
  end.

Definition Signed_ok (x : Signed) : Prop :=
  match x with
  | HelloR n n' | HelloI n n' => array_ok NONCE_LEN n ∧ array_ok NONCE_LEN n'
  | SealedFrame _ e l r => u64 e ∧ Forall Symbol_ok l ∧ u32 r
  end.

(** Three uses of one key never meet on one string. *)
Lemma preimage_of_inj x y :
  Signed_ok x → Signed_ok y → preimage_of x = preimage_of y → x = y.
Proof.
  destruct x as [n n'|n n'|d e l r], y as [m m'|m m'|d' e' l' r']; cbn [preimage_of Signed_ok];
    intros Hx Hy E; try (exfalso; unfold frame_preimage in E; cbn in E; discriminate E).
  - destruct Hx as [[Hn _] _], Hy as [[Hm _] _]. apply app_inv_head in E.
    apply app_inj_length in E as [-> ->]; [done|congruence].
  - destruct Hx as [[Hn _] _], Hy as [[Hm _] _]. apply app_inv_head in E.
    apply app_inj_length in E as [-> ->]; [done|congruence].
  - destruct Hx as (? & ? & ?), Hy as (? & ? & ?).
    by apply frame_preimage_inj in E as (-> & -> & -> & ->).
Qed.

(** The signature of [x] under [sk]. *)
Definition signature_of `{Sha256} `{Ed25519} (sk : D3SigningKey) (x : Signed) : bytes :=
  sign_raw sk (sha256 (preimage_of x)).

Section protocol.
Context `{Sha256} `{Ed25519} `{!Sha256Spec}.
Context (honest : D3SigningKey → Prop) (used : Signed → Prop).

(** The strings hashed in the run do not collide. *)
Definition collision_free : Prop :=
  ∀ x y, used x → used y → sha256 (preimage_of x) = sha256 (preimage_of y) →
    preimage_of x = preimage_of y.

Record Net : Type := mkNet {
  signed : list (D3SigningKey * Signed * bytes);
  waiting_i : list InitiatorWaitMsg2;
  waiting_r : list ResponderWaitMsg3;
  sessions_i : list (bytes * bytes * D3Session);
  sessions_r : list (bytes * bytes * D3Session);
  opened : list (D3Session * RpcDomain * list Symbol);
}.

Definition net_init : Net := mkNet [] [] [] [] [] [].

(** A signature that verifies under an honest key was made with it. *)
Definition unforged (n : Net) (sig : bytes) : Prop :=
  ∀ sk d, honest sk → array_ok 32 d → ed_verify (d3_vk (verifying_key sk)) d sig = true →
    ∃ x sig', (sk, x, sig') ∈ signed n ∧ d = sha256 (preimage_of x).

(** Each step that signs logs the signature its message carries: [sig_r] of the
    reply, [sig_i] of the third message, [d3_sig] of the sealed frame. *)
Inductive step (n : Net) : Net → Prop :=
| StepStart sk peer nonce :
    honest sk → array_ok NONCE_LEN nonce →
    step n (mkNet (signed n) ((Initiator_start (mkInitiator sk peer) nonce).1 :: waiting_i n)
              (waiting_r n) (sessions_i n) (sessions_r n) (opened n))
| StepReply sk acl msg1 nonce w msg2 :
    honest sk → array_ok NONCE_LEN nonce → HsMsg1_ok msg1 →
    Responder_handle_msg1 (mkResponder sk acl) msg1 nonce = Ok (w, msg2) →
    used (HelloR (m1_nonce_i msg1) nonce) →
    step n (mkNet ((sk, HelloR (m1_nonce_i msg1) nonce, m2_sig_r msg2) :: signed n) (waiting_i n)
              (w :: waiting_r n) (sessions_i n) (sessions_r n) (opened n))
| StepFinish pre w post msg2 est msg3 :
    waiting_i n = pre ++ w :: post → HsMsg2_ok msg2 → unforged n (m2_sig_r msg2) →
    used (HelloR (w2_nonce_i w) (m2_nonce_r msg2)) →
    Initiator_finish w msg2 = Ok (est, msg3) →
    used (HelloI (m2_nonce_r msg2) (w2_nonce_i w)) →
    step n (mkNet ((w2_sk w, HelloI (m2_nonce_r msg2) (w2_nonce_i w), m3_sig_i msg3) :: signed n)
              (pre ++ post) (waiting_r n)
              ((w2_nonce_i w, m2_nonce_r msg2, from_client_handshake est (w2_sk w))
                 :: sessions_i n) (sessions_r n) (opened n))
| StepAccept pre w post msg3 est :
    waiting_r n = pre ++ w :: post → HsMsg3_ok msg3 → unforged n (m3_sig_i msg3) →
    used (HelloI (w3_nonce_r w) (w3_nonce_i w)) →
    Responder_handle_msg3 w msg3 = Ok est →
    step n (mkNet (signed n) (waiting_i n) (pre ++ post) (sessions_i n)
              ((w3_nonce_i w, w3_nonce_r w, from_server_handshake est (w3_sk w))
                 :: sessions_r n) (opened n))
| StepSeal ni nr s domain symbols :
    (ni, nr, s) ∈ sessions_i n ++ sessions_r n → Forall Symbol_ok symbols →
    let x := SealedFrame domain (epoch_nonce s) symbols (rpc_tag (seal s domain symbols)) in
    used x →
    step n (mkNet ((signing_key s, x, d3_sig (seal s domain symbols)) :: signed n)
              (waiting_i n) (waiting_r n)
              (sessions_i n) (sessions_r n) (opened n))
| StepOpen ni nr s domain frame symbols :
    (ni, nr, s) ∈ sessions_i n ++ sessions_r n →
    Forall Symbol_ok (frame_symbols frame) → unforged n (d3_sig frame) →
    used (SealedFrame domain (epoch_nonce s) (frame_symbols frame) (rpc_tag frame)) →
    open s domain frame = Ok symbols →
    step n (mkNet (signed n) (waiting_i n) (waiting_r n) (sessions_i n) (sessions_r n)
              ((s, domain, symbols) :: opened n)).

Inductive reachable : Net → Prop :=
| ReachInit : reachable net_init
| ReachStep n n' : reachable n → step n n' → reachable n'.

(** ** The invariant *)

(** What is known of each thing recorded in the state. *)
Definition signed_inv (n : Net) (p : D3SigningKey * Signed * bytes) : Prop :=
  let '(sk, x, sig) := p in
  used x ∧ Signed_ok x ∧ sig = signature_of sk x ∧
  match x with
  | HelloR _ _ => True
  | HelloI nr ni => ∃ s, (ni, nr, s) ∈ sessions_i n ∧ signing_key s = sk
  | SealedFrame d e l r =>
      ∃ ni nr s, (ni, nr, s) ∈ sessions_i n ++ sessions_r n ∧ signing_key s = sk ∧
        epoch_nonce s = e ∧ r = rpc_tag (seal s d l) ∧ sig = d3_sig (seal s d l)
  end.

(** [sk] has put its signature of [x] on the wire. *)
Definition has_signed (n : Net) (sk : D3SigningKey) (x : Signed) : Prop :=
  (sk, x, signature_of sk x) ∈ signed n.

Definition waiting_i_inv (w : InitiatorWaitMsg2) : Prop :=
  honest (w2_sk w) ∧ array_ok NONCE_LEN (w2_nonce_i w).

Definition waiting_r_inv (n : Net) (w : ResponderWaitMsg3) : Prop :=
  array_ok NONCE_LEN (w3_nonce_i w) ∧ array_ok NONCE_LEN (w3_nonce_r w) ∧
  has_signed n (w3_sk w) (HelloR (w3_nonce_i w) (w3_nonce_r w)).

Definition session_i_inv (n : Net) (p : bytes * bytes * D3Session) : Prop :=
  let '(ni, nr, s) := p in
  epoch_nonce s = derive_epoch_nonce ni nr ∧ has_signed n (signing_key s) (HelloI nr ni) ∧
  ∀ sk, honest sk → peer_key s = verifying_key sk → has_signed n sk (HelloR ni nr).

Definition session_r_inv (n : Net) (p : bytes * bytes * D3Session) : Prop :=
  let '(ni, nr, s) := p in
  epoch_nonce s = derive_epoch_nonce ni nr ∧ has_signed n (signing_key s) (HelloR ni nr) ∧
  ∀ sk, honest sk → peer_key s = verifying_key sk → has_signed n sk (HelloI nr ni).

Definition opened_inv (n : Net) (p : D3Session * RpcDomain * list Symbol) : Prop :=
  let '(s, d, l) := p in
  ∀ sk, honest sk → peer_key s = verifying_key sk →
    ∃ r, has_signed n sk (SealedFrame d (epoch_nonce s) l r).

Record Inv (n : Net) : Prop := {
  inv_signed : Forall (signed_inv n) (signed n);
  inv_waiting_i : Forall waiting_i_inv (waiting_i n);
  inv_waiting_r : Forall (waiting_r_inv n) (waiting_r n);
  inv_session_i : Forall (session_i_inv n) (sessions_i n);
  inv_session_r : Forall (session_r_inv n) (sessions_r n);
  inv_opened : Forall (opened_inv n) (opened n);
}.

(** The records only grow, and what is known stays known. *)
Record grows (n n' : Net) : Prop := {
  grows_signed : signed n ⊆ signed n';
  grows_i : sessions_i n ⊆ sessions_i n';
  grows_r : sessions_r n ⊆ sessions_r n';
}.

Section mono.
Context (n n' : Net) (G : grows n n').

Lemma grows_sessions : sessions_i n ++ sessions_r n ⊆ sessions_i n' ++ sessions_r n'.
Proof. destruct G. set_solver. Qed.

Lemma signed_inv_mono p : signed_inv n p → signed_inv n' p.
Proof.
  destruct p as [[sk x] sig]. intros (? & ? & ? & Hx). split_and!; [done..|]. destruct x.
  - done.
  - destruct Hx as (s & ? & ?). exists s. split; [|done]. by apply (grows_i _ _ G).
  - destruct Hx as (ni & nr & s & ? & ?). exists ni, nr, s. split; [|done].
    by apply grows_sessions.
Qed.

Lemma waiting_r_inv_mono w : waiting_r_inv n w → waiting_r_inv n' w.
Proof. intros (? & ? & ?). split_and!; [done..|]. by apply (grows_signed _ _ G). Qed.

Lemma session_i_inv_mono p : session_i_inv n p → session_i_inv n' p.
Proof.
  destruct p as [[ni nr] s]. intros (? & ? & Hk).
  split_and!; [done|by apply (grows_signed _ _ G)|]. intros.
  by apply (grows_signed _ _ G), Hk.
Qed.

Lemma session_r_inv_mono p : session_r_inv n p → session_r_inv n' p.
Proof.
  destruct p as [[ni nr] s]. intros (? & ? & Hk).
  split_and!; [done|by apply (grows_signed _ _ G)|]. intros.
  by apply (grows_signed _ _ G), Hk.
Qed.

Lemma opened_inv_mono p : opened_inv n p → opened_inv n' p.
Proof.
  destruct p as [[s d] l]. intros Hk sk ? ?. destruct (Hk sk) as [r ?]; [done..|].
  exists r. by apply (grows_signed _ _ G).
Qed.
End mono.

(** Show [Inv] of the next state: the old records by monotonicity, the new ones
    as goals. *)
Ltac inv_step HI G :=
  destruct HI as [I1 I2 I3 I4 I5 I6];
  constructor; cbn [signed waiting_i waiting_r sessions_i sessions_r opened];
  try (apply Forall_cons; split);
  try first
    [ done
    | apply (Forall_impl _ _ _ I1), signed_inv_mono, G
    | apply (Forall_impl _ _ _ I3), waiting_r_inv_mono, G
    | apply (Forall_impl _ _ _ I4), session_i_inv_mono, G
    | apply (Forall_impl _ _ _ I5), session_r_inv_mono, G
    | apply (Forall_impl _ _ _ I6), opened_inv_mono, G ].
Ltac grow := constructor; cbn [signed sessions_i sessions_r]; set_solver.

Context (Hcf : collision_free).

(** An accepted signature of an honest key pins down what was signed. *)
Lemma accepted n x sk sig :
  Inv n → unforged n sig → honest sk → used x → Signed_ok x →
  ed_verify (d3_vk (verifying_key sk)) (sha256 (preimage_of x)) sig = true →
  has_signed n sk x.
Proof.
  intros HI Hu Hh Hx Hok Hv.
  destruct (Hu sk _ Hh (sha256_array _) Hv) as (y & sig' & Hy & E).
  pose proof (inv_signed n HI) as Hs. rewrite Forall_forall in Hs.
  destruct (Hs _ Hy) as (Huy & Hoky & -> & _).
  apply Hcf in E; [|done..]. apply preimage_of_inj in E; [|done..]. by subst.
Qed.

Lemma epoch_u64 ni nr : u64 (derive_epoch_nonce ni nr).
Proof.
  unfold derive_epoch_nonce, hash_nonces.
  destruct (sha256_array (str_bytes "OTAP-EPOCH-v1" ++ ni ++ nr)) as [Hl Hb].
  apply (from_be_slice_uint 64); [done|lia|done].
Qed.

(** ** Each step keeps the invariant *)

Lemma inv_start n sk peer nonce :
  honest sk → array_ok NONCE_LEN nonce → Inv n →
  Inv (mkNet (signed n) ((Initiator_start (mkInitiator sk peer) nonce).1 :: waiting_i n)
         (waiting_r n) (sessions_i n) (sessions_r n) (opened n)).
Proof.
  intros Hs Hn HI.
  assert (∀ w, grows n (mkNet (signed n) (w :: waiting_i n) (waiting_r n) (sessions_i n)
    (sessions_r n) (opened n))) as G by (intros; grow).
  inv_step HI G.
Qed.

Lemma inv_reply n sk acl msg1 nonce w msg2 :
  honest sk → array_ok NONCE_LEN nonce → HsMsg1_ok msg1 →
  Responder_handle_msg1 (mkResponder sk acl) msg1 nonce = Ok (w, msg2) →
  used (HelloR (m1_nonce_i msg1) nonce) → Inv n →
  Inv (mkNet ((sk, HelloR (m1_nonce_i msg1) nonce, m2_sig_r msg2) :: signed n) (waiting_i n)
         (w :: waiting_r n) (sessions_i n) (sessions_r n) (opened n)).
Proof.
  intros Hs Hn [_ Hni] Hr Hu HI. unfold Responder_handle_msg1 in Hr.
  destruct (negb _); [done|]. destruct (D3VerifyingKey_from_bytes _) as [k|]; [|done].
  cbn [map_err rbind resp_sk] in Hr. injection Hr as <- <-.
  match goal with |- Inv ?n' => assert (grows n n') as G by grow end.
  inv_step HI G. split_and!; [done..|]. apply list_elem_of_here.
Qed.

Lemma inv_finish n pre w post msg2 est msg3 :
  waiting_i n = pre ++ w :: post → HsMsg2_ok msg2 → unforged n (m2_sig_r msg2) →
  used (HelloR (w2_nonce_i w) (m2_nonce_r msg2)) →
  Initiator_finish w msg2 = Ok (est, msg3) →
  used (HelloI (m2_nonce_r msg2) (w2_nonce_i w)) → Inv n →
  Inv (mkNet ((w2_sk w, HelloI (m2_nonce_r msg2) (w2_nonce_i w), m3_sig_i msg3) :: signed n)
         (pre ++ post) (waiting_r n)
         ((w2_nonce_i w, m2_nonce_r msg2, from_client_handshake est (w2_sk w)) :: sessions_i n)
         (sessions_r n) (opened n)).
Proof.
  intros Hw (_ & Hnr & _) Hun Hur Hf Hui HI.
  pose proof (inv_waiting_i n HI) as Hwi. rewrite Hw, Forall_app, Forall_cons in Hwi.
  destruct Hwi as (Hpre & [Hh Hni] & Hpost).
  unfold Initiator_finish in Hf. destruct (verify_raw _ _ _) as [[]|] eqn:Hv; [|done].
  cbn [map_err rbind] in Hf. injection Hf as <- <-. unfold verify_raw in Hv.
  destruct (ed_verify _ _ _) eqn:Hed; [|done].
  pose proof (λ sk Hs Hx, accepted n (HelloR (w2_nonce_i w) (m2_nonce_r msg2)) sk _ HI Hun Hs Hur
    (conj Hni Hnr) Hx) as Hacc.
  match goal with |- Inv ?n' => assert (grows n n') as G by grow end.
  inv_step HI G.
  - split_and!; [done..|]. eexists. split; [apply list_elem_of_here|done].
  - by apply Forall_app.
  - split_and!; [done|apply list_elem_of_here|].
    intros sk Hs Hk. apply list_elem_of_further, Hacc; [done|].
    cbn [from_client_handshake peer_key ei_peer_pk] in Hk. by rewrite <- Hk.
Qed.

Lemma inv_accept n pre w post msg3 est :
  waiting_r n = pre ++ w :: post → HsMsg3_ok msg3 → unforged n (m3_sig_i msg3) →
  used (HelloI (w3_nonce_r w) (w3_nonce_i w)) →
  Responder_handle_msg3 w msg3 = Ok est → Inv n →
  Inv (mkNet (signed n) (waiting_i n) (pre ++ post) (sessions_i n)
         ((w3_nonce_i w, w3_nonce_r w, from_server_handshake est (w3_sk w)) :: sessions_r n)
         (opened n)).
Proof.
  intros Hw _ Hun Hui Hf HI.
  pose proof (inv_waiting_r n HI) as Hwr. rewrite Hw, Forall_app, Forall_cons in Hwr.
  destruct Hwr as (Hpre & (Hni & Hnr & Hsig) & Hpost).
  unfold Responder_handle_msg3 in Hf. destruct (verify_raw _ _ _) as [[]|] eqn:Hv; [|done].
  cbn [map_err rbind] in Hf. injection Hf as <-. unfold verify_raw in Hv.
  destruct (ed_verify _ _ _) eqn:Hed; [|done].
  pose proof (λ sk Hs Hx, accepted n (HelloI (w3_nonce_r w) (w3_nonce_i w)) sk _ HI Hun Hs Hui
    (conj Hnr Hni) Hx) as Hacc.
  match goal with |- Inv ?n' => assert (grows n n') as G by grow end.
  inv_step HI G.
  - apply Forall_app. split; [apply (Forall_impl _ _ _ Hpre)|apply (Forall_impl _ _ _ Hpost)];
      by apply waiting_r_inv_mono.
  - split_and!; [done..|]. intros sk Hs Hk. apply Hacc; [done|].
    cbn [from_server_handshake peer_key er_peer_pk] in Hk. by rewrite <- Hk.
Qed.

Lemma session_epoch n ni nr s :
  Inv n → (ni, nr, s) ∈ sessions_i n ++ sessions_r n → u64 (epoch_nonce s).
Proof.
  intros HI [Hi|Hr]%elem_of_app.
  - pose proof (inv_session_i n HI) as F. rewrite Forall_forall in F.
    destruct (F _ Hi) as [-> _]. apply epoch_u64.
  - pose proof (inv_session_r n HI) as F. rewrite Forall_forall in F.
    destruct (F _ Hr) as [-> _]. apply epoch_u64.
Qed.

Lemma inv_seal n ni nr s domain symbols :
  (ni, nr, s) ∈ sessions_i n ++ sessions_r n → Forall Symbol_ok symbols →
  let x := SealedFrame domain (epoch_nonce s) symbols (rpc_tag (seal s domain symbols)) in
  used x → Inv n →
  Inv (mkNet ((signing_key s, x, d3_sig (seal s domain symbols)) :: signed n)
         (waiting_i n) (waiting_r n) (sessions_i n) (sessions_r n) (opened n)).
Proof.
  intros Hin Hsym x Hx HI. pose proof (session_epoch n ni nr s HI Hin) as He.
  match goal with |- Inv ?n' => assert (grows n n') as G by grow end.
  inv_step HI G. split_and!; [done| |done|].
  - cbn. split_and!; [done..|]. apply calculate_rpc_u32.
  - by exists ni, nr, s.
Qed.

Lemma inv_open n ni nr s domain frame symbols :
  (ni, nr, s) ∈ sessions_i n ++ sessions_r n →
  Forall Symbol_ok (frame_symbols frame) → unforged n (d3_sig frame) →
  used (SealedFrame domain (epoch_nonce s) (frame_symbols frame) (rpc_tag frame)) →
  open s domain frame = Ok symbols → Inv n →
  Inv (mkNet (signed n) (waiting_i n) (waiting_r n) (sessions_i n) (sessions_r n)
         ((s, domain, symbols) :: opened n)).
Proof.
  intros Hin Hsym Hun Hu Ho HI. pose proof (session_epoch n ni nr s HI Hin) as He.
  apply open_ok in Ho as (-> & Ht & Hv).
  match goal with |- Inv ?n' => assert (grows n n') as G by grow end.
  inv_step HI G. intros sk Hs Hk. exists (rpc_tag frame).
  eapply (accepted n (SealedFrame _ _ _ _)); try done.
  - cbn. split_and!; [done..|]. rewrite Ht. apply calculate_rpc_u32.
  - by rewrite <- Hk.
Qed.

Lemma reachable_inv n : reachable n → Inv n.
Proof.
  induction 1 as [|n n' _ IH Hst]; [constructor; constructor|].
  destruct Hst; [by apply inv_start|by eapply inv_reply|by eapply inv_finish|
    by eapply inv_accept|by eapply inv_seal|by eapply inv_open].
Qed.
End protocol.

(** ** Properties *)

(** C2: handshake agreement on a hostile network.  In every reachable state, every
    responder session stems from a reply of its own: its key has signed a HELLO-R
    over the session's two nonces, whoever the peer is; likewise every initiator
    session's key has signed its HELLO-I.  A responder that completed a handshake
    with an honest client's key shares its two nonces and its epoch nonce with an
    initiator session of that very client, which has signed the third message for
    them; an initiator that completed one with an honest server's key has had that
    server sign a reply to exactly its nonces.  Both epoch nonces are derived from
    the two nonces, and every signature named is the one the code put on the
    wire. *)
Theorem handshake_agreement `{Sha256} `{Ed25519} `{!Sha256Spec}
    (honest : D3SigningKey → Prop) (used : Signed → Prop) (n : Net)
    (ni nr : bytes) (s : D3Session) :
  collision_free used → reachable honest used n →
  ((ni, nr, s) ∈ sessions_r n →
     epoch_nonce s = derive_epoch_nonce ni nr ∧
     has_signed n (signing_key s) (HelloR ni nr) ∧
     ∀ sk, honest sk → peer_key s = verifying_key sk →
       has_signed n sk (HelloI nr ni) ∧
       ∃ s', (ni, nr, s') ∈ sessions_i n ∧ signing_key s' = sk ∧
         epoch_nonce s' = epoch_nonce s) ∧
  ((ni, nr, s) ∈ sessions_i n →
     epoch_nonce s = derive_epoch_nonce ni nr ∧
     has_signed n (signing_key s) (HelloI nr ni) ∧
     ∀ sk, honest sk → peer_key s = verifying_key sk → has_signed n sk (HelloR ni nr)).
Proof.
  intros Hcf HI%reachable_inv; [|done]. destruct HI as [I1 _ _ I4 I5 _].
  rewrite Forall_forall in I1. rewrite Forall_forall in I4, I5. split; [|apply I4].
  intros Hin. destruct (I5 _ Hin) as (He & Hr & Hi). split_and!; [done..|].
  intros sk Hs Hk. specialize (Hi sk Hs Hk). split; [done|].
  destruct (I1 _ Hi) as (_ & _ & _ & s' & Hs' & Hsk). exists s'. split_and!; [done..|].
  destruct (I4 _ Hs') as [-> _]. done.
Qed.

(** C6: frames are authentic.  In every reachable state, whatever a session has
    opened under an honest peer's key was sealed with that key, by a session of
    the same epoch nonce, in the same domain, with exactly these symbols; the
    signature logged for it is the one [seal] put on the frame, made with that key
    over the frame's canonical preimage. *)
Theorem opened_frames_authentic `{Sha256} `{Ed25519} `{!Sha256Spec}
    (honest : D3SigningKey → Prop) (used : Signed → Prop) (n : Net)
    (s : D3Session) (domain : RpcDomain) (symbols : list Symbol) (sk : D3SigningKey) :
  collision_free used → reachable honest used n → (s, domain, symbols) ∈ opened n →
  honest sk → peer_key s = verifying_key sk →
  ∃ ni nr s', (ni, nr, s') ∈ sessions_i n ++ sessions_r n ∧ signing_key s' = sk ∧
    epoch_nonce s' = epoch_nonce s ∧
    let frame := seal s' domain symbols in
    let x := SealedFrame domain (epoch_nonce s') symbols (rpc_tag frame) in
    (sk, x, d3_sig frame) ∈ signed n ∧ d3_sig frame = signature_of sk x.
Proof.
  intros Hcf HI%reachable_inv Hin Hs Hk; [|done]. destruct HI as [I1 _ _ _ _ I6].
  rewrite Forall_forall in I1. rewrite Forall_forall in I6. destruct (I6 _ Hin sk Hs Hk) as [r Hr].
  destruct (I1 _ Hr) as (_ & _ & _ & ni & nr & s' & Hs' & Hsk & He & E & Esig).
  exists ni, nr, s'. split_and!; [done..|]. cbv zeta. rewrite <- E, He, <- Esig. done.
Qed.

(** ** A run with toy primitives *)

Module Run.

#[local] Existing Instances Toy.toy_sha256 Toy.toy_sha256_spec Toy.toy_ed25519 Toy.toy_ed25519_spec.

Definition alice : D3SigningKey := demo_key 1.
Definition bob : D3SigningKey := demo_key 2.
Definition ni : bytes := replicate 32 3.
Definition nr : bytes := replicate 32 4.

Definition honest (sk : D3SigningKey) : Prop := sk = alice ∨ sk = bob.

Definition epoch : Z := derive_epoch_nonce ni nr.
Definition alice_session : D3Session := mkSession epoch alice (verifying_key bob).
Definition bob_session : D3Session := mkSession epoch bob (verifying_key alice).
Definition frame : AuthenticatedFrame := seal alice_session LinkData demo_symbols.

Definition hello_r : Signed := HelloR ni nr.
Definition hello_i : Signed := HelloI nr ni.
Definition sealed : Signed := SealedFrame LinkData epoch demo_symbols (rpc_tag frame).
Definition used (x : Signed) : Prop := x = hello_r ∨ x = hello_i ∨ x = sealed.

Lemma no_collision : collision_free used.
Proof.
intros x y Hx Hy E. destruct Hx as [-> | [-> | ->]], Hy as [-> | [-> | ->]];
  first [exfalso; vm_compute in E; discriminate E | exact eq_refl].
Qed.

Lemma nonces_ok : array_ok NONCE_LEN ni ∧ array_ok NONCE_LEN nr.
Proof.
split; (split; [done|apply Forall_replicate; vm_compute; split; congruence]).
Qed.

(** The two keys' signatures are told apart, and a signature determines what
  32-byte message it is for. *)
Lemma unforged_own sk x n :
honest sk → has_signed n sk x → unforged honest n (signature_of sk x).
Proof.
intros Hsk Hin sk' d Hsk' [Hd Hdb] Hv. apply bool_decide_eq_true in Hv.
assert (∀ m, length (Toy.first32 m) = 32%nat) as L32 by (intros; apply Toy.first32_ok).
apply app_inj_length in Hv as [Hk Hm]; [|by rewrite !L32].
assert (sk' = sk) as ->.
{ destruct Hsk as [-> | ->], Hsk' as [-> | ->];
    first [exfalso; vm_compute in Hk; discriminate Hk | exact eq_refl]. }
exists x, (signature_of sk x). split; [done|]. rewrite (Toy.first32_id d) in Hm by done.
rewrite <- Hm. apply Toy.first32_id, Toy.first32_ok.
Qed.

Definition wait_i : InitiatorWaitMsg2 := mkWaitMsg2 alice (verifying_key bob) ni.
Definition wait_r : ResponderWaitMsg3 := mkWaitMsg3 bob (verifying_key alice) ni nr.
Definition msg1 : HsMsg1 := mkMsg1 (vk_as_bytes (verifying_key alice)) ni.
Definition msg2 : HsMsg2 :=
mkMsg2 (vk_as_bytes (verifying_key bob)) nr (signature_of bob hello_r).
Definition msg3 : HsMsg3 :=
mkMsg3 (vk_as_bytes (verifying_key alice)) (signature_of alice hello_i).

Definition bob_signed : D3SigningKey * Signed * bytes := (bob, hello_r, m2_sig_r msg2).
Definition alice_signed : D3SigningKey * Signed * bytes := (alice, hello_i, m3_sig_i msg3).

(** The states of the run. *)
Definition net1 : Net := mkNet [] [wait_i] [] [] [] [].
Definition net2 : Net := mkNet [bob_signed] [wait_i] [wait_r] [] [] [].
Definition net3 : Net :=
mkNet [alice_signed; bob_signed] [] [wait_r] [(ni, nr, alice_session)] [] [].
Definition net4 : Net :=
mkNet [alice_signed; bob_signed] [] [] [(ni, nr, alice_session)]
  [(ni, nr, bob_session)] [].
Definition net5 : Net :=
mkNet [(alice, sealed, d3_sig frame); alice_signed; bob_signed] [] [] [(ni, nr, alice_session)]
  [(ni, nr, bob_session)] [].
Definition final : Net :=
mkNet [(alice, sealed, d3_sig frame); alice_signed; bob_signed] [] [] [(ni, nr, alice_session)]
  [(ni, nr, bob_session)] [(bob_session, LinkData, demo_symbols)].

Lemma key_ok sk : array_ok PUBKEY_LEN (vk_as_bytes (verifying_key sk)).
Proof. apply ed_vk_array. Qed.

Lemma net3_reachable : reachable honest used net3.
Proof.
destruct nonces_ok as [Hi Hr].
assert (reachable honest used net1) as R1.
{ exact (ReachStep _ _ _ _ (ReachInit _ _)
    (StepStart honest used net_init alice (verifying_key bob) ni (or_introl eq_refl) Hi)). }
assert (reachable honest used net2) as R2.
{ refine (ReachStep _ _ _ _ R1 (StepReply honest used net1 bob AllowAll msg1 nr wait_r msg2
    (or_intror eq_refl) Hr (conj (key_ok alice) Hi) _ (or_introl eq_refl))). reflexivity. }
refine (ReachStep _ _ _ _ R2 (StepFinish honest used net2 [] wait_i [] msg2
  (mkEstI epoch (verifying_key bob)) msg3 eq_refl _ _ (or_introl eq_refl) _
  (or_intror (or_introl eq_refl)))).
- split_and!; [apply key_ok|done|apply ed_sig_array].
- apply (unforged_own bob hello_r); [by right|apply list_elem_of_here].
- reflexivity.
Qed.

Lemma final_reachable : reachable honest used final.
Proof.
assert (reachable honest used net4) as R4.
{ refine (ReachStep _ _ _ _ net3_reachable (StepAccept honest used net3 [] wait_r [] msg3
    (mkEstR epoch (verifying_key alice)) eq_refl _ _ (or_intror (or_introl eq_refl)) _)).
  - split; [apply key_ok|apply ed_sig_array].
  - apply (unforged_own alice hello_i); [by left|apply list_elem_of_here].
  - reflexivity. }
assert (reachable honest used net5) as R5.
{ exact (ReachStep _ _ _ _ R4 (StepSeal honest used net4 ni nr alice_session LinkData
    demo_symbols (list_elem_of_here _ _) demo_symbols_ok (or_intror (or_intror eq_refl)))). }
refine (ReachStep _ _ _ _ R5 (StepOpen honest used net5 ni nr bob_session LinkData frame
  demo_symbols _ demo_symbols_ok _ (or_intror (or_intror eq_refl)) _)).
- apply list_elem_of_further, list_elem_of_here.
- apply (unforged_own alice sealed); [by left|apply list_elem_of_here].
- reflexivity.
Qed.

End Run.

#[local] Existing Instances Toy.toy_sha256 Toy.toy_sha256_spec Toy.toy_ed25519 Toy.toy_ed25519_spec.

Lemma handshake_agreement_witness :
  has_signed Run.final Run.bob Run.hello_r ∧
  ∃ s', (Run.ni, Run.nr, s') ∈ sessions_i Run.final ∧ signing_key s' = Run.alice ∧
    epoch_nonce s' = epoch_nonce Run.bob_session.
Proof.
  destruct (proj1 (handshake_agreement Run.honest Run.used Run.final Run.ni Run.nr
    Run.bob_session Run.no_collision Run.final_reachable) (list_elem_of_here _ _))
    as (_ & Hown & Hpeer).
  exact (conj Hown (proj2 (Hpeer Run.alice (or_introl eq_refl) eq_refl))).
Defined.

Lemma opened_frames_authentic_witness :
  ∃ ni nr s', (ni, nr, s') ∈ sessions_i Run.final ++ sessions_r Run.final ∧
    signing_key s' = Run.alice ∧ epoch_nonce s' = epoch_nonce Run.bob_session ∧
    let frame := seal s' LinkData demo_symbols in
    let x := SealedFrame LinkData (epoch_nonce s') demo_symbols (rpc_tag frame) in
    (Run.alice, x, d3_sig frame) ∈ signed Run.final ∧ d3_sig frame = signature_of Run.alice x.
Proof.
  exact (opened_frames_authentic Run.honest Run.used Run.final Run.bob_session LinkData
    demo_symbols Run.alice Run.no_collision Run.final_reachable (list_elem_of_here _ _)
    (or_introl eq_refl) eq_refl).
Defined.

(** C40: the identities are not bound.  The signatures cover the two nonces only, so
    a party [eve] to whom [alice] connects on purpose can pass alice's nonce on to
    [bob] under alice's name, sign bob's answer herself, and hand alice's third
    message to bob.  Alice then has a session with eve and bob one with alice, both
    with the same epoch nonce, and every frame alice seals for eve opens as
    alice's in bob's session. *)
Theorem identity_misbinding `{Sha256} `{Ed25519} `{!Ed25519Spec} (alice bob eve : D3SigningKey)
    (ni nr : bytes) (acl : ClientAcl) (domain : RpcDomain) (symbols : list Symbol) :
  acl (vk_as_bytes (verifying_key alice)) = true →
  let '(wait_a, msg1) := Initiator_start (mkInitiator alice (verifying_key eve)) ni in
  ∃ wait_b msg2 est_a msg3 est_b,
    Responder_handle_msg1 (mkResponder bob acl) msg1 nr = Ok (wait_b, msg2) ∧
    Initiator_finish wait_a
      (mkMsg2 (vk_as_bytes (verifying_key eve)) (m2_nonce_r msg2)
         (sign_raw eve (hash_nonces (str_bytes "HELLO-R") (m1_nonce_i msg1) (m2_nonce_r msg2))))
      = Ok (est_a, msg3) ∧
    Responder_handle_msg3 wait_b msg3 = Ok est_b ∧
    let sa := from_client_handshake est_a alice in
    let sb := from_server_handshake est_b bob in
    peer_key sa = verifying_key eve ∧ peer_key sb = verifying_key alice ∧
    epoch_nonce sa = epoch_nonce sb ∧
    open sb domain (seal sa domain symbols) = Ok symbols.
Proof.
  intros Hacl. cbn [Initiator_start init_sk init_peer_pk].
  unfold Responder_handle_msg1. cbn [resp_acl resp_sk m1_client_pk m1_nonce_i]. rewrite Hacl.
  unfold D3VerifyingKey_from_bytes, vk_as_bytes at 1. cbn [negb verifying_key d3_vk].
  rewrite ed_vk_roundtrip. cbn [map_err rbind].
  do 5 eexists. split; [reflexivity|]. cbn [m2_nonce_r]. unfold Initiator_finish, verify_raw.
  cbn [w2_peer_pk w2_nonce_i m2_nonce_r m2_sig_r w2_sk]. unfold sign_raw at 1.
  rewrite (ed_sign_verify (d3_sk eve)). cbn [map_err rbind]. split; [reflexivity|].
  unfold Responder_handle_msg3, verify_raw. cbn [w3_client_pk w3_nonce_i w3_nonce_r m3_sig_i].
  unfold sign_raw at 1. rewrite (ed_sign_verify (d3_sk alice)). cbn [map_err rbind].
  split; [reflexivity|]. split_and!; [reflexivity..|]. apply open_ok.
  split_and!; [reflexivity..|]. apply (ed_sign_verify (d3_sk alice)).
Qed.

Lemma identity_misbinding_witness :
  let '(wait_a, msg1) := Initiator_start (mkInitiator (demo_key 1) (verifying_key (demo_key 9)))
    (replicate 32 3) in
  ∃ wait_b msg2 est_a msg3 est_b,
    Responder_handle_msg1 (mkResponder (demo_key 2) AllowAll) msg1 (replicate 32 4)
      = Ok (wait_b, msg2) ∧
    Initiator_finish wait_a
      (mkMsg2 (vk_as_bytes (verifying_key (demo_key 9))) (m2_nonce_r msg2)
         (sign_raw (demo_key 9)
            (hash_nonces (str_bytes "HELLO-R") (m1_nonce_i msg1) (m2_nonce_r msg2))))
      = Ok (est_a, msg3) ∧
    Responder_handle_msg3 wait_b msg3 = Ok est_b ∧
    er_peer_pk est_b = verifying_key (demo_key 1).
Proof.
  destruct (identity_misbinding (demo_key 1) (demo_key 2) (demo_key 9) (replicate 32 3)
    (replicate 32 4) AllowAll LinkData [] eq_refl) as (wb & m2 & ea & m3 & eb & H1 & H2 & H3 & H4).
  exists wb, m2, ea, m3, eb. split; [exact H1|]. split; [exact H2|]. split; [exact H3|].
  exact (proj1 (proj2 H4)).
Defined.
