(* ===== verification/D3Transport.v ===== *)
(** * luxstream-otap-d3: the handshake over a byte stream

    Models [src/crates/luxstream-otap-d3/src/transport.rs].  An async function that
    awaits a TCP stream is a tree of its reads and writes ([io]), each with what
    follows for each outcome.  Two readings of it: on one stream whose bytes to
    arrive and write outcomes are given ([on_stream]), and as one of two peers on a
    connection, where a read waits for the bytes the other side has written and the
    network has delivered, in pieces of any size and at any time ([step]). *)

From stdpp Require Import relations.
From S2P Require Import Prelude External D3Rpc D3Handshake D3Session.
Local Open Scope Z_scope.

(** ** Programs that read and write *)

(** [stream.read_exact(&mut buf).await] for a buffer of [n] bytes and
    [stream.write_all(data).await]; an I/O error is its text. *)
Inductive io (A : Type) : Type :=
| Ret (a : A)
| ReadExact (n : nat) (k : result bytes string → io A)
| WriteAll (data : bytes) (k : result unit string → io A).
Arguments Ret {A} a.
Arguments ReadExact {A} n k.
Arguments WriteAll {A} data k.

Fixpoint io_bind {A B} (m : io A) (k : A → io B) : io B :=
  match m with
  | Ret a => k a
  | ReadExact n j => ReadExact n (λ r, io_bind (j r) k)
  | WriteAll data j => WriteAll data (λ r, io_bind (j r) k)
  end.

(** [?] *)
Definition io_try {A B} (m : io (result A HsError)) (k : A → io (result B HsError))
    : io (result B HsError) :=
  io_bind m (λ r, match r with Ok a => k a | Err e => Ret (Err e) end).
Notation "'await!' x '<-' m ';' k" := (io_try m (λ x, k))
  (at level 10, x name, m at level 100, k at level 200) : rust_scope.
Notation "'await_!' m ';' k" := (io_try m (λ _, k))
  (at level 10, m at level 100, k at level 200) : rust_scope.

(** With [.map_err(|e| HsError::Transport(e.to_string()))]. *)
Definition read_exact (n : nat) : io (result bytes HsError) :=
  ReadExact n (λ r, Ret (map_err Transport r)).
Definition write_all (data : bytes) : io (result unit HsError) :=
  WriteAll data (λ r, Ret (map_err Transport r)).

Section transport.
Context `{Sha256} `{Ed25519}.

(** [nonce_i] and [nonce_r]: the bytes the side draws from the generator. *)
Definition run_initiator (client_sk : D3SigningKey) (server_pk : D3VerifyingKey)
    (nonce_i : bytes) : io (result D3Session HsError) :=
  let '(wait_msg2, msg1) := Initiator_start (mkInitiator client_sk server_pk) nonce_i in
  await_! write_all (HsMsg1_encode msg1);
  await! buf2 <- read_exact MSG2_LEN;
  await! msg2 <- Ret (HsMsg2_decode buf2);
  await! r <- Ret (Initiator_finish wait_msg2 msg2);
  let '(established, msg3) := r in
  await_! write_all (HsMsg3_encode msg3);
  Ret (Ok (from_client_handshake established client_sk)).

Definition run_responder (server_sk : D3SigningKey) (acl : ClientAcl) (nonce_r : bytes)
    : io (result D3Session HsError) :=
  await! buf1 <- read_exact MSG1_LEN;
  await! msg1 <- Ret (HsMsg1_decode buf1);
  let responder := mkResponder server_sk acl in
  await! r <- Ret (Responder_handle_msg1 responder msg1 nonce_r);
  let '(wait_msg3, msg2) := r in
  await_! write_all (HsMsg2_encode msg2);
  await! buf3 <- read_exact MSG3_LEN;
  await! msg3 <- Ret (HsMsg3_decode buf3);
  await! established <- Ret (Responder_handle_msg3 wait_msg3 msg3);
  Ret (Ok (from_server_handshake established server_sk)).
End transport.

(** ** One side on a given stream *)

(** The bytes that will arrive before the end of the stream, the bytes written, and
    the fate of the coming writes (an empty list: they all succeed). *)
Record TcpStream : Type := mkStream {
  incoming : bytes;
  outgoing : bytes;
  write_fates : list (option string);
}.

Fixpoint on_stream {A} (p : io A) (s : TcpStream) : TcpStream * A :=
  match p with
  | Ret a => (s, a)
  | ReadExact n k =>
      if (length (incoming s) <? n)%nat then
        on_stream (k (Err "early eof"%string)) (mkStream [] (outgoing s) (write_fates s))
      else
        on_stream (k (Ok (take n (incoming s))))
          (mkStream (drop n (incoming s)) (outgoing s) (write_fates s))
  | WriteAll data k =>
      match write_fates s with
      | Some e :: fates => on_stream (k (Err e)) (mkStream (incoming s) (outgoing s) fates)
      | None :: fates => on_stream (k (Ok ())) (mkStream (incoming s) (outgoing s ++ data) fates)
      | [] => on_stream (k (Ok ())) (mkStream (incoming s) (outgoing s ++ data) [])
      end
  end.

(** A stream that carries [l] and whose writes succeed. *)
Definition carrying (l : bytes) : TcpStream := mkStream l [] [].

(** ** Two sides on a connection *)

Section connection.
Context {A : Type}.

(** A side: what it still does, the bytes that have arrived and are not read, the
    bytes it has written that are still under way, all it has written. *)
Record Peer : Type := mkPeer {
  todo : io A;
  inbox : bytes;
  flight : bytes;
  wrote : bytes;
}.

(** The function has returned, which drops the stream. *)
Definition ended (p : Peer) : Prop := ∃ a, todo p = Ret a.

(** What [p] can do opposite [q].  A read waits until its buffer can be filled, and
    fails when the other side has ended and all it wrote has arrived; a write fails
    at most when the other side has ended. *)
Inductive act (p q : Peer) : Peer → Prop :=
| ActWrite data k :
    todo p = WriteAll data k →
    act p q (mkPeer (k (Ok ())) (inbox p) (flight p ++ data) (wrote p ++ data))
| ActWriteFails data k e :
    todo p = WriteAll data k → ended q →
    act p q (mkPeer (k (Err e)) (inbox p) (flight p) (wrote p))
| ActRead n k :
    todo p = ReadExact n k → (n ≤ length (inbox p))%nat →
    act p q (mkPeer (k (Ok (take n (inbox p)))) (drop n (inbox p)) (flight p) (wrote p))
| ActEof n k :
    todo p = ReadExact n k → (length (inbox p) < n)%nat → ended q → flight q = [] →
    act p q (mkPeer (k (Err "early eof"%string)) [] (flight p) (wrote p)).

(** The network delivers some of the bytes [p] wrote to [q]. *)
Inductive delivers (p q : Peer) : Peer → Peer → Prop :=
| Deliver chunk rest :
    flight p = chunk ++ rest → chunk ≠ [] →
    delivers p q (mkPeer (todo p) (inbox p) rest (wrote p))
      (mkPeer (todo q) (inbox q ++ chunk) (flight q) (wrote q)).

Definition Conn : Type := Peer * Peer.

Inductive step (c : Conn) : Conn → Prop :=
| StepClient p : act c.1 c.2 p → step c (p, c.2)
| StepServer p : act c.2 c.1 p → step c (c.1, p)
| StepToServer p q : delivers c.1 c.2 p q → step c (p, q)
| StepToClient p q : delivers c.2 c.1 p q → step c (q, p).

Definition connect (client server : io A) : Conn :=
  (mkPeer client [] [] [], mkPeer server [] [] []).

(** *** Three messages in turn

    A client that writes [m1], reads [m2] and writes [m3] opposite a server that
    reads, writes and reads the same. *)

Context (m1 m2 m3 : bytes) (ra rb : A).
Context (k1 k3 j2 : result unit string → io A) (k2 j1 j3 : result bytes string → io A).
Let c0 : io A := WriteAll m1 k1.
Let c1 : io A := ReadExact (length m2) k2.
Let c2 : io A := WriteAll m3 k3.
Let s0 : io A := ReadExact (length m1) j1.
Let s1 : io A := WriteAll m2 j2.
Let s2 : io A := ReadExact (length m3) j3.
Hypothesis Hk1 : k1 (Ok ()) = c1.
Hypothesis Hk2 : k2 (Ok m2) = c2.
Hypothesis Hk3 : k3 (Ok ()) = Ret ra.
Hypothesis Hj1 : j1 (Ok m1) = s1.
Hypothesis Hj2 : j2 (Ok ()) = s2.
Hypothesis Hj3 : j3 (Ok m3) = Ret rb.

Hypothesis m1_some : (0 < length m1)%nat.
Hypothesis m2_some : (0 < length m2)%nat.
Hypothesis m3_some : (0 < length m3)%nat.

Definition exchanged : Conn := (mkPeer (Ret ra) [] [] (m1 ++ m3), mkPeer (Ret rb) [] [] m2).

(** The states of the exchange, with a bound on the steps still to come. *)
Inductive stage : nat → Conn → Prop :=
| Start :
    stage (6 + length m1 + length m2 + length m3) (mkPeer c0 [] [] [], mkPeer s0 [] [] [])
| FirstSent a f :
    a ++ f = m1 →
    stage (5 + length f + length m2 + length m3) (mkPeer c1 [] f m1, mkPeer s0 a [] [])
| FirstRead :
    stage (4 + length m2 + length m3) (mkPeer c1 [] [] m1, mkPeer s1 [] [] [])
| SecondSent a f :
    a ++ f = m2 →
    stage (3 + length f + length m3) (mkPeer c1 a [] m1, mkPeer s2 [] f m2)
| SecondRead :
    stage (2 + length m3) (mkPeer c2 [] [] m1, mkPeer s2 [] [] m2)
| ThirdSent a f :
    a ++ f = m3 →
    stage (1 + length f) (mkPeer (Ret ra) [] f (m1 ++ m3), mkPeer s2 a [] m2)
| Exchanged : stage 0 exchanged.

(** A message is complete in the inbox only when all of it has arrived. *)
Lemma arrived_all (a f m : bytes) : a ++ f = m → (length m ≤ length a)%nat → a = m ∧ f = [].
Proof.
  intros <-. rewrite length_app. intros Hl. assert (f = []) as -> by (apply nil_length_inv; lia).
  by rewrite app_nil_r.
Qed.

Lemma delivered_more (a f m chunk rest : bytes) :
  a ++ f = m → f = chunk ++ rest → chunk ≠ [] →
  (a ++ chunk) ++ rest = m ∧ (length rest < length f)%nat.
Proof.
  intros <- -> Hc. rewrite app_assoc, length_app. split; [done|]. destruct chunk; [done|]. cbn. lia.
Qed.

(** Take a step apart; what the state rules out is gone. *)
Ltac invert_step Hs :=
  inversion Hs as [p Hact|p Hact|p q Hdel|p q Hdel]; clear Hs; subst;
  match goal with
  | Hact : act _ _ _ |- _ =>
      inversion Hact as [data k E|data k e E [z Hz]|n k E Hl|n k E Hl [z Hz] Hf]; clear Hact
  | Hdel : delivers _ _ _ _ |- _ => inversion Hdel as [chunk rest E Hc]; clear Hdel
  end; subst; cbn [fst snd todo inbox flight wrote] in *;
  unfold c0, c1, c2, s0, s1, s2 in *; simplify_eq;
  try match goal with H : ?chunk ≠ [] |- _ => by destruct chunk end; try (cbn [length] in *; lia).

Lemma stage_step n c c' : stage n c → step c c' → ∃ n', (n' < n)%nat ∧ stage n' c'.
Proof.
  intros Hst Hs. destruct Hst as [|a f Ha| |a f Ha| |a f Ha|]; invert_step Hs.
  - rewrite Hk1. eexists. split; [|by apply (FirstSent [] m1)]. lia.
  - destruct (arrived_all a f _ Ha) as [-> ->]; [done|]. rewrite firstn_all, drop_all, Hj1.
    eexists. split; [|apply FirstRead]. cbn. lia.
  - destruct (delivered_more a _ _ chunk rest Ha eq_refl Hc) as [Ha' Hl].
    eexists. split; [|by apply (FirstSent (a ++ chunk) rest)]. cbn. lia.
  - rewrite Hj2. eexists. split; [|by apply (SecondSent [] m2)]. lia.
  - destruct (arrived_all a f _ Ha) as [-> ->]; [done|]. rewrite firstn_all, drop_all, Hk2.
    eexists. split; [|apply SecondRead]. cbn. lia.
  - destruct (delivered_more a _ _ chunk rest Ha eq_refl Hc) as [Ha' Hl].
    eexists. split; [|by apply (SecondSent (a ++ chunk) rest)]. cbn. lia.
  - rewrite Hk3. eexists. split; [|by apply (ThirdSent [] m3)]. lia.
  - destruct (arrived_all a f _ Ha) as [-> ->]; [done|]. rewrite firstn_all, drop_all, Hj3.
    eexists. split; [|apply Exchanged]. cbn. lia.
  - rewrite app_nil_r in Ha. subst a. lia.
  - destruct (delivered_more a _ _ chunk rest Ha eq_refl Hc) as [Ha' Hl].
    eexists. split; [|by apply (ThirdSent (a ++ chunk) rest)]. cbn. lia.
Qed.

(** While the exchange is not over, some step is possible. *)
Lemma stage_progress n c : stage n c → c = exchanged ∨ ∃ c', step c c'.
Proof.
  destruct 1 as [|a f Ha| |a f Ha| |a f Ha|]; [right..|by left].
  - eexists. apply StepClient. by eapply ActWrite.
  - destruct f as [|b f].
    + eexists. apply StepServer. eapply ActRead; [done|]. rewrite app_nil_r in Ha. by subst a.
    + eexists. apply StepToServer. by eapply (Deliver _ _ (b :: f) []); [rewrite app_nil_r|].
  - eexists. apply StepServer. by eapply ActWrite.
  - destruct f as [|b f].
    + eexists. apply StepClient. eapply ActRead; [done|]. rewrite app_nil_r in Ha. by subst a.
    + eexists. apply StepToClient. by eapply (Deliver _ _ (b :: f) []); [rewrite app_nil_r|].
  - eexists. apply StepClient. by eapply ActWrite.
  - destruct f as [|b f].
    + eexists. apply StepServer. eapply ActRead; [done|]. rewrite app_nil_r in Ha. by subst a.
    + eexists. apply StepToServer. by eapply (Deliver _ _ (b :: f) []); [rewrite app_nil_r|].
Qed.

Lemma stage_run k : ∀ n c c', stage n c → nsteps step k c c' → ∃ n', (n' + k ≤ n)%nat ∧ stage n' c'.
Proof.
  induction k as [|k IH]; intros n c c' Hst Hr; inversion Hr as [|? ? c1' ? Hs Hr']; subst.
  - exists n. split; [lia|done].
  - destruct (stage_step n c c1' Hst Hs) as (n1 & Hn & Hst1).
    destruct (IH n1 c1' c' Hst1 Hr') as (n2 & Hn2 & Hst2). exists n2. split; [lia|done].
Qed.

Lemma stage_finishes n : ∀ c, stage n c → rtc step c exchanged.
Proof.
  induction (lt_wf n) as [n _ IH]; intros c Hst.
  destruct (stage_progress n c Hst) as [->|[c' Hs]]; [done|].
  destruct (stage_step n c c' Hst Hs) as (n' & Hn & Hst'). by eapply rtc_l, IH.
Qed.

(** Every run of the two ends, in a bounded number of steps, with the exchange done. *)
Lemma exchange_completes k c :
  nsteps step k (connect c0 s0) c →
  (k ≤ 6 + length m1 + length m2 + length m3)%nat ∧ rtc step c exchanged ∧
  (c = exchanged ∨ ∃ c', step c c').
Proof.
  intros Hr. destruct (stage_run k _ _ c Start Hr) as (n & Hn & Hst).
  split_and!; [lia|by eapply stage_finishes|by eapply stage_progress].
Qed.

Lemma exchanged_final c : ¬ step exchanged c.
Proof. intros Hs. destruct (stage_step 0 _ c Exchanged Hs) as (n & Hn & _). lia. Qed.
End connection.

(** The messages of an undisturbed run. *)
Section run.
Context `{Sha256} `{Ed25519} `{!Ed25519Spec} (client server : D3SigningKey) (ni nr : bytes).

Definition run_msg1 : HsMsg1 := mkMsg1 (vk_as_bytes (verifying_key client)) ni.
Definition run_msg2 : HsMsg2 :=
  mkMsg2 (vk_as_bytes (verifying_key server)) nr
    (sign_raw server (hash_nonces (str_bytes "HELLO-R") ni nr)).
Definition run_msg3 : HsMsg3 :=
  mkMsg3 (vk_as_bytes (verifying_key client))
    (sign_raw client (hash_nonces (str_bytes "HELLO-I") nr ni)).
Definition run_epoch : Z := derive_epoch_nonce ni nr.

Lemma run_handle_msg1 acl :
  acl (vk_as_bytes (verifying_key client)) = true →
  Responder_handle_msg1 (mkResponder server acl) run_msg1 nr =
  Ok (mkWaitMsg3 server (verifying_key client) ni nr, run_msg2).
Proof.
  intros Hacl. unfold Responder_handle_msg1. cbn [resp_acl run_msg1 m1_client_pk].
  rewrite Hacl. cbn [negb]. unfold D3VerifyingKey_from_bytes, vk_as_bytes.
  cbn [verifying_key d3_vk]. by rewrite ed_vk_roundtrip.
Qed.

Lemma run_finish :
  Initiator_finish (mkWaitMsg2 client (verifying_key server) ni) run_msg2 =
  Ok (mkEstI run_epoch (verifying_key server), run_msg3).
Proof.
  unfold Initiator_finish, verify_raw. cbn [w2_peer_pk w2_nonce_i run_msg2 m2_nonce_r m2_sig_r].
  unfold sign_raw at 1. by rewrite (ed_sign_verify (d3_sk server)).
Qed.

Lemma run_handle_msg3 :
  Responder_handle_msg3 (mkWaitMsg3 server (verifying_key client) ni nr) run_msg3 =
  Ok (mkEstR run_epoch (verifying_key client)).
Proof.
  unfold Responder_handle_msg3, verify_raw. cbn [w3_client_pk w3_nonce_i w3_nonce_r run_msg3 m3_sig_i].
  unfold sign_raw at 1. by rewrite (ed_sign_verify (d3_sk client)).
Qed.

Hypothesis ni_ok : array_ok NONCE_LEN ni.
Hypothesis nr_ok : array_ok NONCE_LEN nr.

Lemma run_msg1_ok : HsMsg1_ok run_msg1.
Proof. split; [apply ed_vk_array|done]. Qed.
Lemma run_msg2_ok : HsMsg2_ok run_msg2.
Proof. split_and!; [apply ed_vk_array|done|apply ed_sig_array]. Qed.
Lemma run_msg3_ok : HsMsg3_ok run_msg3.
Proof. split; [apply ed_vk_array|apply ed_sig_array]. Qed.

(** The two functions take their three turns. *)
Lemma initiator_turns :
  ∃ k1 k2 k3,
    run_initiator client (verifying_key server) ni = WriteAll (HsMsg1_encode run_msg1) k1 ∧
    k1 (Ok ()) = ReadExact MSG2_LEN k2 ∧
    k2 (Ok (HsMsg2_encode run_msg2)) = WriteAll (HsMsg3_encode run_msg3) k3 ∧
    k3 (Ok ()) = Ret (Ok (mkSession run_epoch client (verifying_key server))).
Proof.
  do 3 eexists. split; [reflexivity|]. split; [reflexivity|].
  destruct (HsMsg2_round_trip _ run_msg2_ok) as [D2 _].
  cbn [map_err io_bind]. unfold io_try at 1. rewrite D2. cbn [io_bind].
  unfold io_try at 1. cbn [init_sk init_peer_pk]. rewrite run_finish. cbn [io_bind]. split; reflexivity.
Qed.

Lemma responder_turns acl :
  acl (vk_as_bytes (verifying_key client)) = true →
  ∃ j1 j2 j3,
    run_responder server acl nr = ReadExact MSG1_LEN j1 ∧
    j1 (Ok (HsMsg1_encode run_msg1)) = WriteAll (HsMsg2_encode run_msg2) j2 ∧
    j2 (Ok ()) = ReadExact MSG3_LEN j3 ∧
    j3 (Ok (HsMsg3_encode run_msg3)) = Ret (Ok (mkSession run_epoch server (verifying_key client))).
Proof.
  intros Hacl. destruct (HsMsg1_round_trip _ run_msg1_ok) as [D1 _].
  destruct (HsMsg3_round_trip _ run_msg3_ok) as [D3 _].
  do 3 eexists. split; [reflexivity|]. cbn [map_err io_bind].
  unfold io_try at 1. rewrite D1. cbn [io_bind]. unfold io_try at 1. rewrite run_handle_msg1 by done.
  cbn [io_bind]. split; [reflexivity|]. split; [reflexivity|]. cbn [map_err io_bind].
  unfold io_try at 1. rewrite D3. cbn [io_bind]. unfold io_try. rewrite run_handle_msg3. reflexivity.
Qed.
End run.

(** ** Properties *)

(** C33: a connection that is not cut.  Run the two functions as the two ends of a
    connection, the network delivering what they write in pieces of any size, at any
    time, and the two sides taking their turns in any order; let the responder's access
    list admit the client.  Then no run is longer than six actions and one delivery per
    byte; as long as the handshake is not over some step is possible, so the two never
    wait for each other; and every run can only end, and does end, with both functions
    returned, the client having written exactly the encodings of its first and third
    message and the server exactly that of its second, no byte unread or under way, and
    sessions with the epoch nonce of the two nonces and each other's keys, in which every
    frame either side seals opens on the other. *)
Theorem transport_establishes `{Sha256} `{Ed25519} `{!Ed25519Spec}
    (client server : D3SigningKey) (ni nr : bytes) (acl : ClientAcl) :
  array_ok NONCE_LEN ni → array_ok NONCE_LEN nr →
  acl (vk_as_bytes (verifying_key client)) = true →
  let sc := mkSession (derive_epoch_nonce ni nr) client (verifying_key server) in
  let ss := mkSession (derive_epoch_nonce ni nr) server (verifying_key client) in
  let start := connect (run_initiator client (verifying_key server) ni) (run_responder server acl nr) in
  let final :=
    (mkPeer (Ret (Ok sc)) [] []
       (HsMsg1_encode (run_msg1 client ni) ++ HsMsg3_encode (run_msg3 client ni nr)),
     mkPeer (Ret (Ok ss)) [] [] (HsMsg2_encode (run_msg2 server ni nr))) in
  (∀ k c, nsteps step k start c →
     (k ≤ 6 + MSG1_LEN + MSG2_LEN + MSG3_LEN)%nat ∧ rtc step c final ∧
     (c = final ∨ ∃ c', step c c')) ∧
  (∀ c, ¬ step final c) ∧
  ∀ domain symbols,
    open ss domain (seal sc domain symbols) = Ok symbols ∧
    open sc domain (seal ss domain symbols) = Ok symbols.
Proof.
  intros Hi Hr Hacl sc ss start final.
  destruct (HsMsg1_round_trip _ (run_msg1_ok client ni Hi)) as [_ [L1 _]].
  destruct (HsMsg2_round_trip _ (run_msg2_ok server ni nr Hr)) as [_ [L2 _]].
  destruct (HsMsg3_round_trip _ (run_msg3_ok client ni nr)) as [_ [L3 _]].
  destruct (initiator_turns client server ni nr Hr) as (k1 & k2 & k3 & Ec & Hk1 & Hk2 & Hk3).
  destruct (responder_turns client server ni nr Hi acl Hacl) as (j1 & j2 & j3 & Es & Hj1 & Hj2 & Hj3).
  unfold start. rewrite Ec, Es. rewrite <- L1, <- L2, <- L3 in *. split_and!.
  - intros k c Hk. eapply exchange_completes; try eassumption; rewrite ?L1, ?L2, ?L3; apply Nat.ltb_lt; reflexivity.
  - intros c. eapply exchanged_final; try eassumption; rewrite ?L1, ?L2, ?L3; apply Nat.ltb_lt; reflexivity.
  - intros domain symbols. split; apply open_ok; (split_and!; [done..|]); apply ed_sign_verify.
Qed.

#[local] Existing Instances Toy.toy_sha256 Toy.toy_sha256_spec Toy.toy_ed25519 Toy.toy_ed25519_spec.

Lemma demo_nonce_ok n : u8 n → array_ok NONCE_LEN (replicate 32 n).
Proof. intros. split; [done|by apply Forall_replicate]. Qed.

(** The connection of the test: it comes to its end, with the client's session open
    opposite the server's. *)
Lemma transport_establishes_witness :
  let start := connect (run_initiator (demo_key 1) (verifying_key (demo_key 2)) (replicate 32 3))
                 (run_responder (demo_key 2) AllowAll (replicate 32 4)) in
  let epoch := derive_epoch_nonce (replicate 32 3) (replicate 32 4) in
  ∃ c, rtc step start c ∧ (∀ c', ¬ step c c') ∧
    todo c.1 = Ret (Ok (mkSession epoch (demo_key 1) (verifying_key (demo_key 2)))) ∧
    todo c.2 = Ret (Ok (mkSession epoch (demo_key 2) (verifying_key (demo_key 1)))).
Proof.
  destruct (transport_establishes (demo_key 1) (demo_key 2) (replicate 32 3) (replicate 32 4)
    AllowAll (demo_nonce_ok 3 ltac:(vm_compute; split; congruence))
    (demo_nonce_ok 4 ltac:(vm_compute; split; congruence)) eq_refl) as (Hrun & Hfin & _).
  destruct (Hrun 0%nat _ (nsteps_O _ _)) as (_ & Hr & _).
  eexists. split; [exact Hr|]. split; [exact Hfin|]. split; reflexivity.
Defined.

(** What each side gives away when it refuses.  On any stream with at least a
    first message, a responder whose access list does not admit the client's key
    stops with [NotAuthorized] having written nothing.  On any stream with at
    least a second message, an initiator whose check of the server's signature
    fails stops with [BadServerSig] having written its first message only: it has
    signed nothing.  A stream that ends early is a transport error. *)
Theorem transport_refuses `{Sha256} `{Ed25519} (sk : D3SigningKey) (server_pk : D3VerifyingKey)
    (nonce : bytes) (acl : ClientAcl) (input : bytes) :
  let pk := slice (take MSG1_LEN input) 0 PUBKEY_LEN in
  let msg2 := take MSG2_LEN input in
  let msg1 := HsMsg1_encode (mkMsg1 (vk_as_bytes (verifying_key sk)) nonce) in
  (if (length input <? MSG1_LEN)%nat then
     on_stream (run_responder sk acl nonce) (carrying input) =
       (mkStream [] [] [], Err (Transport "early eof"))
   else
     acl pk = false →
     on_stream (run_responder sk acl nonce) (carrying input) =
       (mkStream (drop MSG1_LEN input) [] [], Err NotAuthorized)) ∧
  (if (length input <? MSG2_LEN)%nat then
     on_stream (run_initiator sk server_pk nonce) (carrying input) =
       (mkStream [] msg1 [], Err (Transport "early eof"))
   else
     ed_verify (d3_vk server_pk)
       (hash_nonces (str_bytes "HELLO-R") nonce
          (slice msg2 PUBKEY_LEN (PUBKEY_LEN + NONCE_LEN)))
       (slice msg2 (PUBKEY_LEN + NONCE_LEN) MSG2_LEN) = false →
     on_stream (run_initiator sk server_pk nonce) (carrying input) =
       (mkStream (drop MSG2_LEN input) msg1 [], Err BadServerSig)).
Proof.
  cbv zeta. unfold carrying. split.
  - unfold run_responder, read_exact, io_try, HsMsg1_decode, Responder_handle_msg1.
    cbn [io_bind map_err on_stream incoming outgoing write_fates resp_acl m1_client_pk].
    destruct (length input <? MSG1_LEN)%nat; [done|]. intros Hacl. by rewrite Hacl.
  - unfold run_initiator, read_exact, write_all, io_try, HsMsg2_decode, Initiator_finish, verify_raw.
    cbn [Initiator_start init_sk init_peer_pk io_bind map_err on_stream incoming outgoing write_fates app
      w2_peer_pk w2_nonce_i m2_nonce_r m2_sig_r].
    destruct (length input <? MSG2_LEN)%nat; [done|]. intros Hv. by rewrite Hv.
Qed.
