(* ===== verification/ReplayCache.v ===== *)
(** * luxstream-otap-d3: the persistent replay cache

    Models [src/crates/luxstream-otap-d3/src/replay_cache.rs].  The file is its
    bytes; the outcome of the disk operations of a call is an argument.  Byte
    offsets are [usize] products, which wrap as in the release profile (no
    overflow checks). *)

From S2P Require Import Prelude.
Local Open Scope Z_scope.

Definition HASH_SIZE : nat := 32.

Record PersistentReplayCache : Type := mkCache {
  file : bytes;
  capacity : nat;
  current_idx : nat;
  in_memory_cache : list bytes;
}.

(** The reading loop of [open]: at most [fuel] rounds, [loaded] hashes so far.
    A short read ends it. *)
Fixpoint load (fuel : nat) (rest : bytes) (capacity loaded : nat) (cache : list bytes)
    : list bytes * nat :=
  match fuel with
  | O => (cache, loaded)
  | S fuel =>
      let buf := take HASH_SIZE rest in
      if (length buf =? HASH_SIZE)%nat then
        let cache := cache ++ [buf] in
        let loaded := S loaded in
        if (capacity <=? loaded)%nat then (cache, loaded)
        else load fuel (drop HASH_SIZE rest) capacity loaded cache
      else (cache, loaded)
  end.

(** [n * HASH_SIZE] in [usize]. *)
Definition byte_offset (n : nat) : nat := Z.to_nat (wrap 64 (Z.of_nat (n * HASH_SIZE))).

(** How the disk operations of [open] end; a failing read ends the loop, after
    the given number of reads. *)
Inductive OpenFate : Type :=
| OpenWorks
| OpenFails
| RewindFails
| ReadFails (reads : nat)
| MetadataFails
| SetLenFails.

(** The [io::Error]s of [open]. *)
Inductive IoError : Type := OpenError | RewindError | MetadataError | SetLenError.

(** [open] on a file with the given content (empty when it was just created);
    [loaded % capacity] panics for capacity 0. *)
Definition cache_open (fate : OpenFate) (content : bytes) (capacity : nat)
    : outcome (result PersistentReplayCache IoError) :=
  match fate with
  | OpenFails => Done (Err OpenError)
  | RewindFails => Done (Err RewindError)
  | _ =>
      let rounds := match fate with ReadFails reads => reads | _ => S (length content) end in
      let '(cache, loaded) := load rounds content capacity 0 [] in
      if (capacity =? 0)%nat then Panic
      else
        let current_idx := (loaded mod capacity)%nat in
        let expected_file_size := byte_offset capacity in
        match fate with
        | MetadataFails => Done (Err MetadataError)
        | _ =>
            if (length content <? expected_file_size)%nat then
              match fate with
              | SetLenFails => Done (Err SetLenError)
              | _ =>
                  let file := content ++ replicate (expected_file_size - length content) 0 in
                  Done (Ok (mkCache file capacity current_idx cache))
              end
            else Done (Ok (mkCache content capacity current_idx cache))
        end
  end.

(** Writing at an offset; a gap after the end of the file reads as zeros. *)
Definition write_at (f : bytes) (off : nat) (src : bytes) : bytes :=
  if decide (src = []) then f else splice (f ++ replicate (off - length f) 0) off src.

(** How the disk operations of one call end. *)
Inductive DiskFate : Type :=
| DiskOk
| SeekFails
| WriteFails (written : nat)
| SyncFails.

Definition check_and_insert (transcript : bytes) (fate : DiskFate)
    : state_result PersistentReplayCache unit string :=
  λ c,
    if decide (transcript ∈ in_memory_cache c) then (c, Err "ReplayDetected"%string)
    else
      let cache :=
        if (length (in_memory_cache c) <? capacity c)%nat
        then in_memory_cache c ++ [transcript]
        else <[current_idx c := transcript]> (in_memory_cache c) in
      let offset := byte_offset (current_idx c) in
      match fate with
      | SeekFails =>
          (mkCache (file c) (capacity c) (current_idx c) cache, Err "Disk seek error"%string)
      | WriteFails written =>
          (mkCache (write_at (file c) offset (take written transcript)) (capacity c)
             (current_idx c) cache, Err "Disk write error"%string)
      | SyncFails =>
          (mkCache (write_at (file c) offset transcript) (capacity c) (current_idx c) cache,
           Err "Disk sync error"%string)
      | DiskOk =>
          (mkCache (write_at (file c) offset transcript) (capacity c)
             ((current_idx c + 1) mod capacity c)%nat cache, Ok ())
      end.

(** ** What the cache promises: the newest [capacity] transcripts *)

(** The remembered transcripts, oldest first. *)
Definition spec_insert (cap : nat) (w : list bytes) (t : bytes) : list bytes :=
  if decide (t ∈ w) then w else newest cap (w ++ [t]).

(** The ring: slots [current_idx..] are the oldest, slots before it the newest. *)
Record represents (c : PersistentReplayCache) (w : list bytes) : Prop := {
  rep_idx : (current_idx c < capacity c)%nat;
  rep_len : (length w ≤ capacity c)%nat;
  rep_ring : ∃ a b, in_memory_cache c = a ++ b ∧ w = b ++ a ∧ length a = current_idx c ∧
    ((length w < capacity c)%nat → b = []);
}.

Lemma represents_elem c w t : represents c w → t ∈ in_memory_cache c ↔ t ∈ w.
Proof.
  intros [_ _ (a & b & -> & -> & _)]. rewrite !elem_of_app. tauto.
Qed.

Lemma represents_length c w : represents c w → length (in_memory_cache c) = length w.
Proof. intros [_ _ (a & b & -> & -> & _)]. rewrite !length_app. lia. Qed.

(** The state after writing slot [length a]. *)
Lemma ring_advance f cap a b t :
  (length a + 1 + length b ≤ cap)%nat → ((length a + 1 + length b < cap)%nat → b = []) →
  represents (mkCache f cap ((length a + 1) mod cap) (a ++ t :: b)) (b ++ a ++ [t]).
Proof.
  intros Hl Hb.
  assert (length (b ++ a ++ [t]) = length a + 1 + length b)%nat as Hlw
    by (rewrite !length_app; cbn; lia).
  destruct (decide (length a + 1 = cap)%nat) as [<-|Hne].
  - destruct b; [|cbn in Hl; lia]. rewrite Nat.Div0.mod_same.
    constructor; cbn [current_idx capacity in_memory_cache]; [lia..|].
    exists [], (a ++ [t]). rewrite app_nil_r. split_and!; try done. rewrite Hlw. cbn. lia.
  - rewrite Nat.mod_small by lia.
    constructor; cbn [current_idx capacity in_memory_cache]; [lia..|].
    exists (a ++ [t]), b. rewrite <- app_assoc. split_and!; [done..|by rewrite length_app|].
    rewrite Hlw. intros. apply Hb. lia.
Qed.

Lemma insert_represents c w t :
  represents c w →
  represents (check_and_insert t DiskOk c).1 (spec_insert (capacity c) w t) ∧
  (check_and_insert t DiskOk c).2 =
    (if decide (t ∈ w) then Err "ReplayDetected"%string else Ok ()).
Proof.
  intros Hw. unfold check_and_insert, spec_insert. pose proof (represents_elem c w t Hw) as He.
  destruct (decide (t ∈ in_memory_cache c)), (decide (t ∈ w)); try tauto.
  split; [|done]. cbn [fst]. rewrite (represents_length c w Hw).
  destruct Hw as [Hi Hl (a & b & Hm & -> & Ha & Hb)]. rewrite length_app in *. rewrite <- Ha.
  destruct (Nat.ltb_spec (length b + length a) (capacity c)) as [Hlt|Hge].
  - specialize (Hb Hlt). subst b. cbn [app length Nat.add] in *. rewrite app_nil_r in Hm. rewrite Hm.
    rewrite newest_all by (rewrite length_app; cbn; lia).
    apply (ring_advance _ _ a []); cbn; [lia|done].
  - destruct b as [|x b]; [cbn in *; lia|]. cbn [app length] in *.
    assert (newest (capacity c) (x :: (b ++ a) ++ [t]) = b ++ a ++ [t]) as ->.
    { unfold newest. cbn [length]. rewrite !length_app. cbn [length].
      replace (S (length b + length a + 1) - capacity c)%nat with 1%nat by lia.
      cbn. by rewrite app_assoc. }
    assert (<[length a:=t]> (in_memory_cache c) = a ++ t :: b) as ->.
    { rewrite Hm. replace (length a) with (length a + 0)%nat by lia. by rewrite insert_app_r. }
    apply ring_advance; [lia|]. intros. lia.
Qed.

(** ** The file *)

(** The file's slots: the hashes in memory, then blanks. *)
Definition blank : bytes := replicate HASH_SIZE 0.

Definition slots_of (c : PersistentReplayCache) : list bytes :=
  in_memory_cache c ++ replicate (capacity c - length (in_memory_cache c)) blank.

Definition all_hashes (l : list bytes) : Prop := Forall (λ t, length t = HASH_SIZE) l.

Record synced (c : PersistentReplayCache) : Prop := {
  syn_file : file c = concat (slots_of c);
  syn_hashes : all_hashes (in_memory_cache c);
}.

Lemma length_concat_hashes l : all_hashes l → length (concat l) = (length l * HASH_SIZE)%nat.
Proof. induction 1 as [|t l Ht _ IH]; [done|]. cbn [concat length]. rewrite length_app, IH. lia. Qed.

(** Offsets of a cache whose size fits [usize]. *)
Definition fits (cap : nat) : Prop := Z.of_nat (cap * HASH_SIZE) < 2 ^ 64.

Lemma byte_offset_fits cap n : fits cap → (n ≤ cap)%nat → byte_offset n = (n * HASH_SIZE)%nat.
Proof.
  unfold fits, byte_offset. intros Hf Hn. rewrite wrap_small; [by rewrite Nat2Z.id|].
  assert (n * HASH_SIZE ≤ cap * HASH_SIZE)%nat by (by apply Nat.mul_le_mono_r).
  unfold in_uint. lia.
Qed.

Lemma write_at_inside f off src :
  src ≠ [] → (off ≤ length f)%nat → write_at f off src = splice f off src.
Proof.
  intros Hs Ho. unfold write_at. rewrite decide_False by done.
  replace (off - length f)%nat with 0%nat by lia. by rewrite app_nil_r.
Qed.

Lemma splice_app_r {A} (p l : list A) off src :
  splice (p ++ l) (length p + off) src = p ++ splice l off src.
Proof.
  unfold splice. rewrite take_app_add, <- Nat.add_assoc, drop_app_add. by rewrite <- app_assoc.
Qed.

Lemma splice_slot l i t :
  all_hashes l → length t = HASH_SIZE → (i < length l)%nat →
  splice (concat l) (i * HASH_SIZE) t = concat (<[i := t]> l).
Proof.
  intros Hl Ht. revert i. induction Hl as [|x l Hx Hl IH]; intros i Hi; [cbn in Hi; lia|].
  destruct i as [|i]; cbn [concat Nat.mul length] in *.
  - unfold splice. cbn [take app Nat.add]. rewrite Ht, <- Hx, drop_app_length. done.
  - rewrite <- Hx at 1. rewrite splice_app_r. cbn. f_equal. apply IH. lia.
Qed.

Lemma slots_hashes c : synced c → all_hashes (slots_of c).
Proof.
  intros [_ Hh]. apply Forall_app. split; [done|]. by apply Forall_replicate.
Qed.

Lemma slots_length c w : represents c w → length (slots_of c) = capacity c.
Proof.
  intros Hw. unfold slots_of. rewrite length_app, length_replicate.
  rewrite (represents_length _ _ Hw). destruct Hw. lia.
Qed.

Lemma insert_synced c w t :
  represents c w → synced c → fits (capacity c) → length t = HASH_SIZE →
  synced (check_and_insert t DiskOk c).1.
Proof.
  intros Hw Hs Hfit Ht. pose proof (slots_hashes c Hs) as Hsh. pose proof (slots_length c w Hw) as Hsl.
  unfold check_and_insert. case_decide; [done|]. cbn [fst].
  pose proof (represents_length c w Hw) as Hlen.
  destruct Hs as [Hf Hh], Hw as [Hi Hl (a & b & Hm & -> & Ha & Hb)].
  constructor; cbn [file in_memory_cache slots_of capacity].
  - rewrite (byte_offset_fits (capacity c)) by (done || lia).
    rewrite write_at_inside; [|by intros ->|].
    2: { rewrite Hf, length_concat_hashes, Hsl by done. apply Nat.mul_le_mono_r. lia. }
    rewrite Hf, splice_slot by (done || lia). f_equal.
    destruct (Nat.ltb_spec (length (in_memory_cache c)) (capacity c)) as [Hlt|Hge].
    + rewrite <- Hlen in Hb. specialize (Hb Hlt). subst b. rewrite app_nil_r in Hm.
      unfold slots_of. cbn [in_memory_cache capacity]. rewrite <- Ha, Hm, length_app.
      rewrite Hm in Hlt. replace (length a) with (length a + 0)%nat at 1 by lia.
      rewrite insert_app_r. cbn [length].
      replace (capacity c - length a)%nat with (S (capacity c - (length a + 1))) by lia.
      cbn. by rewrite <- app_assoc.
    + unfold slots_of. cbn [in_memory_cache capacity].
      rewrite length_insert, insert_app_l by lia. done.
  - destruct (_ <? _)%nat; [apply Forall_app; by split; [|constructor]|by apply Forall_insert].
Qed.

(** ** Opening *)

Lemma load_slots cap l : ∀ fuel loaded acc,
  all_hashes l → (length l < fuel)%nat → (loaded + length l = cap)%nat →
  load fuel (concat l) cap loaded acc = (acc ++ l, cap).
Proof.
  induction l as [|x l IH]; intros fuel loaded acc Hl Hf Hc;
    (destruct fuel as [|fuel]; [cbn in Hf; lia|]); cbn [concat load].
  - rewrite take_nil, app_nil_r. cbn in *. by replace loaded with cap by lia.
  - apply Forall_cons in Hl as [Hx Hl]. rewrite <- Hx, take_app_length, drop_app_length.
    rewrite Hx, Nat.eqb_refl. cbn [length] in *. destruct (Nat.leb_spec cap (S loaded)) as [Hd|Hd].
    + assert (length l = 0)%nat as ->%nil_length_inv by lia. by replace (S loaded) with cap by lia.
    + rewrite IH by (done || lia). by rewrite <- app_assoc.
Qed.

Definition fresh (cap : nat) : PersistentReplayCache :=
  mkCache (replicate (byte_offset cap) 0) cap 0 [].

Lemma open_fresh cap : (1 ≤ cap)%nat → cache_open OpenWorks [] cap = Done (Ok (fresh cap)).
Proof.
  intros Hc. unfold cache_open. cbn [length load take Nat.eqb HASH_SIZE].
  destruct (Nat.eqb_spec cap 0); [lia|]. rewrite Nat.Div0.mod_0_l. unfold fresh.
  destruct (Nat.ltb_spec 0 (byte_offset cap)).
  - cbn [app]. by rewrite Nat.sub_0_r.
  - by replace (byte_offset cap) with 0%nat by lia.
Qed.

Lemma fresh_represents cap : (1 ≤ cap)%nat → represents (fresh cap) [].
Proof.
  intros Hc. constructor; cbn [fresh current_idx capacity in_memory_cache length]; [lia..|].
  by exists [], [].
Qed.

Lemma fresh_synced cap : fits cap → synced (fresh cap).
Proof.
  intros Hc. constructor; cbn [fresh in_memory_cache file].
  - rewrite (byte_offset_fits cap) by done. unfold slots_of. cbn [fresh in_memory_cache capacity app length]. rewrite Nat.sub_0_r.
    clear Hc. induction cap as [|cap IH]; [done|]. cbn [Nat.mul replicate concat].
    by rewrite replicate_add, IH.
  - constructor.
Qed.

(** Reopening the file of a running cache. *)
Lemma reopen c w cap :
  represents c w → synced c → capacity c = cap → fits cap →
  cache_open OpenWorks (file c) cap = Done (Ok (mkCache (file c) cap 0 (slots_of c))) ∧
  represents (mkCache (file c) cap 0 (slots_of c)) (slots_of c).
Proof.
  intros Hw Hs <- Hfit. pose proof (slots_length c w Hw) as Hl. pose proof (slots_hashes c Hs) as Hh.
  pose proof (rep_idx c w Hw) as Hi.
  assert (length (file c) = capacity c * HASH_SIZE)%nat as Hf
    by (rewrite (syn_file c Hs), length_concat_hashes; [by rewrite Hl|done]).
  split.
  - unfold cache_open. rewrite (syn_file c Hs) at 2.
    rewrite (load_slots (capacity c)) by (done || (unfold HASH_SIZE in Hf; lia)).
    destruct (Nat.eqb_spec (capacity c) 0); [lia|]. rewrite Nat.Div0.mod_same, Hf.
    rewrite (byte_offset_fits (capacity c)) by done. by rewrite Nat.ltb_irrefl.
  - constructor; cbn [current_idx capacity in_memory_cache]; [lia..|].
    exists [], (slots_of c). rewrite app_nil_r. split_and!; try done. lia.
Qed.

(** The oldest of a full window makes room for a new transcript. *)
Lemma oldest_overwritten c h l h' :
  represents c (h :: l) → capacity c = S (length l) → h' ∉ h :: l → h ∉ l →
  (check_and_insert h' DiskOk c).2 = Ok () ∧
  (check_and_insert h DiskOk (check_and_insert h' DiskOk c).1).2 = Ok ().
Proof.
  intros Hw Hc Hh' Hl. destruct (insert_represents c _ h' Hw) as [Hw' ->].
  rewrite decide_False by done. split; [done|]. destruct (insert_represents _ _ h Hw') as [_ ->].
  rewrite decide_False; [done|]. unfold spec_insert. rewrite decide_False by done.
  unfold newest. cbn [app length]. rewrite length_app, Hc. cbn [length].
  replace (S (length l + 1) - S (length l))%nat with 1%nat by lia. cbn [drop].
  intros [?|Hin]%elem_of_app; [done|]. apply list_elem_of_singleton in Hin as ->.
  apply Hh'. by left.
Qed.

(** ** Properties *)

(** A run of [check_and_insert] calls with a working disk. *)
Definition insert_all (ts : list bytes) (c : PersistentReplayCache) : PersistentReplayCache :=
  fold_left (λ c t, (check_and_insert t DiskOk c).1) ts c.

Lemma insert_capacity t fate c : capacity (check_and_insert t fate c).1 = capacity c.
Proof. unfold check_and_insert. case_decide; [done|]. by destruct fate. Qed.

Lemma insert_all_capacity ts : ∀ c, capacity (insert_all ts c) = capacity c.
Proof.
  induction ts as [|t ts IH]; intros c; [done|]. cbn [insert_all fold_left].
  fold (insert_all ts (check_and_insert t DiskOk c).1). by rewrite IH, insert_capacity.
Qed.

Lemma insert_all_represents ts : ∀ c w,
  represents c w → represents (insert_all ts c) (fold_left (spec_insert (capacity c)) ts w).
Proof.
  induction ts as [|t ts IH]; intros c w Hw; [done|]. cbn [insert_all fold_left].
  destruct (insert_represents c w t Hw) as [Hw' _].
  rewrite <- !(insert_capacity t DiskOk c). apply IH. by rewrite insert_capacity.
Qed.

Lemma insert_all_synced ts : ∀ c w,
  all_hashes ts → represents c w → synced c → fits (capacity c) → synced (insert_all ts c).
Proof.
  induction ts as [|t ts IH]; intros c w Hts Hw Hs Hf; [done|].
  apply Forall_cons in Hts as [Ht Hts]. cbn [insert_all fold_left].
  destruct (insert_represents c w t Hw) as [Hw' _].
  eapply IH; [done|exact Hw'|by eapply insert_synced|by rewrite insert_capacity].
Qed.

Lemma spec_distinct cap ts :
  (1 ≤ cap)%nat → NoDup ts → fold_left (spec_insert cap) ts [] = newest cap ts.
Proof.
  intros Hc. induction ts as [|t ts IH] using rev_ind; [done|].
  intros Hnd. apply NoDup_app in Hnd as (Hts & Hdis & _).
  rewrite fold_left_app. cbn [fold_left]. rewrite IH by done. unfold spec_insert.
  rewrite decide_False; [by apply newest_snoc|].
  intros Hin. apply (Hdis t); [|by left]. unfold newest in Hin.
  rewrite <- (take_drop (length ts - cap) ts). apply elem_of_app. by right.
Qed.

(** C29: the replay window.  In one process, after any run of distinct 32-byte
    transcripts through a cache of capacity at least 1 on a new file, a transcript
    is refused as a replay exactly when it is among the last [capacity] accepted
    ones; whatever the run, the ring buffer behaves as the list of the newest
    [capacity] transcripts, a refused one changing nothing. *)
Theorem replay_cache_window (cap : nat) (ts : list bytes) (t : bytes) :
  (1 ≤ cap)%nat → all_hashes ts →
  ∃ c0, cache_open OpenWorks [] cap = Done (Ok c0) ∧
  let c := insert_all ts c0 in
  (check_and_insert t DiskOk c).2 =
    (if decide (t ∈ fold_left (spec_insert cap) ts []) then Err "ReplayDetected"%string
     else Ok ()) ∧
  (NoDup ts →
   (check_and_insert t DiskOk c).2 =
     (if decide (t ∈ newest cap ts) then Err "ReplayDetected"%string else Ok ())).
Proof.
  intros Hc Hts. exists (fresh cap). split; [by apply open_fresh|]. cbv zeta.
  pose proof (insert_all_represents ts (fresh cap) [] (fresh_represents cap Hc)) as Hw'.
  destruct (insert_represents _ _ t Hw') as [_ Hr]. cbn [fresh capacity] in Hr.
  split; [exact Hr|]. intros Hnd. by rewrite <- spec_distinct.
Qed.

Definition hash (n : Z) : bytes := replicate HASH_SIZE n.

Lemma replay_cache_window_witness :
  ∃ c0, cache_open OpenWorks [] 2 = Done (Ok c0) ∧
    (check_and_insert (hash 3) DiskOk (insert_all [hash 1; hash 2; hash 3] c0)).2 =
    Err "ReplayDetected"%string.
Proof.
  destruct (replay_cache_window 2 [hash 1; hash 2; hash 3] (hash 3) ltac:(lia)
    ltac:(do 3 (constructor; [reflexivity|]); constructor)) as (c0 & Ho & Hr & _).
  exists c0. split; [exact Ho|]. exact Hr.
Defined.

Lemma slots_single cap h :
  (1 ≤ cap)%nat → slots_of (insert_all [h] (fresh cap)) = h :: replicate (cap - 1) blank.
Proof.
  intros Hc. unfold insert_all. cbn [fold_left]. unfold check_and_insert.
  cbn [fresh in_memory_cache]. rewrite decide_False by (by inversion 1).
  destruct cap as [|cap]; [lia|]. unfold slots_of. cbn [fst capacity length in_memory_cache].
  done.
Qed.

(** Restarts.  Reopening the file of a running cache remembers everything that
    was remembered, but the blank slots come back as remembered transcripts and
    writing resumes at slot 0 instead of after the newest: one new transcript then
    overwrites whatever slot 0 holds.  So a single recorded transcript is
    forgotten, and its replay accepted, after a restart and one more handshake,
    whatever the capacity. *)
Theorem restart_forgets (cap : nat) (ts : list bytes) (h h' : bytes) :
  (1 ≤ cap)%nat → fits cap → all_hashes ts → length h = HASH_SIZE → length h' = HASH_SIZE →
  h ≠ h' → h ≠ blank → h' ≠ blank →
  (** nothing is forgotten by the restart itself *)
  (∃ c', let c := insert_all ts (fresh cap) in
     cache_open OpenWorks (file c) cap = Done (Ok c') ∧
     (∀ t, t ∈ in_memory_cache c → (check_and_insert t DiskOk c').2 = Err "ReplayDetected"%string) ∧
     ((length (in_memory_cache c) < cap)%nat →
      (check_and_insert blank DiskOk c').2 = Err "ReplayDetected"%string)) ∧
  (** but by the next transcript *)
  (∃ c', cache_open OpenWorks (file (insert_all [h] (fresh cap))) cap = Done (Ok c') ∧
     (check_and_insert h DiskOk c').2 = Err "ReplayDetected"%string ∧
     (check_and_insert h' DiskOk c').2 = Ok () ∧
     (check_and_insert h DiskOk (check_and_insert h' DiskOk c').1).2 = Ok ()).
Proof.
  intros Hc Hfit Hts Hh Hh' Hne Hb Hb'.
  pose proof (fresh_represents cap Hc) as Hw. pose proof (fresh_synced cap Hfit) as Hs. split.
  - pose proof (insert_all_represents ts (fresh cap) [] Hw) as Hw'.
    pose proof (insert_all_synced ts (fresh cap) [] Hts Hw Hs Hfit) as Hs'.
    pose proof (insert_all_capacity ts (fresh cap)) as Ecap.
    destruct (reopen _ _ cap Hw' Hs' Ecap Hfit) as [Ho Hr].
    eexists. cbv zeta. split; [exact Ho|]. split.
    + intros t Ht. destruct (insert_represents _ _ t Hr) as [_ ->].
      rewrite decide_True; [done|]. apply elem_of_app. by left.
    + intros Hlt. destruct (insert_represents _ _ blank Hr) as [_ ->].
      rewrite decide_True; [done|]. apply elem_of_app. right. rewrite Ecap.
      apply elem_of_replicate. cbn [fresh capacity] in *. split; [done|lia].
  - assert (all_hashes [h]) as Hh1 by (by repeat constructor).
    pose proof (insert_all_represents [h] (fresh cap) [] Hw) as Hw'.
    pose proof (insert_all_synced [h] (fresh cap) [] Hh1 Hw Hs Hfit) as Hs'.
    pose proof (insert_all_capacity [h] (fresh cap)) as Ecap.
    destruct (reopen _ _ cap Hw' Hs' Ecap Hfit) as [Ho Hr]. rewrite slots_single in Ho, Hr by done.
    eexists. split; [exact Ho|]. destruct (insert_represents _ _ h Hr) as [_ ->].
    rewrite decide_True by (by left). split; [done|].
    apply (oldest_overwritten _ h (replicate (cap - 1) blank)); [done| | |].
    + cbn. rewrite length_replicate. lia.
    + intros [?|[? _]%elem_of_replicate]%elem_of_cons; congruence.
    + intros [? _]%elem_of_replicate. congruence.
Qed.

Lemma restart_forgets_witness :
  ∃ c', cache_open OpenWorks (file (insert_all [hash 1] (fresh 4))) 4 = Done (Ok c') ∧
     (check_and_insert (hash 1) DiskOk (check_and_insert (hash 2) DiskOk c').1).2 = Ok ().
Proof.
  destruct (restart_forgets 4 [] (hash 1) (hash 2) ltac:(lia) ltac:(done) (Forall_nil_2 _) eq_refl eq_refl
    ltac:(discriminate) ltac:(discriminate) ltac:(discriminate)) as (_ & c' & Ho & _ & _ & Hf).
  exists c'. split; [exact Ho|exact Hf].
Defined.
