(* ===== verification/Modq.v ===== *)
(** * otap-modq: the memory-mapped ring shared with the device

    Models [src/crates/otap-modq/src/bar.rs], [ring.rs] and [lib.rs], and the
    simulated device of [bin/modq_loopback.rs].  The mapped region is its bytes,
    little-endian.  An access the code asserts to be in range panics outside it; a
    raw copy that leaves the region is undefined behaviour. *)

From stdpp Require Import relations.
From S2P Require Import Prelude.
Local Open Scope Z_scope.

(** ** bar.rs *)

Inductive mmio (A : Type) : Type :=
| MDone (a : A)
| MPanic
| MUndef.
Arguments MDone {A} a.
Arguments MPanic {A}.
Arguments MUndef {A}.

(** A computation on the mapped region. *)
Definition bar_op (A : Type) : Type := bytes → mmio (bytes * A).

Definition bar_ret {A} (a : A) : bar_op A := λ mem, MDone (mem, a).
Definition bar_bind {A B} (m : bar_op A) (k : A → bar_op B) : bar_op B :=
  λ mem,
    match m mem with
    | MDone (mem, a) => k a mem
    | MPanic => MPanic
    | MUndef => MUndef
    end.
Notation "'get!' x '<-' m ';' k" := (bar_bind m (λ x, k))
  (at level 10, x name, m at level 100, k at level 200) : rust_scope.
Notation "'run!' m ';' k" := (bar_bind m (λ _, k))
  (at level 10, m at level 100, k at level 200) : rust_scope.

Definition REG_HEAD : nat := 0x0000.
Definition REG_TAIL : nat := 0x0008.
Definition REG_DEPTH : nat := 0x0010.
Definition REG_SLOT_SIZE : nat := 0x0018.
Definition REG_DOORBELL : nat := 0x0040.
Definition REG_INGRESS_SID : nat := 0x0048.
Definition REG_COMMIT_PTR : nat := 0x0050.
Definition REG_HW_CYCLE_COUNT : nat := 0x0058.
Definition REG_HW_DROP_COUNT : nat := 0x0060.
Definition RING_BASE : nat := Z.to_nat 0x1000.

Definition to_le_bytes (n : nat) (z : Z) : bytes := reverse (to_be_bytes n z).
Definition from_le_bytes (l : bytes) : Z := from_be_bytes (reverse l).

Definition read_le (n off : nat) : bar_op Z :=
  λ mem,
    if (off + n <=? length mem)%nat then MDone (mem, from_le_bytes (slice mem off (off + n)))
    else MPanic.
Definition write_le (n off : nat) (v : Z) : bar_op unit :=
  λ mem,
    if (off + n <=? length mem)%nat then MDone (splice mem off (to_le_bytes n v), ())
    else MPanic.

Definition read32 (off : nat) : bar_op Z := read_le 4 off.
Definition read64 (off : nat) : bar_op Z := read_le 8 off.
Definition write32 (off : nat) (v : Z) : bar_op unit := write_le 4 off v.
Definition write64 (off : nat) (v : Z) : bar_op unit := write_le 8 off v.

(** [slot_ptr] followed by [copy_nonoverlapping] to it. *)
Definition copy_to_slot (off : nat) (payload : bytes) : bar_op unit :=
  λ mem,
    if (off <? length mem)%nat then
      if (off + length payload <=? length mem)%nat then MDone (splice mem off payload, ())
      else MUndef
    else MPanic.

(** ** ring.rs *)

Definition SLOT_FREE : Z := 0.
Definition SLOT_READY : Z := 1.
Definition SLOT_DONE : Z := 2.
Definition SLOT_HDR_STATUS : nat := 0x00.
Definition SLOT_HDR_LENGTH : nat := 0x04.
Definition SLOT_HDR_SID : nat := 0x08.
Definition SLOT_PAYLOAD_OFFSET : nat := 0x10.

Record TxRing : Type := mkTxRing {
  tx_depth : Z;
  tx_slot_stride : Z;
  tail : Z;
  next_sid : Z;
}.

Record CompletionRing : Type := mkCompletionRing {
  cr_depth : Z;
  cr_slot_stride : Z;
  head : Z;
}.

Record RingCompletion : Type := mkRingCompletion {
  sequence_id : Z;
  slot_index : nat;
}.

Inductive RingError : Type :=
| PayloadTooLarge (got max : Z)
| Timeout (slot : nat).

(** [(SLOT_PAYLOAD_OFFSET as u32 + slot_size + 63) & !63] in [u32], as the
    release profile computes it (no overflow checks). *)
Definition stride_of (slot_size : Z) : Z :=
  let raw_stride := wrapping_add 32 (Z.of_nat SLOT_PAYLOAD_OFFSET) slot_size in
  Z.land (wrapping_add 32 raw_stride 63) (u32_not 63).

Definition TxRing_with_params (depth slot_size : Z) : TxRing :=
  mkTxRing depth (stride_of slot_size) 0 0.

Definition TxRing_new : bar_op TxRing :=
  get! depth <- read32 REG_DEPTH;
  get! slot_size <- read32 REG_SLOT_SIZE;
  bar_ret (mkTxRing depth (stride_of slot_size) 0 0).

(** [self.slot_stride as usize - SLOT_PAYLOAD_OFFSET] *)
Definition slot_payload_capacity (r : TxRing) : Z :=
  wrap 64 (tx_slot_stride r - Z.of_nat SLOT_PAYLOAD_OFFSET).

Definition slot_base (depth stride counter : Z) : nat * nat :=
  let index := Z.to_nat (counter mod depth) in
  (index, (RING_BASE + index * Z.to_nat stride)%nat).

Definition SPIN_LIMIT : Z := 1000000000.

(** The wait for a free slot, for at most [fuel] reads; between two reads the
    device changes the memory ([dev i] after read [i]).  [None]: still waiting;
    otherwise whether the slot is free. *)
Fixpoint wait_free (fuel : nat) (dev : nat → bytes → bytes) (i : nat) (spins : Z) (base : nat)
    (mem : bytes) : option (mmio (bytes * bool)) :=
  match fuel with
  | O => None
  | S fuel =>
      match read32 (base + SLOT_HDR_STATUS) mem with
      | MDone (mem, status) =>
          if status =? SLOT_FREE then Some (MDone (mem, true))
          else
            let spins := spins + 1 in
            if SPIN_LIMIT <? spins then Some (MDone (mem, false))
            else wait_free fuel dev (S i) spins base (dev i mem)
      | MPanic => Some MPanic
      | MUndef => Some MUndef
      end
  end.

(** The stores of one submission, in program order. *)
Definition store_payload (base : nat) (payload : bytes) : bar_op unit :=
  copy_to_slot (base + SLOT_PAYLOAD_OFFSET) payload.
Definition store_length (base : nat) (payload : bytes) : bar_op unit :=
  write32 (base + SLOT_HDR_LENGTH) (wrap 32 (Z.of_nat (length payload))).
Definition store_sid (base : nat) (sid : Z) : bar_op unit := write32 (base + SLOT_HDR_SID) sid.
Definition store_ready (base : nat) : bar_op unit := write32 (base + SLOT_HDR_STATUS) SLOT_READY.
Definition ring_doorbell (tail : Z) : bar_op unit := write32 REG_DOORBELL (wrap 32 tail).

Definition advance_tail (r : TxRing) : TxRing :=
  mkTxRing (tx_depth r) (tx_slot_stride r) (wrapping_add 64 (tail r) 1)
    (wrapping_add 32 (next_sid r) 1).

(** The stores from the free slot on, in program order: fill it, publish it, ring
    the doorbell with the new tail. *)
Definition submission_stores (r : TxRing) (base : nat) (payload : bytes) : list (bar_op unit) :=
  [ store_payload base payload;
    store_length base payload;
    store_sid base (next_sid r);
    store_ready base;
    ring_doorbell (tail (advance_tail r)) ].

Fixpoint run_stores (stores : list (bar_op unit)) : bar_op unit :=
  match stores with
  | [] => bar_ret ()
  | store :: stores => run! store; run_stores stores
  end.

Definition fill_slot (r : TxRing) (base : nat) (payload : bytes) : bar_op (TxRing * Z) :=
  run! run_stores (submission_stores r base payload);
  bar_ret (advance_tail r, next_sid r).

(** [depth] 0 is a division by zero. *)
Definition submit (fuel : nat) (dev : nat → bytes → bytes) (r : TxRing) (payload : bytes)
    (mem : bytes) : option (mmio (bytes * (TxRing * result Z RingError))) :=
  let max_payload := slot_payload_capacity r in
  if max_payload <? Z.of_nat (length payload) then
    Some (MDone (mem, (r, Err (PayloadTooLarge (Z.of_nat (length payload)) max_payload))))
  else if tx_depth r =? 0 then Some MPanic
  else
    let '(index, base) := slot_base (tx_depth r) (tx_slot_stride r) (tail r) in
    match wait_free fuel dev 0 0 base mem with
    | None => None
    | Some (MDone (mem, true)) =>
        Some (match fill_slot r base payload mem with
              | MDone (mem, (r, sid)) => MDone (mem, (r, Ok sid))
              | MPanic => MPanic
              | MUndef => MUndef
              end)
    | Some (MDone (mem, false)) => Some (MDone (mem, (r, Err (Timeout index))))
    | Some MPanic => Some MPanic
    | Some MUndef => Some MUndef
    end.

(** [submit_unchecked]: the same wait without a limit, and no length check; the
    caller promises [payload] fits. *)
Fixpoint spin_free (fuel : nat) (dev : nat → bytes → bytes) (i : nat) (base : nat) (mem : bytes)
    : option (mmio bytes) :=
  match fuel with
  | O => None
  | S fuel =>
      match read32 (base + SLOT_HDR_STATUS) mem with
      | MDone (mem, status) =>
          if negb (status =? SLOT_FREE) then spin_free fuel dev (S i) base (dev i mem)
          else Some (MDone mem)
      | MPanic => Some MPanic
      | MUndef => Some MUndef
      end
  end.

Definition submit_unchecked (fuel : nat) (dev : nat → bytes → bytes) (r : TxRing) (payload : bytes)
    (mem : bytes) : option (mmio (bytes * (TxRing * Z))) :=
  if tx_depth r =? 0 then Some MPanic
  else
    let '(_, base) := slot_base (tx_depth r) (tx_slot_stride r) (tail r) in
    match spin_free fuel dev 0 base mem with
    | None => None
    | Some (MDone mem) => Some (fill_slot r base payload mem)
    | Some MPanic => Some MPanic
    | Some MUndef => Some MUndef
    end.

Definition CompletionRing_new (depth stride : Z) : CompletionRing := mkCompletionRing depth stride 0.

Definition ring_poll (r : CompletionRing) : bar_op (CompletionRing * option RingCompletion) :=
  if cr_depth r =? 0 then λ _, MPanic
  else
    let '(index, base) := slot_base (cr_depth r) (cr_slot_stride r) (head r) in
    get! status <- read32 (base + SLOT_HDR_STATUS);
    if status =? SLOT_DONE then
      get! sid <- read32 (base + SLOT_HDR_SID);
      run! write32 (base + SLOT_HDR_STATUS) SLOT_FREE;
      bar_ret (mkCompletionRing (cr_depth r) (cr_slot_stride r) (wrapping_add 64 (head r) 1),
               Some (mkRingCompletion sid index))
    else bar_ret (r, None).

(** ** lib.rs *)

Inductive TransportMode : Type :=
| PciBar (resource_path : string)
| Loopback (shm_name : string).

Record ModqConfig : Type := mkModqConfig {
  transport : TransportMode;
  ring_depth : Z;
  slot_size : Z;
}.

Record ModqQueue : Type := mkModqQueue {
  tx : TxRing;
  cring : CompletionRing;
  modq_config : ModqConfig;
}.

(** [source]: the message of the I/O error. *)
Inductive ModqError : Type :=
| BarOpen (path source : string)
| BarEmpty (path : string)
| MmapFailed (path : string)
| InvalidRingDepth (depth : Z)
| InvalidShmName (name : string)
| ShmOpenFailed (name : string)
| ShmTruncateFailed (name : string).

Definition is_power_of_two (n : Z) : bool := (0 <? n) && (Z.land n (n - 1) =? 0).

(** [slot_stride], [total_size] *)
Definition modq_stride (c : ModqConfig) : Z :=
  Z.land (wrapping_add 32 (wrapping_add 32 (slot_size c) 16) 63) (u32_not 63).
Definition modq_total_size (c : ModqConfig) : Z :=
  Z.of_nat RING_BASE + modq_stride c * ring_depth c.

Fixpoint free_slots (n : nat) (i : nat) (stride : nat) : bar_op unit :=
  match n with
  | O => bar_ret ()
  | S n => run! write32 (RING_BASE + i * stride) SLOT_FREE; free_slots n (S i) stride
  end.

(** [open] in loopback mode, on the shared-memory object [open_shm] returned. *)
Definition modq_init (c : ModqConfig) : bar_op unit :=
  run! write32 REG_DEPTH (ring_depth c);
  run! write32 REG_SLOT_SIZE (slot_size c);
  run! write64 REG_HEAD 0;
  run! write64 REG_TAIL 0;
  free_slots (Z.to_nat (ring_depth c)) 0 (Z.to_nat (modq_stride c)).

(** What [BarMapping::open path] and [BarMapping::open_shm name size] map is given
    by [bar_open] and [bar_open_shm]: the mapped bytes, or the error. *)
Definition modq_open (bar_open : string → result bytes ModqError)
    (bar_open_shm : string → Z → result bytes ModqError) (c : ModqConfig)
    : mmio (result (bytes * ModqQueue) ModqError) :=
  if negb (is_power_of_two (ring_depth c)) then MDone (Err (InvalidRingDepth (ring_depth c)))
  else
    let queue :=
      mkModqQueue (TxRing_with_params (ring_depth c) (slot_size c))
        (CompletionRing_new (ring_depth c) (modq_stride c)) c in
    match transport c with
    | PciBar resource_path =>
        match bar_open resource_path with
        | Ok mem => MDone (Ok (mem, queue))
        | Err e => MDone (Err e)
        end
    | Loopback shm_name =>
        match bar_open_shm shm_name (modq_total_size c) with
        | Ok mem =>
            match modq_init c mem with
            | MDone (mem, _) => MDone (Ok (mem, queue))
            | MPanic => MPanic
            | MUndef => MUndef
            end
        | Err e => MDone (Err e)
        end
    end.

(** [submit], [poll] and the accessors of the handle. *)
Definition modq_submit (fuel : nat) (dev : nat → bytes → bytes) (q : ModqQueue) (payload : bytes)
    (mem : bytes) : option (mmio (bytes * (ModqQueue * result Z RingError))) :=
  match submit fuel dev (tx q) payload mem with
  | None => None
  | Some (MDone (mem, (r, res))) => Some (MDone (mem, (mkModqQueue r (cring q) (modq_config q), res)))
  | Some MPanic => Some MPanic
  | Some MUndef => Some MUndef
  end.
Definition modq_submit_unchecked (fuel : nat) (dev : nat → bytes → bytes) (q : ModqQueue)
    (payload : bytes) (mem : bytes) : option (mmio (bytes * (ModqQueue * Z))) :=
  match submit_unchecked fuel dev (tx q) payload mem with
  | None => None
  | Some (MDone (mem, (r, sid))) => Some (MDone (mem, (mkModqQueue r (cring q) (modq_config q), sid)))
  | Some MPanic => Some MPanic
  | Some MUndef => Some MUndef
  end.
Definition modq_poll (q : ModqQueue) : bar_op (ModqQueue * option RingCompletion) :=
  get! res <- ring_poll (cring q);
  bar_ret (mkModqQueue (tx q) res.1 (modq_config q), res.2).
Definition submitted_count (q : ModqQueue) : Z := tail (tx q).
Definition fpga_ingress_sid : bar_op Z := read32 REG_INGRESS_SID.
Definition fpga_commit_ptr : bar_op Z := read32 REG_COMMIT_PTR.
Definition hardware_timestamp : bar_op Z := read64 REG_HW_CYCLE_COUNT.
Definition hardware_drop_count : bar_op Z := read32 REG_HW_DROP_COUNT.

(** ** The device *)

(** One round of [simulated_fpga_consumer]: [after] is the status it leaves
    ([SLOT_FREE] there, [SLOT_DONE] for the hardware the completion ring expects).
    What it read is returned. *)
Definition device_round (after depth stride local_head : Z)
    : bar_op (Z * option (Z * Z)) :=
  let '(_, base) := slot_base depth stride local_head in
  get! status <- read32 base;
  if status =? SLOT_READY then
    get! len <- read32 (base + 0x04);
    get! sid <- read32 (base + 0x08);
    run! write32 base after;
    bar_ret (wrapping_add 64 local_head 1, Some (len, sid))
  else bar_ret (local_head, None).

(** ** Slots *)

Lemma from_to_le32 v : u32 v → from_le_bytes (to_le_bytes 4 v) = v.
Proof.
  intros Hv. unfold from_le_bytes, to_le_bytes. rewrite reverse_involutive.
  by apply (from_to_be_bytes_uint 4).
Qed.

Lemma to_le_length n v : length (to_le_bytes n v) = n.
Proof. unfold to_le_bytes. by rewrite length_reverse, to_be_bytes_length. Qed.

(** The fields of a slot's bytes. *)
Definition field (sl : bytes) (off : nat) : Z := from_le_bytes (slice sl off (off + 4)).
Definition status_of (sl : bytes) : Z := field sl SLOT_HDR_STATUS.
Definition length_of (sl : bytes) : Z := field sl SLOT_HDR_LENGTH.
Definition sid_of (sl : bytes) : Z := field sl SLOT_HDR_SID.
Definition data_of (sl : bytes) (n : nat) : bytes :=
  slice sl SLOT_PAYLOAD_OFFSET (SLOT_PAYLOAD_OFFSET + n).

Lemma field_same sl off v :
  (off + 4 ≤ length sl)%nat → u32 v → field (splice sl off (to_le_bytes 4 v)) off = v.
Proof.
  intros Hl Hv. unfold field.
  rewrite slice_splice_same by (rewrite ?to_le_length; lia). by apply from_to_le32.
Qed.

Lemma field_other sl off off' src :
  (off' + length src ≤ length sl)%nat → (off + 4 ≤ off' ∨ off' + length src ≤ off)%nat →
  field (splice sl off' src) off = field sl off.
Proof. intros. unfold field. by rewrite slice_splice_other. Qed.

Section ring.
Context (depth stride : nat).
Hypothesis depth_pos : (0 < depth)%nat.

(** The slot of the [k]-th message. *)
Definition base (k : nat) : nat := RING_BASE + (k mod depth) * stride.
Definition slot (mem : bytes) (k : nat) : bytes := slice mem (base k) (base k + stride).

Definition mapped (mem : bytes) : Prop := (RING_BASE + depth * stride ≤ length mem)%nat.

Lemma base_in mem k : mapped mem → (base k + stride ≤ length mem)%nat.
Proof.
  unfold mapped, base. pose proof (Nat.mod_upper_bound k depth ltac:(lia)). nia.
Qed.

Lemma slot_length mem k : mapped mem → length (slot mem k) = stride.
Proof.
  intros Hm. pose proof (base_in mem k Hm). unfold slot. rewrite slice_length by lia. lia.
Qed.

Lemma slot_field mem k off :
  (off + 4 ≤ stride)%nat → field (slot mem k) off =
  from_le_bytes (slice mem (base k + off) (base k + off + 4)).
Proof.
  intros Ho. unfold field, slot, slice. f_equal. rewrite skipn_firstn_comm, firstn_firstn, drop_drop.
  repeat f_equal; lia.
Qed.

Lemma slot_data mem k n :
  (SLOT_PAYLOAD_OFFSET + n ≤ stride)%nat → data_of (slot mem k) n =
  slice mem (base k + SLOT_PAYLOAD_OFFSET) (base k + SLOT_PAYLOAD_OFFSET + n).
Proof.
  intros Ho. unfold data_of, slot, slice. rewrite skipn_firstn_comm, firstn_firstn, drop_drop.
  repeat f_equal; lia.
Qed.

(** A store in one slot. *)
Lemma slot_store_same mem k k' off src :
  mapped mem → (off + length src ≤ stride)%nat → (k mod depth = k' mod depth)%nat →
  slot (splice mem (base k + off) src) k' = splice (slot mem k') off src.
Proof.
  intros Hm Ho Hk. assert (base k = base k') as -> by (unfold base; by rewrite Hk).
  pose proof (base_in mem k' Hm). apply list_eq. intros i. unfold slot.
  destruct (decide (i < stride)%nat).
  - rewrite slice_lookup, !splice_lookup by (rewrite ?slice_length; lia).
    rewrite slice_lookup by lia. repeat case_decide; try lia; [f_equal; lia|done].
  - rewrite !lookup_ge_None_2; [done|rewrite splice_length; rewrite slice_length; lia|
      rewrite slice_length by (rewrite ?splice_length; lia); lia].
Qed.

Lemma slot_store_other mem k k' off src :
  mapped mem → (off + length src ≤ stride)%nat → (k mod depth ≠ k' mod depth)%nat →
  slot (splice mem (base k + off) src) k' = slot mem k'.
Proof.
  intros Hm Ho Hk. pose proof (base_in mem k Hm). unfold slot. apply slice_splice_other; [lia|].
  unfold base. assert (k mod depth < k' mod depth ∨ k' mod depth < k mod depth)%nat as [?|?] by lia; nia.
Qed.

Lemma mapped_store mem off src :
  mapped mem → (off + length src ≤ length mem)%nat → mapped (splice mem off src).
Proof. unfold mapped. intros. by rewrite splice_length. Qed.

(** The registers lie below the ring. *)
Lemma slot_store_reg mem off src k :
  mapped mem → (off + length src ≤ RING_BASE)%nat → slot (splice mem off src) k = slot mem k.
Proof.
  intros Hm Ho. pose proof (base_in mem k Hm). unfold slot.
  apply slice_splice_other; unfold mapped in Hm; [lia|]. right. unfold base. lia.
Qed.

(** Messages less than [depth] apart have different slots. *)
Lemma window_inj l k k' :
  (l ≤ k < l + depth)%nat → (l ≤ k' < l + depth)%nat → (k mod depth = k' mod depth)%nat → k = k'.
Proof.
  intros Hk Hk' E. pose proof (Nat.div_mod_eq k depth). pose proof (Nat.div_mod_eq k' depth).
  assert (k / depth = k' / depth ∨ k / depth < k' / depth ∨ k' / depth < k / depth)%nat as [?|[?|?]] by lia; nia.
Qed.
End ring.

(** ** Host and device on one ring

    The host's stores of a submission are separate steps; the device and, between
    submissions, the host's polls come in between them in any order.  [hw] tells
    the hardware device, which leaves [SLOT_DONE] for the completion ring, from
    the simulated one, which leaves [SLOT_FREE]. *)

Lemma MDone_inj {A B} (a a' : A) (b b' : B) : MDone (a, b) = MDone (a', b') → a = a' ∧ b = b'.
Proof. by intros [= -> ->]. Qed.

(** The counters wrap at 2^64, a multiple of every power of two below. *)
Lemma wrap_mod_pow2 e z : (e ≤ 31)%nat → wrap 64 z mod 2 ^ Z.of_nat e = z mod 2 ^ Z.of_nat e.
Proof.
  intros He. apply Z.mod_mod_divide. exists (2 ^ (64 - Z.of_nat e)).
  rewrite <- Z.pow_add_r by lia. f_equal. lia.
Qed.

Lemma wrapping_add_wrap w k : wrapping_add w (wrap w k) 1 = wrap w (k + 1).
Proof. unfold wrapping_add, wrap. apply Zplus_mod_idemp_l. Qed.

Lemma ring_above_registers : (REG_DOORBELL + 4 ≤ RING_BASE)%nat.
Proof. apply Nat.leb_le. vm_compute. reflexivity. Qed.

(* The counters' moduli and the ring's offset are not computed with from here on. *)
#[local] Opaque RING_BASE wrap from_le_bytes slice splice.

Section system.
Context (e stride : nat) (hw : bool).
Let depth : nat := (2 ^ e)%nat.
Hypothesis e_small : (e ≤ 31)%nat.
Hypothesis stride_big : (64 ≤ stride)%nat.
Hypothesis stride_u32 : u32 (Z.of_nat stride).

Definition after_status : Z := if hw then SLOT_DONE else SLOT_FREE.

Record Sys : Type := mkSys {
  sys_mem : bytes;
  sys_tx : TxRing;
  sys_cr : CompletionRing;
  local_head : Z;
  (** the submission under way: its payload and how many stores are done *)
  writing : option (bytes * nat);
  (** what was made READY, what the device took (length, sequence id and data
      as it read them), what the host polled *)
  published : list bytes;
  taken : list (Z * Z * bytes);
  polled : list RingCompletion;
}.

Definition tx_base (s : Sys) : nat :=
  (slot_base (tx_depth (sys_tx s)) (tx_slot_stride (sys_tx s)) (tail (sys_tx s))).2.

Inductive sys_step (s : Sys) : Sys → Prop :=
| StepBegin payload st :
    writing s = None →
    Z.of_nat (length payload) ≤ slot_payload_capacity (sys_tx s) →
    read32 (tx_base s + SLOT_HDR_STATUS) (sys_mem s) = MDone (sys_mem s, st) →
    st = SLOT_FREE →
    sys_step s (mkSys (sys_mem s) (sys_tx s) (sys_cr s) (local_head s) (Some (payload, 0%nat))
                  (published s) (taken s) (polled s))
| StepPayload payload mem :
    writing s = Some (payload, 0%nat) →
    store_payload (tx_base s) payload (sys_mem s) = MDone (mem, ()) →
    sys_step s (mkSys mem (sys_tx s) (sys_cr s) (local_head s) (Some (payload, 1%nat))
                  (published s) (taken s) (polled s))
| StepLength payload mem :
    writing s = Some (payload, 1%nat) →
    store_length (tx_base s) payload (sys_mem s) = MDone (mem, ()) →
    sys_step s (mkSys mem (sys_tx s) (sys_cr s) (local_head s) (Some (payload, 2%nat))
                  (published s) (taken s) (polled s))
| StepSid payload mem :
    writing s = Some (payload, 2%nat) →
    store_sid (tx_base s) (next_sid (sys_tx s)) (sys_mem s) = MDone (mem, ()) →
    sys_step s (mkSys mem (sys_tx s) (sys_cr s) (local_head s) (Some (payload, 3%nat))
                  (published s) (taken s) (polled s))
| StepReady payload mem :
    writing s = Some (payload, 3%nat) →
    store_ready (tx_base s) (sys_mem s) = MDone (mem, ()) →
    sys_step s (mkSys mem (advance_tail (sys_tx s)) (sys_cr s) (local_head s)
                  (Some (payload, 4%nat)) (published s ++ [payload]) (taken s) (polled s))
| StepDoorbell payload mem :
    writing s = Some (payload, 4%nat) →
    ring_doorbell (tail (sys_tx s)) (sys_mem s) = MDone (mem, ()) →
    sys_step s (mkSys mem (sys_tx s) (sys_cr s) (local_head s) None
                  (published s) (taken s) (polled s))
| StepDevice mem h len sid :
    device_round after_status (Z.of_nat depth) (Z.of_nat stride) (local_head s) (sys_mem s)
      = MDone (mem, (h, Some (len, sid))) →
    let b := (slot_base (Z.of_nat depth) (Z.of_nat stride) (local_head s)).2 in
    let data := slice (sys_mem s) (b + SLOT_PAYLOAD_OFFSET)
                  (b + SLOT_PAYLOAD_OFFSET + Z.to_nat len) in
    sys_step s (mkSys mem (sys_tx s) (sys_cr s) h (writing s) (published s)
                  (taken s ++ [(len, sid, data)]) (polled s))
| StepPoll mem cr c :
    writing s = None →
    ring_poll (sys_cr s) (sys_mem s) = MDone (mem, (cr, Some c)) →
    sys_step s (mkSys mem (sys_tx s) cr (local_head s) (writing s) (published s) (taken s)
                  (polled s ++ [c])).

(** ** The invariant *)

(** The first message whose slot is not free again. *)
Definition oldest (s : Sys) : nat :=
  if hw then length (polled s) else length (taken s).

Definition message_ok (p : bytes) : Prop := (SLOT_PAYLOAD_OFFSET + length p ≤ stride)%nat.

(** What the slot of message [k] holds. *)
Definition slot_inv (s : Sys) (k : nat) : Prop :=
  let sl := slot depth stride (sys_mem s) k in
  status_of sl =
    (if decide (k < length (taken s))%nat then SLOT_DONE
     else if decide (k < length (published s))%nat then SLOT_READY else SLOT_FREE) ∧
  ((k < length (published s))%nat → sid_of sl = wrap 32 (Z.of_nat k)) ∧
  (∀ p, published s !! k = Some p → (length (taken s) ≤ k)%nat →
     length_of sl = Z.of_nat (length p) ∧ data_of sl (length p) = p) ∧
  (∀ p n, writing s = Some (p, n) → (n ≤ 3)%nat → k = length (published s) →
     ((1 ≤ n)%nat → data_of sl (length p) = p) ∧
     ((2 ≤ n)%nat → length_of sl = Z.of_nat (length p)) ∧
     ((3 ≤ n)%nat → sid_of sl = wrap 32 (Z.of_nat k))).

Definition record_of (k : nat) (p : bytes) : Z * Z * bytes :=
  (Z.of_nat (length p), wrap 32 (Z.of_nat k), p).

Record SysInv (s : Sys) : Prop := {
  si_mapped : mapped depth stride (sys_mem s);
  si_tx : sys_tx s = mkTxRing (Z.of_nat depth) (Z.of_nat stride)
            (wrap 64 (Z.of_nat (length (published s)))) (wrap 32 (Z.of_nat (length (published s))));
  si_cr : sys_cr s = mkCompletionRing (Z.of_nat depth) (Z.of_nat stride)
            (wrap 64 (Z.of_nat (length (polled s))));
  si_head : local_head s = wrap 64 (Z.of_nat (length (taken s)));
  si_order : (length (polled s) ≤ length (taken s) ≤ length (published s))%nat;
  si_room : (length (published s) ≤ oldest s + depth)%nat;
  si_messages : Forall message_ok (published s);
  si_writing : ∀ p n, writing s = Some (p, n) →
    message_ok p ∧ ((n ≤ 3)%nat → (length (published s) < oldest s + depth)%nat);
  si_taken : taken s = imap record_of (take (length (taken s)) (published s));
  si_polled : polled s = (λ k, mkRingCompletion (wrap 32 (Z.of_nat k)) (k mod depth)%nat)
                           <$> seq 0 (length (polled s));
  si_slots : ∀ k, (oldest s ≤ k < oldest s + depth)%nat → slot_inv s k;
}.

Lemma depth_pos : (0 < depth)%nat.
Proof. unfold depth. pose proof (Nat.pow_nonzero 2 e). lia. Qed.

Lemma depth_Z : Z.of_nat depth = 2 ^ Z.of_nat e.
Proof. unfold depth. by rewrite Nat2Z.inj_pow. Qed.

Lemma slot_base_at k :
  slot_base (Z.of_nat depth) (Z.of_nat stride) (wrap 64 (Z.of_nat k)) =
  (k mod depth, base depth stride k)%nat.
Proof.
  unfold slot_base, base. cbv zeta.
  assert (wrap 64 (Z.of_nat k) mod Z.of_nat depth = Z.of_nat (k mod depth)) as ->
    by (by rewrite Nat2Z.inj_mod, depth_Z, wrap_mod_pow2).
  by rewrite !Nat2Z.id.
Qed.

Section accesses.
Context (mem : bytes) (k : nat) (Hm : mapped depth stride mem).

Lemma read_slot off :
  (off + 4 ≤ stride)%nat →
  read32 (base depth stride k + off) mem = MDone (mem, field (slot depth stride mem k) off).
Proof.
  intros Ho. pose proof (base_in depth stride depth_pos mem k Hm) as Hb.
  unfold read32, read_le. destruct (Nat.leb_spec (base depth stride k + off + 4) (length mem));
    [|lia]. by rewrite (slot_field depth stride depth_pos).
Qed.

Lemma write_slot off v :
  (off + 4 ≤ stride)%nat →
  write32 (base depth stride k + off) v mem =
  MDone (splice mem (base depth stride k + off) (to_le_bytes 4 v), ()).
Proof.
  intros Ho. pose proof (base_in depth stride depth_pos mem k Hm) as Hb.
  unfold write32, write_le. by destruct (Nat.leb_spec (base depth stride k + off + 4) (length mem));
    [|lia].
Qed.

Lemma copy_slot p :
  message_ok p →
  copy_to_slot (base depth stride k + SLOT_PAYLOAD_OFFSET) p mem =
  MDone (splice mem (base depth stride k + SLOT_PAYLOAD_OFFSET) p, ()).
Proof.
  unfold message_ok. intros Ho. pose proof (base_in depth stride depth_pos mem k Hm) as Hb.
  unfold copy_to_slot, SLOT_PAYLOAD_OFFSET in *.
  destruct (Nat.ltb_spec (base depth stride k + 16) (length mem)); [|lia].
  by destruct (Nat.leb_spec (base depth stride k + 16 + length p) (length mem)); [|lia].
Qed.

(** A store in the slot of [k], seen from the slots of a window around it. *)
Lemma window_store l off src k' :
  (l ≤ k < l + depth)%nat → (l ≤ k' < l + depth)%nat → (off + length src ≤ stride)%nat →
  slot depth stride (splice mem (base depth stride k + off) src) k' =
  if decide (k' = k) then splice (slot depth stride mem k) off src else slot depth stride mem k'.
Proof.
  intros Hk Hk' Ho. case_decide as D.
  - subst. apply slot_store_same; [apply depth_pos|done..].
  - apply slot_store_other; [apply depth_pos|done|done|].
    intros E. apply D. symmetry. eapply window_inj; [apply depth_pos|exact Hk|exact Hk'|done].
Qed.

Lemma mapped_slot_store off src :
  (off + length src ≤ stride)%nat →
  mapped depth stride (splice mem (base depth stride k + off) src).
Proof.
  intros Ho. pose proof (base_in depth stride depth_pos mem k Hm) as Hb.
  apply mapped_store; [done|lia].
Qed.

Lemma slot_len : length (slot depth stride mem k) = stride.
Proof. apply slot_length; [apply depth_pos|done]. Qed.
End accesses.

Lemma same_slot k k' mem :
  (k mod depth = k' mod depth)%nat → slot depth stride mem k = slot depth stride mem k'.
Proof. intros E. unfold slot, base. by rewrite E. Qed.

Lemma add_depth_mod k : ((k + depth) mod depth = k mod depth)%nat.
Proof. rewrite <- (Nat.mul_1_l depth) at 1. apply Nat.Div0.mod_add. Qed.

Lemma window_cover l j : ∃ k, (l ≤ k < l + depth)%nat ∧ (k mod depth = j mod depth)%nat.
Proof.
  pose proof depth_pos as Hd. set (r := (j mod depth)%nat).
  assert (r < depth)%nat by (apply Nat.mod_upper_bound; lia).
  pose proof (Nat.div_mod_eq l depth). pose proof (Nat.mod_upper_bound l depth ltac:(lia)).
  destruct (decide (l mod depth ≤ r)%nat).
  - exists (depth * (l / depth) + r)%nat. split; [lia|].
    rewrite Nat.add_comm, Nat.mul_comm, Nat.Div0.mod_add. by apply Nat.mod_small.
  - exists (depth * (l / depth + 1) + r)%nat. split; [lia|].
    rewrite Nat.add_comm, Nat.mul_comm, Nat.Div0.mod_add. by apply Nat.mod_small.
Qed.

Lemma tx_base_at s : SysInv s → tx_base s = base depth stride (length (published s)).
Proof. intros HI. unfold tx_base. rewrite (si_tx s HI).
  cbn [tx_depth tx_slot_stride tail]. by rewrite slot_base_at.
Qed.

(** ** Each step keeps the invariant *)

Lemma inv_begin s payload st :
  SysInv s → writing s = None →
  Z.of_nat (length payload) ≤ slot_payload_capacity (sys_tx s) →
  read32 (tx_base s + SLOT_HDR_STATUS) (sys_mem s) = MDone (sys_mem s, st) → st = SLOT_FREE →
  SysInv (mkSys (sys_mem s) (sys_tx s) (sys_cr s) (local_head s) (Some (payload, 0%nat))
            (published s) (taken s) (polled s)).
Proof.
  intros HI Hw Hlen Hst ->. pose proof depth_pos as Hd.
  assert (message_ok payload) as Hok.
  { rewrite (si_tx s HI) in Hlen. unfold slot_payload_capacity in Hlen. cbn [tx_slot_stride] in Hlen.
    unfold in_uint in stride_u32. rewrite wrap_small in Hlen
      by (unfold in_uint, SLOT_PAYLOAD_OFFSET; lia).
    unfold message_ok. lia. }
  rewrite (tx_base_at s HI), (read_slot _ _ (si_mapped s HI)) in Hst
    by (unfold SLOT_HDR_STATUS; lia). apply MDone_inj in Hst as [_ Hst].
  assert (length (published s) < oldest s + depth)%nat as Hroom.
  { pose proof (si_room s HI). destruct (decide (length (published s) = oldest s + depth)%nat) as [E|];
      [|lia]. exfalso. rewrite E, (same_slot _ (oldest s) _ (add_depth_mod _)) in Hst.
    destruct (si_slots s HI (oldest s) ltac:(lia)) as [Hs _].
    unfold status_of in Hs. rewrite Hst in Hs.
    destruct (decide (_ < length (taken s))%nat); [discriminate Hs|].
    destruct (decide (_ < length (published s))%nat); [discriminate Hs|lia]. }
  destruct HI as [I1 I2 I3 I4 I5 I6 I7 I8 I9 I10 I11]. constructor;
    cbn [sys_mem sys_tx sys_cr local_head writing published taken polled]; try assumption.
  - intros p n E. injection E as <- <-. split; [exact Hok|intros _; exact Hroom].
  - intros k Hk. destruct (I11 k Hk) as (S1 & S2 & S3 & _). split_and!; try assumption.
    intros p n [= <- <-] _ _. split_and!; lia.
Qed.

(** The slot being filled. *)
Definition filled (sl p : bytes) (k n : nat) : Prop :=
  ((1 ≤ n)%nat → data_of sl (length p) = p) ∧
  ((2 ≤ n)%nat → length_of sl = Z.of_nat (length p)) ∧
  ((3 ≤ n)%nat → sid_of sl = wrap 32 (Z.of_nat k)).

Lemma filling s p n :
  SysInv s → writing s = Some (p, n) → (n ≤ 3)%nat →
  (oldest s ≤ length (published s) < oldest s + depth)%nat ∧ message_ok p ∧
  filled (slot depth stride (sys_mem s) (length (published s))) p (length (published s)) n.
Proof.
  intros HI Hw Hn. destruct (si_writing s HI p n Hw) as [Hok Hroom]. specialize (Hroom Hn).
  assert (oldest s ≤ length (published s))%nat as Hle.
  { pose proof (si_order s HI). unfold oldest. destruct hw; lia. }
  split; [lia|]. split; [done|].
  destruct (si_slots s HI (length (published s)) ltac:(lia)) as (_ & _ & _ & Hf). by apply Hf.
Qed.

(** A store into the slot being filled, not on its status word. *)
Lemma inv_fill s p n off src :
  SysInv s → writing s = Some (p, n) → (n ≤ 2)%nat →
  (4 ≤ off)%nat → (off + length src ≤ stride)%nat →
  filled (splice (slot depth stride (sys_mem s) (length (published s))) off src) p
    (length (published s)) (S n) →
  SysInv (mkSys (splice (sys_mem s) (base depth stride (length (published s)) + off) src)
            (sys_tx s) (sys_cr s) (local_head s) (Some (p, S n))
            (published s) (taken s) (polled s)).
Proof.
  intros HI Hw Hn Hoff Hlen Hfill. destruct (filling s p n HI Hw ltac:(lia)) as (Hk0 & Hok & _).
  destruct HI as [I1 I2 I3 I4 I5 I6 I7 I8 I9 I10 I11]. constructor;
    cbn [sys_mem sys_tx sys_cr local_head writing published taken polled]; try assumption.
  - by apply mapped_slot_store.
  - intros p' n' [= <- <-]. split; [done|]. change (oldest _) with (oldest s). lia.
  - intros k Hk. change (oldest _) with (oldest s) in Hk.
    destruct (I11 k Hk) as (S1 & S2 & S3 & S4). unfold slot_inv.
    cbn [sys_mem sys_tx sys_cr local_head writing published taken polled].
    rewrite (window_store _ _ I1 (oldest s)) by assumption.
    destruct (decide (k = length (published s))) as [->|Hne].
    + pose proof (slot_len (sys_mem s) (length (published s)) I1) as Hsl.
      unfold status_of. rewrite field_other by (unfold SLOT_HDR_STATUS; lia).
      split_and!; [exact S1|lia| |].
      * intros p' Hp'. apply lookup_lt_Some in Hp'. lia.
      * intros p' n' [= <- <-] _ _. exact Hfill.
    + split_and!; [exact S1|exact S2|exact S3|]. intros p' n' _ _ E. congruence.
Qed.

Lemma inv_payload s p mem :
  SysInv s → writing s = Some (p, 0%nat) →
  store_payload (tx_base s) p (sys_mem s) = MDone (mem, ()) →
  SysInv (mkSys mem (sys_tx s) (sys_cr s) (local_head s) (Some (p, 1%nat))
            (published s) (taken s) (polled s)).
Proof.
  intros HI Hw Hst. destruct (filling s p 0 HI Hw ltac:(lia)) as (Hk0 & Hok & _).
  unfold store_payload in Hst. rewrite (tx_base_at s HI), copy_slot in Hst by (done || apply HI).
  injection Hst as <-.
  pose proof (slot_len (sys_mem s) (length (published s)) (si_mapped s HI)) as Hsl.
  unfold message_ok in Hok. apply inv_fill; try assumption; [lia|unfold SLOT_PAYLOAD_OFFSET; lia|].
  split_and!; [|lia|lia]. intros _. unfold data_of. apply slice_splice_same; lia.
Qed.

Lemma inv_length s p mem :
  SysInv s → writing s = Some (p, 1%nat) →
  store_length (tx_base s) p (sys_mem s) = MDone (mem, ()) →
  SysInv (mkSys mem (sys_tx s) (sys_cr s) (local_head s) (Some (p, 2%nat))
            (published s) (taken s) (polled s)).
Proof.
  intros HI Hw Hst. destruct (filling s p 1 HI Hw ltac:(lia)) as (Hk0 & Hok & Hd & _).
  pose proof (slot_len (sys_mem s) (length (published s)) (si_mapped s HI)) as Hsl.
  unfold message_ok, in_uint in *. unfold store_length in Hst.
  rewrite (tx_base_at s HI), write_slot in Hst
    by first [apply HI | unfold SLOT_HDR_LENGTH; lia].
  injection Hst as <-. apply inv_fill; try assumption;
    rewrite ?to_le_length; unfold SLOT_HDR_LENGTH in *; [lia..|].
  split_and!; [intros _| |lia].
  - unfold data_of, SLOT_PAYLOAD_OFFSET in *. rewrite slice_splice_other
      by (rewrite ?to_le_length; lia). apply Hd. lia.
  - intros _. unfold length_of, SLOT_HDR_LENGTH. rewrite wrap_small by (unfold in_uint; lia).
    apply field_same; unfold in_uint; lia.
Qed.

Lemma inv_sid s p mem :
  SysInv s → writing s = Some (p, 2%nat) →
  store_sid (tx_base s) (next_sid (sys_tx s)) (sys_mem s) = MDone (mem, ()) →
  SysInv (mkSys mem (sys_tx s) (sys_cr s) (local_head s) (Some (p, 3%nat))
            (published s) (taken s) (polled s)).
Proof.
  intros HI Hw Hst. destruct (filling s p 2 HI Hw ltac:(lia)) as (Hk0 & Hok & Hd & Hl & _).
  pose proof (slot_len (sys_mem s) (length (published s)) (si_mapped s HI)) as Hsl.
  unfold store_sid in Hst. rewrite (si_tx s HI) in Hst. cbn [next_sid] in Hst.
  rewrite (tx_base_at s HI), write_slot in Hst by first [apply HI | unfold SLOT_HDR_SID; lia].
  injection Hst as <-. apply inv_fill; try assumption;
    rewrite ?to_le_length; unfold SLOT_HDR_SID in *; [lia..|].
  unfold message_ok in Hok. split_and!; intros _.
  - unfold data_of, SLOT_PAYLOAD_OFFSET in *. rewrite slice_splice_other
      by (rewrite ?to_le_length; lia). apply Hd. lia.
  - unfold length_of, SLOT_HDR_LENGTH in *. rewrite field_other by (rewrite ?to_le_length; lia).
    apply Hl. lia.
  - unfold sid_of, SLOT_HDR_SID. apply field_same; [lia|by apply wrap_range].
Qed.

Lemma inv_ready s p mem :
  SysInv s → writing s = Some (p, 3%nat) →
  store_ready (tx_base s) (sys_mem s) = MDone (mem, ()) →
  SysInv (mkSys mem (advance_tail (sys_tx s)) (sys_cr s) (local_head s) (Some (p, 4%nat))
            (published s ++ [p]) (taken s) (polled s)).
Proof.
  intros HI Hw Hst. destruct (filling s p 3 HI Hw ltac:(lia)) as (Hk0 & Hok & Hd & Hl & Hsid).
  pose proof (slot_len (sys_mem s) (length (published s)) (si_mapped s HI)) as Hsl.
  unfold store_ready in Hst.
  rewrite (tx_base_at s HI), write_slot in Hst by first [apply HI | unfold SLOT_HDR_STATUS; lia].
  apply MDone_inj in Hst as [<- _]. unfold SLOT_HDR_STATUS.
  destruct HI as [I1 I2 I3 I4 I5 I6 I7 I8 I9 I10 I11]. constructor;
    cbn [sys_mem sys_tx sys_cr local_head writing published taken polled];
    rewrite ?length_app; cbn [length]; change (oldest _) with (oldest s); try assumption.
  - apply mapped_slot_store; [exact I1|rewrite to_le_length; lia].
  - rewrite I2. unfold advance_tail. cbn [tx_depth tx_slot_stride tail next_sid].
    rewrite Nat2Z.inj_add. f_equal; apply wrapping_add_wrap.
  - lia.
  - lia.
  - apply Forall_app. split; [exact I7|]. constructor; [exact Hok|constructor].
  - intros p' n' E. injection E as <- <-. split; [exact Hok|]. lia.
  - rewrite take_app_le by lia. exact I9.
  - intros k Hk. destruct (I11 k Hk) as (S1 & S2 & S3 & S4). unfold slot_inv.
    cbn [sys_mem writing published taken].
    rewrite (window_store _ _ I1 (oldest s)) by (rewrite ?to_le_length; lia).
    rewrite length_app. cbn [length]. destruct (decide (k = length (published s))) as [->|Hne].
    + unfold status_of, SLOT_HDR_STATUS. rewrite field_same by (unfold in_uint, SLOT_READY; lia).
      rewrite decide_False, decide_True by lia. split; [reflexivity|].
      unfold sid_of, length_of, data_of, SLOT_HDR_SID, SLOT_HDR_LENGTH, SLOT_PAYLOAD_OFFSET in *.
      rewrite !field_other by (rewrite to_le_length; lia).
      split; [intros _; apply Hsid; lia|]. split.
      * intros p' Hp' _. rewrite list_lookup_middle in Hp' by reflexivity. injection Hp' as <-.
        unfold message_ok, SLOT_PAYLOAD_OFFSET in Hok.
        rewrite slice_splice_other by (rewrite to_le_length; lia).
        split; [apply Hl|apply Hd]; lia.
      * intros p' n' E ?. injection E as <- <-. lia.
    + split; [|split; [|split]].
      * rewrite S1. repeat case_decide; first [reflexivity | lia].
      * intros. apply S2. lia.
      * intros p' Hp'. apply S3. apply lookup_app_Some in Hp' as [|[? Hp']]; [assumption|].
        apply list_lookup_singleton_Some in Hp' as [? _]. lia.
      * intros p' n' E ?. injection E as <- <-. lia.
Qed.

(** A change that leaves every slot of the window as it was. *)
Lemma slot_inv_same s mem w k :
  slot depth stride mem k = slot depth stride (sys_mem s) k →
  (∀ p n, w = Some (p, n) → (3 < n)%nat) → slot_inv s k →
  slot_inv (mkSys mem (sys_tx s) (sys_cr s) (local_head s) w (published s) (taken s) (polled s)) k.
Proof.
  intros E Hw (S1 & S2 & S3 & _). unfold slot_inv. cbn [sys_mem writing published taken]. rewrite E.
  split; [exact S1|]. split; [exact S2|]. split; [exact S3|].
  intros p n Hp Hn. specialize (Hw p n Hp). lia.
Qed.

Lemma inv_doorbell s p mem :
  SysInv s → writing s = Some (p, 4%nat) →
  ring_doorbell (tail (sys_tx s)) (sys_mem s) = MDone (mem, ()) →
  SysInv (mkSys mem (sys_tx s) (sys_cr s) (local_head s) None (published s) (taken s) (polled s)).
Proof.
  intros HI Hw Hst. unfold ring_doorbell, write32, write_le in Hst.
  pose proof ring_above_registers.
  destruct (Nat.leb_spec (REG_DOORBELL + 4) (length (sys_mem s))); [|discriminate Hst].
  apply MDone_inj in Hst as [<- _].
  destruct HI as [I1 I2 I3 I4 I5 I6 I7 I8 I9 I10 I11]. constructor;
    cbn [sys_mem sys_tx sys_cr local_head writing published taken polled];
    change (oldest _) with (oldest s); try assumption.
  - apply mapped_store; [exact I1|]. rewrite to_le_length. lia.
  - intros p' n' E. discriminate E.
  - intros k Hk. apply slot_inv_same; [|intros ? ? E; discriminate E|by apply I11].
    apply slot_store_reg; [exact depth_pos|exact I1|rewrite to_le_length; lia].
Qed.

(** The device's head slot lies in the window, and READY means published. *)
Lemma head_ready s :
  SysInv s →
  status_of (slot depth stride (sys_mem s) (length (taken s))) = SLOT_READY →
  (oldest s ≤ length (taken s) < oldest s + depth)%nat ∧
  (length (taken s) < length (published s))%nat.
Proof.
  intros HI Hst. pose proof depth_pos as Hd. pose proof (si_order s HI) as Ho.
  pose proof (si_room s HI) as Hr.
  assert (oldest s ≤ length (taken s) < oldest s + depth)%nat as Hwin.
  { unfold oldest in *. destruct hw eqn:Hhw; [|lia]. split; [lia|].
    destruct (decide (length (taken s) = length (polled s) + depth)%nat) as [E|]; [|lia].
    exfalso. rewrite E, (same_slot _ (length (polled s)) _ (add_depth_mod _)) in Hst.
    assert (oldest s = length (polled s)) as Eo by (unfold oldest; by rewrite Hhw).
    destruct (si_slots s HI (length (polled s)) ltac:(rewrite Eo; lia)) as [Hs _].
    rewrite Hst, decide_True in Hs by lia. discriminate Hs. }
  split; [exact Hwin|]. destruct (si_slots s HI _ Hwin) as [Hs _]. rewrite Hst in Hs.
  destruct (decide (length (taken s) < length (taken s))%nat); [lia|].
  destruct (decide (length (taken s) < length (published s))%nat); [assumption|discriminate Hs].
Qed.

(** What a device round does. *)
Lemma device_reads s mem h len sid :
  SysInv s →
  device_round after_status (Z.of_nat depth) (Z.of_nat stride) (local_head s) (sys_mem s)
    = MDone (mem, (h, Some (len, sid))) →
  let k := length (taken s) in
  let sl := slot depth stride (sys_mem s) k in
  status_of sl = SLOT_READY ∧ len = length_of sl ∧ sid = sid_of sl ∧
  h = wrap 64 (Z.of_nat (k + 1)) ∧
  mem = splice (sys_mem s) (base depth stride k + 0) (to_le_bytes 4 after_status).
Proof.
  intros HI Hdev. cbv zeta. pose proof (si_mapped s HI) as Hm. unfold device_round in Hdev.
  rewrite (si_head s HI), slot_base_at in Hdev. unfold bar_bind in Hdev.
  rewrite <- (Nat.add_0_r (base depth stride (length (taken s)))) in Hdev at 1.
  rewrite read_slot in Hdev by (exact Hm || lia).
  destruct (Z.eqb_spec (field (slot depth stride (sys_mem s) (length (taken s))) 0) SLOT_READY)
    as [Est|]; [|apply MDone_inj in Hdev as [_ Hdev]; discriminate Hdev].
  rewrite (read_slot _ _ Hm 4), (read_slot _ _ Hm 8) in Hdev by lia.
  rewrite <- (Nat.add_0_r (base depth stride (length (taken s)))) in Hdev at 1.
  rewrite write_slot in Hdev by (exact Hm || lia). unfold bar_ret in Hdev.
  apply MDone_inj in Hdev as [<- Hdev].
  apply pair_equal_spec in Hdev as [<- Hdev]. apply (inj Some), pair_equal_spec in Hdev as [<- <-].
  split; [exact Est|]. split_and!; [reflexivity..| |reflexivity].
  rewrite Nat2Z.inj_add. apply wrapping_add_wrap.
Qed.

Lemma after_u32 : u32 after_status.
Proof. unfold after_status, in_uint, SLOT_DONE, SLOT_FREE. destruct hw; lia. Qed.

(** The slots after the device set the status of its head slot. *)
Lemma slots_device s recd :
  SysInv s → (oldest s ≤ length (taken s) < oldest s + depth)%nat →
  (length (taken s) < length (published s))%nat →
  let mem := splice (sys_mem s) (base depth stride (length (taken s)) + 0)
               (to_le_bytes 4 after_status) in
  let s' := mkSys mem (sys_tx s) (sys_cr s) (wrap 64 (Z.of_nat (length (taken s) + 1)))
              (writing s) (published s) (taken s ++ [recd]) (polled s) in
  ∀ k, (oldest s' ≤ k < oldest s' + depth)%nat → slot_inv s' k.
Proof.
  intros HI Hwin Hpub mem s' k Hk. pose proof depth_pos as Hd. pose proof (si_mapped s HI) as Hm.
  pose proof (si_room s HI) as Hroom. pose proof (si_writing s HI) as Hwr.
  pose proof (slot_len (sys_mem s) (length (taken s)) Hm) as Hsl.
  assert (oldest s ≤ oldest s' ∧ oldest s' ≤ oldest s + 1 ∧
    (oldest s' = oldest s + 1 → oldest s = length (taken s) ∧ hw = false) ∧
    (oldest s' = oldest s → hw = true))%nat as (Ho1 & Ho2 & Ho3 & Ho4).
  { unfold oldest, s'. cbn [polled taken]. rewrite length_app. cbn [length]. destruct hw; lia. }
  assert (length (taken s') = length (taken s) + 1)%nat as Et
    by (unfold s'; cbn [taken]; rewrite length_app; reflexivity).
  destruct (decide (k mod depth = length (taken s) mod depth)%nat) as [Em|Em].
  - assert (slot depth stride mem k =
      splice (slot depth stride (sys_mem s) (length (taken s))) 0 (to_le_bytes 4 after_status)) as Es.
    { rewrite (same_slot k (length (taken s))) by exact Em. unfold mem.
      apply slot_store_same; [exact depth_pos|exact Hm|rewrite to_le_length; lia|reflexivity]. }
    unfold slot_inv. rewrite Et. cbn [s' sys_mem published writing]. rewrite Es.
    unfold status_of, SLOT_HDR_STATUS. rewrite field_same by (lia || exact after_u32).
    destruct (decide (oldest s' = oldest s)) as [Eo|Eo].
    + assert (k = length (taken s)) as -> by (apply (window_inj depth depth_pos (oldest s)); lia).
      unfold after_status. rewrite (Ho4 Eo), decide_True by lia. split; [reflexivity|].
      destruct (si_slots s HI _ Hwin) as (_ & S2 & _).
      split; [intros _|split; [intros ? ? ?; lia|intros; lia]].
      unfold sid_of, SLOT_HDR_SID in *. rewrite field_other by (rewrite to_le_length; lia). by apply S2.
    + destruct (Ho3 ltac:(lia)) as [Eold Ehw].
      assert (k = length (taken s) + depth)%nat as ->.
      { apply (window_inj depth depth_pos (oldest s + 1)); [lia..|]. rewrite add_depth_mod. exact Em. }
      unfold after_status. rewrite Ehw, !decide_False by lia. split; [reflexivity|].
      split; [lia|]. split; [intros p Hp; apply lookup_lt_Some in Hp; lia|].
      intros p n Hw Hn. destruct (Hwr p n Hw). lia.
  - assert (slot depth stride mem k = slot depth stride (sys_mem s) k) as Es.
    { apply slot_store_other; [exact depth_pos|exact Hm|rewrite to_le_length; lia|congruence]. }
    assert (k ≠ length (taken s)) by congruence.
    assert (oldest s ≤ k < oldest s + depth)%nat as Hk'.
    { destruct (decide (oldest s' = oldest s)); [lia|]. destruct (Ho3 ltac:(lia)) as [Eold _].
      destruct (decide (k = length (taken s) + depth)%nat) as [->|]; [|lia].
      exfalso. apply Em, add_depth_mod. }
    destruct (si_slots s HI k Hk') as (S1 & S2 & S3 & S4).
    unfold slot_inv. rewrite Et. cbn [s' sys_mem published writing]. rewrite Es.
    split; [|split; [exact S2|split; [|exact S4]]].
    + rewrite S1. repeat case_decide; first [reflexivity|lia].
    + intros p Hp Hle. apply S3; [exact Hp|lia].
Qed.

Lemma taken_next pub d p :
  pub !! d = Some p →
  imap record_of (take d pub) ++ [record_of d p] = imap record_of (take (d + 1) pub).
Proof.
  intros Hp. rewrite Nat.add_1_r, (take_S_r _ _ p Hp), imap_app. f_equal. cbn. unfold compose.
  rewrite length_take, Nat.add_0_r, Nat.min_l; [reflexivity|].
  apply lookup_lt_Some in Hp. lia.
Qed.

Lemma inv_device s mem h len sid :
  SysInv s →
  device_round after_status (Z.of_nat depth) (Z.of_nat stride) (local_head s) (sys_mem s)
    = MDone (mem, (h, Some (len, sid))) →
  let b := (slot_base (Z.of_nat depth) (Z.of_nat stride) (local_head s)).2 in
  let data := slice (sys_mem s) (b + SLOT_PAYLOAD_OFFSET)
                (b + SLOT_PAYLOAD_OFFSET + Z.to_nat len) in
  SysInv (mkSys mem (sys_tx s) (sys_cr s) h (writing s) (published s)
            (taken s ++ [(len, sid, data)]) (polled s)).
Proof.
  intros HI Hdev. cbv zeta. destruct (device_reads s mem h len sid HI Hdev)
    as (Hst & -> & -> & -> & ->). destruct (head_ready s HI Hst) as [Hwin Hpub].
  pose proof (λ r, slots_device s r HI Hwin Hpub) as Hslots.
  rewrite (si_head s HI), slot_base_at. cbn [snd].
  destruct (lookup_lt_is_Some_2 (published s) (length (taken s)) Hpub) as [p Hp].
  pose proof (Forall_lookup_1 _ _ _ _ (si_messages s HI) Hp) as Hok. unfold message_ok in Hok.
  destruct (si_slots s HI _ Hwin) as (_ & S2 & S3 & _).
  destruct (S3 p Hp ltac:(lia)) as [Hlen Hdata]. rewrite Hlen, (S2 Hpub), Nat2Z.id.
  rewrite <- (slot_data depth stride depth_pos (sys_mem s) (length (taken s))) by exact Hok.
  rewrite Hdata. fold (record_of (length (taken s)) p).
  pose proof (si_order s HI). pose proof (si_room s HI).
  assert (oldest s ≤ (if hw then length (polled s) else length (taken s) + 1))%nat as Hold
    by (unfold oldest; destruct hw; lia).
  destruct HI as [I1 I2 I3 I4 I5 I6 I7 I8 I9 I10 I11]. constructor; [..|apply Hslots];
    unfold oldest in *;
    cbn [sys_mem sys_tx sys_cr local_head writing published taken polled] in *;
    rewrite ?length_app; cbn [length]; try assumption; try lia; try reflexivity.
  - apply mapped_slot_store; [exact I1|rewrite to_le_length; lia].
  - intros p' n Hw. destruct (I8 p' n Hw) as [? Hr]. split; [assumption|]. intros Hn.
    specialize (Hr Hn). destruct hw; lia.
  - rewrite I9 at 1. by apply taken_next.
Qed.

(** What a successful poll does, with the hardware device. *)
Lemma poll_reads s mem cr c :
  SysInv s → ring_poll (sys_cr s) (sys_mem s) = MDone (mem, (cr, Some c)) →
  let k := length (polled s) in
  let sl := slot depth stride (sys_mem s) k in
  status_of sl = SLOT_DONE ∧ c = mkRingCompletion (sid_of sl) (k mod depth) ∧
  cr = mkCompletionRing (Z.of_nat depth) (Z.of_nat stride) (wrap 64 (Z.of_nat (k + 1))) ∧
  mem = splice (sys_mem s) (base depth stride k + 0) (to_le_bytes 4 SLOT_FREE).
Proof.
  intros HI Hp. cbv zeta. pose proof (si_mapped s HI) as Hm. pose proof depth_pos as Hd.
  rewrite (si_cr s HI) in Hp. unfold ring_poll in Hp. cbn [cr_depth cr_slot_stride head] in Hp.
  destruct (Z.eqb_spec (Z.of_nat depth) 0); [lia|].
  rewrite slot_base_at in Hp. unfold bar_bind, SLOT_HDR_STATUS, SLOT_HDR_SID in Hp.
  rewrite read_slot in Hp by (exact Hm || lia).
  destruct (Z.eqb_spec (field (slot depth stride (sys_mem s) (length (polled s))) 0) SLOT_DONE)
    as [Est|]; [|apply MDone_inj in Hp as [_ Hp]; discriminate Hp].
  rewrite (read_slot _ _ Hm 8), write_slot in Hp by (exact Hm || lia). unfold bar_ret in Hp.
  apply MDone_inj in Hp as [<- Hp]. apply pair_equal_spec in Hp as [<- Hp].
  apply (inj Some) in Hp as <-. split; [exact Est|]. split_and!; [reflexivity| |reflexivity].
  f_equal. rewrite Nat2Z.inj_add. apply wrapping_add_wrap.
Qed.

Lemma poll_hw s :
  SysInv s → status_of (slot depth stride (sys_mem s) (length (polled s))) = SLOT_DONE →
  hw = true ∧ (length (polled s) < length (taken s))%nat.
Proof.
  intros HI Hst. destruct (window_cover (oldest s) (length (polled s))) as (k & Hk & Em).
  rewrite (same_slot _ k) in Hst by (symmetry; exact Em).
  destruct (si_slots s HI k Hk) as [Hs _]. rewrite Hst in Hs.
  destruct (decide (k < length (taken s))%nat) as [Hlt|].
  - unfold oldest in Hk. destruct hw; [|lia]. split; [reflexivity|]. lia.
  - destruct (decide (k < length (published s))%nat); discriminate Hs.
Qed.

Lemma inv_poll s mem cr c :
  SysInv s → writing s = None → ring_poll (sys_cr s) (sys_mem s) = MDone (mem, (cr, Some c)) →
  SysInv (mkSys mem (sys_tx s) cr (local_head s) (writing s) (published s) (taken s)
            (polled s ++ [c])).
Proof.
  intros HI Hw Hp. destruct (poll_reads s mem cr c HI Hp) as (Hst & -> & -> & ->).
  destruct (poll_hw s HI Hst) as [Hhw Hlt]. pose proof depth_pos as Hd.
  pose proof (si_mapped s HI) as Hm. pose proof (si_order s HI) as Ho. pose proof (si_room s HI) as Hr.
  pose proof (slot_len (sys_mem s) (length (polled s)) Hm) as Hsl.
  assert (oldest s = length (polled s)) as Eo by (unfold oldest; rewrite Hhw; reflexivity).
  destruct (si_slots s HI (length (polled s)) ltac:(lia)) as (_ & S2 & _).
  rewrite (S2 ltac:(lia)).
  destruct HI as [I1 I2 I3 I4 I5 I6 I7 I8 I9 I10 I11].
  assert (∀ s', polled s' = polled s ++ [mkRingCompletion (wrap 32 (Z.of_nat (length (polled s))))
    (length (polled s) mod depth)] → oldest s' = length (polled s) + 1)%nat as Eo'.
  { intros s' E. unfold oldest. rewrite Hhw, E, length_app. reflexivity. }
  constructor; repeat match goal with |- context [oldest ?x] => rewrite (Eo' x eq_refl) end;
    cbn [sys_mem sys_tx sys_cr local_head writing published taken polled];
    rewrite ?length_app; cbn [length]; try assumption; try lia; try reflexivity.
  - apply mapped_slot_store; [exact I1|rewrite to_le_length; lia].
  - intros p n E. rewrite Hw in E. discriminate E.
  - rewrite I10 at 1. rewrite seq_app, fmap_app. reflexivity.
  - intros k Hk. unfold slot_inv. cbn [sys_mem writing published taken].
    destruct (decide (k = length (polled s) + depth)%nat) as [->|Hne].
    + rewrite (same_slot _ (length (polled s)) _ (add_depth_mod _)).
      rewrite slot_store_same by (exact depth_pos || exact I1 || reflexivity || (rewrite to_le_length; lia)).
      unfold status_of, SLOT_HDR_STATUS.
      rewrite field_same by (unfold in_uint, SLOT_FREE; lia). rewrite !decide_False by lia.
      split; [reflexivity|]. split; [lia|]. split; [intros p Hp'; apply lookup_lt_Some in Hp'; lia|].
      intros p n E. rewrite Hw in E. discriminate E.
    + rewrite (window_store _ _ I1 (length (polled s))) by (rewrite ?to_le_length; lia).
      rewrite decide_False by lia. destruct (I11 k ltac:(lia)) as (T1 & T2 & T3 & T4). by split_and!.
Qed.

Lemma inv_sys_step s s' : SysInv s → sys_step s s' → SysInv s'.
Proof.
  intros HI Hst. destruct Hst.
  - by eapply inv_begin.
  - by apply inv_payload.
  - by apply inv_length.
  - by apply inv_sid.
  - by apply inv_ready.
  - by eapply inv_doorbell.
  - by apply inv_device.
  - by apply inv_poll.
Qed.

Lemma inv_reach s s' : SysInv s → rtc sys_step s s' → SysInv s'.
Proof. intros HI Hr. induction Hr; [exact HI|]. eauto using inv_sys_step. Qed.

(** The simulated device never completes a slot: nothing is ever polled. *)
Lemma nothing_polled s s' :
  hw = false → SysInv s → rtc sys_step s s' → polled s = [] → polled s' = [].
Proof.
  intros Hhw HI Hr. induction Hr as [|s s1 s2 Hst _ IH]; [done|]. intros Hp.
  apply IH; [eauto using inv_sys_step|]. destruct Hst as [| | | | | | |mem cr c Hw Hpoll]; try assumption.
  apply poll_reads in Hpoll as [Hd _]; [|exact HI]. apply poll_hw in Hd as [Hd _]; [|exact HI].
  rewrite Hhw in Hd. discriminate Hd.
Qed.

(** ** Progress *)

Lemma tail_free s :
  SysInv s →
  (status_of (slot depth stride (sys_mem s) (length (published s))) = SLOT_FREE ↔
   (length (published s) < oldest s + depth)%nat).
Proof.
  intros HI. pose proof depth_pos as Hd. pose proof (si_room s HI) as Hr.
  pose proof (si_order s HI) as Ho.
  assert (oldest s ≤ length (published s))%nat by (unfold oldest; destruct hw; lia).
  destruct (decide (length (published s) = oldest s + depth)%nat) as [E|].
  - rewrite E at 1. rewrite (same_slot _ (oldest s) _ (add_depth_mod _)).
    destruct (si_slots s HI (oldest s) ltac:(lia)) as [-> _].
    split; [|lia]. intros Hf. destruct (decide (oldest s < length (taken s))%nat);
      [discriminate Hf|]. destruct (decide (oldest s < length (published s))%nat); [discriminate Hf|lia].
  - destruct (si_slots s HI (length (published s)) ltac:(lia)) as [-> _].
    rewrite !decide_False by lia. split; [lia|reflexivity].
Qed.

Lemma fits_capacity s p :
  SysInv s → Z.of_nat (length p) ≤ slot_payload_capacity (sys_tx s) ↔ message_ok p.
Proof.
  intros HI. rewrite (si_tx s HI). unfold slot_payload_capacity. cbn [tx_slot_stride].
  unfold in_uint in stride_u32.
  rewrite wrap_small by (unfold in_uint, SLOT_PAYLOAD_OFFSET; lia).
  unfold message_ok, SLOT_PAYLOAD_OFFSET. lia.
Qed.

Definition after_submit (s : Sys) (mem : bytes) (p : bytes) : Sys :=
  mkSys mem (advance_tail (sys_tx s)) (sys_cr s) (local_head s) None (published s ++ [p])
    (taken s) (polled s).

Lemma payload_store_ok s p :
  SysInv s → message_ok p → ∃ mem, store_payload (tx_base s) p (sys_mem s) = MDone (mem, ()).
Proof.
  intros HI Hp. rewrite (tx_base_at s HI). unfold store_payload.
  rewrite copy_slot by (exact (si_mapped s HI) || exact Hp). by eexists.
Qed.

Lemma word_store_ok s off v :
  SysInv s → (off + 4 ≤ stride)%nat → ∃ mem, write32 (tx_base s + off) v (sys_mem s) = MDone (mem, ()).
Proof.
  intros HI Ho. rewrite (tx_base_at s HI), write_slot by (exact (si_mapped s HI) || exact Ho).
  by eexists.
Qed.

Lemma doorbell_ok s t : SysInv s → ∃ mem, ring_doorbell t (sys_mem s) = MDone (mem, ()).
Proof.
  intros HI. pose proof (si_mapped s HI) as Hm. pose proof ring_above_registers as Hr.
  unfold ring_doorbell, write32, write_le, mapped in *.
  destruct (Nat.leb_spec (REG_DOORBELL + 4) (length (sys_mem s))); [by eexists|lia].
Qed.

(** The stores of a submission, one step each, are [fill_slot]. *)
Lemma submit_steps s p :
  SysInv s → writing s = None → Z.of_nat (length p) ≤ slot_payload_capacity (sys_tx s) →
  (length (published s) < oldest s + depth)%nat →
  ∃ mem', fill_slot (sys_tx s) (tx_base s) p (sys_mem s) =
            MDone (mem', (advance_tail (sys_tx s), next_sid (sys_tx s))) ∧
          rtc sys_step s (after_submit s mem' p).
Proof.
  intros HI Hw Hp Hroom. pose proof (proj1 (fits_capacity s p HI) Hp) as Hok.
  set (wr m n pub r := mkSys m r (sys_cr s) (local_head s) (Some (p, n)) pub (taken s) (polled s)).
  set (s0 := wr (sys_mem s) 0%nat (published s) (sys_tx s)).
  assert (sys_step s s0) as T0.
  { refine (StepBegin s p _ Hw Hp _ (proj2 (tail_free s HI) Hroom)).
    rewrite (tx_base_at s HI). apply read_slot; [exact (si_mapped s HI)|].
    unfold SLOT_HDR_STATUS. lia. }
  pose proof (inv_sys_step _ _ HI T0) as I0. destruct (payload_store_ok s0 p I0 Hok) as [m1 E1].
  pose proof (StepPayload s0 p m1 eq_refl E1) as T1. pose proof (inv_sys_step _ _ I0 T1) as I1.
  set (s1 := wr m1 1%nat (published s) (sys_tx s)) in T1, I1.
  destruct (word_store_ok s1 SLOT_HDR_LENGTH (wrap 32 (Z.of_nat (length p))) I1) as [m2 E2];
    [unfold SLOT_HDR_LENGTH; lia|].
  pose proof (StepLength s1 p m2 eq_refl E2) as T2. pose proof (inv_sys_step _ _ I1 T2) as I2.
  set (s2 := wr m2 2%nat (published s) (sys_tx s)) in T2, I2.
  destruct (word_store_ok s2 SLOT_HDR_SID (next_sid (sys_tx s)) I2) as [m3 E3];
    [unfold SLOT_HDR_SID; lia|].
  pose proof (StepSid s2 p m3 eq_refl E3) as T3. pose proof (inv_sys_step _ _ I2 T3) as I3.
  set (s3 := wr m3 3%nat (published s) (sys_tx s)) in T3, I3.
  destruct (word_store_ok s3 SLOT_HDR_STATUS SLOT_READY I3) as [m4 E4];
    [unfold SLOT_HDR_STATUS; lia|].
  pose proof (StepReady s3 p m4 eq_refl E4) as T4. pose proof (inv_sys_step _ _ I3 T4) as I4.
  set (s4 := wr m4 4%nat (published s ++ [p]) (advance_tail (sys_tx s))) in T4, I4.
  destruct (doorbell_ok s4 (tail (advance_tail (sys_tx s))) I4) as [m5 E5].
  pose proof (StepDoorbell s4 p m5 eq_refl E5) as T5.
  exists m5. split.
  - unfold fill_slot, submission_stores, run_stores, bar_bind.
    change (store_payload (tx_base s) p (sys_mem s) = MDone (m1, ())) in E1. rewrite E1. cbv zeta.
    change (store_length (tx_base s) p m1 = MDone (m2, ())) in E2. rewrite E2.
    change (store_sid (tx_base s) (next_sid (sys_tx s)) m2 = MDone (m3, ())) in E3. rewrite E3.
    change (store_ready (tx_base s) m3 = MDone (m4, ())) in E4. rewrite E4.
    change (ring_doorbell (tail (advance_tail (sys_tx s))) m4 = MDone (m5, ())) in E5. rewrite E5.
    reflexivity.
  - eapply rtc_l; [exact T0|]. eapply rtc_l; [exact T1|]. eapply rtc_l; [exact T2|].
    eapply rtc_l; [exact T3|]. eapply rtc_l; [exact T4|]. apply rtc_once. exact T5.
Qed.

(** The state after store [k] of a submission of [p] that began with the ring [r]. *)
Definition after_store (s : Sys) (r : TxRing) (p : bytes) (k : nat) (mem : bytes) : Sys :=
  mkSys mem (if (3 <=? k)%nat then advance_tail r else r) (sys_cr s) (local_head s)
    (if (k =? 4)%nat then None else Some (p, S k))
    (if (k =? 3)%nat then published s ++ [p] else published s) (taken s) (polled s).

(** The host's steps are the stores of [fill_slot], in its order: with [k] stores of a
    submission done, the host's next step is exactly store [k] of the list that
    [fill_slot] runs, and no other. *)
Theorem host_stores_in_order s r p k op mem :
  writing s = Some (p, k) → sys_tx s = (if (k =? 4)%nat then advance_tail r else r) →
  submission_stores r (slot_base (tx_depth r) (tx_slot_stride r) (tail r)).2 p !! k = Some op →
  sys_step s (after_store s r p k mem) ↔ op (sys_mem s) = MDone (mem, ()).
Proof.
  intros Hw Htx Hop.
  assert (∀ (l : list (Z * Z * bytes)) x, l ≠ l ++ [x]) as Hne.
  { intros l x E. apply (f_equal length) in E. rewrite length_app in E. cbn in E. lia. }
  destruct k as [|[|[|[|[|k]]]]]; [..|done]; injection Hop as <-;
    unfold after_store; cbn [Nat.leb Nat.eqb] in *.
  5: { change (wrapping_add 64 (tail r) 1) with (tail (advance_tail r)). rewrite <- Htx. split.
       - intros Hst. by inversion Hst; simplify_eq.
       - by apply (StepDoorbell s p). }
  all: subst r; split;
    [intros Hst; inversion Hst; simplify_eq; try done; by destruct (Hne (taken s) (len, sid, data))|].
  - by apply StepPayload.
  - by apply StepLength.
  - by apply StepSid.
  - by apply StepReady.
Qed.

(** What the device finds at its head: the next message, or a slot that is not ready. *)
Lemma head_status s :
  SysInv s →
  read32 (base depth stride (length (taken s))) (sys_mem s) =
    MDone (sys_mem s, status_of (slot depth stride (sys_mem s) (length (taken s)))) ∧
  (status_of (slot depth stride (sys_mem s) (length (taken s))) = SLOT_READY ↔
   (length (taken s) < length (published s))%nat).
Proof.
  intros HI. pose proof (si_mapped s HI) as Hm. pose proof (si_order s HI) as Ho.
  pose proof (si_room s HI) as Hr. pose proof depth_pos as Hd. split.
  - rewrite <- (Nat.add_0_r (base depth stride (length (taken s)))). apply read_slot; [exact Hm|lia].
  - destruct (decide (length (taken s) < oldest s + depth)%nat) as [Hw|Hw].
    + destruct (si_slots s HI (length (taken s))) as [-> _]; [unfold oldest in *; destruct hw; lia|].
      rewrite decide_False by lia. case_decide as D; [tauto|]. split; [discriminate|lia].
    + assert (length (taken s) = length (polled s) + depth)%nat as E by (unfold oldest in *; destruct hw; lia).
      rewrite E at 1. rewrite (same_slot _ (length (polled s)) _ (add_depth_mod _)).
      destruct (si_slots s HI (length (polled s))) as [-> _]; [unfold oldest in *; destruct hw; lia|].
      rewrite decide_True by (unfold oldest in *; destruct hw; lia).
      split; [discriminate|unfold oldest in *; destruct hw; lia].
Qed.

(** The device takes the next message of a non-empty ring, and waits at an empty one. *)
Definition after_take (s : Sys) : bytes :=
  splice (sys_mem s) (base depth stride (length (taken s))) (to_le_bytes 4 after_status).

Lemma device_takes s :
  SysInv s → (length (taken s) < length (published s))%nat →
  ∃ len sid, device_round after_status (Z.of_nat depth) (Z.of_nat stride) (local_head s) (sys_mem s) =
    MDone (after_take s, (wrapping_add 64 (local_head s) 1, Some (len, sid))).
Proof.
  intros HI Hlt. pose proof (si_mapped s HI) as Hm. destruct (head_status s HI) as [Hrd Hs].
  apply Hs in Hlt. do 2 eexists. unfold device_round.
  rewrite (si_head s HI), slot_base_at. unfold bar_bind. rewrite Hrd, Hlt, Z.eqb_refl.
  rewrite (read_slot _ _ Hm 4), (read_slot _ _ Hm 8) by lia.
  rewrite <- (Nat.add_0_r (base depth stride (length (taken s)))) at 1.
  rewrite write_slot by (exact Hm || lia). rewrite Nat.add_0_r. reflexivity.
Qed.

Lemma device_waits s :
  SysInv s → length (taken s) = length (published s) →
  device_round after_status (Z.of_nat depth) (Z.of_nat stride) (local_head s) (sys_mem s) =
    MDone (sys_mem s, (local_head s, None)).
Proof.
  intros HI Heq. destruct (head_status s HI) as [Hrd Hs]. unfold device_round.
  rewrite (si_head s HI), slot_base_at. unfold bar_bind. rewrite Hrd.
  destruct (Z.eqb_spec (status_of (slot depth stride (sys_mem s) (length (taken s)))) SLOT_READY) as [E|E];
    [|reflexivity]. apply Hs in E. lia.
Qed.

Lemma device_progress s :
  SysInv s → (length (taken s) < length (published s))%nat →
  ∃ rec, sys_step s (mkSys (after_take s) (sys_tx s) (sys_cr s) (wrapping_add 64 (local_head s) 1)
                       (writing s) (published s) (taken s ++ [rec]) (polled s)).
Proof.
  intros HI Hlt. destruct (device_takes s HI Hlt) as (len & sid & Hd).
  eexists. by eapply StepDevice.
Qed.

(** The host polls the next completion the hardware left. *)
Lemma poll_progress s :
  SysInv s → hw = true → writing s = None → (length (polled s) < length (taken s))%nat →
  ∃ mem cr c, sys_step s (mkSys mem (sys_tx s) cr (local_head s) (writing s) (published s)
                            (taken s) (polled s ++ [c])).
Proof.
  intros HI Hhw Hw Hlt. pose proof (si_mapped s HI) as Hm. pose proof depth_pos as Hd.
  assert (oldest s = length (polled s)) as Eo by (unfold oldest; by rewrite Hhw).
  destruct (si_slots s HI (length (polled s)) ltac:(rewrite Eo; lia)) as [Hs _].
  rewrite decide_True in Hs by lia. unfold status_of in Hs.
  do 3 eexists. eapply StepPoll; [exact Hw|]. rewrite (si_cr s HI). unfold ring_poll.
  cbn [cr_depth cr_slot_stride head]. destruct (Z.eqb_spec (Z.of_nat depth) 0); [lia|].
  rewrite slot_base_at. unfold bar_bind.
  rewrite read_slot by (exact Hm || (unfold SLOT_HDR_STATUS; lia)). rewrite Hs, Z.eqb_refl.
  rewrite read_slot by (exact Hm || (unfold SLOT_HDR_SID; lia)).
  rewrite write_slot by (exact Hm || (unfold SLOT_HDR_STATUS; lia)). reflexivity.
Qed.
End system.

(** ** Opening a queue *)

(** Configurations the arithmetic of [open] does not overflow on. *)
Record Config_ok (c : ModqConfig) (e : nat) : Prop := {
  co_e : (e ≤ 31)%nat;
  co_depth : ring_depth c = 2 ^ Z.of_nat e;
  co_size : 0 ≤ slot_size c;
  co_fits : slot_size c + 79 < 2 ^ 32;
}.

Lemma round_up_64 n :
  0 ≤ n → n + 63 < 2 ^ 32 →
  let r := Z.land (n + 63) (u32_not 63) in
  r mod 64 = 0 ∧ n ≤ r < n + 64.
Proof.
  intros Hn Hb. cbv zeta.
  rewrite land_u32_not by (unfold in_uint; lia). change 63 with (Z.ones 6).
  rewrite Z.ldiff_ones_r, Z.shiftl_mul_pow2, Z.shiftr_div_pow2 by lia.
  change (2 ^ 6) with 64. change (Z.ones 6) with 63.
  pose proof (Z.div_mod (n + 63) 64 ltac:(lia)).
  pose proof (Z.mod_pos_bound (n + 63) 64 ltac:(lia)).
  split; [apply Z.mod_mul; lia|lia].
Qed.

Lemma stride_agree c : stride_of (slot_size c) = modq_stride c.
Proof.
  unfold stride_of, modq_stride, wrapping_add. change (Z.of_nat SLOT_PAYLOAD_OFFSET) with 16.
  by rewrite (Z.add_comm 16).
Qed.

Lemma stride_facts c e :
  Config_ok c e →
  modq_stride c mod 64 = 0 ∧ slot_size c + 16 ≤ modq_stride c < slot_size c + 80.
Proof.
  intros [_ _ H0 Hf]. unfold modq_stride, wrapping_add.
  rewrite !wrap_small by (rewrite ?wrap_small; unfold in_uint; lia).
  pose proof (round_up_64 (slot_size c + 16) ltac:(lia) ltac:(lia)) as [? ?]. split; [done|lia].
Qed.

Lemma is_power_of_two_iff n : is_power_of_two n = true ↔ ∃ e : nat, n = 2 ^ Z.of_nat e.
Proof.
  unfold is_power_of_two. rewrite andb_true_iff, Z.ltb_lt, Z.eqb_eq. split.
  - intros [Hn Hl]. exists (Z.to_nat (Z.log2 n)). pose proof (Z.log2_nonneg n).
    rewrite Z2Nat.id by done. destruct (Z.log2_spec n Hn) as [Hlo Hhi].
    destruct (Z.eq_dec n (2 ^ Z.log2 n)) as [|Hne]; [done|exfalso].
    assert (Z.log2 (n - 1) = Z.log2 n) as El by (apply Z.log2_unique; lia).
    apply (f_equal (λ z, Z.testbit z (Z.log2 n))) in Hl.
    rewrite Z.land_spec, Z.bit_log2, Z.bits_0 in Hl by done.
    rewrite <- El, Z.bit_log2 in Hl by lia. done.
  - intros [e ->]. split; [lia|].
    replace (2 ^ Z.of_nat e - 1) with (Z.ones (Z.of_nat e)) by (rewrite Z.ones_equiv; lia).
    rewrite Z.land_ones by lia. apply Z.mod_same. lia.
Qed.

Lemma write_in n off v mem :
  (off + n ≤ length mem)%nat → write_le n off v mem = MDone (splice mem off (to_le_bytes n v), ()).
Proof. intros. unfold write_le. by destruct (Nat.leb_spec (off + n) (length mem)); [|lia]. Qed.

(** [free_slots] frees the slots it visits and keeps the others. *)
Lemma free_slots_spec e stride n : ∀ i mem,
  (e ≤ 31)%nat → (64 ≤ stride)%nat → (i + n = 2 ^ e)%nat → mapped (2 ^ e) stride mem →
  ∃ mem', free_slots n i stride mem = MDone (mem', ()) ∧ length mem' = length mem ∧
    ∀ k, (k < 2 ^ e)%nat →
      ((i ≤ k)%nat → status_of (slot (2 ^ e) stride mem' k) = SLOT_FREE) ∧
      ((k < i)%nat → slot (2 ^ e) stride mem' k = slot (2 ^ e) stride mem k).
Proof.
  induction n as [|n IH]; intros i mem He Hs Hi Hm; cbn [free_slots].
  { exists mem. split_and!; try done. intros k Hk. split; [lia|done]. }
  pose proof (depth_pos e stride He Hs) as Hd.
  assert (base (2 ^ e) stride i + 0 = RING_BASE + i * stride)%nat as Eb
    by (unfold base; rewrite Nat.mod_small by lia; lia).
  pose proof (base_in (2 ^ e) stride Hd mem i Hm) as Hbi.
  unfold bar_bind, write32. rewrite write_in by lia. rewrite <- Eb.
  assert (∀ k, (k < 2 ^ e)%nat →
    slot (2 ^ e) stride (splice mem (base (2 ^ e) stride i + 0) (to_le_bytes 4 SLOT_FREE)) k =
    if decide (k = i) then splice (slot (2 ^ e) stride mem i) 0 (to_le_bytes 4 SLOT_FREE)
    else slot (2 ^ e) stride mem k) as Hsl.
  { intros k Hk. eapply (window_store e stride) with (l := 0%nat); try assumption; try lia.
    rewrite to_le_length. lia. }
  assert (mapped (2 ^ e) stride
    (splice mem (base (2 ^ e) stride i + 0) (to_le_bytes 4 SLOT_FREE))) as Hm'.
  { apply mapped_store; [exact Hm|]. rewrite to_le_length. lia. }
  destruct (IH (S i) _ He Hs ltac:(lia) Hm') as (mem' & Hf & Hl & Hk').
  exists mem'. split; [exact Hf|]. split.
  { rewrite Hl, splice_length; [reflexivity|]. rewrite to_le_length. lia. }
  intros k Hk. destruct (Hk' k Hk) as [Ha Hb]. rewrite Hsl in Hb by exact Hk. split.
  - intros Hik. destruct (decide (k = i)) as [->|]; [|apply Ha; lia].
    rewrite Hb by lia. unfold status_of, SLOT_HDR_STATUS. apply field_same.
    + rewrite slot_length by assumption. lia.
    + unfold in_uint, SLOT_FREE. lia.
  - intros Hki. rewrite Hb by lia. by rewrite decide_False by lia.
Qed.

Lemma free_slots_regs stride off n : ∀ i mem mem',
  free_slots n i stride mem = MDone (mem', ()) → (off + 4 ≤ RING_BASE)%nat →
  slice mem' off (off + 4) = slice mem off (off + 4).
Proof.
  induction n as [|n IH]; intros i mem mem' Hf Ho; cbn [free_slots] in Hf.
  { by apply MDone_inj in Hf as [-> _]. }
  unfold bar_bind, write32, write_le in Hf.
  destruct (Nat.leb_spec (RING_BASE + i * stride + 4) (length mem)); [|discriminate Hf].
  rewrite (IH _ _ _ Hf Ho). apply slice_splice_other; rewrite to_le_length; lia.
Qed.

(** The state of a freshly opened queue and an idle device. *)
Definition sys_init (q : ModqQueue) (mem : bytes) : Sys :=
  mkSys mem (tx q) (cring q) 0 None [] [] [].

Definition fresh_queue (c : ModqConfig) : ModqQueue :=
  mkModqQueue (TxRing_with_params (ring_depth c) (slot_size c))
    (CompletionRing_new (ring_depth c) (modq_stride c)) c.

(** The four register writes of [modq_init]. *)
Lemma init_registers c mem :
  (RING_BASE ≤ length mem)%nat →
  ∃ mem', length mem' = length mem ∧
    slice mem' REG_DEPTH (REG_DEPTH + 4) = to_le_bytes 4 (ring_depth c) ∧
    slice mem' REG_SLOT_SIZE (REG_SLOT_SIZE + 4) = to_le_bytes 4 (slot_size c) ∧
    modq_init c mem =
      free_slots (Z.to_nat (ring_depth c)) 0 (Z.to_nat (modq_stride c)) mem'.
Proof.
  intros Hlen. pose proof ring_above_registers as Hreg. unfold REG_DOORBELL in Hreg.
  unfold modq_init, bar_bind, write32, write64.
  rewrite write_in by (unfold REG_DEPTH; lia). set (m1 := splice mem REG_DEPTH _).
  assert (length m1 = length mem) as L1
    by (unfold m1; rewrite splice_length; rewrite ?to_le_length; unfold REG_DEPTH; lia).
  rewrite write_in by (unfold REG_SLOT_SIZE; lia). set (m2 := splice m1 REG_SLOT_SIZE _).
  assert (length m2 = length mem) as L2
    by (unfold m2; rewrite splice_length; rewrite ?to_le_length; unfold REG_SLOT_SIZE; lia).
  rewrite write_in by (unfold REG_HEAD; lia). set (m3 := splice m2 REG_HEAD _).
  assert (length m3 = length mem) as L3
    by (unfold m3; rewrite splice_length; rewrite ?to_le_length; unfold REG_HEAD; lia).
  rewrite write_in by (unfold REG_TAIL; lia). set (m4 := splice m3 REG_TAIL _).
  exists m4. unfold m4. split.
  { rewrite splice_length; rewrite ?to_le_length; unfold REG_TAIL; lia. }
  rewrite !(slice_splice_other m3)
    by (rewrite ?to_le_length; unfold REG_DEPTH, REG_SLOT_SIZE, REG_TAIL; lia).
  unfold m3. rewrite !(slice_splice_other m2)
    by (rewrite ?to_le_length; unfold REG_DEPTH, REG_SLOT_SIZE, REG_HEAD; lia).
  unfold m2. rewrite (slice_splice_other m1 REG_SLOT_SIZE _ REG_DEPTH), (slice_splice_same m1)
    by (rewrite ?to_le_length; unfold REG_DEPTH, REG_SLOT_SIZE; lia).
  unfold m1. rewrite slice_splice_same by (rewrite ?to_le_length; unfold REG_DEPTH; lia).
  split_and!; reflexivity.
Qed.

Section opening.
Context (c : ModqConfig) (e : nat) (Hc : Config_ok c e).
Let stride : nat := Z.to_nat (modq_stride c).

Lemma open_stride : (64 ≤ stride)%nat ∧ Z.of_nat stride = modq_stride c ∧ u32 (modq_stride c).
Proof.
  destruct (stride_facts c e Hc) as [Hm Hr]. destruct Hc as [_ _ H0 Hf].
  assert (64 ≤ modq_stride c) as H64.
  { destruct (Z.le_gt_cases 64 (modq_stride c)); [assumption|].
    pose proof (Z.div_mod (modq_stride c) 64 ltac:(lia)). lia. }
  split_and!; [unfold stride; lia|unfold stride; lia|].
  unfold modq_stride in *. rewrite land_u32_not in * by (unfold in_uint; (by apply wrap_range) || lia).
  split; [lia|]. eapply Z.le_lt_trans; [|apply (wrap_range 32); lia].
  change 63 with (Z.ones 6). rewrite Z.ldiff_ones_r, Z.shiftl_mul_pow2, Z.shiftr_div_pow2 by lia.
  rewrite Z.mul_comm. apply Z.mul_div_le. lia.
Qed.

Lemma depth_nat : Z.to_nat (ring_depth c) = (2 ^ e)%nat.
Proof. rewrite (co_depth c e Hc). rewrite <- (Nat2Z.id (2 ^ e)), Nat2Z.inj_pow. done. Qed.

Lemma init_mapped mem :
  modq_total_size c ≤ Z.of_nat (length mem) → mapped (2 ^ e) stride mem.
Proof.
  destruct open_stride as (_ & Es & _). unfold modq_total_size, mapped.
  rewrite <- Es, (co_depth c e Hc), <- (depth_Z e). lia.
Qed.

(** The registers, then the slots. *)
Lemma modq_init_ok mem :
  modq_total_size c ≤ Z.of_nat (length mem) →
  ∃ mem', modq_init c mem = MDone (mem', ()) ∧ mapped (2 ^ e) stride mem' ∧
    length mem' = length mem ∧
    (∀ k, status_of (slot (2 ^ e) stride mem' k) = SLOT_FREE) ∧
    TxRing_new mem' = MDone (mem', TxRing_with_params (ring_depth c) (slot_size c)).
Proof.
  intros Hl. pose proof (init_mapped mem Hl) as Hm. destruct open_stride as (Hs & Es & _).
  pose proof Hc as [He Hd H0 Hf].
  assert (RING_BASE ≤ length mem)%nat as Hlen by (unfold mapped in Hm; lia).
  pose proof ring_above_registers as Hreg. unfold REG_DOORBELL in Hreg.
  destruct (init_registers c mem Hlen) as (m & L & Rd & Rs & ->).
  assert (mapped (2 ^ e) stride m) as Hm4 by (unfold mapped in *; lia).
  rewrite depth_nat. fold stride.
  destruct (free_slots_spec e stride (2 ^ e) 0 m He Hs eq_refl Hm4) as (mem' & Hfree & L' & Hk).
  exists mem'. split; [exact Hfree|]. split; [unfold mapped in *; lia|]. split; [lia|]. split.
  - intros k. pose proof (depth_pos e stride He Hs) as Hdp.
    rewrite <- (same_slot e stride (k mod 2 ^ e) k)
      by (apply Nat.Div0.mod_mod).
    apply Hk; [apply Nat.mod_upper_bound; lia|lia].
  - unfold TxRing_new, bar_bind, read32, read_le.
    destruct (Nat.leb_spec (REG_DEPTH + 4) (length mem')); [|unfold REG_DEPTH in *; lia].
    destruct (Nat.leb_spec (REG_SLOT_SIZE + 4) (length mem')); [|unfold REG_SLOT_SIZE in *; lia].
    rewrite !(free_slots_regs _ _ _ _ _ _ Hfree) by (unfold REG_DEPTH, REG_SLOT_SIZE; lia).
    rewrite Rd, Rs.
    rewrite !from_to_le32; [reflexivity|unfold in_uint; lia|].
    unfold in_uint. rewrite Hd. split; [lia|]. apply Z.pow_lt_mono_r; lia.
Qed.

Lemma sys_init_inv hw mem :
  mapped (2 ^ e) stride mem → (∀ k, status_of (slot (2 ^ e) stride mem k) = SLOT_FREE) →
  SysInv e stride hw (sys_init (fresh_queue c) mem).
Proof.
  intros Hm Hk. destruct open_stride as (Hs & Es & _).
  constructor; cbn [sys_init fresh_queue tx cring sys_mem sys_tx sys_cr local_head writing published taken polled length].
  - exact Hm.
  - unfold TxRing_with_params. rewrite stride_agree, Es, depth_Z, (co_depth c e Hc). reflexivity.
  - unfold CompletionRing_new. rewrite Es, depth_Z, (co_depth c e Hc). reflexivity.
  - reflexivity.
  - lia.
  - destruct hw; cbn; lia.
  - constructor.
  - intros p n E. discriminate E.
  - reflexivity.
  - reflexivity.
  - intros k _. unfold slot_inv. cbn [sys_init fresh_queue tx cring sys_mem writing published taken length].
    rewrite Hk, !decide_False by lia. split; [reflexivity|]. split; [lia|].
    split; [intros p Hp; rewrite lookup_nil in Hp; discriminate Hp|intros p n E; discriminate E].
Qed.
End opening.

(** ** Submission *)

Fixpoint dev_trace (dev : nat → bytes → bytes) (i n : nat) (mem : bytes) : bytes :=
  match n with
  | O => mem
  | S n => dev_trace dev (S i) n (dev i mem)
  end.

(** The status word at [base] reads as [st]. *)
Definition status_at (base : nat) (mem : bytes) (st : Z) : Prop :=
  read32 (base + SLOT_HDR_STATUS) mem = MDone (mem, st).

Definition busy (base : nat) (mem : bytes) : Prop := ∃ st, status_at base mem st ∧ st ≠ SLOT_FREE.

Lemma wait_free_ok dev base j : ∀ fuel i spins mem,
  (j < fuel)%nat → spins + Z.of_nat j ≤ SPIN_LIMIT →
  (∀ n, (n < j)%nat → busy base (dev_trace dev i n mem)) →
  status_at base (dev_trace dev i j mem) SLOT_FREE →
  wait_free fuel dev i spins base mem = Some (MDone (dev_trace dev i j mem, true)) ∧
  spin_free fuel dev i base mem = Some (MDone (dev_trace dev i j mem)).
Proof.
  unfold status_at. induction j as [|j IH]; intros [|fuel] i spins mem Hf Hs Hb Hfree; try lia;
    cbn [wait_free spin_free dev_trace] in *.
  - by rewrite Hfree.
  - destruct (Hb 0%nat ltac:(lia)) as (st & Hst & Hne). unfold status_at in Hst.
    cbn [dev_trace] in Hst. rewrite Hst.
    destruct (Z.eqb_spec st SLOT_FREE); [contradiction|]. cbn [negb].
    destruct (Z.ltb_spec SPIN_LIMIT (spins + 1)); [lia|].
    apply IH; [lia|lia| |exact Hfree]. intros m Hm. apply (Hb (S m)). lia.
Qed.

Lemma wait_free_timeout base mem fuel : ∀ i spins,
  busy base mem → spins ≤ SPIN_LIMIT → SPIN_LIMIT < spins + Z.of_nat fuel →
  wait_free fuel (λ _ m, m) i spins base mem = Some (MDone (mem, false)).
Proof.
  induction fuel as [|fuel IH]; intros i spins Hb Hs Hf; [lia|]. cbn [wait_free].
  pose proof Hb as (st & Hst & Hne). unfold status_at in Hst. rewrite Hst.
  destruct (Z.eqb_spec st SLOT_FREE); [contradiction|].
  destruct (Z.ltb_spec SPIN_LIMIT (spins + 1)); [reflexivity|]. apply IH; [exact Hb|lia|lia].
Qed.

(** ** The queue from opening on *)

(** [s] is reached from a queue opened in loopback mode on a shared-memory object
    of the size asked for, whatever it contained. *)
Definition reachable (c : ModqConfig) (e : nat) (hw : bool) (s : Sys) : Prop :=
  ∃ bar_open bar_open_shm shm mem mem' q,
    transport c = Loopback shm ∧ bar_open_shm shm (modq_total_size c) = Ok mem ∧
    Z.of_nat (length mem) = modq_total_size c ∧
    modq_open bar_open bar_open_shm c = MDone (Ok (mem', q)) ∧
    rtc (sys_step e (Z.to_nat (modq_stride c)) hw) (sys_init q mem') s.

Section queue.
Context (c : ModqConfig) (e : nat) (Hc : Config_ok c e).
Let stride : nat := Z.to_nat (modq_stride c).

Lemma open_loopback bar_open bar_open_shm shm mem :
  transport c = Loopback shm → bar_open_shm shm (modq_total_size c) = Ok mem →
  Z.of_nat (length mem) = modq_total_size c →
  ∃ mem', modq_open bar_open bar_open_shm c = MDone (Ok (mem', fresh_queue c)) ∧
    length mem' = length mem ∧
    TxRing_new mem' = MDone (mem', tx (fresh_queue c)) ∧
    (∀ k, status_of (slot (2 ^ e) stride mem' k) = SLOT_FREE) ∧
    ∀ hw, SysInv e stride hw (sys_init (fresh_queue c) mem').
Proof.
  intros Ht Hmap Hl. destruct (modq_init_ok c e Hc mem ltac:(lia)) as (mem' & Hi & Hm & L & Hk & Hn).
  exists mem'. split.
  - unfold modq_open. rewrite (proj2 (is_power_of_two_iff (ring_depth c)))
      by (exists e; exact (co_depth c e Hc)).
    cbn [negb]. rewrite Ht, Hmap, Hi. reflexivity.
  - split; [exact L|]. split; [exact Hn|]. split; [exact Hk|].
    intros hw. apply (sys_init_inv c e Hc); assumption.
Qed.

Lemma queue_inv hw s : reachable c e hw s → SysInv e stride hw s.
Proof.
  intros (bo & bs & shm & mem & mem' & q & Ht & Hmap & Hl & Ho & Hr).
  destruct (open_loopback bo bs shm mem Ht Hmap Hl) as (mem2 & Ho2 & _ & _ & _ & HI).
  rewrite Ho in Ho2. injection Ho2 as -> ->.
  destruct (open_stride c e Hc) as (Hs & Es & Hu). fold stride in Hs, Es.
  eapply inv_reach; [exact (co_e c e Hc)|exact Hs|rewrite Es; exact Hu|exact (HI hw)|exact Hr].
Qed.

Lemma capacity_at hw s : SysInv e stride hw s → slot_payload_capacity (sys_tx s) = modq_stride c - 16.
Proof.
  intros HI. rewrite (si_tx _ _ _ _ HI). unfold slot_payload_capacity. cbn [tx_slot_stride].
  destruct (open_stride c e Hc) as (Hs & Es & Hu). fold stride in Hs, Es. rewrite Es.
  change (Z.of_nat SLOT_PAYLOAD_OFFSET) with 16. unfold in_uint in Hu.
  apply wrap_small. unfold in_uint. lia.
Qed.

Lemma tx_fields hw s :
  SysInv e stride hw s →
  (tx_depth (sys_tx s) =? 0) = false ∧ next_sid (sys_tx s) = wrap 32 (Z.of_nat (length (published s))) ∧
  slot_base (tx_depth (sys_tx s)) (tx_slot_stride (sys_tx s)) (tail (sys_tx s)) =
    (length (published s) mod 2 ^ e, tx_base s)%nat.
Proof.
  intros HI. destruct (open_stride c e Hc) as (Hs & Es & Hu). fold stride in Hs, Es.
  pose proof (depth_pos e stride (co_e c e Hc) Hs) as Hd.
  rewrite (tx_base_at e stride hw (co_e c e Hc) s HI), (si_tx _ _ _ _ HI).
  cbn [tx_depth tx_slot_stride tail next_sid]. split; [apply Z.eqb_neq; lia|]. split; [reflexivity|].
  apply (slot_base_at e stride (co_e c e Hc)).
Qed.
End queue.

(** ** What the queue guarantees *)

(** Opening in loopback mode.  A depth that is not a power of two (0 included) is
    refused with [InvalidRingDepth], whatever the transport.  For a power of two and a
    slot size whose stride fits, [open] succeeds on any content of the shared-memory
    object: every slot is FREE, the two rings agree on depth and stride, the stride is
    the multiple of 64 just above the slot size plus its header, the payload capacity
    covers the slot size, and a ring built from the registers ([TxRing::new]) is the
    one [open] returned. *)
Theorem modq_open_spec c bar_open bar_open_shm :
  ((∀ e : nat, ring_depth c ≠ 2 ^ Z.of_nat e) →
   modq_open bar_open bar_open_shm c = MDone (Err (InvalidRingDepth (ring_depth c)))) ∧
  ∀ e shm mem,
    Config_ok c e → transport c = Loopback shm → bar_open_shm shm (modq_total_size c) = Ok mem →
    Z.of_nat (length mem) = modq_total_size c →
    ∃ mem' q, modq_open bar_open bar_open_shm c = MDone (Ok (mem', q)) ∧
      length mem' = length mem ∧ TxRing_new mem' = MDone (mem', tx q) ∧
      cr_depth (cring q) = tx_depth (tx q) ∧ cr_slot_stride (cring q) = tx_slot_stride (tx q) ∧
      tx_slot_stride (tx q) mod 64 = 0 ∧
      slot_size c + 16 ≤ tx_slot_stride (tx q) < slot_size c + 80 ∧
      slot_size c ≤ slot_payload_capacity (tx q) ∧
      ∀ k, status_of (slot (2 ^ e) (Z.to_nat (tx_slot_stride (tx q))) mem' k) = SLOT_FREE.
Proof.
  split.
  - intros Hn. unfold modq_open. destruct (is_power_of_two (ring_depth c)) eqn:E; [|reflexivity].
    apply is_power_of_two_iff in E as [e E]. destruct (Hn e E).
  - intros e shm mem Hc Ht Hmap Hl.
    destruct (open_loopback c e Hc bar_open bar_open_shm shm mem Ht Hmap Hl)
      as (mem' & Ho & L & Hn & Hk & HI).
    pose proof (capacity_at c e Hc false _ (HI false)) as Hcap. cbn [sys_init sys_tx] in Hcap.
    destruct (stride_facts c e Hc) as [Hm Hr].
    exists mem', (fresh_queue c). split; [exact Ho|]. split; [exact L|]. split; [exact Hn|].
    rewrite Hcap. cbn [fresh_queue tx cring CompletionRing_new cr_depth cr_slot_stride
      TxRing_with_params tx_depth tx_slot_stride]. rewrite stride_agree.
    split; [reflexivity|]. split; [reflexivity|]. split; [exact Hm|]. split; [exact Hr|].
    split; [lia|]. exact Hk.
Qed.

(** C1: Order and integrity on the ring.  From a queue opened in loopback mode, under any
    interleaving of the host's individual stores, the device's rounds and the host's
    polls: the device takes the submitted payloads in submission order, each exactly
    once, with the length, the sequence id and every byte as submitted (never a
    half-written slot, also after the slot index has wrapped); at most [depth] messages
    are outstanding; and completions are polled in order with the sequence ids and slot
    indices of the messages.  With the simulated device, which frees slots itself,
    nothing is ever polled. *)
Theorem ring_fifo c e hw s :
  Config_ok c e → reachable c e hw s →
  taken s = imap record_of (take (length (taken s)) (published s)) ∧
  polled s = (λ k, mkRingCompletion (wrap 32 (Z.of_nat k)) (k mod 2 ^ e)%nat)
               <$> seq 0 (length (polled s)) ∧
  (length (polled s) ≤ length (taken s) ≤ length (published s))%nat ∧
  (length (published s) ≤ (if hw then length (polled s) else length (taken s)) + 2 ^ e)%nat ∧
  (hw = false → polled s = []).
Proof.
  intros Hc Hr. pose proof (queue_inv c e Hc hw s Hr) as HI.
  split; [exact (si_taken _ _ _ _ HI)|]. split; [exact (si_polled _ _ _ _ HI)|].
  split; [exact (si_order _ _ _ _ HI)|]. split; [exact (si_room _ _ _ _ HI)|].
  intros Hhw. destruct Hr as (bo & bs & shm & mem & mem' & q & Ht & Hmap & Hl & Ho & Hr).
  destruct (open_stride c e Hc) as (Hs & Es & Hu).
  eapply (nothing_polled e (Z.to_nat (modq_stride c)) hw (co_e c e Hc) Hs);
    [rewrite Es; exact Hu|exact Hhw| |exact Hr|reflexivity].
  apply (queue_inv c e Hc). do 6 eexists. split_and!; [eassumption..|apply rtc_refl].
Qed.

(** [submit] from [s] when the wait ends in [s'], whose tail slot is free. *)
Lemma submit_run c e hw s s' dev j fuel p :
  Config_ok c e → SysInv e (Z.to_nat (modq_stride c)) hw s → SysInv e (Z.to_nat (modq_stride c)) hw s' →
  writing s' = None → sys_tx s' = sys_tx s → sys_mem s' = dev_trace dev 0 j (sys_mem s) →
  Z.of_nat (length p) ≤ modq_stride c - 16 →
  (length (published s') < oldest hw s' + 2 ^ e)%nat →
  (∀ n, (n < j)%nat → busy (tx_base s) (dev_trace dev 0 n (sys_mem s))) →
  Z.of_nat j ≤ SPIN_LIMIT → (j < fuel)%nat →
  ∃ mem',
    submit fuel dev (sys_tx s) p (sys_mem s) =
      Some (MDone (mem', (advance_tail (sys_tx s), Ok (wrap 32 (Z.of_nat (length (published s'))))))) ∧
    submit_unchecked fuel dev (sys_tx s) p (sys_mem s) =
      Some (MDone (mem', (advance_tail (sys_tx s), wrap 32 (Z.of_nat (length (published s')))))) ∧
    rtc (sys_step e (Z.to_nat (modq_stride c)) hw) s' (after_submit s' mem' p).
Proof.
  intros Hc HI HI' Hw Etx Emem Hp Hroom Hbusy Hj Hfuel. destruct (open_stride c e Hc) as (Hs & Es & Hu).
  assert (u32 (Z.of_nat (Z.to_nat (modq_stride c)))) as Hu' by (rewrite Es; exact Hu).
  destruct (submit_steps e _ hw (co_e c e Hc) Hs Hu' s' p HI' Hw) as (mem' & Hfill & Hsteps).
  { rewrite (capacity_at c e Hc hw s' HI'). exact Hp. }
  { exact Hroom. }
  destruct (tx_fields c e Hc hw s' HI') as (Hd & Hsid & Hbase). rewrite Etx in Hd, Hsid, Hbase.
  assert (tx_base s' = tx_base s) as Eb by (unfold tx_base; rewrite Etx; reflexivity).
  rewrite Eb in Hbase, Hfill. rewrite Etx, Hsid in Hfill. rewrite Emem in Hfill.
  destruct (wait_free_ok dev (tx_base s) j fuel 0 0 (sys_mem s) Hfuel ltac:(lia) Hbusy) as [Hwf Hsf].
  { unfold status_at. rewrite <- Emem, <- Eb, (tx_base_at e _ hw (co_e c e Hc) s' HI').
    rewrite (read_slot e _ (co_e c e Hc) Hs _ _ (si_mapped _ _ _ _ HI'))
      by (unfold SLOT_HDR_STATUS; lia).
    do 2 f_equal. apply (tail_free e _ hw (co_e c e Hc) Hs s' HI'). exact Hroom. }
  exists mem'. split_and!; [| |exact Hsteps].
  - unfold submit. cbv zeta. rewrite (capacity_at c e Hc hw s HI).
    destruct (Z.ltb_spec (modq_stride c - 16) (Z.of_nat (length p))); [lia|].
    rewrite Hd, Hbase, Hwf, Hfill. reflexivity.
  - unfold submit_unchecked. rewrite Hd, Hbase, Hsf, Hfill. reflexivity.
Qed.

(** C9: [submit] when the slot is free or becomes free in time.  Let [s] be reachable with
    no submission under way, the payload within the capacity, and let the device's
    activity between the status reads ([dev]) lead to a reachable [s'] whose tail slot
    is free after [j] busy reads, [j] at most the spin limit.  Then [submit] terminates
    with the next sequence id; its effect on memory and ring is the effect of the steps
    of the ring's transition system, so it publishes exactly this payload; and
    [submit_unchecked] does the same. *)
Theorem submit_refines c e hw s s' dev j fuel p :
  Config_ok c e → reachable c e hw s →
  rtc (sys_step e (Z.to_nat (modq_stride c)) hw) s s' →
  writing s' = None → sys_tx s' = sys_tx s → sys_mem s' = dev_trace dev 0 j (sys_mem s) →
  Z.of_nat (length p) ≤ modq_stride c - 16 →
  (length (published s') < (if hw then length (polled s') else length (taken s')) + 2 ^ e)%nat →
  (∀ n, (n < j)%nat → busy (tx_base s) (dev_trace dev 0 n (sys_mem s))) →
  Z.of_nat j ≤ SPIN_LIMIT → (j < fuel)%nat →
  ∃ mem',
    submit fuel dev (sys_tx s) p (sys_mem s) =
      Some (MDone (mem', (advance_tail (sys_tx s), Ok (wrap 32 (Z.of_nat (length (published s'))))))) ∧
    submit_unchecked fuel dev (sys_tx s) p (sys_mem s) =
      Some (MDone (mem', (advance_tail (sys_tx s), wrap 32 (Z.of_nat (length (published s')))))) ∧
    rtc (sys_step e (Z.to_nat (modq_stride c)) hw) s' (after_submit s' mem' p).
Proof.
  intros Hc Hr Hrun Hw Etx Emem Hp Hroom Hbusy Hj Hfuel.
  pose proof (queue_inv c e Hc hw s Hr) as HI. destruct (open_stride c e Hc) as (Hs & Es & Hu).
  assert (SysInv e (Z.to_nat (modq_stride c)) hw s') as HI'.
  { eapply inv_reach; [exact (co_e c e Hc)|exact Hs|rewrite Es; exact Hu|exact HI|exact Hrun]. }
  eapply submit_run; try eassumption.
Qed.

(** [submit] when it fails.  A payload above the capacity is refused at once, with the
    ring untouched; with all [depth] slots outstanding and a device that does nothing,
    [submit] gives up after the spin limit with [Timeout] of the tail's slot, memory and
    ring untouched. *)
Theorem submit_errors c e hw s p fuel :
  Config_ok c e → reachable c e hw s →
  (∀ dev, modq_stride c - 16 < Z.of_nat (length p) →
   submit fuel dev (sys_tx s) p (sys_mem s) =
     Some (MDone (sys_mem s, (sys_tx s,
       Err (PayloadTooLarge (Z.of_nat (length p)) (modq_stride c - 16)))))) ∧
  (Z.of_nat (length p) ≤ modq_stride c - 16 →
   length (published s) = ((if hw then length (polled s) else length (taken s)) + 2 ^ e)%nat →
   SPIN_LIMIT < Z.of_nat fuel →
   submit fuel (λ _ m, m) (sys_tx s) p (sys_mem s) =
     Some (MDone (sys_mem s, (sys_tx s, Err (Timeout (length (published s) mod 2 ^ e)))))).
Proof.
  intros Hc Hr. pose proof (queue_inv c e Hc hw s Hr) as HI.
  destruct (open_stride c e Hc) as (Hs & Es & Hu). split.
  - intros dev Hp. unfold submit. cbv zeta. rewrite (capacity_at c e Hc hw s HI).
    destruct (Z.ltb_spec (modq_stride c - 16) (Z.of_nat (length p))); [reflexivity|lia].
  - intros Hp Hfull Hf. unfold submit. cbv zeta. rewrite (capacity_at c e Hc hw s HI).
    destruct (Z.ltb_spec (modq_stride c - 16) (Z.of_nat (length p))); [lia|].
    destruct (tx_fields c e Hc hw s HI) as (-> & _ & ->).
    rewrite wait_free_timeout; [reflexivity| |unfold SPIN_LIMIT; lia|exact Hf].
    exists (status_of (slot (2 ^ e) (Z.to_nat (modq_stride c)) (sys_mem s) (length (published s)))).
    split.
    + unfold status_at. rewrite (tx_base_at e _ hw (co_e c e Hc) s HI).
      rewrite (read_slot e _ (co_e c e Hc) Hs _ _ (si_mapped _ _ _ _ HI))
        by (unfold SLOT_HDR_STATUS; lia).
      reflexivity.
    + rewrite (tail_free e _ hw (co_e c e Hc) Hs s HI). unfold oldest. destruct hw; lia.
Qed.

(** The device's BAR is mapped at its own size, which [open] never compares with the
    configuration's ring: a BAR that ends inside the first slot is accepted, and a
    submission that passes the length check then writes outside the mapping. *)
Theorem pci_bar_unchecked c e bar_open bar_open_shm path mem p fuel dev :
  Config_ok c e → transport c = PciBar path → bar_open path = Ok mem →
  (RING_BASE + 16 < length mem < RING_BASE + 16 + length p)%nat →
  status_at RING_BASE mem SLOT_FREE →
  Z.of_nat (length p) ≤ modq_stride c - 16 → (0 < fuel)%nat →
  ∃ q, modq_open bar_open bar_open_shm c = MDone (Ok (mem, q)) ∧
       submit fuel dev (tx q) p mem = Some MUndef.
Proof.
  intros Hc Ht Hmap Hl Hst Hp Hfuel. exists (fresh_queue c). split.
  - unfold modq_open. rewrite (proj2 (is_power_of_two_iff (ring_depth c)))
      by (exists e; exact (co_depth c e Hc)).
    cbn [negb]. rewrite Ht, Hmap. reflexivity.
  - pose proof (stride_facts c e Hc) as [_ Hr]. destruct (open_stride c e Hc) as (Hs & Es & Hu).
    pose proof (co_depth c e Hc) as Hd. pose proof (co_size c e Hc) as H0.
    unfold submit, slot_payload_capacity. cbv zeta.
    cbn [fresh_queue tx TxRing_with_params tx_depth tx_slot_stride tail]. rewrite stride_agree.
    change (Z.of_nat SLOT_PAYLOAD_OFFSET) with 16. unfold in_uint in Hu.
    rewrite wrap_small by (unfold in_uint; lia).
    destruct (Z.ltb_spec (modq_stride c - 16) (Z.of_nat (length p))); [lia|].
    destruct (Z.eqb_spec (ring_depth c) 0); [rewrite Hd in *; lia|].
    unfold slot_base. rewrite Z.mod_0_l by assumption. cbn [Z.to_nat Nat.mul]. rewrite Nat.add_0_r.
    destruct (wait_free_ok dev RING_BASE 0 fuel 0 0 mem Hfuel ltac:(unfold SPIN_LIMIT; lia)
      ltac:(lia) Hst) as [-> _].
    unfold fill_slot, submission_stores, run_stores, store_payload, copy_to_slot, bar_bind, SLOT_PAYLOAD_OFFSET.
    cbn [dev_trace].
    destruct (Nat.ltb_spec (RING_BASE + 16) (length mem)); [|lia].
    destruct (Nat.leb_spec (RING_BASE + 16 + length p) (length mem)); [lia|reflexivity].
Qed.

(** ** Witnesses *)

Definition example_config : ModqConfig := mkModqConfig (Loopback "/q") 1 8.
Definition example_region : bytes := replicate (Z.to_nat 4160) 7.
Definition example_shm (_ : string) (_ : Z) : result bytes ModqError := Ok example_region.
Definition example_bar (_ : string) : result bytes ModqError := Err (BarEmpty "").

Lemma example_ok : Config_ok example_config 0.
Proof. constructor; cbn; lia. Qed.

Lemma example_total : Z.of_nat (length example_region) = modq_total_size example_config.
Proof. vm_compute. reflexivity. Qed.

Lemma modq_open_spec_witness :
  modq_open example_bar example_shm (mkModqConfig (PciBar "p") 0 8) =
    MDone (Err (InvalidRingDepth 0)) ∧
  ∃ mem' q, modq_open example_bar example_shm example_config = MDone (Ok (mem', q)) ∧
    tx_slot_stride (tx q) mod 64 = 0.
Proof.
  split.
  - apply (proj1 (modq_open_spec (mkModqConfig (PciBar "p") 0 8) example_bar example_shm)).
    cbn. intros e. pose proof (Z.pow_pos_nonneg 2 (Z.of_nat e)). lia.
  - destruct (proj2 (modq_open_spec example_config example_bar example_shm) 0%nat "/q" example_region
      example_ok eq_refl eq_refl example_total) as (mem' & q & Ho & _ & _ & _ & _ & Hm & _).
    exists mem', q. split; [exact Ho|exact Hm].
Defined.

(** The opened queue, then one message submitted, then taken by the simulated device. *)
Lemma example_reach :
  ∃ s0 s1 s2,
    (reachable example_config 0 false s0 ∧ writing s0 = None ∧ published s0 = [] ∧ taken s0 = []) ∧
    (reachable example_config 0 false s1 ∧ published s1 = [[1; 2; 3]] ∧ taken s1 = []) ∧
    (reachable example_config 0 false s2 ∧ published s2 = [[1; 2; 3]] ∧ length (taken s2) = 1%nat).
Proof.
  destruct (open_loopback example_config 0 example_ok example_bar example_shm "/q" example_region
    eq_refl eq_refl example_total) as (mem' & Ho & _ & _ & _ & HI). specialize (HI false).
  destruct (open_stride example_config 0 example_ok) as (Hs & Es & Hu). rewrite <- Es in Hu.
  destruct (submit_steps 0 _ false (co_e _ _ example_ok) Hs Hu _ [1; 2; 3] HI eq_refl)
    as (m1 & _ & R1).
  { rewrite (capacity_at example_config 0 example_ok false _ HI). vm_compute. discriminate. }
  { cbn. lia. }
  pose proof (inv_reach 0 _ false (co_e _ _ example_ok) Hs Hu _ _ HI R1) as HI1.
  destruct (device_progress 0 _ false (co_e _ _ example_ok) Hs _ HI1) as (rec & R2).
  { cbn. lia. }
  assert (∀ s, rtc (sys_step 0 (Z.to_nat (modq_stride example_config)) false)
    (sys_init (fresh_queue example_config) mem') s → reachable example_config 0 false s) as Hreach.
  { intros s Hr. exists example_bar, example_shm, "/q", example_region, mem', (fresh_queue example_config).
    split_and!; [reflexivity|reflexivity|exact example_total|exact Ho|exact Hr]. }
  exists (sys_init (fresh_queue example_config) mem').
  exists (after_submit (sys_init (fresh_queue example_config) mem') m1 [1; 2; 3]).
  eexists. split; [|split].
  - split_and!; [apply Hreach, rtc_refl|reflexivity..].
  - split_and!; [apply Hreach, R1|reflexivity..].
  - split; [apply Hreach; eapply rtc_r; [exact R1|exact R2]|]. split; reflexivity.
Qed.

Lemma ring_fifo_witness :
  ∃ s, reachable example_config 0 false s ∧ taken s = [(3, 0, [1; 2; 3])] ∧ polled s = [].
Proof.
  destruct example_reach as (s0 & s1 & s2 & _ & _ & Hr & Hp & Hl).
  destruct (ring_fifo example_config 0 false s2 example_ok Hr) as (Ht & _ & _ & _ & Hpoll).
  exists s2. split; [exact Hr|]. split; [|apply Hpoll; reflexivity].
  rewrite Ht, Hl, Hp. reflexivity.
Defined.

Lemma submit_refines_witness :
  ∃ s mem', submit 1 (λ _ m, m) (sys_tx s) [1; 2; 3] (sys_mem s) =
    Some (MDone (mem', (advance_tail (sys_tx s), Ok 0))).
Proof.
  destruct example_reach as (s0 & s1 & s2 & (Hr & Hw & Hp & Ht) & _ & _).
  destruct (submit_refines example_config 0 false s0 s0 (λ _ m, m) 0 1 [1; 2; 3] example_ok Hr
    (rtc_refl _ _) Hw eq_refl eq_refl) as (mem' & Hs & _).
  - vm_compute. discriminate.
  - rewrite Hp, Ht. cbn. lia.
  - lia.
  - vm_compute. discriminate.
  - lia.
  - exists s0, mem'. rewrite Hp in Hs. exact Hs.
Defined.

Lemma submit_errors_witness :
  ∃ s, (∀ fuel dev, submit fuel dev (sys_tx s) (replicate 49 0) (sys_mem s) =
          Some (MDone (sys_mem s, (sys_tx s, Err (PayloadTooLarge 49 48))))) ∧
       (∀ fuel, SPIN_LIMIT < Z.of_nat fuel →
          submit fuel (λ _ m, m) (sys_tx s) [9] (sys_mem s) =
          Some (MDone (sys_mem s, (sys_tx s, Err (Timeout 0))))).
Proof.
  destruct example_reach as (s0 & s1 & s2 & _ & (Hr & Hp & Ht) & _). exists s1. split.
  - intros fuel dev.
    apply (proj1 (submit_errors example_config 0 false s1 (replicate 49 0) fuel example_ok Hr) dev).
    vm_compute. reflexivity.
  - intros fuel Hf.
    rewrite (proj2 (submit_errors example_config 0 false s1 [9] fuel example_ok Hr)).
    + rewrite Hp. reflexivity.
    + vm_compute. discriminate.
    + rewrite Hp, Ht. reflexivity.
    + exact Hf.
Defined.

Lemma pci_bar_unchecked_witness :
  ∃ q, modq_open (λ _, Ok (replicate (Z.to_nat 4115) 0)) example_shm
         (mkModqConfig (PciBar "bar2") 1 8) = MDone (Ok (replicate (Z.to_nat 4115) 0, q)) ∧
       submit 1 (λ _ m, m) (tx q) [1; 2; 3; 4] (replicate (Z.to_nat 4115) 0) = Some MUndef.
Proof.
  apply (pci_bar_unchecked (mkModqConfig (PciBar "bar2") 1 8) 0 _ example_shm "bar2").
  - constructor; cbn; lia.
  - reflexivity.
  - reflexivity.
  - rewrite length_replicate. split; apply Nat.ltb_lt; vm_compute; reflexivity.
  - unfold status_at. vm_compute. reflexivity.
  - vm_compute. discriminate.
  - lia.
Defined.
