(* ===== verification/Bar.v ===== *)
(** * otap-modq: mapping the region

    Models the part of [src/crates/otap-modq/src/bar.rs] that talks to the operating
    system ([BarMapping::open], [open_shm], [Drop]) and its use by [ModqQueue::open].
    The system calls are the class [Posix]; [PosixSpec] states what the code relies on:
    which calls open and close descriptors, add and remove mappings, and that a mapping
    shows as many bytes as were asked for. *)

From stdpp Require Import gmap.
From S2P Require Import Prelude Modq.
Local Open Scope Z_scope.

(** ** The system calls *)

Class Posix := {
  os : Type;
  (** [OpenOptions::new().read(true).write(true).open(path)]: a descriptor, or the
      message of the I/O error *)
  sys_open : string → os → os * result Z string;
  (** [file.metadata()?.len()] *)
  sys_len : Z → os → result Z string;
  (** [mmap(null, size, PROT_READ | PROT_WRITE, MAP_SHARED, fd, 0)]: the address and the
      bytes found there, [None] for [MAP_FAILED] *)
  sys_mmap : Z → Z → os → os * option (Z * bytes);
  sys_munmap : Z → Z → os → os;
  sys_close : Z → os → os;
  (** [shm_open(name, O_CREAT | O_RDWR, 0o666)] *)
  sys_shm_open : string → os → os * Z;
  sys_ftruncate : Z → Z → os → os * Z;
  sys_shm_unlink : string → os → os;
  (** stores through the mapping at an address: it shows these bytes now, and so does
      the object it maps *)
  sys_stored : Z → bytes → os → os;
}.

Class PosixSpec `{Posix} := {
  open_fds : os → gset Z;
  (** address and size of each mapping *)
  mappings : os → gmap Z Z;
  open_spec path σ :
    let '(σ', r) := sys_open path σ in
    mappings σ' = mappings σ ∧
    match r with
    | Ok fd => (fd ∉ open_fds σ) ∧ open_fds σ' = {[fd]} ∪ open_fds σ
    | Err _ => open_fds σ' = open_fds σ
    end;
  shm_open_spec name σ :
    let '(σ', fd) := sys_shm_open name σ in
    mappings σ' = mappings σ ∧
    if fd <? 0 then open_fds σ' = open_fds σ
    else (fd ∉ open_fds σ) ∧ open_fds σ' = {[fd]} ∪ open_fds σ;
  ftruncate_spec fd n σ :
    let '(σ', _) := sys_ftruncate fd n σ in
    open_fds σ' = open_fds σ ∧ mappings σ' = mappings σ;
  mmap_spec size fd σ :
    let '(σ', r) := sys_mmap size fd σ in
    open_fds σ' = open_fds σ ∧
    match r with
    | Some (a, mem) =>
        a ≠ 0 ∧ mappings σ !! a = None ∧ mappings σ' = <[a := size]> (mappings σ) ∧
        Z.of_nat (length mem) = size
    | None => mappings σ' = mappings σ
    end;
  munmap_spec a size σ :
    mappings σ !! a = Some size →
    open_fds (sys_munmap a size σ) = open_fds σ ∧
    mappings (sys_munmap a size σ) = delete a (mappings σ);
  close_spec fd σ :
    open_fds (sys_close fd σ) = open_fds σ ∖ {[fd]} ∧ mappings (sys_close fd σ) = mappings σ;
  unlink_spec name σ :
    open_fds (sys_shm_unlink name σ) = open_fds σ ∧ mappings (sys_shm_unlink name σ) = mappings σ;
  stored_spec a mem σ :
    open_fds (sys_stored a mem σ) = open_fds σ ∧ mappings (sys_stored a mem σ) = mappings σ;
}.

(** ** [BarMapping] *)

Record BarMapping : Type := mkBarMapping { bar_base : Z; bar_size : Z }.

(** [CString::new(name)] refuses a NUL inside the name. *)
Fixpoint has_nul (s : string) : bool :=
  match s with
  | EmptyString => false
  | String c s => bool_decide (c = Ascii.zero) || has_nul s
  end.

Section bar.
Context `{Posix}.

(** [file] is closed when the function returns, whichever way. *)
Definition BarMapping_open (path : string) (σ : os) : os * result (BarMapping * bytes) ModqError :=
  let '(σ, r) := sys_open path σ in
  match r with
  | Err e => (σ, Err (BarOpen path e))
  | Ok fd =>
      match sys_len fd σ with
      | Err e => (sys_close fd σ, Err (BarOpen path e))
      | Ok size =>
          if size =? 0 then (sys_close fd σ, Err (BarEmpty path))
          else
            let '(σ, base) := sys_mmap size fd σ in
            let σ := sys_close fd σ in
            match base with
            | None => (σ, Err (MmapFailed path))
            | Some (a, mem) => (σ, Ok (mkBarMapping a size, mem))
            end
      end
  end.

Definition BarMapping_open_shm (name : string) (size : Z) (σ : os)
    : os * result (BarMapping * bytes) ModqError :=
  if has_nul name then (σ, Err (InvalidShmName name))
  else
    let '(σ, fd) := sys_shm_open name σ in
    if fd <? 0 then (σ, Err (ShmOpenFailed name))
    else
      let '(σ, rc) := sys_ftruncate fd (as_signed 64 size) σ in
      if rc <? 0 then (sys_close fd σ, Err (ShmTruncateFailed name))
      else
        let '(σ, base) := sys_mmap size fd σ in
        let σ := sys_close fd σ in
        match base with
        | None => (σ, Err (MmapFailed ("shm:" +:+ name)))
        | Some (a, mem) => (σ, Ok (mkBarMapping a size, mem))
        end.

Definition BarMapping_drop (b : BarMapping) (σ : os) : os :=
  if negb (bar_base b =? 0) then sys_munmap (bar_base b) (bar_size b) σ else σ.

(** [ModqQueue::open], system calls included.  The depth is checked before anything is
    mapped. *)
Definition modq_open_os (c : ModqConfig) (σ : os)
    : os * mmio (result (BarMapping * bytes * ModqQueue) ModqError) :=
  if negb (is_power_of_two (ring_depth c)) then (σ, MDone (Err (InvalidRingDepth (ring_depth c))))
  else
    let '(σ, r) :=
      match transport c with
      | PciBar path => BarMapping_open path σ
      | Loopback name => BarMapping_open_shm name (modq_total_size c) σ
      end in
    match r with
    | Err e => (σ, MDone (Err e))
    | Ok (b, mem) =>
        (σ, match modq_open (λ _, Ok mem) (λ _ _, Ok mem) c with
            | MDone (Ok (mem, q)) => MDone (Ok (b, mem, q))
            | MDone (Err e) => MDone (Err e)
            | MPanic => MPanic
            | MUndef => MUndef
            end)
    end.
End bar.

(** ** Descriptors and mappings *)

Section balance.
Context `{PosixSpec}.

(** No descriptor is left open; a mapping is left exactly on success, it shows the bytes
    of its size, and dropping it removes it. *)
Definition balanced (σ : os) (res : os * result (BarMapping * bytes) ModqError) : Prop :=
  open_fds res.1 = open_fds σ ∧
  match res.2 with
  | Ok (b, mem) =>
      bar_base b ≠ 0 ∧ mappings σ !! bar_base b = None ∧
      mappings res.1 = <[bar_base b := bar_size b]> (mappings σ) ∧
      Z.of_nat (length mem) = bar_size b ∧
      open_fds (BarMapping_drop b res.1) = open_fds σ ∧
      mappings (BarMapping_drop b res.1) = mappings σ
  | Err _ => mappings res.1 = mappings σ
  end.

(** A call that opened [fd] and then failed. *)
Lemma balanced_err σ σ' fd e :
  fd ∉ open_fds σ → open_fds σ' = {[fd]} ∪ open_fds σ → mappings σ' = mappings σ →
  balanced σ (sys_close fd σ', Err e).
Proof.
  intros Hfd Ho Hm. destruct (close_spec fd σ') as [Ho' Hm']. split; cbn [fst snd].
  - rewrite Ho', Ho. set_solver.
  - by rewrite Hm'.
Qed.

(** The end both functions share: map, close, check. *)
Lemma balanced_map σ σ' fd size e :
  fd ∉ open_fds σ → open_fds σ' = {[fd]} ∪ open_fds σ → mappings σ' = mappings σ →
  balanced σ
    (let '(σ, base) := sys_mmap size fd σ' in
     let σ := sys_close fd σ in
     match base with
     | None => (σ, Err e)
     | Some (a, mem) => (σ, Ok (mkBarMapping a size, mem))
     end).
Proof.
  intros Hfd Ho Hm. pose proof (mmap_spec size fd σ') as Hmm.
  destruct (sys_mmap size fd σ') as [σ2 [[a mem]|]].
  - destruct Hmm as (Ho2 & Ha & Hn & Hm2 & Hl). destruct (close_spec fd σ2) as [Ho3 Hm3].
    rewrite Hm in Hn, Hm2. rewrite Hm2 in Hm3.
    assert (open_fds (sys_close fd σ2) = open_fds σ) as Eo by (rewrite Ho3, Ho2, Ho; set_solver).
    destruct (munmap_spec a size (sys_close fd σ2)) as [Ho4 Hm4].
    { by rewrite Hm3, lookup_insert_eq. }
    unfold balanced, BarMapping_drop. cbn [fst snd bar_base bar_size].
    destruct (Z.eqb_spec a 0); [done|]. cbn [negb].
    split_and!; [done|done|done|done|done|by rewrite Ho4|]. rewrite Hm4, Hm3. by apply delete_insert_id.
  - destruct Hmm as [Ho2 Hm2]. apply balanced_err; congruence.
Qed.

Lemma open_balanced path σ : balanced σ (BarMapping_open path σ).
Proof.
  unfold BarMapping_open. pose proof (open_spec path σ) as Ho.
  destruct (sys_open path σ) as [σ1 [fd|e]]; [|by destruct Ho].
  destruct Ho as (Hm & Hfd & Ho). destruct (sys_len fd σ1) as [size|e]; [|by apply balanced_err].
  destruct (size =? 0); [by apply balanced_err|]. by apply balanced_map.
Qed.

Lemma open_shm_balanced name size σ : balanced σ (BarMapping_open_shm name size σ).
Proof.
  unfold BarMapping_open_shm. destruct (has_nul name); [done|].
  pose proof (shm_open_spec name σ) as Ho. destruct (sys_shm_open name σ) as [σ1 fd].
  destruct Ho as [Hm Ho]. destruct (fd <? 0); [done|]. destruct Ho as [Hfd Ho].
  pose proof (ftruncate_spec fd (as_signed 64 size) σ1) as Ht.
  destruct (sys_ftruncate fd _ σ1) as [σ2 rc]. destruct Ht as [Ho2 Hm2].
  destruct (rc <? 0); [apply balanced_err|apply balanced_map]; congruence.
Qed.

Lemma open_shm_size name size σ b mem :
  (BarMapping_open_shm name size σ).2 = Ok (b, mem) → bar_size b = size.
Proof.
  unfold BarMapping_open_shm. destruct (has_nul name); [done|].
  destruct (sys_shm_open name σ) as [σ1 fd]. destruct (fd <? 0); [done|].
  destruct (sys_ftruncate fd _ σ1) as [σ2 rc]. destruct (rc <? 0); [done|].
  destruct (sys_mmap size fd σ2) as [σ3 [[a m]|]]; [|done]. by intros [= <- <-].
Qed.

(** The errors of [open_shm]. *)
Definition shm_errors (name : string) : list ModqError :=
  [InvalidShmName name; ShmOpenFailed name; ShmTruncateFailed name; MmapFailed ("shm:" +:+ name)].

Lemma open_shm_errors name size σ e :
  (BarMapping_open_shm name size σ).2 = Err e → e ∈ shm_errors name.
Proof.
  unfold BarMapping_open_shm, shm_errors. destruct (has_nul name); [intros [= <-]; set_solver|].
  destruct (sys_shm_open name σ) as [σ1 fd]. destruct (fd <? 0); [intros [= <-]; set_solver|].
  destruct (sys_ftruncate fd _ σ1) as [σ2 rc]. destruct (rc <? 0); [intros [= <-]; set_solver|].
  destruct (sys_mmap size fd σ2) as [σ3 [[a m]|]]; [done|]. intros [= <-]. set_solver.
Qed.
Lemma open_system c e name σ :
  Config_ok c e → transport c = Loopback name →
  let '(σ', r) := modq_open_os c σ in
  open_fds σ' = open_fds σ ∧
  match r with
  | MDone (Ok (b, mem, q)) =>
      q = fresh_queue c ∧ bar_size b = modq_total_size c ∧ Z.of_nat (length mem) = bar_size b ∧
      bar_base b ≠ 0 ∧ mappings σ !! bar_base b = None ∧
      mappings σ' = <[bar_base b := bar_size b]> (mappings σ) ∧
      (∀ k, status_of (slot (2 ^ e) (Z.to_nat (modq_stride c)) mem k) = SLOT_FREE) ∧
      ∀ hw, SysInv e (Z.to_nat (modq_stride c)) hw (sys_init q mem)
  | MDone (Err err) => mappings σ' = mappings σ ∧ err ∈ shm_errors name
  | _ => False
  end.
Proof.
  intros Hc Ht. unfold modq_open_os.
  rewrite (proj2 (is_power_of_two_iff (ring_depth c))) by (exists e; exact (co_depth c e Hc)).
  cbn [negb]. rewrite Ht. pose proof (open_shm_balanced name (modq_total_size c) σ) as Hb.
  pose proof (open_shm_size name (modq_total_size c) σ) as Hs.
  pose proof (open_shm_errors name (modq_total_size c) σ) as He.
  destruct (BarMapping_open_shm name (modq_total_size c) σ) as [σ' [[b mem]|err]];
    destruct Hb as [Ho Hb]; cbn [fst snd] in *.
  - destruct Hb as (H0' & Hn & Hm & Hl & _). specialize (Hs b mem eq_refl).
    destruct (open_loopback c e Hc (λ _, Ok mem) (λ _ _, Ok mem) name mem Ht eq_refl
      ltac:(congruence)) as (mem' & -> & L & _ & Hk & HI).
    split; [exact Ho|]. split_and!; [reflexivity|exact Hs|congruence|exact H0'|exact Hn|exact Hm|exact Hk|exact HI].
  - split; [exact Ho|]. split; [exact Hb|]. apply He. reflexivity.
Qed.

Lemma drop_mapping b σ :
  bar_base b ≠ 0 → mappings σ !! bar_base b = Some (bar_size b) →
  open_fds (BarMapping_drop b σ) = open_fds σ ∧
  mappings (BarMapping_drop b σ) = delete (bar_base b) (mappings σ).
Proof.
  intros Hb Hm. unfold BarMapping_drop. destruct (Z.eqb_spec (bar_base b) 0); [done|].
  by apply munmap_spec.
Qed.
End balance.

(** ** Properties *)

(** Resources of a mapping.  Whichever system call fails, [open] and [open_shm] leave
    no descriptor open and no mapping behind; when they succeed there is exactly one new
    mapping, of the file's size or of the size asked for, showing that many bytes, and
    dropping the [BarMapping] removes it again. *)
Theorem mapping_balanced `{PosixSpec} (path name : string) (size : Z) (σ : os) :
  balanced σ (BarMapping_open path σ) ∧ balanced σ (BarMapping_open_shm name size σ) ∧
  (∀ b mem, (BarMapping_open_shm name size σ).2 = Ok (b, mem) → bar_size b = size) ∧
  (∀ e, (BarMapping_open_shm name size σ).2 = Err e → e ∈ shm_errors name).
Proof.
  split_and!; [apply open_balanced|apply open_shm_balanced|intros b mem; apply open_shm_size|].
  intros e. apply open_shm_errors.
Qed.

(** C38: Opening a queue on the system.  With a depth that is no power of two nothing is
    mapped.  In loopback mode with a valid configuration [ModqQueue::open] never panics:
    it returns one of the four errors of [open_shm] with no resource left, or a queue on
    a mapping of exactly the ring's size, all slots free; no descriptor stays open. *)
Theorem modq_open_system `{PosixSpec} (c : ModqConfig) (σ : os) :
  ((∀ e : nat, ring_depth c ≠ 2 ^ Z.of_nat e) →
   modq_open_os c σ = (σ, MDone (Err (InvalidRingDepth (ring_depth c))))) ∧
  ∀ e name, Config_ok c e → transport c = Loopback name →
    let '(σ', r) := modq_open_os c σ in
    open_fds σ' = open_fds σ ∧
    match r with
    | MDone (Ok (b, mem, q)) =>
        q = fresh_queue c ∧ bar_size b = modq_total_size c ∧ Z.of_nat (length mem) = bar_size b ∧
        bar_base b ≠ 0 ∧ mappings σ !! bar_base b = None ∧
        mappings σ' = <[bar_base b := bar_size b]> (mappings σ) ∧
        ∀ k, status_of (slot (2 ^ e) (Z.to_nat (modq_stride c)) mem k) = SLOT_FREE
    | MDone (Err err) => mappings σ' = mappings σ ∧ err ∈ shm_errors name
    | _ => False
    end.
Proof.
  split.
  - intros Hn. unfold modq_open_os. destruct (is_power_of_two (ring_depth c)) eqn:E; [|reflexivity].
    apply is_power_of_two_iff in E as [e E]. destruct (Hn e E).
  - intros e name Hc Ht. pose proof (open_system c e name σ Hc Ht) as Hs.
    destruct (modq_open_os c σ) as [σ' r]. destruct Hs as [Ho Hs]. split; [exact Ho|].
    destruct r as [[[[b mem] q]|err]| |]; [|exact Hs..].
    destruct Hs as (? & ? & ? & ? & ? & ? & ? & _). by split_and!.
Qed.

(** ** A concrete system *)

Module ToyOs.

(** Every file exists and has [file_size] bytes, except the empty one. *)
Record Os : Type := mkOs { fds : gset Z; maps : gmap Z Z }.

Definition file_size : Z := 8192.

Definition open_fresh (σ : Os) : Os * Z :=
  let fd := fresh (fds σ ∪ {[-1]}) in (mkOs ({[fd]} ∪ fds σ) (maps σ), fd).

Definition map_fresh (size : Z) (σ : Os) : Os * option (Z * bytes) :=
  if size <=? 0 then (σ, None)
  else
    let a := fresh (dom (maps σ) ∪ {[0]}) in
    (mkOs (fds σ) (<[a := size]> (maps σ)), Some (a, replicate (Z.to_nat size) 0)).

#[export] Instance toy_posix : Posix := {|
  os := Os;
  sys_open path σ := let '(σ, fd) := open_fresh σ in (σ, Ok fd);
  sys_len _ _ := Ok file_size;
  sys_mmap size _ σ := map_fresh size σ;
  sys_munmap a _ σ := mkOs (fds σ) (delete a (maps σ));
  sys_close fd σ := mkOs (fds σ ∖ {[fd]}) (maps σ);
  sys_shm_open name σ :=
    let '(σ', fd) := open_fresh σ in if fd <? 0 then (σ, -1) else (σ', fd);
  sys_ftruncate _ _ σ := (σ, 0);
  sys_shm_unlink _ σ := σ;
  sys_stored _ _ σ := σ;
|}.

Lemma fresh_fd σ : (open_fresh σ).2 ∉ fds σ.
Proof. unfold open_fresh. cbn. pose proof (is_fresh (fds σ ∪ {[-1]})). set_solver. Qed.

#[export] Instance toy_posix_spec : PosixSpec.
Proof.
  refine {| open_fds := fds; mappings := maps |}.
  - intros path σ. pose proof (fresh_fd σ). cbn. by destruct (open_fresh σ) eqn:E; injection E as <- <-.
  - intros name σ. pose proof (fresh_fd σ) as Hf. cbn. unfold open_fresh in *. cbn in *.
    destruct (Z.ltb_spec (fresh (fds σ ∪ {[-1]})) 0) as [|Hge]; cbn; [done|].
    apply Z.ltb_ge in Hge. by rewrite Hge.
  - done.
  - intros size fd σ. cbn. unfold map_fresh. destruct (Z.leb_spec size 0); [done|].
    pose proof (is_fresh (dom (maps σ) ∪ {[0]})) as Hf. split; [done|].
    split_and!; [set_solver|apply not_elem_of_dom; set_solver|done|].
    rewrite length_replicate. lia.
  - done.
  - done.
  - done.
  - done.
Defined.

Definition start : os := mkOs ∅ ∅.

End ToyOs.

#[local] Existing Instances ToyOs.toy_posix ToyOs.toy_posix_spec.

(** A file of 8192 bytes mapped, and a queue of one slot opened and closed. *)
Lemma modq_open_system_witness :
  modq_open_os (mkModqConfig (PciBar "p") 3 8) ToyOs.start =
    (ToyOs.start, MDone (Err (InvalidRingDepth 3))) ∧
  ToyOs.fds (modq_open_os example_config ToyOs.start).1 = ∅ ∧
  is_ok (BarMapping_open_shm "/q" 4160 ToyOs.start).2 = true.
Proof.
  split_and!.
  - apply (proj1 (modq_open_system (mkModqConfig (PciBar "p") 3 8) ToyOs.start)).
    cbn. intros [|e] E; [discriminate E|]. apply (f_equal Z.even) in E.
    rewrite Nat2Z.inj_succ, Z.pow_succ_r, Z.even_mul in E by lia. discriminate E.
  - pose proof (proj2 (modq_open_system example_config ToyOs.start) 0%nat "/q"%string example_ok eq_refl)
      as Hs. destruct (modq_open_os example_config ToyOs.start) as [σ' r]. exact (proj1 Hs).
  - vm_compute. reflexivity.
Defined.

Lemma mapping_balanced_witness :
  ToyOs.fds (BarMapping_open "bar2" ToyOs.start).1 = ∅ ∧
  is_ok (BarMapping_open "bar2" ToyOs.start).2 = true ∧
  (BarMapping_open_shm "/q" 0 ToyOs.start).2 = Err (MmapFailed "shm:/q") ∧
  MmapFailed "shm:/q" ∈ shm_errors "/q".
Proof.
  destruct (mapping_balanced "bar2" "/q" 0 ToyOs.start) as ([Hf _] & _ & _ & He).
  split_and!; [exact Hf|vm_compute; reflexivity|vm_compute; reflexivity|].
  apply He. vm_compute. reflexivity.
Defined.
