(* ===== verification/RingThread.v ===== *)
(** * The device thread beside the host

    Models [simulated_fpga_consumer] ([otap-modq/src/bin/modq_loopback.rs]) and the same
    thread of [modq_bench.rs] and [otap-cli/src/bin/otap-modq-loopback.rs], and runs it
    beside submissions of the host: a schedule says how many rounds of its loop the
    thread gets between two status reads of the host.  The thread's effect is a run of
    the device's steps of [Modq.v]. *)

From stdpp Require Import relations.
From S2P Require Import Prelude Modq.
Local Open Scope Z_scope.

(** ** The threads *)

(** The loop body of [simulated_fpga_consumer]: the counter it goes on with. *)
Definition fpga_body (depth stride head : Z) : bar_op Z :=
  get! r <- device_round SLOT_FREE depth stride head;
  bar_ret r.1.

(** The loop body of [simulated_consumer] and [simulated_fpga], which do not look at the
    length and the sequence id. *)
Definition sim_body (depth stride head : Z) : bar_op Z :=
  let '(_, base) := slot_base depth stride head in
  get! status <- read32 base;
  if status =? SLOT_READY then
    run! write32 base SLOT_FREE;
    bar_ret (wrapping_add 64 head 1)
  else bar_ret head.

(** [rounds] rounds of [while running.load()]. *)
Fixpoint consumer (body : Z → bar_op Z) (rounds : nat) (head : Z) : bar_op Z :=
  match rounds with
  | O => bar_ret head
  | S rounds => get! head <- body head; consumer body rounds head
  end.

(** ** Host and thread

    [sched 0] rounds happen before the host's first read, [sched (S i)] after read [i];
    a thread that panics is gone and leaves the memory as it is. *)

Fixpoint rounds_before (sched : nat → nat) (n : nat) : nat :=
  match n with O => sched 0%nat | S n => rounds_before sched n + sched (S n) end.

(** Memory and counter when the host makes read [n]. *)
Definition device_at (body : Z → bar_op Z) (sched : nat → nat) (head : Z) (mem : bytes) (n : nat)
    : bytes * Z :=
  match consumer body (rounds_before sched n) head mem with
  | MDone (mem, head) => (mem, head)
  | _ => (mem, head)
  end.

(** The number of the first read, from [n] on, that finds the slot at [base] free. *)
Fixpoint free_read (fuel : nat) (body : Z → bar_op Z) (sched : nat → nat) (base : nat) (head : Z)
    (mem : bytes) (n : nat) : nat :=
  match fuel with
  | O => n
  | S fuel =>
      let m := (device_at body sched head mem n).1 in
      match read32 (base + SLOT_HDR_STATUS) m with
      | MDone (_, status) =>
          if status =? SLOT_FREE then n else free_read fuel body sched base head mem (S n)
      | _ => n
      end
  end.

(** [submit] beside the thread: also the thread's counter when the wait is over. *)
Definition submit_beside (fuel : nat) (body : Z → bar_op Z) (sched : nat → nat) (q : ModqQueue)
    (head : Z) (payload mem : bytes) : option (mmio (bytes * (ModqQueue * Z * result Z RingError))) :=
  let dev i (_ : bytes) := (device_at body sched head mem (S i)).1 in
  let base := (slot_base (tx_depth (tx q)) (tx_slot_stride (tx q)) (tail (tx q))).2 in
  let head' := (device_at body sched head mem (free_read fuel body sched base head mem 0)).2 in
  match modq_submit fuel dev q payload (device_at body sched head mem 0).1 with
  | None => None
  | Some (MDone (mem, (q, r))) => Some (MDone (mem, (q, head', r)))
  | Some MPanic => Some MPanic
  | Some MUndef => Some MUndef
  end.

(** Submissions until one fails: the sequence ids, and the error. *)
Fixpoint submit_all (fuel : nat) (body : Z → bar_op Z) (sched : nat → nat → nat) (k : nat)
    (payloads : list bytes) (q : ModqQueue) (head : Z) (mem : bytes)
    : option (mmio (bytes * (ModqQueue * Z * list Z * option RingError))) :=
  match payloads with
  | [] => Some (MDone (mem, (q, head, [], None)))
  | p :: payloads =>
      match submit_beside fuel body (sched k) q head p mem with
      | None => None
      | Some (MDone (mem, (q, head, Err e))) => Some (MDone (mem, (q, head, [], Some e)))
      | Some (MDone (mem, (q, head, Ok sid))) =>
          match submit_all fuel body sched (S k) payloads q head mem with
          | Some (MDone (mem, (q, head, sids, e))) => Some (MDone (mem, (q, head, sid :: sids, e)))
          | r => r
          end
      | Some MPanic => Some MPanic
      | Some MUndef => Some MUndef
      end
  end.

(** ** The threads take messages *)

Lemma rounds_before_mono sched n m : (n ≤ m)%nat → (rounds_before sched n ≤ rounds_before sched m)%nat.
Proof. induction 1 as [|m _ IH]; cbn [rounds_before]; lia. Qed.

Lemma rounds_before_positive sched i n :
  (i ≤ n)%nat → (0 < sched i)%nat → (0 < rounds_before sched n)%nat.
Proof.
  induction n as [|n IH]; intros Hi Hs; cbn [rounds_before].
  - by replace i with 0%nat in Hs by lia.
  - destruct (decide (i = S n)) as [->|]; [lia|]. specialize (IH ltac:(lia) Hs). lia.
Qed.

Section device.
Context (e stride : nat).
Let depth : nat := (2 ^ e)%nat.
Hypothesis e_small : (e ≤ 31)%nat.
Hypothesis stride_big : (64 ≤ stride)%nat.
Hypothesis stride_u32 : u32 (Z.of_nat stride).

(** [s'] is [s] after the device took some messages. *)
Record after_device (s s' : Sys) : Prop := {
  ad_steps : rtc (sys_step e stride false) s s';
  ad_tx : sys_tx s' = sys_tx s;
  ad_writing : writing s' = writing s;
  ad_published : published s' = published s;
}.

(** One round of the thread is a step of the device when a message is waiting, and
    changes nothing otherwise. *)
Definition device_body (body : Z → bar_op Z) : Prop :=
  ∀ s, SysInv e stride false s →
    ∃ s', body (local_head s) (sys_mem s) = MDone (sys_mem s', local_head s') ∧ after_device s s' ∧
      length (taken s') = Nat.min (S (length (taken s))) (length (published s)).

Lemma after_device_refl s : after_device s s.
Proof. by constructor. Qed.

Lemma after_device_trans s1 s2 s3 : after_device s1 s2 → after_device s2 s3 → after_device s1 s3.
Proof. intros [] []. constructor; [by etrans|congruence..]. Qed.

Lemma after_device_inv s s' : SysInv e stride false s → after_device s s' → SysInv e stride false s'.
Proof. intros HI [Hr _ _ _]. by eapply inv_reach. Qed.

(** The state after a round, with a message waiting and without. *)
Lemma body_from_steps body :
  (∀ s, SysInv e stride false s → (length (taken s) < length (published s))%nat →
     body (local_head s) (sys_mem s) =
     MDone (after_take e stride false s, wrapping_add 64 (local_head s) 1)) →
  (∀ s, SysInv e stride false s → length (taken s) = length (published s) →
     body (local_head s) (sys_mem s) = MDone (sys_mem s, local_head s)) →
  device_body body.
Proof.
  intros Htake Hwait s HI. pose proof (si_order _ _ _ _ HI) as Ho.
  destruct (decide (length (taken s) < length (published s))%nat) as [Hlt|Hge].
  - destruct (device_progress e stride false e_small stride_big s HI Hlt) as [rec Hst].
    exists (mkSys (after_take e stride false s) (sys_tx s) (sys_cr s) (wrapping_add 64 (local_head s) 1)
      (writing s) (published s) (taken s ++ [rec]) (polled s)).
    split; [exact (Htake s HI Hlt)|]. split.
    + constructor; [apply rtc_once; exact Hst|reflexivity..].
    + cbn [taken]. rewrite length_app. cbn [length]. lia.
  - exists s. split; [apply Hwait; [exact HI|lia]|]. split; [apply after_device_refl|lia].
Qed.

Lemma fpga_device : device_body (fpga_body (Z.of_nat depth) (Z.of_nat stride)).
Proof.
  apply body_from_steps; intros s HI Hl; unfold fpga_body, bar_bind.
  - destruct (device_takes e stride false e_small stride_big s HI Hl) as (len & sid & Hd).
    change (after_status false) with SLOT_FREE in Hd. fold depth in Hd. rewrite Hd. reflexivity.
  - pose proof (device_waits e stride false e_small stride_big s HI Hl) as Hd.
    change (after_status false) with SLOT_FREE in Hd. fold depth in Hd. rewrite Hd. reflexivity.
Qed.

Lemma sim_device : device_body (sim_body (Z.of_nat depth) (Z.of_nat stride)).
Proof.
  apply body_from_steps; intros s HI Hl; unfold sim_body, bar_bind;
    destruct (head_status e stride false e_small stride_big s HI) as [Hrd Hs];
    rewrite (si_head _ _ _ _ HI); unfold depth; rewrite (slot_base_at e stride e_small); rewrite Hrd.
  - rewrite (proj2 Hs Hl), Z.eqb_refl. unfold after_take.
    rewrite <- (Nat.add_0_r (base (2 ^ e) stride (length (taken s)))) at 1.
    rewrite (write_slot e stride e_small) by (exact (si_mapped _ _ _ _ HI) || lia).
    rewrite Nat.add_0_r. reflexivity.
  - destruct (Z.eqb_spec (status_of (slot (2 ^ e) stride (sys_mem s) (length (taken s)))) SLOT_READY) as [E|E];
      [|reflexivity]. apply Hs in E. lia.
Qed.

(** Any number of rounds; one round at a full ring makes room. *)
Section thread.
Context (body : Z → bar_op Z) (Hbody : device_body body).

Lemma consumer_runs n : ∀ s, SysInv e stride false s →
  ∃ s', consumer body n (local_head s) (sys_mem s) = MDone (sys_mem s', local_head s') ∧
    after_device s s' ∧ length (taken s') = Nat.min (n + length (taken s)) (length (published s)).
Proof.
  induction n as [|n IH]; intros s HI; pose proof (si_order _ _ _ _ HI) as Ho.
  - exists s. split; [reflexivity|]. split; [apply after_device_refl|lia].
  - destruct (Hbody s HI) as (s1 & Hb & A1 & L1). pose proof (after_device_inv s s1 HI A1) as HI1.
    destruct (IH s1 HI1) as (s2 & Hc & A2 & L2). exists s2. cbn [consumer]. unfold bar_bind.
    rewrite Hb. split; [exact Hc|]. split; [by eapply after_device_trans|].
    rewrite L2, L1, (ad_published _ _ A1). lia.
Qed.

Lemma device_at_state sched s n :
  SysInv e stride false s →
  ∃ s', device_at body sched (local_head s) (sys_mem s) n = (sys_mem s', local_head s') ∧
    after_device s s' ∧ SysInv e stride false s' ∧
    length (taken s') = Nat.min (rounds_before sched n + length (taken s)) (length (published s)).
Proof.
  intros HI. destruct (consumer_runs (rounds_before sched n) s HI) as (s' & Hc & A & L).
  exists s'. unfold device_at. rewrite Hc. split_and!; [reflexivity|exact A| |exact L].
  by eapply after_device_inv.
Qed.
End thread.
End device.

(** ** Submitting beside the thread *)

Lemma trace_snapshots (f : nat → bytes) n : ∀ i,
  dev_trace (λ i _, f (S i)) i n (f i) = f (i + n)%nat.
Proof.
  induction n as [|n IH]; intros i; cbn [dev_trace]; [by rewrite Nat.add_0_r|].
  rewrite IH. f_equal. lia.
Qed.

Section host.
Context (c : ModqConfig) (e : nat) (Hc : Config_ok c e).
Let stride : nat := Z.to_nat (modq_stride c).
Context (body : Z → bar_op Z) (Hbody : device_body e stride body).

Lemma ring_sizes : (e ≤ 31)%nat ∧ (64 ≤ stride)%nat ∧ u32 (Z.of_nat stride).
Proof.
  destruct (open_stride c e Hc) as (Hs & Es & Hu). split_and!; [exact (co_e c e Hc)|exact Hs|].
  unfold stride. by rewrite Es.
Qed.

(** The status the host reads at the tail. *)
Lemma tail_status s :
  SysInv e stride false s →
  ∃ st, status_at (tx_base s) (sys_mem s) st ∧
    (st = SLOT_FREE ↔ (length (published s) < length (taken s) + 2 ^ e)%nat).
Proof.
  intros HI. destruct ring_sizes as (He & Hs & Hu).
  exists (status_of (slot (2 ^ e) stride (sys_mem s) (length (published s)))). split.
  - unfold status_at. rewrite (tx_base_at e stride false He s HI).
    rewrite (read_slot e stride He Hs _ _ (si_mapped _ _ _ _ HI)) by (unfold SLOT_HDR_STATUS; lia).
    reflexivity.
  - exact (tail_free e stride false He Hs s HI).
Qed.

(** Reads go on until the first that finds room. *)
Lemma free_read_first fuel sched s j :
  SysInv e stride false s →
  (∀ n sn, device_at body sched (local_head s) (sys_mem s) n = (sys_mem sn, local_head sn) →
     after_device e stride s sn → SysInv e stride false sn →
     length (taken sn) = Nat.min (rounds_before sched n + length (taken s)) (length (published s)) →
     ((length (published sn) < length (taken sn) + 2 ^ e)%nat ↔ (j ≤ n)%nat)) →
  ∀ n, (n ≤ j)%nat → (j - n < fuel)%nat →
  free_read fuel body sched (tx_base s) (local_head s) (sys_mem s) n = j.
Proof.
  intros HI Hroom. destruct ring_sizes as (He & Hs & Hu).
  induction fuel as [|fuel IH]; intros n Hn Hf; [lia|]. cbn [free_read].
  destruct (device_at_state e stride He Hs Hu body Hbody sched s n HI) as (sn & Ed & A & HIn & L).
  specialize (Hroom n sn Ed A HIn L). rewrite Ed. cbn [fst].
  destruct (tail_status sn HIn) as (st & Hst & Hfree). unfold status_at in Hst.
  assert (tx_base sn = tx_base s) as Eb by (unfold tx_base; by rewrite (ad_tx _ _ _ _ A)).
  rewrite Eb in Hst. rewrite Hst. destruct (Z.eqb_spec st SLOT_FREE) as [E|E].
  - apply Hfree, Hroom in E. lia.
  - apply IH; [|lia]. destruct (decide (j ≤ n)%nat) as [Hle|]; [|lia]. by destruct E; apply Hfree, Hroom.
Qed.

(** The first read with room, when the thread gets a round by read [G]. *)
Lemma first_room sched s G i :
  SysInv e stride false s → (i ≤ G)%nat → (0 < sched i)%nat →
  ∃ j, (j ≤ G)%nat ∧
    ∀ n sn, device_at body sched (local_head s) (sys_mem s) n = (sys_mem sn, local_head sn) →
      after_device e stride s sn → SysInv e stride false sn →
      length (taken sn) = Nat.min (rounds_before sched n + length (taken s)) (length (published s)) →
      ((length (published sn) < length (taken sn) + 2 ^ e)%nat ↔ (j ≤ n)%nat).
Proof.
  intros HI Hi Hs. destruct ring_sizes as (He & Hst & Hu).
  set (P n := (length (published s) <
    Nat.min (rounds_before sched n + length (taken s)) (length (published s)) + 2 ^ e)%nat).
  destruct (least_nat P G) as (j & Hj & HP & Hmin).
  { pose proof (rounds_before_positive sched i G Hi Hs). pose proof (si_room _ _ _ _ HI) as Hr.
    pose proof (depth_pos e stride He Hst). unfold P, oldest in *. lia. }
  exists j. split; [exact Hj|]. intros n sn _ A _ Hl. rewrite (ad_published _ _ _ _ A), Hl.
  split; [intros HPn; destruct (decide (j ≤ n)%nat); [done|]; destruct (Hmin n); [lia|exact HPn]|].
  intros Hjn. pose proof (rounds_before_mono sched j n Hjn). unfold P in HP. lia.
Qed.

(** A submission beside a thread that gets a round in time. *)
Lemma submit_beside_ok fuel sched s q p G i :
  SysInv e stride false s → writing s = None → tx q = sys_tx s →
  Z.of_nat (length p) ≤ modq_stride c - 16 →
  (i ≤ G)%nat → (0 < sched i)%nat → Z.of_nat G ≤ SPIN_LIMIT → (G < fuel)%nat →
  ∃ s',
    submit_beside fuel body sched q (local_head s) p (sys_mem s) =
      Some (MDone (sys_mem s', (mkModqQueue (sys_tx s') (cring q) (modq_config q), local_head s',
        Ok (wrap 32 (Z.of_nat (length (published s))))))) ∧
    rtc (sys_step e stride false) s s' ∧ SysInv e stride false s' ∧ writing s' = None ∧
    published s' = published s ++ [p].
Proof.
  intros HI Hw Hq Hp Hi Hsi HG Hfuel. destruct ring_sizes as (He & Hs & Hu).
  destruct (first_room sched s G i HI Hi Hsi) as (j & Hj & Hroom).
  destruct (device_at_state e stride He Hs Hu body Hbody sched s 0 HI) as (s0 & E0 & A0 & HI0 & _).
  destruct (device_at_state e stride He Hs Hu body Hbody sched s j HI) as (sj & Ej & Aj & HIj & Lj).
  set (mem_at n := (device_at body sched (local_head s) (sys_mem s) n).1).
  assert (∀ n, dev_trace (λ i _, mem_at (S i)) 0 n (sys_mem s0) = mem_at n) as Htr.
  { intros n. replace (sys_mem s0) with (mem_at 0%nat) by (unfold mem_at; by rewrite E0).
    apply (trace_snapshots mem_at n 0). }
  assert (tx_base s0 = tx_base s) as Eb by (unfold tx_base; by rewrite (ad_tx _ _ _ _ A0)).
  destruct (submit_run c e false s0 sj (λ i _, mem_at (S i)) j fuel p Hc HI0 HIj) as (mem' & Hsub & _ & Hrun).
  - by rewrite (ad_writing _ _ _ _ Aj).
  - by rewrite (ad_tx _ _ _ _ Aj), (ad_tx _ _ _ _ A0).
  - rewrite Htr. unfold mem_at. by rewrite Ej.
  - exact Hp.
  - apply (Hroom j sj Ej Aj HIj Lj). lia.
  - intros n Hn. rewrite Htr, Eb.
    destruct (device_at_state e stride He Hs Hu body Hbody sched s n HI) as (sn & En & An & HIn & Ln).
    destruct (tail_status sn HIn) as (st & Hst & Hfree). exists st.
    assert (tx_base sn = tx_base s) as Ebn by (unfold tx_base; by rewrite (ad_tx _ _ _ _ An)).
    unfold mem_at. rewrite En, <- Ebn. split; [exact Hst|]. intros E.
    apply Hfree, (Hroom n sn En An HIn Ln) in E. lia.
  - lia.
  - lia.
  - exists (after_submit sj mem' p).
    assert (rtc (sys_step e stride false) s (after_submit sj mem' p)) as Hr
      by (etrans; [exact (ad_steps _ _ _ _ Aj)|exact Hrun]).
    split_and!; [|exact Hr|by eapply inv_reach|reflexivity|].
    + unfold submit_beside, modq_submit. rewrite Hq, E0. cbn [fst].
      change ((slot_base (tx_depth (sys_tx s)) (tx_slot_stride (sys_tx s)) (tail (sys_tx s))).2) with (tx_base s).
      rewrite (free_read_first fuel sched s j HI Hroom 0) by lia. rewrite Ej. cbn [snd].
      rewrite (ad_tx _ _ _ _ A0) in Hsub. unfold mem_at in Hsub. rewrite Hsub.
      cbn [after_submit sys_mem sys_tx local_head].
      by rewrite (ad_tx _ _ _ _ Aj), (ad_published _ _ _ _ Aj).
    + cbn [after_submit published]. by rewrite (ad_published _ _ _ _ Aj).
Qed.

(** A schedule that gives the thread a round by read [G] of every submission. *)
Definition timely (G : nat) (sched : nat → nat → nat) : Prop :=
  ∀ k, ∃ i, (i ≤ G)%nat ∧ (0 < sched k i)%nat.

Definition fits (p : bytes) : Prop := Z.of_nat (length p) ≤ modq_stride c - 16.

Lemma submit_all_ok fuel sched G :
  timely G sched → Z.of_nat G ≤ SPIN_LIMIT → (G < fuel)%nat →
  ∀ ps k s q, SysInv e stride false s → writing s = None → tx q = sys_tx s → Forall fits ps →
  ∃ s',
    submit_all fuel body sched k ps q (local_head s) (sys_mem s) =
      Some (MDone (sys_mem s', (mkModqQueue (sys_tx s') (cring q) (modq_config q), local_head s',
        (λ n, wrap 32 (Z.of_nat n)) <$> seq (length (published s)) (length ps), None))) ∧
    rtc (sys_step e stride false) s s' ∧ SysInv e stride false s' ∧ writing s' = None ∧
    published s' = published s ++ ps.
Proof.
  intros Hsched HG Hfuel ps. induction ps as [|p ps IH]; intros k s q HI Hw Hq Hps.
  - exists s. cbn [submit_all length seq fmap list_fmap]. rewrite <- Hq, app_nil_r. by destruct q.
  - apply Forall_cons in Hps as [Hp Hps]. destruct (Hsched k) as (i & Hi & Hsi).
    destruct (submit_beside_ok fuel (sched k) s q p G i HI Hw Hq Hp Hi Hsi HG Hfuel)
      as (s1 & Hs1 & R1 & HI1 & Hw1 & P1).
    destruct (IH (S k) s1 (mkModqQueue (sys_tx s1) (cring q) (modq_config q)) HI1 Hw1 eq_refl Hps)
      as (s2 & Hs2 & R2 & HI2 & Hw2 & P2).
    exists s2. cbn [submit_all]. rewrite Hs1, Hs2. rewrite P1, length_app in *.
    cbn [length seq fmap list_fmap cring modq_config] in *. rewrite Nat.add_1_r.
    split_and!; [reflexivity|by etrans|exact HI2|exact Hw2|by rewrite P2, <- app_assoc].
Qed.

(** An idle host and enough rounds: the ring is empty. *)
Lemma consumer_drains s n :
  SysInv e stride false s → (2 ^ e ≤ n)%nat →
  ∃ mem, consumer body n (local_head s) (sys_mem s) =
      MDone (mem, wrap 64 (Z.of_nat (length (published s)))) ∧
    ∀ k, status_of (slot (2 ^ e) stride mem k) = SLOT_FREE.
Proof.
  intros HI Hn. destruct ring_sizes as (He & Hs & Hu).
  destruct (consumer_runs e stride He Hs Hu body Hbody n s HI) as (s' & Hc' & A & L).
  pose proof (after_device_inv e stride He Hs Hu s s' HI A) as HI'.
  pose proof (si_room _ _ _ _ HI) as Hr. unfold oldest in Hr.
  assert (length (taken s') = length (published s)) as El by lia.
  exists (sys_mem s'). split; [by rewrite Hc', (si_head _ _ _ _ HI'), El|].
  intros k. destruct (window_cover e stride He Hs (length (taken s')) k) as (k' & Hk' & Ek).
  rewrite <- (same_slot e stride k' k) by exact Ek.
  destruct (si_slots _ _ _ _ HI' k' Hk') as [-> _].
  rewrite (ad_published _ _ _ _ A), !decide_False by lia. reflexivity.
Qed.
End host.

(** The threads of the three programs, with the sizes the configuration gives them. *)
Lemma body_device c e body :
  Config_ok c e →
  body = fpga_body (ring_depth c) (modq_stride c) ∨ body = sim_body (ring_depth c) (modq_stride c) →
  device_body e (Z.to_nat (modq_stride c)) body.
Proof.
  intros Hc Hb. destruct (open_stride c e Hc) as (Hs & Es & Hu).
  rewrite (co_depth c e Hc), <- (depth_Z e), <- Es in Hb.
  destruct Hb as [->| ->]; [apply fpga_device|apply sim_device]; try exact (co_e c e Hc); try exact Hs;
    unfold in_uint in *; lia.
Qed.

(** ** Properties *)

(** C7: The ring is live.  A queue opened in loopback mode, any payloads that fit, and one
    of the device threads scheduled in any way that gives it a round during the wait of
    each submission (by read [G], within the spin limit): no submission times out, they
    return the ids 0, 1, 2, ..., every payload is published in order, and [depth] further
    rounds of the thread take all that is outstanding, leaving every slot free. *)
Theorem loopback_live c e bar_open bar_open_shm name mem0 mem q body sched G fuel ps :
  Config_ok c e → transport c = Loopback name →
  bar_open_shm name (modq_total_size c) = Ok mem0 → Z.of_nat (length mem0) = modq_total_size c →
  modq_open bar_open bar_open_shm c = MDone (Ok (mem, q)) →
  body = fpga_body (ring_depth c) (modq_stride c) ∨ body = sim_body (ring_depth c) (modq_stride c) →
  timely G sched → Z.of_nat G ≤ SPIN_LIMIT → (G < fuel)%nat → Forall (fits c) ps →
  ∃ mem' q' head' s,
    submit_all fuel body sched 0 ps q 0 mem =
      Some (MDone (mem', (q', head', (λ n, wrap 32 (Z.of_nat n)) <$> seq 0 (length ps), None))) ∧
    reachable c e false s ∧ sys_mem s = mem' ∧ local_head s = head' ∧ published s = ps ∧
    ∀ n, (2 ^ e ≤ n)%nat →
      ∃ mem'', consumer body n head' mem' = MDone (mem'', wrap 64 (Z.of_nat (length ps))) ∧
        ∀ k, status_of (slot (2 ^ e) (Z.to_nat (modq_stride c)) mem'' k) = SLOT_FREE.
Proof.
  intros Hc Ht Hm Hl Ho Hb Hsched HG Hfuel Hps. apply (body_device c e body Hc) in Hb.
  destruct (open_loopback c e Hc bar_open bar_open_shm name mem0 Ht Hm Hl)
    as (mem1 & Ho1 & _ & _ & _ & HI). rewrite Ho in Ho1. injection Ho1 as -> ->.
  destruct (submit_all_ok c e Hc body Hb fuel sched G Hsched HG Hfuel ps 0
    (sys_init (fresh_queue c) mem1) (fresh_queue c) (HI false) eq_refl eq_refl Hps)
    as (s & Hs & Hr & HIs & _ & Hp).
  exists (sys_mem s), (mkModqQueue (sys_tx s) (cring (fresh_queue c)) c), (local_head s), s.
  split_and!; [exact Hs| |reflexivity|reflexivity|exact Hp|].
  - exists bar_open, bar_open_shm, name, mem0, mem1, (fresh_queue c). by split_and!.
  - intros n Hn. change ps with (published (sys_init (fresh_queue c) mem1) ++ ps). rewrite <- Hp.
    by apply (consumer_drains c e Hc body Hb).
Qed.

(** A ring of one slot: the second submission waits for the thread. *)
Lemma loopback_live_witness :
  ∃ mem q mem' q' head',
    modq_open example_bar example_shm example_config = MDone (Ok (mem, q)) ∧
    submit_all 2 (fpga_body 1 64) (λ _ i, i) 0 [[1; 2; 3]; [4]] q 0 mem =
      Some (MDone (mem', (q', head', [0; 1], None))).
Proof.
  destruct (open_loopback example_config 0 example_ok example_bar example_shm "/q" example_region
    eq_refl eq_refl example_total) as (mem & Ho & _).
  destruct (loopback_live example_config 0 example_bar example_shm "/q" example_region mem
    (fresh_queue example_config) (fpga_body 1 64) (λ _ i, i) 1 2 [[1; 2; 3]; [4]] example_ok
    eq_refl eq_refl example_total Ho (or_introl eq_refl)) as (mem' & q' & head' & s & Hs & _).
  - intros k. exists 1%nat. lia.
  - vm_compute. discriminate.
  - lia.
  - repeat constructor; vm_compute; discriminate.
  - exists mem, (fresh_queue example_config), mem', q', head'. split; [exact Ho|exact Hs].
Defined.
