(* ===== verification/ModqBin.v ===== *)
(** * The programs over the ring

    Models [src/crates/otap-modq/src/bin/modq_loopback.rs], [bin/modq_bench.rs] and
    [src/crates/otap-cli/src/bin/otap-modq-loopback.rs]: a device thread and a host that
    share one mapped object.  Inputs of a run are the schedule of the thread ([early]
    until the queue is open, then as in [RingThread.v]), whether it maps the object before
    or after the host ([late], as the host's pause is only a delay), and the elapsed times
    the clock reports; its output is the values of the lines printed. *)

From stdpp Require Import gmap.
From S2P Require Import Prelude Float Core Schema Modq Bar RingThread.
Local Open Scope Z_scope.

(** ** Output *)

Inductive ModqLine : Type :=
| RingInfo (depth capacity : Z)
| MessagesLine (n : Z)
| PayloadLine (schema : string) (bytes sid : Z)
| Throughput (messages payload : Z) (total_gb secs gbps rate latency : float)
| SidsIncrease (n : Z)
| SidErrors (errors n : Z)
| BenchLine (payload : Z) (gbps rate latency : float)
| Note (s : string).

(** How a run ends before its last line: a failed [expect], or an error [main] returns. *)
Inductive BinError : Type :=
| Panicked (msg : string)
| FailedOpen (e : ModqError)
| FailedSubmit (e : RingError).

(** [None]: the host still waits. *)
Abbreviation ended A := (option (mmio (result A BinError))).

(** [Duration::as_secs_f64] *)
Definition as_secs_f64 (ns : Z) : float :=
  f64.add (f64.of_Z (ns / 10 ^ 9)) (f64.div (f64.of_Z (ns mod 10 ^ 9)) (f64.of_Z (10 ^ 9))).

Definition e9 : float := f64.of_Z (10 ^ 9).
Definition e6 : float := f64.of_Z (10 ^ 6).

Definition gbps (n size ns : Z) : float :=
  f64.div (f64.div (f64.of_Z (n * size * 8)) (as_secs_f64 ns)) e9.
Definition mega_rate (n ns : Z) : float := f64.div (f64.div (f64.of_Z n) (as_secs_f64 ns)) e6.
Definition latency_ns (n ns : Z) : float := f64.div (f64.of_Z ns) (f64.of_Z n).

Definition throughput (n size ns : Z) : ModqLine :=
  Throughput n size (f64.div (f64.of_Z (n * size)) e9) (as_secs_f64 ns) (gbps n size ns)
    (mega_rate n ns) (latency_ns n ns).

(** ** The thread's life *)

(** [(SLOT_SIZE as usize + 16 + 63) & !63] and [total_size], as the threads compute them. *)
Definition thread_stride (slot_size : Z) : Z := Z.land (slot_size + 16 + 63) (Z.lnot 63).
Definition thread_total (depth slot_size : Z) : Z :=
  Z.of_nat RING_BASE + thread_stride slot_size * depth.

Section programs.
Context `{Posix}.

(** Rounds of the thread; one that panics is gone and leaves the memory as it is. *)
Definition thread_rounds (body : Z → bar_op Z) (n : nat) (head : Z) (mem : bytes) : bytes * Z :=
  match consumer body n head mem with
  | MDone (mem, head) => (mem, head)
  | _ => (mem, head)
  end.

(** The stores of [ModqQueue::open] in loopback mode, in program order. *)
Definition init_stores (c : ModqConfig) : list (bar_op unit) :=
  [write32 REG_DEPTH (ring_depth c); write32 REG_SLOT_SIZE (slot_size c);
   write64 REG_HEAD 0; write64 REG_TAIL 0] ++
  ((λ i, write32 (RING_BASE + i * Z.to_nat (modq_stride c)) SLOT_FREE)
     <$> seq 0 (Z.to_nat (ring_depth c))).

(** The same with the thread: [early i] rounds before store [i]. *)
Fixpoint stores_beside (body : Z → bar_op Z) (early : nat → nat) (i : nat)
    (stores : list (bar_op unit)) (head : Z) (mem : bytes) : mmio (bytes * Z) :=
  let '(mem, head) := thread_rounds body (early i) head mem in
  match stores with
  | [] => MDone (mem, head)
  | store :: stores =>
      match store mem with
      | MDone (mem, _) => stores_beside body early (S i) stores head mem
      | MPanic => MPanic
      | MUndef => MUndef
      end
  end.

(** [ModqQueue::open] up to its mapping. *)
Definition host_open (name : string) (c : ModqConfig) (σ : os) : os * result (BarMapping * bytes) ModqError :=
  if negb (is_power_of_two (ring_depth c)) then (σ, Err (InvalidRingDepth (ring_depth c)))
  else BarMapping_open_shm name (modq_total_size c) σ.

(** The two mappings of the object, the thread's and the host's, and the thread's counter.
    A thread that comes first makes [early 0] rounds until the host maps. *)
Definition map_both (late : bool) (name : string) (c : ModqConfig) (body : Z → bar_op Z)
    (early : nat → nat) (σ : os)
    : os * result (BarMapping * bytes) ModqError * result (BarMapping * bytes) ModqError * Z :=
  let size := thread_total (ring_depth c) (slot_size c) in
  if late then
    let '(σ, host) := host_open name c σ in
    let '(σ, thread) := BarMapping_open_shm name size σ in
    (σ, thread, host, 0)
  else
    let '(σ, thread) := BarMapping_open_shm name size σ in
    let '(σ, head) :=
      match thread with
      | Ok (thread_bar, mem) =>
          let '(mem, head) := thread_rounds body (early 0%nat) 0 mem in
          (sys_stored (bar_base thread_bar) mem σ, head)
      | Err _ => (σ, 0)
      end in
    let '(σ, host) := host_open name c σ in
    (σ, thread, host, head).

(** Spawn the thread, which maps the shared object and runs on it from then on; after the
    pause open the queue on the object, beside it; [run] the host; stop and join the
    thread, which drops its mapping; unlink the object; drop the queue.  A thread that
    could not map panicked: it makes no rounds, and [join] reports it. *)
Definition beside_thread (name : string) (c : ModqConfig) (body : Z → bar_op Z) (late : bool)
    (early : nat → nat) (open_failed : ModqError → BinError) (join_failed : string)
    (run : (Z → bar_op Z) → ModqQueue → Z → bytes → ended (list ModqLine)) (σ : os)
    : os * ended (list ModqLine) :=
  let '(σ, thread, host, head) := map_both late name c body early σ in
  let body := if is_ok thread then body else bar_ret in
  match host with
  | Err e => (σ, Some (MDone (Err (open_failed e))))
  | Ok (bar, mem) =>
      let queue :=
        mkModqQueue (TxRing_with_params (ring_depth c) (slot_size c))
          (CompletionRing_new (ring_depth c) (modq_stride c)) c in
      match stores_beside body (λ i, early (S i)) 0 (init_stores c) head mem with
      | MPanic => (σ, Some MPanic)
      | MUndef => (σ, Some MUndef)
      | MDone (mem, head) =>
          match run body queue head mem with
          | Some (MDone (Ok out)) =>
              match thread with
              | Err _ => (σ, Some (MDone (Err (Panicked join_failed))))
              | Ok (thread_bar, _) =>
                  let σ := BarMapping_drop thread_bar σ in
                  let σ := sys_shm_unlink name σ in
                  (BarMapping_drop bar σ, Some (MDone (Ok out)))
              end
          | r => (σ, r)
          end
      end
  end.

(** ** [modq_loopback] *)

Definition LOOPBACK_SHM : string := "/otap_modq_loopback".
Definition LOOPBACK_CONFIG : ModqConfig := mkModqConfig (Loopback LOOPBACK_SHM) 1024 256.
Definition NUM_MESSAGES : Z := 1000000.
Definition VERIFY_COUNT : Z := 10000.

Definition trade_payload : bytes :=
  let p := replicate 128 0 in
  let p := splice p 0 (str_bytes "AAPL") in
  let p := <[4%nat := 0]> p in
  let p := splice p 5 (to_le_bytes 4 1000) in
  splice p 9 (to_le_bytes 8 19850).

Definition verify_payload (i : Z) : bytes := splice (replicate 64 0) 0 (to_le_bytes 8 i).

(** [sid as u64 != NUM_MESSAGES + i] *)
Definition sequence_errors (sids : list Z) : Z :=
  Z.of_nat (length (base.filter (λ p, p.2 ≠ NUM_MESSAGES + Z.of_nat p.1) (imap pair sids))).

(** A loop of submissions with [expect]: the device's counter goes on. *)
Definition submit_loop {A} (fuel : nat) (body : Z → bar_op Z) (sched : nat → nat → nat) (k : nat)
    (failed : RingError → BinError) (payloads : list bytes) (queue : ModqQueue) (head : Z) (mem : bytes)
    (next : ModqQueue → Z → list Z → bytes → ended A) : ended A :=
  match submit_all fuel body sched k payloads queue head mem with
  | None => None
  | Some (MDone (mem, (queue, head, sids, None))) => next queue head sids mem
  | Some (MDone (_, (_, _, _, Some e))) => Some (MDone (Err (failed e)))
  | Some MPanic => Some MPanic
  | Some MUndef => Some MUndef
  end.

Definition submit_expect : RingError → BinError := λ _, Panicked "submit failed".

Definition ring_info (queue : ModqQueue) : ModqLine :=
  RingInfo (ring_depth (modq_config queue)) (slot_payload_capacity (tx queue)).

Definition modq_loopback (fuel : nat) (late : bool) (early : nat → nat) (sched : nat → nat → nat) (elapsed : Z)
    : os → os * ended (list ModqLine) :=
  beside_thread LOOPBACK_SHM LOOPBACK_CONFIG (fpga_body 1024 (thread_stride 256)) late early
    (λ _, Panicked "Failed to open MODQ queue") "FPGA thread panicked"
    (λ body queue head mem,
       submit_loop fuel body sched 0 submit_expect (replicate (Z.to_nat NUM_MESSAGES) trade_payload)
         queue head mem (λ queue' head _ mem,
       submit_loop fuel body sched (Z.to_nat NUM_MESSAGES) submit_expect
         (verify_payload <$> seqZ 0 VERIFY_COUNT) queue' head mem (λ _ _ sids _,
       let errors := sequence_errors sids in
       Some (MDone (Ok
         [ring_info queue; MessagesLine NUM_MESSAGES;
          throughput NUM_MESSAGES (Z.of_nat (length trade_payload)) elapsed;
          if errors =? 0 then SidsIncrease VERIFY_COUNT else SidErrors errors VERIFY_COUNT;
          Note "MODQ ring buffer protocol verified."]))))).

(** ** [modq_bench] *)

Definition BENCH_SHM : string := "/otap_modq_bench".

Inductive BenchMode : Type :=
| BenchLoopback
| BenchPci (path : string)
| BenchNoPath
| BenchUsage.

(** [args.iter().position(|a| a == "--pci")] *)
Fixpoint position (a : string) (args : list string) : option nat :=
  match args with
  | [] => None
  | b :: args => if decide (b = a) then Some 0%nat else S <$> position a args
  end.

(** [args] with the program's name first. *)
Definition bench_mode (args : list string) : BenchMode :=
  if bool_decide ("--loopback"%string ∈ args) then BenchLoopback
  else
    match position "--pci" args with
    | None => BenchUsage
    | Some idx => match args !! (idx + 1)%nat with Some path => BenchPci path | None => BenchNoPath end
    end.

Definition BENCH_SIZES : list Z := [64; 128; 256; 512; 1024; 4096].

Definition bench_iterations (payload_size : Z) : Z :=
  if payload_size <=? 128 then 10000000 else if payload_size <=? 1024 then 5000000 else 1000000.

Definition bench_line (elapsed : Z → Z) (size : Z) : ModqLine :=
  let iterations := bench_iterations size in
  BenchLine size (gbps iterations size (elapsed size)) (mega_rate iterations (elapsed size))
    (latency_ns iterations (elapsed size)).

Definition BENCH_NOTES : list ModqLine :=
  [Note "Note: Loopback throughput is bounded by memory bandwidth, not PCIe.";
   Note "On real hardware, PCIe Gen5 x16 sustains ~64 GB/s = ~512 Gbps."].

(** The loop over the sizes; [elapsed] of the timed run of each. *)
Fixpoint bench_sizes (fuel : nat) (body : Z → bar_op Z) (sched : nat → nat → nat) (elapsed : Z → Z)
    (k : nat) (sizes : list Z) (queue : ModqQueue) (head : Z) (mem : bytes) (out : list ModqLine)
    : ended (list ModqLine) :=
  match sizes with
  | [] => Some (MDone (Ok (out ++ BENCH_NOTES)))
  | size :: sizes =>
      if slot_payload_capacity (tx queue) <? size then
        bench_sizes fuel body sched elapsed k sizes queue head mem out
      else
        let payload := replicate (Z.to_nat size) 0xAA in
        let iterations := bench_iterations size in
        submit_loop fuel body sched k (λ _, Panicked "warmup submit failed") (replicate 1000 payload)
          queue head mem (λ queue head _ mem,
        submit_loop fuel body sched (k + 1000) submit_expect (replicate (Z.to_nat iterations) payload)
          queue head mem (λ queue head _ mem,
        bench_sizes fuel body sched elapsed (k + 1000 + Z.to_nat iterations) sizes queue head mem
          (out ++ [bench_line elapsed size])))
  end.

Definition bench_run (fuel : nat) (sched : nat → nat → nat) (elapsed : Z → Z) (body : Z → bar_op Z)
    (queue : ModqQueue) (head : Z) (mem : bytes) : ended (list ModqLine) :=
  bench_sizes fuel body sched elapsed 0 BENCH_SIZES queue head mem [ring_info queue].

(** With [--pci] there is no thread: [hardware] is what the device does.  The usage line
    goes to standard error and the process exits with 1. *)
Definition modq_bench (args : list string) (fuel : nat) (hardware : Z → bar_op Z) (late : bool)
    (early : nat → nat) (sched : nat → nat → nat) (elapsed : Z → Z) (σ : os) : os * ended (list ModqLine) :=
  let open_failed (_ : ModqError) := Panicked "Failed to open MODQ queue" in
  match bench_mode args with
  | BenchUsage => (σ, Some (MDone (Err (Panicked "Usage: modq_bench --loopback | --pci <resource_path>"))))
  | BenchNoPath => (σ, Some (MDone (Err (Panicked "--pci requires a path argument"))))
  | BenchLoopback =>
      beside_thread BENCH_SHM (mkModqConfig (Loopback BENCH_SHM) 1024 4096)
        (sim_body 1024 (thread_stride 4096)) late early open_failed "sim thread panicked"
        (bench_run fuel sched elapsed) σ
  | BenchPci path =>
      let '(σ, opened) := modq_open_os (mkModqConfig (PciBar path) 1024 4096) σ in
      match opened with
      | MPanic => (σ, Some MPanic)
      | MUndef => (σ, Some MUndef)
      | MDone (Err e) => (σ, Some (MDone (Err (open_failed e))))
      | MDone (Ok (bar, mem, queue)) =>
          let r := bench_run fuel sched elapsed hardware queue 0 mem in (BarMapping_drop bar σ, r)
      end
  end.

(** ** [otap-modq-loopback] *)

Definition DEMO_SHM : string := "/otap_modq_demo".

Definition modq_order : EquityTradeOrder :=
  mkOrder (str_bytes "AAPL") Buy 1000 (f64.to_bits (f64.of_Z 19850)) 1700000000000000000 42
    (replicate 16 0xAB).
Definition modq_tick : MarketTick :=
  mkTick (str_bytes "AAPL" ++ replicate 4 0) (f64.to_bits (f64.of_Z 19840))
    (f64.to_bits (f64.of_Z 19860)) (f64.to_bits (f64.of_Z 19850)) 1000000 1700000000000000001
    (replicate 16 0).
Definition modq_heartbeat : Heartbeat := mkHeartbeat 7 (-42) 999 (replicate 8 0).
Definition bulk_order : EquityTradeOrder :=
  mkOrder (str_bytes "MSFT") Sell 500 (f64.to_bits (f64.of_Z 42500)) 0 0 (replicate 16 0).

(** One submission and the line about it. *)
Definition submit_schema {S} `{Schema S} (fuel : nat) (body : Z → bar_op Z) (sched : nat → nat → nat)
    (k : nat) (name : string) (v : S) (queue : ModqQueue) (head : Z) (mem : bytes)
    (next : ModqLine → ModqQueue → Z → bytes → ended (list ModqLine)) : ended (list ModqLine) :=
  submit_loop fuel body sched k FailedSubmit [encode v] queue head mem (λ queue head sids mem,
    next (PayloadLine name (Z.of_nat (length (encode v))) (hd 0 sids)) queue head mem).

Definition otap_modq_loopback (fuel : nat) (late : bool) (early : nat → nat) (sched : nat → nat → nat) (elapsed : Z)
    : os → os * ended (list ModqLine) :=
  beside_thread DEMO_SHM (mkModqConfig (Loopback DEMO_SHM) 1024 512)
    (sim_body 1024 (thread_stride 512)) late early FailedOpen "FPGA thread panicked"
    (λ body queue head mem,
       submit_schema fuel body sched 0 "EquityTradeOrder" modq_order queue head mem (λ l1 queue' head mem,
       submit_schema fuel body sched 1 "MarketTick" modq_tick queue' head mem (λ l2 queue' head mem,
       submit_schema fuel body sched 2 "Heartbeat" modq_heartbeat queue' head mem (λ l3 queue' head mem,
       submit_loop fuel body sched 3 FailedSubmit
         (replicate (Z.to_nat NUM_MESSAGES) (encode bulk_order)) queue' head mem (λ _ _ _ _,
       Some (MDone (Ok
         [ring_info queue; l1; l2; l3;
          throughput NUM_MESSAGES (Z.of_nat (length (encode bulk_order))) elapsed;
          Note "== MODQ loopback demo complete. =="]))))))).
End programs.

(* The message counts are not computed with. *)
#[local] Opaque NUM_MESSAGES VERIFY_COUNT bench_iterations.

(** ** Running beside the thread *)

Section runs.
Context (c : ModqConfig) (e : nat) (Hc : Config_ok c e).
Let stride : nat := Z.to_nat (modq_stride c).
Context (body : Z → bar_op Z) (Hbody : device_body e stride body).
Context (fuel : nat) (sched : nat → nat → nat) (G : nat).
Hypothesis sched_timely : timely G sched.
Hypothesis G_small : Z.of_nat G ≤ SPIN_LIMIT.
Hypothesis fuel_enough : (G < fuel)%nat.

(** The host between two submissions: a queue on a ring in a state of [Modq.v]. *)
Definition at_rest (s : Sys) (q : ModqQueue) : Prop :=
  SysInv e stride false s ∧ writing s = None ∧ tx q = sys_tx s ∧ modq_config q = c.

(** The loop goes on from a state at rest, with consecutive ids. *)
Lemma submit_loop_ok {A} k failed ps q s (next : ModqQueue → Z → list Z → bytes → ended A) r :
  at_rest s q → Forall (fits c) ps →
  (∀ s' q', at_rest s' q' → published s' = published s ++ ps →
     next q' (local_head s') ((λ n, wrap 32 (Z.of_nat n)) <$> seq (length (published s)) (length ps))
       (sys_mem s') = r) →
  submit_loop fuel body sched k failed ps q (local_head s) (sys_mem s) next = r.
Proof.
  intros (HI & Hw & Hq & Hqc) Hps Hnext.
  destruct (submit_all_ok c e Hc body Hbody fuel sched G sched_timely G_small fuel_enough ps k s q
    HI Hw Hq Hps) as (s' & Hs & _ & HI' & Hw' & Hp).
  unfold submit_loop. rewrite Hs. apply (Hnext s'); [by split_and!|exact Hp].
Qed.

Lemma rest_capacity s q : at_rest s q → slot_payload_capacity (tx q) = modq_stride c - 16.
Proof. intros (HI & _ & -> & _). exact (capacity_at c e Hc false s HI). Qed.
End runs.

(** ** The thread before the queue is open *)

(* Offsets are not computed with. *)
#[local] Opaque RING_BASE from_le_bytes to_le_bytes slice splice.

(** The first slot, where the thread starts, is not marked READY. *)
Definition slot0_idle (mem : bytes) : bool :=
  match read32 RING_BASE mem with
  | MDone (_, status) => negb (status =? SLOT_READY)
  | _ => false
  end.

Lemma slot0_idle_spec mem :
  slot0_idle mem = true ↔ (RING_BASE + 4 ≤ length mem)%nat ∧ from_le_bytes (slice mem RING_BASE (RING_BASE + 4)) ≠ SLOT_READY.
Proof.
  unfold slot0_idle, read32, read_le. destruct (Nat.leb_spec (RING_BASE + 4) (length mem)).
  - rewrite negb_true_iff, Z.eqb_neq. tauto.
  - split; [done|lia].
Qed.

Lemma slot0_base depth stride : slot_base depth stride 0 = (0%nat, RING_BASE).
Proof. unfold slot_base. by rewrite Zmod_0_l, Nat.mul_0_l, Nat.add_0_r. Qed.

(** On such a region the thread waits. *)
Lemma fpga_idle depth stride mem : slot0_idle mem = true → fpga_body depth stride 0 mem = MDone (mem, 0).
Proof.
  unfold slot0_idle, fpga_body, device_round, bar_bind, read32, read_le, bar_ret. rewrite slot0_base.
  destruct (Nat.leb_spec (RING_BASE + 4) (length mem)); [|done]. by intros ->%negb_true_iff.
Qed.

Lemma sim_idle depth stride mem : slot0_idle mem = true → sim_body depth stride 0 mem = MDone (mem, 0).
Proof.
  unfold slot0_idle, sim_body, bar_bind, read32, read_le, bar_ret. rewrite slot0_base.
  destruct (Nat.leb_spec (RING_BASE + 4) (length mem)); [|done]. by intros ->%negb_true_iff.
Qed.

Definition waits (body : Z → bar_op Z) : Prop :=
  ∀ mem, slot0_idle mem = true → body 0 mem = MDone (mem, 0).

Lemma rounds_idle body n mem : waits body → slot0_idle mem = true → thread_rounds body n 0 mem = (mem, 0).
Proof.
  intros Hw Hi. unfold thread_rounds. assert (consumer body n 0 mem = MDone (mem, 0)) as ->; [|done].
  induction n as [|n IH]; cbn [consumer]; [done|]. unfold bar_bind. by rewrite Hw.
Qed.

(** A store that leaves the first slot idle. *)
Definition keeps_idle (store : bar_op unit) : Prop :=
  ∀ mem mem' u, store mem = MDone (mem', u) → slot0_idle mem = true → slot0_idle mem' = true.

Lemma write_keeps_idle n off v :
  (off + n ≤ RING_BASE ∨ RING_BASE + 4 ≤ off)%nat → keeps_idle (write_le n off v).
Proof.
  intros Hoff mem mem' u. unfold write_le. destruct (Nat.leb_spec (off + n) (length mem)); [|done].
  intros [= <- _]. rewrite !slot0_idle_spec. intros [Hl Hne].
  rewrite splice_length, slice_splice_other; rewrite ?to_le_length; lia.
Qed.

Lemma free_keeps_idle : keeps_idle (write32 RING_BASE SLOT_FREE).
Proof.
  intros mem mem' u. unfold write32, write_le. destruct (Nat.leb_spec (RING_BASE + 4) (length mem)); [|done].
  intros [= <- _] _. apply slot0_idle_spec.
  rewrite splice_length, slice_splice_same; rewrite ?to_le_length; try lia. split; [lia|].
  rewrite from_to_le32; [discriminate|]. vm_compute. split; congruence.
Qed.

Lemma init_keeps_idle c e : Config_ok c e → Forall keeps_idle (init_stores c).
Proof.
  intros Hc. destruct (open_stride c e Hc) as (Hs & _). pose proof ring_above_registers as Hr.
  assert (REG_TAIL + 8 ≤ REG_DOORBELL ∧ REG_HEAD + 8 ≤ REG_DOORBELL ∧ REG_DEPTH + 4 ≤ REG_DOORBELL ∧
    REG_SLOT_SIZE + 4 ≤ REG_DOORBELL)%nat as (? & ? & ? & ?) by (unfold REG_TAIL, REG_HEAD, REG_DEPTH, REG_SLOT_SIZE, REG_DOORBELL; lia).
  unfold init_stores. apply Forall_app. split.
  - repeat constructor; apply write_keeps_idle; lia.
  - apply Forall_fmap, Forall_forall. intros [|i] _; unfold compose.
    + rewrite Nat.mul_0_l, Nat.add_0_r. apply free_keeps_idle.
    + apply write_keeps_idle. lia.
Qed.

Lemma stores_idle body early stores : waits body → Forall keeps_idle stores → ∀ i mem,
  slot0_idle mem = true →
  stores_beside body early i stores 0 mem =
  match run_stores stores mem with
  | MDone (mem, _) => MDone (mem, 0)
  | MPanic => MPanic
  | MUndef => MUndef
  end.
Proof.
  intros Hw Hk. induction Hk as [|store stores Hs _ IH]; intros i mem Hi; cbn [stores_beside run_stores];
    rewrite rounds_idle by done; [done|].
  unfold bar_bind. destruct (store mem) as [[mem' u]| |] eqn:E; [|done..]. apply IH. by eapply Hs.
Qed.

(** Without the thread the stores are those of [Modq.modq_init]. *)
Lemma free_slots_stores stride n : ∀ i mem,
  run_stores ((λ i, write32 (RING_BASE + i * stride) SLOT_FREE) <$> seq i n) mem = free_slots n i stride mem.
Proof.
  induction n as [|n IH]; intros i mem; [done|]. cbn [seq fmap list_fmap run_stores free_slots]. unfold bar_bind.
  destruct (write32 _ _ mem) as [[]| |]; [|done..]. apply IH.
Qed.

Lemma init_stores_run c mem : run_stores (init_stores c) mem = modq_init c mem.
Proof.
  unfold init_stores, modq_init. cbn [app run_stores]. unfold bar_bind.
  destruct (write32 _ _ mem) as [[m1 []]| |]; [|done..]. destruct (write32 _ _ m1) as [[m2 []]| |]; [|done..].
  destruct (write64 _ _ m2) as [[m3 []]| |]; [|done..]. destruct (write64 _ _ m3) as [[m4 []]| |]; [|done..].
  apply free_slots_stores.
Qed.

Section threads.
Context `{PosixSpec}.

(** Both sides get their mapping.  Where the thread can look at the object before it is
    initialised, its first slot is idle. *)
Definition both_open (late : bool) (name : string) (c : ModqConfig) (σ : os) : bool :=
  match map_both late name c bar_ret (λ _, 0%nat) σ with
  | (_, Ok (_, mem_t), Ok (_, mem), _) => (late || slot0_idle mem_t) && slot0_idle mem
  | _ => false
  end.

(** The thread's rounds then leave object and counter as they are. *)
Lemma map_both_idle late name c body early σ :
  waits body → both_open late name c σ = true →
  map_both late name c body early σ = map_both late name c bar_ret (λ _, 0%nat) σ.
Proof.
  intros Hw. unfold both_open, map_both. destruct late; [done|]. cbn [orb].
  destruct (BarMapping_open_shm name _ σ) as [σ1 [[b m]|]]; [|done].
  change (thread_rounds bar_ret 0 0 m) with (m, 0). intros Hi. assert (slot0_idle m = true) as Hm.
  { revert Hi. cbv beta iota. destruct (host_open name c (sys_stored (bar_base b) m σ1)) as [σ2 [[? ?]|]]; [|done].
    by intros [? _]%andb_true_iff. }
  by rewrite (rounds_idle body).
Qed.

Lemma host_open_eq c e name σ :
  Config_ok c e → host_open name c σ = BarMapping_open_shm name (modq_total_size c) σ.
Proof.
  intros Hc. unfold host_open.
  by rewrite (proj2 (is_power_of_two_iff (ring_depth c))) by (exists e; exact (co_depth c e Hc)).
Qed.

(** Two mappings at different addresses, whichever is made first. *)
Definition mapped_both (σ σ' : os) (bt bh : BarMapping) : Prop :=
  open_fds σ' = open_fds σ ∧ bar_base bt ≠ 0 ∧ bar_base bh ≠ 0 ∧ bar_base bt ≠ bar_base bh ∧
  mappings σ !! bar_base bt = None ∧ mappings σ !! bar_base bh = None ∧
  mappings σ' = <[bar_base bt := bar_size bt]> (<[bar_base bh := bar_size bh]> (mappings σ)).

Lemma second_mapping σ σ1 σ2 (b b' : BarMapping) mem mem' :
  open_fds σ1 = open_fds σ → mappings σ1 = mappings σ →
  ∀ σ0, balanced σ0 (σ, Ok (b, mem)) → balanced σ1 (σ2, Ok (b', mem')) →
  mapped_both σ0 σ2 b b' ∧ mapped_both σ0 σ2 b' b.
Proof.
  intros Ho1 Hm1 σ0 (Ho & Hz & Hn & Hm & _) (Ho2 & Hz2 & Hn2 & Hm2 & _). cbn [fst snd] in *.
  rewrite Hm1, Hm in Hn2, Hm2. assert (bar_base b ≠ bar_base b') as Hne.
  { intros E. rewrite <- E, lookup_insert_eq in Hn2. discriminate Hn2. }
  rewrite lookup_insert_ne in Hn2 by done. unfold mapped_both.
  split; (split_and!; [congruence|done|done|done|done|done|]); [by rewrite Hm2, insert_insert_ne by done|done].
Qed.

Lemma map_both_spec late c e name σ :
  Config_ok c e → both_open late name c σ = true →
  ∃ σ' bt mem_t bh mem,
    map_both late name c bar_ret (λ _, 0%nat) σ = (σ', Ok (bt, mem_t), Ok (bh, mem), 0) ∧
    slot0_idle mem = true ∧ Z.of_nat (length mem) = modq_total_size c ∧ mapped_both σ σ' bt bh.
Proof.
  intros Hc. unfold both_open, map_both. pose proof (λ σ, host_open_eq c e name σ Hc) as Hh.
  assert (∀ σ b mem, balanced σ (BarMapping_open_shm name (modq_total_size c) σ) →
    (BarMapping_open_shm name (modq_total_size c) σ).2 = Ok (b, mem) → Z.of_nat (length mem) = modq_total_size c) as Hlen.
  { intros σ' b mem Hb E. rewrite <- (open_shm_size _ _ _ _ _ E). unfold balanced in Hb. rewrite E in Hb. apply Hb. }
  set (tsize := thread_total (ring_depth c) (slot_size c)). destruct late; rewrite ?Hh.
  - pose proof (open_shm_balanced name (modq_total_size c) σ) as B1. specialize (Hlen σ).
    destruct (BarMapping_open_shm name (modq_total_size c) σ) as [σ1 h].
    pose proof (open_shm_balanced name tsize σ1) as B2. destruct (BarMapping_open_shm name tsize σ1) as [σ2 t].
    destruct t as [[bt mt]|], h as [[bh mh]|]; try done. cbn [orb andb]. intros Hi.
    exists σ2, bt, mt, bh, mh. split_and!; [done|done|by apply (Hlen bh mh B1)|].
    exact (proj2 (second_mapping σ1 σ1 σ2 bh bt mh mt eq_refl eq_refl σ B1 B2)).
  - pose proof (open_shm_balanced name tsize σ) as B1. destruct (BarMapping_open_shm name tsize σ) as [σ1 t].
    destruct t as [[bt mt]|]; [|by destruct (host_open name c σ1)]. change (thread_rounds bar_ret 0 0 mt) with (mt, 0).
    cbv beta iota. rewrite Hh. destruct (stored_spec (bar_base bt) mt σ1) as [Ho Hm]. set (σs := sys_stored (bar_base bt) mt σ1) in *.
    pose proof (open_shm_balanced name (modq_total_size c) σs) as B2. specialize (Hlen σs).
    destruct (BarMapping_open_shm name (modq_total_size c) σs) as [σ2 [[bh mh]|]]; [|done]. cbn [orb].
    intros [_ Hi]%andb_true_iff. exists σ2, bt, mt, bh, mh.
    split_and!; [done|done|by apply (Hlen bh mh B2)|].
    exact (proj1 (second_mapping σ1 σs σ2 bt bh mt mh Ho Hm σ B1 B2)).
Qed.

(** What is left of the system after a program. *)
Definition released (σ σ' : os) : Prop := open_fds σ' = open_fds σ ∧ mappings σ' = mappings σ.

Lemma both_dropped name σ σ' bt bh :
  mapped_both σ σ' bt bh →
  released σ (BarMapping_drop bh (sys_shm_unlink name (BarMapping_drop bt σ'))).
Proof.
  intros (Ho & Hzt & Hzh & Hne & Hnt & Hnh & Hm).
  destruct (drop_mapping bt σ' Hzt) as [Ho3 Hm3]; [by rewrite Hm, lookup_insert_eq|].
  assert (mappings (BarMapping_drop bt σ') = <[bar_base bh := bar_size bh]> (mappings σ)) as Hm3'.
  { rewrite Hm3, Hm. apply delete_insert_id. by rewrite lookup_insert_ne by done. }
  destruct (unlink_spec name (BarMapping_drop bt σ')) as [Ho4 Hm4].
  destruct (drop_mapping bh (sys_shm_unlink name (BarMapping_drop bt σ')) Hzh) as [Ho5 Hm5].
  { by rewrite Hm4, Hm3', lookup_insert_eq. }
  split; [congruence|]. rewrite Hm5, Hm4, Hm3'. by apply delete_insert_id.
Qed.

Lemma beside_thread_ok c e name body late early open_failed join_failed run out σ :
  Config_ok c e → transport c = Loopback name → waits body → both_open late name c σ = true →
  (∀ s, at_rest c e s (fresh_queue c) → published s = [] → local_head s = 0 →
     run body (fresh_queue c) 0 (sys_mem s) = Some (MDone (Ok out))) →
  let '(σ', r) := beside_thread name c body late early open_failed join_failed run σ in
  r = Some (MDone (Ok out)) ∧ released σ σ'.
Proof.
  intros Hc Ht Hw Hopen Hrun. unfold beside_thread. rewrite (map_both_idle late name c body) by done.
  destruct (map_both_spec late c e name σ Hc Hopen) as (σ' & bt & mt & bh & mem & -> & Hi & Hl & Hmb).
  cbn [is_ok]. rewrite stores_idle by (done || by eapply init_keeps_idle). rewrite init_stores_run.
  destruct (open_loopback c e Hc (λ _, Ok mem) (λ _ _, Ok mem) name mem Ht eq_refl Hl) as (mem' & Ho & _ & _ & _ & HI).
  unfold modq_open in Ho. rewrite (proj2 (is_power_of_two_iff (ring_depth c))) in Ho by (exists e; exact (co_depth c e Hc)).
  cbn [negb] in Ho. rewrite Ht in Ho. destruct (modq_init c mem) as [[m u]| |]; [|done..].
  injection Ho as ->. cbv beta iota. fold (fresh_queue c).
  assert (run body (fresh_queue c) 0 mem' = Some (MDone (Ok out))) as ->
    by (apply (Hrun (sys_init (fresh_queue c) mem')); [by split_and!|reflexivity..]).
  split; [reflexivity|by apply both_dropped].
Qed.
End threads.

(** ** The programs' configurations *)

Lemma config_1024 name size : 0 ≤ size → size + 79 < 2 ^ 32 → Config_ok (mkModqConfig (Loopback name) 1024 size) 10.
Proof. intros. constructor; cbn; lia. Qed.

Lemma fits_replicate c n p : fits c p → Forall (fits c) (replicate n p).
Proof. intros. by apply Forall_replicate. Qed.

(** The benchmark's loop: no size that fits is skipped. *)
Lemma bench_sizes_ok c e body fuel sched G elapsed :
  Config_ok c e → device_body e (Z.to_nat (modq_stride c)) body →
  timely G sched → Z.of_nat G ≤ SPIN_LIMIT → (G < fuel)%nat →
  ∀ sizes k s q out, at_rest c e s q → Forall (λ z, 0 ≤ z ≤ modq_stride c - 16) sizes →
  bench_sizes fuel body sched elapsed k sizes q (local_head s) (sys_mem s) out =
  Some (MDone (Ok (out ++ (bench_line elapsed <$> sizes) ++ BENCH_NOTES))).
Proof.
  intros Hc Hb Hsched HG Hfuel sizes. induction sizes as [|size sizes IH]; intros k s q out Hs Hsz; [reflexivity|].
  apply Forall_cons in Hsz as [Hz Hsz]. cbn [bench_sizes]. rewrite (rest_capacity c e Hc s q Hs).
  destruct (Z.ltb_spec (modq_stride c - 16) size); [lia|].
  assert (∀ n, Forall (fits c) (replicate n (replicate (Z.to_nat size) 0xAA))) as Hfit
    by (intros n; apply fits_replicate; unfold fits; rewrite length_replicate; lia).
  eapply (submit_loop_ok c e Hc _ Hb fuel sched G Hsched HG Hfuel); [exact Hs|apply Hfit|]. intros s1 q1 Hs1 _.
  eapply (submit_loop_ok c e Hc _ Hb fuel sched G Hsched HG Hfuel); [exact Hs1|apply Hfit|]. intros s2 q2 Hs2 _.
  rewrite IH by assumption. cbn [fmap list_fmap]. by rewrite <- !app_assoc.
Qed.

(** No id differs from its place in the sequence. *)
Lemma no_sequence_errors n :
  NUM_MESSAGES + Z.of_nat n ≤ 2 ^ 32 → 0 ≤ NUM_MESSAGES →
  sequence_errors ((λ n, wrap 32 (Z.of_nat n)) <$> seq (Z.to_nat NUM_MESSAGES) n) = 0.
Proof.
  intros Hn H0. unfold sequence_errors.
  set (l := imap pair _). enough (base.filter (λ p, p.2 ≠ NUM_MESSAGES + Z.of_nat p.1) l = []) as ->; [done|].
  apply elem_of_nil_inv. intros [i v] [Hne Hin]%list_elem_of_filter. cbn [fst snd] in Hne.
  apply list_elem_of_lookup_1 in Hin as [k Hk]. unfold l in Hk.
  rewrite list_lookup_imap in Hk. destruct (_ !! k) as [x|] eqn:Hx; [|discriminate Hk].
  cbn in Hk. injection Hk as <- <-. rewrite list_lookup_fmap in Hx.
  apply fmap_Some in Hx as (m & Hm & ->). apply lookup_seq in Hm as [-> Hlt].
  apply Hne. rewrite wrap_small by (unfold in_uint; lia). lia.
Qed.

(** ** Properties *)

(** C26: [modq_loopback], whole program.  On any system that grants both mappings and where
    the first slot of the object is not marked READY when the thread and the queue map it
    (a new object, or one of zeros), whichever of the two maps first, for any number of
    rounds of the device thread before and while the queue is opened, and any schedule that
    gives it a round during each wait from then on, the million and ten thousand submissions
    all succeed, the id check finds no error, and the program prints the throughput for the
    time measured and that all 10000 ids increase; at the end every descriptor and mapping
    is released.  (On an object
    left over with a READY first slot the thread starts ahead of the queue, a finding:
    [stale_slot_skews].) *)
Theorem modq_loopback_output `{PosixSpec} (fuel G : nat) (late : bool) (early : nat → nat)
    (sched : nat → nat → nat) (elapsed : Z) (σ : os) :
  timely G sched → Z.of_nat G ≤ SPIN_LIMIT → (G < fuel)%nat →
  both_open late LOOPBACK_SHM LOOPBACK_CONFIG σ = true →
  let '(σ', r) := modq_loopback fuel late early sched elapsed σ in
  r = Some (MDone (Ok
        [RingInfo 1024 304; MessagesLine NUM_MESSAGES; throughput NUM_MESSAGES 128 elapsed;
         SidsIncrease VERIFY_COUNT; Note "MODQ ring buffer protocol verified."])) ∧
  released σ σ'.
Proof.
  intros Hsched HG Hfuel Hopen.
  pose proof (config_1024 LOOPBACK_SHM 256 ltac:(lia) ltac:(lia)) as Hc. fold LOOPBACK_CONFIG in Hc.
  pose proof (body_device LOOPBACK_CONFIG 10 (fpga_body 1024 (thread_stride 256)) Hc (or_introl eq_refl)) as Hb.
  apply (beside_thread_ok LOOPBACK_CONFIG 10); [exact Hc|reflexivity|intros mem; apply fpga_idle|exact Hopen|].
  intros s Hs Hp Hh. rewrite <- Hh.
  pose proof (rest_capacity LOOPBACK_CONFIG 10 Hc s _ Hs) as Hcap.
  eapply (submit_loop_ok LOOPBACK_CONFIG 10 Hc _ Hb fuel sched G Hsched HG Hfuel);
    [exact Hs|apply fits_replicate; vm_compute; discriminate|]. intros s1 q1 Hs1 Hp1.
  eapply (submit_loop_ok LOOPBACK_CONFIG 10 Hc _ Hb fuel sched G Hsched HG Hfuel); [exact Hs1| |].
  { apply Forall_fmap, Forall_true. intros i. vm_compute. discriminate. }
  intros s2 q2 _ _.
  rewrite Hp1, Hp, app_nil_l, length_replicate, length_fmap, length_seqZ.
  rewrite no_sequence_errors by (vm_compute; discriminate). unfold ring_info. rewrite Hcap, Hh. reflexivity.
Qed.

(** On an object left over with its first slot READY, a round before the queue is open
    moves the thread's counter to 1, while the queue starts at 0. *)
Theorem stale_slot_skews (depth stride : Z) (mem : bytes) :
  (RING_BASE + 16 ≤ length mem)%nat → from_le_bytes (slice mem RING_BASE (RING_BASE + 4)) = SLOT_READY →
  (thread_rounds (fpga_body depth stride) 1 0 mem).2 = 1 ∧ (thread_rounds (sim_body depth stride) 1 0 mem).2 = 1.
Proof.
  intros Hl Hr. unfold thread_rounds, consumer, fpga_body, sim_body, device_round, bar_bind, read32, write32, read_le,
    write_le, bar_ret, SLOT_HDR_LENGTH, SLOT_HDR_SID. rewrite slot0_base.
  rewrite !(proj2 (Nat.leb_le (RING_BASE + 4) (length mem))) by lia. rewrite !Hr, Z.eqb_refl.
  rewrite !(proj2 (Nat.leb_le _ (length mem))) by lia. done.
Qed.

#[local] Existing Instances ToyOs.toy_posix ToyOs.toy_posix_spec.

(** The toy system shows zeros. *)
Lemma zeros_idle n : (RING_BASE + 4 ≤ n)%nat → slot0_idle (replicate n 0) = true.
Proof.
  intros Hn. apply slot0_idle_spec. rewrite length_replicate. split; [done|].
  assert (slice (replicate n 0) RING_BASE (RING_BASE + 4) = [0; 0; 0; 0]) as ->; [|done].
  apply list_eq. intros i. destruct (decide (i < 4)%nat) as [Hi|Hi].
  - rewrite slice_lookup by lia. rewrite lookup_replicate_2 by lia.
    destruct i as [|[|[|[|i]]]]; [done..|lia].
  - rewrite (lookup_ge_None_2 [0; 0; 0; 0]) by (cbn; lia).
    apply lookup_ge_None_2. rewrite slice_length; rewrite ?length_replicate; lia.
Qed.

Lemma toy_grants name size σ :
  has_nul name = false → Z.of_nat (RING_BASE + 4) ≤ size → (ToyOs.open_fresh σ).2 <? 0 = false →
  ∃ σ' b, BarMapping_open_shm name size σ = (σ', Ok (b, replicate (Z.to_nat size) 0)) ∧
    ToyOs.fds σ' = ToyOs.fds (ToyOs.open_fresh σ).1 ∖ {[(ToyOs.open_fresh σ).2]}.
Proof.
  intros Hn Hs Hf. unfold BarMapping_open_shm. rewrite Hn. cbn [sys_shm_open ToyOs.toy_posix].
  destruct (ToyOs.open_fresh σ) as [σ1 fd]. cbn [snd] in Hf. rewrite !Hf.
  cbn [sys_ftruncate sys_mmap ToyOs.toy_posix]. change (0 <? 0) with false. unfold ToyOs.map_fresh.
  destruct (Z.leb_spec size 0); [lia|]. by eexists _, _.
Qed.

Lemma toy_both_open late name size :
  has_nul name = false → 0 ≤ size → size + 79 < 2 ^ 32 →
  thread_stride size = modq_stride (mkModqConfig (Loopback name) 1024 size) →
  both_open late name (mkModqConfig (Loopback name) 1024 size) ToyOs.start = true.
Proof.
  intros Hn H0 Hs Et. set (c := mkModqConfig (Loopback name) 1024 size) in *.
  pose proof (config_1024 name size H0 Hs) as Hc. destruct (open_stride c 10 Hc) as (Hst & Es & _).
  assert (Z.of_nat (RING_BASE + 4) ≤ modq_total_size c) as Hbig by (unfold modq_total_size; cbn [ring_depth c]; lia).
  assert (thread_total (ring_depth c) (slot_size c) = modq_total_size c) as Ett
    by (unfold thread_total, modq_total_size; cbn [slot_size c]; by rewrite Et).
  destruct (toy_grants name (modq_total_size c) ToyOs.start) as (σ1 & b1 & E1 & Hf);
    [done|done|vm_compute; reflexivity|].
  destruct (toy_grants name (modq_total_size c) σ1) as (σ2 & b2 & E2 & _);
    [done|done|unfold ToyOs.open_fresh; cbn [snd]; rewrite Hf; vm_compute; reflexivity|].
  assert (slot0_idle (replicate (Z.to_nat (modq_total_size c)) 0) = true) as Hi by (apply zeros_idle; lia).
  unfold both_open, map_both. rewrite Ett. destruct late.
  - rewrite (host_open_eq c 10) by done. by rewrite E1, E2, Hi.
  - rewrite E1. unfold thread_rounds, bar_ret. cbn [consumer sys_stored ToyOs.toy_posix]. unfold bar_ret.
    cbv beta iota. rewrite (host_open_eq c 10) by done. by rewrite E2, Hi.
Qed.

(** The thread makes rounds from the start, and one before each submission. *)
Lemma modq_loopback_output_witness :
  both_open false LOOPBACK_SHM LOOPBACK_CONFIG ToyOs.start = true ∧
  (modq_loopback 1 false (λ _, 5%nat) (λ _ _, 1%nat) 2000000000 ToyOs.start).2 =
    Some (MDone (Ok
      [RingInfo 1024 304; MessagesLine NUM_MESSAGES; throughput NUM_MESSAGES 128 2000000000;
       SidsIncrease VERIFY_COUNT; Note "MODQ ring buffer protocol verified."])).
Proof.
  assert (both_open false LOOPBACK_SHM LOOPBACK_CONFIG ToyOs.start = true) as Ho by (by apply toy_both_open).
  split; [exact Ho|].
  pose proof (modq_loopback_output 1 0 false (λ _, 5%nat) (λ _ _, 1%nat) 2000000000 ToyOs.start) as Hp.
  destruct (modq_loopback _ _ _ _ _ _) as [σ' r]. apply Hp; [|vm_compute; discriminate|lia|exact Ho].
  intros k. exists 0%nat. lia.
Defined.

Lemma position_none a l : (∀ b, b ∈ l → b ≠ a) → position a l = None.
Proof.
  induction l as [|b l IH]; intros Hl; [done|]. cbn [position].
  rewrite decide_False by (apply Hl; left). by rewrite IH by (intros; apply Hl; by right).
Qed.

Lemma position_last a l : (∀ b, b ∈ l → b ≠ a) → position a (l ++ [a]) = Some (length l).
Proof.
  induction l as [|b l IH]; intros Hl; cbn [position app length]; [by rewrite decide_True|].
  rewrite decide_False by (apply Hl; left). by rewrite IH by (intros; apply Hl; by right).
Qed.

Definition BENCH_CONFIG : ModqConfig := mkModqConfig (Loopback BENCH_SHM) 1024 4096.

(** [modq_bench].  Without [--loopback] and [--pci] it stops with the usage line, with
    a trailing [--pci] with the message about the path, and in neither case touches the
    system.  With [--loopback] (whatever else is given), on a system that grants both
    mappings and shows the first slot idle, whatever rounds the thread makes before, and
    under a schedule that gives it a round during each wait, no submission fails and all
    six sizes are measured, none skipped; everything is released. *)
Theorem modq_bench_output `{PosixSpec} (args : list string) (fuel G : nat) (hardware : Z → bar_op Z)
    (late : bool) (early : nat → nat) (sched : nat → nat → nat) (elapsed : Z → Z) (σ : os) :
  ((∀ a, a ∈ args → a ≠ "--loopback"%string ∧ a ≠ "--pci"%string) →
   modq_bench args fuel hardware late early sched elapsed σ =
     (σ, Some (MDone (Err (Panicked "Usage: modq_bench --loopback | --pci <resource_path>"))))) ∧
  (∀ pre, (∀ a, a ∈ pre → a ≠ "--loopback"%string ∧ a ≠ "--pci"%string) →
   args = pre ++ ["--pci"%string] →
   modq_bench args fuel hardware late early sched elapsed σ =
     (σ, Some (MDone (Err (Panicked "--pci requires a path argument"))))) ∧
  ("--loopback"%string ∈ args → timely G sched → Z.of_nat G ≤ SPIN_LIMIT → (G < fuel)%nat →
   both_open late BENCH_SHM BENCH_CONFIG σ = true →
   let '(σ', r) := modq_bench args fuel hardware late early sched elapsed σ in
   r = Some (MDone (Ok ([RingInfo 1024 4144] ++ (bench_line elapsed <$> [64; 128; 256; 512; 1024; 4096])
                        ++ BENCH_NOTES))) ∧
   released σ σ').
Proof.
  split_and!.
  - intros Ha. unfold modq_bench, bench_mode.
    rewrite bool_decide_false by (by intros Hin; destruct (Ha _ Hin)).
    by rewrite position_none by (intros b Hin; apply Ha, Hin).
  - intros pre Ha ->. unfold modq_bench, bench_mode.
    rewrite bool_decide_false by (intros [Hin|Hin]%elem_of_app; [by destruct (Ha _ Hin)|by apply list_elem_of_singleton in Hin]).
    rewrite position_last by (intros b Hin; apply Ha, Hin).
    by rewrite lookup_ge_None_2 by (rewrite length_app; cbn; lia).
  - intros Hin Hsched HG Hfuel Hopen. unfold modq_bench, bench_mode. rewrite bool_decide_true by exact Hin.
    pose proof (config_1024 BENCH_SHM 4096 ltac:(lia) ltac:(lia)) as Hc. fold BENCH_CONFIG in Hc |- *.
    pose proof (body_device BENCH_CONFIG 10 (sim_body 1024 (thread_stride 4096)) Hc (or_intror eq_refl)) as Hb.
    apply (beside_thread_ok BENCH_CONFIG 10); [exact Hc|reflexivity|intros mem; apply sim_idle|exact Hopen|].
    intros s Hs Hp Hh. unfold bench_run. rewrite <- Hh.
    rewrite (bench_sizes_ok BENCH_CONFIG 10 _ fuel sched G elapsed Hc Hb Hsched HG Hfuel); [|exact Hs|].
    + unfold ring_info. rewrite (rest_capacity BENCH_CONFIG 10 Hc s _ Hs). reflexivity.
    + repeat constructor; vm_compute; discriminate.
Qed.

Lemma modq_bench_output_witness :
  (modq_bench ["modq_bench"; "--verbose"]%string 1 bar_ret true (λ _, 0%nat) (λ _ _, 1%nat) (λ _, 7) ToyOs.start).2 =
    Some (MDone (Err (Panicked "Usage: modq_bench --loopback | --pci <resource_path>"))) ∧
  (modq_bench ["modq_bench"; "--loopback"]%string 1 bar_ret true (λ _, 0%nat) (λ _ _, 1%nat) (λ _, 7) ToyOs.start).2 =
    Some (MDone (Ok ([RingInfo 1024 4144] ++
      (bench_line (λ _, 7) <$> [64; 128; 256; 512; 1024; 4096]) ++ BENCH_NOTES))).
Proof.
  pose proof (λ a, modq_bench_output a 1 0 bar_ret true (λ _, 0%nat) (λ _ _, 1%nat) (λ _, 7) ToyOs.start) as Hp. split.
  - rewrite (proj1 (Hp _)); [reflexivity|]. intros a Ha. repeat (apply elem_of_cons in Ha as [->|Ha]; [done|]).
    by apply elem_of_nil in Ha.
  - pose proof (proj2 (proj2 (Hp ["modq_bench"; "--loopback"]%string))) as Hl.
    destruct (modq_bench ["modq_bench"; "--loopback"]%string _ _ _ _ _ _ _) as [σ' r]. apply Hl.
    + right. left.
    + intros k. exists 0%nat. lia.
    + vm_compute. discriminate.
    + lia.
    + by apply toy_both_open.
Defined.

Definition DEMO_CONFIG : ModqConfig := mkModqConfig (Loopback DEMO_SHM) 1024 512.

Lemma modq_values_fit :
  Forall (fits DEMO_CONFIG) [encode modq_order; encode modq_tick; encode modq_heartbeat; encode bulk_order].
Proof. repeat (constructor; [vm_compute; discriminate|]). constructor. Qed.

(** [otap-modq-loopback], whole program.  On a system that grants both mappings and
    shows the first slot idle, whatever rounds the thread makes before, and under a
    schedule that gives it a round during each wait, [main] returns [Ok]: the
    order, the tick and the heartbeat go through the ring as 256, 64 and 32 bytes with the
    ids 0, 1 and 2, a million more orders follow without a failure, and everything is
    released. *)
Theorem otap_modq_loopback_output `{PosixSpec} (fuel G : nat) (late : bool) (early : nat → nat)
    (sched : nat → nat → nat) (elapsed : Z) (σ : os) :
  timely G sched → Z.of_nat G ≤ SPIN_LIMIT → (G < fuel)%nat → both_open late DEMO_SHM DEMO_CONFIG σ = true →
  let '(σ', r) := otap_modq_loopback fuel late early sched elapsed σ in
  r = Some (MDone (Ok
        [RingInfo 1024 560; PayloadLine "EquityTradeOrder" 256 0; PayloadLine "MarketTick" 64 1;
         PayloadLine "Heartbeat" 32 2; throughput NUM_MESSAGES 256 elapsed;
         Note "== MODQ loopback demo complete. =="])) ∧
  released σ σ'.
Proof.
  intros Hsched HG Hfuel Hopen.
  pose proof (config_1024 DEMO_SHM 512 ltac:(lia) ltac:(lia)) as Hc. fold DEMO_CONFIG in Hc.
  pose proof (body_device DEMO_CONFIG 10 (sim_body 1024 (thread_stride 512)) Hc (or_intror eq_refl)) as Hb.
  pose proof modq_values_fit as Hfit. rewrite !Forall_cons in Hfit. destruct Hfit as (F1 & F2 & F3 & F4 & _).
  apply (beside_thread_ok DEMO_CONFIG 10); [exact Hc|reflexivity|intros mem; apply sim_idle|exact Hopen|].
  intros s Hs Hp Hh. rewrite <- Hh. pose proof (rest_capacity DEMO_CONFIG 10 Hc s _ Hs) as Hcap.
  eapply (submit_loop_ok DEMO_CONFIG 10 Hc _ Hb fuel sched G Hsched HG Hfuel); [exact Hs|by repeat constructor|].
  intros s1 q1 Hs1 Hp1.
  eapply (submit_loop_ok DEMO_CONFIG 10 Hc _ Hb fuel sched G Hsched HG Hfuel); [exact Hs1|by repeat constructor|].
  intros s2 q2 Hs2 Hp2.
  eapply (submit_loop_ok DEMO_CONFIG 10 Hc _ Hb fuel sched G Hsched HG Hfuel); [exact Hs2|by repeat constructor|].
  intros s3 q3 Hs3 Hp3.
  eapply (submit_loop_ok DEMO_CONFIG 10 Hc _ Hb fuel sched G Hsched HG Hfuel); [exact Hs3|by apply fits_replicate|].
  intros s4 q4 _ _. rewrite Hp2, Hp1, Hp. unfold ring_info. rewrite Hcap, ?Hh. reflexivity.
Qed.

Lemma otap_modq_loopback_output_witness :
  (otap_modq_loopback 1 false (λ _, 0%nat) (λ _ _, 1%nat) 5 ToyOs.start).2 =
    Some (MDone (Ok
      [RingInfo 1024 560; PayloadLine "EquityTradeOrder" 256 0; PayloadLine "MarketTick" 64 1;
       PayloadLine "Heartbeat" 32 2; throughput NUM_MESSAGES 256 5;
       Note "== MODQ loopback demo complete. =="])).
Proof.
  pose proof (otap_modq_loopback_output 1 0 false (λ _, 0%nat) (λ _ _, 1%nat) 5 ToyOs.start) as Hp.
  destruct (otap_modq_loopback _ _ _ _ _ _) as [σ' r]. apply Hp.
  - intros k. exists 0%nat. lia.
  - vm_compute. discriminate.
  - lia.
  - by apply toy_both_open.
Defined.
