(* ===== verification/Endpoint.v ===== *)
(** * otap-obg, modq_backend.rs: one endpoint over two transports

    Models [src/crates/otap-obg/src/modq_backend.rs]: the software endpoint only
    counts sequence ids, the hardware one drives the MODQ queue of [Modq.v].  The
    mapped region is threaded as there; the device and other software may change it
    between two calls. *)

From stdpp Require Import pretty.
From S2P Require Import Prelude Core Schema Modq.
Local Open Scope string_scope.
Local Open Scope Z_scope.

Record EndpointCompletion : Type := mkEndpointCompletion {
  ec_sequence_id : Z;
  ec_schema_id : SchemaId;
}.

Inductive EndpointError : Type :=
| EPayloadTooLarge (got max : Z)
| RingTimeout
| ESoftDriver (msg : string)
| EModq (msg : string).

Inductive EndpointConfig : Type :=
| SoftwareConfig
| HardwareConfig (modq_config : ModqConfig).

Inductive OtapEndpoint : Type :=
| Software (ep_next_sid : Z)
| Hardware (queue : ModqQueue).

(** [Display] of [ModqError] *)
Definition ModqError_to_string (e : ModqError) : string :=
  match e with
  | BarOpen path source =>
      "failed to open BAR resource at " +:+ path +:+ ": " +:+ source
  | BarEmpty path =>
      "BAR resource at " +:+ path +:+ " has zero size — device may not be enumerated"
  | MmapFailed path => "mmap failed for " +:+ path
  | InvalidRingDepth depth => "ring depth must be a power of 2, got " +:+ pretty depth
  | InvalidShmName name => "invalid shared memory name: " +:+ name
  | ShmOpenFailed name => "failed to open shared memory: " +:+ name
  | ShmTruncateFailed name => "failed to truncate shared memory: " +:+ name
  end.

(** The software endpoint maps nothing: its region is empty. *)
Definition endpoint_open (bar_open : string → result bytes ModqError)
    (bar_open_shm : string → Z → result bytes ModqError) (config : EndpointConfig)
    : mmio (result (bytes * OtapEndpoint) EndpointError) :=
  match config with
  | SoftwareConfig => MDone (Ok ([], Software 0))
  | HardwareConfig c =>
      match modq_open bar_open bar_open_shm c with
      | MDone (Ok (mem, queue)) => MDone (Ok (mem, Hardware queue))
      | MDone (Err e) => MDone (Err (EModq (ModqError_to_string e)))
      | MPanic => MPanic
      | MUndef => MUndef
      end
  end.

Definition ring_error (e : RingError) : EndpointError :=
  match e with
  | PayloadTooLarge got max => EPayloadTooLarge got max
  | Timeout _ => RingTimeout
  end.

Definition endpoint_submit (fuel : nat) (dev : nat → bytes → bytes) (ep : OtapEndpoint)
    (_schema_id : SchemaId) (payload mem : bytes)
    : option (mmio (bytes * (OtapEndpoint * result Z EndpointError))) :=
  match ep with
  | Software next_sid => Some (MDone (mem, (Software (wrapping_add 32 next_sid 1), Ok next_sid)))
  | Hardware queue =>
      match modq_submit fuel dev queue payload mem with
      | None => None
      | Some (MDone (mem, (queue, Ok sid))) => Some (MDone (mem, (Hardware queue, Ok sid)))
      | Some (MDone (mem, (queue, Err e))) => Some (MDone (mem, (Hardware queue, Err (ring_error e))))
      | Some MPanic => Some MPanic
      | Some MUndef => Some MUndef
      end
  end.

Definition poll_completion (ep : OtapEndpoint) : bar_op (OtapEndpoint * option EndpointCompletion) :=
  match ep with
  | Software _ => bar_ret (ep, None)
  | Hardware queue =>
      bar_bind (modq_poll queue) (λ res,
        bar_ret (Hardware res.1,
                 (λ c, mkEndpointCompletion (sequence_id c) IdEquityTradeOrder) <$> res.2))
  end.

Definition max_payload (ep : OtapEndpoint) : Z :=
  match ep with
  | Software _ => Z.of_nat (PAYLOAD_BYTES EquityTradeOrder)
  | Hardware queue => slot_payload_capacity (tx queue)
  end.

Definition is_hardware (ep : OtapEndpoint) : bool :=
  match ep with Hardware _ => true | Software _ => false end.

(** ** Sequence ids *)

(** The counter either transport draws its ids from. *)
Definition sid_counter (ep : OtapEndpoint) : Z :=
  match ep with
  | Software next_sid => next_sid
  | Hardware queue => next_sid (tx queue)
  end.

(** Calls of an endpoint, with the ids they returned: each call finds whatever
    region the device left. *)
Inductive ep_trace : OtapEndpoint → list Z → OtapEndpoint → Prop :=
| TraceNil ep : ep_trace ep [] ep
| TraceOk ep ep' ep'' fuel dev id p mem mem' sid l :
    endpoint_submit fuel dev ep id p mem = Some (MDone (mem', (ep', Ok sid))) →
    ep_trace ep' l ep'' → ep_trace ep (sid :: l) ep''
| TraceErr ep ep' ep'' fuel dev id p mem mem' err l :
    endpoint_submit fuel dev ep id p mem = Some (MDone (mem', (ep', Err err))) →
    ep_trace ep' l ep'' → ep_trace ep l ep''
| TracePoll ep ep' ep'' mem mem' c l :
    poll_completion ep mem = MDone (mem', (ep', c)) →
    ep_trace ep' l ep'' → ep_trace ep l ep''.

Lemma fill_slot_ring r base p mem mem' r' sid :
  fill_slot r base p mem = MDone (mem', (r', sid)) → sid = next_sid r ∧ r' = advance_tail r.
Proof.
  unfold fill_slot, submission_stores, run_stores, bar_bind. intros H.
  repeat match type of H with
         | match ?m with _ => _ end = _ => destruct m as [[? []]| |]; [|discriminate H|discriminate H]
         end.
  unfold bar_ret in H. apply MDone_inj in H as [_ H]. by apply pair_equal_spec in H as [<- <-].
Qed.

Lemma submit_ring fuel dev r p mem mem' r' res :
  submit fuel dev r p mem = Some (MDone (mem', (r', res))) →
  match res with
  | Ok sid => sid = next_sid r ∧ r' = advance_tail r
  | Err _ => r' = r
  end.
Proof.
  unfold submit. destruct (_ <? _); [by intros [= <- <- <-]|].
  destruct (tx_depth r =? 0); [discriminate|].
  destruct (slot_base _ _ _) as [index base].
  destruct (wait_free _ _ _ _ _ _) as [[[m [|]]| |]|]; try discriminate; [|by intros [= <- <- <-]].
  destruct (fill_slot r base p m) as [[m' [r'' sid]]| |] eqn:Ef; try discriminate.
  intros [= <- <- <-]. by eapply fill_slot_ring.
Qed.

Lemma endpoint_submit_sid fuel dev ep id p mem mem' ep' res :
  endpoint_submit fuel dev ep id p mem = Some (MDone (mem', (ep', res))) →
  match res with
  | Ok sid => sid = sid_counter ep ∧ sid_counter ep' = wrapping_add 32 (sid_counter ep) 1
  | Err _ => sid_counter ep' = sid_counter ep
  end.
Proof.
  destruct ep as [n|q]; cbn [endpoint_submit]; [by intros [= <- <- <-]|].
  unfold modq_submit. destruct (submit _ _ _ _ _) as [[[m [r r0]]| |]|] eqn:Es; try discriminate.
  apply submit_ring in Es. destruct r0 as [sid|e]; intros [= <- <- <-]; cbn [sid_counter tx].
  - by destruct Es as [-> ->].
  - by rewrite Es.
Qed.

Lemma poll_sid ep mem mem' ep' c :
  poll_completion ep mem = MDone (mem', (ep', c)) → sid_counter ep' = sid_counter ep.
Proof.
  destruct ep as [n|q]; cbn [poll_completion]; [by intros [= <- <- <-]|].
  unfold modq_poll, bar_bind, bar_ret. destruct (ring_poll (cring q) mem) as [[m r]| |]; [|done|done].
  by intros [= <- <- <-].
Qed.

Lemma trace_sids ep l ep' :
  ep_trace ep l ep' → ∀ n : nat, sid_counter ep = wrap 32 (Z.of_nat n) →
  l = (λ k : nat, wrap 32 (Z.of_nat k)) <$> seq n (length l).
Proof.
  induction 1 as [|ep ep1 ep' fuel dev id p mem mem' sid l Hs _ IH
    |ep ep1 ep' fuel dev id p mem mem' err l Hs _ IH|ep ep1 ep' mem mem' c l Hp _ IH]; intros n Hn.
  - done.
  - apply endpoint_submit_sid in Hs as [-> Hs]. cbn [length seq fmap list_fmap]. rewrite Hn. f_equal.
    apply (IH (S n)). rewrite Hs, Hn, wrapping_add_wrap. f_equal. lia.
  - apply endpoint_submit_sid in Hs. apply IH. by rewrite Hs.
  - apply poll_sid in Hp. apply IH. by rewrite Hp.
Qed.

(** C39: An endpoint's sequence ids, whatever its transport: over any calls of [submit] and
    [poll_completion] on an opened endpoint, and whatever the device does to the mapped
    region meanwhile, the successful submissions return 0, 1, 2, ... in order modulo
    2^32; a failed submission (payload too large, timeout) and a poll consume no id. *)
Theorem endpoint_sids bar_open bar_open_shm config mem ep l ep' :
  endpoint_open bar_open bar_open_shm config = MDone (Ok (mem, ep)) → ep_trace ep l ep' →
  l = (λ k : nat, wrap 32 (Z.of_nat k)) <$> seq 0 (length l).
Proof.
  intros Ho Ht. apply (trace_sids ep l ep' Ht 0). destruct config as [|c]; cbn [endpoint_open] in Ho.
  - by injection Ho as <- <-.
  - unfold modq_open in Ho. destruct (negb _); [discriminate Ho|].
    destruct (transport c).
    + destruct (bar_open _); [|discriminate Ho]. by injection Ho as <- <-.
    + destruct (bar_open_shm _ _) as [m|]; [|discriminate Ho].
      destruct (modq_init c m) as [[m' u]| |]; [|discriminate Ho|discriminate Ho].
      by injection Ho as <- <-.
Qed.

(** The completion's schema is a constant: the schema submitted is not kept. *)
Lemma completion_schema ep mem mem' ep' c :
  poll_completion ep mem = MDone (mem', (ep', Some c)) → ec_schema_id c = IdEquityTradeOrder.
Proof.
  destruct ep as [n|q]; cbn [poll_completion]; [discriminate|].
  unfold modq_poll, bar_bind, bar_ret. destruct (ring_poll (cring q) mem) as [[m [r [d|]]]| |]; try discriminate.
  by intros [= <- <- <-].
Qed.

Lemma endpoint_sids_witness :
  ∃ mem ep ep', endpoint_open example_bar example_shm (HardwareConfig example_config) =
      MDone (Ok (mem, ep)) ∧ ep_trace ep [0; 1] ep' ∧
    [0; 1] = (λ k : nat, wrap 32 (Z.of_nat k)) <$> seq 0 2.
Proof.
  set (o := endpoint_open example_bar example_shm (HardwareConfig example_config)).
  destruct o as [[[mem ep]|]| |] eqn:Eo; [|exfalso..].
  2: { vm_compute in Eo. discriminate Eo. }
  2: { vm_compute in Eo. discriminate Eo. }
  2: { vm_compute in Eo. discriminate Eo. }
  vm_compute in Eo. injection Eo as Em Eep.
  assert (∃ ep', ep_trace ep [0; 1] ep') as [ep' Ht].
  { subst. eexists.
    eapply (TraceOk _ _ _ 1 (λ _ m, m) IdMarketTick [5] (replicate (Z.to_nat 4160) 0));
      [vm_compute; reflexivity|].
    eapply (TraceErr _ _ _ 1 (λ _ m, m) IdMarketTick (replicate 49 5) (replicate (Z.to_nat 4160) 0));
      [vm_compute; reflexivity|].
    eapply (TraceOk _ _ _ 1 (λ _ m, m) IdMarketTick [5] (replicate (Z.to_nat 4160) 0));
      [vm_compute; reflexivity|]. apply TraceNil. }
  exists mem, ep, ep'. split; [unfold o; vm_compute; congruence|]. split; [exact Ht|].
  apply (endpoint_sids example_bar example_shm (HardwareConfig example_config) mem ep [0; 1] ep');
    [vm_compute; congruence|exact Ht].
Defined.
